(* ===== verification/_CoqProject ===== *)
-Q . S2P
Prelude.v
CxxString.v
Address.v
MethodThread.v
Fifo.v
ThrPool.v
ObjJob.v
Marshall.v
Connection.v
ScopedLock.v
ConnRefs.v
Sender.v
PollMgr.v
Process.v
Acceptor.v
RpcServer.v
RpcTime.v
Gettime.v
RpcClient.v
RpcCancel.v
RpcCall.v
ServerRun.v
ServerLife.v
ClientRun.v
Stubs.v
RpcTest.v
RpcTestRun.v
Handle.v
ExtentServer.v
Wire.v
ExtentClient.v
Coherence.v
LockServer.v
LockClient.v
Services.v
ServerMain.v
LockProtocol.v
Cluster.v
YfsClient.v
Serial.v
History.v
Distributed.v
Stack.v
LockTester.v
FileSystem.v
Tree.v
Fuse.v
FuseMain.v
LabTest.v
LabTestRun.v
