(* ===== verification/Prelude.v ===== *)
(** * YFS: a verification library for the Yet-Another-File-System code

    ** The program

    A distributed file system in C++.  A FUSE process (fuse.cc) serves a mounted
    directory; its yfs_client (yfs_client.cc) stores files and directories as extents,
    numbered byte strings, and takes the lock of the same number around each operation.
    Extents are kept by the extent server (extent_server.cc, extent_smain.cc) and cached
    at the client (extent_client.cc); locks are kept by the lock server
    (lock_server_cache.cc, lock_smain.cc; an earlier one in lock_server.cc) and cached
    at the client (lock_client_cache.cc), which answers revoke and retry calls and flushes
    the extent before it returns its lock (lock_release_action).  Client and servers talk
    by an RPC library of their own (rpc/): marshalling, framed connections, a poll
    manager, a thread pool, clients that retransmit and servers that run a request at
    most once.

    ** The files

    The library of C and C++ that the code uses, and what all files share:
    - Prelude: outcomes and faults, machine integers, memory blocks, the tactics [run]
      and the hint database [yfs], generic lemmas.
    - CxxString: std::string, string streams, C strings.
    The RPC library, src/rpc:
    - Address: make_sockaddr, and the id of a lock client made for it.
    - MethodThread: method_thread.h, threads that run a method.
    - Fifo, ThrPool, ObjJob: fifo.h, thr_pool.cc, thr_pool.h; threads, condition
      variables and workers as step relations, and the jobs that call a method.
    - Marshall: marshall.h and the operators of rpc.cc, with the class [CodecOK] that
      says what an encoding promises; every type's operators are instances of it.
      Wire: the types of all values that the program sends, and their round trip.
    - Connection, Sender: connection.h, connection.cc; one operation at a time, and the
      threads that send on one connection.
    - ScopedLock: slock.h, scoped locks as blocks of programs with threads.  ConnRefs: the
      counts of shared connection objects, used by both ends below.
    - PollMgr, Acceptor: pollmgr.cc; tcpsconn and connect_to_dst of connection.cc.
    - Process: what a process sets up once: the instance of the poll manager, the seed of
      the random numbers, logging (jsl_log.h, tprintf.h); unmount.cc.
    - RpcServer: class rpcs (dispatch, reply windows, registration).
    - RpcTime: the timespec functions.  Gettime: gettime.cc.  RpcClient: class rpcc (call1, bind, got_pdu, the
      window of answered xids).  RpcCancel: cancel and the destructor.
    - RpcCall: both ends together, and [remote], the contract of a call that the
      clients of the library rely on.  Stubs: the call and reg templates of each arity.
    - ServerRun, ServerLife: the running server: dispatch cut at its critical sections, and
      the listener, the workers, the queue, dying connections and the destructor
      interleaved; its properties.  ClientRun: the threads in call1 of one client with
      their connection, replies, cancel and the destructor interleaved.
    - RpcTest, RpcTestRun: rpctest.cc; its service and what its calls return, and its
      threads and tests as programs over a specification of what the library promises.
    The services:
    - Handle: handle.cc.
    - ExtentServer, ExtentClient: the extent server, the caching client over [remote].
    - Coherence: several caches over one server under a discipline of locks.
    - LockServer, LockClient: both lock servers, the caching lock client.
    - Services: the registrations of the main programs against the calls of the clients;
      lock_client.cc.  ServerMain: the server programs from their command line, with the
      listening socket; the constructor of lock_client and lock_demo.cc.
    - LockProtocol: all threads of all lock clients with the lock server, as a step
      relation.  Cluster: that protocol with the extent caches, which discharges the
      discipline that Coherence assumes.  LockTester: the programs of lock_tester.cc over
      the protocol.
    The file system:
    - YfsClient: yfs_client.cc over an interface of locks and extents ([FsOps], with the
      laws [FsSpec]).
    - Serial: the same code against a script of the calls it makes and their answers;
      it takes all its locks before it gives one back.  History: what threads do
      interleaved, put in serial order.  Distributed: the runs of Cluster as such
      histories.
    - Stack: the client's lock cache and extent cache as an implementation of [FsOps].
    - FileSystem: what the operations of yfs_client do on any implementation.
    - Tree: a tree of files and directories, the abstract file system.
    - Fuse, FuseMain: the handlers of fuse.cc, its table of operations and main.
    - LabTest, LabTestRun: test-lab-3-b.c and test-lab-3-c.c as programs over system
      calls, a logic for them and their proofs.

    A file models the state of a class as a record with the fields of the class and each
    method as a function on it, on every branch; where a method gives up a mutex, waits
    or calls out, its critical sections are separate functions and a step relation
    interleaves them.  A definition names its function in its comment where the names
    differ.  Code that is not part of the repository is an argument: answers of the
    operating system (what a write accepts, the clock, random numbers, select, inet_addr),
    FUSE's buffer of directory entries, the contents of fresh memory ([junk]).

    ** The theorems

    - Each part by itself: encodings round-trip (Marshall), packets arrive whole
      whatever the pieces (Connection) and whoever else sends (Sender), queues and pools
      lose nothing and end (Fifo, ThrPool), methods given to threads and pools are called
      once and their objects freed (MethodThread, ObjJob), callbacks stop when they are removed
      (PollMgr), reference counts are exact (Handle, Acceptor), times add up (RpcTime),
      addresses round-trip (Address), the clock is exact in its range (Gettime), and
      scoped blocks are atomic (ScopedLock), as the step relations of the other files
      take them to be.
    - RPC: a server runs a request at most once and answers duplicates with the recorded
      reply (RpcServer); the client's window denotes the set of answered calls, the
      retransmission loop and cancel end (RpcClient, RpcCancel); a call returns what the
      method returned, for the types of all calls of the program (RpcCall, Stubs,
      Services, with the one call that the registered handler cannot read); a restarted
      server refuses its old clients (RpcTest).
    - The running endpoints: the sections of dispatch run without interruption are
      [dispatch] ([dispatch_sections]), and a call of [call1], which returns, is a run of
      its thread ([call1_returns]); in every interleaving of a server's threads a
      handler runs at most once per request, the references to connections are exact and
      the destructor ends or a worker is stuck (ServerLife); in every interleaving of a client's threads the
      references are exact, nothing fails, all connections are freed at the end, and each
      call gets its own reply (ClientRun).
    - Extents and locks: the server is a map (ExtentServer), a cache reads its writes
      (ExtentClient), locks exclude (LockServer, LockProtocol), and the caches under the
      lock protocol are one map (Coherence, Cluster).
    - Files: what create, lookup, readdir, read, write, updatesize and unlink do to the
      stored directory text and contents, with no lock left held (FileSystem); together
      they are the operations of a tree of files and directories (Tree), also through
      the FUSE handlers (FuseMain).
    - The system: operations of threads at several clients are linearizable (Distributed),
      so what all clients see is one tree (Tree).  The proof has three parts: the code is
      two-phase locked whatever answers it gets (Serial); histories of two-phase locked
      scripts can be reordered (History); the cached locks and extents of a run of the
      cluster answer as one map (Cluster), so its calls are such a history.
    - The tests: the programs of lock_tester.cc, rpctest.cc, test-lab-3-b.c and
      test-lab-3-c.c fail none of their checks, in any interleaving of their threads and
      processes, over the lock protocol, over a specification of the RPC library ([answers]
      of RpcTestRun, which is not derived from the model of rpc.cc) and over a contract of
      the system calls.
    - Where the code does not do what it means to, a theorem shows it on the same
      definitions: races and deadlocks as runs, undefined behaviour as faults.  The main
      theorems then state the condition they need, which the next part lists.

    ** What is undefined, blocks or fails

    An operation whose behaviour C++ or POSIX leaves undefined is a fault (Prelude,
    [fault]), or ends the run where a step relation has no result for it:
    - [trim_window] (RpcServer) writes through the freed node of the reply list:
      [UseAfterFree], unless the class [allocator] says that freed nodes keep their
      contents ([KeepsFreed]).  Theorems about the window hold with the fault as an
      outcome, or have [KeepsFreed] as a hypothesis.
    - The handlers of fuse.cc that reply an error and go on use a request that
      [fuse_reply_err] has freed: [fuse_reply] of a request already answered is
      [UseAfterFree]; the sessions of FuseMain are those in which no such error occurs.
    - A mutex unlocked by a thread that does not have it, after a failed revoke in
      [lock_server_cache::acquire] or a failed release in the lock client, is
      [NotLocked] ([lsc_revoke_status]); in LockProtocol the thread comes to [Undefined]
      and the run ends there ([defined]).
    - A sender that [connection::send] blocks stays where it is: [DBlocked] for a worker
      of the server (ServerRun), a caller stuck in send or connect in RpcCancel.
      [wait_reply] (RpcClient) is the loop of waits in [call1], with the answer of each
      wait an argument; with a deadline of [10^9] nanoseconds it spins ([call1_spins]).
    - Calls between lock client and lock server may fail before their handler has begun
      or with their reply lost ([failures] of LockProtocol: [Never], only [Unserved], or
      [Anytime]); a retry is not taken to reach the client after its call has failed.
      [lstep] is one step under these, [step] the steps up to the first undefined one.
    - [step] and [lstep] have a flag for runs in which no thread changes a lock between
      give_back's unlocked look and its change; [give_back_breaks_mutual_exclusion] shows
      what happens otherwise.
    - The extent server and the extent client lock none of their maps; Coherence and
      Cluster take each operation on them as one step, and calls of the extent server as
      successful.
    The tree of Tree is that of a file system: its writes go anywhere and its unlink
    takes the node away.  [tree_step] excludes what the code does otherwise: a write
    past the start of an empty file, names with spaces, data with zero bytes.
    Other conditions: acknowledgements in order for at most once, no reply freed while it
    is sent, clients with a nonce and handlers that return ([job_ok]) for the running
    server, no spurious wake-up for block_remove_fd, names without clashes for unlink.

    ** Bounds and fuel

    Packets are below [max_packet], the 10 MB that connections accept (MAX_PDU), so that
    the [int] capacity of a marshall buffer does not overflow either.  Numbers are printed
    with twenty digits, enough for 64 bits.  [split] of YfsClient runs on the length of
    its text, and [split_refines] shows that this is enough; the retransmission loop runs
    on a list of rounds and [wait_reply] on a list of waits, and [call1_returns] gives the
    number of rounds that is enough for a timeout (nine for the default of two minutes); [generate_inum] runs on the list
    of random numbers and ends at the first unused one.  Running out of any of these is
    the fault [NoFuel].

    In RpcTestRun, whose specification of the library stands for a network that delivers, the default timeout of a call, two minutes, is taken as no bound, and
    the loop of the lossy test, which looks at the clock, runs for any given number of
    rounds.

    ** Not modelled

    Packet checksums (off in the build), the text of log messages, the endless sleep of
    the servers.  The operating system, the FUSE library and
    the thread library are arguments or contracts.  In Cluster a thread holds one lock; an
    operation that holds several is a group of threads ([job] of Distributed), and its
    code is run as it is against their calls. *)

From stdpp Require Import base tactics numbers list gmap strings sorting.
From Stdlib Require Import ZArith Lia Ascii.

Global Set Default Goal Selector "!".

(** ** Faults and outcomes

    The C++ code stops in ways a plain return value does not show: a failed
    [VERIFY] (lang/verify.h, [assert]/[abort]), a [std::out_of_range] thrown by
    the string library, an access the language leaves undefined, a thread that
    blocks for ever, a loop that does not end.  An operation that may do so
    returns an [outcome]. *)
Inductive fault : Type :=
  | VerifyFailed
  | StringOutOfRange
  | OutOfBounds
  | UseAfterFree
  | NotLocked      (* pthread_mutex_unlock by a thread that has not locked the mutex *)
  | NullDeref
  | EmptyFront
  | SignedOverflow
  | DivideByZero
  | Deadlock
  | NoFuel.

Inductive outcome (A : Type) : Type :=
  | Ok (a : A)
  | Fault (f : fault).
Arguments Ok {A} a.
Arguments Fault {A} f.

#[global] Instance fault_eq_dec : EqDecision fault.
Proof. solve_decision. Defined.

#[global] Instance outcome_ret : MRet outcome := λ A a, Ok a.
#[global] Instance outcome_bind : MBind outcome := λ A B k m,
  match m with Ok a => k a | Fault f => Fault f end.

(** [VERIFY(b)]. *)
Definition VERIFY (b : bool) : outcome unit :=
  if b then Ok () else Fault VerifyFailed.

(** ** Machine integers *)
Definition u8 (z : Z) : Z := (z mod 2 ^ 8)%Z.
Definition u16 (z : Z) : Z := (z mod 2 ^ 16)%Z.
Definition u32 (z : Z) : Z := (z mod 2 ^ 32)%Z.
Definition u64 (z : Z) : Z := (z mod 2 ^ 64)%Z.
Definition i8 (z : Z) : Z := ((z + 2 ^ 7) mod 2 ^ 8 - 2 ^ 7)%Z.
Definition i16 (z : Z) : Z := ((z + 2 ^ 15) mod 2 ^ 16 - 2 ^ 15)%Z.
Definition i32 (z : Z) : Z := ((z + 2 ^ 31) mod 2 ^ 32 - 2 ^ 31)%Z.

Abbreviation is_u8 x := (0 <= x < 2 ^ 8)%Z (only parsing).
Abbreviation is_u16 x := (0 <= x < 2 ^ 16)%Z (only parsing).
Abbreviation is_u32 x := (0 <= x < 2 ^ 32)%Z (only parsing).
Abbreviation is_u64 x := (0 <= x < 2 ^ 64)%Z (only parsing).
Abbreviation is_i16 x := (- 2 ^ 15 <= x < 2 ^ 15)%Z (only parsing).
Abbreviation is_i32 x := (- 2 ^ 31 <= x < 2 ^ 31)%Z (only parsing).

(** Signed [int] arithmetic: a result outside 32 bits is undefined. *)
Definition int_result (z : Z) : outcome Z :=
  if ((- 2 ^ 31 <=? z) && (z <? 2 ^ 31))%Z then Ok z else Fault SignedOverflow.

(** ** Bytes and strings

    A [char] is an [ascii] (eight bits); a [std::string], a C buffer and a
    packet are lists of them. *)
Abbreviation bytes := (list ascii).

Definition byte_of_Z (z : Z) : ascii := ascii_of_N (Z.to_N (u8 z)).
Definition Z_of_byte (c : ascii) : Z := Z.of_N (N_of_ascii c).
Definition NUL : ascii := byte_of_Z 0.

(** String literals of the source as byte lists. *)
Definition lit (s : string) : bytes := String.list_ascii_of_string s.

(** [std::string::size()] is a [size_t]; [unsigned int] copies of it truncate. *)
Definition size (s : bytes) : Z := Z.of_nat (length s).

(** ** Ordered maps

    The iteration order of [std::map] is the order of its keys. *)
Definition keys_in_order {A} (m : gmap Z A) : list Z :=
  merge_sort Z.le ((map_to_list m).*1).

(** ** Automation *)
Create HintDb yfs discriminated.
Create Rewrite HintDb cint.

(** Case on the first [match]/[if] scrutinee of the goal, keeping its equation. *)
Ltac case_goal :=
  match goal with
  | |- context [match ?x with _ => _ end] =>
      lazymatch x with
      | context [match _ with _ => _ end] => fail
      | _ => let E := fresh "E" in destruct x eqn:E
      end
  end.

(** The same in the hypotheses. *)
Ltac case_hyp :=
  match goal with
  | H : context [match ?x with _ => _ end] |- _ =>
      lazymatch x with
      | context [match _ with _ => _ end] => fail
      | _ => let E := fresh "E" in destruct x eqn:E; simplify_eq/=
      end
  end.

(** Run an [outcome] computation one bind further, unfolding nothing else. *)
Ltac run := cbn [mbind outcome_bind mret outcome_ret VERIFY].

Ltac zbool :=
  repeat match goal with
  | H : (_ <? _)%Z = true |- _ => apply Z.ltb_lt in H
  | H : (_ <? _)%Z = false |- _ => apply Z.ltb_ge in H
  | H : (_ <=? _)%Z = true |- _ => apply Z.leb_le in H
  | H : (_ <=? _)%Z = false |- _ => apply Z.leb_gt in H
  | H : (_ =? _)%Z = true |- _ => apply Z.eqb_eq in H
  | H : (_ =? _)%Z = false |- _ => apply Z.eqb_neq in H
  | H : (_ >? _)%Z = _ |- _ => rewrite Z.gtb_ltb in H
  | H : (_ >=? _)%Z = _ |- _ => rewrite Z.geb_leb in H
  | H : (_ && _)%bool = true |- _ => apply andb_prop in H as [? ?]
  | H : (_ || _)%bool = false |- _ => apply orb_false_iff in H as [? ?]
  | H : negb _ = true |- _ => apply negb_true_iff in H
  | H : negb _ = false |- _ => apply negb_false_iff in H
  end.

(** ** Integer lemmas *)
Lemma u8_small z : is_u8 z → u8 z = z.
Proof. apply Z.mod_small. Qed.
Lemma u16_small z : is_u16 z → u16 z = z.
Proof. apply Z.mod_small. Qed.
Lemma u32_small z : is_u32 z → u32 z = z.
Proof. apply Z.mod_small. Qed.
Lemma u64_small z : is_u64 z → u64 z = z.
Proof. apply Z.mod_small. Qed.
Lemma u8_range z : is_u8 (u8 z).
Proof. apply Z.mod_pos_bound. lia. Qed.
Lemma u16_range z : is_u16 (u16 z).
Proof. apply Z.mod_pos_bound. lia. Qed.
Lemma u32_range z : is_u32 (u32 z).
Proof. apply Z.mod_pos_bound. lia. Qed.
Lemma u64_range z : is_u64 (u64 z).
Proof. apply Z.mod_pos_bound. lia. Qed.
Lemma i32_range z : is_i32 (i32 z).
Proof. unfold i32. pose proof (Z.mod_pos_bound (z + 2 ^ 31) (2 ^ 32)). lia. Qed.
Lemma i32_small z : is_i32 z → i32 z = z.
Proof. intros. unfold i32. rewrite Z.mod_small by lia. lia. Qed.
Lemma i16_small z : is_i16 z → i16 z = z.
Proof. intros. unfold i16. rewrite Z.mod_small by lia. lia. Qed.
Lemma i32_u32 z : i32 (u32 z) = i32 z.
Proof. unfold i32, u32. f_equal. rewrite Zplus_mod_idemp_l. done. Qed.
Lemma i16_u16 z : i16 (u16 z) = i16 z.
Proof. unfold i16, u16. f_equal. rewrite Zplus_mod_idemp_l. done. Qed.
Lemma u32_i32 z : u32 (i32 z) = u32 z.
Proof.
  unfold i32, u32. rewrite Zminus_mod_idemp_l. f_equal. lia.
Qed.
Lemma u32_u64 z : u32 (u64 z) = u32 z.
Proof.
  unfold u32, u64. apply Z.mod_mod_divide. by exists (2 ^ 32)%Z.
Qed.

#[export] Hint Resolve u8_range u16_range u32_range u64_range i32_range : yfs.
#[export] Hint Rewrite u8_small u16_small u32_small u64_small i32_small i16_small
  using (assumption || lia) : cint.

(** ** Byte lemmas *)
Lemma Z_of_byte_range c : is_u8 (Z_of_byte c).
Proof. unfold Z_of_byte. pose proof (N_ascii_bounded c). lia. Qed.
Lemma Z_of_byte_of_Z z : Z_of_byte (byte_of_Z z) = u8 z.
Proof.
  unfold Z_of_byte, byte_of_Z. pose proof (u8_range z).
  rewrite N_ascii_embedding by lia. lia.
Qed.
Lemma byte_of_Z_of_byte c : byte_of_Z (Z_of_byte c) = c.
Proof.
  unfold byte_of_Z. rewrite u8_small by apply Z_of_byte_range.
  unfold Z_of_byte. rewrite N2Z.id. apply ascii_N_embedding.
Qed.
#[global] Instance Z_of_byte_inj : Inj (=) (=) Z_of_byte.
Proof. intros c d H. by rewrite <- (byte_of_Z_of_byte c), H, byte_of_Z_of_byte. Qed.
#[export] Hint Resolve Z_of_byte_range : yfs.

(** ** Lists *)
Lemma filter_keeps {A} (P : A → Prop) `{!∀ x, Decision (P x)} l :
  Forall P l → filter P l = l.
Proof.
  induction 1 as [|x l Hx Hl IH]; [done|]. by rewrite filter_cons_True, IH.
Qed.

(** ** Ordered maps *)
Lemma elem_of_keys_in_order {A} (m : gmap Z A) k :
  k ∈ keys_in_order m ↔ is_Some (m !! k).
Proof.
  unfold keys_in_order. rewrite (merge_sort_Permutation Z.le), list_elem_of_fmap.
  split.
  - intros ([k' a] & -> & Hin%elem_of_map_to_list). eauto.
  - intros [a Ha]. exists (k, a). by rewrite elem_of_map_to_list.
Qed.
Lemma keys_in_order_NoDup {A} (m : gmap Z A) : NoDup (keys_in_order m).
Proof. unfold keys_in_order. rewrite (merge_sort_Permutation Z.le). apply NoDup_fst_map_to_list. Qed.
Lemma keys_in_order_sorted {A} (m : gmap Z A) : Sorted Z.le (keys_in_order m).
Proof. apply (Sorted_merge_sort _). Qed.

(** ** Outcomes *)
Lemma bind_Ok {A B} (m : outcome A) (k : A → outcome B) b :
  m ≫= k = Ok b ↔ ∃ a, m = Ok a ∧ k a = Ok b.
Proof. destruct m; simpl; naive_solver. Qed.

Lemma int_result_Ok z : is_i32 z → int_result z = Ok z.
Proof.
  intros. unfold int_result.
  destruct (Z.leb_spec (- 2 ^ 31) z), (Z.ltb_spec z (2 ^ 31)); simpl; (done || lia).
Qed.

Lemma VERIFY_Ok b u : VERIFY b = Ok u ↔ b = true.
Proof. destruct b, u; naive_solver. Qed.
