(* ===== verification/CxxString.v ===== *)
(** * The string library the sources use

    [std::string] operations ([find], [substr], [append], construction from a C
    string), the formatting and scanning of [unsigned long long] through string
    streams, as used by yfs_client.cc, and their lemmas. *)

From stdpp Require Import base tactics numbers list gmap strings.
From Stdlib Require Import ZArith Lia Ascii.
From S2P Require Import Prelude.

(** [std::string::npos], a [size_t]. *)
Definition npos : Z := (2 ^ 64 - 1)%Z.

(** [s.substr(pos, n)] with [n = npos] by default: at most [n] bytes; throws when
    [pos > size()]. *)
Definition substr (s : bytes) (pos n : Z) : outcome bytes :=
  if (pos >? size s)%Z then Fault StringOutOfRange
  else Ok (take (Z.to_nat (Z.min n (size s))) (drop (Z.to_nat pos) s)).

Definition substr_from (s : bytes) (pos : Z) : outcome bytes := substr s pos npos.

(** [s.append(n, c)]. *)
Definition append_n (s : bytes) (n : Z) (c : ascii) : bytes := s ++ replicate (Z.to_nat n) c.

(** Whether [t] is a prefix of [s]. *)
Fixpoint starts_with (t s : bytes) : bool :=
  match t, s with
  | [], _ => true
  | _, [] => false
  | a :: t, b :: s => if decide (a = b) then starts_with t s else false
  end.

(** Index in [s] of the first occurrence of [t], if any. *)
Fixpoint find_in (t s : bytes) : option nat :=
  if starts_with t s then Some 0
  else match s with
       | [] => None
       | _ :: s => S <$> find_in t s
       end.

(** [s.find(t, pos)], a [size_t]. *)
Definition find (s t : bytes) (pos : Z) : Z :=
  if (pos >? size s)%Z then npos
  else match find_in t (drop (Z.to_nat pos) s) with
       | Some i => (pos + Z.of_nat i)%Z
       | None => npos
       end.

(** [std::string(p)] for a [const char *p]: the memory at [p] up to the first NUL;
    running off the memory that [p] points to is an access out of bounds. *)
Fixpoint c_string (p : bytes) : outcome bytes :=
  match p with
  | [] => Fault OutOfBounds
  | c :: p => if decide (c = NUL) then Ok [] else s ← c_string p; Ok (c :: s)
  end.

(** [ost << n] for an [unsigned long long]: at most twenty decimal digits. *)
Definition digit (z : Z) : ascii := byte_of_Z (48 + z).

Fixpoint dec_digits (fuel : nat) (z : Z) (acc : bytes) : bytes :=
  match fuel with
  | O => acc
  | S fuel =>
      let acc := digit (z mod 10) :: acc in
      if (z <? 10)%Z then acc else dec_digits fuel (z / 10)%Z acc
  end.

Definition show_u64 (z : Z) : bytes := dec_digits 20 z [].

(** [ist >> n] for an [unsigned long long]: white space, an optional sign, the
    longest run of digits; no digit stores 0, a value out of range stores the
    largest one, a minus sign negates modulo 2^64. *)
Definition is_digit (c : ascii) : bool := ((48 <=? Z_of_byte c) && (Z_of_byte c <=? 57))%Z.
Definition is_space (c : ascii) : bool :=
  ((Z_of_byte c =? 32) || ((9 <=? Z_of_byte c) && (Z_of_byte c <=? 13)))%Z.

Fixpoint skip_space (s : bytes) : bytes :=
  match s with
  | c :: s' => if is_space c then skip_space s' else s
  | [] => []
  end.

Fixpoint scan_digits (s : bytes) (acc : Z) : Z :=
  match s with
  | c :: s => if is_digit c then scan_digits s (10 * acc + (Z_of_byte c - 48))%Z else acc
  | [] => acc
  end.

Definition clamp_u64 (z : Z) : Z := if (z >? 2 ^ 64 - 1)%Z then (2 ^ 64 - 1)%Z else z.

Definition scan_u64 (s : bytes) : Z :=
  match skip_space s with
  | c :: s' =>
      if (Z_of_byte c =? 45)%Z then
        let v := scan_digits s' 0 in
        if (v >? 2 ^ 64 - 1)%Z then (2 ^ 64 - 1)%Z else u64 (- v)
      else if (Z_of_byte c =? 43)%Z then clamp_u64 (scan_digits s' 0)
      else clamp_u64 (scan_digits (c :: s') 0)
  | [] => 0%Z
  end.

(** ** Lemmas *)
Lemma size_nonneg s : (0 <= size s)%Z.
Proof. unfold size. lia. Qed.
Lemma to_nat_size s : Z.to_nat (size s) = length s.
Proof. unfold size. lia. Qed.
Lemma size_app s t : size (s ++ t) = (size s + size t)%Z.
Proof. unfold size. rewrite length_app. lia. Qed.
Lemma size_replicate n c : size (replicate n c) = Z.of_nat n.
Proof. unfold size. by rewrite length_replicate. Qed.
#[export] Hint Resolve size_nonneg : yfs.

Lemma substr_Ok s pos n :
  (pos <= size s)%Z → substr s pos n = Ok (take (Z.to_nat n) (drop (Z.to_nat pos) s)).
Proof.
  intros. unfold substr. destruct (Z.gtb_spec pos (size s)); [lia|]. f_equal.
  destruct (Z.le_gt_cases n (size s)); [by rewrite Z.min_l by lia|]. rewrite Z.min_r by lia.
  rewrite !take_ge; [done|rewrite length_drop; unfold size in *; lia..].
Qed.

Lemma substr_from_Ok s pos :
  (0 <= pos <= size s)%Z → is_u64 (size s) →
  substr_from s pos = Ok (drop (Z.to_nat pos) s).
Proof.
  intros. unfold substr_from. rewrite substr_Ok by lia. f_equal.
  apply take_ge. rewrite length_drop. unfold size, npos in *. lia.
Qed.

Lemma starts_with_app t s : starts_with t (t ++ s) = true.
Proof. induction t as [|a t IH]; simpl; [done|]. by rewrite decide_True. Qed.

Lemma starts_with_spec t s : starts_with t s = true ↔ t `prefix_of` s.
Proof.
  split.
  - revert s. induction t as [|a t IH]; intros [|b s]; simpl; intros H; try done.
    + apply prefix_nil.
    + case_decide; [subst|done]. by apply prefix_cons, IH.
  - intros [s' ->]. apply starts_with_app.
Qed.

Lemma find_in_Some t s i :
  find_in t s = Some i →
  starts_with t (drop i s) = true ∧ i ≤ length s ∧
  (∀ j, j < i → starts_with t (drop j s) = false).
Proof.
  revert i. induction s as [|c s IH]; intros i; simpl.
  - destruct t; simpl; intros; simplify_eq. split_and!; [done|lia|lia].
  - destruct (starts_with t (c :: s)) eqn:E.
    + intros [= <-]. split_and!; [done|lia|lia].
    + intros (j & Hj & ->)%fmap_Some. apply IH in Hj as (Hs & Hle & Hmin).
      split_and!; [done|lia|].
      intros [|k] Hk; [done|]. apply Hmin. lia.
Qed.

Lemma find_in_None t s i : find_in t s = None → starts_with t (drop i s) = false.
Proof.
  revert i. induction s as [|c s IH]; intros i; simpl.
  - rewrite drop_nil. by destruct (starts_with t []).
  - destruct (starts_with t (c :: s)) eqn:E; [done|].
    intros H%fmap_None. destruct i; [done|]. by apply IH.
Qed.

(** Searching for a single character. *)
Lemma find_in_char_absent c s : c ∉ s → find_in [c] s = None.
Proof.
  induction s as [|d s IH]; simpl; [done|].
  intros [Hne Hs]%not_elem_of_cons. rewrite decide_False by done. by rewrite IH.
Qed.
Lemma find_in_char_first c s r : c ∉ s → find_in [c] (s ++ c :: r) = Some (length s).
Proof.
  induction s as [|d s IH]; simpl; intros Hs.
  - by rewrite decide_True.
  - apply not_elem_of_cons in Hs as [Hne Hs]. rewrite decide_False by done.
    by rewrite IH.
Qed.

(** C strings. *)
Lemma c_string_app s r : NUL ∉ s → c_string (s ++ NUL :: r) = Ok s.
Proof.
  induction s as [|c s IH]; [done|].
  intros [Hne Hs]%not_elem_of_cons. cbn [c_string app].
  rewrite decide_False by done. by rewrite IH.
Qed.

Lemma c_string_no_NUL p s : c_string p = Ok s → NUL ∉ s ∧ ∃ r, p = s ++ NUL :: r.
Proof.
  revert s. induction p as [|c p IH]; intros s; simpl; [done|].
  case_decide as Hc.
  - intros [= <-]. split; [apply not_elem_of_nil|]. exists p. by subst.
  - intros (s' & Hs' & [= <-])%bind_Ok. apply IH in Hs' as (Hn & r & ->).
    split; [by apply not_elem_of_cons|]. by exists r.
Qed.

(** Decimal numbers. *)
Lemma digit_is_digit z : (0 <= z < 10)%Z → is_digit (digit z) = true.
Proof.
  intros. unfold is_digit, digit. rewrite Z_of_byte_of_Z, u8_small by lia. lia.
Qed.
Lemma digit_value z : (0 <= z < 10)%Z → (Z_of_byte (digit z) - 48 = z)%Z.
Proof. intros. unfold digit. rewrite Z_of_byte_of_Z, u8_small by lia. lia. Qed.

Lemma scan_dec_digits fuel z acc :
  (0 <= z < 10 ^ Z.of_nat fuel)%Z → fuel ≠ 0 →
  scan_digits (dec_digits fuel z acc) 0 = scan_digits acc z.
Proof.
  revert z acc. induction fuel as [|fuel IH]; intros z acc Hz Hf; [done|].
  simpl. pose proof (Z.mod_pos_bound z 10 ltac:(lia)).
  destruct (Z.ltb_spec z 10).
  - rewrite (Z.mod_small z 10) by lia. simpl.
    rewrite digit_is_digit, digit_value by lia. f_equal.
  - destruct fuel as [|fuel]; [simpl in Hz; lia|].
    rewrite Nat2Z.inj_succ, Z.pow_succ_r in Hz by lia.
    rewrite IH; [|split; [apply Z.div_pos; lia|apply Z.div_lt_upper_bound; lia]|done].
    simpl. rewrite digit_is_digit, digit_value by lia. f_equal.
    pose proof (Z.div_mod z 10 ltac:(lia)). lia.
Qed.

Lemma dec_digits_all_digits fuel z acc :
  (0 <= z)%Z → Forall (λ c, is_digit c = true) acc →
  Forall (λ c, is_digit c = true) (dec_digits fuel z acc).
Proof.
  revert z acc. induction fuel as [|fuel IH]; intros z acc Hz Hacc; simpl; [done|].
  pose proof (Z.mod_pos_bound z 10 ltac:(lia)).
  assert (Forall (λ c, is_digit c = true) (digit (z mod 10) :: acc))
    by (constructor; [by apply digit_is_digit|done]).
  destruct (z <? 10)%Z; [done|]. apply IH; [|done]. apply Z.div_pos; lia.
Qed.

Lemma dec_digits_cons fuel z acc :
  (fuel ≠ 0 ∨ acc ≠ []) → dec_digits fuel z acc ≠ [].
Proof.
  revert z acc. induction fuel as [|fuel IH]; intros z acc Hor; simpl; [naive_solver|].
  destruct (z <? 10)%Z; [done|]. apply IH. by right.
Qed.

Lemma show_u64_digits z : (0 <= z)%Z → Forall (λ c, is_digit c = true) (show_u64 z).
Proof. intros. by apply dec_digits_all_digits. Qed.

Lemma show_u64_nonempty z : show_u64 z ≠ [].
Proof. apply dec_digits_cons. by left. Qed.

Lemma is_digit_not_space c : is_digit c = true → is_space c = false.
Proof. unfold is_digit, is_space. lia. Qed.

Lemma digits_no_space s c :
  Forall (λ c, is_digit c = true) s → is_digit c = false → c ∉ s.
Proof. intros Hs Hc Hin. rewrite Forall_forall in Hs. apply Hs in Hin. congruence. Qed.

Lemma scan_u64_digits s :
  Forall (λ c, is_digit c = true) s → s ≠ [] → scan_u64 s = clamp_u64 (scan_digits s 0).
Proof.
  intros Hs Hne. destruct s as [|c s]; [done|].
  pose proof (Forall_cons_1 _ _ _ Hs) as [Hc _].
  unfold scan_u64. simpl skip_space. rewrite is_digit_not_space by done.
  unfold is_digit in Hc. destruct (Z.eqb_spec (Z_of_byte c) 45); [lia|].
  destruct (Z.eqb_spec (Z_of_byte c) 43); [lia|]. done.
Qed.

Lemma scan_show_u64 z : is_u64 z → scan_u64 (show_u64 z) = z.
Proof.
  intros Hz. rewrite scan_u64_digits by (apply show_u64_digits || apply show_u64_nonempty; lia).
  unfold show_u64. rewrite scan_dec_digits by (simpl; lia). simpl.
  unfold clamp_u64. destruct (Z.gtb_spec z (2 ^ 64 - 1)); lia.
Qed.

Lemma show_u64_inj z w : is_u64 z → is_u64 w → show_u64 z = show_u64 w → z = w.
Proof. intros Hz Hw E. by rewrite <- (scan_show_u64 z), E, scan_show_u64. Qed.
