(* ===== verification/Address.v ===== *)
(** * Addresses (rpc.cc [make_sockaddr], lock_client_cache.cc constructor)

    The text form of an address, [host:port] or a port of this host, and the socket
    address made from it.  A caching lock client makes its id in this form from the
    port of its callback server, and the lock server takes it apart again to call the
    client back ([handle::safebind]).  [inet_addr] and [gethostbyname] of the system
    are parameters. *)

From stdpp Require Import base tactics numbers list gmap strings.
From Stdlib Require Import ZArith Lia Ascii.
From coqutil Require Import Z.prove_Zeq_bitwise.
From S2P Require Import Prelude CxxString.

Definition INADDR_NONE : Z := (2 ^ 32 - 1)%Z.
Definition AF_INET : Z := 2.

Record sockaddr_in := SockaddrIn { sin_family : Z; sin_addr : Z; sin_port : Z }.

(** [htons] and [ntohs] of a little-endian machine: the two bytes swapped. *)
Definition htons (x : Z) : Z :=
  Z.lor (Z.shiftl (Z.land (u16 x) 255) 8) (Z.shiftr (u16 x) 8).
Definition ntohs (x : Z) : Z := htons x.

(** [atoi]: white space, a sign, the longest run of digits; a value that is not an
    [int] is undefined. *)
Definition atoi (s : bytes) : outcome Z :=
  let v := match skip_space s with
           | c :: s' =>
               if (Z_of_byte c =? 45)%Z then (- scan_digits s' 0)%Z
               else if (Z_of_byte c =? 43)%Z then scan_digits s' 0
               else scan_digits (c :: s') 0
           | [] => 0%Z
           end in
  if decide (is_i32 v) then Ok v else Fault SignedOverflow.

Definition colon : ascii := Eval vm_compute in byte_of_Z 58.
Definition localhost : bytes := lit "127.0.0.1".

(** [operator<] on socket addresses. *)
Definition sockaddr_ltb (a b : sockaddr_in) : bool :=
  ((sin_addr a <? sin_addr b) || ((sin_addr a =? sin_addr b) && (sin_port a <? sin_port b)))%Z.

Section address.
(** The system's translation of dotted addresses, [INADDR_NONE] for other texts, and
    of host names, with the length of the address found. *)
Context (inet_addr : bytes → Z) (gethostbyname : bytes → option (Z * Z)).

(** [make_sockaddr(host, port, dst)]; [None] when it ends the process. *)
Definition make_sockaddr_host (host port : bytes) : outcome (option sockaddr_in) :=
  let a := inet_addr host in
  let addr :=
    if negb (a =? INADDR_NONE)%Z then Some a
    else match gethostbyname host with
         | Some (h_length, addr) => if (h_length =? 4)%Z then Some addr else None
         | None => None
         end in
  match addr with
  | Some addr => p ← atoi port; Ok (Some (SockaddrIn AF_INET addr (htons (u16 p))))
  | None => Ok None
  end.

(** [make_sockaddr(hostandport, dst)] on a C string of these characters: the host is
    copied into an array of 200 bytes. *)
Definition host_size : Z := 200.
Definition make_sockaddr (hostandport : bytes) : outcome (option sockaddr_in) :=
  match find_in [colon] hostandport with
  | None => make_sockaddr_host localhost hostandport
  | Some n =>
      if (Z.of_nat n <? host_size)%Z
      then make_sockaddr_host (take n hostandport) (drop (S n) hostandport)
      else Fault OutOfBounds
  end.

(** The id of a lock client whose callback server listens on [port]. *)
Definition client_id (port : Z) : bytes := localhost ++ colon :: show_u64 port.

(** ** Lemmas *)
Lemma make_sockaddr_colon host port :
  colon ∉ host →
  make_sockaddr (host ++ colon :: port)
  = if (size host <? host_size)%Z then make_sockaddr_host host port else Fault OutOfBounds.
Proof.
  intros Hc. unfold make_sockaddr. rewrite find_in_char_first by done.
  rewrite take_app_length. change (size host) with (Z.of_nat (length host)). case_match; [|done].
  do 2 f_equal. rewrite drop_app_ge by lia. by replace (S (length host) - length host) with 1 by lia.
Qed.

Lemma atoi_show z : (0 <= z < 2 ^ 31)%Z → atoi (show_u64 z) = Ok z.
Proof.
  intros Hz. pose proof (show_u64_digits z ltac:(lia)) as Hd. pose proof (show_u64_nonempty z) as Hne.
  assert (scan_digits (show_u64 z) 0 = z) as Hs by (unfold show_u64; by rewrite scan_dec_digits by (simpl; lia)).
  unfold atoi. destruct (show_u64 z) as [|c s]; [done|]. apply Forall_cons in Hd as [Hc _].
  cbn [skip_space]. rewrite is_digit_not_space by done. unfold is_digit in Hc.
  destruct (Z.eqb_spec (Z_of_byte c) 45); [lia|]. destruct (Z.eqb_spec (Z_of_byte c) 43); [lia|].
  rewrite Hs. by rewrite decide_True by lia.
Qed.

Lemma localhost_no_colon : colon ∉ localhost.
Proof. by apply (bool_decide_unpack _). Qed.

End address.

Lemma ntohs_htons p : is_u16 p → ntohs (htons p) = p.
Proof.
  intros Hp. assert (ntohs (htons p) = u16 p) as ->; [|by apply u16_small].
  unfold ntohs, htons, u16. change 255%Z with (Z.ones 8). rewrite <- !Z.land_ones by lia. prove_Zeq_bitwise.
Qed.

Lemma htons_inj p q : is_u16 p → is_u16 q → htons p = htons q → p = q.
Proof. intros Hp Hq E. by rewrite <- (ntohs_htons p), E, ntohs_htons. Qed.

(** The order on socket addresses is strict, and total on addresses of one family. *)
#[global] Instance sockaddr_lt_strict : StrictOrder (λ a b, sockaddr_ltb a b = true).
Proof.
  unfold sockaddr_ltb. split; [intros a H|intros a b c H1 H2]; rewrite !orb_true_iff, !andb_true_iff in *; lia.
Qed.

(** ** Properties *)

(** The id a caching lock client makes of the port of its callback server leads the
    lock server back to that port: [make_sockaddr] gives this host's address with the
    port in network order.  Ids are not empty, the text by which the server says that
    nobody owns a lock, and clients with different ports have different ids. *)
Theorem callback_address_roundtrip inet_addr gethostbyname a port port' :
  inet_addr localhost = a → a ≠ INADDR_NONE → is_u16 port → is_u16 port' →
  make_sockaddr inet_addr gethostbyname (client_id port) = Ok (Some (SockaddrIn AF_INET a (htons port))) ∧
  ntohs (htons port) = port ∧ client_id port ≠ [] ∧ (client_id port = client_id port' → port = port').
Proof.
  intros Ha Hn Hp Hp'. split_and!.
  - unfold client_id. rewrite make_sockaddr_colon by apply localhost_no_colon.
    change (size localhost <? host_size)%Z with true. unfold make_sockaddr_host. rewrite Ha.
    destruct (Z.eqb_spec a INADDR_NONE); [done|]. cbn [negb]. rewrite atoi_show by lia. run.
    by rewrite u16_small.
  - by apply ntohs_htons.
  - done.
  - intros E. apply app_inv_head in E. injection E as E. apply show_u64_inj in E; lia.
Qed.

Lemma callback_address_roundtrip_witness :
  make_sockaddr (λ _, 16777343%Z) (λ _, None) (lit "127.0.0.1:4660")
  = Ok (Some (SockaddrIn AF_INET 16777343 (htons 4660))) ∧ htons 4660 = 13330%Z.
Proof.
  split; [|reflexivity].
  apply (callback_address_roundtrip (λ _, 16777343%Z) (λ _, None) 16777343 4660 4660).
  - reflexivity.
  - discriminate.
  - lia.
  - lia.
Defined.

(** [make_sockaddr] copies the host name into an array of 200 bytes without a check:
    on a text [host:port] it writes past the array exactly when the host has 200 bytes or
    more, whatever the system's name service answers. *)
Theorem make_sockaddr_host_bound inet_addr gethostbyname host port :
  colon ∉ host →
  make_sockaddr inet_addr gethostbyname (host ++ colon :: port) = Fault OutOfBounds ↔ (200 <= size host)%Z.
Proof.
  intros Hc. rewrite make_sockaddr_colon by done. unfold host_size. split.
  - destruct (Z.ltb_spec (size host) 200); [|done]. unfold make_sockaddr_host, atoi.
    repeat (case_match || case_decide); try done.
  - intros H. destruct (Z.ltb_spec (size host) 200); [lia|done].
Qed.

Lemma make_sockaddr_host_bound_witness :
  make_sockaddr (λ _, 1%Z) (λ _, None) (replicate 200 "a"%char ++ colon :: lit "80") = Fault OutOfBounds.
Proof.
  apply (make_sockaddr_host_bound (λ _, 1%Z) (λ _, None) (replicate 200 "a"%char) (lit "80")).
  - by apply (bool_decide_unpack _).
  - by vm_compute.
Defined.
