(* ===== verification/MethodThread.v ===== *)
(** * Threads that run a method (method_thread.h)

    [method_thread] stores an object, a method and its arguments in a new object of its
    local class XXX and starts a thread with a pointer to it; the thread copies them,
    frees the XXX object, turns cancellation off and calls the method.  Starts and the
    steps of the threads interleave.  What pthread_create and the other functions of
    the thread library answer is an argument. *)

From stdpp Require Import base tactics numbers list gmap sets relations.
From Stdlib Require Import ZArith Lia.
From S2P Require Import Prelude.

Section method_thread.
(** Objects, methods of each number of arguments, arguments. *)
Context {C M0 M1 M2 M3 A1 A2 A3 : Type}.

(** class XXX of the four templates; also the call that the thread makes. *)
Inductive XXX :=
  | XXX_0 (o : C) (m : M0)
  | XXX_1 (o : C) (m : M1) (a : A1)
  | XXX_2 (o : C) (m : M2) (a1 : A1) (a2 : A2)
  | XXX_3 (o : C) (m : M3) (a1 : A1) (a2 : A2) (a3 : A3).

(** Where a started thread is in [yyy]. *)
Inductive yyy :=
  | Begun (vvv : nat)            (* with its argument *)
  | Copied (vvv : nat) (x : XXX) (* o, m and the arguments in local variables *)
  | Freed (x : XXX)              (* delete x done *)
  | Ready (x : XXX)              (* method_thread_child done *)
  | Returned.

Record process := Process {
  heap : gmap nat XXX;           (* the XXX objects allocated *)
  threads : gmap nat yyy;
  called : list (nat * XXX) }.   (* the calls made, by their threads *)

Definition set_thread (t : nat) (y : yyy) (p : process) : process :=
  Process (heap p) (<[t := y]> (threads p)) (called p).

(** [method_thread_parent(fn, arg, detach)]: [None] when it ends the process.  [err] and
    [det] are the answers of pthread_create and pthread_detach, [th] the thread. *)
Definition method_thread_parent (err det : Z) (th arg : nat) (detach : bool) (p : process) :
    outcome (option (nat * process)) :=
  if decide (err ≠ 0%Z) then Ok None
  else
    let p := set_thread th (Begun arg) p in
    (if detach then VERIFY (det =? 0)%Z else Ok ());;
    Ok (Some (th, p)).

(** [method_thread] with an XXX object at the fresh address [l]. *)
Definition start_with (err det : Z) (th l : nat) (detach : bool) (x : XXX) (p : process) :
    outcome (option (nat * process)) :=
  method_thread_parent err det th l detach (Process (<[l := x]> (heap p)) (threads p) (called p)).

Definition method_thread_0 (err det : Z) (th l : nat) (o : C) (detach : bool) (m : M0) :=
  start_with err det th l detach (XXX_0 o m).
Definition method_thread_1 (err det : Z) (th l : nat) (o : C) (detach : bool) (m : M1) (a : A1) :=
  start_with err det th l detach (XXX_1 o m a).
Definition method_thread_2 (err det : Z) (th l : nat) (o : C) (detach : bool) (m : M2) (a1 : A1) (a2 : A2) :=
  start_with err det th l detach (XXX_2 o m a1 a2).
Definition method_thread_3 (err det : Z) (th l : nat) (o : C) (detach : bool) (m : M3) (a1 : A1) (a2 : A2) (a3 : A3) :=
  start_with err det th l detach (XXX_3 o m a1 a2 a3).

(** [method_thread_child]; the answers of pthread_setcancelstate and
    pthread_setcanceltype. *)
Definition method_thread_child (st ty : Z) : outcome unit := VERIFY (st =? 0)%Z;; VERIFY (ty =? 0)%Z.

(** The next step of [yyy] in thread [t]: reading or freeing an object that is not
    allocated is undefined. *)
Definition yyy_step (st ty : Z) (t : nat) (p : process) : outcome (option process) :=
  match threads p !! t with
  | Some (Begun vvv) =>
      match heap p !! vvv with
      | Some x => Ok (Some (set_thread t (Copied vvv x) p))
      | None => Fault OutOfBounds
      end
  | Some (Copied vvv x) =>
      match heap p !! vvv with
      | Some _ => Ok (Some (Process (delete vvv (heap p)) (<[t := Freed x]> (threads p)) (called p)))
      | None => Fault OutOfBounds
      end
  | Some (Freed x) => method_thread_child st ty;; Ok (Some (set_thread t (Ready x) p))
  | Some (Ready x) => Ok (Some (Process (heap p) (<[t := Returned]> (threads p)) (called p ++ [(t, x)])))
  | Some Returned | None => Ok None
  end.

(** Starts (thread, address and object fresh) and steps, in any order.  The trace lists
    what the threads were started for. *)
Inductive mstep : process → list (nat * XXX) → process → Prop :=
  | m_start th l detach det x p p' :
      threads p !! th = None → heap p !! l = None →
      start_with 0 det th l detach x p = Ok (Some (th, p')) → mstep p [(th, x)] p'
  | m_step t p p' : yyy_step 0 0 t p = Ok (Some p') → mstep p [] p'.
Inductive msteps : process → list (nat * XXX) → process → Prop :=
  | msteps_nil p : msteps p [] p
  | msteps_cons p p1 p2 s s' : mstep p s p1 → msteps p1 s' p2 → msteps p (s ++ s') p2.

Definition no_threads : process := Process ∅ ∅ [].

(** ** The invariant: an object belongs to one thread that has not freed it *)
Definition pointer (y : yyy) : option nat := match y with Begun l | Copied l _ => Some l | _ => None end.
(** What a thread is still to call, given the heap. *)
Definition to_call (h : gmap nat XXX) (y : yyy) : option XXX :=
  match y with Begun l => h !! l | Copied _ x | Freed x | Ready x => Some x | Returned => None end.

Record minv (s : list (nat * XXX)) (p : process) : Prop := Minv {
  mi_heap l x : heap p !! l = Some x → ∃ t y, threads p !! t = Some y ∧ pointer y = Some l;
  mi_alloc t y l : threads p !! t = Some y → pointer y = Some l → is_Some (heap p !! l);
  mi_one t t' y y' l : threads p !! t = Some y → threads p !! t' = Some y' →
    pointer y = Some l → pointer y' = Some l → t = t';
  mi_started t : is_Some (threads p !! t) ↔ t ∈ s.*1;
  mi_nodup : NoDup s.*1;
  mi_call t x : (t, x) ∈ s ↔ (t, x) ∈ called p ∨ ∃ y, threads p !! t = Some y ∧ to_call (heap p) y = Some x;
  mi_called t : t ∈ (called p).*1 → threads p !! t = Some Returned;
  mi_once : NoDup (called p).*1 }.

Lemma minv_start : minv [] no_threads.
Proof. split; simpl; try set_solver; try (by constructor). intros t. rewrite lookup_empty. split; [by intros [? ?]|set_solver]. Qed.

(** A thread goes on with the same object, or without one. *)
Lemma minv_same s p t y y' :
  minv s p → threads p !! t = Some y → pointer y' = pointer y → to_call (heap p) y' = to_call (heap p) y →
  y ≠ Returned → minv s (set_thread t y' p).
Proof.
  intros [Hheap Halloc Hone Hstart Hnd Hcall Hret Honce] Hy Hptr Hto Hny.
  assert (∀ u z, <[t := y']> (threads p) !! u = Some z →
    ∃ z', threads p !! u = Some z' ∧ pointer z' = pointer z ∧ to_call (heap p) z' = to_call (heap p) z) as Hback.
  { intros u z [[<- <-]|[Hne Hz]]%lookup_insert_Some; eauto. }
  assert (∀ u z, threads p !! u = Some z →
    ∃ z', <[t := y']> (threads p) !! u = Some z' ∧ pointer z' = pointer z ∧ to_call (heap p) z' = to_call (heap p) z) as Hfwd.
  { intros u z Hz. destruct (decide (t = u)) as [<-|Hne]; [rewrite lookup_insert_eq|rewrite lookup_insert_ne by done; eauto].
    exists y'. by simplify_eq. }
  split; cbn [heap threads called set_thread]; try done.
  - intros l x (u & z & Hu & Hz)%Hheap. destruct (Hfwd u z Hu) as (z' & ? & ? & _). exists u, z'. by split; [|congruence].
  - intros u z l (z' & Hu & ? & _)%Hback Hz. eapply Halloc; [done|congruence].
  - intros u u' z z' l (z1 & Hu & E1 & _)%Hback (z2 & Hu' & E2 & _)%Hback Hl Hl'.
    apply (Hone u u' z1 z2 l); congruence.
  - intros u. rewrite <- Hstart. rewrite lookup_insert_is_Some. destruct (decide (t = u)) as [<-|]; naive_solver.
  - intros u x. rewrite Hcall. split; (intros [?|(z & Hz & Hx)]; [by left|right]).
    + destruct (Hfwd u z Hz) as (z' & ? & _ & ?). exists z'. by split; [|congruence].
    + destruct (Hback u z Hz) as (z' & ? & _ & ?). exists z'. by split; [|congruence].
  - intros u Hu. apply Hret in Hu as Hr. rewrite lookup_insert_ne; [done|]. intros <-. congruence.
Qed.

(** It frees the object. *)
Lemma minv_free s p t l x :
  minv s p → threads p !! t = Some (Copied l x) →
  minv s (Process (delete l (heap p)) (<[t := Freed x]> (threads p)) (called p)).
Proof.
  intros [Hheap Halloc Hone Hstart Hnd Hcall Hret Honce] Hy.
  assert (∀ u z, u ≠ t → threads p !! u = Some z → pointer z ≠ Some l) as Hother.
  { intros u z Hne Hu Hz. by apply Hne, (Hone u t z (Copied l x) l). }
  assert (∀ u z, u ≠ t → threads p !! u = Some z → to_call (delete l (heap p)) z = to_call (heap p) z) as Hsame.
  { intros u z Hne Hu. pose proof (Hother u z Hne Hu). destruct z; try done. simpl. rewrite lookup_delete_ne; [done|].
    intros ->. done. }
  split; cbn [heap threads called]; try done.
  - intros k v [Hne Hk]%lookup_delete_Some. destruct (Hheap k v Hk) as (u & z & Hu & Hz). exists u, z.
    rewrite lookup_insert_ne; [done|]. intros <-. simplify_eq/=.
  - intros u z k [[<- <-]|[Hne Hu]]%lookup_insert_Some Hz; [done|]. rewrite lookup_delete_ne; [by eapply Halloc|].
    intros <-. by eapply Hother.
  - intros u u' z z' k [[<- <-]|[_ Hu]]%lookup_insert_Some [[<- <-]|[_ Hu']]%lookup_insert_Some; try done. by eapply Hone.
  - intros u. rewrite <- Hstart. rewrite lookup_insert_is_Some. destruct (decide (t = u)) as [<-|]; naive_solver.
  - intros u v. rewrite Hcall. split; (intros [?|(z & Hz & Hx)]; [by left|right]).
    + destruct (decide (u = t)) as [->|Hne].
      * exists (Freed x). rewrite lookup_insert_eq. by simplify_eq/=.
      * exists z. rewrite lookup_insert_ne by done. split; [done|]. by rewrite (Hsame u).
    + apply lookup_insert_Some in Hz as [[<- <-]|[Hne Hz]]; [eauto|]. exists z. split; [done|]. by rewrite <- (Hsame u).
  - intros u Hu. apply Hret in Hu as Hr. rewrite lookup_insert_ne; [done|]. intros <-. congruence.
Qed.

(** It calls the method. *)
Lemma minv_call s p t x :
  minv s p → threads p !! t = Some (Ready x) →
  minv s (Process (heap p) (<[t := Returned]> (threads p)) (called p ++ [(t, x)])).
Proof.
  intros [Hheap Halloc Hone Hstart Hnd Hcall Hret Honce] Hy.
  assert (t ∉ (called p).*1) as Hnot by (intros Ht; apply Hret in Ht; congruence).
  split; cbn [heap threads called]; try done.
  - intros k v Hk. destruct (Hheap k v Hk) as (u & z & Hu & Hz). exists u, z.
    rewrite lookup_insert_ne; [done|]. intros <-. simplify_eq/=.
  - intros u z k [[<- <-]|[Hne Hu]]%lookup_insert_Some Hz; [done|]. by eapply Halloc.
  - intros u u' z z' k [[<- <-]|[_ Hu]]%lookup_insert_Some [[<- <-]|[_ Hu']]%lookup_insert_Some; try done. by eapply Hone.
  - intros u. rewrite <- Hstart. rewrite lookup_insert_is_Some. destruct (decide (t = u)) as [<-|]; naive_solver.
  - intros u v. rewrite Hcall, elem_of_app, list_elem_of_singleton. split.
    + intros [?|(z & Hz & Hx)]; [by do 2 left|]. destruct (decide (u = t)) as [->|Hne].
      * left. right. by simplify_eq/=.
      * right. exists z. by rewrite lookup_insert_ne.
    + intros [[?|[= -> ->]]|(z & Hz & Hx)]; [by left|right; eauto|].
      apply lookup_insert_Some in Hz as [[<- <-]|[Hne Hz]]; [done|right; eauto].
  - intros u. rewrite fmap_app, elem_of_app. simpl. rewrite list_elem_of_singleton.
    intros [Hu| ->]; [|apply lookup_insert_eq]. apply Hret in Hu as Hr. rewrite lookup_insert_ne; [done|]. intros <-. congruence.
  - rewrite fmap_app. simpl. apply NoDup_app. split; [done|]. split; [|apply NoDup_singleton]. set_solver.
Qed.

(** A new thread. *)
Lemma minv_begin s p th l x :
  minv s p → threads p !! th = None → heap p !! l = None →
  minv (s ++ [(th, x)]) (Process (<[l := x]> (heap p)) (<[th := Begun l]> (threads p)) (called p)).
Proof.
  intros [Hheap Halloc Hone Hstart Hnd Hcall Hret Honce] Hth Hl.
  assert (∀ u z, threads p !! u = Some z → pointer z ≠ Some l) as Hother.
  { intros u z Hu Hz. destruct (Halloc u z l Hu Hz) as [? ?]. congruence. }
  assert (∀ u z, threads p !! u = Some z → to_call (<[l := x]> (heap p)) z = to_call (heap p) z) as Hsame.
  { intros u z Hu. pose proof (Hother u z Hu). destruct z; try done. simpl. rewrite lookup_insert_ne; [done|].
    intros ->. done. }
  assert (th ∉ s.*1) as Hnot by (intros Hin; apply Hstart in Hin as [? ?]; congruence).
  split; cbn [heap threads called]; try done.
  - intros k v [[<- <-]|[Hne Hk]]%lookup_insert_Some.
    + exists th, (Begun l). by rewrite lookup_insert_eq.
    + destruct (Hheap k v Hk) as (u & z & Hu & Hz). exists u, z. rewrite lookup_insert_ne; [done|congruence].
  - intros u z k [[<- <-]|[Hne Hu]]%lookup_insert_Some Hz.
    + injection Hz as <-. rewrite lookup_insert_eq. eauto.
    + rewrite lookup_insert_ne; [by eapply Halloc|]. intros <-. by eapply Hother.
  - intros u u' z z' k [[<- <-]|[_ Hu]]%lookup_insert_Some [[<- <-]|[_ Hu']]%lookup_insert_Some Hz Hz'; simplify_eq/=; try done.
    + by apply Hother in Hu'.
    + by apply Hother in Hu.
    + by eapply Hone.
  - intros u. rewrite fmap_app, elem_of_app, <- Hstart, lookup_insert_is_Some. simpl. rewrite list_elem_of_singleton.
    destruct (decide (th = u)) as [<-|]; naive_solver.
  - rewrite fmap_app. simpl. apply NoDup_app. split; [done|]. split; [|apply NoDup_singleton]. set_solver.
  - intros u v. rewrite elem_of_app, Hcall, list_elem_of_singleton. split.
    + intros [[?|(z & Hz & Hx)]|[= -> ->]]; [by left| |].
      * right. exists z. rewrite lookup_insert_ne by congruence. split; [done|]. by rewrite (Hsame u).
      * right. exists (Begun l). rewrite lookup_insert_eq. split; [done|]. simpl. apply lookup_insert_eq.
    + intros [?|(z & Hz & Hx)]; [by do 2 left|]. apply lookup_insert_Some in Hz as [[<- <-]|[Hne Hz]].
      * right. simpl in Hx. rewrite lookup_insert_eq in Hx. by simplify_eq.
      * left. right. exists z. split; [done|]. by rewrite <- (Hsame u).
  - intros u Hu. apply Hret in Hu as Hr. rewrite lookup_insert_ne; [done|]. intros <-. congruence.
Qed.

Lemma minv_mstep s p ev p' : mstep p ev p' → minv s p → minv (s ++ ev) p'.
Proof.
  destruct 1 as [th l detach det x p p' Hth Hl Hs|t p p' Hs]; intros Hi.
  - unfold start_with, method_thread_parent in Hs. rewrite decide_False in Hs by naive_solver.
    apply bind_Ok in Hs as (u & _ & [= <-]). by apply (minv_begin s p).
  - rewrite app_nil_r. unfold yyy_step in Hs. destruct (threads p !! t) as [[l|l x|x|x|]|] eqn:Ht; try done.
    + destruct (heap p !! l) as [x|] eqn:Hl; [|done]. injection Hs as <-. by eapply minv_same.
    + destruct (heap p !! l) as [x'|] eqn:Hl; [|done]. injection Hs as <-. by apply minv_free.
    + apply bind_Ok in Hs as (u & _ & [= <-]). by eapply minv_same.
    + injection Hs as <-. by apply minv_call.
Qed.

Lemma minv_msteps s0 s p p' : msteps p s p' → minv s0 p → minv (s0 ++ s) p'.
Proof.
  intros Hs. revert s0. induction Hs as [p|p p1 p2 s s' Hs _ IH]; intros s0 Hi; [by rewrite app_nil_r|].
  rewrite app_assoc. by eapply IH, minv_mstep.
Qed.
End method_thread.
Arguments XXX : clear implicits.
Arguments yyy : clear implicits.
Arguments process : clear implicits.

(** ** The property *)

(** C39: A thread started with method_thread calls its method once.  In any interleaving
    of starts that the thread library answers with success and of the threads' steps, no thread reads or frees an XXX object that is
    not allocated; every call made is the method of the object with the arguments that
    the thread was started for, one per thread; and when all threads have returned, all
    methods have been called and all XXX objects freed. *)
Theorem method_threads_call_once {C M0 M1 M2 M3 A1 A2 A3} s (p : process C M0 M1 M2 M3 A1 A2 A3) :
  msteps no_threads s p →
  (∀ t, ∃ o, yyy_step 0 0 t p = Ok o) ∧
  (∀ c, c ∈ called p → c ∈ s) ∧ NoDup (called p).*1 ∧
  ((∀ t y, threads p !! t = Some y → y = Returned) → called p ≡ₚ s ∧ heap p = ∅).
Proof.
  intros Hs. pose proof (minv_msteps [] s _ _ Hs minv_start) as [Hheap Halloc Hone Hstart Hnd Hcall Hret Honce].
  simpl in *. split_and!; [|intros [t x] Hc; apply Hcall; by left|done|].
  - intros t. unfold yyy_step. destruct (threads p !! t) as [[l|l x|x|x|]|] eqn:Ht; simpl; eauto;
      (destruct (Halloc t _ l Ht eq_refl) as [? ->]; eauto).
  - intros Hall. split.
    + apply NoDup_Permutation; [by eapply NoDup_fmap_1..|]. intros [t x]. rewrite Hcall. split; [by left|].
      intros [?|(y & Hy & Hx)]; [done|]. by rewrite (Hall t y Hy) in Hx.
    + apply map_eq. intros l. rewrite lookup_empty. destruct (heap p !! l) as [x|] eqn:Hl; [|done].
      destruct (Hheap l x Hl) as (t & y & Hy & Hp). by rewrite (Hall t y Hy) in Hp.
Qed.

(** Two threads, one with an argument, their steps interleaved. *)
Definition ex_process : Type := process nat nat nat nat nat Z Z Z.
Definition ex_end : ex_process :=
  Process ∅ {[1 := Returned; 2 := Returned]} [(2, XXX_1 8 6 9%Z); (1, XXX_0 7 5)].

Lemma ex_msteps : msteps (no_threads : ex_process) [(1, XXX_0 7 5); (2, XXX_1 8 6 9%Z)] ex_end.
Proof.
  eapply (msteps_cons _ _ _ [(1, XXX_0 7 5)] [(2, XXX_1 8 6 9%Z)]);
    [by eapply (m_start 1 100 true 0)|].
  eapply (msteps_cons _ _ _ [] [(2, XXX_1 8 6 9%Z)]); [by apply (m_step 1)|].
  eapply (msteps_cons _ _ _ [(2, XXX_1 8 6 9%Z)] []); [by eapply (m_start 2 101 false 0)|].
  do 4 (eapply (msteps_cons _ _ _ [] []); [by apply (m_step 2)|]).
  do 3 (eapply (msteps_cons _ _ _ [] []); [by apply (m_step 1)|]).
  assert (∀ p q : ex_process, p = q → msteps p [] q) as Hnil by (intros ? ? ->; constructor).
  apply Hnil. vm_compute. reflexivity.
Qed.

Lemma method_threads_call_once_witness :
  called ex_end ≡ₚ [(1, XXX_0 7 5); (2, XXX_1 8 6 9%Z)] ∧ heap ex_end = ∅.
Proof.
  apply (method_threads_call_once [(1, XXX_0 7 5); (2, XXX_1 8 6 9%Z)] ex_end); [exact ex_msteps|].
  intros t y. unfold ex_end. cbn [threads]. rewrite lookup_insert_Some, lookup_singleton_Some. naive_solver.
Defined.
