(* ===== verification/Fifo.v ===== *)
(** * The bounded queue of rpc/fifo.h

    [fifo<T>]: a list under one mutex with two condition variables.  The critical
    sections are functions; the threads that use the queue are a step relation in
    which a waiter is woken by a signal or by itself. *)

From stdpp Require Import base tactics numbers list relations.
From Stdlib Require Import ZArith Lia.
From S2P Require Import Prelude.

(** ** Counting the threads at a place *)
Section counting.
Context {P : Type}.
Definition count (f : P → bool) (l : list P) : nat := length (filter (λ x, f x = true) l).

Lemma count_cons f x l : count f (x :: l) = (if f x then 1 else 0) + count f l.
Proof.
  unfold count. rewrite filter_cons. by destruct (decide (f x = true)), (f x).
Qed.

Lemma count_replicate_0 f n x : f x = false → count f (replicate n x) = 0.
Proof. intros Hf. induction n as [|n IH]; [done|]. simpl. by rewrite count_cons, Hf, IH. Qed.

Lemma count_insert f l t p q :
  l !! t = Some p →
  count f (<[t := q]> l) + (if f p then 1 else 0) = count f l + (if f q then 1 else 0).
Proof.
  revert t. induction l as [|x l IH]; intros [|t] Hl; simplify_eq/=.
  - rewrite !count_cons. lia.
  - rewrite !count_cons. specialize (IH _ Hl). lia.
Qed.

Lemma count_pos f l : 0 < count f l ↔ ∃ t p, l !! t = Some p ∧ f p = true.
Proof.
  induction l as [|x l IH].
  - split; [cbn; lia|]. intros (t & p & Hl & _). by rewrite lookup_nil in Hl.
  - rewrite count_cons. split.
    + destruct (f x) eqn:E; [intros _; by exists 0, x|]. intros (t & p & ? & ?)%IH.
      by exists (S t), p.
    + intros ([|t] & p & Hl & Hf); simplify_eq/=; [rewrite Hf; lia|].
      assert (0 < count f l) by (apply IH; eauto). lia.
Qed.
End counting.

Section fifo.
Context {T : Type}.

(** [fifo<T>]: the list [q_] and the capacity [max_], an unsigned int; 0 is no bound. *)
Record fifo := Fifo { q_ : list T; max_ : Z }.

(** [fifo::fifo] *)
Definition new_fifo (limit : Z) : fifo := Fifo [] (u32 limit).

(** [fifo::size]: a [bool]. *)
Definition fifo_size (f : fifo) : bool := negb (Z.of_nat (length (q_ f)) =? 0)%Z.

(** One turn of the loop of [fifo::enq]: the element is pushed, or there is no space. *)
Definition enq_look (e : T) (f : fifo) : option fifo :=
  if ((max_ f =? 0) || (Z.of_nat (length (q_ f)) <? max_ f))%Z
  then Some (Fifo (q_ f ++ [e]) (max_ f)) else None.

(** One turn of the loop of [fifo::deq]: the element, the queue, and whether
    [has_space_c_] is signalled; or the queue is empty. *)
Definition deq_look (f : fifo) : option (T * fifo * bool) :=
  match q_ f with
  | [] => None
  | e :: q =>
      Some (e, Fifo q (max_ f), (negb (max_ f =? 0) && (Z.of_nat (length q) <? max_ f))%Z)
  end.

(** Where a thread is: outside, about to take the mutex and look, or in
    [pthread_cond_wait]. *)
Inductive place := Away | EnqLook (e : T) (blocking : bool) | EnqWait (e : T) | DeqLook | DeqWait.

Definition enq_waits (p : place) : bool := match p with EnqWait _ => true | _ => false end.
Definition enq_looks (p : place) : bool := match p with EnqLook _ _ => true | _ => false end.
Definition deq_waits (p : place) : bool := match p with DeqWait => true | _ => false end.
Definition deq_looks (p : place) : bool := match p with DeqLook => true | _ => false end.

(** Awake from the wait, a thread takes the mutex and looks again. *)
Definition awake (p : place) : place :=
  match p with EnqWait e => EnqLook e true | DeqWait => DeqLook | p => p end.

(** [pthread_cond_signal]: one of the waiters, if there is one, wakes up. *)
Inductive signal (waits : place → bool) (ps : list place) : list place → Prop :=
  | signal_none : count waits ps = 0 → signal waits ps ps
  | signal_one t p : ps !! t = Some p → waits p = true → signal waits ps (<[t := awake p]> ps).

(** The queue, the threads, and what was pushed and popped so far. *)
Record fstate := FState {
  fs_q : fifo; fs_at : list place; fs_in : list T; fs_out : list T }.

Inductive fstep : fstate → fstate → Prop :=
  | f_enq_call t e b f ps i o :
      ps !! t = Some Away → fstep (FState f ps i o) (FState f (<[t := EnqLook e b]> ps) i o)
  | f_deq_call t f ps i o :
      ps !! t = Some Away → fstep (FState f ps i o) (FState f (<[t := DeqLook]> ps) i o)
  | f_enq t e b f f' ps ps' i o :
      ps !! t = Some (EnqLook e b) → enq_look e f = Some f' →
      signal deq_waits (<[t := Away]> ps) ps' →
      fstep (FState f ps i o) (FState f' ps' (i ++ [e]) o)
  | f_enq_wait t e f ps i o :
      ps !! t = Some (EnqLook e true) → enq_look e f = None →
      fstep (FState f ps i o) (FState f (<[t := EnqWait e]> ps) i o)
  | f_enq_fail t e f ps i o :
      ps !! t = Some (EnqLook e false) → enq_look e f = None →
      fstep (FState f ps i o) (FState f (<[t := Away]> ps) i o)
  | f_deq t e (s : bool) f f' ps ps' i o :
      ps !! t = Some DeqLook → deq_look f = Some (e, f', s) →
      (if s then signal enq_waits (<[t := Away]> ps) ps' else ps' = <[t := Away]> ps) →
      fstep (FState f ps i o) (FState f' ps' i (o ++ [e]))
  | f_deq_wait t f ps i o :
      ps !! t = Some DeqLook → deq_look f = None →
      fstep (FState f ps i o) (FState f (<[t := DeqWait]> ps) i o)
  | f_spurious t p f ps i o :
      ps !! t = Some p → (enq_waits p || deq_waits p) = true →
      fstep (FState f ps i o) (FState f (<[t := awake p]> ps) i o).

Definition fstart (limit : Z) (n : nat) : fstate := FState (new_fifo limit) (replicate n Away) [] [].

(** ** Invariant *)

(** Order, capacity, and no lost wake-up: while a thread waits for an element there
    are as many threads about to look as there are elements, and while one waits for
    space as many as there are free places. *)
Record finv (limit : Z) (σ : fstate) : Prop := Finv {
  fi_max : max_ (fs_q σ) = u32 limit;
  fi_order : fs_in σ = fs_out σ ++ q_ (fs_q σ);
  fi_capacity : max_ (fs_q σ) ≠ 0%Z → (Z.of_nat (length (q_ (fs_q σ))) <= max_ (fs_q σ))%Z;
  fi_deq : 0 < count deq_waits (fs_at σ) → length (q_ (fs_q σ)) ≤ count deq_looks (fs_at σ);
  fi_enq : 0 < count enq_waits (fs_at σ) →
    max_ (fs_q σ) ≠ 0%Z ∧
    (max_ (fs_q σ) - Z.of_nat (length (q_ (fs_q σ))) <= Z.of_nat (count enq_looks (fs_at σ)))%Z }.

Lemma signal_deq ps ps' :
  signal deq_waits ps ps' →
  count enq_waits ps' = count enq_waits ps ∧ count enq_looks ps' = count enq_looks ps ∧
  (0 < count deq_waits ps' → count deq_looks ps' = S (count deq_looks ps) ∧ 0 < count deq_waits ps) .
Proof.
  intros [H0|t p Hp Hw].
  - split_and!; [done..|lia].
  - destruct p; try done. simpl.
    pose proof (count_insert enq_waits _ _ _ DeqLook Hp). pose proof (count_insert enq_looks _ _ _ DeqLook Hp).
    pose proof (count_insert deq_waits _ _ _ DeqLook Hp). pose proof (count_insert deq_looks _ _ _ DeqLook Hp).
    simpl in *. lia.
Qed.

Lemma signal_enq ps ps' :
  signal enq_waits ps ps' →
  count deq_waits ps' = count deq_waits ps ∧ count deq_looks ps' = count deq_looks ps ∧
  (0 < count enq_waits ps' → count enq_looks ps' = S (count enq_looks ps) ∧ 0 < count enq_waits ps) .
Proof.
  intros [H0|t p Hp Hw].
  - split_and!; [done..|lia].
  - destruct p as [| |e| |]; try done. simpl.
    pose proof (count_insert enq_waits _ _ _ (EnqLook e true) Hp).
    pose proof (count_insert enq_looks _ _ _ (EnqLook e true) Hp).
    pose proof (count_insert deq_waits _ _ _ (EnqLook e true) Hp).
    pose proof (count_insert deq_looks _ _ _ (EnqLook e true) Hp).
    simpl in *. lia.
Qed.

Lemma enq_look_spec e f :
  match enq_look e f with
  | Some f' => q_ f' = q_ f ++ [e] ∧ max_ f' = max_ f ∧
      (max_ f ≠ 0%Z → (Z.of_nat (length (q_ f)) < max_ f)%Z)
  | None => max_ f ≠ 0%Z ∧ (max_ f <= Z.of_nat (length (q_ f)))%Z
  end.
Proof.
  unfold enq_look. destruct (Z.eqb_spec (max_ f) 0), (Z.ltb_spec (Z.of_nat (length (q_ f))) (max_ f));
    simpl; split_and?; done || lia.
Qed.

(** The counts of all places after one thread moves. *)
Ltac counts Hp q :=
  pose proof (count_insert enq_waits _ _ _ q Hp); pose proof (count_insert enq_looks _ _ _ q Hp);
  pose proof (count_insert deq_waits _ _ _ q Hp); pose proof (count_insert deq_looks _ _ _ q Hp);
  cbn [enq_waits enq_looks deq_waits deq_looks] in *.

Lemma finv_step limit σ σ' : fstep σ σ' → finv limit σ → finv limit σ'.
Proof.
  intros Hs [Hm Ho Hc Hd He].
  destruct Hs as [t e b f ps i o Hp|t f ps i o Hp|t e b f f' ps ps' i o Hp El Hsig
    |t e f ps i o Hp El|t e f ps i o Hp El|t e s f f' ps ps' i o Hp El Hsig|t f ps i o Hp El
    |t p f ps i o Hp Hw]; simpl in *.
  - counts Hp (EnqLook e b). constructor; simpl; [done..|lia|lia].
  - counts Hp DeqLook. constructor; simpl; [done..|lia|lia].
  - counts Hp Away. pose proof (enq_look_spec e f) as Hl. rewrite El in Hl.
    destruct Hl as (Hq & Hmx & Hlt). destruct (signal_deq _ _ Hsig) as (? & ? & ?).
    constructor; simpl; rewrite ?Hq, ?Hmx, ?length_app; simpl; [done| |lia|lia|lia].
    by rewrite Ho, (assoc_L (++)).
  - counts Hp (EnqWait e). pose proof (enq_look_spec e f) as Hl. rewrite El in Hl.
    constructor; simpl; [done..|lia|lia].
  - counts Hp Away. pose proof (enq_look_spec e f) as Hl. rewrite El in Hl.
    constructor; simpl; [done..|lia|lia].
  - counts Hp Away. unfold deq_look in El. destruct (q_ f) as [|e' q] eqn:Eq; [done|].
    injection El as -> <- Es. simpl in *.
    assert (0 < count deq_waits ps' → length q ≤ count deq_looks ps') as Hd'.
    { destruct s; [destruct (signal_enq _ _ Hsig); lia|subst ps'; lia]. }
    constructor; simpl; [done| |lia|done|].
    + by rewrite Ho, <-(assoc_L (++)).
    + intros Hw. destruct s.
      * destruct (signal_enq _ _ Hsig) as (_ & _ & Hx). specialize (Hx Hw). lia.
      * subst ps'. destruct He as [Hnz He]; [lia|]. specialize (Hc Hnz).
        destruct (Z.eqb_spec (max_ f) 0), (Z.ltb_spec (Z.of_nat (length q)) (max_ f)); simpl in Es;
          (done || lia).
  - counts Hp DeqWait. unfold deq_look in El. destruct (q_ f) eqn:Eq; [|done].
    constructor; simpl; rewrite ?Eq; [done..|simpl; lia|].
    intros Hw. destruct He as [? He]; [lia|]. simpl in *. lia.
  - destruct p; try done.
    + counts Hp (EnqLook e true). constructor; simpl; [done..|lia|lia].
    + counts Hp DeqLook. constructor; simpl; [done..|lia|lia].
Qed.
End fifo.
Arguments fifo T : clear implicits.
Arguments place T : clear implicits.
Arguments fstate T : clear implicits.

Lemma finv_reachable {T} limit n (σ : fstate T) : rtc fstep (fstart limit n) σ → finv limit σ.
Proof.
  intros Hr. remember (fstart limit n) as σ0 eqn:E0.
  assert (finv limit σ0) as H0.
  { subst. constructor; simpl;
      [done|done| |rewrite count_replicate_0 by done; lia|rewrite count_replicate_0 by done; lia].
    pose proof (u32_range limit). lia. }
  clear E0. induction Hr as [|x y z Hxy Hyz IH]; [done|]. apply IH. by eapply finv_step.
Qed.

(** C25: Whatever the threads do, and however often a waiter wakes up by itself, the
    queue gives the elements out in the order they went in, never holds more than its
    capacity, and loses no wake-up: if a thread waits for an element while there is
    one, another thread is about to take it, and if one waits for space while there is
    some, another is about to fill it. *)
Theorem fifo_correct {T} limit n (σ : fstate T) :
  rtc fstep (fstart limit n) σ →
  fs_in σ = fs_out σ ++ q_ (fs_q σ) ∧
  (u32 limit ≠ 0%Z → (Z.of_nat (length (q_ (fs_q σ))) <= u32 limit)%Z) ∧
  (∀ t, fs_at σ !! t = Some DeqWait → q_ (fs_q σ) ≠ [] →
     ∃ t' r, fs_at σ !! t' = Some DeqLook ∧ deq_look (fs_q σ) = Some r) ∧
  (∀ t e, fs_at σ !! t = Some (EnqWait e) → (Z.of_nat (length (q_ (fs_q σ))) < u32 limit)%Z →
     ∃ t' e' b f', fs_at σ !! t' = Some (EnqLook e' b) ∧ enq_look e' (fs_q σ) = Some f').
Proof.
  intros [Hm Ho Hc Hd He]%finv_reachable. rewrite <-Hm. split_and!; [done|done| |].
  - intros t Ht Hq. assert (0 < count deq_looks (fs_at σ)) as Hpos.
    { destruct (q_ (fs_q σ)); [done|]. simpl in Hd. apply (Nat.lt_le_trans _ (S (length l))); [lia|].
      apply Hd, count_pos. eauto. }
    apply count_pos in Hpos as (t' & p & Hp & Hl). destruct p; try done.
    unfold deq_look. destruct (q_ (fs_q σ)); [done|]. eauto.
  - intros t e Ht Hlt. destruct He as [Hnz He]; [apply count_pos; by eauto|].
    assert (0 < count enq_looks (fs_at σ)) as Hpos by lia.
    apply count_pos in Hpos as (t' & p & Hp & Hl). destruct p as [|e' b| | |]; try done.
    exists t', e', b. pose proof (enq_look_spec e' (fs_q σ)) as Hlook.
    destruct (enq_look e' (fs_q σ)); [eauto|lia].
Qed.

(** A consumer waits on the empty queue and two producers fill a queue of capacity 1. *)
Lemma fifo_correct_witness :
  ∃ σ : fstate nat, rtc fstep (fstart 1 3) σ ∧ fs_at σ !! 2 = Some (EnqWait 8) ∧
    fs_in σ = fs_out σ ++ q_ (fs_q σ) ∧ fs_in σ = [7].
Proof.
  assert (rtc fstep (fstart 1 3) (FState (Fifo [7] 1) [DeqLook; Away; EnqWait 8] [7] [])) as Hr.
  { eapply rtc_l; [by apply (f_deq_call 0)|].
    eapply rtc_l; [by apply (f_deq_wait 0)|].
    eapply rtc_l; [by apply (f_enq_call 1 7 true)|].
    eapply rtc_l; [by apply (f_enq_call 2 8 true)|].
    eapply rtc_l; [by eapply (f_enq 1 7 true); [..|apply (signal_one _ _ 0 DeqWait)]|].
    eapply rtc_l; [by apply (f_enq_wait 2 8)|]. apply rtc_refl. }
  eexists. split; [exact Hr|]. split; [reflexivity|].
  split; [exact (proj1 (fifo_correct 1 3 _ Hr))|reflexivity].
Defined.
