(* ===== verification/ThrPool.v ===== *)
(** * The thread pool of rpc/thr_pool.cc

    [ThrPool]: worker threads that take jobs from a bounded queue until they take a
    job without a function, which the destructor puts in once per worker.  The queue
    is the one of Fifo.v; a blocked [enq] or [deq] is a step that is not enabled. *)

From stdpp Require Import base tactics numbers list relations.
From Stdlib Require Import ZArith Lia.
From S2P Require Import Prelude Fifo.

Section pool.
Context {F A : Type}.

(** [ThrPool::job_t]: the function, [None] for NULL, and its argument. *)
Record job_t := Job { j_f : option F; j_a : A }.

(** The three ways an [addJob] ends. *)
Inductive add_result := Added (q : fifo job_t) | Refused | Blocks.

(** [ThrPool::addJob], an [enq] that blocks or not as [blockadd_] says. *)
Definition addJob (blockadd : bool) (f : F) (a : A) (jobq : fifo job_t) : add_result :=
  match enq_look (Job (Some f) a) jobq with
  | Some q => Added q
  | None => if blockadd then Blocks else Refused
  end.

(** [ThrPool::takeJob]: [None] while the queue is empty. *)
Definition takeJob (jobq : fifo job_t) : option (bool * job_t * fifo job_t) :=
  '(j, q, _) ← deq_look jobq; Some (match j_f j with Some _ => true | None => false end, j, q).

(** A worker in [do_worker]: before [takeJob], running a job, exited. *)
Inductive worker := Idle | Running (j : job_t) | Exited.

Definition exited (w : worker) : bool := match w with Exited => true | _ => false end.
Definition job_of (w : worker) : option job_t := match w with Running j => Some j | _ => None end.
Definition running (ws : list worker) : list job_t := omap job_of ws.

(** The pool: [p_left] is [None] before the destructor, then the number of empty jobs
    it has still to put; [p_added] and [p_ran] are the jobs accepted and run. *)
Record pool := Pool {
  p_jobq : fifo job_t; p_workers : list worker; p_left : option nat;
  p_added : list job_t; p_ran : list job_t }.

(** [ThrPool::ThrPool] *)
Definition new_pool (sz : nat) : pool :=
  Pool (new_fifo (100 * Z.of_nat sz)) (replicate sz Idle) None [] [].

(** [pill a]: the job without a function; its argument is left uninitialised. *)
Definition pill (a : A) : job_t := Job None a.

Inductive pstep (blockadd : bool) : pool → pool → Prop :=
  | p_add f a q q' ws ad rn :
      addJob blockadd f a q = Added q' →
      pstep blockadd (Pool q ws None ad rn) (Pool q' ws None (ad ++ [Job (Some f) a]) rn)
  | p_refuse f a q ws ad rn :
      addJob blockadd f a q = Refused →
      pstep blockadd (Pool q ws None ad rn) (Pool q ws None ad rn)
  | p_delete q ws ad rn :
      pstep blockadd (Pool q ws None ad rn) (Pool q ws (Some (length ws)) ad rn)
  | p_pill a k q q' ws ad rn :
      enq_look (pill a) q = Some q' →
      pstep blockadd (Pool q ws (Some (S k)) ad rn) (Pool q' ws (Some k) ad rn)
  | p_take t j q q' ws l ad rn :
      ws !! t = Some Idle → takeJob q = Some (true, j, q') →
      pstep blockadd (Pool q ws l ad rn) (Pool q' (<[t := Running j]> ws) l ad rn)
  | p_exit t j q q' ws l ad rn :
      ws !! t = Some Idle → takeJob q = Some (false, j, q') →
      pstep blockadd (Pool q ws l ad rn) (Pool q' (<[t := Exited]> ws) l ad rn)
  | p_run t j q ws l ad rn :
      ws !! t = Some (Running j) →
      pstep blockadd (Pool q ws l ad rn) (Pool q (<[t := Idle]> ws) l ad (rn ++ [j])).

(** The destructor has returned: all empty jobs are in, all workers joined. *)
Definition deleted (σ : pool) : Prop :=
  p_left σ = Some 0 ∧ ∀ t w, p_workers σ !! t = Some w → w = Exited.

(** ** Invariant *)
Definition is_job (j : job_t) : Prop := is_Some (j_f j).

(** The queue is jobs followed by empty jobs, as many as there are workers still to
    stop, less those still to come. *)
Record pinv (sz : nat) (σ : pool) (jobs pills : list job_t) : Prop := Pinv {
  pi_queue : q_ (p_jobq σ) = jobs ++ pills;
  pi_jobs : Forall is_job jobs;
  pi_pills : Forall (λ j, j_f j = None) pills;
  pi_cap : max_ (p_jobq σ) = u32 (100 * Z.of_nat sz);
  pi_size : length (p_workers σ) = sz;
  pi_left : match p_left σ with
            | None => pills = [] ∧ count exited (p_workers σ) = 0
            | Some k => count exited (p_workers σ) + length pills + k = sz
            end;
  pi_exit : 0 < count exited (p_workers σ) → jobs = [];
  pi_all : p_added σ ≡ₚ p_ran σ ++ running (p_workers σ) ++ jobs }.

Lemma running_insert ws t p q :
  ws !! t = Some p →
  option_list (job_of p) ++ running (<[t := q]> ws) ≡ₚ option_list (job_of q) ++ running ws.
Proof.
  intros Hp. rewrite insert_take_drop by by eapply lookup_lt_Some.
  rewrite <-(take_drop_middle _ _ _ Hp) at 3. unfold running. rewrite !omap_app. simpl.
  destruct (job_of p), (job_of q); simpl; solve_Permutation.
Qed.

Lemma takeJob_spec q b j q' :
  takeJob q = Some (b, j, q') →
  q_ q = j :: q_ q' ∧ max_ q' = max_ q ∧ (b = true → is_job j) ∧ (b = false → j_f j = None).
Proof.
  unfold takeJob, deq_look, is_job. destruct (q_ q) as [|x l]; [done|]. simpl. intros [= <- -> <-].
  destruct (j_f j); naive_solver.
Qed.

(** The head of jobs followed by empty jobs. *)
Lemma head_of_jobs (j : job_t) q jobs pills :
  j :: q = jobs ++ pills → Forall is_job jobs → Forall (λ j, j_f j = None) pills →
  (∃ jobs', jobs = j :: jobs' ∧ q = jobs' ++ pills ∧ is_job j) ∨
  (∃ pills', jobs = [] ∧ pills = j :: pills' ∧ q = pills' ∧ j_f j = None).
Proof.
  destruct jobs as [|j' jobs]; simpl.
  - intros <- _ [? ?]%Forall_cons. right. eauto.
  - intros [= -> ->] [? ?]%Forall_cons _. left. eauto.
Qed.

Lemma pinv_step sz b σ σ' jobs pills :
  pstep b σ σ' → pinv sz σ jobs pills → ∃ jobs' pills', pinv sz σ' jobs' pills'.
Proof.
  intros Hs [Hq Hj Hp Hc Hsz Hl He Ha].
  destruct Hs as [f a q q' ws ad rn Ead|f a q ws ad rn _|q ws ad rn|a k q q' ws ad rn Eenq
    |t j q q' ws l ad rn Ht Etk|t j q q' ws l ad rn Ht Etk|t j q ws l ad rn Ht]; simpl in *.
  - unfold addJob in Ead. pose proof (enq_look_spec (Job (Some f) a) q) as Hspec.
    destruct (enq_look _ q); [|by destruct b]. injection Ead as ->. destruct Hspec as (Hq' & Hm & _).
    destruct Hl as [-> Hx]. exists (jobs ++ [Job (Some f) a]), []. constructor; simpl; try done.
    + by rewrite Hq', Hq, !app_nil_r.
    + apply Forall_app. split; [done|]. apply Forall_singleton. by eexists.
    + by rewrite Hm.
    + lia.
    + rewrite Ha. solve_Permutation.
  - by exists jobs, pills.
  - exists jobs, pills. destruct Hl as [-> Hx]. constructor; simpl; try done. lia.
  - pose proof (enq_look_spec (pill a) q) as Hspec. rewrite Eenq in Hspec.
    destruct Hspec as (Hq' & Hm & _). exists jobs, (pills ++ [pill a]). constructor; simpl; try done.
    + by rewrite Hq', Hq, (assoc_L (++)).
    + apply Forall_app. split; [done|]. by apply Forall_singleton.
    + by rewrite Hm.
    + rewrite length_app. simpl. lia.
  - apply takeJob_spec in Etk as (Eq & Hm & Hjob & _). rewrite Eq in Hq.
    destruct (head_of_jobs _ _ _ _ Hq Hj Hp) as [(jobs' & -> & Hq' & _)|(? & _ & _ & _ & Hn)].
    2: { destruct (Hjob eq_refl). congruence. }
    exists jobs', pills. apply Forall_cons in Hj as [_ Hj].
    pose proof (count_insert exited _ _ _ (Running j) Ht). simpl in *.
    constructor; simpl; try done; 
      [by rewrite Hm|by rewrite length_insert|destruct l; naive_solver lia|naive_solver lia|].
    rewrite Ha. pose proof (running_insert _ _ _ (Running j) Ht) as Hr. simpl in Hr. rewrite Hr.
    solve_Permutation.
  - apply takeJob_spec in Etk as (Eq & Hm & _ & Hpill). rewrite Eq in Hq.
    destruct (head_of_jobs _ _ _ _ Hq Hj Hp) as [(? & _ & _ & [f Hf])|(pills' & -> & -> & Hq' & _)].
    { rewrite Hpill in Hf; done. }
    exists [], pills'. apply Forall_cons in Hp as [_ Hp].
    pose proof (count_insert exited _ _ _ Exited Ht). simpl in *.
    constructor; simpl; try done; [by rewrite Hm|by rewrite length_insert| |].
    + destruct l; [lia|by destruct Hl].
    + rewrite Ha. pose proof (running_insert _ _ _ Exited Ht) as Hr. simpl in Hr. by rewrite Hr.
  - exists jobs, pills. pose proof (count_insert exited _ _ _ Idle Ht). simpl in *.
    constructor; simpl; try done; [by rewrite length_insert|destruct l; naive_solver lia|naive_solver lia|].
    rewrite Ha. pose proof (running_insert _ _ _ Idle Ht) as Hr. simpl in Hr. rewrite <-Hr.
    solve_Permutation.
Qed.

Lemma pinv_reachable sz b σ : rtc (pstep b) (new_pool sz) σ → ∃ jobs pills, pinv sz σ jobs pills.
Proof.
  intros Hr. remember (new_pool sz) as σ0 eqn:E0.
  assert (∃ jobs pills, pinv sz σ0 jobs pills) as H0.
  { subst. exists [], []. constructor; simpl; try done.
    - by rewrite length_replicate.
    - split; [done|]. by apply count_replicate_0.
    - rewrite app_nil_r. unfold running. clear. by induction sz. }
  clear E0. induction Hr as [|x y z Hxy Hyz IH]; [done|]. apply IH.
  destruct H0 as (jobs & pills & H0). by eapply pinv_step.
Qed.

(** What is left to do for the destructor. *)
Definition busy (w : worker) : bool := match w with Running _ => true | _ => false end.
Definition work_left (σ : pool) : nat :=
  3 * default 0 (p_left σ) + 2 * length (q_ (p_jobq σ)) + count busy (p_workers σ).

Lemma work_decreases b σ σ' : pstep b σ σ' → p_left σ ≠ None → work_left σ' < work_left σ ∧ p_left σ' ≠ None.
Proof.
  intros Hs. destruct Hs as [| | |a k q q' ws ad rn Eenq|t j q q' ws l ad rn Ht Etk
    |t j q q' ws l ad rn Ht Etk|t j q ws l ad rn Ht]; simpl; try done; intros Hl; (split; [|done]);
    unfold work_left; simpl.
  - pose proof (enq_look_spec (pill a) q) as Hspec. rewrite Eenq in Hspec.
    destruct Hspec as (-> & _). rewrite length_app. simpl. lia.
  - apply takeJob_spec in Etk as (-> & _). pose proof (count_insert busy _ _ _ (Running j) Ht).
    simpl in *. lia.
  - apply takeJob_spec in Etk as (-> & _). pose proof (count_insert busy _ _ _ Exited Ht).
    simpl in *. lia.
  - pose proof (count_insert busy _ _ _ Idle Ht). simpl in *. lia.
Qed.

(** While the destructor waits there is something to do. *)
Lemma pool_progress b σ sz jobs pills (a : A) :
  pinv sz σ jobs pills → p_left σ ≠ None → deleted σ ∨ ∃ σ', pstep b σ σ'.
Proof.
  intros [Hq Hj Hp Hc Hsz Hl He Ha] Hd. destruct σ as [q ws [k|] ad rn]; simpl in *; [|done].
  destruct (decide (Exists (λ w, exited w = false) ws))
    as [(w & [t Ht]%list_elem_of_lookup & Hw)%Exists_exists|Hn].
  - right. destruct w as [|j|]; [|eexists; by apply p_run|done].
    destruct (q_ q) as [|j q1] eqn:Eq.
    + symmetry in Hq. apply app_eq_nil in Hq as [-> ->]. destruct k as [|k].
      * exfalso. assert (0 < count (λ w, negb (exited w)) ws) by (apply count_pos; exists t, Idle; done).
        assert (count exited ws + count (λ w, negb (exited w)) ws = length ws); [|simpl in *; lia].
        clear. induction ws as [|w ws IH]; [done|]. rewrite !count_cons. simpl. destruct (exited w); simpl; lia.
      * destruct (enq_look (pill a) q) as [q'|] eqn:E; [eexists; by eapply p_pill|].
        pose proof (enq_look_spec (pill a) q) as Hspec. rewrite E, Eq in Hspec. simpl in Hspec.
        pose proof (u32_range (100 * Z.of_nat sz)). lia.
    + destruct (j_f j) eqn:Ej.
      * eexists. eapply p_take; [done|]. unfold takeJob, deq_look. rewrite Eq. simpl. by rewrite Ej.
      * eexists. eapply p_exit; [done|]. unfold takeJob, deq_look. rewrite Eq. simpl. by rewrite Ej.
  - assert (∀ t w, ws !! t = Some w → w = Exited) as Hall.
    { intros t w Ht. destruct (decide (exited w = true)) as [Hx|Hx]; [by destruct w|].
      destruct Hn. apply Exists_exists. exists w. split; [by eapply list_elem_of_lookup_2|]. by destruct w. }
    destruct k as [|k]; [by left|]. right. exfalso.
    assert (count exited ws = length ws); [|lia].
    clear -Hall. induction ws as [|w ws IH]; [done|]. rewrite count_cons. simpl.
    rewrite (Hall 0 w eq_refl), IH; [done|]. intros t v Hv. by apply (Hall (S t)).
Qed.

(** All workers stopped: the queue is empty and every job was run. *)
Lemma deleted_spec σ sz jobs pills :
  sz ≠ 0 → pinv sz σ jobs pills → deleted σ → q_ (p_jobq σ) = [] ∧ p_ran σ ≡ₚ p_added σ.
Proof.
  intros Hnz [Hq Hj Hp Hc Hsz Hl He Ha] [Hleft Hall]. rewrite Hleft in Hl.
  assert (count exited (p_workers σ) = length (p_workers σ) ∧ running (p_workers σ) = []) as [Hce Hr].
  { clear -Hall. induction (p_workers σ) as [|w ws IH]; [done|]. rewrite count_cons, (Hall 0 w eq_refl).
    destruct IH as [-> Hr]; [|done]. intros t v Hv. by apply (Hall (S t)). }
  rewrite Hce, Hsz in *. assert (pills = []) as -> by (apply nil_length_inv; lia).
  rewrite He in * by lia. rewrite Ha, Hr. split; [done|]. solve_Permutation.
Qed.

Lemma pool_terminates b σ : p_left σ ≠ None → sn (pstep b) σ.
Proof.
  remember (work_left σ) as n eqn:En. revert σ En.
  induction (lt_wf n) as [n _ IH]. intros σ -> Hd. constructor. intros σ' Hs.
  destruct (work_decreases _ _ _ Hs Hd) as [Hlt Hd']. by eapply IH.
Qed.

Lemma pool_closed b σ σ' :
  rtc (pstep b) σ σ' → p_left σ ≠ None → p_left σ' ≠ None ∧ p_added σ' = p_added σ.
Proof.
  intros Hr. induction Hr as [|x y z Hxy Hyz IH]; [done|]. intros Hd.
  destruct (work_decreases _ _ _ Hxy Hd) as [_ Hd']. destruct (IH Hd') as [? ->]. split; [done|].
  by inversion Hxy; subst.
Qed.

End pool.
Arguments pool F A : clear implicits.
Arguments job_t F A : clear implicits.

(** C28: Once the destructor of a pool with at least one worker has begun, every run
    comes to an end; and where it ends, the destructor has returned, the queue is empty
    and the jobs that were accepted have all been run, each once. *)
Theorem pool_shutdown {F A} `{!Inhabited A} sz b (σ : pool F A) :
  sz ≠ 0 → rtc (pstep b) (new_pool sz) σ → p_left σ ≠ None →
  sn (pstep b) σ ∧
  ∀ σ', rtc (pstep b) σ σ' → nf (pstep b) σ' →
    deleted σ' ∧ q_ (p_jobq σ') = [] ∧ p_ran σ' ≡ₚ p_added σ.
Proof.
  intros Hnz Hr Hd. split; [by apply pool_terminates|]. intros σ' Hr' Hnf.
  destruct (pool_closed _ _ _ Hr' Hd) as [Hd' <-].
  destruct (pinv_reachable sz b σ') as (jobs & pills & Hi); [by etrans|].
  destruct (pool_progress b σ' sz jobs pills inhabitant Hi Hd') as [Hdel|Hstep]; [|done].
  split; [done|]. by eapply deleted_spec.
Qed.

(** One worker, one job, then the destructor. *)
Lemma pool_shutdown_witness :
  ∃ σ : pool nat nat, sn (pstep false) σ ∧ p_added σ = [Job (Some 5) 6].
Proof.
  assert (rtc (pstep false) (new_pool 1)
    (Pool (Fifo [Job (Some 5) 6] 100) [Idle] (Some 1) [Job (Some 5) 6] [])) as Hr.
  { eapply rtc_l; [by eapply (p_add _ 5 6)|]. eapply rtc_l; [by eapply p_delete|]. apply rtc_refl. }
  destruct (pool_shutdown 1 false _ (Nat.neq_succ_0 0) Hr) as [Hsn _]; [discriminate|].
  eexists. split; [exact Hsn|reflexivity].
Defined.
