(* ===== verification/ObjJob.v ===== *)
(** * Jobs that call a method (thr_pool.h)

    [ThrPool::addObjJob] allocates an objfunc_wrapper with an object, a method and its
    argument and queues a job with a pointer to it; the worker that takes the job calls
    the method and frees the wrapper.  The pool is the one of ThrPool.v, its function
    the one of the wrapper class and its argument the address.  [rpcs::got_pdu] queues
    its own djob_t object that way. *)

From stdpp Require Import base tactics numbers list gmap sets relations.
From Stdlib Require Import ZArith Lia.
From S2P Require Import Prelude Fifo ThrPool.

Section objjob.
Context {C M A : Type}.

(** class objfunc_wrapper; also the call that its [func] makes. *)
Record objfunc_wrapper := Wrapper { ow_o : C; ow_m : M; ow_a : A }.

(** The pool with the wrappers allocated, the calls made, and for the property the calls
    whose [addObjJob] returned true and the wrappers of those that returned false. *)
Record objpool := ObjPool {
  op_pool : pool () nat;
  op_heap : gmap nat objfunc_wrapper;
  op_called : list objfunc_wrapper;
  op_accepted : list objfunc_wrapper;
  op_refused : gset nat }.

(** [addObjJob(o, m, a)] with its wrapper at the fresh address [l]: the answer of addJob
    is returned; [None] while it blocks. *)
Definition addObjJob (blockadd : bool) (l : nat) (x : objfunc_wrapper) (s : objpool) : option (bool * objpool) :=
  let h := <[l := x]> (op_heap s) in
  match op_pool s with
  | Pool q ws None ad rn =>
      match addJob blockadd () l q with
      | Added q' => Some (true, ObjPool (Pool q' ws None (ad ++ [Job (Some ()) l]) rn) h (op_called s) (op_accepted s ++ [x]) (op_refused s))
      | Refused => Some (false, ObjPool (op_pool s) h (op_called s) (op_accepted s) ({[l]} ∪ op_refused s))
      | Blocks => None
      end
  | _ => None     (* the destructor runs *)
  end.

(** [objfunc_wrapper::func], as worker [t] runs its job [j]: reading a wrapper that is
    not allocated is undefined. *)
Definition func (t : nat) (j : job_t () nat) (s : objpool) : outcome objpool :=
  match op_heap s !! j_a j, op_pool s with
  | Some x, Pool q ws l ad rn =>
      Ok (ObjPool (Pool q (<[t := Idle]> ws) l ad (rn ++ [j])) (delete (j_a j) (op_heap s))
            (op_called s ++ [x]) (op_accepted s) (op_refused s))
  | None, _ => Fault OutOfBounds
  end.

(** The other steps of the pool: jobs taken, the destructor, workers that stop. *)
Inductive ostep (blockadd : bool) : objpool → objpool → Prop :=
  | o_add l x s ret s' : op_heap s !! l = None → addObjJob blockadd l x s = Some (ret, s') → ostep blockadd s s'
  | o_pool σ' s : pstep blockadd (op_pool s) σ' → p_added σ' = p_added (op_pool s) → p_ran σ' = p_ran (op_pool s) →
      ostep blockadd s (ObjPool σ' (op_heap s) (op_called s) (op_accepted s) (op_refused s))
  | o_run t j s s' : p_workers (op_pool s) !! t = Some (Running j) → func t j s = Ok s' → ostep blockadd s s'.

Definition new_objpool (sz : nat) : objpool := ObjPool (new_pool sz) ∅ [] [] ∅.

(** ** The invariant *)

(** The jobs accepted and not yet run. *)
Definition real (l : list (job_t () nat)) : list (job_t () nat) := filter (λ j, j_f j ≠ None) l.
Definition pend (σ : pool () nat) : list (job_t () nat) := running (p_workers σ) ++ real (q_ (p_jobq σ)).

Lemma pend_pool b σ σ' : pstep b σ σ' → p_added σ' = p_added σ → p_ran σ' = p_ran σ → pend σ' ≡ₚ pend σ.
Proof.
  intros Hs Had Hrn. unfold pend.
  destruct Hs as [f a q q' ws ad rn Ead| | |a k q q' ws ad rn Eenq|t j q q' ws l ad rn Ht Etk
    |t j q q' ws l ad rn Ht Etk|t j q ws l ad rn Ht]; simpl in *; try done.
  - apply (f_equal length) in Had. rewrite length_app in Had. simpl in Had. lia.
  - pose proof (enq_look_spec (pill a) q) as Hspec. rewrite Eenq in Hspec. destruct Hspec as (-> & _).
    unfold real. rewrite filter_app. simpl. by rewrite app_nil_r.
  - apply takeJob_spec in Etk as (-> & _ & Hjob & _). destruct (Hjob eq_refl) as [f Hf].
    unfold real. rewrite filter_cons_True by (by rewrite Hf).
    pose proof (running_insert _ _ _ (Running j) Ht) as Hr. simpl in Hr. rewrite Hr. solve_Permutation.
  - apply takeJob_spec in Etk as (-> & _ & _ & Hpill).
    unfold real. rewrite filter_cons_False by (simpl; rewrite (Hpill eq_refl); intros Hnn; by apply Hnn).
    pose proof (running_insert _ _ _ Exited Ht) as Hr. simpl in Hr. by rewrite Hr.
  - apply (f_equal length) in Hrn. rewrite length_app in Hrn. simpl in Hrn. lia.
Qed.

Record oinv (s : objpool) : Prop := Oinv {
  oi_nodup : NoDup (j_a <$> pend (op_pool s));
  oi_live : ∀ j, j ∈ pend (op_pool s) → is_Some (op_heap s !! j_a j) ∧ j_a j ∉ op_refused s;
  oi_dom : ∀ l, is_Some (op_heap s !! l) ↔ l ∈ j_a <$> pend (op_pool s) ∨ l ∈ op_refused s;
  oi_calls : op_accepted s ≡ₚ op_called s ++ omap (λ j, op_heap s !! j_a j) (pend (op_pool s)) }.

(** The invariant looks at the jobs to run up to their order. *)
Lemma oinv_perm s s' : oinv s → pend (op_pool s') ≡ₚ pend (op_pool s) → op_heap s' = op_heap s → op_called s' = op_called s →
  op_accepted s' = op_accepted s → op_refused s' = op_refused s → oinv s'.
Proof.
  intros [Hnd Hlive Hdom Hcalls] Hp Hh Hc Ha Hr. constructor; rewrite ?Hh, ?Hc, ?Ha, ?Hr.
  - by rewrite Hp.
  - intros j. rewrite Hp. apply Hlive.
  - intros l. rewrite Hp. apply Hdom.
  - by rewrite Hp.
Qed.

Lemma omap_heap (h h' : gmap nat objfunc_wrapper) (l : list (job_t () nat)) : (∀ j, j ∈ l → h' !! j_a j = h !! j_a j) →
  omap (λ j, h' !! j_a j) l = omap (λ j, h !! j_a j) l.
Proof.
  induction l as [|j l IH]; intros H; [done|]. csimpl. rewrite (H j) by (by left). rewrite IH; [done|].
  intros j' Hj'. apply H. by right.
Qed.

Lemma oinv_add b l x s ret s' : oinv s → op_heap s !! l = None → addObjJob b l x s = Some (ret, s') → oinv s'.
Proof.
  intros [Hnd Hlive Hdom Hcalls] Hl E. destruct s as [[q ws [?|] ad rn] h cs ac rf]; [done|]. unfold addObjJob in E. simpl in *.
  assert (∀ j, j ∈ pend (Pool q ws None ad rn) → j_a j ≠ l) as Hne.
  { intros j Hj <-. destruct (Hlive j Hj) as [[y Hy] _]. congruence. }
  assert (l ∉ rf) as Hlr. { intros Hin. assert (is_Some (h !! l)) as [y Hy] by (apply Hdom; by right). congruence. }
  assert (omap (λ j, <[l := x]> h !! j_a j) (pend (Pool q ws None ad rn)) = omap (λ j, h !! j_a j) (pend (Pool q ws None ad rn))) as Hom.
  { apply omap_heap. intros j Hj. apply lookup_insert_ne. by apply not_eq_sym, Hne. }
  unfold addJob in E. pose proof (enq_look_spec (Job (Some ()) l) q) as Hspec. destruct (enq_look _ q) as [q'|].
  - injection E as <- <-. destruct Hspec as (Hq & _).
    assert (pend (Pool q' ws None (ad ++ [Job (Some ()) l]) rn) ≡ₚ Job (Some ()) l :: pend (Pool q ws None ad rn)) as Hp.
    { unfold pend. simpl. rewrite Hq. unfold real. rewrite filter_app. simpl. solve_Permutation. }
    constructor; csimpl.
    + rewrite Hp. csimpl. constructor; [|done]. intros (j & El & Hj)%list_elem_of_fmap. by apply (Hne j).
    + intros j. rewrite Hp. intros [->|Hj]%elem_of_cons; simpl; [by rewrite lookup_insert_eq|].
      rewrite lookup_insert_ne by (by apply not_eq_sym, Hne). by apply Hlive.
    + intros l'. rewrite Hp. simpl. rewrite elem_of_cons. destruct (decide (l' = l)) as [->|Hll].
      * rewrite lookup_insert_eq. naive_solver.
      * rewrite lookup_insert_ne by done. rewrite Hdom. naive_solver.
    + rewrite Hp. csimpl. rewrite lookup_insert_eq, Hom, Hcalls. solve_Permutation.
  - destruct b; [done|]. injection E as <- <-. constructor; csimpl.
    + done.
    + intros j Hj. rewrite lookup_insert_ne by (by apply not_eq_sym, Hne). destruct (Hlive j Hj) as [? ?].
      split; [done|]. pose proof (Hne j Hj). set_solver.
    + intros l'. rewrite elem_of_union, elem_of_singleton. destruct (decide (l' = l)) as [->|Hll].
      * rewrite lookup_insert_eq. naive_solver.
      * rewrite lookup_insert_ne by done. rewrite Hdom. naive_solver.
    + by rewrite Hom.
Qed.

Lemma oinv_run t j s s' : oinv s → p_workers (op_pool s) !! t = Some (Running j) → func t j s = Ok s' → oinv s'.
Proof.
  intros [Hnd Hlive Hdom Hcalls] Ht E. destruct s as [[q ws lf ad rn] h cs ac rf]. unfold func in E. simpl in *.
  destruct (h !! j_a j) as [x|] eqn:Hx; [|done]. injection E as <-.
  assert (pend (Pool q ws lf ad rn) ≡ₚ j :: pend (Pool q (<[t := Idle]> ws) lf ad (rn ++ [j]))) as Hp.
  { unfold pend. simpl. pose proof (running_insert _ _ _ Idle Ht) as Hr. simpl in Hr. by rewrite <- Hr. }
  rewrite Hp in Hnd. simpl in Hnd. apply NoDup_cons in Hnd as [Hj Hnd].
  assert (∀ j', j' ∈ pend (Pool q (<[t := Idle]> ws) lf ad (rn ++ [j])) → j_a j ≠ j_a j') as Hne.
  { intros j' Hj' E. apply Hj. rewrite E. by apply list_elem_of_fmap_2. }
  constructor; csimpl.
  - done.
  - intros j' Hj'. rewrite lookup_delete_ne by (by apply Hne). apply Hlive. rewrite Hp. by right.
  - intros l'. destruct (decide (l' = j_a j)) as [->|Hll].
    + rewrite lookup_delete_eq. split; [by intros [? ?]|]. intros [Hin|Hin]; [by destruct Hj|].
      destruct (Hlive j) as [_ Hnr]; [rewrite Hp; by left|done].
    + rewrite lookup_delete_ne by done. rewrite Hdom, Hp. simpl. rewrite elem_of_cons. naive_solver.
  - rewrite Hcalls, Hp. csimpl. rewrite Hx, (omap_heap h (delete (j_a j) h)); [solve_Permutation|].
    intros j' Hj'. apply lookup_delete_ne. by apply Hne.
Qed.

Lemma oinv_step b s s' : oinv s → ostep b s s' → oinv s'.
Proof.
  intros Hs Hst. destruct Hst as [l x s ret s' Hl E|σ' s Hp Ha Hr|t j s s' Ht E].
  - by eapply oinv_add.
  - eapply oinv_perm; try done. by eapply pend_pool.
  - by eapply oinv_run.
Qed.

Lemma oinv_start sz : oinv (new_objpool sz).
Proof.
  assert (pend (op_pool (new_objpool sz)) = []) as Hp.
  { unfold pend. simpl. rewrite app_nil_r. unfold running. by induction sz. }
  constructor; rewrite ?Hp; simpl; [constructor|by intros j ?%elem_of_nil| |done].
  intros l. rewrite lookup_empty, elem_of_nil. split; [by intros [? ?]|]. intros [[]|?]. set_solver.
Qed.

(** The pool of an object pool is a pool. *)
Lemma ostep_pstep b s s' : ostep b s s' → pstep b (op_pool s) (op_pool s').
Proof.
  intros [l x s0 ret s1 Hl E|σ' s0 Hp _ _|t j s0 s1 Ht E]; [| done |].
  - destruct s0 as [[q ws [?|] ad rn] h cs ac rf]; [done|]. unfold addObjJob in E. simpl in E.
    destruct (addJob b () l q) eqn:Ea; [| |done]; injection E as <- <-; simpl; [by apply p_add|by eapply p_refuse].
  - destruct s0 as [[q ws lf ad rn] h cs ac rf]. unfold func in E. simpl in *.
    destruct (h !! j_a j); [|done]. injection E as <-. simpl. by apply p_run.
Qed.
End objjob.
Arguments objfunc_wrapper : clear implicits.
Arguments objpool : clear implicits.

(** ** The property *)

(** C27: Jobs that call a method.  In every interleaving of the threads that add jobs, the
    workers and the destructor, a worker that runs a job finds its wrapper allocated;
    every call made is one that was accepted; once the pool is deleted, every accepted
    call has been made, each once, and the only wrappers left allocated are those of the
    calls that addObjJob refused, which nobody frees. *)
Theorem objjobs_called_once {C M A} sz b (s : objpool C M A) :
  sz ≠ 0 → rtc (ostep b) (new_objpool sz) s →
  (∀ t j, p_workers (op_pool s) !! t = Some (Running j) → ∃ s', func t j s = Ok s') ∧
  (op_called s ⊆+ op_accepted s) ∧
  (deleted (op_pool s) → op_called s ≡ₚ op_accepted s ∧ dom (op_heap s) = op_refused s).
Proof.
  intros Hnz Hr.
  assert (oinv s ∧ rtc (pstep b) (new_pool sz) (op_pool s)) as [[Hnd Hlive Hdom Hcalls] Hrp].
  { assert (∀ s0 s : objpool C M A, rtc (ostep b) s0 s → oinv s0 → oinv s ∧ rtc (pstep b) (op_pool s0) (op_pool s)) as H.
    { clear. induction 1 as [|x y z Hxy Hyz IH]; [done|]. intros Hi. destruct IH as [? ?]; [by eapply oinv_step|].
      split; [done|]. eapply rtc_l; [by eapply ostep_pstep|done]. }
    apply (H (new_objpool sz)); [done|apply oinv_start]. }
  split_and!.
  - intros t j Ht. unfold func. destruct (Hlive j) as [[x ->] _]; [|destruct (op_pool s); by eexists].
    unfold pend. apply elem_of_app. left. unfold running. apply list_elem_of_omap. exists (Running j).
    split; [by eapply list_elem_of_lookup_2|done].
  - rewrite Hcalls. apply submseteq_inserts_r. done.
  - intros Hdel. destruct (pinv_reachable sz b _ Hrp) as (jobs & pills & Hi).
    destruct (deleted_spec _ _ _ _ Hnz Hi Hdel) as [Hq _].
    assert (pend (op_pool s) = []) as Hp.
    { unfold pend. rewrite Hq. destruct Hdel as [_ Hall]. rewrite app_nil_r. unfold running. clear -Hall.
      induction (p_workers (op_pool s)) as [|w ws IH]; [done|]. simpl. rewrite (Hall 0 w eq_refl). apply IH.
      intros t v Hv. by apply (Hall (S t)). }
    rewrite Hp in *. simpl in *. rewrite app_nil_r in Hcalls. split; [done|]. apply set_eq. intros l.
    rewrite elem_of_dom, Hdom, elem_of_nil. naive_solver.
Qed.

(** One worker; a job is added, taken and run, and the pool deleted. *)
Definition ex_wrapper : objfunc_wrapper nat nat nat := Wrapper 1 2 3.
Definition ex_objpool : objpool nat nat nat :=
  ObjPool (Pool (Fifo [] 100) [Exited] (Some 0) [Job (Some ()) 7] [Job (Some ()) 7]) ∅ [ex_wrapper] [ex_wrapper] ∅.

Lemma ex_objpool_runs : rtc (ostep false) (new_objpool 1) ex_objpool.
Proof.
  eapply rtc_l; [by eapply (o_add _ 7 ex_wrapper)|].
  eapply rtc_l; [apply o_pool; [eapply (p_take _ 0); reflexivity|done|done]|].
  eapply rtc_l; [by eapply (o_run _ 0)|].
  eapply rtc_l; [apply o_pool; [apply p_delete|done|done]|].
  eapply rtc_l; [apply o_pool; [by eapply (p_pill _ 0)|done|done]|].
  eapply rtc_l; [apply o_pool; [eapply (p_exit _ 0); reflexivity|done|done]|]. apply rtc_refl.
Qed.

Lemma objjobs_called_once_witness : op_called ex_objpool ≡ₚ op_accepted ex_objpool ∧ dom (op_heap ex_objpool) = ∅.
Proof.
  destruct (objjobs_called_once 1 false ex_objpool (Nat.neq_succ_0 0) ex_objpool_runs) as (_ & _ & H).
  apply H. split; [reflexivity|]. by intros [|t] w [= <-].
Defined.

(** ** The djob_t of got_pdu *)

(** [rpcs::got_pdu] and its djob_t object at [l]: [reach1] and [reach2] are what the two
    tests of [reachable_] read, [succ] the answer of addObjJob.  The objects allocated
    and the jobs queued. *)
Definition got_pdu_job (reach1 reach2 succ : bool) (l : nat) (s : gset nat * list nat) : bool * (gset nat * list nat) :=
  let '(live, queued) := s in
  if negb reach1 then (true, s)
  else
    let live := {[l]} ∪ live in
    let queued := if succ then queued ++ [l] else queued in
    let live := if negb succ || negb reach2 then live ∖ {[l]} else live in
    (succ, (live, queued)).

(** While [reachable_] does not change, every queued job has its object. *)
Lemma got_pdu_job_live reach succ l live queued r s' : l ∉ live → (∀ x, x ∈ queued → x ∈ live) →
  got_pdu_job reach reach succ l (live, queued) = (r, s') → ∀ x, x ∈ s'.2 → x ∈ s'.1.
Proof. intros Hl Hq. unfold got_pdu_job. destruct reach, succ; simpl; intros [= <- <-] x; simpl; set_solver. Qed.

(** When set_reachable(false) comes between the two tests, got_pdu frees the object of
    the job that it has queued, and a worker will dispatch a freed object. *)
Theorem got_pdu_frees_queued_job l live queued : l ∉ live →
  ∃ s', got_pdu_job true false true l (live, queued) = (true, s') ∧ l ∈ s'.2 ∧ l ∉ s'.1.
Proof. intros Hl. eexists. split; [reflexivity|]. simpl. set_solver. Qed.
