(* ===== verification/Marshall.v ===== *)
(** * Marshalling (rpc/marshall.h and the operators of rpc/rpc.cc)

    The write buffer [marshall], the read cursor [unmarshall], the header
    packing, and one [codec] (an [operator<<] with its [operator>>]) per type.
    Uninitialised heap memory is the parameter [junk]: the theorems hold for
    whatever bytes [malloc] and [realloc] hand out.  The class [CodecOK] is what
    the RPC layer relies on: [put] appends an encoding, [get] reads it back. *)

From coqutil Require Import Z.prove_Zeq_bitwise.
From stdpp Require Import base tactics numbers list gmap strings sorting.
From Stdlib Require Import ZArith Lia Ascii.
From S2P Require Import Prelude CxxString.

(** ** Headers *)
Record req_header := ReqHeader {
  rq_xid : Z; rq_proc : Z; rq_clt_nonce : Z; rq_srv_nonce : Z; rq_xid_rep : Z }.

Record reply_header := ReplyHeader { rp_xid : Z; rp_ret : Z }.

(** lang/algorithm.h *)
Definition static_max (a b : Z) : Z := if (a >? b)%Z then a else b.

Definition DEFAULT_RPC_SZ : Z := 1024.
Definition sizeof_rpc_sz : Z := 4.
Definition sizeof_req_header : Z := 20.
Definition sizeof_reply_header : Z := 8.
(** RPC_CHECKSUMMING is not defined in the build. *)
Definition RPC_HEADER_SZ : Z :=
  (static_max sizeof_req_header sizeof_reply_header + sizeof_rpc_sz)%Z.

(** ** The two buffers; a NULL [_buf] is [None]. *)
Record marshall := Marshall { m_buf : option bytes; m_capa : Z; m_ind : Z }.
Record unmarshall := Unmarshall { u_buf : option bytes; u_sz : Z; u_ind : Z; u_ok : bool }.

(** ** Heap blocks *)
Definition fresh_bytes (junk : nat → ascii) (from to : nat) : bytes :=
  junk <$> seq from (to - from).
Definition malloc (junk : nat → ascii) (n : Z) : bytes := fresh_bytes junk 0 (Z.to_nat n).
Definition realloc (junk : nat → ascii) (b : bytes) (n : Z) : bytes :=
  take (Z.to_nat n) b ++ fresh_bytes junk (length b) (Z.to_nat n).

(** Storing the bytes [p] at offset [i] of a block. *)
Definition store (b : bytes) (i : Z) (p : bytes) : outcome bytes :=
  if ((0 <=? i) && (i + size p <=? size b))%Z
  then Ok (take (Z.to_nat i) b ++ p ++ drop (Z.to_nat i + length p) b)
  else Fault OutOfBounds.

(** Loading [n] bytes from offset [i] of a block. *)
Definition load (b : bytes) (i n : Z) : outcome bytes :=
  if ((0 <=? i) && (i + n <=? size b))%Z
  then Ok (take (Z.to_nat n) (drop (Z.to_nat i) b))
  else Fault OutOfBounds.

Definition deref {A} (p : option A) : outcome A :=
  match p with Some a => Ok a | None => Fault NullDeref end.

Section marshalling.
Context (junk : nat → ascii).

(** ** class marshall *)
Definition new_marshall : marshall :=
  Marshall (Some (malloc junk DEFAULT_RPC_SZ)) DEFAULT_RPC_SZ RPC_HEADER_SZ.

(** [marshall::rawbyte] *)
Definition rawbyte (x : ascii) (m : marshall) : outcome marshall :=
  m ← (if (m_ind m >=? m_capa m)%Z then
         capa ← int_result (2 * m_capa m);
         VERIFY (bool_decide (is_Some (m_buf m)));;
         b ← deref (m_buf m);
         Ok (Marshall (Some (realloc junk b capa)) capa (m_ind m))
       else Ok m);
  b ← deref (m_buf m);
  b ← store b (m_ind m) [x];
  ind ← int_result (m_ind m + 1);
  Ok (Marshall (Some b) (m_capa m) ind).

(** [marshall::rawbytes] *)
Definition rawbytes (p : bytes) (n : Z) (m : marshall) : outcome marshall :=
  sum ← int_result (m_ind m + n);
  m ← (if (sum >? m_capa m)%Z then
         capa ← int_result (if (m_capa m >? n)%Z then (2 * m_capa m)%Z else (m_capa m + n)%Z);
         VERIFY (bool_decide (is_Some (m_buf m)));;
         b ← deref (m_buf m);
         Ok (Marshall (Some (realloc junk b capa)) capa (m_ind m))
       else Ok m);
  b ← deref (m_buf m);
  p ← load p 0 n;
  b ← store b (m_ind m) p;
  ind ← int_result (m_ind m + n);
  Ok (Marshall (Some b) (m_capa m) ind).

(** Bits [k, k+8) of an integer, as [(x >> k) & 0xff] passed to [rawbyte]. *)
Definition byte_at (x k : Z) : ascii := byte_of_Z (Z.land (Z.shiftr x k) 255).

(** [marshall::pack] *)
Definition pack (x : Z) (m : marshall) : outcome marshall :=
  m ← rawbyte (byte_at x 24) m;
  m ← rawbyte (byte_at x 16) m;
  m ← rawbyte (byte_at x 8) m;
  rawbyte (byte_at x 0) m.

(** [marshall::pack_req_header] *)
Definition pack_req_header (h : req_header) (m : marshall) : outcome marshall :=
  let saved_sz := m_ind m in
  let m := Marshall (m_buf m) (m_capa m) sizeof_rpc_sz in
  m ← pack (rq_xid h) m;
  m ← pack (rq_proc h) m;
  m ← pack (i32 (rq_clt_nonce h)) m;
  m ← pack (i32 (rq_srv_nonce h)) m;
  m ← pack (rq_xid_rep h) m;
  Ok (Marshall (m_buf m) (m_capa m) saved_sz).

(** [marshall::pack_reply_header] *)
Definition pack_reply_header (h : reply_header) (m : marshall) : outcome marshall :=
  let saved_sz := m_ind m in
  let m := Marshall (m_buf m) (m_capa m) sizeof_rpc_sz in
  m ← pack (rp_xid h) m;
  m ← pack (rp_ret h) m;
  Ok (Marshall (m_buf m) (m_capa m) saved_sz).

(** [marshall::take_buf]: the buffer and its used size; the object is emptied. *)
Definition take_buf (m : marshall) : (option bytes * Z) * marshall :=
  ((m_buf m, m_ind m), Marshall None (m_capa m) 0).

(** [marshall::get_content] *)
Definition get_content (m : marshall) : outcome bytes :=
  b ← deref (m_buf m);
  load b RPC_HEADER_SZ (m_ind m - RPC_HEADER_SZ).

(** ** class unmarshall *)
Definition new_unmarshall : unmarshall := Unmarshall None 0 0 false.
Definition unmarshall_of (b : bytes) (sz : Z) : unmarshall := Unmarshall (Some b) sz 0 true.

(** [unmarshall::take_content] of a fresh object (the constructor from a string) *)
Definition take_content (s : bytes) : unmarshall :=
  let sz := (size s + RPC_HEADER_SZ)%Z in
  Unmarshall (Some (fresh_bytes junk 0 (Z.to_nat RPC_HEADER_SZ) ++ s)) sz RPC_HEADER_SZ true.

(** [unmarshall::rawbyte]: the signed [char] read is widened to [unsigned int]. *)
Definition u_rawbyte (u : unmarshall) : outcome (Z * unmarshall) :=
  if (u_ind u >=? u_sz u)%Z then Ok (0%Z, Unmarshall (u_buf u) (u_sz u) (u_ind u) false)
  else
    b ← deref (u_buf u);
    c ← load b (u_ind u) 1;
    Ok (u32 (i8 (Z_of_byte (default NUL (head c)))),
        Unmarshall (u_buf u) (u_sz u) (u_ind u + 1) (u_ok u)).

(** [unmarshall::rawbytes]: the bound check is made in [unsigned int]. *)
Definition u_rawbytes (ss : bytes) (n : Z) (u : unmarshall) : outcome (bytes * unmarshall) :=
  if (u32 (u_ind u + n) >? u32 (u_sz u))%Z
  then Ok (ss, Unmarshall (u_buf u) (u_sz u) (u_ind u) false)
  else
    b ← deref (u_buf u);
    s ← load b (u_ind u) n;
    VERIFY (size s =? n)%Z;;
    Ok (s, Unmarshall (u_buf u) (u_sz u) (i32 (u_ind u + n)) (u_ok u)).

(** [unmarshall::okdone] *)
Definition okdone (u : unmarshall) : bool := u_ok u && (u_ind u =? u_sz u)%Z.

(** [(rawbyte() & 0xff) << k] *)
Definition shifted_byte (k : Z) (u : unmarshall) : outcome (Z * unmarshall) :=
  '(c, u) ← u_rawbyte u;
  Ok (u32 (Z.shiftl (Z.land c 255) k), u).

(** [unmarshall::unpack] *)
Definition unpack (u : unmarshall) : outcome (Z * unmarshall) :=
  '(b, u) ← shifted_byte 24 u;
  let x := i32 b in
  '(b, u) ← shifted_byte 16 u;
  let x := i32 (Z.lor (u32 x) b) in
  '(b, u) ← shifted_byte 8 u;
  let x := i32 (Z.lor (u32 x) b) in
  '(b, u) ← shifted_byte 0 u;
  Ok (i32 (Z.lor (u32 x) b), u).

Definition set_ind (u : unmarshall) (i : Z) : unmarshall :=
  Unmarshall (u_buf u) (u_sz u) i (u_ok u).

(** [unmarshall::unpack_req_header]; the nonces are [unsigned int] fields. *)
Definition unpack_req_header (u : unmarshall) : outcome (req_header * unmarshall) :=
  let u := set_ind u sizeof_rpc_sz in
  '(xid, u) ← unpack u;
  '(proc, u) ← unpack u;
  '(clt, u) ← unpack u;
  '(srv, u) ← unpack u;
  '(rep, u) ← unpack u;
  Ok (ReqHeader xid proc (u32 clt) (u32 srv) rep, set_ind u RPC_HEADER_SZ).

(** [unmarshall::unpack_reply_header] *)
Definition unpack_reply_header (u : unmarshall) : outcome (reply_header * unmarshall) :=
  let u := set_ind u sizeof_rpc_sz in
  '(xid, u) ← unpack u;
  '(ret, u) ← unpack u;
  Ok (ReplyHeader xid ret, set_ind u RPC_HEADER_SZ).

(** [unmarshall::take_in]: takes over the buffer of [another]. *)
Definition take_in (another : unmarshall) : unmarshall :=
  Unmarshall (u_buf another) (u_sz another) RPC_HEADER_SZ
    (if (u_sz another >=? RPC_HEADER_SZ)%Z then true else false).

(** ** Codecs: [operator<<] and [operator>>]; [get] is given the old value of
    its reference argument, which some paths leave in place. *)
Record codec (A : Type) := Codec {
  put : A → marshall → outcome marshall;
  get : A → unmarshall → outcome (A * unmarshall);
  dflt : A }.

Definition put_uint (x : Z) (m : marshall) : outcome marshall :=
  m ← rawbyte (byte_at x 24) m;
  m ← rawbyte (byte_at x 16) m;
  m ← rawbyte (byte_at x 8) m;
  rawbyte (byte_at x 0) m.

Definition get_uint (_ : Z) (u : unmarshall) : outcome (Z * unmarshall) :=
  '(x, u) ← shifted_byte 24 u;
  '(b, u) ← shifted_byte 16 u;
  let x := Z.lor x b in
  '(b, u) ← shifted_byte 8 u;
  let x := Z.lor x b in
  '(b, u) ← shifted_byte 0 u;
  Ok (Z.lor x b, u).

Definition uint_codec : codec Z := Codec Z put_uint get_uint 0%Z.

Definition put_int (x : Z) (m : marshall) : outcome marshall := put_uint (u32 x) m.
Definition get_int (_ : Z) (u : unmarshall) : outcome (Z * unmarshall) :=
  '(b, u) ← shifted_byte 24 u;
  let x := i32 b in
  '(b, u) ← shifted_byte 16 u;
  let x := i32 (Z.lor (u32 x) b) in
  '(b, u) ← shifted_byte 8 u;
  let x := i32 (Z.lor (u32 x) b) in
  '(b, u) ← shifted_byte 0 u;
  Ok (i32 (Z.lor (u32 x) b), u).
Definition int_codec : codec Z := Codec Z put_int get_int 0%Z.

Definition put_bool (x : bool) (m : marshall) : outcome marshall :=
  rawbyte (byte_of_Z (if x then 1 else 0)) m.
Definition get_bool (_ : bool) (u : unmarshall) : outcome (bool * unmarshall) :=
  '(c, u) ← u_rawbyte u; Ok (negb (c =? 0)%Z, u).
Definition bool_codec : codec bool := Codec bool put_bool get_bool false.

(** [char] and [unsigned char] share their byte. *)
Definition put_char (x : ascii) (m : marshall) : outcome marshall := rawbyte x m.
Definition get_char (_ : ascii) (u : unmarshall) : outcome (ascii * unmarshall) :=
  '(c, u) ← u_rawbyte u; Ok (byte_of_Z c, u).
Definition char_codec : codec ascii := Codec ascii put_char get_char NUL.

Definition put_ushort (x : Z) (m : marshall) : outcome marshall :=
  m ← rawbyte (byte_at x 8) m;
  rawbyte (byte_at x 0) m.
Definition get_ushort (_ : Z) (u : unmarshall) : outcome (Z * unmarshall) :=
  '(b, u) ← shifted_byte 8 u;
  let x := u16 b in
  '(b, u) ← shifted_byte 0 u;
  Ok (u16 (Z.lor x b), u).
Definition ushort_codec : codec Z := Codec Z put_ushort get_ushort 0%Z.

Definition put_short (x : Z) (m : marshall) : outcome marshall := put_ushort (u16 x) m.
Definition get_short (_ : Z) (u : unmarshall) : outcome (Z * unmarshall) :=
  '(b, u) ← shifted_byte 8 u;
  let x := i16 b in
  '(b, u) ← shifted_byte 0 u;
  Ok (i16 (Z.lor (u32 x) b), u).
Definition short_codec : codec Z := Codec Z put_short get_short 0%Z.

Definition put_ull (x : Z) (m : marshall) : outcome marshall :=
  m ← put_uint (u32 (Z.shiftr x 32)) m;
  put_uint (u32 x) m.
Definition get_ull (_ : Z) (u : unmarshall) : outcome (Z * unmarshall) :=
  '(h, u) ← get_uint 0 u;
  '(l, u) ← get_uint 0 u;
  Ok (Z.lor l (u64 (Z.shiftl h 32)), u).
Definition ull_codec : codec Z := Codec Z put_ull get_ull 0%Z.

Definition put_string (s : bytes) (m : marshall) : outcome marshall :=
  m ← put_uint (u32 (size s)) m;
  rawbytes s (i32 (size s)) m.
Definition get_string (s : bytes) (u : unmarshall) : outcome (bytes * unmarshall) :=
  '(sz, u) ← get_uint 0 u;
  if u_ok u then u_rawbytes s sz u else Ok (s, u).
Definition string_codec : codec bytes := Codec bytes put_string get_string [].

(** [std::vector<C>] *)
Fixpoint put_all {C} (c : codec C) (v : list C) (m : marshall) : outcome marshall :=
  match v with
  | [] => Ok m
  | x :: v => m ← put C c x m; put_all c v m
  end.
Fixpoint get_n {C} (c : codec C) (n : nat) (v : list C) (u : unmarshall) :
    outcome (list C * unmarshall) :=
  match n with
  | O => Ok (v, u)
  | S n => '(z, u) ← get C c (dflt C c) u; get_n c n (v ++ [z]) u
  end.
Definition put_vector {C} (c : codec C) (v : list C) (m : marshall) : outcome marshall :=
  m ← put_uint (u32 (Z.of_nat (length v))) m;
  put_all c v m.
Definition get_vector {C} (c : codec C) (v : list C) (u : unmarshall) :
    outcome (list C * unmarshall) :=
  '(n, u) ← get_uint 0 u;
  get_n c (Z.to_nat n) v u.
Definition vector_codec {C} (c : codec C) : codec (list C) :=
  Codec (list C) (put_vector c) (get_vector c) [].

(** [std::map<A,B>] for an integer key type: pairs in key order. *)
Fixpoint put_entries {B} (ca : codec Z) (cb : codec B) (l : list (Z * B)) (m : marshall) :
    outcome marshall :=
  match l with
  | [] => Ok m
  | (a, b) :: l => m ← put Z ca a m; m ← put B cb b m; put_entries ca cb l m
  end.
Fixpoint get_entries {B} (ca : codec Z) (cb : codec B) (n : nat) (d : gmap Z B)
    (u : unmarshall) : outcome (gmap Z B * unmarshall) :=
  match n with
  | O => Ok (d, u)
  | S n =>
      '(a, u) ← get Z ca (dflt Z ca) u;
      '(b, u) ← get B cb (dflt B cb) u;
      get_entries ca cb n (<[a := b]> d) u
  end.
Definition entries_in_order {B} (d : gmap Z B) : list (Z * B) :=
  omap (λ k, pair k <$> d !! k) (keys_in_order d).
Definition put_map {B} (ca : codec Z) (cb : codec B) (d : gmap Z B) (m : marshall) :
    outcome marshall :=
  m ← put_uint (u32 (Z.of_nat (base.size d))) m;
  put_entries ca cb (entries_in_order d) m.
Definition get_map {B} (ca : codec Z) (cb : codec B) (_ : gmap Z B) (u : unmarshall) :
    outcome (gmap Z B * unmarshall) :=
  '(n, u) ← get_uint 0 u;
  get_entries ca cb (Z.to_nat n) ∅ u.
Definition map_codec {B} (ca : codec Z) (cb : codec B) : codec (gmap Z B) :=
  Codec (gmap Z B) (put_map ca cb) (get_map ca cb) ∅.

(** The argument lists of [rpcc::call] and of the handler templates: no
    argument, or one more argument after the first. *)
Definition unit_codec : codec () := Codec () (λ _ m, Ok m) (λ _ u, Ok ((), u)) ().
Definition pair_codec {A B} (ca : codec A) (cb : codec B) : codec (A * B) :=
  Codec (A * B)
    (λ '(a, b) m, m ← put A ca a m; put B cb b m)
    (λ '(a, b) u, '(a, u) ← get A ca a u; '(b, u) ← get B cb b u; Ok ((a, b), u))
    (dflt A ca, dflt B cb).

End marshalling.

Arguments put {A} c _ _ : rename.
Arguments get {A} c _ _ : rename.
Arguments dflt {A} c : rename.

(** ** What a buffer holds

    [holds m w]: the object owns a block of [m_capa m] bytes whose first
    [m_ind m] bytes are [w], and the block is at most twice what it holds (or
    the initial one).  [reads u pre post]: [u] is at the end of [pre], with
    [post] still to read inside its packet. *)
Definition holds (m : marshall) (w : bytes) : Prop :=
  ∃ rest, m_buf m = Some (w ++ rest) ∧ m_ind m = size w ∧
    m_capa m = (size w + size rest)%Z ∧ (0 < m_capa m)%Z ∧
    (m_capa m <= Z.max DEFAULT_RPC_SZ (2 * size w))%Z.

Definition reads (u : unmarshall) (pre post : bytes) : Prop :=
  ∃ extra, u_buf u = Some (pre ++ post ++ extra) ∧ u_ind u = size pre ∧
    u_sz u = (size pre + size post)%Z ∧ (u_sz u < 2 ^ 31)%Z ∧ u_ok u = true.

(** The size of the largest packet that a connection takes in ([MAX_PDU] of
    connection.cc); below it the buffer's [int] capacity does not overflow. *)
Definition max_packet : Z := 10485760.

Class CodecOK {A} (c : codec A) (valid : A → Prop) (enc : A → bytes) : Prop := {
  codec_put x m w :
    valid x → holds m w → (size w + size (enc x) < max_packet)%Z →
    ∃ m', put c x m = Ok m' ∧ holds m' (w ++ enc x);
  codec_get x u pre post :
    valid x → reads u pre (enc x ++ post) →
    ∃ u', get c (dflt c) u = Ok (x, u') ∧ reads u' (pre ++ enc x) post }.

(** The encodings. *)
Definition enc_uint (x : Z) : bytes := [byte_at x 24; byte_at x 16; byte_at x 8; byte_at x 0].
Arguments enc_uint _ : simpl never.
Definition enc_int (x : Z) : bytes := enc_uint (u32 x).
Definition enc_bool (x : bool) : bytes := [byte_of_Z (if x then 1 else 0)].
Definition enc_char (x : ascii) : bytes := [x].
Definition enc_ushort (x : Z) : bytes := [byte_at x 8; byte_at x 0].
Definition enc_short (x : Z) : bytes := enc_ushort (u16 x).
Definition enc_ull (x : Z) : bytes := enc_uint (u32 (Z.shiftr x 32)) ++ enc_uint (u32 x).
Definition enc_string (s : bytes) : bytes := enc_uint (u32 (size s)) ++ s.
Definition enc_vector {C} (enc : C → bytes) (v : list C) : bytes :=
  enc_uint (u32 (Z.of_nat (length v))) ++ (v ≫= enc).
Definition enc_entry {B} (ea : Z → bytes) (eb : B → bytes) (p : Z * B) : bytes :=
  ea p.1 ++ eb p.2.
Definition enc_map {B} (ea : Z → bytes) (eb : B → bytes) (d : gmap Z B) : bytes :=
  enc_uint (u32 (Z.of_nat (base.size d))) ++ (entries_in_order d ≫= enc_entry ea eb).
Definition enc_pair {A B} (ea : A → bytes) (eb : B → bytes) (p : A * B) : bytes :=
  ea p.1 ++ eb p.2.

Lemma size_enc_uint x : size (enc_uint x) = 4%Z.
Proof. done. Qed.

(** ** Blocks *)
Lemma store_Ok w q rest p i :
  i = size w → length q = length p → store (w ++ q ++ rest) i p = Ok (w ++ p ++ rest).
Proof.
  intros -> Hq. unfold store.
  rewrite (proj2 (andb_true_iff _ _)); [|].
  - f_equal. unfold size. rewrite Nat2Z.id, take_app_length. f_equal. f_equal.
    rewrite app_assoc, drop_app_length'; [done|]. rewrite length_app. lia.
  - unfold size. rewrite !length_app. split; [apply Z.leb_le|apply Z.leb_le]; lia.
Qed.

Lemma store_size b i p b' : store b i p = Ok b' → size b' = size b.
Proof.
  unfold store. destruct (0 <=? i)%Z eqn:E1; [|done].
  destruct (i + size p <=? size b)%Z eqn:E2; [|done]. intros [= <-]. zbool.
  unfold size in *. rewrite !length_app, length_take, length_drop. lia.
Qed.

Lemma load_Ok w p rest i n :
  i = size w → n = size p → load (w ++ p ++ rest) i n = Ok p.
Proof.
  intros -> ->. unfold load.
  rewrite (proj2 (andb_true_iff _ _)); [|].
  - f_equal. unfold size. by rewrite !Nat2Z.id, drop_app_length, take_app_length.
  - unfold size. rewrite !length_app. split; apply Z.leb_le; lia.
Qed.

Lemma load_all (bs : bytes) : load bs 0 (size bs) = Ok bs.
Proof. rewrite <- (app_nil_r bs) at 1. by apply (load_Ok [] bs []). Qed.

Lemma length_fresh_bytes junk i j : length (fresh_bytes junk i j) = j - i.
Proof. unfold fresh_bytes. by rewrite length_fmap, length_seq. Qed.

Lemma realloc_grow junk b n :
  (size b <= n)%Z →
  ∃ rest, realloc junk b n = b ++ rest ∧ size rest = (n - size b)%Z.
Proof.
  intros Hn. unfold realloc, size in *. rewrite take_ge by lia. eexists. split; [done|].
  rewrite length_fresh_bytes. lia.
Qed.

(** Appending [p] when the block already has room for it. *)
Lemma holds_room m w p :
  holds m w → (m_ind m + size p <= m_capa m)%Z →
  ∃ b, store (default [] (m_buf m)) (m_ind m) p = Ok b ∧
    m_buf m = Some (default [] (m_buf m)) ∧
    ∀ ind, ind = (m_ind m + size p)%Z →
      holds (Marshall (Some b) (m_capa m) ind) (w ++ p).
Proof.
  intros (rest & Hb & Hi & Hc & Hpos & Hg) Hroom. rewrite Hb. simpl.
  exists (w ++ p ++ drop (length p) rest).
  assert (length p ≤ length rest) as Hlen by (unfold size in *; lia).
  split_and!; [|done|].
  - rewrite <- (take_drop (length p) rest) at 1. apply store_Ok; [done|].
    rewrite length_take. lia.
  - intros ind ->. exists (drop (length p) rest). simpl. rewrite <- app_assoc.
    rewrite size_app. unfold size in *. rewrite length_drop. split_and!; try done; lia.
Qed.

Lemma rawbyte_holds junk m w x :
  holds m w → (size w + 1 < max_packet)%Z →
  ∃ m', rawbyte junk x m = Ok m' ∧ holds m' (w ++ [x]).
Proof.
  intros Hm Hsz. pose proof Hm as (rest & Hb & Hi & Hc & Hpos & Hg).
  unfold rawbyte, max_packet, DEFAULT_RPC_SZ in *. pose proof (size_nonneg w).
  destruct (Z.geb_spec (m_ind m) (m_capa m)) as [Hge|Hlt].
  - assert (rest = []) as ->.
    { apply nil_length_inv. unfold size in *. lia. }
    rewrite app_nil_r in Hb. change (size []) with 0%Z in Hc. rewrite Z.add_0_r in Hc.
    rewrite int_result_Ok by lia. simpl. rewrite bool_decide_true by (rewrite Hb; eauto).
    simpl. rewrite Hb. simpl.
    destruct (realloc_grow junk w (2 * m_capa m)) as (fresh & -> & Hf); [lia|].
    edestruct (holds_room (Marshall (Some (w ++ fresh)) (2 * m_capa m) (m_ind m)) w [x])
      as (b & Hst & _ & Hh).
    { exists fresh. unfold DEFAULT_RPC_SZ in *. simpl. split_and!; try done; lia. }
    { simpl. change (size [x]) with 1%Z. lia. }
    simpl in *. rewrite Hst. simpl. rewrite int_result_Ok by lia. eexists. split; [done|].
    by apply Hh.
  - edestruct (holds_room m w [x] Hm) as (b & Hst & Hsome & Hh).
    { change (size [x]) with 1%Z. lia. }
    simpl. rewrite Hsome. simpl. rewrite Hst. simpl. rewrite int_result_Ok by lia.
    eexists. split; [done|]. by apply Hh.
Qed.

Lemma rawbytes_holds junk m w p n :
  holds m w → n = size p → (size w + size p < max_packet)%Z →
  ∃ m', rawbytes junk p n m = Ok m' ∧ holds m' (w ++ p).
Proof.
  intros Hm -> Hsz. pose proof Hm as (rest & Hb & Hi & Hc & Hpos & Hg).
  unfold rawbytes, max_packet, DEFAULT_RPC_SZ in *.
  pose proof (size_nonneg w). pose proof (size_nonneg p). pose proof (size_nonneg rest).
  rewrite (int_result_Ok (m_ind m + size p)) by lia. simpl.
  assert (load p 0 (size p) = Ok p) as Hload.
  { rewrite <- (app_nil_r p) at 1. rewrite <- (app_nil_l (p ++ [])). by apply load_Ok. }
  destruct (Z.gtb_spec (m_ind m + size p) (m_capa m)) as [Hgt|Hle].
  - set (capa := if (m_capa m >? size p)%Z then (2 * m_capa m)%Z else (m_capa m + size p)%Z).
    assert (m_ind m + size p <= capa ∧ capa <= 2 * (size w + size p) ∧ size w + size rest <= capa)%Z
      as (Hc1 & Hc2 & Hc3).
    { unfold capa. destruct (Z.gtb_spec (m_capa m) (size p)); lia. }
    rewrite int_result_Ok by lia. simpl. rewrite bool_decide_true by (rewrite Hb; eauto).
    simpl. rewrite Hb. simpl.
    destruct (realloc_grow junk (w ++ rest) capa) as (fresh & -> & Hf);
      [rewrite size_app; lia|].
    rewrite size_app in Hf. rewrite Hload. simpl.
    assert (∃ b, store ((w ++ rest) ++ fresh) (m_ind m) p = Ok b ∧
              holds (Marshall (Some b) capa (m_ind m + size p)) (w ++ p)) as (b & -> & Hh).
    { exists (w ++ p ++ drop (length p) (rest ++ fresh)). split.
      - rewrite <- app_assoc, <- (take_drop (length p) (rest ++ fresh)) at 1.
        apply store_Ok; [done|]. rewrite length_take, length_app. unfold size in *. lia.
      - exists (drop (length p) (rest ++ fresh)). simpl. rewrite <- app_assoc, size_app.
        unfold size, DEFAULT_RPC_SZ in *. rewrite length_drop, length_app.
        split_and!; try done; lia. }
    simpl. rewrite int_result_Ok by lia. simpl. eauto.
  - edestruct (holds_room m w p Hm) as (b & Hst & Hsome & Hh); [lia|].
    simpl. rewrite Hsome, Hload. simpl. rewrite Hst. simpl.
    rewrite int_result_Ok by lia. eauto.
Qed.

(** ** Reading *)
Lemma low_byte_of_char c : Z.land (u32 (i8 (Z_of_byte c))) 255 = Z_of_byte c.
Proof.
  pose proof (Z_of_byte_range c). change 255%Z with (Z.ones 8).
  rewrite Z.land_ones by lia. unfold u32, i8.
  rewrite Z.mod_mod_divide by (by exists (2 ^ 24)%Z).
  rewrite Zminus_mod_idemp_l. rewrite Z.add_simpl_r. apply Z.mod_small. lia.
Qed.

Lemma reads_bound u pre post : reads u pre post → (size pre + size post < 2 ^ 31)%Z.
Proof. intros (? & ? & ? & ? & ? & ?). lia. Qed.

Lemma u_rawbyte_reads u pre c post :
  reads u pre (c :: post) →
  ∃ u', u_rawbyte u = Ok (u32 (i8 (Z_of_byte c)), u') ∧ reads u' (pre ++ [c]) post.
Proof.
  intros (extra & Hb & Hi & Hs & Hlt & Hok). unfold u_rawbyte.
  assert (size (c :: post) = 1 + size post)%Z as Hc by (unfold size; simpl; lia).
  pose proof (size_nonneg pre). pose proof (size_nonneg post).
  destruct (Z.geb_spec (u_ind u) (u_sz u)); [lia|].
  rewrite Hb. simpl. rewrite (load_Ok pre [c] (post ++ extra)) by done. simpl.
  eexists. split; [done|]. exists extra. simpl.
  rewrite <- app_assoc, size_app. change (size [c]) with 1%Z.
  split_and!; try done; lia.
Qed.

Lemma shifted_byte_reads k u pre c post :
  reads u pre (c :: post) →
  ∃ u', shifted_byte k u = Ok (u32 (Z.shiftl (Z_of_byte c) k), u') ∧ reads u' (pre ++ [c]) post.
Proof.
  intros Hu. destruct (u_rawbyte_reads _ _ _ _ Hu) as (u' & E & Hu').
  unfold shifted_byte. rewrite E. simpl. rewrite low_byte_of_char. eauto.
Qed.

(** Running off the end of the packet clears [_ok] and keeps the cursor. *)
Lemma u_rawbyte_end u :
  (u_sz u <= u_ind u)%Z → u_rawbyte u = Ok (0%Z, Unmarshall (u_buf u) (u_sz u) (u_ind u) false).
Proof. intros. unfold u_rawbyte. destruct (Z.geb_spec (u_ind u) (u_sz u)); [done|lia]. Qed.

Lemma Z_of_byte_at x k : Z_of_byte (byte_at x k) = Z.land (Z.shiftr x k) 255.
Proof.
  unfold byte_at. rewrite Z_of_byte_of_Z. apply u8_small.
  change 255%Z with (Z.ones 8). rewrite Z.land_ones by lia. apply Z.mod_pos_bound. lia.
Qed.

(** ** Reassembling an integer from its bytes *)
Definition be32 (x : Z) : Z :=
  Z.lor (Z.lor (Z.lor (Z.shiftl (Z.land (Z.shiftr x 24) 255) 24)
                      (Z.shiftl (Z.land (Z.shiftr x 16) 255) 16))
               (Z.shiftl (Z.land (Z.shiftr x 8) 255) 8))
        (Z.shiftl (Z.land (Z.shiftr x 0) 255) 0).

Lemma be32_u32 x : be32 x = u32 x.
Proof.
  unfold be32, u32. change 255%Z with (Z.ones 8).
  rewrite <- (Z.land_ones x 32) by lia. prove_Zeq_bitwise.
Qed.

Lemma u32_shifted_byte x k j :
  (0 <= k <= 24)%Z → u32 (Z.shiftl (Z.land (Z.shiftr x j) 255) k)
                     = Z.shiftl (Z.land (Z.shiftr x j) 255) k.
Proof.
  intros. apply u32_small. change 255%Z with (Z.ones 8). rewrite Z.land_ones by lia.
  pose proof (Z.mod_pos_bound (Z.shiftr x j) (2 ^ 8) ltac:(lia)).
  rewrite Z.shiftl_mul_pow2 by lia.
  assert (2 ^ k <= 2 ^ 24)%Z by (apply Z.pow_le_mono_r; lia).
  assert (0 < 2 ^ k)%Z by (apply Z.pow_pos_nonneg; lia). nia.
Qed.

Lemma i32_lor_u32 a b : i32 (Z.lor (u32 (i32 a)) b) = i32 (Z.lor (u32 a) b).
Proof. by rewrite u32_i32. Qed.

Lemma u32_lor a b : u32 (Z.lor a b) = Z.lor (u32 a) (u32 b).
Proof. unfold u32. rewrite <- !Z.land_ones by lia. by rewrite Z.land_lor_distr_l. Qed.

(** The chain of four [shifted_byte] reads shared by [unpack] and the integer
    operators. *)
Lemma four_bytes_reads u pre post x :
  reads u pre (enc_uint x ++ post) →
  ∃ u1 u2 u3 u4,
    shifted_byte 24 u = Ok (Z.shiftl (Z.land (Z.shiftr x 24) 255) 24, u1) ∧
    shifted_byte 16 u1 = Ok (Z.shiftl (Z.land (Z.shiftr x 16) 255) 16, u2) ∧
    shifted_byte 8 u2 = Ok (Z.shiftl (Z.land (Z.shiftr x 8) 255) 8, u3) ∧
    shifted_byte 0 u3 = Ok (Z.shiftl (Z.land (Z.shiftr x 0) 255) 0, u4) ∧
    reads u4 (pre ++ enc_uint x) post.
Proof.
  intros Hu. unfold enc_uint in *. simpl in Hu.
  apply (shifted_byte_reads 24) in Hu as (u1 & E1 & Hu).
  apply (shifted_byte_reads 16) in Hu as (u2 & E2 & Hu).
  apply (shifted_byte_reads 8) in Hu as (u3 & E3 & Hu).
  apply (shifted_byte_reads 0) in Hu as (u4 & E4 & Hu).
  exists u1, u2, u3, u4. rewrite !Z_of_byte_at, u32_shifted_byte in * by lia.
  rewrite <- !app_assoc in Hu. done.
Qed.

Lemma get_uint_reads u pre post x old :
  is_u32 x → reads u pre (enc_uint x ++ post) →
  ∃ u', get_uint old u = Ok (x, u') ∧ reads u' (pre ++ enc_uint x) post.
Proof.
  intros Hx Hu. destruct (four_bytes_reads _ _ _ _ Hu) as (u1&u2&u3&u4&E1&E2&E3&E4&Hu').
  unfold get_uint. rewrite E1; simpl; rewrite E2; simpl; rewrite E3; simpl; rewrite E4; simpl.
  exists u4. split; [|done]. f_equal. f_equal. fold (be32 x). by rewrite be32_u32, u32_small.
Qed.

Lemma signed_chain x :
  i32 (Z.lor (u32 (i32 (Z.lor (u32 (i32 (Z.lor (u32 (i32
    (Z.shiftl (Z.land (Z.shiftr x 24) 255) 24)))
    (Z.shiftl (Z.land (Z.shiftr x 16) 255) 16))))
    (Z.shiftl (Z.land (Z.shiftr x 8) 255) 8))))
    (Z.shiftl (Z.land (Z.shiftr x 0) 255) 0)) = i32 x.
Proof.
  rewrite !u32_i32, !u32_lor, !u32_shifted_byte by lia.
  fold (be32 x). rewrite be32_u32. apply i32_u32.
Qed.

Lemma unpack_reads u pre post x :
  reads u pre (enc_uint x ++ post) →
  ∃ u', unpack u = Ok (i32 x, u') ∧ reads u' (pre ++ enc_uint x) post.
Proof.
  intros Hu. destruct (four_bytes_reads _ _ _ _ Hu) as (u1&u2&u3&u4&E1&E2&E3&E4&Hu').
  unfold unpack. rewrite E1; simpl; rewrite E2; simpl; rewrite E3; simpl; rewrite E4; simpl.
  rewrite signed_chain. eauto.
Qed.

Lemma get_int_unpack old u : get_int old u = unpack u.
Proof. done. Qed.

Lemma put_uint_holds junk m w x :
  holds m w → (size w + 4 < max_packet)%Z →
  ∃ m', put_uint junk x m = Ok m' ∧ holds m' (w ++ enc_uint x).
Proof.
  intros Hm Hsz. unfold put_uint, enc_uint.
  destruct (rawbyte_holds junk m w (byte_at x 24) Hm) as (m1 & -> & H1); [lia|]. simpl.
  destruct (rawbyte_holds junk m1 _ (byte_at x 16) H1) as (m2 & -> & H2);
    [rewrite size_app; unfold size in *; simpl; lia|]. simpl.
  destruct (rawbyte_holds junk m2 _ (byte_at x 8) H2) as (m3 & -> & H3);
    [rewrite !size_app; unfold size in *; simpl; lia|]. simpl.
  destruct (rawbyte_holds junk m3 _ (byte_at x 0) H3) as (m4 & -> & H4);
    [rewrite !size_app; unfold size in *; simpl; lia|].
  rewrite <- !app_assoc in H4. eauto.
Qed.

(** ** The codecs keep their promise *)
#[global] Instance uint_codec_ok junk : CodecOK (uint_codec junk) (λ x, is_u32 x) enc_uint.
Proof.
  split.
  - intros x m w Hx Hm Hsz. apply put_uint_holds; [done|]. by rewrite <- (size_enc_uint x).
  - intros x u pre post Hx Hu. by apply get_uint_reads.
Qed.

#[global] Instance int_codec_ok junk : CodecOK (int_codec junk) (λ x, is_i32 x) enc_int.
Proof.
  split.
  - intros x m w Hx Hm Hsz. apply put_uint_holds; [done|]. by rewrite <- (size_enc_uint (u32 x)).
  - intros x u pre post Hx Hu. destruct (unpack_reads _ _ _ _ Hu) as (u' & E & Hu').
    simpl. rewrite get_int_unpack, E, i32_u32, i32_small by done. eauto.
Qed.

#[global] Instance bool_codec_ok junk : CodecOK (bool_codec junk) (λ _, True) enc_bool.
Proof.
  split.
  - intros x m w _ Hm Hsz. by apply rawbyte_holds.
  - intros x u pre post _ Hu. destruct (u_rawbyte_reads _ _ _ _ Hu) as (u' & E & Hu').
    simpl. unfold get_bool. rewrite E. simpl. exists u'. split; [|done].
    f_equal. f_equal. by destruct x.
Qed.

#[global] Instance char_codec_ok junk : CodecOK (char_codec junk) (λ _, True) enc_char.
Proof.
  split.
  - intros x m w _ Hm Hsz. by apply rawbyte_holds.
  - intros x u pre post _ Hu. destruct (u_rawbyte_reads _ _ _ _ Hu) as (u' & E & Hu').
    simpl. unfold get_char. rewrite E. simpl. exists u'. split; [|done].
    f_equal. f_equal. apply (inj Z_of_byte). rewrite Z_of_byte_of_Z.
    rewrite <- (low_byte_of_char x) at 2. change 255%Z with (Z.ones 8).
    by rewrite Z.land_ones.
Qed.

Lemma two_bytes_reads u pre post x :
  reads u pre (enc_ushort x ++ post) →
  ∃ u1 u2,
    shifted_byte 8 u = Ok (Z.shiftl (Z.land (Z.shiftr x 8) 255) 8, u1) ∧
    shifted_byte 0 u1 = Ok (Z.shiftl (Z.land (Z.shiftr x 0) 255) 0, u2) ∧
    reads u2 (pre ++ enc_ushort x) post.
Proof.
  intros Hu. unfold enc_ushort in *. simpl in Hu.
  apply (shifted_byte_reads 8) in Hu as (u1 & E1 & Hu).
  apply (shifted_byte_reads 0) in Hu as (u2 & E2 & Hu).
  exists u1, u2. rewrite !Z_of_byte_at, u32_shifted_byte in * by lia.
  rewrite <- !app_assoc in Hu. done.
Qed.

Lemma put_ushort_holds junk m w x :
  holds m w → (size w + 2 < max_packet)%Z →
  ∃ m', put_ushort junk x m = Ok m' ∧ holds m' (w ++ enc_ushort x).
Proof.
  intros Hm Hsz. unfold put_ushort, enc_ushort.
  destruct (rawbyte_holds junk m w (byte_at x 8) Hm) as (m1 & -> & H1); [lia|]. simpl.
  destruct (rawbyte_holds junk m1 _ (byte_at x 0) H1) as (m2 & -> & H2);
    [rewrite size_app; unfold size in *; simpl; lia|].
  rewrite <- !app_assoc in H2. eauto.
Qed.

Lemma be16_u16 x :
  Z.lor (Z.shiftl (Z.land (Z.shiftr x 8) 255) 8) (Z.shiftl (Z.land (Z.shiftr x 0) 255) 0) = u16 x.
Proof.
  unfold u16. change 255%Z with (Z.ones 8). rewrite <- (Z.land_ones x 16) by lia.
  prove_Zeq_bitwise.
Qed.

Lemma u16_lor a b : u16 (Z.lor a b) = Z.lor (u16 a) (u16 b).
Proof. unfold u16. rewrite <- !Z.land_ones by lia. by rewrite Z.land_lor_distr_l. Qed.

#[global] Instance ushort_codec_ok junk : CodecOK (ushort_codec junk) (λ x, is_u16 x) enc_ushort.
Proof.
  split.
  - intros x m w Hx Hm Hsz. apply put_ushort_holds; [done|]. unfold size in *. simpl in *. lia.
  - intros x u pre post Hx Hu. destruct (two_bytes_reads _ _ _ _ Hu) as (u1&u2&E1&E2&Hu').
    simpl. unfold get_ushort. rewrite E1; simpl; rewrite E2; simpl. exists u2. split; [|done].
    f_equal. f_equal. rewrite u16_lor, (u16_small (u16 _)) by apply u16_range.
    rewrite <- u16_lor, be16_u16, !u16_small; [done|done|by rewrite u16_small].
Qed.

#[global] Instance short_codec_ok junk : CodecOK (short_codec junk) (λ x, is_i16 x) enc_short.
Proof.
  split.
  - intros x m w Hx Hm Hsz. apply put_ushort_holds; [done|]. unfold size in *. simpl in *. lia.
  - intros x u pre post Hx Hu. destruct (two_bytes_reads _ _ _ _ Hu) as (u1&u2&E1&E2&Hu').
    simpl. unfold get_short. rewrite E1; simpl; rewrite E2; simpl. exists u2. split; [|done].
    f_equal. f_equal. rewrite <- i16_u16, u16_lor.
    assert (∀ z, u16 (u32 (i16 z)) = u16 z) as ->.
    { intros z. unfold u16, u32, i16. rewrite Z.mod_mod_divide by (by exists (2 ^ 16)%Z).
      rewrite Zminus_mod_idemp_l. f_equal. lia. }
    by rewrite <- u16_lor, be16_u16, !i16_u16, i16_small.
Qed.

Lemma ull_halves x : is_u64 x → Z.lor (u32 x) (u64 (Z.shiftl (u32 (Z.shiftr x 32)) 32)) = x.
Proof.
  intros Hx. rewrite <- (u64_small x Hx) at 3. unfold u32, u64.
  rewrite <- !Z.land_ones by lia. prove_Zeq_bitwise.
Qed.

#[global] Instance ull_codec_ok junk : CodecOK (ull_codec junk) (λ x, is_u64 x) enc_ull.
Proof.
  split.
  - intros x m w Hx Hm Hsz. simpl. unfold put_ull, enc_ull in *.
    rewrite size_app, !size_enc_uint in Hsz.
    destruct (put_uint_holds junk m w (u32 (Z.shiftr x 32)) Hm) as (m1 & -> & H1); [lia|].
    cbn [mbind outcome_bind]. rewrite app_assoc. apply put_uint_holds; [done|]. rewrite size_app.
    rewrite size_enc_uint. lia.
  - intros x u pre post Hx Hu. simpl. unfold get_ull, enc_ull in *.
    rewrite <- app_assoc in Hu.
    destruct (get_uint_reads u pre _ _ 0 (u32_range _) Hu) as (u1 & -> & H1). simpl.
    destruct (get_uint_reads u1 _ _ _ 0 (u32_range _) H1) as (u2 & -> & H2). simpl.
    rewrite <- app_assoc in H2. exists u2. split; [|done]. by rewrite ull_halves.
Qed.

(** Strings below the packet limit. *)
#[global] Instance string_codec_ok junk :
  CodecOK (string_codec junk) (λ s, (size s < max_packet)%Z) enc_string.
Proof.
  split.
  - intros s m w Hs Hm Hsz. unfold max_packet in *. cbn [put string_codec]. unfold put_string, enc_string in *.
    pose proof (size_nonneg s). pose proof (size_nonneg w).
    rewrite size_app, size_enc_uint in Hsz.
    destruct (put_uint_holds junk m w (u32 (size s)) Hm) as (m1 & -> & H1);
      [unfold max_packet; lia|].
    run. rewrite app_assoc. apply rawbytes_holds; [done|by rewrite i32_small by lia|].
    rewrite size_app. rewrite size_enc_uint. unfold max_packet. lia.
  - intros s u pre post Hs Hu. unfold max_packet in *. cbn [get dflt string_codec]. unfold get_string, enc_string in *.
    pose proof (size_nonneg s). rewrite <- app_assoc in Hu.
    destruct (get_uint_reads u pre _ _ 0 (u32_range _) Hu) as (u1 & -> & H1). run.
    pose proof H1 as (extra & Hb & Hi & Hsz & Hlt & Hok). rewrite Hok.
    rewrite (u32_small (size s)) in * by lia. unfold u_rawbytes.
    pose proof (size_nonneg (pre ++ enc_uint (size s))). pose proof (size_nonneg post).
    rewrite (size_app s post) in Hsz.
    rewrite !u32_small by lia.
    destruct (Z.gtb_spec (u_ind u1 + size s) (u_sz u1)); [lia|].
    rewrite Hb. cbn [deref]. run. rewrite <- (app_assoc s post extra).
    rewrite (load_Ok (pre ++ enc_uint (size s)) s (post ++ extra)) by done.
    run. rewrite Z.eqb_refl. run. eexists. split; [done|]. exists extra.
    cbn [u_buf u_ind u_sz u_ok].
    rewrite i32_small by lia. rewrite (app_assoc pre (enc_uint (size s)) s), (size_app _ s).
    split_and!; try done; try lia.
    by rewrite <- !app_assoc.
Qed.

#[global] Instance unit_codec_ok : CodecOK unit_codec (λ _, True) (λ _, []).
Proof.
  split.
  - intros [] m w _ Hm _. rewrite app_nil_r. by exists m.
  - intros [] u pre post _ Hu. rewrite app_nil_r. by exists u.
Qed.

#[global] Instance pair_codec_ok {A B} (ca : codec A) (cb : codec B) va vb ea eb :
  CodecOK ca va ea → CodecOK cb vb eb →
  CodecOK (pair_codec ca cb) (λ p, va p.1 ∧ vb p.2) (enc_pair ea eb).
Proof.
  intros Ha Hb. split.
  - intros [a b] m w [Va Vb] Hm Hsz. unfold enc_pair in *. simpl in *. rewrite size_app in Hsz.
    pose proof (size_nonneg (ea a)). pose proof (size_nonneg (eb b)).
    destruct (codec_put a m w Va Hm) as (m1 & -> & H1); [lia|]. run.
    rewrite app_assoc. apply codec_put; [done|done|]. rewrite size_app. lia.
  - intros [a b] u pre post [Va Vb] Hu. unfold enc_pair in *. simpl in *.
    rewrite <- app_assoc in Hu.
    destruct (codec_get a u pre _ Va Hu) as (u1 & -> & H1). run.
    destruct (codec_get b u1 _ _ Vb H1) as (u2 & -> & H2). run.
    rewrite <- app_assoc in H2. eauto.
Qed.

(** Vectors and maps of encodable elements. *)
Section containers.
Context (junk : nat → ascii).

Lemma put_all_holds {C} (c : codec C) valid enc `{!CodecOK c valid enc} v m w :
  Forall valid v → holds m w → (size w + size (v ≫= enc) < max_packet)%Z →
  ∃ m', put_all c v m = Ok m' ∧ holds m' (w ++ (v ≫= enc)).
Proof.
  intros Hv. revert m w. induction Hv as [|x v Hx Hv IH]; intros m w Hm Hsz; cbn [put_all].
  - rewrite app_nil_r. by exists m.
  - rewrite bind_cons, size_app in *.
    pose proof (size_nonneg (enc x)). pose proof (size_nonneg (v ≫= enc)).
    destruct (codec_put x m w Hx Hm) as (m1 & -> & H1); [lia|]. run.
    rewrite app_assoc. apply IH; [done|]. rewrite size_app. lia.
Qed.

Lemma get_n_reads {C} (c : codec C) valid enc `{!CodecOK c valid enc} v acc u pre post :
  Forall valid v → reads u pre ((v ≫= enc) ++ post) →
  ∃ u', get_n c (length v) acc u = Ok (acc ++ v, u') ∧ reads u' (pre ++ (v ≫= enc)) post.
Proof.
  intros Hv. revert acc u pre. induction Hv as [|x v Hx Hv IH]; intros acc u pre Hu; cbn [get_n length].
  - rewrite !app_nil_r. by exists u.
  - rewrite bind_cons, <- app_assoc in *.
    destruct (codec_get x u pre _ Hx Hu) as (u1 & -> & H1). run.
    destruct (IH (acc ++ [x]) u1 _ H1) as (u2 & -> & H2).
    rewrite <- app_assoc in *. eauto.
Qed.

#[global] Instance vector_codec_ok {C} (c : codec C) valid enc :
  CodecOK c valid enc →
  CodecOK (vector_codec junk c) (λ v, Forall valid v ∧ is_u32 (Z.of_nat (length v)))
    (enc_vector enc).
Proof.
  intros Hc. split.
  - intros v m w [Hv Hn] Hm Hsz. cbn [put vector_codec]. unfold put_vector, enc_vector in *.
    rewrite size_app, size_enc_uint in Hsz. pose proof (size_nonneg (v ≫= enc)).
    destruct (put_uint_holds junk m w (u32 (Z.of_nat (length v))) Hm) as (m1 & -> & H1); [lia|].
    run. rewrite app_assoc. eapply put_all_holds; [done|done|done|].
    rewrite size_app, size_enc_uint. lia.
  - intros v u pre post [Hv Hn] Hu. cbn [get dflt vector_codec]. unfold get_vector, enc_vector in *.
    rewrite <- app_assoc in Hu.
    destruct (get_uint_reads u pre _ _ 0 (u32_range _) Hu) as (u1 & -> & H1). run.
    rewrite u32_small, Nat2Z.id in * by done.
    destruct (get_n_reads c valid enc v [] u1 _ _ Hv H1) as (u2 & -> & H2).
    rewrite <- app_assoc in H2. eauto.
Qed.

(** Maps: the entries in key order are the entries of the map. *)
Lemma omap_keys {B} (d : gmap Z B) (l : list (Z * B)) :
  Forall (λ p, d !! p.1 = Some p.2) l → omap (λ k, pair k <$> d !! k) l.*1 = l.
Proof.
  induction 1 as [|[k b] l Hk Hl IH]; [done|]. csimpl in *. rewrite Hk. csimpl. by f_equal.
Qed.

Lemma entries_in_order_perm {B} (d : gmap Z B) : entries_in_order d ≡ₚ map_to_list d.
Proof.
  unfold entries_in_order, keys_in_order.
  rewrite (merge_sort_Permutation Z.le), omap_keys; [done|].
  apply Forall_forall. intros [k b] Hin. by apply elem_of_map_to_list.
Qed.

Lemma get_entries_reads {B} (ca : codec Z) (cb : codec B) va vb ea eb
    `{!CodecOK ca va ea, !CodecOK cb vb eb} l d u pre post :
  Forall (λ p, va p.1 ∧ vb p.2) l →
  reads u pre ((l ≫= enc_entry ea eb) ++ post) →
  ∃ u', get_entries ca cb (length l) d u
        = Ok (foldl (λ d p, <[p.1 := p.2]> d) d l, u') ∧
    reads u' (pre ++ (l ≫= enc_entry ea eb)) post.
Proof.
  intros Hl. revert d u pre. induction Hl as [|[a b] l [Va Vb] Hl IH];
    intros d u pre Hu; cbn [get_entries length foldl].
  - rewrite app_nil_r. by exists u.
  - rewrite bind_cons, <- app_assoc in *. unfold enc_entry at 1 in Hu.
    rewrite <- app_assoc in Hu.
    destruct (codec_get a u pre _ Va Hu) as (u1 & -> & H1). run.
    destruct (codec_get b u1 _ _ Vb H1) as (u2 & -> & H2). run.
    destruct (IH (<[a := b]> d) u2 _ H2) as (u3 & -> & H3).
    exists u3. split; [done|]. unfold enc_entry at 1. simpl. by rewrite <- !app_assoc in *.
Qed.

Lemma put_entries_holds {B} (ca : codec Z) (cb : codec B) va vb ea eb
    `{!CodecOK ca va ea, !CodecOK cb vb eb} l m w :
  Forall (λ p, va p.1 ∧ vb p.2) l → holds m w →
  (size w + size (l ≫= enc_entry ea eb) < max_packet)%Z →
  ∃ m', put_entries ca cb l m = Ok m' ∧ holds m' (w ++ (l ≫= enc_entry ea eb)).
Proof.
  intros Hl. revert m w. induction Hl as [|[a b] l [Va Vb] Hl IH];
    intros m w Hm Hsz; cbn [put_entries].
  - rewrite app_nil_r. by exists m.
  - rewrite bind_cons, size_app in *. unfold enc_entry at 1 in Hsz. unfold enc_entry at 1.
    simpl in *. rewrite size_app in Hsz.
    pose proof (size_nonneg (ea a)). pose proof (size_nonneg (eb b)).
    pose proof (size_nonneg (l ≫= enc_entry ea eb)).
    destruct (codec_put a m w Va Hm) as (m1 & -> & Hm1); [lia|]. run.
    destruct (codec_put b m1 _ Vb Hm1) as (m2 & -> & Hm2); [rewrite size_app; lia|]. run.
    destruct (IH m2 _ Hm2) as (m3 & -> & Hm3); [rewrite !size_app; lia|].
    exists m3. split; [done|]. by rewrite <- !app_assoc in *.
Qed.

Lemma foldl_insert_lookup {B} (d acc : gmap Z B) l k :
  Forall (λ p, d !! p.1 = Some p.2) l →
  foldl (λ d p, <[p.1 := p.2]> d) acc l !! k
  = if decide (k ∈ l.*1) then d !! k else acc !! k.
Proof.
  intros Hl. revert acc. induction Hl as [|[a b] l Ha Hl IH]; intros acc; csimpl.
  - done.
  - rewrite IH. simpl in *. destruct (decide (k ∈ l.*1)).
    + rewrite decide_True by (by right). done.
    + destruct (decide (a = k)) as [->|Hne].
      * rewrite lookup_insert_eq, decide_True by left. done.
      * rewrite lookup_insert_ne, decide_False by (rewrite ?not_elem_of_cons; done). done.
Qed.

Lemma foldl_insert_entries {B} (d : gmap Z B) l :
  l ≡ₚ map_to_list d → foldl (λ d p, <[p.1 := p.2]> d) ∅ l = d.
Proof.
  intros Hp. apply map_eq. intros k. rewrite (foldl_insert_lookup d).
  - case_decide as Hk; [done|]. rewrite Hp in Hk. rewrite lookup_empty.
    destruct (d !! k) as [b|] eqn:E; [|done]. destruct Hk.
    apply list_elem_of_fmap. exists (k, b). by rewrite elem_of_map_to_list.
  - apply Forall_forall. intros [a b]. rewrite Hp. by rewrite elem_of_map_to_list.
Qed.

#[global] Instance map_codec_ok {B} (ca : codec Z) (cb : codec B) va vb ea eb :
  CodecOK ca va ea → CodecOK cb vb eb →
  CodecOK (map_codec junk ca cb)
    (λ d, map_Forall (λ a b, va a ∧ vb b) d ∧ is_u32 (Z.of_nat (base.size d)))
    (enc_map ea eb).
Proof.
  intros Ha Hb.
  assert (∀ d : gmap Z B, map_Forall (λ a b, va a ∧ vb b) d →
            Forall (λ p, va p.1 ∧ vb p.2) (entries_in_order d)) as Hall.
  { intros d Hd. apply Forall_forall. intros [a b].
    rewrite entries_in_order_perm, elem_of_map_to_list. apply Hd. }
  split.
  - intros d m w [Hd Hn] Hm Hsz. cbn [put map_codec]. unfold put_map, enc_map in *.
    rewrite size_app, size_enc_uint in Hsz.
    pose proof (size_nonneg (entries_in_order d ≫= enc_entry ea eb)).
    destruct (put_uint_holds junk m w (u32 (Z.of_nat (base.size d))) Hm) as (m1 & -> & H1);
      [lia|].
    run. rewrite app_assoc. eapply put_entries_holds; [done|done|by apply Hall|done|].
    rewrite size_app, size_enc_uint. lia.
  - intros d u pre post [Hd Hn] Hu. cbn [get dflt map_codec]. unfold get_map, enc_map in *.
    rewrite <- app_assoc in Hu.
    destruct (get_uint_reads u pre _ _ 0 (u32_range _) Hu) as (u1 & -> & H1). run.
    rewrite u32_small, Nat2Z.id in * by done.
    assert (base.size d = length (entries_in_order d)) as Hlen.
    { rewrite entries_in_order_perm. symmetry. apply length_map_to_list. }
    rewrite Hlen in *.
    destruct (get_entries_reads ca cb va vb ea eb _ ∅ u1 _ _ (Hall d Hd) H1)
      as (u2 & -> & H2).
    rewrite (foldl_insert_entries d) by apply entries_in_order_perm.
    rewrite <- app_assoc in H2. eauto.
Qed.
End containers.

(** ** Headers *)

(** Overwriting one byte inside the block. *)
Lemma rawbyte_over junk x w y rest capa ind :
  ind = size w → (capa = size w + 1 + size rest)%Z → (size w + 1 < 2 ^ 31)%Z →
  rawbyte junk x (Marshall (Some (w ++ y :: rest)) capa ind)
  = Ok (Marshall (Some ((w ++ [x]) ++ rest)) capa (ind + 1)).
Proof.
  intros -> -> Hlt. unfold rawbyte. cbn [m_ind m_capa m_buf].
  pose proof (size_nonneg w). pose proof (size_nonneg rest).
  destruct (Z.geb_spec (size w) (size w + 1 + size rest)); [lia|]. run. cbn [m_buf deref m_ind].
  run. rewrite (store_Ok w [y] rest [x]) by done. run. rewrite int_result_Ok by lia. run.
  by rewrite <- app_assoc.
Qed.

Lemma pack_over junk x w q rest capa ind :
  ind = size w → length q = 4 → (capa = size w + 4 + size rest)%Z → (size w + 4 < 2 ^ 31)%Z →
  pack junk x (Marshall (Some (w ++ q ++ rest)) capa ind)
  = Ok (Marshall (Some ((w ++ enc_uint x) ++ rest)) capa (ind + 4)).
Proof.
  intros -> Hq -> Hlt. destruct q as [|q1 [|q2 [|q3 [|q4 [|]]]]]; try done.
  pose proof (size_nonneg w).
  assert (∀ a (l : bytes), size (a :: l) = 1 + size l)%Z as Hcons by (unfold size; simpl; lia).
  assert (∀ a, size [a] = 1%Z) as Hone by done.
  unfold pack. simpl app.
  rewrite rawbyte_over by (rewrite ?Hcons; lia). run.
  rewrite rawbyte_over by (rewrite ?size_app, ?Hone, ?Hcons; lia). run.
  rewrite rawbyte_over by (rewrite ?size_app, ?Hone, ?Hcons; lia). run.
  rewrite rawbyte_over by (rewrite ?size_app, ?Hone; lia).
  f_equal. f_equal; [|lia]. f_equal. by rewrite <- !app_assoc.
Qed.

#[local] Opaque enc_uint.
#[local] Ltac sz :=
  change RPC_HEADER_SZ with 24%Z; rewrite ?size_app, ?size_enc_uint in *; lia.

(** The header area: four bytes for the channel, twenty for the header. *)
Definition enc_req_header (h : req_header) : bytes :=
  enc_uint (rq_xid h) ++ enc_uint (rq_proc h) ++ enc_uint (i32 (rq_clt_nonce h)) ++
  enc_uint (i32 (rq_srv_nonce h)) ++ enc_uint (rq_xid_rep h).
Definition enc_reply_header (h : reply_header) : bytes :=
  enc_uint (rp_xid h) ++ enc_uint (rp_ret h).

Definition req_header_ok (h : req_header) : Prop :=
  is_i32 (rq_xid h) ∧ is_i32 (rq_proc h) ∧ is_u32 (rq_clt_nonce h) ∧
  is_u32 (rq_srv_nonce h) ∧ is_i32 (rq_xid_rep h).
Definition reply_header_ok (h : reply_header) : Prop := is_i32 (rp_xid h) ∧ is_i32 (rp_ret h).

Lemma split_at (b : bytes) n :
  n ≤ length b → ∃ q r, b = q ++ r ∧ length q = n.
Proof.
  intros. exists (take n b), (drop n b). rewrite take_drop, length_take. split; [done|lia].
Qed.

Lemma pack_req_header_holds junk h m hd body :
  holds m (hd ++ body) → length hd = 24 →
  ∃ m' sz4, pack_req_header junk h m = Ok m' ∧ length sz4 = 4 ∧
    holds m' (sz4 ++ enc_req_header h ++ body).
Proof.
  intros (rest & Hb & Hi & Hc & Hpos & Hg) Hhd. destruct m as [b capa ind]; simpl in *. subst.
  destruct (split_at hd 4 ltac:(lia)) as (sz4 & hd1 & -> & L0). rewrite length_app in Hhd.
  destruct (split_at hd1 4 ltac:(lia)) as (q1 & hd2 & -> & L1). rewrite length_app in Hhd.
  destruct (split_at hd2 4 ltac:(lia)) as (q2 & hd3 & -> & L2). rewrite length_app in Hhd.
  destruct (split_at hd3 4 ltac:(lia)) as (q3 & hd4 & -> & L3). rewrite length_app in Hhd.
  destruct (split_at hd4 4 ltac:(lia)) as (q4 & q5 & -> & L4). rewrite length_app in Hhd.
  unfold pack_req_header. cbn [m_ind m_buf m_capa].
  rewrite <- !app_assoc. change sizeof_rpc_sz with 4%Z.
  assert (size sz4 = 4 ∧ size q1 = 4 ∧ size q2 = 4 ∧ size q3 = 4 ∧ size q4 = 4 ∧ size q5 = 4)%Z
    as (S0 & S1 & S2 & S3 & S4 & S5) by (unfold size; lia).
  rewrite pack_over by (done || sz). run.
  rewrite pack_over by (done || sz). run.
  rewrite pack_over by (done || sz). run.
  rewrite pack_over by (done || sz). run.
  rewrite pack_over by (done || sz). run. cbn [m_buf m_capa m_ind].
  eexists _, sz4. split_and!; [done|done|].
  exists rest. cbn [m_buf m_capa m_ind]. unfold enc_req_header.
  rewrite <- !app_assoc. split_and!; [done|sz|sz|sz|]. unfold DEFAULT_RPC_SZ in *. sz.
Qed.

Lemma pack_reply_header_holds junk h m hd body :
  holds m (hd ++ body) → length hd = 24 →
  ∃ m' sz4 pad, pack_reply_header junk h m = Ok m' ∧ length sz4 = 4 ∧ length pad = 12 ∧
    holds m' (sz4 ++ enc_reply_header h ++ pad ++ body).
Proof.
  intros (rest & Hb & Hi & Hc & Hpos & Hg) Hhd. destruct m as [b capa ind]; simpl in *. subst.
  destruct (split_at hd 4 ltac:(lia)) as (sz4 & hd1 & -> & L0). rewrite length_app in Hhd.
  destruct (split_at hd1 4 ltac:(lia)) as (q1 & hd2 & -> & L1). rewrite length_app in Hhd.
  destruct (split_at hd2 4 ltac:(lia)) as (q2 & pad & -> & L2). rewrite length_app in Hhd.
  unfold pack_reply_header. cbn [m_ind m_buf m_capa].
  rewrite <- !app_assoc. change sizeof_rpc_sz with 4%Z.
  assert (size sz4 = 4 ∧ size q1 = 4 ∧ size q2 = 4)%Z as (S0 & S1 & S2) by (unfold size; lia).
  rewrite pack_over by (done || sz). run.
  rewrite pack_over by (done || sz). run. cbn [m_buf m_capa m_ind].
  eexists _, sz4, pad. split_and!; [done|done|lia|].
  exists rest. cbn [m_buf m_capa m_ind]. unfold enc_reply_header.
  rewrite <- !app_assoc. split_and!; [done|sz|sz|sz|]. unfold DEFAULT_RPC_SZ in *. sz.
Qed.

Lemma new_marshall_holds junk :
  ∃ hd, length hd = 24 ∧ holds (new_marshall junk) hd.
Proof.
  assert (length (malloc junk DEFAULT_RPC_SZ) = 1024) as Hlen
    by (unfold malloc; rewrite length_fresh_bytes; done).
  unfold new_marshall, holds. cbn [m_buf m_capa m_ind].
  revert Hlen. generalize (malloc junk DEFAULT_RPC_SZ). intros b Hlen.
  exists (take 24 b). rewrite length_take, Hlen. split; [done|].
  exists (drop 24 b). rewrite take_drop.
  unfold size. rewrite length_take, length_drop, Hlen. done.
Qed.

(** Reading the headers back. *)
Lemma unpack_req_header_reads b sz sz4 h body extra :
  b = sz4 ++ enc_req_header h ++ body ++ extra → length sz4 = 4 → req_header_ok h →
  sz = (24 + size body)%Z → (sz < 2 ^ 31)%Z →
  ∃ u, unpack_req_header (unmarshall_of b sz) = Ok (h, u) ∧
    reads u (sz4 ++ enc_req_header h) body.
Proof.
  intros -> L4 (V1 & V2 & V3 & V4 & V5) -> Hlt. unfold unpack_req_header.
  assert (size sz4 = 4%Z) as S4 by (unfold size; lia). pose proof (size_nonneg body).
  assert (reads (set_ind (unmarshall_of (sz4 ++ enc_req_header h ++ body ++ extra)
             (24 + size body)) sizeof_rpc_sz) sz4 (enc_req_header h ++ body)) as Hr.
  { exists extra. cbn. unfold enc_req_header. rewrite <- !app_assoc. split_and!; try done. sz. }
  revert Hr. generalize (set_ind (unmarshall_of (sz4 ++ enc_req_header h ++ body ++ extra)
             (24 + size body)) sizeof_rpc_sz).
  unfold enc_req_header. rewrite <- !app_assoc. intros u Hr.
  apply unpack_reads in Hr as (u1 & -> & Hr). run.
  apply unpack_reads in Hr as (u2 & -> & Hr). run.
  apply unpack_reads in Hr as (u3 & -> & Hr). run.
  apply unpack_reads in Hr as (u4 & -> & Hr). run.
  apply unpack_reads in Hr as (u5 & -> & Hr). run.
  eexists. split.
  - f_equal. f_equal. destruct h. cbn [rq_xid rq_proc rq_clt_nonce rq_srv_nonce rq_xid_rep] in *.
    rewrite !(i32_small (i32 _)) by apply i32_range. rewrite !u32_i32, !u32_small, !i32_small by done.
    done.
  - destruct Hr as (extra' & Hb & Hi & Hs & Hl & Hok). exists extra'. cbn.
    rewrite <- !app_assoc in *. split_and!; try done. sz.
Qed.

Lemma unpack_reply_header_reads b sz sz4 pad h body extra :
  b = sz4 ++ enc_reply_header h ++ pad ++ body ++ extra → length sz4 = 4 → length pad = 12 →
  reply_header_ok h → sz = (24 + size body)%Z → (sz < 2 ^ 31)%Z →
  ∃ u, unpack_reply_header (unmarshall_of b sz) = Ok (h, u) ∧
    reads u (sz4 ++ enc_reply_header h ++ pad) body.
Proof.
  intros -> L4 L12 (V1 & V2) -> Hlt. unfold unpack_reply_header.
  assert (size sz4 = 4%Z) as S4 by (unfold size; lia). pose proof (size_nonneg body).
  assert (size pad = 12%Z) as S12 by (unfold size; lia).
  assert (reads (set_ind (unmarshall_of (sz4 ++ enc_reply_header h ++ pad ++ body ++ extra)
             (24 + size body)) sizeof_rpc_sz) sz4 (enc_reply_header h ++ pad ++ body)) as Hr.
  { exists extra. cbn. unfold enc_reply_header. rewrite <- !app_assoc.
    split_and!; try done. sz. }
  revert Hr. generalize (set_ind (unmarshall_of (sz4 ++ enc_reply_header h ++ pad ++ body ++ extra)
             (24 + size body)) sizeof_rpc_sz).
  unfold enc_reply_header. rewrite <- !app_assoc. intros u Hr.
  apply unpack_reads in Hr as (u1 & -> & Hr). run.
  apply unpack_reads in Hr as (u2 & -> & Hr). run.
  eexists. split.
  - f_equal. f_equal. destruct h. cbn [rp_xid rp_ret] in *. by rewrite !i32_small.
  - destruct Hr as (extra' & Hb & Hi & Hs & Hl & Hok). exists extra'. cbn.
    rewrite <- !app_assoc in *. split_and!; try done; sz.
Qed.

(** [okdone] holds exactly when everything was read. *)
Lemma reads_okdone u pre : reads u pre [] → okdone u = true.
Proof.
  intros (extra & Hb & Hi & Hs & Hl & Hok). unfold okdone. rewrite Hok, Hi, Hs.
  change (size []) with 0%Z. rewrite Z.add_0_r. apply Z.eqb_refl.
Qed.

(** ** Properties *)

(** Whatever a correct codec writes is read back from the content of the buffer. *)
Lemma codec_roundtrip {A} (c : codec A) valid enc `{!CodecOK c valid enc} junk junk' x :
  valid x → (24 + size (enc x) < max_packet)%Z →
  ∃ m u, put c x (new_marshall junk) = Ok m ∧ get_content m = Ok (enc x) ∧
    get c (dflt c) (take_content junk' (enc x)) = Ok (x, u) ∧ okdone u = true.
Proof.
  intros Hx Hsz. destruct (new_marshall_holds junk) as (hd & Lhd & Hhd).
  assert (size hd = 24%Z) as Shd by (unfold size; lia).
  destruct (codec_put x (new_marshall junk) hd Hx Hhd) as (m & -> & rest & Hb & Hi & _); [lia|].
  exists m. unfold get_content. rewrite Hb, Hi. cbn [deref]. run.
  rewrite <- app_assoc, (load_Ok hd (enc x) rest); [|done|rewrite size_app, Shd; change RPC_HEADER_SZ with 24%Z; lia].
  assert (reads (take_content junk' (enc x)) (fresh_bytes junk' 0 24) (enc x ++ [])) as Hr.
  { exists []. unfold take_content. cbn [u_buf u_ind u_sz u_ok].
    assert (size (fresh_bytes junk' 0 24) = 24%Z) as -> by (unfold size; by rewrite length_fresh_bytes).
    rewrite !app_nil_r. change RPC_HEADER_SZ with 24%Z. unfold max_packet in *.
    split_and!; [done|done|lia|lia|done]. }
  destruct (codec_get x _ _ [] Hx Hr) as (u & E & Hu). exists u. split_and!; [done..|].
  by eapply reads_okdone.
Qed.

(** The bound check of [unmarshall::rawbytes] is made in 32-bit unsigned
    arithmetic.  A length that is announced too large is caught as long as the sum
    does not wrap; when it wraps, the check passes and the read leaves the packet. *)
Theorem rawbytes_bound_check ss n u b :
  u_buf u = Some b → u_sz u = size b → (0 <= u_ind u <= u_sz u)%Z → (u_sz u < 2 ^ 31)%Z → is_u32 n →
  ((u_ind u + n < 2 ^ 32)%Z → ∃ r, u_rawbytes ss n u = Ok r) ∧
  ((2 ^ 32 <= u_ind u + n)%Z → u_rawbytes ss n u = Fault OutOfBounds).
Proof.
  intros Hb Hsz Hi Hlt Hn. unfold u_rawbytes. rewrite Z.gtb_ltb, (u32_small (u_sz u)) by lia. split.
  - intros Hsum. rewrite u32_small by lia. destruct (Z.ltb_spec (u_sz u) (u_ind u + n)); [eauto|].
    rewrite Hb. cbn [deref]. run. unfold load.
    destruct (Z.leb_spec 0 (u_ind u)), (Z.leb_spec (u_ind u + n) (size b)); try lia. cbn [andb]. run.
    unfold size in *. rewrite length_take, length_drop.
    match goal with |- context [VERIFY ?x] => assert (x = true) as -> end.
    { apply Z.eqb_eq. lia. }
    run. eauto.
  - intros Hsum. assert (u32 (u_ind u + n) = u_ind u + n - 2 ^ 32)%Z as ->.
    { unfold u32. symmetry. apply (Z.mod_unique _ _ 1); lia. }
    destruct (Z.ltb_spec (u_sz u) (u_ind u + n - 2 ^ 32)); [lia|].
    rewrite Hb. cbn [deref]. run. unfold load.
    destruct (Z.leb_spec 0 (u_ind u)), (Z.leb_spec (u_ind u + n) (size b)); try lia. done.
Qed.

(** A packet whose string length is 0xffffffff. *)
Lemma rawbytes_bound_check_witness :
  get_string [] (Unmarshall (Some (lit "0123456789012345678901230000" ++
    enc_uint (2 ^ 32 - 1) ++ lit "x")) 33 28 true) = Fault OutOfBounds.
Proof.
  destruct (rawbytes_bound_check [] (2 ^ 32 - 1)
    (Unmarshall (Some (lit "0123456789012345678901230000" ++ enc_uint (2 ^ 32 - 1) ++ lit "x")) 33 32
      true) (lit "0123456789012345678901230000" ++ enc_uint (2 ^ 32 - 1) ++ lit "x"))
    as [_ H]; [done|done|done|done|done|].
  change (u_rawbytes [] (2 ^ 32 - 1) (Unmarshall (Some (lit "0123456789012345678901230000" ++
    enc_uint (2 ^ 32 - 1) ++ lit "x")) 33 32 true) = Fault OutOfBounds).
  apply H. done.
Defined.
