(* ===== verification/Connection.v ===== *)
(** * Connections (rpc/connection.h, rpc/connection.cc)

    One TCP connection: its reference count, and the state machines that send
    and receive length-prefixed packets (PDUs) over a non-blocking socket.  What
    the operating system answers to [read] and [write], and what the channel
    manager answers to [got_pdu], are arguments; the calls made to the poll
    manager are returned.  The main theorem frames: whatever the sizes of the
    partial writes and reads, the reader is handed the packet that was sent. *)

From stdpp Require Import base tactics numbers list gmap strings.
From Stdlib Require Import ZArith Lia Ascii.
From S2P Require Import Prelude CxxString Marshall.

(** [connection::charbuf] *)
Record charbuf := CharBuf { cb_buf : option bytes; cb_sz : Z; cb_solong : Z }.
Definition empty_charbuf : charbuf := CharBuf None 0 0.

Record connection := Connection {
  c_fd : Z;
  c_dead : bool;
  c_wpdu : charbuf;
  c_rpdu : charbuf;
  c_tv_sec : Z;   (* create_time_ *)
  c_tv_usec : Z;
  c_waiters : Z;
  c_refno : Z;
  c_lossy : Z }.

(** poll_flag of rpc/pollmgr.h *)
Inductive poll_flag := CB_NONE | CB_RDONLY | CB_WRONLY | CB_RDWR.

Inductive poll_action :=
  | AddCallback (fd : Z) (f : poll_flag)
  | DelCallback (fd : Z) (f : poll_flag)
  | BlockRemoveFd (fd : Z).

(** Answers of the operating system: a byte count and the data, or no byte
    (end of file, or an error) with whether [errno] is [EAGAIN]. *)
Inductive write_result := Wrote (n : Z) | WriteError (eagain : bool).
Inductive read_result := ReadBytes (bs : bytes) | ReadEof (eagain : bool) | ReadError (eagain : bool).

Definition MAX_PDU : Z := Z.shiftl 10 20.

(** [connection::connection] (the socket flags and the locks aside) *)
Definition new_connection (fd lossy tv_sec tv_usec : Z) : connection * list poll_action :=
  (Connection fd false empty_charbuf empty_charbuf tv_sec tv_usec 0 1 lossy,
   [AddCallback fd CB_RDONLY]).

Definition set_dead (c : connection) : connection :=
  Connection (c_fd c) true (c_wpdu c) (c_rpdu c) (c_tv_sec c) (c_tv_usec c)
    (c_waiters c) (c_refno c) (c_lossy c).
Definition set_wpdu (c : connection) (w : charbuf) : connection :=
  Connection (c_fd c) (c_dead c) w (c_rpdu c) (c_tv_sec c) (c_tv_usec c)
    (c_waiters c) (c_refno c) (c_lossy c).
Definition set_rpdu (c : connection) (r : charbuf) : connection :=
  Connection (c_fd c) (c_dead c) (c_wpdu c) r (c_tv_sec c) (c_tv_usec c)
    (c_waiters c) (c_refno c) (c_lossy c).
Definition set_waiters (c : connection) (n : Z) : connection :=
  Connection (c_fd c) (c_dead c) (c_wpdu c) (c_rpdu c) (c_tv_sec c) (c_tv_usec c)
    n (c_refno c) (c_lossy c).
Definition set_refno (c : connection) (n : Z) : connection :=
  Connection (c_fd c) (c_dead c) (c_wpdu c) (c_rpdu c) (c_tv_sec c) (c_tv_usec c)
    (c_waiters c) n (c_lossy c).

(** [connection::isdead], [incref], [ref] *)
Definition isdead (c : connection) : bool := c_dead c.
Definition incref (c : connection) : connection := set_refno c (c_refno c + 1).
Definition ref (c : connection) : Z := c_refno c.

(** [connection::~connection]: the checks of the destructor. *)
Definition destroy (c : connection) : outcome () :=
  VERIFY (c_dead c);;
  VERIFY (bool_decide (cb_buf (c_wpdu c) = None)).

(** [connection::decref]: [None] when the object deletes itself. *)
Definition decref (c : connection) : outcome (option connection) :=
  let c := set_refno c (c_refno c - 1) in
  VERIFY (c_refno c >=? 0)%Z;;
  if (c_refno c =? 0)%Z
  then if c_dead c then destroy c;; Ok None else Ok (Some c)
  else Ok (Some c).

(** [connection::closeconn] *)
Definition closeconn (c : connection) : connection * list poll_action :=
  if c_dead c then (c, []) else (set_dead c, [BlockRemoveFd (c_fd c)]).

(** [connection::compare] *)
Definition compare (c another : connection) : Z :=
  if (c_tv_sec c >? c_tv_sec another)%Z then 1%Z
  else if (c_tv_sec c <? c_tv_sec another)%Z then (-1)%Z
  else if (c_tv_usec c >? c_tv_usec another)%Z then 1%Z
  else if (c_tv_usec c <? c_tv_usec another)%Z then (-1)%Z
  else 0%Z.

(** ** The connection objects of a process

    Objects are reached through pointers and delete themselves; a deleted object
    is gone from the heap, and an access to it is a fault. *)
Abbreviation conn_heap := (gmap nat connection).

Definition heap_at (c : nat) (h : conn_heap) : outcome connection :=
  match h !! c with Some x => Ok x | None => Fault NullDeref end.
Definition heap_incref (c : nat) (h : conn_heap) : outcome conn_heap :=
  x ← heap_at c h; Ok (<[c := incref x]> h).
Definition heap_decref (c : nat) (h : conn_heap) : outcome conn_heap :=
  x ← heap_at c h;
  r ← decref x;
  Ok (match r with Some x => <[c := x]> h | None => delete c h end).

(** [htonl] of the size, as the four bytes stored at the front of the packet. *)
Definition size_prefix (sz : Z) : bytes := enc_uint (u32 sz).
(** [ntohl] of the four bytes read. *)
Definition prefix_size (p : bytes) : Z :=
  match p with
  | [a; b; c; d] =>
      i32 (Z.lor (Z.lor (Z.lor (Z.shiftl (Z_of_byte a) 24) (Z.shiftl (Z_of_byte b) 16))
                        (Z.shiftl (Z_of_byte c) 8)) (Z.shiftl (Z_of_byte d) 0))
  | _ => 0%Z
  end.

(** The bytes handed to [write] by [connection::writepdu]: the rest of the
    packet, its first four bytes set when nothing is written yet. *)
Definition stamped (w : charbuf) : outcome bytes :=
  b ← deref (cb_buf w);
  if (cb_solong w =? 0)%Z then store b 0 (size_prefix (cb_sz w)) else Ok b.

Definition write_request (w : charbuf) : outcome bytes :=
  b ← stamped w;
  load b (cb_solong w) (cb_sz w - cb_solong w).

(** [connection::writepdu] *)
Definition writepdu (os : write_result) (w : charbuf) : outcome (bool * charbuf) :=
  VERIFY (cb_solong w >=? 0)%Z;;
  if (cb_solong w =? cb_sz w)%Z then Ok (true, w)
  else
    b ← stamped w;
    load b (cb_solong w) (cb_sz w - cb_solong w);;
    match os with
    | WriteError true => Ok (true, CharBuf (Some b) (cb_sz w) (cb_solong w))
    | WriteError false => Ok (false, CharBuf (Some b) 0 (-1))
    | Wrote n => Ok (true, CharBuf (Some b) (cb_sz w) (cb_solong w + n))
    end.

(** [connection::send], up to its first wait: the thread queues up. *)
Definition send_enter (c : connection) : connection := set_waiters c (c_waiters c + 1).

(** A queued thread may leave the first wait. *)
Definition send_may_start (c : connection) : bool :=
  c_dead c || bool_decide (cb_buf (c_wpdu c) = None).

(** [connection::send], after the first wait, up to the second one; [None] is
    the early return of [false]. *)
Definition send_start (os : write_result) (b : bytes) (sz : Z) (c : connection) :
    outcome (option () * connection * list poll_action) :=
  let c := set_waiters c (c_waiters c - 1) in
  if c_dead c then Ok (None, c, [])
  else
    '(succ, w) ← writepdu os (CharBuf (Some b) sz 0);
    let c := set_wpdu c w in
    if negb succ then Ok (Some (), set_dead c, [BlockRemoveFd (c_fd c)])
    else if (cb_solong w =? cb_sz w)%Z then Ok (Some (), c, [])
    else Ok (Some (), c, [AddCallback (c_fd c) CB_WRONLY]).

(** The sending thread may leave the second wait. *)
Definition send_may_finish (c : connection) : bool :=
  c_dead c || (cb_solong (c_wpdu c) <? 0)%Z
  || (cb_sz (c_wpdu c) <=? cb_solong (c_wpdu c))%Z.

(** [connection::send], after the second wait. *)
Definition send_finish (c : connection) : bool * connection :=
  let ret := negb (c_dead c) && (cb_solong (c_wpdu c) =? cb_sz (c_wpdu c))%Z in
  (ret, set_wpdu c empty_charbuf).

(** [connection::write_cb] *)
Definition write_cb (os : write_result) (s : Z) (c : connection) :
    outcome (connection * list poll_action) :=
  VERIFY (negb (c_dead c));;
  VERIFY (c_fd c =? s)%Z;;
  if (cb_sz (c_wpdu c) =? 0)%Z then Ok (c, [DelCallback (c_fd c) CB_WRONLY])
  else
    '(succ, w) ← writepdu os (c_wpdu c);
    let c := set_wpdu c w in
    if negb succ then Ok (set_dead c, [DelCallback (c_fd c) CB_RDWR])
    else VERIFY (cb_solong w >=? 0)%Z;; Ok (c, []).

Section reading.
Context (junk : nat → ascii).

(** [connection::readpdu], the part that reads the size word. *)
Definition readpdu_size (os : read_result) (r : charbuf) : outcome (bool * charbuf) :=
  if negb (cb_sz r =? 0)%Z then Ok (true, r)
  else
    match os with
    | ReadEof _ => Ok (false, r)
    | ReadError eagain => VERIFY (negb eagain);; Ok (false, r)
    | ReadBytes p =>
        if negb (size p =? 4)%Z then Ok (false, r)
        else
          let sz := prefix_size p in
          if (sz >? MAX_PDU)%Z then Ok (false, r)
          else
            VERIFY (bool_decide (cb_buf r = None));;
            (* malloc((size_t)(sz + 4)): a huge request returns NULL *)
            VERIFY (sz + 4 >=? 0)%Z;;
            b ← store (malloc junk (sz + 4)) 0 p;
            Ok (true, CharBuf (Some b) sz 4)
    end.

(** [connection::readpdu], the part that reads the body: [read] is asked for
    [(size_t)(sz - solong)] bytes. *)
Definition readpdu_body (os : read_result) (r : charbuf) : outcome (bool * charbuf) :=
  match os with
  | ReadBytes p =>
      b ← deref (cb_buf r);
      b ← store b (cb_solong r) p;
      Ok (true, CharBuf (Some b) (cb_sz r) (cb_solong r + size p))
  | ReadEof eagain | ReadError eagain =>
      if eagain then Ok (true, r) else Ok (false, empty_charbuf)
  end.

Definition readpdu (os1 os2 : read_result) (r : charbuf) : outcome (bool * charbuf) :=
  '(more, r) ← readpdu_size os1 r;
  if (more : bool) then readpdu_body os2 r else Ok (false, r).

(** [connection::read_cb]; the packet handed to [got_pdu], if any, is returned
    with the new state. *)
Definition read_cb (os1 os2 : read_result) (got_pdu : bytes → Z → bool) (s : Z) (c : connection) :
    outcome (connection * list poll_action * option (bytes * Z)) :=
  VERIFY (c_fd c =? s)%Z;;
  if c_dead c then Ok (c, [], None)
  else
    '(succ, r) ← (if (bool_decide (cb_buf (c_rpdu c) = None)
                      || (cb_solong (c_rpdu c) <? cb_sz (c_rpdu c))%Z)%bool
                  then readpdu os1 os2 (c_rpdu c) else Ok (true, c_rpdu c));
    let c := set_rpdu c r in
    let '(c, acts) := if negb succ then (set_dead c, [DelCallback (c_fd c) CB_RDWR])
                      else (c, []) in
    match cb_buf r with
    | Some b =>
        if (cb_sz r =? cb_solong r)%Z then
          if got_pdu b (cb_sz r) then Ok (set_rpdu c empty_charbuf, acts, Some (b, cb_sz r))
          else Ok (c, acts, Some (b, cb_sz r))
        else Ok (c, acts, None)
    | None => Ok (c, acts, None)
    end.
End reading.

(** ** A whole packet over the wire

    [writes w out w']: successive [writepdu] calls on [w], the operating system
    accepting some prefix of what it is asked to write (or none, [EAGAIN]), put
    the bytes [out] on the wire and lead to [w']. *)
Inductive writes : charbuf → bytes → charbuf → Prop :=
  | writes_stop w : writes w [] w
  | writes_again w w1 out w' :
      cb_solong w ≠ cb_sz w →
      writepdu (WriteError true) w = Ok (true, w1) →
      writes w1 out w' → writes w out w'
  | writes_some w n req w1 out w' :
      cb_solong w ≠ cb_sz w →
      write_request w = Ok req → (0 <= n <= size req)%Z →
      writepdu (Wrote n) w = Ok (true, w1) →
      writes w1 out w' → writes w (take (Z.to_nat n) req ++ out) w'.

(** The reader's side: [readpdu] called once per chunk that arrives. *)
Fixpoint read_chunks (junk : nat → ascii) (chunks : list bytes) (r : charbuf) : outcome charbuf :=
  match chunks with
  | [] => Ok r
  | c :: chunks =>
      '(succ, r) ← readpdu junk (ReadEof false) (ReadBytes c) r;
      if (succ : bool) then read_chunks junk chunks r else Fault VerifyFailed
  end.

Definition receive (junk : nat → ascii) (pre first : bytes) (chunks : list bytes) : outcome charbuf :=
  '(succ, r) ← readpdu junk (ReadBytes pre) (ReadBytes first) empty_charbuf;
  if (succ : bool) then read_chunks junk chunks r else Fault VerifyFailed.

(** What the packet looks like on the wire. *)
Definition on_wire (b : bytes) (sz : Z) : bytes :=
  size_prefix sz ++ drop 4 (take (Z.to_nat sz) b).

(** ** Lemmas *)
Lemma size_size_prefix sz : size (size_prefix sz) = 4%Z.
Proof. done. Qed.

Lemma size_on_wire b sz : (4 <= sz <= size b)%Z → size (on_wire b sz) = sz.
Proof.
  intros. unfold on_wire. rewrite size_app, size_size_prefix. unfold size in *.
  rewrite length_drop, length_take. lia.
Qed.

Lemma take_store_prefix b sz :
  (4 <= sz <= size b)%Z →
  ∃ b', store b 0 (size_prefix sz) = Ok b' ∧ size b' = size b ∧ take (Z.to_nat sz) b' = on_wire b sz.
Proof.
  intros Hsz. unfold size in *.
  exists (size_prefix sz ++ drop 4 b).
  assert (length (size_prefix sz) = 4) as L4 by done.
  split_and!.
  - rewrite <- (take_drop 4 b) at 1. rewrite <- (app_nil_l (take 4 b ++ drop 4 b)).
    rewrite (store_Ok [] (take 4 b) (drop 4 b)); [done|done|].
    rewrite length_take. lia.
  - rewrite length_app, length_drop, L4. lia.
  - unfold on_wire. rewrite take_app, L4, take_ge by lia. f_equal.
    rewrite skipn_firstn_comm. f_equal.
Qed.

(** The buffer of a packet whose first [solong] bytes are on the wire. *)
Definition sending (full : bytes) (w : charbuf) : Prop :=
  (0 <= cb_solong w <= cb_sz w)%Z ∧ size full = cb_sz w ∧
  ∃ b, stamped w = Ok b ∧ take (Z.to_nat (cb_sz w)) b = full ∧ (cb_sz w <= size b)%Z ∧
    (4 <= cb_sz w)%Z.

Lemma stamped_restart b sz b' :
  (4 <= sz <= size b)%Z → store b 0 (size_prefix sz) = Ok b' →
  ∃ b'', store b' 0 (size_prefix sz) = Ok b'' ∧ take (Z.to_nat sz) b'' = take (Z.to_nat sz) b' ∧
    size b'' = size b'.
Proof.
  intros Hsz Hb. destruct (take_store_prefix b sz Hsz) as (b1 & Hb1 & Hs1 & Ht1).
  rewrite Hb in Hb1. injection Hb1 as <-.
  destruct (take_store_prefix b' sz) as (b2 & Hb2 & Hs2 & Ht2); [lia|].
  exists b2. split_and!; [done| |done]. rewrite Ht2, Ht1. unfold on_wire. f_equal.
  rewrite Ht1. unfold on_wire. rewrite drop_app_length'; done.
Qed.

Lemma write_request_sending full w :
  sending full w → write_request w = Ok (drop (Z.to_nat (cb_solong w)) full).
Proof.
  intros (Hl & Hf & b & Hst & Ht & Hsz & H4). unfold write_request. rewrite Hst. run.
  unfold load. rewrite (proj2 (andb_true_iff _ _)) by (split; apply Z.leb_le; lia).
  f_equal. rewrite <- Ht, skipn_firstn_comm. f_equal. lia.
Qed.

Lemma writepdu_sending full w n :
  sending full w → cb_solong w ≠ cb_sz w → (0 <= n <= cb_sz w - cb_solong w)%Z →
  ∃ w', writepdu (Wrote n) w = Ok (true, w') ∧ sending full w' ∧
    cb_solong w' = (cb_solong w + n)%Z ∧ cb_sz w' = cb_sz w ∧
    (n = 0%Z → writepdu (WriteError true) w = Ok (true, w')).
Proof.
  intros Hs Hne Hn. pose proof (write_request_sending _ _ Hs) as Hw. unfold write_request in Hw.
  destruct Hs as (Hl & Hf & b & Hst & Ht & Hsz & H4). unfold writepdu.
  destruct (Z.geb_spec (cb_solong w) 0); [|lia]. run.
  destruct (Z.eqb_spec (cb_solong w) (cb_sz w)); [done|].
  rewrite Hst in *. run. cbn [mbind outcome_bind] in Hw. rewrite Hw. run.
  eexists. split_and!; [done| |done|done|].
  - split_and!; cbn [cb_solong cb_sz]; [lia|lia|done|].
    unfold stamped. cbn [cb_buf cb_solong cb_sz deref]. run.
    destruct (Z.eqb_spec (cb_solong w + n) 0) as [E|E].
    + unfold stamped in Hst. destruct (Z.eqb_spec (cb_solong w) 0); [|lia].
      destruct (cb_buf w) as [b0|]; [|done]. cbn in Hst.
      pose proof (take_store_prefix b0 (cb_sz w)) as Hp.
      assert (4 <= cb_sz w <= size b0)%Z as Hb0.
      { by rewrite <- (store_size _ _ _ _ Hst). }
      destruct (stamped_restart b0 (cb_sz w) b Hb0 Hst) as (b'' & -> & Ht'' & Hs'').
      exists b''. rewrite Ht'', Hs''. done.
    + exists b. done.
  - intros ->. f_equal. f_equal. f_equal. lia.
Qed.

Lemma writes_sending full w out w' :
  writes w out w' → sending full w →
  sending full w' ∧ cb_sz w' = cb_sz w ∧ cb_solong w' = (cb_solong w + size out)%Z ∧
  out = take (length out) (drop (Z.to_nat (cb_solong w)) full).
Proof.
  induction 1 as [w|w w1 out w' Hne Hw Hrest IH|w n req w1 out w' Hne Hreq Hn Hw Hrest IH];
    intros Hs.
  - split_and!; [done|done|unfold size; simpl; lia|done].
  - destruct (writepdu_sending full w 0 Hs Hne) as (w2 & _ & Hs2 & Hl2 & Hz2 & He2).
    { destruct Hs. lia. }
    rewrite He2 in Hw by done. injection Hw as <-. apply IH in Hs2 as (H1 & H2 & H3 & H4).
    split_and!; [done|congruence|lia|]. rewrite H4 at 1. do 2 f_equal. lia.
  - rewrite (write_request_sending _ _ Hs) in Hreq. injection Hreq as <-.
    assert (size (drop (Z.to_nat (cb_solong w)) full) = cb_sz w - cb_solong w)%Z as Hd.
    { destruct Hs as (? & Hf & _). unfold size in *. rewrite length_drop. lia. }
    destruct (writepdu_sending full w n Hs Hne) as (w2 & Hw2 & Hs2 & Hl2 & Hz2 & _); [lia|].
    rewrite Hw2 in Hw. injection Hw as <-. apply IH in Hs2 as (H1 & H2 & H3 & H4).
    assert (length (take (Z.to_nat n) (drop (Z.to_nat (cb_solong w)) full)) = Z.to_nat n) as Hlt.
    { rewrite length_take. unfold size in *. lia. }
    split_and!; [done|congruence|rewrite size_app; unfold size in *; rewrite Hlt; lia|].
    rewrite length_app, Hlt, <- take_take_drop. f_equal.
    rewrite H4 at 1. f_equal. rewrite drop_drop. f_equal. destruct Hs as (? & _). lia.
Qed.

(** Sending a whole packet puts [on_wire] of it on the wire. *)
Lemma writes_on_wire b sz out w' :
  (4 <= sz <= size b)%Z → writes (CharBuf (Some b) sz 0) out w' → cb_solong w' = sz →
  out = on_wire b sz.
Proof.
  intros Hsz Hw Hl. destruct (take_store_prefix b sz Hsz) as (b' & Hst & Hb' & Ht).
  eapply (writes_sending (on_wire b sz)) in Hw as (_ & _ & H3 & H4).
  - rewrite Hl in H3. simpl in H3. rewrite H4. cbn [cb_solong]. change (Z.to_nat 0) with 0.
    rewrite drop_0, take_ge; [done|].
    pose proof (size_on_wire b sz Hsz). unfold size in *. lia.
  - split_and!; simpl; [lia|lia|by apply size_on_wire|].
    exists b'. unfold stamped. simpl. rewrite Hst. split_and!; [done|done|lia|lia].
Qed.

(** The reader's buffer after [k] bytes of the packet [p]. *)
Definition receiving (p : bytes) (k : nat) (r : charbuf) : Prop :=
  cb_sz r = size p ∧ cb_solong r = Z.of_nat k ∧ k ≤ length p ∧
  ∃ rest, cb_buf r = Some (take k p ++ rest) ∧ length rest = length p + 4 - k.

Lemma readpdu_body_receiving p k c r :
  receiving p k r → k + length c ≤ length p → c = take (length c) (drop k p) →
  ∃ r', readpdu_body (ReadBytes c) r = Ok (true, r') ∧ receiving p (k + length c) r'.
Proof.
  intros (Hsz & Hl & Hk & rest & Hb & Hrest) Hle Hc. unfold readpdu_body.
  rewrite Hb. cbn [deref]. run.
  rewrite <- (take_drop (length c) rest).
  rewrite store_Ok;
    [|rewrite Hl; unfold size; rewrite length_take; lia|rewrite length_take; lia].
  run. eexists. split; [done|]. split_and!; cbn [cb_sz cb_solong cb_buf].
  - done.
  - rewrite Hl. unfold size. lia.
  - done.
  - exists (drop (length c) rest). rewrite <- take_take_drop, <- Hc, <- app_assoc.
    split; [done|]. rewrite length_drop. lia.
Qed.

Lemma read_chunks_receiving junk p k chunks r :
  receiving p k r → k ≠ 0 → drop k p = concat chunks →
  ∃ r', read_chunks junk chunks r = Ok r' ∧ receiving p (length p) r'.
Proof.
  intros Hr Hk Hc. revert k r Hr Hk Hc.
  induction chunks as [|c chunks IH]; intros k r Hr Hk Hc; cbn [read_chunks].
  - exists r. split; [done|].
    replace (length p) with k; [done|]. apply (f_equal length) in Hc.
    rewrite length_drop in Hc. destruct Hr as (_ & _ & Hle & _). simpl in Hc. lia.
  - pose proof (f_equal length Hc) as Hlen. simpl in Hlen. rewrite length_drop, length_app in Hlen.
    destruct (readpdu_body_receiving p k c r Hr) as (r1 & E & Hr1).
    { destruct Hr as (_ & _ & Hle & _). lia. }
    { rewrite Hc. simpl. by rewrite take_app_length. }
    unfold readpdu, readpdu_size.
    assert (cb_sz r ≠ 0%Z) as Hnz.
    { destruct Hr as (-> & _ & Hle & _). unfold size. lia. }
    destruct (Z.eqb_spec (cb_sz r) 0); [done|]. cbn [negb]. run. rewrite E. run.
    apply (IH (k + length c)); [done|lia|].
    rewrite <- drop_drop, Hc. simpl. by rewrite drop_app_length.
Qed.

Lemma prefix_size_prefix sz : is_i32 sz → prefix_size (size_prefix sz) = sz.
Proof.
  intros Hsz. unfold prefix_size, size_prefix, enc_uint. rewrite !Z_of_byte_at.
  fold (be32 (u32 sz)). rewrite be32_u32, !i32_u32. by apply i32_small.
Qed.

Lemma receive_on_wire junk b sz pre first chunks :
  (4 < sz <= size b)%Z → (sz <= MAX_PDU)%Z →
  on_wire b sz = pre ++ first ++ concat chunks → length pre = 4 →
  ∃ r rest, receive junk pre first chunks = Ok r ∧
    cb_sz r = sz ∧ cb_solong r = sz ∧ cb_buf r = Some (on_wire b sz ++ rest).
Proof.
  intros Hsz Hmax Hw Hpre. pose proof (size_on_wire b sz ltac:(lia)) as Hs.
  assert (pre = size_prefix sz) as ->.
  { unfold on_wire in Hw. apply app_inj_1 in Hw as [? _]; done. }
  set (p := on_wire b sz) in *. clearbody p. change MAX_PDU with 10485760%Z in *.
  assert (receiving p 4 (CharBuf (Some (size_prefix sz ++ drop 4 (malloc junk (sz + 4)))) sz 4)) as Hr.
  { split_and!; simpl; [done|done|unfold size in *; lia|].
    exists (drop 4 (malloc junk (sz + 4))). split.
    - rewrite Hw, take_app_length'; done.
    - rewrite length_drop. unfold malloc. rewrite length_fresh_bytes. unfold size in *. lia. }
  unfold receive, readpdu, readpdu_size. cbn [cb_sz empty_charbuf cb_buf].
  change (0 =? 0)%Z with true. cbn [negb]. rewrite size_size_prefix.
  change (4 =? 4)%Z with true. cbn [negb]. rewrite prefix_size_prefix by lia.
  destruct (Z.gtb_spec sz MAX_PDU) as [Hgt|_]; [change MAX_PDU with 10485760%Z in Hgt; lia|].
  rewrite bool_decide_true by done. run. destruct (Z.geb_spec (sz + 4) 0); [|lia]. run.
  assert (store (malloc junk (sz + 4)) 0 (size_prefix sz)
          = Ok (size_prefix sz ++ drop 4 (malloc junk (sz + 4)))) as ->.
  { assert (length (malloc junk (sz + 4)) = Z.to_nat (sz + 4)) as Hlm
      by (unfold malloc; rewrite length_fresh_bytes; lia).
    rewrite <- (take_drop 4 (malloc junk (sz + 4))) at 1.
    rewrite <- (app_nil_l (take 4 _ ++ _)), (store_Ok []); [done|done|].
    rewrite length_take, Hlm, Hpre. lia. }
  run.
  destruct (readpdu_body_receiving p 4 first _ Hr) as (r1 & -> & Hr1).
  { rewrite Hw, !length_app, Hpre. lia. }
  { rewrite Hw, drop_app_length' by done. by rewrite take_app_length. }
  run. destruct (read_chunks_receiving junk p (4 + length first) chunks r1 Hr1)
    as (r & Hrc & Hfin); [lia| |].
  { rewrite <- drop_drop, Hw, drop_app_length' by done. by rewrite drop_app_length. }
  destruct Hfin as (F1 & F2 & _ & rest & F3 & _).
  exists r, rest. rewrite Hrc, F1, F2, F3, firstn_all. split_and!; try done.
Qed.

(** ** Properties *)

(** C19: Framing: a packet of [sz] bytes, more than its size word and at most MAX_PDU
    (10 MB), sent through [writepdu] in any pieces the operating system accepts, is
    handed up by [readpdu] whole if the first read brings exactly the four bytes of the
    size word (of fewer it closes the connection) and the others bring the rest in any
    chunks: same size, the size word followed by the sender's bytes. *)
Theorem pdu_framing junk b sz out w' pre first chunks :
  (4 < sz <= size b)%Z → (sz <= MAX_PDU)%Z →
  writes (CharBuf (Some b) sz 0) out w' → cb_solong w' = sz →
  out = pre ++ first ++ concat chunks → length pre = 4 →
  ∃ r rest, receive junk pre first chunks = Ok r ∧ cb_sz r = sz ∧ cb_solong r = sz ∧
    cb_buf r = Some (size_prefix sz ++ drop 4 (take (Z.to_nat sz) b) ++ rest).
Proof.
  intros Hsz Hmax Hw Hl Hout Hpre.
  apply writes_on_wire in Hw; [|lia|done]. subst out.
  destruct (receive_on_wire junk b sz pre first chunks Hsz Hmax Hout Hpre)
    as (r & rest & H1 & H2 & H3 & H4).
  exists r, rest. rewrite H4. unfold on_wire. by rewrite <- app_assoc.
Qed.

Lemma pdu_framing_witness :
  ∃ r rest, receive (λ _, NUL) (size_prefix 6) (lit "y") [lit "z"] = Ok r ∧
    cb_sz r = 6%Z ∧ cb_solong r = 6%Z ∧
    cb_buf r = Some (size_prefix 6 ++ lit "yz" ++ rest).
Proof.
  apply (pdu_framing (λ _, NUL) (lit "0000yz") 6
           (size_prefix 6 ++ lit "yz") (CharBuf (Some (size_prefix 6 ++ lit "yz")) 6 6)).
  - vm_compute. done.
  - vm_compute. done.
  - apply (writes_some (CharBuf (Some (lit "0000yz")) 6 0) 3 (size_prefix 6 ++ lit "yz")
             (CharBuf (Some (size_prefix 6 ++ lit "yz")) 6 3)
             (drop 3 (size_prefix 6 ++ lit "yz"))).
    1-4: vm_compute; done.
    apply (writes_again _ (CharBuf (Some (size_prefix 6 ++ lit "yz")) 6 3)).
    1-2: vm_compute; done.
    apply (writes_some (CharBuf (Some (size_prefix 6 ++ lit "yz")) 6 3) 3
             (drop 3 (size_prefix 6 ++ lit "yz"))
             (CharBuf (Some (size_prefix 6 ++ lit "yz")) 6 6) []).
    1-4: vm_compute; done.
    apply writes_stop.
  - done.
  - done.
  - done.
Defined.

(** A size word from the peer is checked against the largest packet only: with
    a size below four, the block is smaller than what [readpdu] then asks the
    socket for, and a body longer than the announced size is stored outside it. *)
Theorem readpdu_small_size_overflow junk sz p :
  (0 <= sz < 4)%Z → (sz < size p)%Z →
  readpdu junk (ReadBytes (size_prefix sz)) (ReadBytes p) empty_charbuf = Fault OutOfBounds.
Proof.
  intros Hsz Hp. unfold readpdu, readpdu_size. cbn [cb_sz empty_charbuf cb_buf].
  change (0 =? 0)%Z with true. cbn [negb]. rewrite size_size_prefix.
  change (4 =? 4)%Z with true. cbn [negb]. rewrite prefix_size_prefix by lia.
  destruct (Z.gtb_spec sz MAX_PDU) as [Hgt|_]; [change MAX_PDU with 10485760%Z in Hgt; lia|].
  rewrite bool_decide_true by done. run. destruct (Z.geb_spec (sz + 4) 0); [|lia]. run.
  assert (size (malloc junk (sz + 4)) = sz + 4)%Z as Hm
    by (unfold size, malloc; rewrite length_fresh_bytes; lia).
  destruct (store (malloc junk (sz + 4)) 0 (size_prefix sz)) as [b|f] eqn:E.
  - run. apply store_size in E. unfold readpdu_body. cbn [cb_buf deref cb_solong cb_sz]. run.
    unfold store. destruct (Z.leb_spec (4 + size p) (size b)); [lia|].
    by rewrite andb_false_r.
  - unfold store in E. rewrite size_size_prefix, Hm in E.
    destruct (Z.leb_spec (0 + 4) (sz + 4)); [done|lia].
Qed.

Lemma readpdu_small_size_overflow_witness :
  readpdu (λ _, NUL) (ReadBytes (size_prefix 0)) (ReadBytes (lit "x")) empty_charbuf
  = Fault OutOfBounds.
Proof. apply readpdu_small_size_overflow; vm_compute; done. Defined.
