(* ===== verification/ScopedLock.v ===== *)
(** * Scoped locks (rpc/slock.h)

    A [ScopedLock] locks its mutex where it is declared and unlocks it where its block is
    left, by whatever way.  Bodies of methods as statements with blocks and early
    returns, threads that run them one statement at a time, and the mutex by its
    holder.  The other files run a critical section as one function; the theorem here is
    that nothing is lost by that. *)

From stdpp Require Import base tactics numbers list relations.
From Stdlib Require Import ZArith Lia.
From S2P Require Import Prelude CxxString Marshall Connection.

(** [ScopedLock::ScopedLock] in thread [t]: [None] while another thread has the mutex, and
    for ever if it is the thread itself. *)
Definition scoped_lock (t : nat) (m : option nat) : option (option nat) :=
  match m with None => Some (Some t) | Some _ => None end.

(** [ScopedLock::~ScopedLock] *)
Definition scoped_unlock (t : nat) (m : option nat) : outcome (option nat) :=
  VERIFY (bool_decide (m = Some t));; Ok None.

Section slock.
Context {St L : Type}.

(** Statements over the state that the mutex guards and the locals of a thread;
    [Scoped s] is a block that begins with a [ScopedLock]. *)
Inductive stmt :=
  | Local (f : L → L)
  | Access (f : St → L → St * L)
  | Seq (s1 s2 : stmt)
  | If (b : L → bool) (s1 s2 : stmt)
  | While (b : L → bool) (s : stmt)
  | Return
  | Scoped (s : stmt).

(** What is left of the enclosing blocks: a statement to go on with, a destructor. *)
Inductive frame := FSeq (s : stmt) | FUnlock.

(** A thread runs a statement, goes on after one, or leaves its blocks to return. *)
Inductive control := Run (s : stmt) | Go | Unwind.
Record thread := Thread { t_ctl : control; t_stack : list frame; t_loc : L }.
Record tconf := Config { c_mutex : option nat; c_state : St; c_thread : thread }.

(** One step of thread [t]; [None] when it waits or has returned. *)
Definition stmt_step (t : nat) (c : tconf) : option (outcome tconf) :=
  let 'Config m st (Thread ctl k l) := c in
  let cont ctl k l := Some (Ok (Config m st (Thread ctl k l))) in
  match ctl, k with
  | Run (Local f), _ => cont Go k (f l)
  | Run (Access f), _ => let '(st', l') := f st l in Some (Ok (Config m st' (Thread Go k l')))
  | Run (Seq s1 s2), _ => cont (Run s1) (FSeq s2 :: k) l
  | Run (If b s1 s2), _ => cont (Run (if b l then s1 else s2)) k l
  | Run (While b s), _ => if b l then cont (Run s) (FSeq (While b s) :: k) l else cont Go k l
  | Run Return, _ => cont Unwind k l
  | Run (Scoped s), _ => m' ← scoped_lock t m; Some (Ok (Config m' st (Thread (Run s) (FUnlock :: k) l)))
  | Go, FSeq s :: k => cont (Run s) k l
  | Unwind, FSeq _ :: k => cont Unwind k l
  | (Go | Unwind) as ctl, FUnlock :: k => Some (m' ← scoped_unlock t m; Ok (Config m' st (Thread ctl k l)))
  | (Go | Unwind), [] => None
  end.

(** The threads of a program. *)
Record lock_sys := System { s_mutex : option nat; s_state : St; s_threads : list thread }.

Inductive sys_step : lock_sys → lock_sys → Prop :=
  | step_thread t th m st ths m' st' th' :
      ths !! t = Some th → stmt_step t (Config m st th) = Some (Ok (Config m' st' th')) →
      sys_step (System m st ths) (System m' st' (<[t := th']> ths)).

(** The same with each critical section in one piece: a thread steps while it does not
    hold the mutex, or runs from the lock to the unlock. *)
Definition solo (t : nat) (c c' : tconf) : Prop := stmt_step t c = Some (Ok c').

Inductive astep : lock_sys → lock_sys → Prop :=
  | astep_local t th st ths st' th' :
      ths !! t = Some th → stmt_step t (Config None st th) = Some (Ok (Config None st' th')) →
      astep (System None st ths) (System None st' (<[t := th']> ths))
  | astep_section t th st ths st1 th1 st' th' :
      ths !! t = Some th → rtc (solo t) (Config None st th) (Config (Some t) st1 th1) →
      solo t (Config (Some t) st1 th1) (Config None st' th') →
      astep (System None st ths) (System None st' (<[t := th']> ths)).

(** A run in which the threads step in the given order. *)
Fixpoint sched (ts : list nat) (σ : lock_sys) : option lock_sys :=
  match ts with
  | [] => Some σ
  | t :: ts =>
      th ← s_threads σ !! t;
      match stmt_step t (Config (s_mutex σ) (s_state σ) th) with
      | Some (Ok (Config m st th)) => sched ts (System m st (<[t := th]> (s_threads σ)))
      | _ => None
      end
  end.

Lemma sched_run ts σ σ' : sched ts σ = Some σ' → rtc sys_step σ σ'.
Proof.
  revert σ. induction ts as [|t ts IH]; intros [m st ths]; cbn [sched s_threads s_mutex s_state]; [by intros [= <-]|].
  intros (th & Ht & E)%bind_Some. destruct (stmt_step t _) as [[[m' st' th']|]|] eqn:Es; try done.
  eapply rtc_l; [by apply (step_thread t th)|by apply IH].
Qed.

(** ** Programs that keep to the lock

    The state is accessed inside blocks only, and no block is inside another. *)
Fixpoint guarded (inside : bool) (s : stmt) : bool :=
  match s with
  | Local _ | Return => true
  | Access _ => inside
  | Seq s1 s2 | If _ s1 s2 => guarded inside s1 && guarded inside s2
  | While _ s => guarded inside s
  | Scoped s => negb inside && guarded true s
  end.

Definition control_guarded (inside : bool) (c : control) : bool := match c with Run s => guarded inside s | _ => true end.
Fixpoint stack_guarded (inside : bool) (k : list frame) : bool :=
  match k with
  | [] => negb inside
  | FSeq s :: k => guarded inside s && stack_guarded inside k
  | FUnlock :: k => inside && stack_guarded false k
  end.
(** The thread is inside a block, or outside. *)
Definition well_nested (inside : bool) (th : thread) : bool :=
  control_guarded inside (t_ctl th) && stack_guarded inside (t_stack th).

Lemma inside_not_outside th : well_nested true th = true → well_nested false th = true → False.
Proof.
  destruct th as [ctl k l]. unfold well_nested. simpl. intros [_ H1]%andb_prop [_ H2]%andb_prop. clear ctl l.
  induction k as [|[s|] k IH]; simpl in *; [done| |done]. apply andb_prop in H1 as [_ H1], H2 as [_ H2]. auto.
Qed.

(** A step outside the blocks locks the mutex, or has to do with the locals only. *)
Lemma outside_step t m st th m' st' th' :
  well_nested false th = true → stmt_step t (Config m st th) = Some (Ok (Config m' st' th')) →
  (m = None ∧ m' = Some t ∧ st' = st ∧ well_nested true th' = true) ∨
  (m' = m ∧ st' = st ∧ well_nested false th' = true ∧
   ∀ m0 st0, stmt_step t (Config m0 st0 th) = Some (Ok (Config m0 st0 th'))).
Proof.
  destruct th as [ctl k l]. unfold well_nested. simpl. intros [H1 H2]%andb_prop E.
  destruct ctl as [[f|f|s1 s2|b s1 s2|b s| |s]| |]; simpl in *;
    try (apply andb_prop in H1 as [H1 H1']); try done.
  - injection E as <- <- <-. right. simpl. by rewrite H2.
  - injection E as <- <- <-. right. simpl. by rewrite H1, H1', H2.
  - injection E as <- <- <-. right. simpl. rewrite H2. by destruct (b l); rewrite ?H1, ?H1'.
  - right. destruct (b l); injection E as <- <- <-; simpl; by rewrite ?H1, ?H2.
  - injection E as <- <- <-. right. simpl. by rewrite H2.
  - left. destruct m; [done|]. simpl in E. injection E as <- <- <-. simpl. by rewrite H1, H2.
  - destruct k as [|[s|] k]; [done| |done]. simpl in H2. apply andb_prop in H2 as [H2 H3].
    injection E as <- <- <-. right. simpl. by rewrite H2, H3.
  - destruct k as [|[s|] k]; [done| |done]. simpl in H2. apply andb_prop in H2 as [H2 H3].
    injection E as <- <- <-. right. simpl. by rewrite H3.
Qed.

(** A step inside a block succeeds; it stays there or unlocks the mutex. *)
Lemma inside_step t st th : well_nested true th = true →
  ∃ m' st' th', stmt_step t (Config (Some t) st th) = Some (Ok (Config m' st' th')) ∧
    (m' = Some t ∧ well_nested true th' = true ∨ m' = None ∧ st' = st ∧ well_nested false th' = true).
Proof.
  destruct th as [ctl k l]. unfold well_nested. simpl. intros [H1 H2]%andb_prop.
  destruct ctl as [[f|f|s1 s2|b s1 s2|b s| |s]| |]; simpl in *; try (apply andb_prop in H1 as [H1 H1']); try done.
  - do 3 eexists. split; [done|]. left. simpl. by rewrite H2.
  - destruct (f st l) as [st' l']. do 3 eexists. split; [done|]. left. simpl. by rewrite H2.
  - do 3 eexists. split; [done|]. left. simpl. by rewrite H1, H1', H2.
  - do 3 eexists. split; [done|]. left. simpl. rewrite H2. by destruct (b l); rewrite ?H1, ?H1'.
  - destruct (b l); do 3 eexists; (split; [done|]); left; simpl; by rewrite ?H1, ?H2.
  - do 3 eexists. split; [done|]. left. simpl. by rewrite H2.
  - destruct k as [|[s|] k]; [done| |]; simpl in H2.
    + apply andb_prop in H2 as [H2 H3]. do 3 eexists. split; [done|]. left. simpl. by rewrite H2, H3.
    + unfold scoped_unlock. rewrite bool_decide_true by done. do 3 eexists. split; [done|]. right. by split_and!.
  - destruct k as [|[s|] k]; [done| |]; simpl in H2.
    + apply andb_prop in H2 as [H2 H3]. do 3 eexists. split; [done|]. left. simpl. by rewrite H3.
    + unfold scoped_unlock. rewrite bool_decide_true by done. do 3 eexists. split; [done|]. right. by split_and!.
Qed.

Lemma outside_no_fault t c : well_nested false (c_thread c) = true → stmt_step t c ≠ Some (Fault VerifyFailed).
Proof.
  destruct c as [m st [ctl k l]]. unfold well_nested. simpl. intros [H1 H2]%andb_prop.
  destruct ctl as [[f|f|s1 s2|b s1 s2|b s| |s]| |]; simpl in *; try done; [by destruct (b l)|by destruct m|..];
    by destruct k as [|[s|] k].
Qed.

(** A thread is inside a block when it has a destructor to run. *)
Lemma unlock_in_stack inside th : well_nested inside th = true → FUnlock ∈ t_stack th ↔ inside = true.
Proof.
  destruct th as [ctl k l]. unfold well_nested. simpl. intros [_ H]%andb_prop. clear ctl l.
  induction k as [|[s|] k IH]; simpl in *.
  - rewrite elem_of_nil. by destruct inside.
  - apply andb_prop in H as [_ H]. rewrite elem_of_cons, IH by done. naive_solver.
  - apply andb_prop in H as [-> _]. rewrite elem_of_cons. naive_solver.
Qed.

(** ** Interleavings *)

(** The holder of the mutex is the one thread inside a block. *)
Definition sys_ok (σ : lock_sys) : Prop :=
  ∀ t th, s_threads σ !! t = Some th → well_nested (bool_decide (s_mutex σ = Some t)) th = true.

Lemma step_ok σ σ' : sys_ok σ → sys_step σ σ' → sys_ok σ'.
Proof.
  intros Hok Hs. destruct Hs as [t th m st ths m' st' th' Ht E]. intros u thu. simpl.
  pose proof (Hok t th Ht) as Hth. simpl in Hth. case_bool_decide as Hm.
  - subst m. destruct (inside_step t st th Hth) as (m1 & st1 & th1 & E1 & Hc). rewrite E1 in E. injection E as -> -> ->.
    destruct (decide (u = t)) as [->|Hne].
    + rewrite list_lookup_insert_eq by (by eapply lookup_lt_Some). intros [= <-]. destruct Hc as [[-> ?]|(-> & _ & ?)]; [by rewrite bool_decide_true|done].
    + rewrite list_lookup_insert_ne by done. intros Hu. pose proof (Hok u thu Hu) as Hthu. simpl in Hthu.
      rewrite bool_decide_false in Hthu by congruence. destruct Hc as [[-> _]|(-> & _ & _)]; [|done]. rewrite bool_decide_false by congruence. done.
  - destruct (outside_step t m st th m' st' th' Hth E) as [(-> & -> & -> & Hth')|(-> & -> & Hth' & _)].
    + destruct (decide (u = t)) as [->|Hne].
      * rewrite list_lookup_insert_eq by (by eapply lookup_lt_Some). intros [= <-]. by rewrite bool_decide_true.
      * rewrite list_lookup_insert_ne by done. intros Hu. pose proof (Hok u thu Hu) as Hthu. simpl in Hthu.
        rewrite bool_decide_false by congruence. done.
    + destruct (decide (u = t)) as [->|Hne].
      * rewrite list_lookup_insert_eq by (by eapply lookup_lt_Some). intros [= <-]. by rewrite bool_decide_false.
      * rewrite list_lookup_insert_ne by done. apply Hok.
Qed.

(** Where an interleaved run is, compared with the runs in whole sections: there too, or
    the holder of the mutex is on its way from a state of such a run. *)
Definition tracks (σ0 σ : lock_sys) : Prop :=
  match s_mutex σ with
  | None => rtc astep σ0 σ
  | Some t => ∃ th0 st0 th, s_threads σ !! t = Some th ∧
      rtc astep σ0 (System None st0 (<[t := th0]> (s_threads σ))) ∧
      rtc (solo t) (Config None st0 th0) (Config (Some t) (s_state σ) th)
  end.

Lemma tracks_step σ0 σ σ' : sys_ok σ → tracks σ0 σ → sys_step σ σ' → tracks σ0 σ'.
Proof.
  intros Hok Htr Hs. destruct Hs as [t th m st ths m' st' th' Ht E]. unfold tracks in *. cbn [s_mutex s_threads s_state] in *.
  pose proof (Hok t th Ht) as Hth. simpl in Hth. pose proof (lookup_lt_Some _ _ _ Ht) as Hlt. case_bool_decide as Hm.
  - subst m. destruct Htr as (th0 & st0 & th2 & Ht2 & Ha & Hsolo). rewrite Ht in Ht2. injection Ht2 as <-.
    destruct (inside_step t st th Hth) as (m1 & st1 & th1 & E1 & Hc). pose proof E1 as E2. rewrite E1 in E. injection E as -> -> ->.
    destruct Hc as [[-> _]|(-> & _ & _)].
    + exists th0, st0, th'. rewrite list_lookup_insert_eq, list_insert_insert_eq by done. split_and!; [done..|].
      eapply rtc_r; [done|exact E2].
    + eapply rtc_r; [exact Ha|]. assert (<[t := th']> ths = <[t := th']> (<[t := th0]> ths)) as -> by (by rewrite list_insert_insert_eq).
      eapply astep_section; [by rewrite list_lookup_insert_eq|done|exact E2].
  - destruct (outside_step t m st th m' st' th' Hth E) as [(-> & -> & -> & Hth')|(-> & -> & Hth' & Hany)].
    + exists th, st, th'. rewrite list_lookup_insert_eq, list_insert_insert_eq, list_insert_id by done. split_and!; [done..|].
      apply rtc_once. exact E.
    + destruct m as [u|].
      * destruct Htr as (th0 & st0 & thu & Hu & Ha & Hsolo). assert (u ≠ t) as Hne by congruence.
        exists th0, st0, thu. rewrite list_lookup_insert_ne by done. split_and!; [done| |done].
        rewrite list_insert_insert_ne by done. eapply rtc_r; [exact Ha|]. apply (astep_local t th); [|apply Hany].
        by rewrite list_lookup_insert_ne.
      * eapply rtc_r; [exact Htr|]. by apply (astep_local t th).
Qed.

(** The threads at their start. *)
Definition start_system (st : St) (progs : list (stmt * L)) : lock_sys :=
  System None st ((λ '(s, l), Thread (Run s) [] l) <$> progs).

Lemma start_ok st progs : Forall (λ p, guarded false p.1 = true) progs → sys_ok (start_system st progs).
Proof.
  intros Hg t th. simpl. rewrite list_lookup_fmap. intros ([s l] & Hp & ->)%fmap_Some. unfold well_nested. simpl.
  rewrite Forall_forall in Hg. assert (guarded false s = true) as -> by (apply (Hg (s, l)); by eapply list_elem_of_lookup_2). done.
Qed.

Lemma run_ok σ0 σ : sys_ok σ0 → s_mutex σ0 = None → rtc sys_step σ0 σ → sys_ok σ ∧ tracks σ0 σ.
Proof.
  intros Hok Hm Hr. assert (tracks σ0 σ0) as Htr by (unfold tracks; by rewrite Hm).
  assert (∀ σ1, sys_ok σ1 → tracks σ0 σ1 → rtc sys_step σ1 σ → sys_ok σ ∧ tracks σ0 σ) as H; [|by apply (H σ0)].
  clear. intros σ1 Hok Htr Hr. induction Hr as [|x y z Hxy Hyz IH]; [done|].
  apply IH; [by eapply step_ok|by eapply tracks_step].
Qed.
End slock.
Arguments stmt : clear implicits.
Arguments thread : clear implicits.
Arguments lock_sys : clear implicits.

(** ** The property *)

(** Threads whose methods access the state of an object only inside blocks that begin
    with a ScopedLock, in any interleaving of their statements.  Whenever the mutex is
    free, the state and the threads are as in a run in which each critical section is
    one step; when it is not, exactly its holder is inside a block.  A destructor of a
    ScopedLock never finds the mutex in other hands, and a thread that has left its blocks,
    by their end or by a return from wherever inside, does not hold it. *)
Theorem scoped_sections_atomic {St L} (st : St) (progs : list (stmt St L * L)) σ :
  Forall (λ p, guarded false p.1 = true) progs → rtc sys_step (start_system st progs) σ →
  (s_mutex σ = None → rtc astep (start_system st progs) σ) ∧
  (∀ t th, s_threads σ !! t = Some th →
     stmt_step t (Config (s_mutex σ) (s_state σ) th) ≠ Some (Fault VerifyFailed) ∧
     (s_mutex σ = Some t ↔ FUnlock ∈ t_stack th)).
Proof.
  intros Hg Hr. destruct (run_ok (start_system st progs) σ (start_ok st progs Hg) eq_refl Hr) as [Hok Htr]. split.
  - intros Hm. unfold tracks in Htr. by rewrite Hm in Htr.
  - intros t th Ht. pose proof (Hok t th Ht) as Hth. case_bool_decide as Hm.
    + rewrite Hm. split; [|by rewrite (unlock_in_stack _ _ Hth)].
      destruct (inside_step t (s_state σ) th Hth) as (? & ? & ? & -> & _). done.
    + split; [by apply outside_no_fault|]. rewrite (unlock_in_stack _ _ Hth). naive_solver.
Qed.

(** ** connection::closeconn

    The body as it is written, with its inner block and its early return.  The locals
    are what the test of [dead_] read and the calls of the poll manager. *)
Definition closeconn_body (fd : Z) : stmt connection (bool * list poll_action) :=
  Seq (Scoped (Seq (Access (λ c l, (c, (c_dead c, l.2))))
                 (If (λ l, negb l.1) (Access (λ c l, (set_dead c, l))) Return)))
    (Local (λ l, (l.1, l.2 ++ [BlockRemoveFd fd]))).

(** Alone it does what [closeconn] says. *)
Lemma closeconn_body_spec t c : ∃ ctl l,
  rtc (solo t) (Config None c (Thread (Run (closeconn_body (c_fd c))) [] (false, [])))
    (Config None (closeconn c).1 (Thread ctl [] l)) ∧ (ctl = Go ∨ ctl = Unwind) ∧ l.2 = (closeconn c).2.
Proof.
  unfold closeconn, closeconn_body. destruct (c_dead c) eqn:Hd.
  - exists Unwind, (true, []). split; [|by auto].
    do 3 (eapply rtc_l; [reflexivity|]). eapply rtc_l; [unfold solo; simpl; rewrite Hd; reflexivity|].
    do 3 (eapply rtc_l; [reflexivity|]). eapply rtc_l; [unfold solo; simpl; unfold scoped_unlock; rewrite bool_decide_true by done; reflexivity|].
    eapply rtc_l; [reflexivity|]. apply rtc_refl.
  - exists Go, (false, [BlockRemoveFd (c_fd c)]). split; [|by auto].
    do 3 (eapply rtc_l; [reflexivity|]). eapply rtc_l; [unfold solo; simpl; rewrite Hd; reflexivity|].
    do 3 (eapply rtc_l; [reflexivity|]). eapply rtc_l; [unfold solo; simpl; unfold scoped_unlock; rewrite bool_decide_true by done; reflexivity|].
    do 2 (eapply rtc_l; [reflexivity|]). apply rtc_refl.
Qed.

(** Two threads close a connection; the second waits and finds it dead. *)
Definition ex_open : connection := Connection 7 false empty_charbuf empty_charbuf 1 0 0 2 0.
Definition ex_closers : list (stmt connection (bool * list poll_action) * (bool * list poll_action)) :=
  [(closeconn_body 7, (false, [])); (closeconn_body 7, (false, []))].
Definition ex_closed : lock_sys connection (bool * list poll_action) :=
  System None (set_dead ex_open)
    [Thread Go [] (false, [BlockRemoveFd 7]); Thread Unwind [] (true, [])].
Lemma ex_closers_run : rtc sys_step (start_system ex_open ex_closers) ex_closed.
Proof. apply (sched_run [0; 1; 0; 0; 0; 0; 0; 0; 0; 1; 0; 1; 0; 1; 1; 1; 1; 1; 1]). reflexivity. Qed.

Lemma scoped_sections_atomic_witness : rtc astep (start_system ex_open ex_closers) ex_closed.
Proof.
  apply (scoped_sections_atomic ex_open ex_closers ex_closed); [|apply ex_closers_run|reflexivity].
  repeat constructor.
Defined.
