(* ===== verification/ConnRefs.v ===== *)
(** * Counting the references to connection objects (rpc/connection.cc)

    The heap of connection objects with the list of all the references to them: [ls] those
    that keep a connection open, of the listener, and [rs] the others.  What incref,
    decref and closeconn do to the count, for the parts that share connections. *)

From stdpp Require Import base tactics numbers list gmap.
From Stdlib Require Import ZArith Lia.
From S2P Require Import Prelude CxxString Marshall Connection.

(** ** The values of a map *)
Definition vals {K} `{Countable K} {A} (m : gmap K A) : list A := (map_to_list m).*2.

Section vals.
Context {K A : Type} `{Countable K}.
Implicit Types m : gmap K A.

Lemma elem_of_vals m a : a ∈ vals m ↔ ∃ k, m !! k = Some a.
Proof.
  unfold vals. rewrite list_elem_of_fmap. split.
  - intros ([k b] & -> & Hk%elem_of_map_to_list). eauto.
  - intros [k Hk]. exists (k, a). by rewrite elem_of_map_to_list.
Qed.
Lemma vals_empty : vals (∅ : gmap K A) = [].
Proof. done. Qed.
Lemma vals_insert m k a : m !! k = None → vals (<[k := a]> m) ≡ₚ a :: vals m.
Proof. intros Hk. unfold vals. by rewrite map_to_list_insert. Qed.
Lemma vals_delete m k a : m !! k = Some a → vals m ≡ₚ a :: vals (delete k m).
Proof. intros Hk. rewrite <- (vals_insert _ k) by apply lookup_delete_eq. by rewrite insert_delete_id. Qed.
Lemma vals_insert_delete m k a : vals (<[k := a]> m) ≡ₚ a :: vals (delete k m).
Proof. rewrite <- insert_delete_eq. apply vals_insert, lookup_delete_eq. Qed.
Lemma vals_fmap (g : A → A) m : vals (g <$> m) = g <$> vals m.
Proof.
  unfold vals. rewrite map_to_list_fmap, <- !list_fmap_compose. apply list_fmap_ext. by intros i [k a].
Qed.
Lemma vals_keys m (ks : list K) : ks ≡ₚ (map_to_list m).*1 → omap (m !!.) ks ≡ₚ vals m.
Proof.
  intros ->. unfold vals. assert (∀ k a, (k, a) ∈ map_to_list m → m !! k = Some a) as Hin by (by intros k a ?%elem_of_map_to_list).
  induction (map_to_list m) as [|[k a] l IH]; [done|]. csimpl. rewrite (Hin k a) by (by left). rewrite IH; [done|].
  intros k' a' Hk. apply Hin. by right.
Qed.
End vals.

(** ** Counted heaps *)
Record ref_counted (h : conn_heap) (refs : list nat) : Prop := Counted {
  ct_in c : c ∈ refs → is_Some (h !! c);
  ct_conn c x : h !! c = Some x →
    c ∈ refs ∧ c_refno x = Z.of_nat (count_occ Nat.eq_dec refs c) ∧ cb_buf (c_wpdu x) = None }.

#[global] Instance ref_counted_proper : Proper ((=) ==> (≡ₚ) ==> iff) ref_counted.
Proof.
  assert (∀ h refs refs', refs ≡ₚ refs' → ref_counted h refs → ref_counted h refs') as Hw.
  { intros h refs refs' Hp [Hin Hc]. constructor.
    - intros c. rewrite <- Hp. apply Hin.
    - intros c x Hx. destruct (Hc c x Hx) as (? & -> & ?). split_and!; [by rewrite <- Hp| |done].
      by rewrite (proj1 (Permutation_count_occ Nat.eq_dec _ _) Hp c). }
  intros h ? <- r r' Hp. split; apply Hw; done.
Qed.

(** The same objects, less some, up to the counts. *)
Definition descends (h h' : conn_heap) : Prop := ∀ c x', h' !! c = Some x' →
  ∃ x, h !! c = Some x ∧ c_fd x' = c_fd x ∧ (c_dead x = true → c_dead x' = true) ∧
    c_tv_sec x' = c_tv_sec x ∧ c_tv_usec x' = c_tv_usec x.

#[global] Instance descends_preorder : PreOrder descends.
Proof.
  constructor.
  - intros h c x. eauto 10.
  - intros h1 h2 h3 H1 H2 c x3 H3. destruct (H2 c x3 H3) as (x2 & E2 & -> & Hd2 & -> & ->).
    destruct (H1 c x2 E2) as (x1 & E1 & -> & Hd1 & -> & ->). exists x1. auto 10.
Qed.

Lemma ref_counted_incref c h refs : ref_counted h refs → c ∈ refs →
  ∃ x, h !! c = Some x ∧ heap_incref c h = Ok (<[c := incref x]> h) ∧ ref_counted (<[c := incref x]> h) (c :: refs).
Proof.
  intros [Hin Hc] Hr. destruct (Hin c Hr) as [x Hx]. exists x. unfold heap_incref, heap_at. rewrite Hx.
  split_and!; [done..|]. constructor.
  - intros c'. destruct (decide (c' = c)) as [->|]; [by rewrite lookup_insert_eq|].
    rewrite lookup_insert_ne by done. intros [->|?]%elem_of_cons; [done|auto].
  - intros c' x'. destruct (decide (c' = c)) as [->|Hne].
    + rewrite lookup_insert_eq. intros [= <-]. destruct (Hc c x Hx) as (? & Hn & ?). split_and!; [by left| |done].
      rewrite count_occ_cons_eq by done. simpl. lia.
    + rewrite lookup_insert_ne by done. intros Hx'. destruct (Hc c' x' Hx') as (? & ? & ?).
      rewrite count_occ_cons_neq by done. split_and!; [by right|done..].
Qed.

(** A reference less: the object goes with its last one, when it is dead. *)
Lemma ref_counted_decref c h refs : ref_counted h (c :: refs) →
  (∀ x, h !! c = Some x → c ∈ refs ∨ c_dead x = true) →
  ∃ h', heap_decref c h = Ok h' ∧ ref_counted h' refs ∧ descends h h'.
Proof.
  intros [Hin Hc] Hd. destruct (Hin c) as [x Hx]; [by left|]. specialize (Hd x Hx).
  destruct (Hc c x Hx) as (_ & Hn & Hw). rewrite count_occ_cons_eq in Hn by done.
  unfold heap_decref, heap_at. rewrite Hx. run. unfold decref. cbn [c_refno set_refno c_dead].
  rewrite Z.geb_leb. destruct (Z.leb_spec 0 (c_refno x - 1)); [|lia]. run.
  assert (∀ c' x', c' ≠ c → h !! c' = Some x' →
    c' ∈ refs ∧ c_refno x' = Z.of_nat (count_occ Nat.eq_dec refs c') ∧ cb_buf (c_wpdu x') = None) as Hoth.
  { intros c' x' Hne Hx'. destruct (Hc c' x' Hx') as (Hr & Hn' & ?). rewrite count_occ_cons_neq in Hn' by done.
    split_and!; [|done..]. by apply elem_of_cons in Hr as [->|]. }
  destruct (Z.eqb_spec (c_refno x - 1) 0) as [Hz|Hz].
  - assert (c ∉ refs) as Hni.
    { rewrite list_elem_of_In. apply (count_occ_not_In Nat.eq_dec). lia. }
    destruct Hd as [?|Hd]; [done|]. rewrite Hd. unfold destroy. cbn [c_dead set_refno c_wpdu]. rewrite Hd. run.
    rewrite bool_decide_true by done. run. eexists. split_and!; [done| |].
    + constructor.
      * intros c' Hc'. rewrite lookup_delete_ne by (intros ->; done). apply Hin. by right.
      * intros c' x' [Hne Hx']%lookup_delete_Some. by apply Hoth.
    + intros c' x' [Hne Hx']%lookup_delete_Some. eauto 10.
  - eexists. split_and!; [done| |].
    + assert (c ∈ refs). { apply list_elem_of_In, (count_occ_In Nat.eq_dec). lia. }
      constructor.
      * intros c' Hc'. destruct (decide (c' = c)) as [->|]; [by rewrite lookup_insert_eq|].
        rewrite lookup_insert_ne by done. apply Hin. by right.
      * intros c' x'. destruct (decide (c' = c)) as [->|]; [|rewrite lookup_insert_ne by done; by apply Hoth].
        rewrite lookup_insert_eq. intros [= <-]. split_and!; [done| |done]. simpl. lia.
    + intros c' x'. destruct (decide (c' = c)) as [->|]; [|rewrite lookup_insert_ne by done; eauto 10].
      rewrite lookup_insert_eq. intros [= <-]. exists x. auto.
Qed.

(** ** Open connections

    A connection that is not dead is kept by the listener, once, and no two have the same
    descriptor. *)
Record refs_inv (h : conn_heap) (ls rs : list nat) : Prop := Hinv {
  hi_counted : ref_counted h (ls ++ rs);
  hi_live c x : h !! c = Some x → c_dead x = false → c ∈ ls;
  hi_nodup : NoDup ls;
  hi_fd c c' x x' : h !! c = Some x → h !! c' = Some x' → c_fd x = c_fd x' → c = c' }.

#[global] Instance refs_inv_proper : Proper ((=) ==> (≡ₚ) ==> (≡ₚ) ==> iff) refs_inv.
Proof.
  assert (∀ h ls ls' rs rs', ls ≡ₚ ls' → rs ≡ₚ rs' → refs_inv h ls rs → refs_inv h ls' rs') as Hw.
  { intros h ls ls' rs rs' Hl Hr [Hc Hlive Hnd Hfd]. constructor; [by rewrite <- Hl, <- Hr| |by rewrite <- Hl|done].
    intros c x. rewrite <- Hl. apply Hlive. }
  intros h ? <- ls ls' Hl rs rs' Hr. split; apply Hw; done.
Qed.

Lemma refs_inv_perm h ls ls' rs rs' : refs_inv h ls rs → ls ≡ₚ ls' → rs ≡ₚ rs' → refs_inv h ls' rs'.
Proof. by intros Hi <- <-. Qed.

Lemma refs_inv_at h ls rs c : refs_inv h ls rs → c ∈ ls ++ rs → ∃ x, h !! c = Some x ∧ heap_at c h = Ok x.
Proof. intros Hi Hc. destruct (ct_in _ _ (hi_counted _ _ _ Hi) c Hc) as [x Hx]. exists x. unfold heap_at. by rewrite Hx. Qed.

(** An object that descends from one keeps what the invariant says of it. *)
Lemma refs_inv_descends h h' ls rs rs' : refs_inv h ls rs → descends h h' → ref_counted h' (ls ++ rs') → refs_inv h' ls rs'.
Proof.
  intros [_ Hlive Hnd Hfd] Hd Hc. constructor; [done| |done|].
  - intros c x' Hx' Hal. destruct (Hd c x' Hx') as (x & Hx & _ & Hdead & _). apply (Hlive c x Hx).
    destruct (c_dead x); [|done]. rewrite Hdead in Hal; done.
  - intros c1 c2 x1 x2 H1 H2 E. destruct (Hd _ _ H1) as (y1 & E1 & F1 & _), (Hd _ _ H2) as (y2 & E2 & F2 & _).
    eapply Hfd; [done..|]. congruence.
Qed.

Lemma descends_incref h c x : h !! c = Some x → descends h (<[c := incref x]> h).
Proof.
  intros Hx c' x'. destruct (decide (c' = c)) as [->|]; [|rewrite lookup_insert_ne by done; eauto 10].
  rewrite lookup_insert_eq. intros [= <-]. exists x. auto.
Qed.

Lemma refs_inv_incref h ls rs c : refs_inv h ls rs → c ∈ ls ++ rs →
  ∃ h', heap_incref c h = Ok h' ∧ refs_inv h' ls (c :: rs) ∧ descends h h'.
Proof.
  intros Hi Hc. destruct (ref_counted_incref c _ _ (hi_counted _ _ _ Hi) Hc) as (x & Hx & E & Hct).
  eexists. split_and!; [done| |by apply descends_incref]. eapply refs_inv_descends; [done|by apply descends_incref|].
  by rewrite <- Permutation_middle.
Qed.

Lemma refs_inv_decref h ls rs c : refs_inv h ls (c :: rs) → ∃ h', heap_decref c h = Ok h' ∧ refs_inv h' ls rs ∧ descends h h'.
Proof.
  intros Hi. pose proof (hi_counted _ _ _ Hi) as Hct. rewrite <- Permutation_middle in Hct.
  destruct (ref_counted_decref c h (ls ++ rs) Hct) as (h' & E & Hct' & Hd).
  { intros x Hx. destruct (c_dead x) eqn:Hdx; [by right|left]. apply elem_of_app. left. by eapply (hi_live _ _ _ Hi). }
  exists h'. split_and!; [done| |done]. by eapply refs_inv_descends.
Qed.

(** The listener lets go of a dead connection. *)
Lemma refs_inv_unlist h ls rs c x : refs_inv h (c :: ls) rs → h !! c = Some x → c_dead x = true →
  ∃ h', heap_decref c h = Ok h' ∧ refs_inv h' ls rs ∧ descends h h'.
Proof.
  intros Hi Hx Hd. destruct (ref_counted_decref c h (ls ++ rs) (hi_counted _ _ _ Hi)) as (h' & E & Hct & Hds).
  { intros y Hy. right. congruence. }
  exists h'. split_and!; [done| |done]. destruct Hi as [_ Hlive [Hni Hnd]%NoDup_cons Hfd]. constructor; [done| |done|].
  - intros c' x' Hx' Hal. destruct (Hds c' x' Hx') as (y & Hy & _ & Hdead & _).
    assert (c_dead y = false) as Hdy by (destruct (c_dead y); [by rewrite Hdead in Hal|done]).
    pose proof (Hlive c' y Hy Hdy) as Hin. apply elem_of_cons in Hin as [->|]; [congruence|done].
  - intros c1 c2 x1 x2 H1 H2 E12. destruct (Hds _ _ H1) as (y1 & E1 & F1 & _), (Hds _ _ H2) as (y2 & E2 & F2 & _).
    eapply Hfd; [done..|]. congruence.
Qed.

Lemma descends_dead h c x : h !! c = Some x → descends h (<[c := set_dead x]> h).
Proof.
  intros Hx c' x'. destruct (decide (c' = c)) as [->|]; [|rewrite lookup_insert_ne by done; eauto 10].
  rewrite lookup_insert_eq. intros [= <-]. exists x. auto.
Qed.

(** A connection that dies. *)
Lemma refs_inv_dead h ls rs c x : refs_inv h ls rs → h !! c = Some x → refs_inv (<[c := set_dead x]> h) ls rs.
Proof.
  intros Hi Hx. eapply refs_inv_descends; [done|by apply descends_dead|]. destruct (hi_counted _ _ _ Hi) as [Hin Hc]. constructor.
  - intros c' Hc'. destruct (decide (c' = c)) as [->|]; [by rewrite lookup_insert_eq|]. rewrite lookup_insert_ne by done. auto.
  - intros c' x'. destruct (decide (c' = c)) as [->|]; [|rewrite lookup_insert_ne by done; auto].
    rewrite lookup_insert_eq. intros [= <-]. by apply (Hc c x).
Qed.

(** The listener closes a connection and lets go of it. *)
Lemma refs_inv_close h ls rs c : refs_inv h (c :: ls) rs →
  ∃ x h', h !! c = Some x ∧ heap_decref c (<[c := (closeconn x).1]> h) = Ok h' ∧ refs_inv h' ls rs ∧ descends h h'.
Proof.
  intros Hi. destruct (refs_inv_at _ _ _ c Hi) as (x & Hx & _); [by left|]. exists x.
  unfold closeconn. destruct (c_dead x) eqn:Hd; simpl.
  - rewrite insert_id by done. destruct (refs_inv_unlist _ _ _ _ _ Hi Hx Hd) as (h' & ? & ? & ?). by exists h'.
  - destruct (refs_inv_unlist (<[c := set_dead x]> h) ls rs c (set_dead x)) as (h' & E & Hi' & Hds);
      [by apply refs_inv_dead|by rewrite lookup_insert_eq|done|].
    exists h'. split_and!; [done..|]. etrans; [by apply descends_dead|done].
Qed.

(** A new connection is listed. *)
Lemma refs_inv_new h ls rs c x : refs_inv h ls rs → h !! c = None → c_refno x = 1%Z → cb_buf (c_wpdu x) = None →
  (∀ c' x', h !! c' = Some x' → c_fd x' ≠ c_fd x) → refs_inv (<[c := x]> h) (c :: ls) rs.
Proof.
  intros [[Hin Hc] Hlive Hnd Hfd] Hn Hr Hw Hf. assert (c ∉ ls ++ rs) as Hni.
  { intros Hcc%Hin. destruct Hcc as [? ?]. congruence. }
  constructor; [constructor| | |].
  - intros c'. destruct (decide (c' = c)) as [->|]; [by rewrite lookup_insert_eq|]. rewrite lookup_insert_ne by done.
    simpl. intros [->|?]%elem_of_cons; [done|auto].
  - intros c' x'. cbn [app]. destruct (decide (c' = c)) as [->|Hne].
    + rewrite lookup_insert_eq. intros [= <-]. rewrite count_occ_cons_eq by done. split_and!; [by left| |done].
      rewrite list_elem_of_In, (count_occ_not_In Nat.eq_dec) in Hni. rewrite Hni. lia.
    + rewrite lookup_insert_ne by done. intros Hx'. rewrite count_occ_cons_neq by done.
      destruct (Hc c' x' Hx') as (? & ? & ?). split_and!; [by right|done..].
  - intros c' x'. destruct (decide (c' = c)) as [->|Hne]; [by left|].
    rewrite lookup_insert_ne by done. intros Hx' Hd. right. by eapply Hlive.
  - apply NoDup_cons. split; [|done]. intros ?. apply Hni, elem_of_app. by left.
  - intros c1 c2 x1 x2. destruct (decide (c1 = c)) as [->|], (decide (c2 = c)) as [->|];
      rewrite ?lookup_insert_eq, ?lookup_insert_ne by done; intros H1 H2 E; simplify_eq; [done| | |by eapply Hfd].
    + by destruct (Hf c2 x2 H2).
    + by destruct (Hf c1 x1 H1).
Qed.

(** A buffer that can be sent. *)
Definition sendable (b : option bytes) (sz : Z) : Prop := ∃ bs p, b = Some bs ∧ load bs 0 sz = Ok p.
