(* ===== verification/Sender.v ===== *)
(** * Several senders on one connection (connection.cc [send], [write_cb], [closeconn])

    The threads that call [connection::send] on one connection, the poll manager's
    thread that calls [write_cb] and [read_cb], and [closeconn], as a step relation over
    the parts of Connection.v: a step is what a thread does with [m_] held.  A thread
    in a condition wait is asleep until a signal, or a spurious wake-up, and then tests
    its condition again. *)

From stdpp Require Import base tactics numbers list gmap strings functions relations.
From Stdlib Require Import ZArith Lia Ascii.
From S2P Require Import Prelude CxxString Marshall Connection.

(** Where a sending thread is; [awake] is false while it sleeps in its wait. *)
Inductive spc :=
  | SIdle
  | SQueued (b : bytes) (sz : Z) (awake : bool)    (* before or in the wait on send_wait_ *)
  | SRemoving (b : bytes) (sz : Z)                 (* write failed, in block_remove_fd without m_ *)
  | SWriting (b : bytes) (sz : Z) (awake : bool)   (* before or in the wait on send_complete_ *)
  | SDone (ret : bool) (b : bytes) (sz : Z).       (* has returned *)

Record senders := Senders {
  k_conn : connection;
  k_cb : bool;            (* a write callback is registered *)
  k_close : bool;         (* closeconn is between its two parts *)
  k_pcs : nat → spc;
  k_wire : bytes;         (* what write has accepted, in order *)
  k_sent : list bytes }.  (* the packets of the sends that returned true, in order *)

#[global] Instance poll_flag_eq_dec : EqDecision poll_flag.
Proof. solve_decision. Defined.
#[global] Instance poll_action_eq_dec : EqDecision poll_action.
Proof. solve_decision. Defined.

(** The bytes that an answer of [write] puts on the wire. *)
Definition wrote (os : write_result) (w : charbuf) : bytes :=
  if (cb_solong w =? cb_sz w)%Z then []
  else match os, write_request w with
       | Wrote n, Ok req => take (Z.to_nat n) req
       | _, _ => []
       end.
Definition os_ok (os : write_result) (w : charbuf) : Prop :=
  match os with Wrote n => (0 <= n <= cb_sz w - cb_solong w)%Z | WriteError _ => True end.

(** [pthread_cond_broadcast(&send_wait_)] and [pthread_cond_signal(&send_complete_)]; at
    most one thread sleeps on the second. *)
Definition wake_queue (pcs : nat → spc) (t : nat) : spc :=
  match pcs t with SQueued b sz _ => SQueued b sz true | p => p end.
Definition wake_sender (pcs : nat → spc) (t : nat) : spc :=
  match pcs t with SWriting b sz _ => SWriting b sz true | p => p end.

(** [write_cb] comes to its signal. *)
Definition signals (w : charbuf) (c' : connection) : bool :=
  negb (cb_sz w =? 0)%Z && (c_dead c' || (cb_sz (c_wpdu c') <=? cb_solong (c_wpdu c'))%Z).

(** [spurious]: condition waits may end without a signal. *)
Inductive sstep (spurious : bool) : senders → senders → Prop :=
  | s_enter t b sz c cb cl pcs wire sent :
      pcs t = SIdle → (4 <= sz <= size b)%Z →
      sstep spurious (Senders c cb cl pcs wire sent)
        (Senders (send_enter c) cb cl (<[t := SQueued b sz true]> pcs) wire sent)
  | s_sleep t b sz c cb cl pcs wire sent :
      pcs t = SQueued b sz true → send_may_start c = false →
      sstep spurious (Senders c cb cl pcs wire sent)
        (Senders c cb cl (<[t := SQueued b sz false]> pcs) wire sent)
  | s_refused t b sz os c c' acts cb cl pcs wire sent :
      pcs t = SQueued b sz true → send_may_start c = true → send_start os b sz c = Ok (None, c', acts) →
      sstep spurious (Senders c cb cl pcs wire sent)
        (Senders c' cb cl (<[t := SDone false b sz]> pcs) wire sent)
  | s_start t b sz os c c' acts cb cl pcs wire sent :
      pcs t = SQueued b sz true → send_may_start c = true → os_ok os (CharBuf (Some b) sz 0) →
      send_start os b sz c = Ok (Some (), c', acts) →
      sstep spurious (Senders c cb cl pcs wire sent)
        (Senders c' (cb || bool_decide (AddCallback (c_fd c) CB_WRONLY ∈ acts)) cl
           (<[t := if decide (BlockRemoveFd (c_fd c) ∈ acts) then SRemoving b sz else SWriting b sz true]> pcs)
           (wire ++ wrote os (CharBuf (Some b) sz 0)) sent)
  | s_removed t b sz c cb cl pcs wire sent :
      pcs t = SRemoving b sz →
      sstep spurious (Senders c cb cl pcs wire sent)
        (Senders c false cl (<[t := SWriting b sz true]> pcs) wire sent)
  | s_wait t b sz c cb cl pcs wire sent :
      pcs t = SWriting b sz true → send_may_finish c = false →
      sstep spurious (Senders c cb cl pcs wire sent)
        (Senders c cb cl (<[t := SWriting b sz false]> pcs) wire sent)
  | s_finish t b sz ret c c' cb cl pcs wire sent :
      pcs t = SWriting b sz true → send_may_finish c = true → send_finish c = (ret, c') →
      sstep spurious (Senders c cb cl pcs wire sent)
        (Senders c' cb cl
           (let pcs := <[t := SDone ret b sz]> pcs in
            if (c_waiters c >? 0)%Z then wake_queue pcs else pcs) wire
           (if ret then sent ++ [on_wire b sz] else sent))
  | s_write_cb os c c' acts cl pcs wire sent :
      os_ok os (c_wpdu c) → write_cb os (c_fd c) c = Ok (c', acts) →
      sstep spurious (Senders c true cl pcs wire sent)
        (Senders c' (bool_decide (acts = [])) cl (if signals (c_wpdu c) c' then wake_sender pcs else pcs)
           (wire ++ (if (cb_sz (c_wpdu c) =? 0)%Z then [] else wrote os (c_wpdu c))) sent)
  | s_read_fail c cb cl pcs wire sent :
      c_dead c = false →
      sstep spurious (Senders c cb cl pcs wire sent) (Senders (set_dead c) false cl (wake_sender pcs) wire sent)
  | s_close c cb pcs wire sent :
      c_dead c = false →
      sstep spurious (Senders c cb false pcs wire sent) (Senders (closeconn c).1 cb true pcs wire sent)
  | s_closed c cb pcs wire sent :
      sstep spurious (Senders c cb true pcs wire sent) (Senders c false false pcs wire sent)
  | s_again t ret b sz c cb cl pcs wire sent :
      pcs t = SDone ret b sz →
      sstep spurious (Senders c cb cl pcs wire sent) (Senders c cb cl (<[t := SIdle]> pcs) wire sent)
  | s_spurious t c cb cl pcs wire sent :
      spurious = true →
      sstep spurious (Senders c cb cl pcs wire sent)
        (Senders c cb cl (<[t := wake_queue (wake_sender pcs) t]> pcs) wire sent).

Definition sstart (fd : Z) : senders :=
  Senders (new_connection fd 0 0 0).1 false false (λ _, SIdle) [] [].

(** ** The invariant *)

(** The packet of a thread that has the connection's buffer. *)
Definition sender_of (p : spc) : option (bytes * Z) :=
  match p with SRemoving b sz | SWriting b sz _ => Some (b, sz) | _ => None end.

(** [cur] is the thread that has the buffer, with its packet. *)
Definition threads_ok (cur : option (nat * (bytes * Z))) (pcs : nat → spc) (sent : list bytes) : Prop :=
  (∀ t x, sender_of (pcs t) = Some x ↔ cur = Some (t, x)) ∧
  (∀ t b sz a, pcs t = SQueued b sz a → (4 <= sz <= size b)%Z) ∧
  (∀ t b sz, pcs t = SDone true b sz → on_wire b sz ∈ sent).

Definition data_ok (cur : option (nat * (bytes * Z))) (c : connection) (wire : bytes) (sent : list bytes) : Prop :=
  match cur with
  | None => c_wpdu c = empty_charbuf ∧ (c_dead c = false → wire = concat sent)
  | Some (t, (b, sz)) =>
      (4 <= sz <= size b)%Z ∧ is_Some (cb_buf (c_wpdu c)) ∧
      (c_dead c = false → sending (on_wire b sz) (c_wpdu c) ∧
         wire = concat sent ++ take (Z.to_nat (cb_solong (c_wpdu c))) (on_wire b sz))
  end ∧
  (c_dead c = true → ∃ b sz k, wire = concat sent ++ take k (on_wire b sz)).

Definition sinv (s : senders) : Prop :=
  ∃ cur, threads_ok cur (k_pcs s) (k_sent s) ∧ data_ok cur (k_conn s) (k_wire s) (k_sent s).

(** A thread that does not take or leave the buffer. *)
Lemma threads_same cur pcs sent t p :
  threads_ok cur pcs sent → sender_of p = sender_of (pcs t) →
  (∀ b sz a, p = SQueued b sz a → (4 <= sz <= size b)%Z) → (∀ b sz, p = SDone true b sz → on_wire b sz ∈ sent) →
  threads_ok cur (<[t := p]> pcs) sent.
Proof.
  intros (H1 & H2 & H3) Hp Hq Hd. split_and!.
  - intros u x. rewrite <- H1. destruct (decide (t = u)) as [->|]; [by rewrite fn_lookup_insert, Hp|].
    by rewrite fn_lookup_insert_ne.
  - intros u b sz a. destruct (decide (t = u)) as [->|]; [rewrite fn_lookup_insert; by eauto|].
    rewrite fn_lookup_insert_ne by done. apply H2.
  - intros u b sz. destruct (decide (t = u)) as [->|]; [rewrite fn_lookup_insert; by eauto|].
    rewrite fn_lookup_insert_ne by done. apply H3.
Qed.

Lemma threads_wake_sender cur pcs sent : threads_ok cur pcs sent → threads_ok cur (wake_sender pcs) sent.
Proof.
  intros (H1 & H2 & H3). split_and!; intros t; specialize (H1 t); specialize (H2 t); specialize (H3 t);
    unfold wake_sender; destruct (pcs t); naive_solver.
Qed.
Lemma threads_wake_queue cur pcs sent : threads_ok cur pcs sent → threads_ok cur (wake_queue pcs) sent.
Proof.
  intros (H1 & H2 & H3). split_and!; intros t; specialize (H1 t); specialize (H2 t); specialize (H3 t);
    unfold wake_queue; destruct (pcs t); naive_solver.
Qed.

(** The free buffer is taken. *)
Lemma threads_take pcs sent t p x :
  threads_ok None pcs sent → sender_of p = Some x → threads_ok (Some (t, x)) (<[t := p]> pcs) sent.
Proof.
  intros (H1 & H2 & H3) Hp. assert (∀ u, sender_of (pcs u) = None) as Hn.
  { intros u. destruct (sender_of (pcs u)) eqn:E; [|done]. by apply H1 in E. }
  split_and!.
  - intros u y. destruct (decide (t = u)) as [->|].
    + rewrite fn_lookup_insert, Hp. naive_solver.
    + rewrite fn_lookup_insert_ne, Hn by done. naive_solver.
  - intros u b sz a. destruct (decide (t = u)) as [->|]; [rewrite fn_lookup_insert; intros ->; done|].
    rewrite fn_lookup_insert_ne by done. apply H2.
  - intros u b sz. destruct (decide (t = u)) as [->|]; [rewrite fn_lookup_insert; intros ->; done|].
    rewrite fn_lookup_insert_ne by done. apply H3.
Qed.

(** The buffer is given up. *)
Lemma threads_leave t x pcs sent sent' ret b sz :
  threads_ok (Some (t, x)) pcs sent → sent ⊆ sent' → (ret = true → on_wire b sz ∈ sent') →
  threads_ok None (<[t := SDone ret b sz]> pcs) sent'.
Proof.
  intros (H1 & H2 & H3) Hs Hr. split_and!.
  - intros u y. destruct (decide (t = u)) as [->|]; [by rewrite fn_lookup_insert|].
    rewrite fn_lookup_insert_ne by done. rewrite H1. naive_solver.
  - intros u b' sz' a. destruct (decide (t = u)) as [->|]; [by rewrite fn_lookup_insert|].
    rewrite fn_lookup_insert_ne by done. apply H2.
  - intros u b' sz'. destruct (decide (t = u)) as [->|].
    + rewrite fn_lookup_insert. intros [= -> <- <-]. by apply Hr.
    + rewrite fn_lookup_insert_ne by done. intros Hu. apply Hs. by eapply H3.
Qed.

(** The connection dies where it is. *)
Lemma data_dead cur c c' wire sent :
  data_ok cur c wire sent → c_dead c = false → c_dead c' = true → c_wpdu c' = c_wpdu c →
  data_ok cur c' wire sent.
Proof.
  intros [H1 _] Hd Hd' Hw. unfold data_ok. rewrite Hd', Hw. destruct cur as [[t [b sz]]|].
  - destruct H1 as (? & ? & H). destruct (H Hd) as [_ ->]. split; [done|eauto].
  - destruct H1 as [? H]. split; [done|]. intros _. exists [], 0%Z, 0. by rewrite (H Hd), app_nil_r.
Qed.

(** A write in the buffer of the current packet. *)
Lemma data_write t b sz c c' wire sent os :
  data_ok (Some (t, (b, sz))) c wire sent → c_dead c = false → os_ok os (c_wpdu c) →
  (∃ r, writepdu os (c_wpdu c) = Ok (r, c_wpdu c') ∧ c_dead c' = negb r) →
  data_ok (Some (t, (b, sz))) c' (wire ++ wrote os (c_wpdu c)) sent.
Proof.
  intros [(Hsz & Hb & Ha) _] Hd Hos (r & Hw & Hr). destruct (Ha Hd) as [Hs Hwire].
  pose proof Hs as (Hl & Hf & Hst).
  unfold wrote. destruct (Z.eqb_spec (cb_solong (c_wpdu c)) (cb_sz (c_wpdu c))) as [E|E].
  { unfold writepdu in Hw. rewrite Z.geb_leb in Hw. destruct (Z.leb_spec 0 (cb_solong (c_wpdu c))); [|lia].
    simpl in Hw. destruct (Z.eqb_spec (cb_solong (c_wpdu c)) (cb_sz (c_wpdu c))); [|done].
    injection Hw as <- Hw. rewrite app_nil_r. unfold data_ok. rewrite Hr, <- Hw.
    split; [|done]. split; [done|]. split; [done|]. intros _. by split. }
  rewrite (write_request_sending _ _ Hs). destruct os as [n|[]].
  - destruct (writepdu_sending _ _ n Hs E Hos) as (w' & Hw' & Hs' & Hl' & Hz' & _). rewrite Hw' in Hw.
    unfold data_ok. injection Hw as <- <-. rewrite Hr. split; [|done]. split; [done|]. split.
    + destruct Hs' as (_ & _ & b' & Hb' & _). unfold stamped in Hb'. by destruct (cb_buf w').
    + intros _. split; [done|]. simpl in Hos. rewrite Hwire, Hl', <- app_assoc. f_equal.
      rewrite Z2Nat.inj_add by lia. apply take_take_drop.
  - destruct (writepdu_sending _ _ 0 Hs E ltac:(lia)) as (w' & _ & Hs' & Hl' & Hz' & Hw'). rewrite Hw' in Hw by done.
    unfold data_ok. injection Hw as <- <-. rewrite Hr, app_nil_r. split; [|done]. split; [done|]. split.
    + destruct Hs' as (_ & _ & b' & Hb' & _). unfold stamped in Hb'. by destruct (cb_buf w').
    + intros _. by rewrite Hl', Z.add_0_r.
  - unfold writepdu in Hw. rewrite Z.geb_leb in Hw. destruct (Z.leb_spec 0 (cb_solong (c_wpdu c))); [|lia].
    destruct (Z.eqb_spec (cb_solong (c_wpdu c)) (cb_sz (c_wpdu c))); [done|].
    apply bind_Ok in Hw as ([] & _ & Hw). apply bind_Ok in Hw as (b1 & _ & Hw).
    apply bind_Ok in Hw as (b2 & _ & Hw). unfold data_ok. injection Hw as <- <-. rewrite Hr, app_nil_r.
    split; [split; [done|split; [by eexists|done]]|]. intros _. eauto.
Qed.

Lemma sinv_start fd : sinv (sstart fd).
Proof. exists None. split; [by split_and!|]. split; [by split|done]. Qed.

(** The start of a send that gets the buffer. *)
Lemma data_start t b sz os c c' acts wire sent :
  data_ok None c wire sent → (4 <= sz <= size b)%Z → os_ok os (CharBuf (Some b) sz 0) →
  send_start os b sz c = Ok (Some (), c', acts) →
  data_ok (Some (t, (b, sz))) c' (wire ++ wrote os (CharBuf (Some b) sz 0)) sent ∧ c_dead c = false.
Proof.
  intros [[_ Hw] _] Hsz Hos Hst. unfold send_start in Hst. cbn [c_dead set_waiters] in Hst.
  destruct (c_dead c) eqn:Hd; [done|]. split; [|done].
  apply bind_Ok in Hst as ([r w] & Hpdu & Hst).
  set (c0 := set_wpdu c (CharBuf (Some b) sz 0)).
  assert (data_ok (Some (t, (b, sz))) c0 wire sent) as H0.
  { split; [|by cbn; rewrite Hd]. split; [done|]. split; [by eexists|]. intros _. split.
    - destruct (take_store_prefix b sz Hsz) as (b' & Hst' & Hb' & Ht). split; [simpl; lia|].
      split; [by apply size_on_wire|]. exists b'. unfold stamped. simpl. rewrite Hst'. split_and!; [done|done|lia|lia].
    - simpl. by rewrite app_nil_r, Hw. }
  change (CharBuf (Some b) sz 0) with (c_wpdu c0). apply data_write with (c := c0); [done|done|done|].
  exists r. destruct r; cbn [negb] in Hst.
  - destruct (cb_solong w =? cb_sz w)%Z; injection Hst as <- _; by split.
  - by injection Hst as <- _.
Qed.

(** A write callback while some packet is being sent. *)
Lemma data_write_cb cur os c c' acts wire sent :
  data_ok cur c wire sent → os_ok os (c_wpdu c) → write_cb os (c_fd c) c = Ok (c', acts) →
  data_ok cur c' (wire ++ (if (cb_sz (c_wpdu c) =? 0)%Z then [] else wrote os (c_wpdu c))) sent.
Proof.
  intros H Hos Hw. unfold write_cb in Hw. destruct (c_dead c) eqn:Hd; [done|]. rewrite Z.eqb_refl in Hw.
  cbn [negb VERIFY mbind outcome_bind] in Hw. destruct (Z.eqb_spec (cb_sz (c_wpdu c)) 0) as [E|E].
  { injection Hw as <- _. by rewrite app_nil_r. }
  destruct cur as [[t [b sz]]|]; [|destruct H as [[H _] _]; by rewrite H in E].
  apply bind_Ok in Hw as ([r w] & Hpdu & Hw). apply data_write with (c := c); [done|done|done|].
  exists r. destruct r; cbn [negb] in Hw.
  - apply bind_Ok in Hw as ([] & _ & Hw). injection Hw as <- _. by split.
  - by injection Hw as <- _.
Qed.

(** The end of a send. *)
Lemma data_finish t b sz ret c c' wire sent :
  data_ok (Some (t, (b, sz))) c wire sent → send_may_finish c = true → send_finish c = (ret, c') →
  data_ok None c' wire (if ret then sent ++ [on_wire b sz] else sent).
Proof.
  intros [(Hsz & Hb & Ha) Hdead] Hf Hr. unfold send_finish in Hr. injection Hr as <- <-.
  unfold data_ok. cbn [c_dead c_wpdu set_wpdu]. destruct (c_dead c) eqn:Hd; cbn [negb andb].
  { split; [by split|]. exact Hdead. }
  destruct (Ha eq_refl) as [Hs Hw]. pose proof Hs as (Hl & Hfull & _).
  unfold send_may_finish in Hf. rewrite Hd in Hf. cbn [orb] in Hf.
  assert (cb_solong (c_wpdu c) = cb_sz (c_wpdu c)) as E by lia. rewrite E, Z.eqb_refl. split; [|done].
  split; [done|]. intros _. rewrite concat_app, Hw, E, <- Hfull. cbn [concat]. rewrite app_nil_r. f_equal.
  apply take_ge. unfold size. lia.
Qed.

Lemma sinv_step spurious s s' : sstep spurious s s' → sinv s → sinv s'.
Proof.
  intros Hs (cur & Ht & Hd).
  destruct Hs as [t b sz c cb cl pcs wire sent Hp Hsz|t b sz c cb cl pcs wire sent Hp Hm
    |t b sz os c c' acts cb cl pcs wire sent Hp Hm Hst|t b sz os c c' acts cb cl pcs wire sent Hp Hm Hos Hst
    |t b sz c cb cl pcs wire sent Hp|t b sz c cb cl pcs wire sent Hp Hm
    |t b sz ret c c' cb cl pcs wire sent Hp Hm Hf|os c c' acts cl pcs wire sent Hos Hw
    |c cb cl pcs wire sent Hdd|c cb pcs wire sent Hdd|c cb pcs wire sent|t ret b sz c cb cl pcs wire sent Hp
    |t c cb cl pcs wire sent Hsp]; cbn [k_conn k_pcs k_wire k_sent] in *.
  - exists cur. split; [|done]. apply threads_same; [done|by rewrite Hp|by intros ? ? ? [= <- <- <-]|done].
  - exists cur. split; [|done]. apply threads_same; [done|by rewrite Hp| |done].
    intros ? ? ? [= <- <- <-]. by apply (proj1 (proj2 Ht) t b sz true).
  - unfold send_start in Hst. cbn [c_dead set_waiters] in Hst. destruct (c_dead c) eqn:Hdd.
    2: { apply bind_Ok in Hst as ([r w] & _ & Hst). by destruct r, (cb_solong w =? cb_sz w)%Z. }
    injection Hst as <- _. exists cur. split; [|done]. apply threads_same; [done|by rewrite Hp|done|done].
  - assert (4 <= sz <= size b)%Z as Hsz by (by apply (proj1 (proj2 Ht) t b sz true)).
    assert (cur = None) as ->.
    { destruct cur as [[u [b' sz']]|]; [|done]. exfalso. destruct Hd as [(_ & [b0 Hb0] & _) _].
      unfold send_may_start in Hm. unfold send_start in Hst. cbn [c_dead set_waiters] in Hst.
      destruct (c_dead c); [done|]. by rewrite Hb0 in Hm. }
    destruct (data_start t b sz os c c' acts wire sent Hd Hsz Hos Hst) as [Hd' _].
    exists (Some (t, (b, sz))). split; [|done]. apply threads_take; [done|by case_decide].
  - exists cur. split; [|done]. apply threads_same; [done|by rewrite Hp|done|done].
  - exists cur. split; [|done]. apply threads_same; [done|by rewrite Hp|done|done].
  - assert (cur = Some (t, (b, sz))) as -> by (apply (proj1 Ht t (b, sz)); by rewrite Hp).
    exists None. split; [|by eapply data_finish].
    assert (threads_ok None (<[t := SDone ret b sz]> pcs) (if ret then sent ++ [on_wire b sz] else sent)) as H.
    { eapply threads_leave; [done| |].
      - destruct ret; [|done]. intros x Hx. apply elem_of_app. by left.
      - intros ->. apply elem_of_app. right. by left. }
    destruct (c_waiters c >? 0)%Z; [by apply threads_wake_queue|done].
  - exists cur. split; [|by eapply data_write_cb]. destruct (signals _ _); [by apply threads_wake_sender|done].
  - exists cur. split; [by apply threads_wake_sender|]. by eapply data_dead.
  - exists cur. split; [done|]. unfold closeconn. rewrite Hdd. by eapply data_dead.
  - by exists cur.
  - exists cur. split; [|done]. apply threads_same; [done|by rewrite Hp|done|done].
  - exists cur. split; [|done]. destruct Ht as (H1 & H2 & H3).
    apply threads_same; [by split_and!|..]; specialize (H2 t); specialize (H3 t); unfold wake_queue, wake_sender;
      destruct (pcs t); naive_solver.
Qed.

Lemma sinv_reachable spurious fd s : rtc (sstep spurious) (sstart fd) s → sinv s.
Proof.
  intros Hr. pose proof (sinv_start fd) as Hi. revert Hi. generalize (sstart fd) Hr. clear Hr. intros s0 Hr.
  induction Hr as [|x y z Hxy _ IH]; [done|]. intros Hx. by eapply IH, sinv_step.
Qed.

(** ** A sender that nobody wakes *)

(** The connection is dead, no write callback is left, and thread [t] sleeps for the
    completion of its packet. *)
Definition stranded (t : nat) (s : senders) : Prop :=
  c_dead (k_conn s) = true ∧ k_cb s = false ∧ ∃ b sz, k_pcs s t = SWriting b sz false.

Lemma stranded_step t s s' : sstep false s s' → stranded t s → stranded t s'.
Proof.
  intros Hs (Hd & Hcb & b0 & sz0 & Ht).
  destruct Hs as [u b sz c cb cl pcs wire sent Hp Hsz|u b sz c cb cl pcs wire sent Hp Hm
    |u b sz os c c' acts cb cl pcs wire sent Hp Hm Hst|u b sz os c c' acts cb cl pcs wire sent Hp Hm Hos Hst
    |u b sz c cb cl pcs wire sent Hp|u b sz c cb cl pcs wire sent Hp Hm
    |u b sz ret c c' cb cl pcs wire sent Hp Hm Hf|os c c' acts cl pcs wire sent Hos Hw
    |c cb cl pcs wire sent Hdd|c cb pcs wire sent Hdd|c cb pcs wire sent|u ret b sz c cb cl pcs wire sent Hp
    |u c cb cl pcs wire sent Hsp]; cbn [k_conn k_pcs k_cb] in *; try congruence;
    try (assert (u ≠ t) by (intros ->; congruence)).
  1,2: split_and!; [done|done|]; exists b0, sz0; cbn; by rewrite fn_lookup_insert_ne.
  - unfold send_start in Hst. cbn [c_dead set_waiters] in Hst. rewrite Hd in Hst. injection Hst as <- _.
    split_and!; [done|done|]. exists b0, sz0. cbn. by rewrite fn_lookup_insert_ne.
  - unfold send_start in Hst. cbn [c_dead set_waiters] in Hst. by rewrite Hd in Hst.
  - split_and!; [done|done|]. exists b0, sz0. cbn. by rewrite fn_lookup_insert_ne.
  - split_and!; [done|done|]. exists b0, sz0. cbn. by rewrite fn_lookup_insert_ne.
  - unfold send_finish in Hf. injection Hf as _ <-. split_and!; [done|done|]. exists b0, sz0. cbn.
    destruct (c_waiters c >? 0)%Z; unfold wake_queue; by rewrite fn_lookup_insert_ne, Ht.
  - split_and!; [done|done|]. by exists b0, sz0.
  - split_and!; [done|done|]. exists b0, sz0. cbn. by rewrite fn_lookup_insert_ne.
Qed.

Lemma stranded_forever t s s' : rtc (sstep false) s s' → stranded t s → stranded t s'.
Proof. induction 1; [done|]. intros. by eapply IHrtc, stranded_step. Qed.

(** ** Properties *)

(** C20: Packets of concurrent senders are neither mixed nor cut.  In every run of any
    number of threads that send on one connection, with writes accepted in pieces,
    callbacks, failures, closing and spurious wake-ups at any time, the bytes put on the
    wire are the packets of the sends that returned true, whole and in the order in which
    the sends ended, and then at most a first part of one further packet; on a live
    connection that part belongs to the one send under way, and is empty when there is
    none.  A send that returned true has its packet among those. *)
Theorem sends_are_whole spurious fd s :
  rtc (sstep spurious) (sstart fd) s →
  (∃ b sz k, k_wire s = concat (k_sent s) ++ take k (on_wire b sz)) ∧
  (c_dead (k_conn s) = false → (∀ t, sender_of (k_pcs s t) = None) → k_wire s = concat (k_sent s)) ∧
  (∀ t t' x x', sender_of (k_pcs s t) = Some x → sender_of (k_pcs s t') = Some x' → t = t') ∧
  (∀ t b sz, k_pcs s t = SDone true b sz → on_wire b sz ∈ k_sent s).
Proof.
  intros Hr. destruct (sinv_reachable _ _ _ Hr) as (cur & (H1 & H2 & H3) & Hd & Hdead). split_and!.
  - destruct (c_dead (k_conn s)) eqn:E; [by apply Hdead|]. destruct cur as [[t [b sz]]|].
    + destruct Hd as (_ & _ & Ha). destruct (Ha eq_refl) as [_ ->]. eauto.
    + destruct Hd as [_ Hw]. exists [], 0%Z, 0. by rewrite (Hw eq_refl), app_nil_r.
  - intros E Hn. destruct cur as [[t x]|]; [|by apply Hd]. specialize (Hn t).
    by rewrite (proj2 (H1 t x) eq_refl) in Hn.
  - intros t t' x x' Hx%H1 Hx'%H1. congruence.
  - exact H3.
Qed.

(** A packet of eight bytes of which the system takes five at first: thread 0 waits for
    its completion, with a write callback registered. *)
Definition ex_packet : bytes := lit "sizedata".
Definition ex_conn0 : connection := send_enter (new_connection 7 0 0 0).1.
Definition ex_conn1 : connection :=
  match send_start (Wrote 5) ex_packet 8 ex_conn0 with Ok (_, c, _) => c | Fault _ => ex_conn0 end.
Definition ex_pcs : nat → spc :=
  <[0 := SWriting ex_packet 8 false]> (<[0 := SWriting ex_packet 8 true]> (<[0 := SQueued ex_packet 8 true]> (λ _, SIdle))).
Definition ex_half : senders := Senders ex_conn1 true false ex_pcs (take 5 (on_wire ex_packet 8)) [].

Lemma ex_half_reached spurious : rtc (sstep spurious) (sstart 7) ex_half.
Proof.
  eapply rtc_l; [by apply (s_enter _ 0 ex_packet 8)|].
  eapply rtc_l; [by eapply (s_start _ 0 ex_packet 8 (Wrote 5))|].
  eapply rtc_l; [by apply (s_wait _ 0 ex_packet 8)|]. apply rtc_refl.
Qed.

(** The rest is written by a callback, and the send returns. *)
Lemma sends_are_whole_witness :
  ∃ s, rtc (sstep false) (sstart 7) s ∧ k_pcs s 0 = SDone true ex_packet 8 ∧ on_wire ex_packet 8 ∈ k_sent s.
Proof.
  assert (∃ s, rtc (sstep false) (sstart 7) s ∧ k_pcs s 0 = SDone true ex_packet 8) as (s & Hr & Hp).
  { eexists. split.
    - eapply transitivity; [apply ex_half_reached|].
      eapply rtc_l; [by eapply (s_write_cb _ (Wrote 3))|].
      eapply rtc_l; [by eapply (s_finish _ 0 ex_packet 8 true)|]. apply rtc_refl.
    - reflexivity. }
  exists s. split; [exact Hr|]. split; [exact Hp|].
  destruct (sends_are_whole false 7 s Hr) as (_ & _ & _ & H). apply (H 0). exact Hp.
Defined.

(** [closeconn] marks the connection dead and removes its callbacks but does not
    signal [send_complete_]: a run exists in which a sender that waits for the rest of
    its packet sleeps for ever after [closeconn], unless its wait ends by a spurious
    wake-up. *)
Theorem closeconn_strands_sender :
  ∃ s, rtc (sstep false) (sstart 7) s ∧ c_dead (k_conn s) = true ∧
    ∀ s', rtc (sstep false) s s' → ∃ b sz, k_pcs s' 0 = SWriting b sz false.
Proof.
  eexists. split_and!.
  - eapply transitivity; [apply ex_half_reached|].
    eapply rtc_l; [by apply s_close|]. eapply rtc_l; [by apply s_closed|]. apply rtc_refl.
  - reflexivity.
  - intros s' Hr. eapply stranded_forever in Hr as (_ & _ & H); [exact H|].
    split_and!; [reflexivity..|]. by exists ex_packet, 8%Z.
Qed.

(** [write_cb] asserts that the connection is not dead, which [closeconn] makes it
    before it removes the callbacks: a run exists in which the write callback of a live
    registration aborts the program. *)
Theorem write_cb_aborts_on_close :
  ∃ s, rtc (sstep false) (sstart 7) s ∧ k_cb s = true ∧ k_close s = true ∧
    ∀ os, write_cb os (c_fd (k_conn s)) (k_conn s) = Fault VerifyFailed.
Proof.
  eexists. split_and!.
  - eapply transitivity; [apply ex_half_reached|]. eapply rtc_l; [by apply s_close|]. apply rtc_refl.
  - reflexivity.
  - reflexivity.
  - intros os. reflexivity.
Qed.
