(* ===== verification/PollMgr.v ===== *)
(** * The poll manager of rpc/pollmgr.cc

    [PollMgr] keeps a callback per file descriptor and one thread that waits for
    descriptors to become ready and calls back.  The waiting is done by an [aio_mgr]:
    [SelectAIO], the one in use, or [EPollAIO].  The answers of select and epoll are
    arguments. *)

From stdpp Require Import base tactics numbers list gmap sets relations sorting.
From Stdlib Require Import ZArith Lia.
From S2P Require Import Prelude CxxString Marshall Connection.

Definition MAX_POLL_FDS : Z := 128.
Definition FD_SETSIZE : Z := 1024.

#[global] Instance poll_flag_eq_dec : EqDecision poll_flag.
Proof. solve_decision. Defined.

(** The values of [poll_flag]; [CB_MASK] is the complement of [CB_RDWR]. *)
Definition flag_value (f : poll_flag) : Z :=
  match f with CB_NONE => 0 | CB_RDONLY => 1 | CB_WRONLY => 16 | CB_RDWR => 17 end.
Definition CB_MASK : Z := Z.lnot 17.

(** [aio_mgr]: the virtual methods the poll manager calls. *)
Class AioMgr (M : Type) := {
  watch_fd : Z → poll_flag → M → outcome M;
  unwatch_fd : Z → poll_flag → M → outcome (bool * M);
  is_watched : Z → poll_flag → M → outcome bool }.

(** ** SelectAIO *)

(** The descriptor sets, the highest descriptor, the read end of the pipe that
    interrupts a wait and the bytes in the pipe. *)
Record select_aio := SelectAIO {
  rfds_ : gset Z; wfds_ : gset Z; highfds_ : Z; pipefd_0 : Z; pipe_bytes : nat }.

(** [FD_SET], [FD_CLR], [FD_ISSET]: undefined outside the set's size. *)
Definition fd_ok (fd : Z) : bool := ((0 <=? fd) && (fd <? FD_SETSIZE))%Z.
Definition FD_SET (fd : Z) (s : gset Z) : outcome (gset Z) :=
  if fd_ok fd then Ok ({[fd]} ∪ s) else Fault OutOfBounds.
Definition FD_CLR (fd : Z) (s : gset Z) : outcome (gset Z) :=
  if fd_ok fd then Ok (s ∖ {[fd]}) else Fault OutOfBounds.
Definition FD_ISSET (fd : Z) (s : gset Z) : outcome bool :=
  if fd_ok fd then Ok (bool_decide (fd ∈ s)) else Fault OutOfBounds.

(** [SelectAIO::SelectAIO], with the pipe the system gave. *)
Definition new_select_aio (pipe0 : Z) : outcome select_aio :=
  r ← FD_SET pipe0 ∅; Ok (SelectAIO r ∅ pipe0 pipe0 0).

(** [SelectAIO::watch_fd] *)
Definition select_watch_fd (fd : Z) (flag : poll_flag) (s : select_aio) : outcome select_aio :=
  let high := if (highfds_ s <=? fd)%Z then fd else highfds_ s in
  '(r, w) ← match flag with
            | CB_RDONLY => r ← FD_SET fd (rfds_ s); Ok (r, wfds_ s)
            | CB_WRONLY => w ← FD_SET fd (wfds_ s); Ok (rfds_ s, w)
            | _ => r ← FD_SET fd (rfds_ s); w ← FD_SET fd (wfds_ s); Ok (r, w)
            end;
  Ok (SelectAIO r w high (pipefd_0 s) (S (pipe_bytes s))).

(** [SelectAIO::is_watched] *)
Definition select_is_watched (fd : Z) (flag : poll_flag) (s : select_aio) : outcome bool :=
  match flag with
  | CB_RDONLY => FD_ISSET fd (rfds_ s)
  | CB_WRONLY => FD_ISSET fd (wfds_ s)
  | _ => FD_ISSET fd (rfds_ s) ≫= λ r : bool, if r then FD_ISSET fd (wfds_ s) else Ok false
  end.

(** The loop of [unwatch_fd] for the new highest descriptor. *)
Definition scan_high (r w : gset Z) (high pipe0 : Z) : Z :=
  foldl (λ newh i, if bool_decide (i ∈ r) then i else if bool_decide (i ∈ w) then i else newh)
    pipe0 (seqZ 0 (high + 1)).

(** [SelectAIO::unwatch_fd] *)
Definition select_unwatch_fd (fd : Z) (flag : poll_flag) (s : select_aio) :
    outcome (bool * select_aio) :=
  '(r, w) ← match flag with
            | CB_RDONLY => r ← FD_CLR fd (rfds_ s); Ok (r, wfds_ s)
            | CB_WRONLY => w ← FD_CLR fd (wfds_ s); Ok (rfds_ s, w)
            | CB_RDWR => w ← FD_CLR fd (wfds_ s); r ← FD_CLR fd (rfds_ s); Ok (r, w)
            | CB_NONE => Fault VerifyFailed
            end;
  inr ← FD_ISSET fd r; inw ← FD_ISSET fd w;
  let gone := (negb inr && negb inw)%bool in
  let high := if (gone && (fd =? highfds_ s)%Z)%bool
              then scan_high r w (highfds_ s) (pipefd_0 s) else highfds_ s in
  let n := if decide (flag = CB_RDWR) then S (pipe_bytes s) else pipe_bytes s in
  Ok (gone, SelectAIO r w high (pipefd_0 s) n).

#[global] Instance select_aio_mgr : AioMgr select_aio := {|
  watch_fd := select_watch_fd; unwatch_fd := select_unwatch_fd; is_watched := select_is_watched |}.

(** The answer of select: the sets as it leaves them, or an error. *)
Inductive select_result := SelectReady (r w : gset Z) | SelectEintr | SelectError.

(** The loop of [wait_ready] over the descriptors; [n] is the bytes in the pipe. *)
Fixpoint collect (fds : list Z) (r w : gset Z) (pipe0 : Z) (n : nat) (readable writable : list Z) :
    outcome (list Z * list Z * nat) :=
  match fds with
  | [] => Ok (readable, writable, n)
  | fd :: fds =>
      if bool_decide (fd = pipe0 ∧ fd ∈ r) then
        match n with
        | O => Fault VerifyFailed
        | S n => collect fds r w pipe0 n readable writable
        end
      else
        collect fds r w pipe0 n
          (if bool_decide (fd ∈ r) then readable ++ [fd] else readable)
          (if bool_decide (fd ∈ w) then writable ++ [fd] else writable)
  end.

(** [SelectAIO::wait_ready]: [high] is the copy taken before select; [s] is the object
    when select returns. *)
Definition select_wait_ready (high : Z) (sel : select_result) (s : select_aio) :
    outcome (list Z * list Z * select_aio) :=
  match sel with
  | SelectEintr => Ok ([], [], s)
  | SelectError => Fault VerifyFailed
  | SelectReady r w =>
      '(readable, writable, n) ← collect (seqZ 0 (high + 1)) r w (pipefd_0 s) (pipe_bytes s) [] [];
      Ok (readable, writable, SelectAIO (rfds_ s) (wfds_ s) (highfds_ s) (pipefd_0 s) n)
  end.

(** ** EPollAIO

    The status of each descriptor; a call of epoll_ctl is an output, its result an
    input. *)
Inductive epoll_op := EPOLL_CTL_ADD | EPOLL_CTL_MOD | EPOLL_CTL_DEL.
Record epoll_aio := EPollAIO { fdstatus_ : gmap Z Z; ctl_log : list (epoll_op * Z * bool * bool) }.
Definition fdstatus (fd : Z) (s : epoll_aio) : Z := default 0%Z (fdstatus_ s !! fd).

(** [fdstatus_\[fd\]]: the array has [MAX_POLL_FDS] entries. *)
Definition epoll_index (fd : Z) : outcome () :=
  VERIFY (fd <? MAX_POLL_FDS)%Z;; if (fd <? 0)%Z then Fault OutOfBounds else Ok ().

(** The events of a status: EPOLLIN, EPOLLOUT (with EPOLLET always). *)
Definition ev_in (st : Z) : bool := negb (Z.land st 1 =? 0)%Z.
Definition ev_out (st : Z) : bool := negb (Z.land st 16 =? 0)%Z.

(** [EPollAIO::watch_fd] *)
Definition epoll_watch_fd (fd : Z) (flag : poll_flag) (s : epoll_aio) : outcome epoll_aio :=
  epoll_index fd;;
  let op := if (fdstatus fd s =? 0)%Z then EPOLL_CTL_ADD else EPOLL_CTL_MOD in
  let st := Z.lor (fdstatus fd s) (flag_value flag) in
  VERIFY (if decide (flag = CB_RDWR) then ev_in st && ev_out st else true)%bool;;
  Ok (EPollAIO (<[fd := st]> (fdstatus_ s)) (ctl_log s ++ [(op, fd, ev_in st, ev_out st)])).

(** [EPollAIO::unwatch_fd] *)
Definition epoll_unwatch_fd (fd : Z) (flag : poll_flag) (s : epoll_aio) : outcome (bool * epoll_aio) :=
  epoll_index fd;;
  let st := Z.land (fdstatus fd s) (Z.lnot (flag_value flag)) in
  let op := if (st =? 0)%Z then EPOLL_CTL_DEL else EPOLL_CTL_MOD in
  VERIFY (if decide (flag = CB_RDWR) then (st =? 0)%Z else true);;
  Ok ((st =? 0)%Z, EPollAIO (<[fd := st]> (fdstatus_ s)) (ctl_log s ++ [(op, fd, ev_in st, ev_out st)])).

(** [EPollAIO::is_watched] *)
Definition epoll_is_watched (fd : Z) (flag : poll_flag) (s : epoll_aio) : outcome bool :=
  epoll_index fd;;
  Ok (Z.land (fdstatus fd s) CB_MASK =? flag_value flag)%Z.

(** [EPollAIO::wait_ready]: the events of epoll_wait as (descriptor, in, out). *)
Definition epoll_wait_ready (ready : list (Z * bool * bool)) : list Z * list Z :=
  (omap (λ x : Z * bool * bool, if x.1.2 then Some x.1.1 else None) ready,
   omap (λ x : Z * bool * bool, if x.2 then Some x.1.1 else None) ready).

#[global] Instance epoll_aio_mgr : AioMgr epoll_aio := {|
  watch_fd := epoll_watch_fd; unwatch_fd := epoll_unwatch_fd; is_watched := epoll_is_watched |}.

(** ** PollMgr *)
Section pollmgr.
Context {M : Type} `{AioMgr M}.

(** The callbacks that are not null, by descriptor, the [aio_mgr] and the flag of
    [block_remove_fd]. *)
Record pollmgr := PollMgr { callbacks_ : gmap Z nat; aio_ : M; pending_change_ : bool }.

(** [callbacks_\[fd\]], an array of [MAX_POLL_FDS] pointers. *)
Definition callback_at (fd : Z) (p : pollmgr) : outcome (option nat) :=
  if ((0 <=? fd) && (fd <? MAX_POLL_FDS))%Z then Ok (callbacks_ p !! fd) else Fault OutOfBounds.
Definition set_callback (fd : Z) (ch : option nat) (p : pollmgr) : outcome pollmgr :=
  _ ← callback_at fd p;
  Ok (PollMgr (match ch with Some c => <[fd := c]> (callbacks_ p) | None => delete fd (callbacks_ p) end)
        (aio_ p) (pending_change_ p)).
Definition set_aio (p : pollmgr) (a : M) : pollmgr := PollMgr (callbacks_ p) a (pending_change_ p).
Definition set_pending (p : pollmgr) (b : bool) : pollmgr := PollMgr (callbacks_ p) (aio_ p) b.

(** [PollMgr::PollMgr] *)
Definition new_pollmgr (a : M) : pollmgr := PollMgr ∅ a false.

(** [PollMgr::add_callback] *)
Definition add_callback (fd : Z) (flag : poll_flag) (ch : nat) (p : pollmgr) : outcome pollmgr :=
  VERIFY (fd <? MAX_POLL_FDS)%Z;;
  a ← watch_fd fd flag (aio_ p);
  let p := set_aio p a in
  old ← callback_at fd p;
  VERIFY (match old with None => true | Some c => bool_decide (c = ch) end);;
  set_callback fd (Some ch) p.

(** [PollMgr::del_callback] *)
Definition del_callback (fd : Z) (flag : poll_flag) (p : pollmgr) : outcome pollmgr :=
  '(gone, a) ← unwatch_fd fd flag (aio_ p);
  let p := set_aio p a in
  if gone : bool then set_callback fd None p else Ok p.

(** [PollMgr::has_callback] *)
Definition has_callback (fd : Z) (flag : poll_flag) (c : nat) (p : pollmgr) : outcome bool :=
  old ← callback_at fd p;
  match old with
  | Some c' => if decide (c' = c) then is_watched fd flag (aio_ p) else Ok false
  | None => Ok false
  end.

(** [PollMgr::block_remove_fd], before the wait and after it. *)
Definition block_remove_begin (fd : Z) (p : pollmgr) : outcome pollmgr :=
  '(_, a) ← unwatch_fd fd CB_RDWR (aio_ p);
  Ok (set_pending (set_aio p a) true).
Definition block_remove_end (fd : Z) (p : pollmgr) : outcome pollmgr := set_callback fd None p.
End pollmgr.
Arguments pollmgr M : clear implicits.

(** ** What an [aio_mgr] promises *)
Definition reads (f : poll_flag) : bool := match f with CB_RDONLY | CB_RDWR => true | _ => false end.
Definition writes (f : poll_flag) : bool := match f with CB_WRONLY | CB_RDWR => true | _ => false end.
Definition with_fd (b : bool) (fd : Z) (s : gset Z) : gset Z := if b then {[fd]} ∪ s else s.
Definition without_fd (b : bool) (fd : Z) (s : gset Z) : gset Z := if b then s ∖ {[fd]} else s.

Class AioSpec (M : Type) `{AioMgr M} := {
  aio_ok : M → Prop;
  own_fd : M → Z;                       (* the descriptor it keeps for itself *)
  reading : M → gset Z;
  writing : M → gset Z;
  watch_spec fd flag m :
    aio_ok m → fd_ok fd = true → fd ≠ own_fd m → flag ≠ CB_NONE →
    ∃ m', watch_fd fd flag m = Ok m' ∧ aio_ok m' ∧ own_fd m' = own_fd m ∧
      reading m' = with_fd (reads flag) fd (reading m) ∧
      writing m' = with_fd (writes flag) fd (writing m);
  unwatch_spec fd flag m :
    aio_ok m → fd_ok fd = true → fd ≠ own_fd m → flag ≠ CB_NONE →
    ∃ m', unwatch_fd fd flag m = Ok (bool_decide (fd ∉ reading m' ∪ writing m'), m') ∧
      aio_ok m' ∧ own_fd m' = own_fd m ∧
      reading m' = without_fd (reads flag) fd (reading m) ∧
      writing m' = without_fd (writes flag) fd (writing m);
  is_watched_spec fd flag m :
    aio_ok m → fd_ok fd = true → flag ≠ CB_NONE →
    is_watched fd flag m
      = Ok (bool_decide ((reads flag = true → fd ∈ reading m) ∧ (writes flag = true → fd ∈ writing m))) }.

(** ** SelectAIO keeps the promise *)

(** The pipe is watched for reading; the highest descriptor is watched, and none is
    higher. *)
Record select_ok (s : select_aio) : Prop := SelectOk {
  so_pipe : fd_ok (pipefd_0 s) = true;
  so_pipe_r : pipefd_0 s ∈ rfds_ s;
  so_pipe_w : pipefd_0 s ∉ wfds_ s;
  so_high : highfds_ s ∈ rfds_ s ∪ wfds_ s;
  so_max fd : fd ∈ rfds_ s ∪ wfds_ s → (fd <= highfds_ s)%Z;
  so_fds fd : fd ∈ rfds_ s ∪ wfds_ s → fd_ok fd = true }.

Lemma fd_ok_true fd : fd_ok fd = true ↔ (0 <= fd < 1024)%Z.
Proof.
  unfold fd_ok, FD_SETSIZE. destruct (Z.leb_spec 0 fd), (Z.ltb_spec fd 1024); simpl; split; (done || lia).
Qed.

Lemma scan_high_prefix (r w : gset Z) p n :
  let h := foldl (λ newh i, if bool_decide (i ∈ r) then i else if bool_decide (i ∈ w) then i else newh)
             p (seqZ 0 (Z.of_nat n)) in
  (∀ fd, (0 <= fd < Z.of_nat n)%Z → fd ∈ r ∪ w → h ∈ r ∪ w ∧ (fd <= h)%Z) ∧
  (h = p ∨ h ∈ r ∪ w).
Proof.
  induction n as [|n [IH1 IH2]].
  - split; [lia|by left].
  - rewrite seqZ_S, foldl_app, Z.add_0_l. cbn [foldl]. split.
    + intros fd Hfd Hin. repeat case_bool_decide; [set_solver by lia..|].
      destruct (decide (fd = Z.of_nat n)) as [->|]; [set_solver|]. apply IH1; [lia|done].
    + repeat case_bool_decide; [set_solver..|done].
Qed.

Lemma scan_high_spec r w high p :
  (∀ fd, fd ∈ r ∪ w → 0 <= fd <= high)%Z → p ∈ r →
  scan_high r w high p ∈ r ∪ w ∧ ∀ fd, fd ∈ r ∪ w → (fd <= scan_high r w high p)%Z.
Proof.
  intros Hr Hp. unfold scan_high. assert (0 <= p <= high)%Z as Hb by set_solver.
  destruct (scan_high_prefix r w p (Z.to_nat (high + 1))) as [H1 _].
  rewrite Z2Nat.id in H1 by lia. split.
  - apply (H1 p); [lia|set_solver].
  - intros fd Hfd. apply H1; [|done]. specialize (Hr fd Hfd). lia.
Qed.

Lemma new_select_ok p s : new_select_aio p = Ok s → select_ok s.
Proof.
  unfold new_select_aio, FD_SET. destruct (fd_ok p) eqn:E; [|done]. simpl. intros [= <-].
  constructor; simpl; [done|set_solver|set_solver|set_solver| |].
  - intros fd Hfd. assert (fd = p) as -> by set_solver. lia.
  - intros fd Hfd. by assert (fd = p) as -> by set_solver.
Qed.

Lemma select_watch_ok fd flag s :
  select_ok s → fd_ok fd = true → fd ≠ pipefd_0 s → flag ≠ CB_NONE →
  ∃ s', select_watch_fd fd flag s = Ok s' ∧ select_ok s' ∧ pipefd_0 s' = pipefd_0 s ∧
    rfds_ s' = with_fd (reads flag) fd (rfds_ s) ∧ wfds_ s' = with_fd (writes flag) fd (wfds_ s).
Proof.
  intros [H1 H2 H3 H4 H5 H6] Hfd Hp Hfl. unfold select_watch_fd, FD_SET. rewrite Hfd.
  eexists (SelectAIO (with_fd (reads flag) fd (rfds_ s)) (with_fd (writes flag) fd (wfds_ s)) _ _ _).
  split; [by destruct flag|]. split; [|done].
  assert (∀ x, x ∈ with_fd (reads flag) fd (rfds_ s) ∪ with_fd (writes flag) fd (wfds_ s) ↔
    x = fd ∨ x ∈ rfds_ s ∪ wfds_ s) as Hin.
  { intros x. destruct flag; simpl; [done|set_solver..]. }
  constructor; cbn [pipefd_0 rfds_ wfds_ highfds_]; [done|by destruct flag; set_solver..| | |].
  - apply Hin. destruct (Z.leb_spec (highfds_ s) fd); [by left|by right].
  - intros x [->|Hx%H5]%Hin; destruct (Z.leb_spec (highfds_ s) fd); lia.
  - intros x [->|Hx]%Hin; [done|by apply H6].
Qed.

Lemma select_unwatch_ok fd flag s :
  select_ok s → fd_ok fd = true → fd ≠ pipefd_0 s → flag ≠ CB_NONE →
  ∃ s', select_unwatch_fd fd flag s = Ok (bool_decide (fd ∉ rfds_ s' ∪ wfds_ s'), s') ∧
    select_ok s' ∧ pipefd_0 s' = pipefd_0 s ∧
    rfds_ s' = without_fd (reads flag) fd (rfds_ s) ∧ wfds_ s' = without_fd (writes flag) fd (wfds_ s).
Proof.
  intros [H1 H2 H3 H4 H5 H6] Hfd Hp Hfl. unfold select_unwatch_fd, FD_CLR, FD_ISSET. rewrite Hfd.
  set (r := without_fd (reads flag) fd (rfds_ s)). set (w := without_fd (writes flag) fd (wfds_ s)).
  set (gone := bool_decide (fd ∉ r ∪ w)).
  assert ((negb (bool_decide (fd ∈ r)) && negb (bool_decide (fd ∈ w)))%bool = gone) as Hg.
  { unfold gone. rewrite <-!bool_decide_not, <-bool_decide_and. apply bool_decide_ext. set_solver. }
  set (high := if (gone && (fd =? highfds_ s)%Z)%bool then scan_high r w (highfds_ s) (pipefd_0 s)
               else highfds_ s).
  exists (SelectAIO r w high (pipefd_0 s)
    (if decide (flag = CB_RDWR) then S (pipe_bytes s) else pipe_bytes s)). cbn [rfds_ wfds_ pipefd_0].
  split; [|split; [|done]].
  { change (bool_decide (fd ∉ r ∪ w)) with gone. unfold high. rewrite <-Hg. by destruct flag. }
  assert (∀ x, x ∈ r ∪ w → x ∈ rfds_ s ∪ wfds_ s) as Hsub.
  { intros x. unfold r, w. destruct flag; simpl; set_solver. }
  assert (∀ x, x ∈ rfds_ s ∪ wfds_ s → x = fd ∨ x ∈ r ∪ w) as Hsup.
  { intros x. unfold r, w. destruct (decide (x = fd)); [by left|]. destruct flag; simpl; set_solver. }
  assert (pipefd_0 s ∈ r) as Hpr by (unfold r; destruct flag; simpl; set_solver).
  assert (high ∈ r ∪ w ∧ ∀ x, x ∈ r ∪ w → (x <= high)%Z) as [Hh1 Hh2].
  { unfold high. destruct gone eqn:Eg; simpl; [destruct (Z.eqb_spec fd (highfds_ s)) as [->|Hne]|].
    - apply scan_high_spec; [|done]. intros x Hx%Hsub. pose proof (H5 x Hx).
      apply H6, fd_ok_true in Hx. lia.
    - split; [destruct (Hsup _ H4); congruence|auto].
    - unfold gone in Eg. apply bool_decide_eq_false in Eg. split; [|auto].
      destruct (Hsup _ H4) as [->|]; [by apply dec_stable|done]. }
  constructor; cbn [pipefd_0 rfds_ wfds_ highfds_]; [done|done| |done|done|auto].
  unfold w. destruct flag; simpl; set_solver.
Qed.

#[global] Program Instance select_spec : AioSpec select_aio := {|
  aio_ok := select_ok; own_fd := pipefd_0; reading := rfds_; writing := wfds_ |}.
Next Obligation. apply select_watch_ok. Qed.
Next Obligation. apply select_unwatch_ok. Qed.
Next Obligation.
  intros fd flag s _ Hfd Hfl. simpl. unfold select_is_watched, FD_ISSET. rewrite Hfd.
  destruct flag; simpl; [done|f_equal; apply bool_decide_ext; naive_solver..|].
  case_bool_decide; [f_equal; apply bool_decide_ext; naive_solver|].
  f_equal. symmetry. apply bool_decide_eq_false. naive_solver.
Qed.

(** ** wait_ready *)
Lemma collect_spec fds r w p n rd wr :
  NoDup fds → (p ∈ fds → p ∈ r → n ≠ 0) →
  collect fds r w p n rd wr
  = Ok (rd ++ filter (λ fd, fd ∈ r ∧ fd ≠ p) fds, wr ++ filter (λ fd, fd ∈ w ∧ ¬ (fd = p ∧ p ∈ r)) fds,
        if decide (p ∈ fds ∧ p ∈ r) then pred n else n).
Proof.
  intros Hnd. revert n rd wr. induction Hnd as [|fd fds Hfd Hnd IH]; intros n rd wr Hn.
  - cbn [collect]. rewrite !filter_nil, !app_nil_r. by rewrite decide_False by set_solver.
  - cbn [collect]. case_bool_decide as Hp.
    + destruct Hp as [-> Hr]. destruct n as [|n]; [by destruct (Hn ltac:(set_solver) Hr)|].
      rewrite IH by done. rewrite !filter_cons_False by naive_solver.
      rewrite (decide_False (P := p ∈ fds ∧ _)) by naive_solver. by rewrite decide_True by set_solver.
    + rewrite IH by set_solver. rewrite !filter_cons.
      rewrite (decide_ext (p ∈ fd :: fds ∧ p ∈ r) (p ∈ fds ∧ p ∈ r)) by set_solver.
      do 3 f_equal; repeat case_bool_decide; repeat case_decide;
        rewrite <-?(assoc_L (++)); done || naive_solver.
Qed.

(** ** The loop and the threads that remove descriptors

    The thread of [wait_loop]: at the top, before the copy of the sets, in select,
    with descriptors to serve, in a callback. *)
Inductive loop_pc :=
  | LTop | LCopy | LSelect (r w : gset Z) (high : Z)
  | LServe (readable writable : list Z) | LCall (fd : Z) (readable writable : list Z).

(** A thread in [block_remove_fd]: waiting for [changedone_c_], woken, returned (and
    the descriptor not reused yet). *)
Inductive remover := RIdle | RWait (fd : Z) | RWoken (fd : Z) | RDone (fd : Z).
Definition removes (r : remover) : option Z :=
  match r with RIdle => None | RWait fd | RWoken fd | RDone fd => Some fd end.
Definition woken (r : remover) : remover := match r with RWait fd => RWoken fd | r => r end.

Record psys := PSys { ps_mgr : pollmgr select_aio; ps_loop : loop_pc; ps_rem : list remover }.

(** The critical section at the top of the loop, with the broadcast. *)
Definition loop_top (σ : psys) : psys :=
  if pending_change_ (ps_mgr σ)
  then PSys (set_pending (ps_mgr σ) false) LCopy (woken <$> ps_rem σ)
  else PSys (ps_mgr σ) LCopy (ps_rem σ).

(** One turn over the ready descriptors: readable ones first. *)
Definition serve (p : pollmgr select_aio) (rd wr : list Z) : outcome loop_pc :=
  match rd with
  | fd :: rd =>
      c ← callback_at fd p; Ok (match c with Some _ => LCall fd rd wr | None => LServe rd wr end)
  | [] =>
      match wr with
      | fd :: wr =>
          c ← callback_at fd p; Ok (match c with Some _ => LCall fd [] wr | None => LServe [] wr end)
      | [] => Ok LTop
      end
  end.

(** select reports only descriptors it was asked about, and the pipe only when there
    is a byte in it. *)
Definition sel_ok (r w : gset Z) (s : select_aio) (sel : select_result) : Prop :=
  match sel with
  | SelectReady r' w' => r' ⊆ r ∧ w' ⊆ w ∧ (pipefd_0 s ∈ r' → pipe_bytes s ≠ 0)
  | SelectEintr => True
  | SelectError => False
  end.

(** The steps.  A descriptor that is being removed is not added again before it is
    closed, and the pipe's is nobody's connection.  [wakes]: may a wait end without a
    broadcast? *)
Inductive poll_step (wakes : bool) : psys → psys → Prop :=
  | s_add fd flag ch p p' l rs :
      (∀ t r, rs !! t = Some r → removes r ≠ Some fd) → fd ≠ pipefd_0 (aio_ p) → flag ≠ CB_NONE →
      add_callback fd flag ch p = Ok p' → poll_step wakes (PSys p l rs) (PSys p' l rs)
  | s_del fd flag p p' l rs :
      fd ≠ pipefd_0 (aio_ p) → del_callback fd flag p = Ok p' →
      poll_step wakes (PSys p l rs) (PSys p' l rs)
  | s_remove t fd p p' l rs :
      rs !! t = Some RIdle → fd ≠ pipefd_0 (aio_ p) → block_remove_begin fd p = Ok p' →
      poll_step wakes (PSys p l rs) (PSys p' l (<[t := RWait fd]> rs))
  | s_removed t fd p p' l rs :
      rs !! t = Some (RWoken fd) → block_remove_end fd p = Ok p' →
      poll_step wakes (PSys p l rs) (PSys p' l (<[t := RDone fd]> rs))
  | s_close t fd p l rs :
      rs !! t = Some (RDone fd) → poll_step wakes (PSys p l rs) (PSys p l (<[t := RIdle]> rs))
  | s_top p rs : poll_step wakes (PSys p LTop rs) (loop_top (PSys p LTop rs))
  | s_copy p rs :
      poll_step wakes (PSys p LCopy rs)
        (PSys p (LSelect (rfds_ (aio_ p)) (wfds_ (aio_ p)) (highfds_ (aio_ p))) rs)
  | s_select r w high sel rd wr a p rs :
      sel_ok r w (aio_ p) sel → select_wait_ready high sel (aio_ p) = Ok (rd, wr, a) →
      poll_step wakes (PSys p (LSelect r w high) rs) (PSys (set_aio p a) (LServe rd wr) rs)
  | s_serve rd wr l p rs :
      serve p rd wr = Ok l → poll_step wakes (PSys p (LServe rd wr) rs) (PSys p l rs)
  | s_return fd rd wr p rs :
      poll_step wakes (PSys p (LCall fd rd wr) rs) (PSys p (LServe rd wr) rs)
  | s_spurious t fd p l rs :
      wakes = true → rs !! t = Some (RWait fd) →
      poll_step wakes (PSys p l rs) (PSys p l (<[t := RWoken fd]> rs)).

(** The descriptors the loop may still call back for. *)
Definition in_flight (l : loop_pc) (fd : Z) : Prop :=
  match l with
  | LTop | LCopy => False
  | LSelect r w _ => fd ∈ r ∪ w
  | LServe rd wr => fd ∈ rd ++ wr
  | LCall fd' rd wr => fd = fd' ∨ fd ∈ rd ++ wr
  end.

Definition quiet_fd (σ : psys) (fd : Z) : Prop :=
  fd ∉ rfds_ (aio_ (ps_mgr σ)) ∪ wfds_ (aio_ (ps_mgr σ)).

(** What a removing thread can rely on, by where it is. *)
Definition remover_inv (σ : psys) (r : remover) : Prop :=
  match r with
  | RIdle => True
  | RWait fd => quiet_fd σ fd ∧ pending_change_ (ps_mgr σ) = true ∧
      match ps_loop σ with LCopy | LSelect _ _ _ => pipe_bytes (aio_ (ps_mgr σ)) ≠ 0 | _ => True end
  | RWoken fd => quiet_fd σ fd ∧ ¬ in_flight (ps_loop σ) fd
  | RDone fd => quiet_fd σ fd ∧ ¬ in_flight (ps_loop σ) fd ∧ callbacks_ (ps_mgr σ) !! fd = None
  end.

Definition poll_inv (σ : psys) : Prop :=
  select_ok (aio_ (ps_mgr σ)) ∧
  match ps_loop σ with
  | LSelect r w high => pipefd_0 (aio_ (ps_mgr σ)) ∈ r ∧ (pipefd_0 (aio_ (ps_mgr σ)) <= high)%Z
  | _ => True
  end ∧
  ∀ t r, ps_rem σ !! t = Some r → remover_inv σ r.

Definition watched (s : select_aio) : gset Z := rfds_ s ∪ wfds_ s.

Lemma select_watch_inv fd flag s s' :
  select_watch_fd fd flag s = Ok s' → select_ok s → fd ≠ pipefd_0 s → flag ≠ CB_NONE →
  select_ok s' ∧ pipefd_0 s' = pipefd_0 s ∧ watched s' ⊆ {[fd]} ∪ watched s ∧ pipe_bytes s' ≠ 0.
Proof.
  intros E Hs Hp Hf. assert (fd_ok fd = true) as Hfd.
  { unfold select_watch_fd, FD_SET in E. destruct (fd_ok fd); [done|by destruct flag]. }
  assert (pipe_bytes s' ≠ 0).
  { unfold select_watch_fd, FD_SET in E. rewrite Hfd in E. destruct flag; simpl in E; by simplify_eq. }
  destruct (select_watch_ok fd flag s Hs Hfd Hp Hf) as (s1 & E1 & Hok & Hpp & Hr & Hw).
  rewrite E in E1. injection E1 as <-. split_and!; [done..| |done].
  unfold watched. rewrite Hr, Hw. destruct flag; simpl; set_solver.
Qed.

Lemma select_unwatch_inv fd flag b s s' :
  select_unwatch_fd fd flag s = Ok (b, s') → select_ok s → fd ≠ pipefd_0 s →
  select_ok s' ∧ pipefd_0 s' = pipefd_0 s ∧ watched s' ⊆ watched s ∧
  (pipe_bytes s ≠ 0 → pipe_bytes s' ≠ 0) ∧ (flag = CB_RDWR → fd ∉ watched s' ∧ pipe_bytes s' ≠ 0).
Proof.
  intros E Hs Hp. assert (fd_ok fd = true ∧ flag ≠ CB_NONE) as [Hfd Hf].
  { unfold select_unwatch_fd, FD_CLR in E. destruct (fd_ok fd), flag; done. }
  destruct (select_unwatch_ok fd flag s Hs Hfd Hp Hf) as (s1 & E1 & Hok & Hpp & Hr & Hw).
  rewrite E in E1. injection E1 as _ <-.
  assert (pipe_bytes s' = if decide (flag = CB_RDWR) then S (pipe_bytes s) else pipe_bytes s) as Hb.
  { unfold select_unwatch_fd, FD_CLR, FD_ISSET in E. rewrite Hfd in E.
    destruct flag; simpl in E; by simplify_eq. }
  rewrite Hb. unfold watched. rewrite Hr, Hw. split_and!; [done..| | |].
  - destruct flag; simpl; set_solver.
  - by case_decide.
  - intros ->. rewrite decide_True by done. simpl. split; [set_solver|done].
Qed.

Lemma wait_ready_inv r w high sel s rd wr a :
  sel_ok r w s sel → select_wait_ready high sel s = Ok (rd, wr, a) →
  (∀ fd, fd ∈ rd ++ wr → fd ∈ r ∪ w) ∧ rfds_ a = rfds_ s ∧ wfds_ a = wfds_ s ∧
  highfds_ a = highfds_ s ∧ pipefd_0 a = pipefd_0 s.
Proof.
  destruct sel as [r' w'| |]; simpl; [|intros _ [= <- <- <-]; set_solver|done].
  intros (Hr & Hw & Hn). rewrite collect_spec; [|apply NoDup_seqZ|auto].
  simpl. intros [= <- <- <-]. split; [|done]. intros fd.
  rewrite elem_of_app, !list_elem_of_filter. set_solver.
Qed.

Lemma select_ok_same s a :
  rfds_ a = rfds_ s → wfds_ a = wfds_ s → highfds_ a = highfds_ s → pipefd_0 a = pipefd_0 s →
  select_ok s → select_ok a.
Proof. intros E1 E2 E3 E4 [? ? ? ? ? ?]. constructor; rewrite ?E1, ?E2, ?E3, ?E4; done. Qed.

(** Places where a byte in the pipe keeps the loop from sleeping. *)
Definition may_sleep (l : loop_pc) : bool :=
  match l with LCopy | LSelect _ _ _ => true | _ => false end.

Lemma remover_inv_frame σ σ' r :
  (∀ fd, removes r = Some fd → quiet_fd σ fd → quiet_fd σ' fd) →
  (∀ fd, r = RWait fd → pending_change_ (ps_mgr σ) = true →
    pending_change_ (ps_mgr σ') = true ∧
    (may_sleep (ps_loop σ') = true →
      may_sleep (ps_loop σ) = true ∧
      (pipe_bytes (aio_ (ps_mgr σ)) ≠ 0 → pipe_bytes (aio_ (ps_mgr σ')) ≠ 0))) →
  (∀ fd, removes r = Some fd → quiet_fd σ fd → in_flight (ps_loop σ') fd → in_flight (ps_loop σ) fd) →
  (∀ fd, removes r = Some fd → callbacks_ (ps_mgr σ) !! fd = None → callbacks_ (ps_mgr σ') !! fd = None) →
  remover_inv σ r → remover_inv σ' r.
Proof.
  intros Hq Hp Hf Hc. destruct r as [|fd|fd|fd]; simpl; [done| |naive_solver..].
  intros (H1 & H2 & H3). destruct (Hp fd eq_refl H2) as [H4 H5]. split; [auto|]. split; [done|].
  destruct (ps_loop σ'); try done; destruct (H5 eq_refl) as [H6 H7]; apply H7; by destruct (ps_loop σ).
Qed.

Lemma serve_in_flight p rd wr l fd :
  serve p rd wr = Ok l → in_flight l fd → fd ∈ rd ++ wr.
Proof.
  destruct rd as [|x rd]; [destruct wr as [|x wr]|]; simpl.
  - by intros [= <-].
  - intros ([c|] & _ & [= <-])%bind_Ok; set_solver.
  - intros ([c|] & _ & [= <-])%bind_Ok; set_solver.
Qed.

Lemma serve_awake p rd wr l : serve p rd wr = Ok l → may_sleep l = false.
Proof.
  destruct rd as [|x rd]; [destruct wr as [|x wr]|]; simpl.
  - by intros [= <-].
  - by intros ([c|] & _ & [= <-])%bind_Ok.
  - by intros ([c|] & _ & [= <-])%bind_Ok.
Qed.

Lemma set_callback_inv {M} fd ch (p p' : pollmgr M) :
  set_callback fd ch p = Ok p' →
  p' = PollMgr (match ch with Some c => <[fd := c]> (callbacks_ p) | None => delete fd (callbacks_ p) end)
         (aio_ p) (pending_change_ p).
Proof. unfold set_callback. by intros (o & _ & [= <-])%bind_Ok. Qed.

Lemma quiet_fd_sub σ σ' fd :
  watched (aio_ (ps_mgr σ')) ⊆ watched (aio_ (ps_mgr σ)) → quiet_fd σ fd → quiet_fd σ' fd.
Proof. unfold quiet_fd, watched. set_solver. Qed.

(** A step that changes the manager but not the loop's place, and a thread's place at
    most. *)
Lemma poll_inv_mgr p p' l rs rs' :
  poll_inv (PSys p l rs) → select_ok (aio_ p') → pipefd_0 (aio_ p') = pipefd_0 (aio_ p) →
  (∀ t r, rs' !! t = Some r → remover_inv (PSys p' l rs') r) → poll_inv (PSys p' l rs').
Proof. intros (_ & Hl & _) Hok Hp Hr. split; [done|]. split; [|done]. simpl in *. by rewrite Hp. Qed.

Lemma poll_inv_add fd flag ch p p' l rs :
  poll_inv (PSys p l rs) → (∀ t r, rs !! t = Some r → removes r ≠ Some fd) →
  fd ≠ pipefd_0 (aio_ p) → flag ≠ CB_NONE → add_callback fd flag ch p = Ok p' →
  poll_inv (PSys p' l rs).
Proof.
  intros Hi Hno Hp Hf E. pose proof Hi as (Hok & _ & Hr). simpl in *. unfold add_callback in E.
  apply bind_Ok in E as (u & _ & (a & Ea & (o & _ & (u' & _ & ->%set_callback_inv)%bind_Ok)%bind_Ok)%bind_Ok).
  destruct (select_watch_inv _ _ _ _ Ea Hok Hp Hf) as (Hok' & Hpp & Hsub & Hb).
  apply (poll_inv_mgr p _ l rs); [done..|]. intros t r Ht. pose proof (Hno t r Ht) as Hn.
  apply (remover_inv_frame (PSys p l rs)); simpl; [| |done| |by eapply Hr].
  - intros fd' Hr' Hq. unfold quiet_fd, watched in *. simpl. set_solver.
  - intros fd' -> Hpend. done.
  - intros fd' Hr' Hc. rewrite lookup_insert_ne by congruence. done.
Qed.

Lemma poll_inv_del fd flag p p' l rs :
  poll_inv (PSys p l rs) → fd ≠ pipefd_0 (aio_ p) → del_callback fd flag p = Ok p' →
  poll_inv (PSys p' l rs).
Proof.
  intros Hi Hp E. pose proof Hi as (Hok & _ & Hr). simpl in *. unfold del_callback in E.
  apply bind_Ok in E as ([gone a] & Ea & E).
  destruct (select_unwatch_inv _ _ _ _ _ Ea Hok Hp) as (Hok' & Hpp & Hsub & Hb & _).
  assert (aio_ p' = a ∧ pending_change_ p' = pending_change_ p ∧
    ∀ fd', callbacks_ p !! fd' = None → callbacks_ p' !! fd' = None) as (<- & Hpend & Hc).
  { destruct gone; [apply set_callback_inv in E as ->|injection E as <-]; simpl; [|done].
    split_and!; [done..|]. intros fd' Hfd'. rewrite lookup_delete_None. by right. }
  apply (poll_inv_mgr p _ l rs); [done..|]. intros t r Ht.
  apply (remover_inv_frame (PSys p l rs)); simpl; [| |done|by auto|by eapply Hr].
  - intros fd' _. by apply quiet_fd_sub.
  - intros fd' -> ?. by rewrite Hpend.
Qed.

Lemma poll_inv_remove t fd p p' l rs :
  poll_inv (PSys p l rs) → rs !! t = Some RIdle → fd ≠ pipefd_0 (aio_ p) →
  block_remove_begin fd p = Ok p' → poll_inv (PSys p' l (<[t := RWait fd]> rs)).
Proof.
  intros Hi Ht Hp E. pose proof Hi as (Hok & _ & Hr). simpl in *. unfold block_remove_begin in E.
  apply bind_Ok in E as ([gone a] & Ea & [= <-]).
  destruct (select_unwatch_inv fd CB_RDWR gone (aio_ p) a Ea Hok Hp) as (Hok' & Hpp & Hsub & Hb & Hrdwr).
  destruct (Hrdwr eq_refl) as [Hnot Hb']. apply (poll_inv_mgr p _ l rs); [done..|].
  intros t' r [(-> & <- & _)|[_ Ht']]%list_lookup_insert_Some.
  - simpl. split; [done|]. split; [done|]. by destruct l.
  - apply (remover_inv_frame (PSys p l rs)); simpl; [|done..|by eapply Hr].
    intros fd' _. by apply quiet_fd_sub.
Qed.

Lemma poll_inv_removed t fd p p' l rs :
  poll_inv (PSys p l rs) → rs !! t = Some (RWoken fd) →
  block_remove_end fd p = Ok p' → poll_inv (PSys p' l (<[t := RDone fd]> rs)).
Proof.
  intros Hi Ht ->%set_callback_inv. pose proof Hi as (Hok & _ & Hr). simpl in *.
  apply (poll_inv_mgr p _ l rs); [done..|].
  intros t' r [(-> & <- & _)|[_ Ht']]%list_lookup_insert_Some.
  - destruct (Hr _ _ Ht) as [? ?]. simpl. split_and!; [done..|]. apply lookup_delete_eq.
  - apply (remover_inv_frame (PSys p l rs)); simpl; [done..| |by eapply Hr].
    intros fd' _ Hc. rewrite lookup_delete_None. by right.
Qed.

Lemma poll_inv_top p rs : poll_inv (PSys p LTop rs) → poll_inv (loop_top (PSys p LTop rs)).
Proof.
  intros (Hok & _ & Hr). unfold loop_top. simpl in *.
  destruct (pending_change_ p) eqn:Ep; (split; [done|]); (split; [done|]); simpl.
  - intros t r (r' & -> & Ht)%list_lookup_fmap_Some. specialize (Hr _ _ Ht).
    destruct r'; simpl in *; [done|..]; split_and?; naive_solver.
  - intros t r Ht. specialize (Hr _ _ Ht). destruct r; simpl in *;
      [done|destruct Hr as (_ & ? & _); congruence|done..].
Qed.

Lemma poll_inv_step σ σ' : poll_step false σ σ' → poll_inv σ → poll_inv σ'.
Proof.
  intros Hs Hi. destruct Hs; [by eapply poll_inv_add|by eapply poll_inv_del|by eapply poll_inv_remove
    |by eapply poll_inv_removed| |by apply poll_inv_top| | | | |done];
    pose proof Hi as (Hok & Hl & Hr); simpl in *.
  - apply (poll_inv_mgr p _ l rs); [done..|].
    intros t' r [(-> & <- & _)|[_ Ht']]%list_lookup_insert_Some; [done|].
    apply (remover_inv_frame (PSys p l rs)); [done..|by eapply Hr].
  - split; [done|]. split.
    { simpl. destruct Hok as [? ? ? ? Hmax ?]. split; [done|]. apply Hmax. set_solver. }
    intros t r Ht. apply (remover_inv_frame (PSys p LCopy rs)); [done..| |done|by eapply Hr].
    simpl. intros fd _ Hq. done.
  - destruct (wait_ready_inv _ _ _ _ _ _ _ _ H H0) as (Hsub & E1 & E2 & E3 & E4).
    split; [by eapply select_ok_same|]. split; [done|]. intros t r' Ht.
    apply (remover_inv_frame (PSys p (LSelect r w high) rs)); simpl; [| |by auto|done|by eapply Hr].
    + intros fd _. unfold quiet_fd. simpl. by rewrite E1, E2.
    + done.
  - pose proof (serve_awake _ _ _ _ H) as Ha. split; [done|]. split; [by destruct l|]. intros t r Ht.
    apply (remover_inv_frame (PSys p (LServe rd wr) rs)); simpl; [done| | |done|by eapply Hr].
    + intros fd -> ?. split; [done|]. by rewrite Ha.
    + intros fd _ _. by eapply serve_in_flight.
  - split; [done|]. split; [done|]. intros t r Ht.
    apply (remover_inv_frame (PSys p (LCall fd rd wr) rs)); simpl; [done..| |done|by eapply Hr].
    intros fd' _ _ ?. by right.
Qed.

Definition poll_start (a : select_aio) (n : nat) : psys := PSys (new_pollmgr a) LTop (replicate n RIdle).

Lemma poll_inv_reachable a n σ :
  select_ok a → rtc (poll_step false) (poll_start a n) σ → poll_inv σ.
Proof.
  intros Ha Hr. assert (poll_inv (poll_start a n)) as H0.
  { split; [done|]. split; [done|]. intros t r [-> _]%lookup_replicate. done. }
  revert H0. induction Hr as [|x y z Hxy Hyz IH]; [done|]. intros H0. eapply IH, poll_inv_step; done.
Qed.

(** ** Sequences of orders *)
Inductive aio_op := Watch (fd : Z) (flag : poll_flag) | Unwatch (fd : Z) (flag : poll_flag).
Definition op_valid (own : Z) (op : aio_op) : Prop :=
  match op with Watch fd flag | Unwatch fd flag => fd_ok fd = true ∧ fd ≠ own ∧ flag ≠ CB_NONE end.
Definition aio_exec {M} `{AioMgr M} (op : aio_op) (m : M) : outcome M :=
  match op with
  | Watch fd flag => watch_fd fd flag m
  | Unwatch fd flag => '(_, m) ← unwatch_fd fd flag m; Ok m
  end.
Fixpoint aio_run {M} `{AioMgr M} (ops : list aio_op) (m : M) : outcome M :=
  match ops with [] => Ok m | op :: ops => m ← aio_exec op m; aio_run ops m end.

(** The last word on a descriptor, for reading or for writing. *)
Fixpoint last_word (sel : poll_flag → bool) (fd : Z) (ops : list aio_op) (b : bool) : bool :=
  match ops with
  | [] => b
  | Watch fd' flag :: ops => last_word sel fd ops (if decide (fd = fd' ∧ sel flag = true) then true else b)
  | Unwatch fd' flag :: ops => last_word sel fd ops (if decide (fd = fd' ∧ sel flag = true) then false else b)
  end.

Lemma bool_decide_with_fd b fd s x :
  bool_decide (x ∈ with_fd b fd s) = if decide (x = fd ∧ b = true) then true else bool_decide (x ∈ s).
Proof.
  unfold with_fd. destruct b; [|by rewrite decide_False by (by intros [_ ?])].
  case_decide; [apply bool_decide_true|apply bool_decide_ext]; set_solver.
Qed.
Lemma bool_decide_without_fd b fd s x :
  bool_decide (x ∈ without_fd b fd s) = if decide (x = fd ∧ b = true) then false else bool_decide (x ∈ s).
Proof.
  unfold without_fd. destruct b; [|by rewrite decide_False by (by intros [_ ?])].
  case_decide; [apply bool_decide_false|apply bool_decide_ext]; set_solver.
Qed.
Lemma bool_decide_needs (a b : bool) (P Q : Prop) `{!Decision P, !Decision Q} :
  bool_decide ((a = true → P) ∧ (b = true → Q))
  = (implb a (bool_decide P) && implb b (bool_decide Q))%bool.
Proof.
  assert (∀ (c : bool) (R : Prop) `{!Decision R}, bool_decide (c = true → R) = implb c (bool_decide R)) as Hi.
  { intros [] R ?; [apply bool_decide_ext; naive_solver|done]. }
  by rewrite bool_decide_and, !Hi.
Qed.

Lemma aio_run_spec {M} `{AioSpec M} ops (m : M) :
  aio_ok m → Forall (op_valid (own_fd m)) ops →
  ∃ m', aio_run ops m = Ok m' ∧ aio_ok m' ∧ own_fd m' = own_fd m ∧
    ∀ fd, bool_decide (fd ∈ reading m') = last_word reads fd ops (bool_decide (fd ∈ reading m)) ∧
          bool_decide (fd ∈ writing m') = last_word writes fd ops (bool_decide (fd ∈ writing m)).
Proof.
  revert m. induction ops as [|op ops IH]; intros m Hm Hops; [by exists m|].
  apply Forall_cons in Hops as [Hop Hops].
  assert (∃ m1, aio_exec op m = Ok m1 ∧ aio_ok m1 ∧ own_fd m1 = own_fd m ∧
    ∀ fd ops', last_word reads fd (op :: ops') (bool_decide (fd ∈ reading m))
                 = last_word reads fd ops' (bool_decide (fd ∈ reading m1)) ∧
               last_word writes fd (op :: ops') (bool_decide (fd ∈ writing m))
                 = last_word writes fd ops' (bool_decide (fd ∈ writing m1))) as (m1 & E1 & Hm1 & Ho & Hw).
  { destruct op as [fd flag|fd flag]; destruct Hop as (Hfd & Hown & Hflag); cbn [aio_exec].
    - destruct (watch_spec fd flag m Hm Hfd Hown Hflag) as (m1 & -> & Hm1 & Ho & Hr & Hw).
      exists m1. split_and!; [done..|]. intros x ops'. cbn [last_word]. by rewrite Hr, Hw, !bool_decide_with_fd.
    - destruct (unwatch_spec fd flag m Hm Hfd Hown Hflag) as (m1 & -> & Hm1 & Ho & Hr & Hw).
      exists m1. split_and!; [done..|]. intros x ops'. cbn [last_word]. by rewrite Hr, Hw, !bool_decide_without_fd. }
  cbn [aio_run]. rewrite E1. rewrite <-Ho in Hops. destruct (IH m1 Hm1 Hops) as (m' & E' & Hm' & Ho' & Hw').
  exists m'. split; [done|]. split; [done|]. split; [congruence|]. intros fd.
  destruct (Hw fd ops) as [-> ->]. apply Hw'.
Qed.

(** [SelectAIO] follows its orders: after any sequence of watch and unwatch of
    descriptors, [is_watched] answers by the last word on the descriptor, and
    [highfds_] is the highest descriptor watched, so that select looks at all of them. *)
Theorem select_follows_orders pipe0 ops :
  fd_ok pipe0 = true → Forall (op_valid pipe0) ops →
  ∃ s0 s, new_select_aio pipe0 = Ok s0 ∧ aio_run ops s0 = Ok s ∧
    (∀ fd flag, fd_ok fd = true → fd ≠ pipe0 → flag ≠ CB_NONE →
       select_is_watched fd flag s
         = Ok (implb (reads flag) (last_word reads fd ops false) &&
               implb (writes flag) (last_word writes fd ops false))%bool) ∧
    highfds_ s ∈ watched s ∧ ∀ fd, fd ∈ watched s → (fd <= highfds_ s)%Z.
Proof.
  intros Hp Hops. assert (∃ s0, new_select_aio pipe0 = Ok s0 ∧ rfds_ s0 = {[pipe0]} ∧ wfds_ s0 = ∅ ∧
    pipefd_0 s0 = pipe0) as (s0 & E0 & Hr0 & Hw0 & Hp0).
  { unfold new_select_aio, FD_SET. rewrite Hp. eexists. split; [done|]. simpl. split_and!; set_solver. }
  pose proof (new_select_ok _ _ E0) as Hok. subst pipe0.
  destruct (aio_run_spec ops s0) as (s & E & Hs & _ & Hw); [exact Hok|exact Hops|]. exists s0, s.
  split; [done|]. split; [done|]. split; [|destruct Hs; done]. intros fd flag Hfd Hne Hfl.
  pose proof (is_watched_spec fd flag s Hs Hfd Hfl) as Ei. simpl in Ei. rewrite Ei. f_equal.
  destruct (Hw fd) as [Hwr Hww]. simpl in Hwr, Hww.
  rewrite Hr0, (bool_decide_false (fd ∈ {[pipefd_0 s0]})) in Hwr by set_solver.
  rewrite Hw0, (bool_decide_false (fd ∈ ∅)) in Hww by set_solver. rewrite <-Hwr, <-Hww.
  apply bool_decide_needs.
Qed.

Lemma select_follows_orders_witness :
  ∃ s0 s, new_select_aio 4 = Ok s0 ∧ aio_run [Watch 9 CB_RDWR; Unwatch 9 CB_WRONLY] s0 = Ok s ∧
    select_is_watched 9 CB_RDONLY s = Ok true ∧ select_is_watched 9 CB_RDWR s = Ok false.
Proof.
  destruct (select_follows_orders 4 [Watch 9 CB_RDWR; Unwatch 9 CB_WRONLY]) as (s0 & s & E0 & E & Hw & _).
  - reflexivity.
  - repeat constructor; discriminate.
  - exists s0, s. split; [exact E0|]. split; [exact E|].
    split; (rewrite Hw; [reflexivity|reflexivity|discriminate|discriminate]).
Defined.

(** C29: When [block_remove_fd] has returned, the callback of the descriptor is gone, and
    until the descriptor is added again the loop is not in it and will not call it; and
    while [block_remove_fd] waits, the loop cannot sleep: the descriptors select was
    given include the pipe, and the pipe has a byte.  True of the runs in which every
    [pthread_cond_wait] of [block_remove_fd] ends by a broadcast: POSIX also allows a
    spurious wake-up, against which the code, whose wait is in no loop, has no guard. *)
Theorem block_remove_fd_safe a n σ t fd :
  select_ok a → rtc (poll_step false) (poll_start a n) σ →
  (ps_rem σ !! t = Some (RDone fd) →
     callbacks_ (ps_mgr σ) !! fd = None ∧ ¬ in_flight (ps_loop σ) fd) ∧
  (ps_rem σ !! t = Some (RWait fd) →
     ∀ r w high, ps_loop σ = LSelect r w high →
       pipefd_0 (aio_ (ps_mgr σ)) ∈ r ∧ (pipefd_0 (aio_ (ps_mgr σ)) <= high)%Z ∧
       pipe_bytes (aio_ (ps_mgr σ)) ≠ 0).
Proof.
  intros Ha Hr. destruct (poll_inv_reachable _ _ _ Ha Hr) as (_ & Hl & Hrem). split.
  - intros Ht. destruct (Hrem _ _ Ht) as (_ & ? & ?). done.
  - intros Ht r w high El. destruct (Hrem _ _ Ht) as (_ & _ & Hb). rewrite El in Hl, Hb. naive_solver.
Qed.

(** A connection on descriptor 9 is removed while the loop is in select. *)
Definition ex_aio : select_aio := SelectAIO {[4%Z]} ∅ 4 4 0.
Lemma ex_aio_ok : select_ok ex_aio.
Proof. apply (new_select_ok 4). unfold new_select_aio. simpl. by rewrite (right_id_L ∅ (∪)). Qed.

Lemma block_remove_fd_safe_witness :
  ∃ σ, rtc (poll_step false) (poll_start ex_aio 1) σ ∧ ps_rem σ !! 0 = Some (RDone 9) ∧
    callbacks_ (ps_mgr σ) !! 9%Z = None ∧ ¬ in_flight (ps_loop σ) 9.
Proof.
  assert (∃ σ, rtc (poll_step false) (poll_start ex_aio 1) σ ∧ ps_rem σ !! 0 = Some (RDone 9)) as (σ & Hr & Hd).
  { eexists. split.
    - eapply rtc_l; [eapply (s_add _ 9 CB_RDONLY 1); [|discriminate|discriminate|vm_compute; reflexivity]|].
      { by intros [|t] r [= <-]. }
      eapply rtc_l; [apply s_top|]. eapply rtc_l; [apply s_copy|].
      eapply rtc_l; [eapply (s_remove _ 0 9); [reflexivity|discriminate|vm_compute; reflexivity]|].
      eapply rtc_l; [eapply (s_select _ _ _ _ (SelectReady {[4%Z]} ∅)); [|vm_compute; reflexivity]|].
      { split_and!; [by apply (bool_decide_unpack _); vm_compute..|done]. }
      eapply rtc_l; [eapply s_serve; vm_compute; reflexivity|]. eapply rtc_l; [apply s_top|].
      eapply rtc_l; [eapply (s_removed _ 0 9); vm_compute; reflexivity|]. apply rtc_refl.
    - reflexivity. }
  exists σ. split; [exact Hr|]. split; [exact Hd|].
  exact (proj1 (block_remove_fd_safe ex_aio 1 σ 0 9 ex_aio_ok Hr) Hd).
Defined.

(** A wait that ends by itself is not checked for: [block_remove_fd] then returns while
    the loop is in the callback of the descriptor. *)
Theorem block_remove_spurious_wakeup :
  ∃ σ rd wr, rtc (poll_step true) (poll_start ex_aio 1) σ ∧
    ps_rem σ !! 0 = Some (RDone 9) ∧ ps_loop σ = LCall 9 rd wr.
Proof.
  eexists _, _, _. split; [|split].
  - eapply rtc_l; [eapply (s_add _ 9 CB_RDONLY 1); [|discriminate|discriminate|vm_compute; reflexivity]|].
    { by intros [|t] r [= <-]. }
    eapply rtc_l; [apply s_top|]. eapply rtc_l; [apply s_copy|].
    eapply rtc_l; [eapply (s_select _ _ _ _ (SelectReady {[9%Z]} ∅)); [|vm_compute; reflexivity]|].
    { split_and!; [by apply (bool_decide_unpack _); vm_compute..|]. intros H%elem_of_singleton. discriminate. }
    eapply rtc_l; [eapply s_serve; vm_compute; reflexivity|].
    eapply rtc_l; [eapply (s_remove _ 0 9); [reflexivity|discriminate|vm_compute; reflexivity]|].
    eapply rtc_l; [eapply (s_spurious _ 0 9); reflexivity|].
    eapply rtc_l; [eapply (s_removed _ 0 9); vm_compute; reflexivity|]. apply rtc_refl.
  - reflexivity.
  - reflexivity.
Qed.


(** [EPollAIO::is_watched] never says yes: [CB_MASK] is the complement of the flags, so
    the status that is compared is always 0. *)
Definition status_ok (s : epoll_aio) : Prop := ∀ fd, Z.land (fdstatus fd s) CB_MASK = 0%Z.

Lemma status_ok_insert fd st s log :
  status_ok s → Z.land st CB_MASK = 0%Z → status_ok (EPollAIO (<[fd := st]> (fdstatus_ s)) log).
Proof.
  intros Hs Hst x. unfold fdstatus. simpl. destruct (decide (x = fd)) as [->|Hx].
  - by rewrite lookup_insert_eq.
  - rewrite lookup_insert_ne by done. apply Hs.
Qed.

Lemma status_ok_exec op s s' : status_ok s → aio_exec op s = Ok s' → status_ok s'.
Proof.
  intros Hs. destruct op as [fd flag|fd flag]; simpl.
  - unfold epoll_watch_fd. intros (u & _ & (u' & _ & [= <-])%bind_Ok)%bind_Ok. apply status_ok_insert; [done|].
    rewrite Z.land_lor_distr_l, (Hs fd). by destruct flag.
  - unfold epoll_unwatch_fd. intros ([b m] & E & [= <-])%bind_Ok.
    apply bind_Ok in E as (u & _ & (u' & _ & [= _ <-])%bind_Ok). apply status_ok_insert; [done|].
    rewrite <-Z.land_assoc, (Z.land_comm (Z.lnot _)), Z.land_assoc, (Hs fd). apply Z.land_0_l.
Qed.

(** EPollAIO never answers that a descriptor is watched: after any operations the word
    it keeps for a descriptor has no flag bit left under the mask that is_watched uses. *)
Theorem epoll_never_watched ops fd flag s :
  aio_run ops (EPollAIO ∅ []) = Ok s → flag ≠ CB_NONE → epoll_is_watched fd flag s ≠ Ok true.
Proof.
  intros Hr Hf. assert (status_ok s) as Hs.
  { assert (status_ok (EPollAIO ∅ [])) as H0 by (intros x; reflexivity). revert H0 Hr.
    generalize (EPollAIO ∅ []). induction ops as [|op ops IH]; intros m Hm; cbn [aio_run].
    - by intros [= <-].
    - intros (m1 & E1 & E2)%bind_Ok. eapply IH; [|done]. by eapply status_ok_exec. }
  unfold epoll_is_watched. intros (u & _ & E)%bind_Ok. rewrite (Hs fd) in E. by destruct flag.
Qed.

(** [wait_ready] reports exactly the descriptors select found ready, the pipe aside,
    whose byte it takes out; and leaves the sets alone. *)
Theorem wait_ready_reports r w s :
  select_ok s → r ⊆ rfds_ s → w ⊆ wfds_ s → (pipefd_0 s ∈ r → pipe_bytes s ≠ 0) →
  ∃ rd wr a, select_wait_ready (highfds_ s) (SelectReady r w) s = Ok (rd, wr, a) ∧
    (∀ fd, fd ∈ rd ↔ fd ∈ r ∧ fd ≠ pipefd_0 s) ∧ (∀ fd, fd ∈ wr ↔ fd ∈ w) ∧
    NoDup rd ∧ NoDup wr ∧ watched a = watched s ∧
    pipe_bytes a = if decide (pipefd_0 s ∈ r) then pred (pipe_bytes s) else pipe_bytes s.
Proof.
  intros [H1 H2 H3 H4 H5 H6] Hr Hw Hn. simpl.
  assert (∀ fd, fd ∈ rfds_ s ∪ wfds_ s → fd ∈ seqZ 0 (highfds_ s + 1)) as Hin.
  { intros fd Hfd. apply elem_of_seqZ. pose proof (H5 fd Hfd). apply H6, fd_ok_true in Hfd. lia. }
  rewrite collect_spec; [|apply NoDup_seqZ|auto]. run. do 3 eexists. split; [done|]. split_and!.
  - intros fd. rewrite app_nil_l, list_elem_of_filter. set_solver.
  - intros fd. rewrite app_nil_l, list_elem_of_filter. set_solver.
  - apply NoDup_filter, NoDup_seqZ.
  - apply NoDup_filter, NoDup_seqZ.
  - done.
  - simpl. apply decide_ext. set_solver.
Qed.

Lemma wait_ready_reports_witness :
  ∃ rd wr a, select_wait_ready 4 (SelectReady ∅ ∅) ex_aio = Ok (rd, wr, a) ∧ ∀ fd, fd ∈ wr ↔ fd ∈ (∅ : gset Z).
Proof.
  destruct (wait_ready_reports ∅ ∅ ex_aio ex_aio_ok) as (rd & wr & a & E & _ & Hw & _).
  - set_solver.
  - set_solver.
  - set_solver.
  - exists rd, wr, a. split; [exact E|exact Hw].
Defined.
