(* ===== verification/Process.v ===== *)
(** * What a process has once (rpc/pollmgr.cc, rpc/rpc.cc, rpc/jsl_log, tprintf.h, unmount.cc)

    The one PollMgr of a process, made by whichever thread asks first; the seed of the
    random numbers; the messages for debugging; the program that unmounts. *)

From stdpp Require Import base tactics numbers list strings relations.
From Stdlib Require Import ZArith Lia Ascii.
From S2P Require Import Prelude CxxString Marshall Connection PollMgr.

(** ** PollMgr::Instance

    [pthread_once] runs its function in the first caller; others that come before it has
    returned wait, later ones go on at once. *)
Inductive once := OnceInit | OnceRunning | OnceDone.

(** A caller of [PollMgr::Instance]: before [pthread_once], in [PollMgrInit], after
    [pthread_once], returned with [instance]. *)
Inductive asker := Calling | Initialising | Initialised | Got (p : option nat).

(** [pollmgr_is_initialized], [PollMgr::instance], the PollMgr objects made, the callers. *)
Record singleton := Singleton {
  o_ctl : once; instance : option nat; o_made : list nat; o_callers : list asker }.

Inductive once_step : singleton → singleton → Prop :=
  | o_first t i mk cs : cs !! t = Some Calling →
      once_step (Singleton OnceInit i mk cs) (Singleton OnceRunning i mk (<[t := Initialising]> cs))
  | o_init t p c i mk cs : cs !! t = Some Initialising → p ∉ mk →
      once_step (Singleton c i mk cs) (Singleton OnceDone (Some p) (mk ++ [p]) (<[t := Initialised]> cs))
  | o_later t i mk cs : cs !! t = Some Calling →
      once_step (Singleton OnceDone i mk cs) (Singleton OnceDone i mk (<[t := Initialised]> cs))
  | o_return t c i mk cs : cs !! t = Some Initialised →
      once_step (Singleton c i mk cs) (Singleton c i mk (<[t := Got i]> cs)).

Definition once_start (n : nat) : singleton := Singleton OnceInit None [] (replicate n Calling).

Record once_inv (s : singleton) : Prop := Oinv {
  ov_made : match o_ctl s with OnceDone => ∃ p, instance s = Some p ∧ o_made s = [p] | _ => instance s = None ∧ o_made s = [] end;
  ov_callers t c : o_callers s !! t = Some c →
    match c with
    | Calling => True
    | Initialising => o_ctl s = OnceRunning
    | Initialised => o_ctl s = OnceDone
    | Got r => o_ctl s = OnceDone ∧ r = instance s
    end;
  ov_one t t' : o_callers s !! t = Some Initialising → o_callers s !! t' = Some Initialising → t = t' }.

Lemma once_inv_step s s' : once_inv s → once_step s s' → once_inv s'.
Proof.
  intros [Hm Hc H1] Hs. destruct Hs as [t i mk cs Ht|t p c i mk cs Ht Hp|t i mk cs Ht|t c i mk cs Ht]; simpl in *;
    pose proof (lookup_lt_Some _ _ _ Ht) as Hlt.
  - constructor; simpl; [done| |].
    + intros u d. destruct (decide (u = t)) as [->|]; [rewrite list_lookup_insert_eq by done; by intros [= <-]|].
      rewrite list_lookup_insert_ne by done. intros Hu. specialize (Hc u d Hu). by destruct d; naive_solver.
    + assert (∀ u, cs !! u ≠ Some Initialising) as Hno by (intros u Hu; by specialize (Hc u _ Hu)).
      assert (∀ v, <[t := Initialising]> cs !! v = Some Initialising → v = t) as Hv; [|intros u u' Hu Hu'; by rewrite (Hv u), (Hv u')].
      intros v Hv. destruct (decide (v = t)); [done|]. rewrite list_lookup_insert_ne in Hv by done. by destruct (Hno v).
  - pose proof (Hc t _ Ht) as Hrun. simpl in Hrun. subst c. destruct Hm as [-> ->]. constructor; simpl; [eauto| |].
    + intros u d. destruct (decide (u = t)) as [->|]; [rewrite list_lookup_insert_eq by done; by intros [= <-]|].
      rewrite list_lookup_insert_ne by done. intros Hu. pose proof (Hc u d Hu) as Hd. destruct d; [done| |done|by destruct Hd].
      by pose proof (H1 t u Ht Hu).
    + intros u u'. assert (∀ v, <[t := Initialised]> cs !! v ≠ Some Initialising) as Hno; [|naive_solver].
      intros v Hv. destruct (decide (v = t)) as [->|Hne]; [by rewrite list_lookup_insert_eq in Hv|].
      rewrite list_lookup_insert_ne in Hv by done. by destruct Hne; apply H1.
  - constructor; simpl; [done| |].
    + intros u d. destruct (decide (u = t)) as [->|]; [rewrite list_lookup_insert_eq by done; by intros [= <-]|].
      rewrite list_lookup_insert_ne by done. apply Hc.
    + intros u u' Hu. destruct (decide (u = t)) as [->|]; [by rewrite list_lookup_insert_eq in Hu|].
      rewrite list_lookup_insert_ne in Hu by done. by specialize (Hc u _ Hu).
  - pose proof (Hc t _ Ht) as Hd. simpl in Hd. subst c. constructor; simpl; [done| |].
    + intros u d. destruct (decide (u = t)) as [->|]; [rewrite list_lookup_insert_eq by done; by intros [= <-]|].
      rewrite list_lookup_insert_ne by done. apply Hc.
    + intros u u' Hu. destruct (decide (u = t)) as [->|]; [by rewrite list_lookup_insert_eq in Hu|].
      rewrite list_lookup_insert_ne in Hu by done. by specialize (Hc u _ Hu).
Qed.

(** However many threads ask for the PollMgr side by side, one is made, and each thread
    that has returned got that one. *)
Theorem poll_instance_unique n s : rtc once_step (once_start n) s →
  length (o_made s) ≤ 1 ∧ ∀ t r, o_callers s !! t = Some (Got r) → ∃ p, r = Some p ∧ o_made s = [p].
Proof.
  intros Hr. assert (once_inv s) as [Hm Hc _].
  { assert (once_inv (once_start n)) as H0.
    { constructor; simpl; [done| |]; intros t c; rewrite lookup_replicate; [by intros [-> _]|by intros [? _]]. }
    induction Hr as [|x y z Hxy Hyz IH]; [done|]. apply IH. by eapply once_inv_step. }
  split.
  - destruct (o_ctl s); [destruct Hm as [_ ->]..|destruct Hm as (p & _ & ->)]; simpl; lia.
  - intros t r Ht. destruct (Hc t _ Ht) as [Hd ->]. rewrite Hd in Hm. naive_solver.
Qed.

(** ** The events of EPollAIO *)

(** [EPollAIO::EPollAIO] with the answer of epoll_create. *)
Definition new_epoll_aio (pollfd : Z) : outcome epoll_aio := VERIFY (pollfd >=? 0)%Z;; Ok (EPollAIO ∅ []).

(** [poll_flag_to_event]: EPOLLIN, EPOLLOUT. *)
Definition poll_flag_to_event (flag : poll_flag) : bool * bool :=
  if decide (flag = CB_RDONLY) then (true, false)
  else if decide (flag = CB_WRONLY) then (false, true)
  else (true, true).

(** It gives the events that [watch_fd] asks for, of a descriptor that was not watched. *)
Lemma poll_flag_to_event_watches fd flag s s' : flag ≠ CB_NONE → fdstatus fd s = 0%Z → epoll_watch_fd fd flag s = Ok s' →
  ctl_log s' = ctl_log s ++ [(EPOLL_CTL_ADD, fd, (poll_flag_to_event flag).1, (poll_flag_to_event flag).2)].
Proof.
  intros Hn Hz. unfold epoll_watch_fd. rewrite Hz. intros (u & _ & (v & _ & [= <-])%bind_Ok)%bind_Ok. simpl. by destruct flag.
Qed.

(** ** Random numbers *)

(** The seed of [set_rand_seed], from the clock and the process id. *)
Definition set_rand_seed (tv_nsec pid : Z) : Z := u32 (Z.lxor (i32 tv_nsec) (i32 pid)).

(** Processes that ask in the same nanosecond get different seeds. *)
Lemma set_rand_seed_differs tv_nsec pid pid' : is_i32 pid → is_i32 pid' → pid ≠ pid' →
  set_rand_seed tv_nsec pid ≠ set_rand_seed tv_nsec pid'.
Proof.
  intros Hp Hp' Hne E. unfold set_rand_seed, u32 in E. rewrite (i32_small pid), (i32_small pid') in E by done.
  assert (pid mod 2 ^ 32 = pid' mod 2 ^ 32)%Z as Hm.
  { apply Z.bits_inj'. intros i Hi. apply (f_equal (λ z, Z.testbit z i)) in E. rewrite !Z.testbit_mod_pow2 in E |- * by lia.
    destruct (i <? 32)%Z; [|done]. simpl in *. rewrite !Z.lxor_spec in E. by destruct (Z.testbit _ i), (Z.testbit pid i), (Z.testbit pid' i). }
  apply Hne. rewrite <- (i32_small pid), <- (i32_small pid') by done. unfold i32.
  rewrite <- (Z.add_mod_idemp_l pid), <- (Z.add_mod_idemp_l pid') by lia. by rewrite Hm.
Qed.

(** ** Messages *)

(** What is printed, and the level set. *)
Record logger A := Logger { JSL_DEBUG_LEVEL : Z; log_out : list A }.
Arguments Logger {A}.
Arguments JSL_DEBUG_LEVEL {A}.
Arguments log_out {A}.
Definition JSL_DBG_OFF : Z := 0.
Definition new_logger {A} : logger A := Logger 0 [].
Definition jsl_set_debug {A} (level : Z) (l : logger A) : logger A := Logger level (log_out l).
Definition jsl_log {A} (level : Z) (msg : A) (l : logger A) : logger A :=
  if (JSL_DEBUG_LEVEL l <? Z.abs level)%Z then l else Logger (JSL_DEBUG_LEVEL l) (log_out l ++ [msg]).

(** Printed are the messages up to the level set, in order; those of level [JSL_DBG_OFF]
    always. *)
Lemma jsl_log_printed {A} (msgs : list (Z * A)) l :
  log_out (foldl (λ l m, jsl_log m.1 m.2 l) l msgs)
  = log_out l ++ (filter (λ m, (Z.abs m.1 <= JSL_DEBUG_LEVEL l)%Z) msgs).*2.
Proof.
  revert l. induction msgs as [|[lv m] msgs IH]; intros l; simpl; [by rewrite app_nil_r|]. rewrite IH. unfold jsl_log.
  destruct (Z.ltb_spec (JSL_DEBUG_LEVEL l) (Z.abs lv)).
  - rewrite filter_cons_False; [done|simpl; lia].
  - rewrite filter_cons_True by (simpl; lia). simpl. by rewrite <- app_assoc.
Qed.

(** Without [jsl_set_debug] only the messages of level [JSL_DBG_OFF] are printed. *)
Example jsl_log_default {A} (a b c : A) :
  log_out (foldl (λ l m, jsl_log m.1 m.2 l) new_logger [(2%Z, a); (JSL_DBG_OFF, b); (-1, c)%Z]) = [b] ∧
  log_out (foldl (λ l m, jsl_log m.1 m.2 l) (jsl_set_debug 1 new_logger) [(2%Z, a); (JSL_DBG_OFF, b); (-1, c)%Z]) = [b; c].
Proof. done. Qed.

(** The time stamp that [tprintf] prints, in milliseconds as an unsigned long. *)
Definition tprintf_stamp (tv_sec tv_usec : Z) : Z := u64 (tv_sec * 1000 + tv_usec / 1000).

(** Stamps of one second are in the order of the clock. *)
Lemma tprintf_stamp_mono sec usec usec' : (0 <= sec < 2 ^ 50)%Z → (0 <= usec <= usec')%Z → (usec' < 1000000)%Z →
  (tprintf_stamp sec usec <= tprintf_stamp sec usec')%Z.
Proof.
  intros Hs Hu Hu'. unfold tprintf_stamp, u64. pose proof (Z.div_le_mono usec usec' 1000 ltac:(lia) ltac:(lia)).
  pose proof (Z.div_pos usec 1000 ltac:(lia) ltac:(lia)). pose proof (Z.div_lt_upper_bound usec' 1000 1000 ltac:(lia) ltac:(lia)).
  rewrite !Z.mod_small by lia. lia.
Qed.

(** ** unmount.cc *)

(** The program: the mount point given to fuse_unmount, a null pointer without an
    argument, and the exit status. *)
Definition unmount_main (argv : list bytes) : option bytes * Z := (argv !! 1, 0%Z).
