(* ===== verification/Acceptor.v ===== *)
(** * The accepting side of rpc/connection.cc

    [tcpsconn]: the connections a server has accepted, by descriptor, each with one
    reference held here; dead ones that nobody else refers to are collected when the
    next one arrives. *)

From stdpp Require Import base tactics numbers list gmap.
From Stdlib Require Import ZArith Lia.
From S2P Require Import Prelude CxxString Marshall Connection.

(** [tcpsconn]: [conns_]. *)
Record tcpsconn := TcpsConn { conns_ : gmap Z nat; ts_lossy : Z }.

Definition collectable (x : connection) : bool := (isdead x && (ref x =? 1)%Z)%bool.

(** The loop of [process_accept] that collects, over the descriptors in order. *)
Fixpoint collect_dead (fds : list Z) (conns : gmap Z nat) (h : conn_heap) :
    outcome (gmap Z nat * conn_heap) :=
  match fds with
  | [] => Ok (conns, h)
  | fd :: fds =>
      match conns !! fd with
      | None => collect_dead fds conns h
      | Some c =>
          x ← heap_at c h;
          if collectable x
          then h ← heap_decref c h; collect_dead fds (delete fd conns) h
          else collect_dead fds conns h
      end
  end.

(** [tcpsconn::process_accept]: [s1] is what accept returned, [c] the address of the
    new connection; [None] when the thread exits. *)
Definition process_accept (s1 : Z) (c : nat) (tv_sec tv_usec : Z) (s : tcpsconn) (h : conn_heap) :
    outcome (option (tcpsconn * conn_heap * list poll_action)) :=
  if (s1 <? 0)%Z then Ok None
  else
    let '(ch, acts) := new_connection s1 (ts_lossy s) tv_sec tv_usec in
    let h := <[c := ch]> h in
    '(conns, h) ← collect_dead (keys_in_order (conns_ s)) (conns_ s) h;
    Ok (Some (TcpsConn (<[c_fd ch := c]> conns) (ts_lossy s), h, acts)).

(** What a round of [tcpsconn::accept_conn] does on the answer of select: an error,
    an interruption, or the readiness of the pipe and of the socket. *)
Inductive accept_select := AcceptError (eintr : bool) | AcceptReady (pipe tcp : bool).
Inductive accept_round := AcceptAgain | AcceptStop | AcceptOne.
Definition accept_conn_round (sel : accept_select) : outcome accept_round :=
  match sel with
  | AcceptError true => Ok AcceptAgain
  | AcceptError false => Fault VerifyFailed
  | AcceptReady true _ => Ok AcceptStop
  | AcceptReady false true => Ok AcceptOne
  | AcceptReady false false => Fault VerifyFailed
  end.

(** [tcpsconn::~tcpsconn]: each connection is closed and let go. *)
Fixpoint close_all (fds : list Z) (conns : gmap Z nat) (h : conn_heap) (acts : list poll_action) :
    outcome (conn_heap * list poll_action) :=
  match fds with
  | [] => Ok (h, acts)
  | fd :: fds =>
      match conns !! fd with
      | None => close_all fds conns h acts
      | Some c =>
          x ← heap_at c h;
          let '(x, a) := closeconn x in
          h ← heap_decref c (<[c := x]> h);
          close_all fds conns h (acts ++ a)
      end
  end.
Definition tcpsconn_destroy (s : tcpsconn) (h : conn_heap) : outcome (conn_heap * list poll_action) :=
  close_all (keys_in_order (conns_ s)) (conns_ s) h [].

(** [connect_to_dst]: the connection, if connect succeeds. *)
Definition connect_to_dst (connected : bool) (s lossy tv_sec tv_usec : Z) :
    option (connection * list poll_action) :=
  if connected then Some (new_connection s lossy tv_sec tv_usec) else None.

(** ** Lemmas *)

(** The map holds one reference to each connection, under its own descriptor, and a
    dead connection has no message half written. *)
Record conns_ok (s : tcpsconn) (h : conn_heap) : Prop := ConnsOk {
  co_heap fd c : conns_ s !! fd = Some c →
    ∃ x, h !! c = Some x ∧ c_fd x = fd ∧ (1 <= c_refno x)%Z ∧
      (c_dead x = true → cb_buf (c_wpdu x) = None);
  co_inj fd fd' c : conns_ s !! fd = Some c → conns_ s !! fd' = Some c → fd = fd' }.

(** Is the connection of a descriptor one to collect? *)
Definition dead_fd (conns : gmap Z nat) (h : conn_heap) (fd : Z) : bool :=
  match conns !! fd with
  | Some c => match h !! c with Some x => collectable x | None => false end
  | None => false
  end.

Lemma decref_collectable c x h :
  h !! c = Some x → collectable x = true → (c_dead x = true → cb_buf (c_wpdu x) = None) →
  heap_decref c h = Ok (delete c h).
Proof.
  intros Ex Ed Hw. unfold collectable, isdead, ref in Ed. apply andb_prop in Ed as [Hd Hr%Z.eqb_eq].
  unfold heap_decref, heap_at. rewrite Ex. run. unfold decref. simpl. rewrite Hr. simpl.
  unfold destroy. simpl. rewrite Hd. simpl. by rewrite bool_decide_true by auto.
Qed.

Lemma conns_ok_delete fd c conns h lossy :
  conns_ok (TcpsConn conns lossy) h → conns !! fd = Some c →
  conns_ok (TcpsConn (delete fd conns) lossy) (delete c h) ∧
  ∀ fd', fd' ≠ fd → dead_fd (delete fd conns) (delete c h) fd' = dead_fd conns h fd'.
Proof.
  intros Hok Ec. split; [constructor; simpl|].
  - intros fd' c' [Hne Hc']%lookup_delete_Some. destruct (co_heap _ _ Hok _ _ Hc') as (x' & Hx' & ?).
    exists x'. rewrite lookup_delete_ne; [done|]. intros ->. by destruct Hne; eapply (co_inj _ _ Hok).
  - intros fd1 fd2 c' [_ H1]%lookup_delete_Some [_ H2]%lookup_delete_Some. by eapply (co_inj _ _ Hok).
  - intros fd' Hne. unfold dead_fd. rewrite lookup_delete_ne by done.
    destruct (conns !! fd') as [c'|] eqn:Ec'; [|done]. rewrite lookup_delete_ne; [done|].
    intros ->. by destruct Hne; eapply (co_inj _ _ Hok).
Qed.

(** A step of the loop, by whether the descriptor's connection is one to collect. *)
Lemma collect_dead_cons fd fds conns h lossy :
  conns_ok (TcpsConn conns lossy) h →
  collect_dead (fd :: fds) conns h =
  match conns !! fd with
  | Some c => if dead_fd conns h fd then collect_dead fds (delete fd conns) (delete c h)
              else collect_dead fds conns h
  | None => collect_dead fds conns h
  end.
Proof.
  intros Hok. cbn [collect_dead]. unfold dead_fd. destruct (conns !! fd) as [c|] eqn:Ec; [|done].
  destruct (co_heap _ _ Hok _ _ Ec) as (x & Hx & _ & _ & Hw). unfold heap_at. rewrite Hx. run.
  destruct (collectable x) eqn:Ed; [|done]. by erewrite decref_collectable.
Qed.

Lemma dead_fd_conn conns h fd : dead_fd conns h fd = true → is_Some (conns !! fd).
Proof. unfold dead_fd. destruct (conns !! fd); [eauto|done]. Qed.

Lemma collect_dead_spec fds conns h lossy :
  conns_ok (TcpsConn conns lossy) h → NoDup fds →
  ∃ conns' h', collect_dead fds conns h = Ok (conns', h') ∧
    (∀ fd, conns' !! fd = if decide (fd ∈ fds ∧ dead_fd conns h fd = true) then None else conns !! fd) ∧
    (∀ c, (∀ fd, fd ∈ fds → dead_fd conns h fd = true → conns !! fd ≠ Some c) → h' !! c = h !! c) ∧
    (∀ fd c, fd ∈ fds → dead_fd conns h fd = true → conns !! fd = Some c → h' !! c = None).
Proof.
  intros Hok Hnd. revert conns h Hok. induction Hnd as [|fd fds Hfd Hnd IH]; intros conns h Hok.
  { exists conns, h. split_and!; [done| |done|set_solver].
    intros fd. by rewrite decide_False by set_solver. }
  erewrite collect_dead_cons by done. destruct (dead_fd conns h fd) eqn:Ed.
  - destruct (dead_fd_conn _ _ _ Ed) as [c Ec]. rewrite Ec.
    destruct (conns_ok_delete _ _ _ _ _ Hok Ec) as [Hok' Hdd].
    destruct (IH _ _ Hok') as (conns' & h' & E & Hc & Hk & Hg).
    exists conns', h'. split; [done|]. split_and!.
    + intros fd'. rewrite Hc. destruct (decide (fd' = fd)) as [->|Hne].
      * rewrite decide_False by naive_solver. rewrite lookup_delete_eq, decide_True by set_solver. done.
      * rewrite lookup_delete_ne, Hdd by done. apply decide_ext. set_solver.
    + intros c' Hc'. rewrite Hk.
      * rewrite lookup_delete_ne; [done|]. intros ->. by apply (Hc' fd); [set_solver|..].
      * intros fd' Hin Hd' [Hne Hx]%lookup_delete_Some. rewrite Hdd in Hd' by done.
        apply (Hc' fd'); [set_solver|done..].
    + intros fd' c' [->|Hin]%elem_of_cons Hd' Hc'.
      * rewrite Ec in Hc'. injection Hc' as <-. rewrite Hk; [apply lookup_delete_eq|].
        intros fd' Hin Hd2 [Hne Hx]%lookup_delete_Some. by destruct Hne; eapply (co_inj _ _ Hok).
      * assert (fd' ≠ fd) by naive_solver. apply (Hg fd'); [done|by rewrite Hdd|by rewrite lookup_delete_ne].
  - assert (∀ x : outcome (gmap Z nat * conn_heap), match conns !! fd with Some _ => x | None => x end = x)
      as Hm by (intros; by destruct (conns !! fd)).
    rewrite Hm. destruct (IH conns h Hok) as (conns' & h' & E & Hc & Hk & Hg). exists conns', h'.
    split; [done|]. split_and!.
    + intros fd'. rewrite Hc. apply decide_ext. split; [set_solver|].
      intros [[->|?]%elem_of_cons ?]; [congruence|done].
    + intros c Hc'. apply Hk. intros fd' Hin. apply Hc'. set_solver.
    + intros fd' c [->|Hin]%elem_of_cons Hd; [congruence|eauto].
Qed.

(** The collection by the whole map: what is kept and what goes. *)
Lemma collect_all_spec conns h lossy :
  conns_ok (TcpsConn conns lossy) h →
  ∃ conns' h', collect_dead (keys_in_order conns) conns h = Ok (conns', h') ∧
    (∀ fd, conns' !! fd = if dead_fd conns h fd then None else conns !! fd) ∧
    (∀ fd c, conns !! fd = Some c → h' !! c = if dead_fd conns h fd then None else h !! c) ∧
    (∀ c, (∀ fd, conns !! fd ≠ Some c) → h' !! c = h !! c).
Proof.
  intros Hok. destruct (collect_dead_spec (keys_in_order conns) conns h lossy Hok (keys_in_order_NoDup _))
    as (conns' & h' & E & Hc & Hk & Hg).
  assert (∀ fd, dead_fd conns h fd = true → fd ∈ keys_in_order conns) as Hin.
  { intros fd ?%dead_fd_conn. by apply elem_of_keys_in_order. }
  exists conns', h'. split; [done|]. split_and!.
  - intros fd. rewrite Hc. destruct (dead_fd conns h fd) eqn:Ed.
    + by rewrite decide_True by auto.
    + by rewrite decide_False by naive_solver.
  - intros fd c Hfd. destruct (dead_fd conns h fd) eqn:Ed; [by eapply (Hg fd); auto|]. apply Hk.
    intros fd' _ Hd Hfd'. assert (fd' = fd) as -> by (by eapply (co_inj _ _ Hok)). congruence.
  - intros c Hno. apply Hk. auto.
Qed.

Lemma conns_ok_add s1 c x conns lossy h :
  conns_ok (TcpsConn conns lossy) h → h !! c = Some x → (∀ fd, conns !! fd ≠ Some c) →
  c_fd x = s1 → (1 <= c_refno x)%Z → (c_dead x = true → cb_buf (c_wpdu x) = None) →
  conns_ok (TcpsConn (<[s1 := c]> conns) lossy) h.
Proof.
  intros Hok Hx Hno Hfd Hr Hd. constructor; simpl.
  - intros fd c' [[<- <-]|[_ Hc']]%lookup_insert_Some; [by exists x|by apply (co_heap _ _ Hok)].
  - intros fd fd' c' [[<- <-]|[_ H1]]%lookup_insert_Some [[<- E]|[_ H2]]%lookup_insert_Some; subst; try done.
    + by destruct (Hno fd').
    + by destruct (Hno fd).
    + by eapply (co_inj _ _ Hok).
Qed.

(** When a connection arrives it is registered under its descriptor with the poll
    manager, and the dead connections that only the server refers to, all of them and
    no others, leave the map and are deleted; the bookkeeping stays sound. *)
Theorem process_accept_collects s1 c tv_sec tv_usec s h :
  conns_ok s h → (0 <= s1)%Z → conns_ s !! s1 = None → h !! c = None →
  ∃ s' h', process_accept s1 c tv_sec tv_usec s h = Ok (Some (s', h', [AddCallback s1 CB_RDONLY])) ∧
    conns_ok s' h' ∧ conns_ s' !! s1 = Some c ∧
    (∀ fd c', conns_ s !! fd = Some c' →
       if dead_fd (conns_ s) h fd then conns_ s' !! fd = None ∧ h' !! c' = None
       else conns_ s' !! fd = Some c' ∧ h' !! c' = h !! c').
Proof.
  intros Hok Hs1 Hfresh Hc. unfold process_accept. destruct (Z.ltb_spec s1 0); [lia|].
  destruct s as [conns lossy]. simpl in *.
  set (x := Connection s1 false empty_charbuf empty_charbuf tv_sec tv_usec 0 1 lossy).
  assert (∀ fd, conns !! fd ≠ Some c) as Hno.
  { intros fd Hfd. destruct (co_heap _ _ Hok _ _ Hfd) as (? & ? & _). congruence. }
  assert (∀ fd c', conns !! fd = Some c' → <[c := x]> h !! c' = h !! c') as Hother.
  { intros fd c' Hfd. apply lookup_insert_ne. intros ->. by destruct (Hno fd). }
  assert (conns_ok (TcpsConn conns lossy) (<[c := x]> h)) as Hok1.
  { constructor; [|apply (co_inj _ _ Hok)]. simpl. intros fd c' Hfd.
    rewrite (Hother fd) by done. by apply (co_heap _ _ Hok). }
  assert (∀ fd, dead_fd conns (<[c := x]> h) fd = dead_fd conns h fd) as Hdd.
  { intros fd. unfold dead_fd. destruct (conns !! fd) as [c'|] eqn:Hfd; [|done]. by rewrite (Hother fd). }
  destruct (collect_all_spec _ _ _ Hok1) as (conns' & h' & E & Hcs & Hg & Hk).
  rewrite E. run. exists (TcpsConn (<[s1 := c]> conns') lossy), h'. split; [done|]. simpl.
  split_and!; [|apply lookup_insert_eq|].
  - assert (∀ fd c', conns' !! fd = Some c' → conns !! fd = Some c' ∧ h' !! c' = h !! c') as Hsub.
    { intros fd c' Hfd. pose proof (Hcs fd) as Hfd'. rewrite Hdd in Hfd'.
      destruct (dead_fd conns h fd) eqn:Ed; [congruence|]. rewrite Hfd in Hfd'. split; [done|].
      rewrite (Hg fd) by done. rewrite Hdd, Ed. by apply (Hother fd). }
    apply (conns_ok_add _ _ x); [|by rewrite Hk, lookup_insert_eq| |done..].
    + constructor; simpl.
      * intros fd c' Hfd. destruct (Hsub _ _ Hfd) as [Hc' ->]. by apply (co_heap _ _ Hok).
      * intros fd fd' c' [H1 _]%Hsub [H2 _]%Hsub. by eapply (co_inj _ _ Hok).
    + intros fd [Hfd _]%Hsub. by apply (Hno fd).
  - intros fd c' Hfd. assert (s1 ≠ fd) by congruence. pose proof (Hg _ _ Hfd) as Hh. rewrite Hdd in Hh.
    rewrite lookup_insert_ne, Hcs, Hdd by done. destruct (dead_fd conns h fd); [done|].
    split; [done|]. by rewrite Hh, (Hother fd).
Qed.

(** A dead connection on descriptor 7 goes when one on descriptor 8 arrives. *)
Definition ex_dead : connection := Connection 7 true empty_charbuf empty_charbuf 1 0 0 1 0.
Lemma process_accept_collects_witness :
  ∃ s' h', process_accept 8 1 2 0 (TcpsConn {[7%Z := 0]} 0) {[0 := ex_dead]}
             = Ok (Some (s', h', [AddCallback 8 CB_RDONLY])) ∧
    conns_ s' !! 8%Z = Some 1 ∧ conns_ s' !! 7%Z = None ∧ h' !! 0 = None.
Proof.
  destruct (process_accept_collects 8 1 2 0 (TcpsConn {[7%Z := 0]} 0) {[0 := ex_dead]})
    as (s' & h' & E & _ & H8 & Hall).
  - constructor; simpl.
    + intros fd c [<- <-]%lookup_singleton_Some. by exists ex_dead.
    + intros fd fd' c [<- _]%lookup_singleton_Some [<- _]%lookup_singleton_Some. reflexivity.
  - lia.
  - reflexivity.
  - reflexivity.
  - exists s', h'. split; [exact E|]. split; [exact H8|]. exact (Hall 7%Z 0 eq_refl).
Defined.
