(* ===== verification/RpcServer.v ===== *)
(** * The RPC server endpoint (class rpcs of rpc/rpc.h, rpc/rpc.cc)

    At-most-once bookkeeping (the reply window of each client), the dispatcher
    with its reference-counted connections, handler registration and the handler
    templates.  The service's own state [S] is threaded through the handlers. *)

From stdpp Require Import base tactics numbers list gmap strings sorting.
From Stdlib Require Import ZArith Lia Ascii.
From S2P Require Import Prelude CxxString Marshall Connection.

(** class rpc_const *)
Definition rpc_bind : Z := 1.
Definition timeout_failure : Z := -1.
Definition unmarshal_args_failure : Z := -2.
Definition unmarshal_reply_failure : Z := -3.
Definition atmostonce_failure : Z := -4.
Definition oldsrv_failure : Z := -5.
Definition bind_failure : Z := -6.
Definition cancel_failure : Z := -7.

Inductive rpcstate_t := NEW | INPROGRESS | DONE | FORGOTTEN.
#[global] Instance rpcstate_eq_dec : EqDecision rpcstate_t.
Proof. solve_decision. Defined.

(** struct reply_t *)
Record reply_t := ReplyT {
  r_xid : Z; r_cb_present : bool; r_buf : option bytes; r_sz : Z }.
Definition new_reply_t (xid : Z) : reply_t := ReplyT xid false None 0.

(** The two maps guarded by [reply_window_m_], by client nonce. *)
Record windows := Windows {
  reply_window : gmap Z (list reply_t);
  window_bound : gmap Z Z }.

(** [operator[]] on the two maps. *)
Definition replies (clt : Z) (w : windows) : list reply_t := default [] (reply_window w !! clt).
Definition bound (clt : Z) (w : windows) : Z := default 0%Z (window_bound w !! clt).

(** ** checkduplicate_and_update *)

(** The scan for [xid]: no [break], so the last entry with that xid decides. *)
Fixpoint scan_window (xid : Z) (l : list reply_t) (ret : rpcstate_t) (b : option (option bytes * Z)) :
    rpcstate_t * option (option bytes * Z) :=
  match l with
  | [] => (ret, b)
  | r :: l =>
      if (xid =? r_xid r)%Z then
        if r_cb_present r then scan_window xid l DONE (Some (r_buf r, r_sz r))
        else scan_window xid l INPROGRESS b
      else scan_window xid l ret b
  end.

(** Insertion in increasing order of xid. *)
Fixpoint insert_reply (xid : Z) (l : list reply_t) : list reply_t :=
  match l with
  | [] => [new_reply_t xid]
  | r :: l' => if (xid <? r_xid r)%Z then new_reply_t xid :: l else r :: insert_reply xid l'
  end.

(** The memory of a list node after it was freed.  C++ leaves a use of it undefined
    ([freed_nodes_keep] false: a fault); an allocator may leave the node in place until
    memory is next asked for, so that what is written to it can be read back (true). *)
Class allocator := Allocator { freed_nodes_keep : bool }.
Class KeepsFreed (Al : allocator) : Prop := keeps_freed : freed_nodes_keep = true.
Definition keeping : allocator := Allocator true.
#[global] Instance keeping_keeps : KeepsFreed keeping.
Proof. done. Qed.

Section windows.
Context {Al : allocator}.

(** The loop that drops the acknowledged replies.  [head] is a reference to the
    first node; after [pop_front] the code assigns the new front through it, to a
    node that is freed, and the test of the loop reads it back.  The boolean says
    whether that happened. *)
Fixpoint trim_window (xid_rep : Z) (l : list reply_t) : outcome (list reply_t * bool) :=
  match l with
  | [] => Fault EmptyFront
  | r :: l' =>
      if (r_xid r <=? xid_rep)%Z
      then
        if freed_nodes_keep then '(l'', _) ← trim_window xid_rep l'; Ok (l'', true)
        else match l' with [] => Fault EmptyFront | _ => Fault UseAfterFree end
      else Ok (l, false)
  end.

(** [rpcs::checkduplicate_and_update]: the verdict, the reply found for [DONE],
    the new windows and whether a freed node was written. *)
Definition checkduplicate_and_update (clt xid xid_rep : Z) (w : windows) :
    outcome (rpcstate_t * option (option bytes * Z) * windows * bool) :=
  let reply_list := replies clt w in
  let min := bound clt w in
  let '(ret, b) :=
    match reply_list with
    | [] => (NEW, None)
    | _ => if (xid <=? min)%Z then (FORGOTTEN, None) else scan_window xid reply_list NEW None
    end in
  if decide (ret = NEW) then
    '(l, freed) ← trim_window xid_rep (insert_reply xid reply_list);
    Ok (ret, b, Windows (<[clt := l]> (reply_window w)) (<[clt := xid_rep]> (window_bound w)), freed)
  else
    Ok (ret, b, Windows (<[clt := reply_list]> (reply_window w)) (<[clt := min]> (window_bound w)), false).
End windows.

(** ** add_reply *)
Fixpoint store_reply (xid : Z) (b : option bytes) (sz : Z) (l : list reply_t) : list reply_t :=
  match l with
  | [] => []
  | r :: l => if (xid =? r_xid r)%Z then ReplyT (r_xid r) true b sz :: l
              else r :: store_reply xid b sz l
  end.

(** [rpcs::add_reply] *)
Definition add_reply (clt xid : Z) (b : option bytes) (sz : Z) (w : windows) : windows :=
  Windows (<[clt := store_reply xid b sz (replies clt w)]> (reply_window w)) (window_bound w).

(** [rpcs::free_reply_window] *)
Definition free_reply_window (w : windows) : windows := Windows ∅ (window_bound w).

Section server.
Context {Al : allocator} {S : Type} (junk : nat → ascii).

(** class handler: [fn] reads its arguments, writes the reply, returns a status;
    it works on the state of the service that registered it. *)
Definition handler := S → unmarshall → marshall → outcome (Z * marshall * S).

(** class rpcs: the fields that the modelled operations use. *)
Record rpcs := Rpcs {
  s_nonce : Z;
  s_windows : windows;
  s_conns : gmap Z nat;          (* conns_: latest connection of each client *)
  s_counting : Z;
  s_curr_counts : Z;
  s_counts : gmap Z Z;
  s_reachable : bool;
  s_procs : gmap Z handler }.

(** Template [rpcs::reg]: the class [h1] for a method of any number of
    arguments, [ca] the codec of the argument tuple and [cr] of the result. *)
Definition h1 {A R} (ca : codec A) (cr : codec R) (meth : S → A → R → outcome (S * R * Z)) : handler :=
  λ st args ret,
    '(a, args) ← get ca (dflt ca) args;
    if negb (okdone args) then Ok (unmarshal_args_failure, ret, st)
    else
      '(st, r, b) ← meth st a (dflt cr);
      ret ← put cr r ret;
      Ok (b, ret, st).

Definition set_windows (s : rpcs) (w : windows) : rpcs :=
  Rpcs (s_nonce s) w (s_conns s) (s_counting s) (s_curr_counts s) (s_counts s)
    (s_reachable s) (s_procs s).
Definition set_conns (s : rpcs) (c : gmap Z nat) : rpcs :=
  Rpcs (s_nonce s) (s_windows s) c (s_counting s) (s_curr_counts s) (s_counts s)
    (s_reachable s) (s_procs s).

(** [rpcs::reg1] *)
Definition reg1 (proc : Z) (h : handler) (s : rpcs) : outcome rpcs :=
  VERIFY (bool_decide (s_procs s !! proc = None));;
  Ok (Rpcs (s_nonce s) (s_windows s) (s_conns s) (s_counting s) (s_curr_counts s)
        (s_counts s) (s_reachable s) (<[proc := h]> (s_procs s))).

(** [rpcs::rpcbind] *)
Definition rpcbind (nonce : Z) (st : S) (a : Z) (r : Z) : outcome (S * Z * Z) :=
  Ok (st, i32 nonce, 0%Z).

(** [rpcs::rpcs]: a fresh nonce, and the bind handler registered. *)
Definition new_rpcs (nonce counts : Z) : outcome rpcs :=
  reg1 rpc_bind (h1 (int_codec junk) (int_codec junk) (rpcbind nonce))
    (Rpcs nonce (Windows ∅ ∅) ∅ counts counts ∅ true ∅).

(** [rpcs::updatestat] *)
Definition updatestat (proc : Z) (s : rpcs) : rpcs :=
  let counts := <[proc := (default 0 (s_counts s !! proc) + 1)%Z]> (s_counts s) in
  let curr := (s_curr_counts s - 1)%Z in
  Rpcs (s_nonce s) (s_windows s) (s_conns s) (s_counting s)
    (if (curr =? 0)%Z then s_counting s else curr) counts (s_reachable s) (s_procs s).

(** ** The dispatcher's world: the server, the live connection objects, the
    service state and what was sent on which connection. *)
Record world := World {
  w_srv : rpcs;
  w_conns : gmap nat connection;
  w_st : S;
  w_sent : list (nat * bytes) }.

Definition set_srv (w : world) (s : rpcs) : world := World s (w_conns w) (w_st w) (w_sent w).
Definition set_heap (w : world) (h : gmap nat connection) : world :=
  World (w_srv w) h (w_st w) (w_sent w).
Definition set_st (w : world) (st : S) : world := World (w_srv w) (w_conns w) st (w_sent w).

Definition conn_at (c : nat) (w : world) : outcome connection := heap_at c (w_conns w).
Definition conn_incref (c : nat) (w : world) : outcome world :=
  h ← heap_incref c (w_conns w); Ok (set_heap w h).
Definition conn_decref (c : nat) (w : world) : outcome world :=
  h ← heap_decref c (w_conns w); Ok (set_heap w h).
(** [c->send(b, sz)], when it returns: the first [sz] bytes of [b] have gone out on [c], or
    it is dead; the dispatcher ignores the answer.  The time a thread is blocked in it is
    in Sender.v and, among the other threads, in ServerRun.v, ClientRun.v and
    RpcCancel.v. *)
Definition conn_send (c : nat) (b : option bytes) (sz : Z) (w : world) : outcome world :=
  x ← conn_at c w;
  if isdead x then Ok w
  else
    b ← deref b;
    p ← load b 0 sz;
    Ok (World (w_srv w) (w_conns w) (w_st w) (w_sent w ++ [(c, p)])).

(** Save the latest good connection to the client (rpcs::dispatch). *)
Definition save_conn (clt : Z) (c : nat) (w : world) : outcome world :=
  match s_conns (w_srv w) !! clt with
  | None =>
      w ← conn_incref c w;
      Ok (set_srv w (set_conns (w_srv w) (<[clt := c]> (s_conns (w_srv w)))))
  | Some old =>
      xo ← conn_at old w;
      xc ← conn_at c w;
      if (compare xo xc <? 0)%Z then
        w ← conn_decref old w;
        w ← conn_incref c w;
        Ok (set_srv w (set_conns (w_srv w) (<[clt := c]> (s_conns (w_srv w)))))
      else Ok w
  end.

(** The connection the reply goes to (rpcs::dispatch, case NEW); [conns_[clt]]
    of an unknown client is a null pointer. *)
Definition reply_conn (clt : Z) (c : nat) (w : world) : outcome (nat * world) :=
  xc ← conn_at c w;
  if isdead xc && bool_decide (s_conns (w_srv w) !! clt ≠ Some c) then
    w ← conn_decref c w;
    c' ← deref (s_conns (w_srv w) !! clt);
    w ← conn_incref c' w;
    Ok (c', w)
  else Ok (c, w).

(** [rpcs::dispatch] *)
Definition dispatch (c : nat) (buf : bytes) (sz : Z) (w : world) : outcome world :=
  '(h, req) ← unpack_req_header (unmarshall_of buf sz);
  if negb (u_ok req) then conn_decref c w
  else
    let rep := new_marshall junk in
    if negb (rq_srv_nonce h =? 0)%Z && negb (rq_srv_nonce h =? s_nonce (w_srv w))%Z then
      rep ← pack_reply_header junk (ReplyHeader (rq_xid h) oldsrv_failure) rep;
      conn_send c (m_buf rep) (m_ind rep) w
    else
      match s_procs (w_srv w) !! rq_proc h with
      | None => conn_decref c w;; VERIFY false;; Ok w
      | Some f =>
          let clt := rq_clt_nonce h in
          '(stat, b1, w) ←
            (if negb (clt =? 0)%Z then
               w ← save_conn clt c w;
               '(stat, b1, win, _) ←
                 checkduplicate_and_update clt (u32 (rq_xid h)) (u32 (rq_xid_rep h))
                   (s_windows (w_srv w));
               Ok (stat, b1, set_srv w (set_windows (w_srv w) win))
             else Ok (NEW, None, w));
          w ← match stat with
              | NEW =>
                  let w := if (s_counting (w_srv w) =? 0)%Z then w
                           else set_srv w (updatestat (rq_proc h) (w_srv w)) in
                  '(ret, rep, st) ← f (w_st w) req rep;
                  VERIFY (negb (ret =? unmarshal_args_failure)%Z);;
                  VERIFY (ret >=? 0)%Z;;
                  rep ← pack_reply_header junk (ReplyHeader (rq_xid h) ret) rep;
                  let '((b1, sz1), rep) := take_buf rep in
                  let w := set_st w st in
                  let w := if (clt >? 0)%Z
                           then set_srv w (set_windows (w_srv w)
                                  (add_reply clt (u32 (rq_xid h)) b1 sz1 (s_windows (w_srv w))))
                           else w in
                  '(c', w) ← reply_conn clt c w;
                  w ← conn_send c' b1 sz1 w;
                  Ok (c', w)
              | INPROGRESS => Ok (c, w)
              | DONE =>
                  '(b, s1) ← deref b1;
                  w ← conn_send c b s1 w;
                  Ok (c, w)
              | FORGOTTEN =>
                  rep ← pack_reply_header junk (ReplyHeader (rq_xid h) atmostonce_failure) rep;
                  w ← conn_send c (m_buf rep) (m_ind rep) w;
                  Ok (c, w)
              end;
          let '(c, w) := (w : nat * world) in
          conn_decref c w
      end.

(** [rpcs::got_pdu]: [succ] is the thread pool's answer to [addObjJob]; the
    queued job is [dispatch c b sz]. *)
Definition got_pdu (succ : bool) (c : nat) (w : world) : outcome (bool * world) :=
  if negb (s_reachable (w_srv w)) then Ok (true, w)
  else
    w ← conn_incref c w;
    w ← (if negb succ || negb (s_reachable (w_srv w)) then conn_decref c w else Ok w);
    Ok (succ, w).

End server.

Arguments handler S : clear implicits.
Arguments rpcs S : clear implicits.
Arguments world S : clear implicits.

(** ** The reply window of one client *)

(** The window invariant: xids strictly increasing, none acknowledged. *)
Definition xids (l : list reply_t) : list Z := r_xid <$> l.
Definition window_ok (min : Z) (l : list reply_t) : Prop :=
  StronglySorted Z.lt (xids l) ∧ Forall (Z.lt min) (xids l).

(** What the requests and the finished handlers of one client do to its window. *)
Inductive win_event :=
  | Request (xid xid_rep : Z)
  | Replied (xid : Z) (b : option bytes) (sz : Z).

Section win_run.
Context {Al : allocator}.

Definition win_step (clt : Z) (e : win_event) (w : windows) :
    outcome (list (Z * rpcstate_t) * windows) :=
  match e with
  | Request xid xid_rep =>
      '(st, _, w, _) ← checkduplicate_and_update clt xid xid_rep w; Ok ([(xid, st)], w)
  | Replied xid b sz => Ok ([], add_reply clt xid b sz w)
  end.

(** The verdicts given along a sequence of events. *)
Fixpoint win_run (clt : Z) (evs : list win_event) (w : windows) :
    outcome (list (Z * rpcstate_t) * windows) :=
  match evs with
  | [] => Ok ([], w)
  | e :: evs =>
      '(v, w) ← win_step clt e w;
      '(vs, w) ← win_run clt evs w;
      Ok (v ++ vs, w)
  end.

End win_run.

(** How often the handler of [xid] was run: once per verdict [NEW]. *)
Fixpoint executions (xid : Z) (vs : list (Z * rpcstate_t)) : nat :=
  match vs with
  | [] => 0
  | (x, st) :: vs =>
      (if decide (x = xid ∧ st = NEW) then 1 else 0) + executions xid vs
  end.

(** A client acknowledges only earlier xids ([rep < xid]).  [seen] are the xids
    that arrived so far and [min] the last acknowledgement that counted: the first
    arrival of an xid not yet acknowledged does not acknowledge less than [min].
    Retransmissions and very late requests may carry any older acknowledgement. *)
Definition first_arrival (seen : list Z) (min xid : Z) : Prop :=
  xid ∉ seen ∧ (seen = [] ∨ (min < xid)%Z).

#[global] Instance first_arrival_dec seen min xid : Decision (first_arrival seen min xid).
Proof. unfold first_arrival. apply _. Defined.

Fixpoint acks_in_order (seen : list Z) (min : Z) (evs : list win_event) : Prop :=
  match evs with
  | [] => True
  | Request xid xid_rep :: evs =>
      (xid_rep < xid)%Z ∧
      if decide (first_arrival seen min xid)
      then (min <= xid_rep)%Z ∧ acks_in_order (xid :: seen) xid_rep evs
      else acks_in_order (xid :: seen) min evs
  | Replied _ _ _ :: evs => acks_in_order seen min evs
  end.

(** ** Lemmas *)
Lemma scan_window_absent xid l ret b :
  xid ∉ xids l → scan_window xid l ret b = (ret, b).
Proof.
  revert ret b. induction l as [|r l IH]; intros ret b; csimpl; [done|].
  intros [Hne Hl]%not_elem_of_cons. destruct (Z.eqb_spec xid (r_xid r)); [done|]. by apply IH.
Qed.

Lemma scan_window_present xid l r ret b :
  StronglySorted Z.lt (xids l) → r ∈ l → r_xid r = xid →
  scan_window xid l ret b
  = if r_cb_present r then (DONE, Some (r_buf r, r_sz r)) else (INPROGRESS, b).
Proof.
  intros Hs Hin Hx. revert ret b. induction l as [|r' l IH]; intros ret b.
  { by apply not_elem_of_nil in Hin. }
  csimpl. apply StronglySorted_inv in Hs as [Hs Hlt].
  apply elem_of_cons in Hin as [<-|Hin].
  - subst. rewrite Z.eqb_refl.
    assert (r_xid r ∉ xids l) as Hni.
    { intros Hr. rewrite Forall_forall in Hlt. apply Hlt in Hr. simpl in Hr. lia. }
    by destruct (r_cb_present r); rewrite scan_window_absent.
  - assert (r_xid r' < xid)%Z as Hlt'.
    { rewrite Forall_forall in Hlt. apply Hlt. subst. by apply list_elem_of_fmap_2. }
    destruct (Z.eqb_spec xid (r_xid r')); [lia|]. by apply IH.
Qed.

Lemma insert_reply_perm xid l : insert_reply xid l ≡ₚ new_reply_t xid :: l.
Proof.
  induction l as [|r l IH]; simpl; [done|]. case_match; [done|].
  rewrite IH. apply Permutation_swap.
Qed.

Lemma insert_reply_sorted xid l :
  StronglySorted Z.lt (xids l) → xid ∉ xids l → StronglySorted Z.lt (xids (insert_reply xid l)).
Proof.
  induction l as [|r l IH]; csimpl.
  - intros _ _. apply SSorted_cons; [apply SSorted_nil|done].
  - intros Hs [Hne Hni]%not_elem_of_cons. pose proof Hs as Hs0.
    apply StronglySorted_inv in Hs as [Hs Hlt].
    destruct (Z.ltb_spec xid (r_xid r)); csimpl.
    + apply SSorted_cons; [done|]. simpl. constructor; [done|].
      eapply Forall_impl; [done|]. simpl. lia.
    + apply SSorted_cons; [by apply IH|].
      apply Forall_forall. intros x. unfold xids. rewrite insert_reply_perm. csimpl.
      intros [->|Hx]%elem_of_cons; [lia|]. rewrite Forall_forall in Hlt. by apply Hlt.
Qed.

Section lemmas.
Context {Al : allocator} `{!KeepsFreed Al}.

Lemma trim_window_spec rep l :
  StronglySorted Z.lt (xids l) → Exists (λ r, (rep < r_xid r)%Z) l →
  trim_window rep l
  = Ok (filter (λ r, (rep < r_xid r)%Z) l, bool_decide (Exists (λ r, (r_xid r <= rep)%Z) l)).
Proof.
  induction l as [|r l IH]; intros Hs Hex; [by inv Hex|].
  csimpl in *. apply StronglySorted_inv in Hs as [Hs Hlt].
  destruct (Z.leb_spec (r_xid r) rep).
  - rewrite keeps_freed, IH; [|done|by inv Hex; [lia|]]. run.
    rewrite filter_cons_False by lia. do 2 f_equal.
    symmetry. apply bool_decide_true. by left.
  - rewrite filter_cons_True by done. do 2 f_equal.
    + f_equal. symmetry. apply filter_keeps, Forall_forall.
      intros r' Hr'. rewrite Forall_forall in Hlt.
      specialize (Hlt _ (list_elem_of_fmap_2 r_xid _ _ Hr')). lia.
    + symmetry. apply bool_decide_false. intros HE. inv HE; [lia|].
      match goal with H : Exists _ l |- _ => apply Exists_exists in H as (r' & Hr' & ?) end.
      rewrite Forall_forall in Hlt.
      specialize (Hlt _ (list_elem_of_fmap_2 r_xid _ _ Hr')). lia.
Qed.

Lemma filter_window_ok rep l :
  StronglySorted Z.lt (xids l) → window_ok rep (filter (λ r, (rep < r_xid r)%Z) l).
Proof.
  intros Hs. split.
  - induction l as [|r l IH]; [done|]. csimpl in Hs.
    apply StronglySorted_inv in Hs as [Hs Hlt]. rewrite filter_cons. case_decide; [|by apply IH].
    csimpl. apply SSorted_cons; [by apply IH|].
    apply Forall_forall. intros x (r' & -> & Hr')%list_elem_of_fmap.
    apply list_elem_of_filter in Hr' as [_ Hr']. rewrite Forall_forall in Hlt.
    by apply Hlt, list_elem_of_fmap_2.
  - apply Forall_forall. by intros x (r & -> & [? _]%list_elem_of_filter)%list_elem_of_fmap.
Qed.

Lemma xids_store_reply xid b sz l : xids (store_reply xid b sz l) = xids l.
Proof.
  induction l as [|r l IH]; simpl; [done|]. case_match; csimpl; [done|]. by rewrite <- IH.
Qed.

Lemma store_reply_nil xid b sz l : store_reply xid b sz l = [] ↔ l = [].
Proof. destruct l; simpl; [done|]. by case_match. Qed.

Lemma replies_insert clt l m b : replies clt (Windows (<[clt := l]> m) b) = l.
Proof. unfold replies. simpl. by rewrite lookup_insert_eq. Qed.
Lemma bound_insert clt x m b : bound clt (Windows m (<[clt := x]> b)) = x.
Proof. unfold bound. simpl. by rewrite lookup_insert_eq. Qed.

(** What each verdict means, for the client's own window [l] with bound [min]
    before the call and [l'], [min'] after it. *)
Definition verdict_ok (xid rep min : Z) (l : list reply_t) (st : rpcstate_t)
    (b : option (option bytes * Z)) (min' : Z) (l' : list reply_t) : Prop :=
  match st with
  | NEW =>
      (l = [] ∨ (min < xid)%Z ∧ xid ∉ xids l) ∧ min' = rep ∧
      l' = filter (λ r, (rep < r_xid r)%Z) (insert_reply xid l)
  | INPROGRESS =>
      (min < xid)%Z ∧ (∃ r, r ∈ l ∧ r_xid r = xid ∧ r_cb_present r = false) ∧ min' = min ∧ l' = l
  | DONE =>
      (min < xid)%Z ∧
      (∃ r, r ∈ l ∧ r_xid r = xid ∧ r_cb_present r = true ∧ b = Some (r_buf r, r_sz r)) ∧
      min' = min ∧ l' = l
  | FORGOTTEN => l ≠ [] ∧ (xid <= min)%Z ∧ min' = min ∧ l' = l
  end.

Lemma insert_reply_Exists xid rep l :
  (rep < xid)%Z → Exists (λ r, (rep < r_xid r)%Z) (insert_reply xid l).
Proof. intros. rewrite insert_reply_perm. by left. Qed.

Lemma in_xids x l : x ∈ xids l ↔ ∃ r, r ∈ l ∧ r_xid r = x.
Proof. unfold xids. rewrite list_elem_of_fmap. naive_solver. Qed.

Lemma check_cases clt xid rep w :
  window_ok (bound clt w) (replies clt w) → (rep < xid)%Z →
  ∃ st b w' freed,
    checkduplicate_and_update clt xid rep w = Ok (st, b, w', freed) ∧
    verdict_ok xid rep (bound clt w) (replies clt w) st b (bound clt w') (replies clt w') ∧
    window_ok (bound clt w') (replies clt w').
Proof.
  intros [Hs Hmin] Hrep. unfold checkduplicate_and_update.
  set (l := replies clt w) in *. set (min := bound clt w) in *.
  assert (xid ∉ xids l → l = [] ∨ (min < xid)%Z ∧ xid ∉ xids l →
    ∃ st b w' freed,
      ('(l', freed) ← trim_window rep (insert_reply xid l);
       Ok (NEW, @None (option bytes * Z),
           Windows (<[clt := l']> (reply_window w)) (<[clt := rep]> (window_bound w)), freed))
      = Ok (st, b, w', freed) ∧
      verdict_ok xid rep min l st b (bound clt w') (replies clt w') ∧
      window_ok (bound clt w') (replies clt w')) as Hnew.
  { intros Hni Hor.
    rewrite trim_window_spec by (by apply insert_reply_sorted || by apply insert_reply_Exists).
    run. do 4 eexists. split; [done|]. rewrite replies_insert, bound_insert.
    split; [done|]. by apply filter_window_ok, insert_reply_sorted. }
  assert (∀ st b, verdict_ok xid rep min l st b min l →
    ∃ st' b' w' freed,
      Ok (st, b, Windows (<[clt := l]> (reply_window w)) (<[clt := min]> (window_bound w)), false)
      = Ok (st', b', w', freed) ∧
      verdict_ok xid rep min l st' b' (bound clt w') (replies clt w') ∧
      window_ok (bound clt w') (replies clt w')) as Hold.
  { intros st b Hv. do 4 eexists. split; [done|]. by rewrite replies_insert, bound_insert. }
  destruct l as [|r0 l0] eqn:El; cbn zeta iota beta.
  { apply Hnew; [apply not_elem_of_nil|by left]. }
  rewrite <- El in *. destruct (Z.leb_spec xid min).
  { rewrite decide_False by done. apply Hold. simpl. split_and!; [congruence|done..]. }
  destruct (decide (xid ∈ xids l)) as [Hin|Hni].
  - apply in_xids in Hin as (r & Hr & Hx).
    rewrite (scan_window_present xid l r) by done.
    destruct (r_cb_present r) eqn:Ep; rewrite decide_False by done; apply Hold; simpl;
      split_and!; try done; by exists r.
  - rewrite scan_window_absent by done. rewrite decide_True by done. apply Hnew; [done|].
    by right.
Qed.

End lemmas.

(** Requests of one client do not touch the windows of another. *)
Lemma check_frame {Al : allocator} clt xid rep w st b w' freed clt' :
  checkduplicate_and_update clt xid rep w = Ok (st, b, w', freed) → clt' ≠ clt →
  replies clt' w' = replies clt' w ∧ bound clt' w' = bound clt' w.
Proof.
  unfold checkduplicate_and_update, replies, bound. intros H Hne.
  repeat case_match; simplify_eq/=.
  all: try (apply bind_Ok in H as ([? ?] & _ & ?)); simplify_eq/=;
    by rewrite !lookup_insert_ne by done.
Qed.

(** ** At most once *)

(** After the requests [seen] arrived: none of them is new again. *)
Definition remembers (seen : list Z) (min : Z) (l : list reply_t) : Prop :=
  (seen ≠ [] → l ≠ []) ∧ (∀ x, x ∈ seen → (x <= min)%Z ∨ x ∈ xids l) ∧
  (∀ x, x ∈ xids l → x ∈ seen).

Lemma executions_app x vs vs' : executions x (vs ++ vs') = executions x vs + executions x vs'.
Proof. induction vs as [|[y st] vs IH]; simpl; [done|]. rewrite IH. lia. Qed.

Lemma in_trimmed x xid rep l :
  x ∈ xids (filter (λ r, (rep < r_xid r)%Z) (insert_reply xid l))
  ↔ (rep < x)%Z ∧ (x = xid ∨ x ∈ xids l).
Proof.
  rewrite !in_xids. setoid_rewrite list_elem_of_filter. setoid_rewrite insert_reply_perm.
  setoid_rewrite elem_of_cons. split.
  - intros (r & (Hr & [->|Hin]) & <-); [by auto|]. eauto.
  - intros (Hr & [->|(r & Hin & <-)]); [exists (new_reply_t xid); eauto|eauto].
Qed.

Lemma remembers_new seen xid rep min l :
  remembers seen min l → (min <= rep < xid)%Z →
  remembers (xid :: seen) rep (filter (λ r, (rep < r_xid r)%Z) (insert_reply xid l)).
Proof.
  intros (Hne & Hran & Hsub) Hrep. split_and!.
  - intros _ E. assert (xid ∈ xids []) as Hin.
    { rewrite <- E. apply in_trimmed. split; [lia|by left]. }
    by apply not_elem_of_nil in Hin.
  - intros x. rewrite in_trimmed. intros [->|Hx]%elem_of_cons.
    + right. split; [lia|by left].
    + destruct (Hran x Hx); [left; lia|].
      destruct (Z.le_gt_cases x rep); [by left|]. right. split; [lia|by right].
  - intros x [_ [->|Hx]]%in_trimmed; [left|]. right. by apply Hsub.
Qed.

Lemma remembers_old seen xid min l :
  remembers seen min l → ¬ first_arrival seen min xid → remembers (xid :: seen) min l.
Proof.
  intros (Hne & Hran & Hsub) Hold. unfold first_arrival in Hold.
  assert (seen ≠ [] ∧ (xid ∈ seen ∨ (xid <= min)%Z)) as [Hs Hx].
  { destruct (decide (xid ∈ seen)) as [Hin|Hni].
    - split; [|by left]. intros ->. by apply not_elem_of_nil in Hin.
    - destruct (decide (seen = [])); [naive_solver|]. split; [done|].
      right. destruct (Z.le_gt_cases xid min); [done|]. destruct Hold.
      split; [done|right; lia]. }
  split_and!; [by auto| |].
  - intros x [->|Hin]%elem_of_cons; [|by auto]. destruct Hx; [by auto|by left].
  - intros x Hin. right. by apply Hsub.
Qed.

(** Exactly the first arrivals are judged NEW. *)
Lemma verdict_first_arrival seen xid rep min l st b min' l' :
  remembers seen min l → verdict_ok xid rep min l st b min' l' →
  st = NEW ↔ first_arrival seen min xid.
Proof.
  intros (Hne & Hran & Hsub) Hv. unfold first_arrival. split.
  - intros ->. destruct Hv as ([->|[Hlt Hni]] & _ & _).
    + assert (seen = []) as ->; [|split; [apply not_elem_of_nil|by left]].
      destruct seen; [done|]. by destruct Hne.
    + split; [|by right]. intros Hin. destruct (Hran xid Hin); [lia|done].
  - intros (Hni & Hor). destruct st; [done|..]; exfalso.
    + destruct Hv as (_ & (r & Hr & Hx & _) & _). apply Hni, Hsub, in_xids. eauto.
    + destruct Hv as (_ & (r & Hr & Hx & _) & _). apply Hni, Hsub, in_xids. eauto.
    + destruct Hv as (Hl & Hle & _). destruct Hor as [->|?]; [|lia].
      destruct l as [|r l]; [done|]. specialize (Hsub (r_xid r) ltac:(left)).
      by apply not_elem_of_nil in Hsub.
Qed.

Lemma win_run_executions {Al : allocator} `{!KeepsFreed Al} clt evs w seen :
  window_ok (bound clt w) (replies clt w) →
  remembers seen (bound clt w) (replies clt w) →
  acks_in_order seen (bound clt w) evs →
  ∃ vs w', win_run clt evs w = Ok (vs, w') ∧
    ∀ x, executions x vs ≤ 1 ∧ (x ∈ seen → executions x vs = 0).
Proof.
  revert w seen. induction evs as [|e evs IH]; intros w seen Hok Hmem Hacks; cbn [win_run].
  { exists [], w. split; [done|]. simpl. intros x. split; [lia|done]. }
  destruct e as [xid rep|xid b sz]; cbn [win_step acks_in_order] in *.
  - destruct Hacks as [Hrep Hacks].
    destruct (check_cases clt xid rep w Hok Hrep) as (st & b & w1 & fr & -> & Hv & Hok1).
    run. pose proof (verdict_first_arrival _ _ _ _ _ _ _ _ _ Hmem Hv) as Hiff.
    destruct (decide (first_arrival seen (bound clt w) xid)) as [Hf|Hf].
    + assert (st = NEW) as -> by (by apply Hiff).
      destruct Hv as (_ & Hb & Hl), Hacks as [Hmin Hacks].
      destruct (IH w1 (xid :: seen)) as (vs & w2 & -> & Hvs); [done| |by rewrite Hb|].
      { rewrite Hb, Hl. apply remembers_new with (min := bound clt w); [done|lia]. }
      run. exists ((xid, NEW) :: vs), w2. split; [done|]. intros x. cbn [executions app].
      destruct (Hvs x) as [H1 H2]. case_decide as Hx.
      * destruct Hx as [-> _]. rewrite H2 by left. split; [lia|]. intros Hin.
        by destruct Hf.
      * split; [lia|]. intros Hin. rewrite H2; [done|by right].
    + assert (st ≠ NEW) as Hst by naive_solver.
      assert (bound clt w1 = bound clt w ∧ replies clt w1 = replies clt w) as [Eb El].
      { destruct st; naive_solver. }
      destruct (IH w1 (xid :: seen)) as (vs & w2 & -> & Hvs); [done| |by rewrite Eb|].
      { rewrite Eb, El. by apply remembers_old. }
      run. exists ((xid, st) :: vs), w2. split; [done|]. intros x. cbn [executions app].
      rewrite decide_False by naive_solver. destruct (Hvs x) as [H1 H2].
      split; [done|]. intros Hin. apply H2. by right.
  - run. assert (bound clt (add_reply clt xid b sz w) = bound clt w) as Eb by done.
    assert (replies clt (add_reply clt xid b sz w) = store_reply xid b sz (replies clt w)) as El
      by apply replies_insert.
    destruct (IH (add_reply clt xid b sz w) seen) as (vs & w2 & -> & Hvs).
    + rewrite Eb, El. unfold window_ok. by rewrite xids_store_reply.
    + rewrite Eb, El. unfold remembers. by rewrite store_reply_nil, xids_store_reply.
    + by rewrite Eb.
    + run. exists vs, w2. by split.
Qed.

(** ** Allocators

    Whatever the allocator does, a run is that with one that keeps freed nodes, or it ends
    in the write to one. *)
Section keeping.
Context {Al : allocator}.

Lemma trim_keeping rep l x : trim_window (Al := keeping) rep l = Ok x →
  trim_window rep l = Ok x ∨ freed_nodes_keep = false ∧ trim_window rep l = Fault UseAfterFree.
Proof.
  revert x. induction l as [|r l IH]; intros x; cbn [trim_window]; [done|]. destruct (r_xid r <=? rep)%Z; [|by left].
  change (@freed_nodes_keep keeping) with true. cbn iota. intros ([l' fr] & E & [= <-])%bind_Ok.
  destruct (IH _ E) as [E'|[Hk E']]; destruct freed_nodes_keep eqn:Ek; [rewrite E'; run; by left| |congruence|];
    destruct l; [done|by right|done|by right].
Qed.

Lemma check_keeping clt xid rep w x : checkduplicate_and_update (Al := keeping) clt xid rep w = Ok x →
  checkduplicate_and_update clt xid rep w = Ok x ∨
  freed_nodes_keep = false ∧ checkduplicate_and_update clt xid rep w = Fault UseAfterFree.
Proof.
  unfold checkduplicate_and_update. destruct (match replies clt w with [] => _ | _ => _ end) as [ret b].
  case_decide; [|by left]. intros ([l fr] & E & <-)%bind_Ok. destruct (trim_keeping _ _ _ E) as [->|[Hk ->]]; run; [by left|by right].
Qed.

Lemma check_keeps clt xid rep w x : checkduplicate_and_update clt xid rep w = Ok x →
  checkduplicate_and_update (Al := keeping) clt xid rep w = Ok x.
Proof.
  unfold checkduplicate_and_update. destruct (match replies clt w with [] => _ | _ => _ end) as [ret b].
  case_decide; [|done]. intros ([l fr] & E & <-)%bind_Ok.
  assert (∀ l0 y, trim_window rep l0 = Ok y → trim_window (Al := keeping) rep l0 = Ok y) as Ht; [|by rewrite (Ht _ _ E)].
  clear. induction l0 as [|r l IH]; intros y; cbn [trim_window]; [done|]. destruct (r_xid r <=? rep)%Z; [|done].
  change (@freed_nodes_keep keeping) with true. destruct freed_nodes_keep; [|by destruct l].
  intros ([l' fr] & E & [= <-])%bind_Ok. rewrite (IH _ E). by run.
Qed.

Lemma check_no_write clt xid rep w st b w' : checkduplicate_and_update clt xid rep w = Ok (st, b, w', true) →
  freed_nodes_keep = true.
Proof.
  unfold checkduplicate_and_update. destruct (match replies clt w with [] => _ | _ => _ end) as [ret b'].
  case_decide; [|done]. intros ([l fr] & E & [= _ _ _ ->])%bind_Ok.
  destruct (insert_reply xid (replies clt w)) as [|r l']; cbn [trim_window] in E; [done|].
  destruct (r_xid r <=? rep)%Z; [|done]. destruct freed_nodes_keep; [done|by destruct l'].
Qed.

Lemma win_run_keeping clt evs w x : win_run (Al := keeping) clt evs w = Ok x →
  win_run clt evs w = Ok x ∨ freed_nodes_keep = false ∧ win_run clt evs w = Fault UseAfterFree.
Proof.
  revert w x. induction evs as [|e evs IH]; intros w x; cbn [win_run]; [by left|].
  intros ([v w1] & E & ([vs w2] & E2 & [= <-])%bind_Ok)%bind_Ok.
  destruct e as [xid rep|xid b sz]; cbn [win_step] in *.
  - apply bind_Ok in E as ([[[st b] w1'] fr] & E & [= <- <-]).
    destruct (check_keeping _ _ _ _ _ E) as [->|[Hk ->]]; run; [|by right].
    destruct (IH _ _ E2) as [->|[Hk ->]]; run; [by left|by right].
  - injection E as <- <-. run. destruct (IH _ _ E2) as [->|[Hk ->]]; run; [by left|by right].
Qed.

Lemma win_run_keeps clt evs w x : win_run clt evs w = Ok x → win_run (Al := keeping) clt evs w = Ok x.
Proof.
  revert w x. induction evs as [|e evs IH]; intros w x; cbn [win_run]; [done|].
  intros ([v w1] & E & ([vs w2] & E2 & [= <-])%bind_Ok)%bind_Ok.
  assert (win_step (Al := keeping) clt e w = Ok (v, w1)) as ->; [|run; rewrite (IH _ _ E2); by run].
  destruct e as [xid rep|xid b sz]; cbn [win_step] in *; [|done].
  apply bind_Ok in E as ([[[st b] w1'] fr] & E & [= <- <-]). rewrite (check_keeps _ _ _ _ _ E). by run.
Qed.
End keeping.

(** A recorded reply stays until its xid is acknowledged. *)
Definition recorded (xid : Z) (b : option bytes) (sz : Z) (l : list reply_t) : Prop :=
  ReplyT xid true b sz ∈ l.

Fixpoint no_ack_of (xid : Z) (evs : list win_event) : Prop :=
  match evs with
  | [] => True
  | Request x rep :: evs => (rep < xid)%Z ∧ (rep < x)%Z ∧ no_ack_of xid evs
  | Replied x _ _ :: evs => x ≠ xid ∧ no_ack_of xid evs
  end.

Lemma store_reply_records x b sz l : x ∈ xids l → recorded x b sz (store_reply x b sz l).
Proof.
  unfold recorded. induction l as [|r l IH]; simpl; intros Hx; [by apply not_elem_of_nil in Hx|].
  destruct (Z.eqb_spec x (r_xid r)) as [->|]; [by left|]. right. apply IH.
  apply elem_of_cons in Hx as [?|?]; [by exfalso|done].
Qed.

Lemma store_reply_keeps x xid b sz b' sz' l :
  x ≠ xid → recorded xid b sz l → recorded xid b sz (store_reply x b' sz' l).
Proof.
  unfold recorded. intros Hne. induction l as [|r l IH]; simpl; [done|].
  destruct (Z.eqb_spec x (r_xid r)); intros [E|Hin]%elem_of_cons.
  - by subst r.
  - by right.
  - subst r. by left.
  - right. by apply IH.
Qed.

Lemma win_run_recorded {Al : allocator} `{!KeepsFreed Al} clt evs w xid b sz :
  window_ok (bound clt w) (replies clt w) → recorded xid b sz (replies clt w) →
  no_ack_of xid evs →
  ∃ vs w', win_run clt evs w = Ok (vs, w') ∧
    window_ok (bound clt w') (replies clt w') ∧ recorded xid b sz (replies clt w').
Proof.
  revert w. induction evs as [|e evs IH]; intros w Hok Hrec Hna; cbn [win_run].
  { by exists [], w. }
  destruct e as [x rep|x b' sz']; cbn [win_step no_ack_of] in *.
  - destruct Hna as (H1 & H2 & Hna).
    destruct (check_cases clt x rep w Hok H2) as (st & bb & w1 & fr & -> & Hv & Hok1). run.
    assert (recorded xid b sz (replies clt w1)) as Hrec1.
    { destruct st; destruct Hv as (? & ?); destruct_and?; [|congruence..].
      match goal with H : replies clt w1 = _ |- _ => rewrite H end.
      apply list_elem_of_filter. split; [done|]. rewrite insert_reply_perm. by right. }
    destruct (IH w1 Hok1 Hrec1 Hna) as (vs & w2 & -> & ? & ?). run. by eexists _, _.
  - destruct Hna as [Hne Hna]. run.
    destruct (IH (add_reply clt x b' sz' w)) as (vs & w2 & -> & ? & ?); [..|done|].
    + unfold window_ok, add_reply. rewrite replies_insert, xids_store_reply. done.
    + unfold add_reply. rewrite replies_insert. by apply store_reply_keeps.
    + run. by eexists _, _.
Qed.

Lemma check_recorded {Al : allocator} clt w xid b sz rep :
  window_ok (bound clt w) (replies clt w) → recorded xid b sz (replies clt w) →
  ∃ w', checkduplicate_and_update clt xid rep w = Ok (DONE, Some (b, sz), w', false).
Proof.
  intros [Hs Hm] Hrec.
  exists (Windows (<[clt := replies clt w]> (reply_window w)) (<[clt := bound clt w]> (window_bound w))).
  unfold checkduplicate_and_update. destruct (replies clt w) as [|r0 l0] eqn:El.
  { by apply not_elem_of_nil in Hrec. }
  rewrite <- El in *. assert (bound clt w < xid)%Z as Hlt.
  { rewrite Forall_forall in Hm. apply Hm, in_xids. by exists (ReplyT xid true b sz). }
  destruct (Z.leb_spec xid (bound clt w)); [lia|].
  rewrite (scan_window_present xid _ (ReplyT xid true b sz)) by done. simpl.
  rewrite El. reflexivity.
Qed.

(** ** Properties *)

(** C3: At-most-once execution: from a client whose window is still empty, in any
    sequence of requests (first arrivals, retransmissions, very late ones) and
    finished handlers in which a request acknowledges only earlier xids and first arrivals
    do not lower the acknowledged xid, no xid is judged NEW, so executed, twice.  The only
    way in which the window code fails is the write through the freed list node in the
    loop that drops acknowledged replies, which ends the run at the first acknowledged reply unless
    the allocator leaves the node's memory as it is; it never takes the front of an empty
    list. *)
Theorem at_most_once {Al : allocator} clt evs w :
  replies clt w = [] → acks_in_order [] (bound clt w) evs →
  (∀ vs w', win_run clt evs w = Ok (vs, w') → ∀ x, executions x vs ≤ 1) ∧
  ((∃ vs w', win_run clt evs w = Ok (vs, w')) ∨ (freed_nodes_keep = false ∧ win_run clt evs w = Fault UseAfterFree)).
Proof.
  intros Hnil Hacks.
  destruct (win_run_executions (Al := keeping) clt evs w []) as (vs & w' & Hr & Hvs).
  - rewrite Hnil. split; [apply SSorted_nil|done].
  - rewrite Hnil. split_and!; [done|intros x Hx; by apply not_elem_of_nil in Hx..].
  - done.
  - split.
    + intros vs1 w1 E x. apply win_run_keeps in E. rewrite Hr in E. injection E as <- <-. apply Hvs.
    + destruct (win_run_keeping _ _ _ _ Hr) as [E|[E1 E2]]; eauto.
Qed.

Lemma at_most_once_witness :
  (∃ vs w', win_run (Al := keeping) 7 [Request 1 0; Request 2 0; Replied 1 None 0; Request 1 0; Request 3 1; Request 1 0]
             (Windows ∅ ∅) = Ok (vs, w') ∧ ∀ x, executions x vs ≤ 1) ∧
  win_run (Al := Allocator false) 7 [Request 1 0; Replied 1 None 0; Request 2 1] (Windows ∅ ∅) = Fault UseAfterFree.
Proof.
  split; [|vm_compute; reflexivity].
  destruct (at_most_once (Al := keeping) 7
    [Request 1 0; Request 2 0; Replied 1 None 0; Request 1 0; Request 3 1; Request 1 0] (Windows ∅ ∅)) as [H1 H2];
    [reflexivity|vm_compute; repeat split; discriminate|].
  destruct H2 as [(vs & w' & E)|[E _]]; [|discriminate E]. exists vs, w'. split; [exact E|]. exact (H1 vs w' E).
Defined.

(** The order of the acknowledgements matters: the bound of the window is
    overwritten, not raised, so an overtaken request with an old [xid_rep] lowers
    it and a late duplicate is judged NEW, and executed, a second time. *)
Theorem at_most_once_lost_when_acks_reorder {Al : allocator} `{!KeepsFreed Al} :
  ∃ evs vs w', Forall (λ e, match e with Request x rep => (rep < x)%Z | _ => True end) evs ∧
    win_run 7 evs (Windows ∅ ∅) = Ok (vs, w') ∧ executions 5 vs = 2.
Proof.
  destruct Al as [k]. pose proof (@keeps_freed (Allocator k) _) as Hk. cbn in Hk. subst k.
  exists [Request 5 0; Replied 5 None 0; Request 12 9; Request 11 3; Request 5 0].
  do 2 eexists. split_and!; [repeat constructor|vm_compute; reflexivity|vm_compute; reflexivity].
Qed.



(** C8: A retransmitted request gets the reply of its handler again: once the handler of
    a request in the window (a sorted one, without repetition) has finished, with the reply
    [b], a duplicate of the request is judged DONE and answered with [b], whatever other
    requests and handlers of the client came in between, until the client acknowledges it;
    or one of those wrote through the freed list node while it dropped acknowledged replies,
    with an allocator that does not leave the node's memory as it is. *)
Theorem duplicate_gets_recorded_reply {Al : allocator} clt evs w xid b sz rep :
  window_ok (bound clt w) (replies clt w) → xid ∈ xids (replies clt w) → no_ack_of xid evs →
  (∃ vs w' w'', win_run clt (Replied xid b sz :: evs) w = Ok (vs, w') ∧
     checkduplicate_and_update clt xid rep w' = Ok (DONE, Some (b, sz), w'', false)) ∨
  (freed_nodes_keep = false ∧ win_run clt (Replied xid b sz :: evs) w = Fault UseAfterFree).
Proof.
  intros Hok Hin Hna.
  destruct (win_run_recorded (Al := keeping) clt evs (add_reply clt xid b sz w) xid b sz) as (vs & w' & Hr & Hok' & Hrec');
    [| |done|revert Hr].
  - unfold window_ok, add_reply. rewrite replies_insert, xids_store_reply. done.
  - unfold add_reply. rewrite replies_insert. by apply store_reply_records.
  - intros Hr. cbn [win_run win_step]. run. destruct (win_run_keeping _ _ _ _ Hr) as [->|[Hk ->]]; run; [left|by right].
    destruct (check_recorded clt w' xid b sz rep Hok' Hrec') as (w'' & E). eauto.
Qed.

Lemma duplicate_gets_recorded_reply_witness :
  ∃ vs w' w'', win_run (Al := keeping) 7 [Replied 5 (Some (lit "r")) 1; Request 6 2; Replied 6 None 0; Request 7 4]
      (Windows {[7 := [new_reply_t 5]]} {[7 := 2]})%Z = Ok (vs, w') ∧
    checkduplicate_and_update (Al := keeping) 7 5 0 w' = Ok (DONE, Some (Some (lit "r"), 1%Z), w'', false).
Proof.
  destruct (duplicate_gets_recorded_reply (Al := keeping) 7 [Request 6 2; Replied 6 None 0; Request 7 4]
    (Windows {[7 := [new_reply_t 5]]} {[7 := 2]})%Z 5 (Some (lit "r")) 1 0) as [H|[H _]].
  - split; [vm_compute; repeat constructor|vm_compute; repeat constructor].
  - unfold replies. simpl. left.
  - simpl. lia.
  - exact H.
  - discriminate H.
Defined.

(** Whenever a new request acknowledges a reply still in the window, the loop
    that drops it writes through a reference to a list node it has just freed: it fails, or
    reports so with an allocator that leaves the node as it is. *)
Lemma trim_reports_freed_node {Al : allocator} `{!KeepsFreed Al} clt xid rep w :
  window_ok (bound clt w) (replies clt w) → (rep < xid)%Z →
  (bound clt w < xid)%Z → xid ∉ xids (replies clt w) →
  ∃ b w', checkduplicate_and_update clt xid rep w
          = Ok (NEW, b, w', bool_decide (Exists (λ x, x <= rep)%Z (xids (replies clt w)))).
Proof.
  intros [Hs Hm] Hrep Hlt Hni. unfold checkduplicate_and_update.
  assert (∀ l, l = replies clt w →
    trim_window rep (insert_reply xid l) = Ok (filter (λ r, (rep < r_xid r)%Z) (insert_reply xid l),
      bool_decide (Exists (λ x, x <= rep)%Z (xids l)))) as Htrim.
  { intros l ->. rewrite trim_window_spec
      by (by apply insert_reply_sorted || by apply insert_reply_Exists).
    do 2 f_equal. apply bool_decide_ext. rewrite insert_reply_perm, Exists_cons. simpl.
    unfold xids. rewrite Exists_fmap. split; [intros [?|?]; [lia|done]|by right]. }
  destruct (replies clt w) as [|r0 l0] eqn:El; cbn zeta iota beta.
  { rewrite decide_True by done. rewrite Htrim by done. run. eauto. }
  rewrite <- El in *. destruct (Z.leb_spec xid (bound clt w)); [lia|].
  rewrite scan_window_absent, decide_True, Htrim by done. run. eauto.
Qed.

Theorem trim_writes_freed_node clt xid rep w :
  window_ok (bound clt w) (replies clt w) → (rep < xid)%Z →
  (bound clt w < xid)%Z → xid ∉ xids (replies clt w) → Exists (λ x, x <= rep)%Z (xids (replies clt w)) →
  checkduplicate_and_update (Al := Allocator false) clt xid rep w = Fault UseAfterFree.
Proof.
  intros Hok Hrep Hlt Hni Hex. destruct (trim_reports_freed_node (Al := keeping) clt xid rep w) as (b & w' & E); [done..|].
  rewrite bool_decide_true in E by done.
  destruct (check_keeping (Al := Allocator false) _ _ _ _ _ E) as [E'|[_ ?]]; [|done].
  by apply check_no_write in E'.
Qed.

Lemma trim_writes_freed_node_witness :
  checkduplicate_and_update (Al := Allocator false) 7 2 1 (Windows {[7 := [new_reply_t 1]]} {[7 := 0]})%Z
  = Fault UseAfterFree.
Proof.
  apply (trim_writes_freed_node 7 2 1 (Windows {[7 := [new_reply_t 1]]} {[7 := 0]})%Z).
  - split; [vm_compute; repeat constructor|vm_compute; repeat constructor].
  - lia.
  - vm_compute. done.
  - vm_compute. intros H. inversion H as [|? ? ? H']; subst; inversion H'.
  - left. done.
Defined.
