(* ===== verification/RpcTime.v ===== *)
(** * Deadlines (the timespec helpers of rpc/rpc.cc)

    [struct timespec] with [long] fields; the values that occur are far from the
    bounds of [long], so the fields are integers. *)

From stdpp Require Import base tactics numbers list.
From Stdlib Require Import ZArith Lia.
From S2P Require Import Prelude.

Record timespec := Timespec { tv_sec : Z; tv_nsec : Z }.

(** [cmp_timespec] *)
Definition cmp_timespec (a b : timespec) : Z :=
  if (tv_sec a >? tv_sec b)%Z then 1
  else if (tv_sec a <? tv_sec b)%Z then -1
  else if (tv_nsec a >? tv_nsec b)%Z then 1
  else if (tv_nsec a <? tv_nsec b)%Z then -1
  else 0.

(** The carry loop of [add_timespec]. *)
Fixpoint carry_nsec (fuel : nat) (t : timespec) : outcome timespec :=
  if (tv_nsec t >? 1000000000)%Z then
    match fuel with
    | O => Fault NoFuel
    | S fuel => carry_nsec fuel (Timespec (tv_sec t + 1) (tv_nsec t - 1000000000))
    end
  else Ok t.

(** [add_timespec]; C++ division and remainder round toward zero.  The loop runs
    at most [tv_nsec / 10^9] times. *)
Definition add_timespec (a : timespec) (b : Z) : outcome timespec :=
  let r := Timespec (tv_sec a + Z.quot b 1000) (tv_nsec a + Z.rem b 1000 * 1000000) in
  VERIFY (tv_nsec r >=? 0)%Z;;
  carry_nsec (Z.to_nat (tv_nsec r / 1000000000)) r.

(** [diff_timespec], in milliseconds, as an [int]. *)
Definition diff_timespec (e s : timespec) : outcome Z :=
  let diff := if (tv_sec e >? tv_sec s)%Z then i32 ((tv_sec e - tv_sec s) * 1000) else 0%Z in
  VERIFY (negb (diff =? 0)%Z || (tv_sec e =? tv_sec s)%Z);;
  if (tv_nsec e >? tv_nsec s)%Z
  then Ok (i32 (diff + Z.quot (tv_nsec e - tv_nsec s) 1000000))
  else Ok (i32 (diff - Z.quot (tv_nsec s - tv_nsec e) 1000000)).

(** ** Correctness *)

(** The instant, in nanoseconds, a pair of fields stands for. *)
Definition nsecs (t : timespec) : Z := tv_sec t * 1000000000 + tv_nsec t.

(** The fields as [clock_gettime] fills them, and as [add_timespec] leaves them. *)
Definition normal (t : timespec) : Prop := (0 <= tv_nsec t < 1000000000)%Z.
Definition nearly_normal (t : timespec) : Prop := (0 <= tv_nsec t <= 1000000000)%Z.

Lemma carry_nsec_spec fuel t :
  (0 <= tv_nsec t)%Z → Z.to_nat (tv_nsec t / 1000000000) ≤ fuel →
  ∃ t', carry_nsec fuel t = Ok t' ∧ nsecs t' = nsecs t ∧ nearly_normal t' ∧
        (tv_nsec t' = 1000000000 ↔ tv_nsec t ≠ 0 ∧ tv_nsec t mod 1000000000 = 0)%Z.
Proof.
  revert t. induction fuel as [|fuel IH]; intros [s n] H0 Hf; cbn [carry_nsec tv_nsec tv_sec] in *;
    rewrite Z.gtb_ltb; pose proof (Z.div_mod n 1000000000); pose proof (Z.mod_pos_bound n 1000000000);
    destruct (Z.ltb_spec 1000000000 n).
  - lia.
  - eexists. split; [done|]. unfold nearly_normal. simpl. lia.
  - assert (n = (n - 1000000000) + 1 * 1000000000)%Z as En by lia.
    assert (n / 1000000000 = (n - 1000000000) / 1000000000 + 1)%Z as Ed
      by (rewrite En at 1; rewrite Z.div_add; lia).
    assert (n mod 1000000000 = (n - 1000000000) mod 1000000000)%Z as Em
      by (rewrite En at 1; rewrite Z.mod_add; lia).
    destruct (IH (Timespec (s + 1) (n - 1000000000))) as (t' & -> & Hn & Hr & Hiff); simpl; [lia..|].
    exists t'. split_and!; [done| |done|]; unfold nsecs in *; simpl in *; lia.
  - eexists. split; [done|]. unfold nearly_normal. simpl. lia.
Qed.

Lemma add_timespec_spec a b :
  (0 <= tv_nsec a)%Z → (0 <= b)%Z →
  ∃ t, add_timespec a b = Ok t ∧ (nsecs t = nsecs a + b * 1000000)%Z ∧ nearly_normal t ∧
       (tv_nsec t = 1000000000 ↔
        0 < tv_nsec a + b mod 1000 * 1000000 ∧ (tv_nsec a + b * 1000000) mod 1000000000 = 0)%Z.
Proof.
  intros Ha Hb. unfold add_timespec.
  rewrite Z.quot_div_nonneg, Z.rem_mod_nonneg by lia.
  pose proof (Z.div_mod b 1000). pose proof (Z.mod_pos_bound b 1000).
  cbn [tv_nsec]. rewrite Z.geb_leb. destruct (Z.leb_spec 0 (tv_nsec a + b mod 1000 * 1000000)); [|lia].
  run. destruct (carry_nsec_spec (Z.to_nat ((tv_nsec a + b mod 1000 * 1000000) / 1000000000))
    (Timespec (tv_sec a + b / 1000) (tv_nsec a + b mod 1000 * 1000000))
    ltac:(simpl; lia) (le_n _)) as (t & -> & Hn & Hr & Hiff).
  exists t. split_and!; [done| |done|].
  - unfold nsecs in *. simpl in *. lia.
  - rewrite Hiff. simpl.
    assert (tv_nsec a + b * 1000000
      = tv_nsec a + b mod 1000 * 1000000 + (b / 1000) * 1000000000)%Z as -> by lia.
    rewrite Z.mod_add by lia. split; intros [? ?]; split; lia.
Qed.

(** A timeout in whole seconds leaves a timespec in its range. *)
Lemma add_timespec_seconds a b :
  normal a → (0 <= b)%Z → (b mod 1000 = 0)%Z →
  ∃ t, add_timespec a b = Ok t ∧ nsecs t = (nsecs a + b * 1000000)%Z ∧ normal t.
Proof.
  intros [Ha Ha'] Hb Hm. destruct (add_timespec_spec a b Ha Hb) as (t & E & Hn & Hr & Hiff).
  exists t. split_and!; [done..|]. unfold nearly_normal, normal in *.
  destruct (decide (tv_nsec t = 1000000000)%Z) as [E9|]; [|lia]. apply Hiff in E9 as [H1 H2]. exfalso.
  pose proof (Z.div_mod b 1000). replace (b * 1000000)%Z with (b / 1000 * 1000000000)%Z in H2 by lia.
  rewrite Z.mod_add, Z.mod_small in H2 by lia. rewrite Hm in H1. lia.
Qed.

(** Comparing deadlines: a later instant compares greater, whatever the carry. *)
Lemma cmp_timespec_later a b :
  nearly_normal a → nearly_normal b → (nsecs b < nsecs a)%Z → cmp_timespec a b = 1%Z.
Proof.
  destruct a as [s n], b as [s' n']. unfold nearly_normal, nsecs, cmp_timespec. simpl.
  intros ? ? ?. rewrite !Z.gtb_ltb. destruct (Z.ltb_spec s' s); [done|].
  destruct (Z.ltb_spec s s'); [lia|]. destruct (Z.ltb_spec n' n); [done|]. lia.
Qed.

Lemma cmp_timespec_not_later a b : normal a → normal b → (nsecs a <= nsecs b)%Z → (cmp_timespec a b <= 0)%Z.
Proof.
  destruct a as [s n], b as [s' n']. unfold normal, nsecs, cmp_timespec. simpl.
  intros ? ? ?. rewrite !Z.gtb_ltb. destruct (Z.ltb_spec s' s); [lia|].
  destruct (Z.ltb_spec s s'); [lia|]. destruct (Z.ltb_spec n' n); [lia|]. by case_match.
Qed.

(** C37: A deadline is exactly the given instant plus the milliseconds, for every
    non-negative timeout; but the carry loop stops one step early, so that the
    nanoseconds field is 10^9, outside the range of a timespec, exactly when the
    deadline falls on a whole second that a carry had to produce. *)
Theorem add_timespec_exact a b :
  normal a → (0 <= b)%Z →
  ∃ t, add_timespec a b = Ok t ∧ (nsecs t = nsecs a + b * 1000000)%Z ∧
       (normal t ∨ tv_nsec t = 1000000000)%Z ∧
       (tv_nsec t = 1000000000 ↔
        0 < tv_nsec a + b mod 1000 * 1000000 ∧ (tv_nsec a + b * 1000000) mod 1000000000 = 0)%Z.
Proof.
  intros [Ha _] Hb. destruct (add_timespec_spec a b Ha Hb) as (t & -> & Hn & Hr & Hiff).
  exists t. split_and!; [done..| |done]. unfold normal, nearly_normal in *. lia.
Qed.

Lemma add_timespec_exact_witness :
  add_timespec (Timespec 5 400000000) 1600 = Ok (Timespec 6 1000000000).
Proof.
  destruct (add_timespec_exact (Timespec 5 400000000) 1600) as (t & E & _).
  - unfold normal. simpl. lia.
  - lia.
  - rewrite E. vm_compute in E. symmetry. done.
Defined.

(** The difference of two ordered clock readings, less than 24 days apart, is
    correct to the millisecond. *)
Lemma diff_timespec_close e s :
  normal e → normal s → (tv_sec s <= tv_sec e)%Z → (tv_sec e - tv_sec s < 2000000)%Z →
  ∃ d, diff_timespec e s = Ok d ∧
       (Z.abs (nsecs e - nsecs s - d * 1000000) < 1000000)%Z.
Proof.
  destruct e as [es en], s as [ss sn]. unfold normal, diff_timespec, nsecs. simpl. intros He Hs Hle Hlt.
  rewrite !Z.gtb_ltb. destruct (Z.ltb_spec ss es).
  - rewrite (i32_small ((es - ss) * 1000)) by lia.
    destruct (Z.eqb_spec ((es - ss) * 1000) 0); [lia|]. run.
    destruct (Z.ltb_spec sn en).
    + pose proof (Z.quot_rem' (en - sn) 1000000). pose proof (Z.rem_bound_pos (en - sn) 1000000).
      eexists. split; [done|]. rewrite i32_small by lia. lia.
    + pose proof (Z.quot_rem' (sn - en) 1000000). pose proof (Z.rem_bound_pos (sn - en) 1000000).
      eexists. split; [done|]. rewrite i32_small by lia. lia.
  - assert (es = ss) as -> by lia. rewrite (Z.eqb_refl ss), orb_true_r. run.
    destruct (Z.ltb_spec sn en).
    + pose proof (Z.quot_rem' (en - sn) 1000000). pose proof (Z.rem_bound_pos (en - sn) 1000000).
      eexists. split; [done|]. rewrite i32_small by lia. lia.
    + pose proof (Z.quot_rem' (sn - en) 1000000). pose proof (Z.rem_bound_pos (sn - en) 1000000).
      eexists. split; [done|]. rewrite i32_small by lia. lia.
Qed.
