(* ===== verification/Gettime.v ===== *)
(** * The clock of Mac OS (gettime.cc)

    [clock_gettime] over the clocks of Mach, for systems without one of their own: the two
    clocks of the host, and two that turn a count of ticks into seconds and nanoseconds
    with floating-point arithmetic, which is modelled to the bit. *)

From stdpp Require Import base tactics numbers list.
From Stdlib Require Import ZArith Lia.
From S2P Require Import Prelude RpcTime.

#[local] Open Scope Z_scope.

(** ** Doubles

    [Dbl m e] is the number m * 2^e; an operation rounds its exact result to 53 bits, to
    the nearest, ties to even.  The numbers here are far from the bounds of the exponent. *)
Record double := Dbl { d_m : Z; d_e : Z }.

(** m / 2^k to the nearest integer. *)
Definition round_even (m k : Z) : Z :=
  let q := m / 2 ^ k in
  let r := m mod 2 ^ k in
  if 2 * r <? 2 ^ k then q
  else if 2 ^ k <? 2 * r then q + 1
  else if Z.even q then q else q + 1.

Definition rnd (m e : Z) : double :=
  let k := Z.max 0 (Z.log2 (Z.abs m) - 52) in Dbl (round_even m k) (e + k).

(** The conversions from and to integer types and the two operations of the code. *)
Definition dbl_of_int (n : Z) : double := rnd n 0.
Definition dbl_mul (a b : double) : double := rnd (d_m a * d_m b) (d_e a + d_e b).
Definition dbl_sub (a b : double) : double :=
  let e := Z.min (d_e a) (d_e b) in
  rnd (d_m a * 2 ^ (d_e a - e) - d_m b * 2 ^ (d_e b - e)) e.
Definition int_of_dbl (a : double) : Z :=
  if 0 <=? d_e a then d_m a * 2 ^ d_e a else Z.quot (d_m a) (2 ^ (- d_e a)).

(** The constants [1e9] and [1e-9]. *)
Definition dbl_1e9 : double := dbl_of_int 1000000000.
Definition dbl_1em9 : double := Dbl 4835703278458517 (-82).

(** ** clock_gettime *)
Definition CLOCK_REALTIME : Z := 0.
Definition CLOCK_MONOTONIC : Z := 1.
Definition CLOCK_PROCESS_CPUTIME_ID : Z := 2.
Definition CLOCK_THREAD_CPUTIME_ID : Z := 3.

(** [mach_timebase_info_data_t] *)
Record timebase := Timebase { numer : Z; denom : Z }.

(** The answers of Mach: the service of a clock of the host (CALENDAR_CLOCK or
    SYSTEM_CLOCK) and its time, if they succeed; the two readings of
    mach_absolute_time; the time base. *)
Record mach := Mach {
  host_get_clock_service : bool → option Z;
  clock_get_time : Z → option timespec;
  absolute_start : Z; absolute_end : Z;
  timebase_info : timebase }.

(** [tp] from a number of nanoseconds. *)
Definition split_nano (nano : Z) : timespec :=
  let sec := int_of_dbl (dbl_mul (dbl_of_int nano) dbl_1em9) in
  Timespec sec (int_of_dbl (dbl_sub (dbl_of_int nano) (dbl_mul (dbl_of_int sec) dbl_1e9))).

(** [clock_gettime]: the result, whether errno is set to EINVAL, [*tp] and the static
    time base. *)
Definition clock_gettime (os : mach) (clk_id : Z) (tp : timespec) (inf : timebase) :
    outcome (Z * bool * timespec * timebase) :=
  if (clk_id =? CLOCK_REALTIME) || (clk_id =? CLOCK_MONOTONIC) then
    Ok match host_get_clock_service os (clk_id =? CLOCK_REALTIME) with
       | Some clk =>
           match clock_get_time os clk with
           | Some tm => (0, false, tm, inf)
           | None => (-1, true, tp, inf)
           end
       | None => (-1, true, tp, inf)
       end
  else if (clk_id =? CLOCK_PROCESS_CPUTIME_ID) || (clk_id =? CLOCK_THREAD_CPUTIME_ID) then
    let delta := u64 (absolute_end os - absolute_start os) in
    let inf := if denom inf =? 0 then timebase_info os else inf in
    if denom inf =? 0 then Fault DivideByZero
    else Ok (0, false, split_nano (u64 (delta * numer inf) / denom inf), inf)
  else Ok (-1, true, tp, inf).

(** ** Rounding *)

(** [dbl_1em9] is the double nearest to 10^-9, and above it. *)
Lemma dbl_1em9_nearest : 0 < d_m dbl_1em9 * 1000000000 - 2 ^ 82 < 1000000000 / 2.
Proof. vm_compute. done. Qed.

(** The nearest multiple: not below the multiples that are below, and off by half. *)
Lemma round_even_bounds m k : 0 <= k →
  m / 2 ^ k <= round_even m k ∧ 2 * (round_even m k * 2 ^ k) <= 2 * m + 2 ^ k.
Proof.
  intros Hk. unfold round_even. pose proof (Z.div_mod m (2 ^ k)) as Hd. pose proof (Z.pow_pos_nonneg 2 k ltac:(lia) Hk) as Hp.
  pose proof (Z.mod_pos_bound m (2 ^ k) Hp). set (q := m / 2 ^ k) in *. set (r := m mod 2 ^ k) in *.
  specialize (Hd ltac:(lia)).
  destruct (Z.ltb_spec (2 * r) (2 ^ k)), (Z.ltb_spec (2 ^ k) (2 * r)), (Z.even q); split; try lia; nia.
Qed.

Lemma round_even_0 m : round_even m 0 = m.
Proof. unfold round_even. by rewrite Z.pow_0_r, Z.mod_1_r, Z.div_1_r. Qed.

(** Integers of 53 bits are doubles. *)
Lemma rnd_small m e : Z.abs m < 2 ^ 53 → rnd m e = Dbl m e.
Proof.
  intros Hm. unfold rnd. assert (Z.log2 (Z.abs m) - 52 <= 0).
  { destruct (decide (Z.abs m = 0)) as [->|]; [done|]. apply Z.log2_lt_pow2 in Hm; lia. }
  rewrite Z.max_l by lia. by rewrite round_even_0, Z.add_0_r.
Qed.

(** The seconds: rounding the product with [1e-9] does not carry it to the next one. *)
Lemma seconds_exact nano : 0 <= nano < 2 ^ 23 * 1000000000 →
  int_of_dbl (dbl_mul (dbl_of_int nano) dbl_1em9) = nano / 1000000000.
Proof.
  intros Hn. assert (Z.abs nano < 2 ^ 53) as Habs by lia. unfold dbl_of_int, dbl_mul. rewrite (rnd_small nano) by exact Habs.
  cbn [d_m d_e dbl_1em9]. unfold rnd. set (P := nano * 4835703278458517).
  assert (0 <= P < 2 ^ 105) as HP by (unfold P; lia). rewrite Z.abs_eq by lia.
  set (k := Z.max 0 (Z.log2 P - 52)). assert (0 <= k <= 52) as Hk.
  { split; [lia|]. unfold k. assert (Z.log2 P <= 104); [|lia]. destruct (decide (P = 0)) as [->|]; [done|].
    destruct HP as [HP0 HP]. apply Z.log2_lt_pow2 in HP; lia. }
  destruct (round_even_bounds P k ltac:(lia)) as [Hlo Hhi]. set (R := round_even P k) in *.
  unfold int_of_dbl. cbn [d_m d_e]. destruct (Z.leb_spec 0 (0 + -82 + k)); [lia|].
  replace (- (0 + -82 + k)) with (82 - k) by lia.
  assert (0 < 2 ^ k) as Hpk by (apply Z.pow_pos_nonneg; lia). assert (0 < 2 ^ (82 - k)) as Hp82 by (apply Z.pow_pos_nonneg; lia).
  assert (2 ^ k * 2 ^ (82 - k) = 2 ^ 82) as Hsplit by (rewrite <- Z.pow_add_r by lia; f_equal; lia).
  assert (2 ^ k <= 2 ^ 52) as Hk52 by (apply Z.pow_le_mono_r; lia).
  pose proof (Z.div_mod nano 1000000000 ltac:(lia)) as Hdm. pose proof (Z.mod_pos_bound nano 1000000000 ltac:(lia)) as Hmod.
  set (q := nano / 1000000000) in *. set (r := nano mod 1000000000) in *.
  assert (q * 2 ^ (82 - k) <= R) as Hge.
  { etrans; [|exact Hlo]. apply Z.div_le_lower_bound; [lia|]. unfold P. nia. }
  assert (R < (q + 1) * 2 ^ (82 - k)) as Hlt.
  { assert (2 * (R * 2 ^ k) < 2 * ((q + 1) * 2 ^ 82)); [|nia]. unfold P in *. lia. }
  rewrite Z.quot_div_nonneg by nia. symmetry. apply Z.div_unique with (R - q * 2 ^ (82 - k)); nia.
Qed.

Lemma split_nano_exact nano : 0 <= nano < 2 ^ 23 * 1000000000 →
  split_nano nano = Timespec (nano / 1000000000) (nano mod 1000000000).
Proof.
  intros Hn. unfold split_nano. rewrite seconds_exact by done.
  pose proof (Z.div_mod nano 1000000000 ltac:(lia)) as Hdm. pose proof (Z.mod_pos_bound nano 1000000000 ltac:(lia)) as Hmod.
  set (q := nano / 1000000000) in *. set (r := nano mod 1000000000) in *.
  assert (Z.abs nano < 2 ^ 53) as H1 by lia. assert (Z.abs q < 2 ^ 53) as H2 by lia.
  assert (Z.abs (q * 1000000000) < 2 ^ 53) as H3 by lia. assert (Z.abs r < 2 ^ 53) as H4 by lia.
  unfold dbl_mul, dbl_sub, dbl_of_int. rewrite (rnd_small nano) by exact H1. rewrite (rnd_small q) by exact H2.
  change dbl_1e9 with (Dbl 1000000000 0). cbn [d_m d_e Z.add]. rewrite (rnd_small (q * 1000000000)) by exact H3. cbn [d_m d_e].
  change (Z.min 0 0) with 0. change (2 ^ (0 - 0)) with 1. rewrite !Z.mul_1_r.
  replace (nano - q * 1000000000) with r by lia. rewrite (rnd_small r) by exact H4.
  unfold int_of_dbl. cbn [d_m d_e]. change (2 ^ 0) with 1. by rewrite Z.mul_1_r.
Qed.

(** The time of a clock of the host, if both calls succeed. *)
Definition host_time (os : mach) (calendar : bool) : option timespec :=
  clk ← host_get_clock_service os calendar; clock_get_time os clk.

(** C36: The clocks of gettime.cc.  CLOCK_REALTIME gives the time of the host's calendar
    clock, CLOCK_MONOTONIC that of its system clock, and -1 with EINVAL and [*tp] as it
    was if the host fails; CLOCK_PROCESS_CPUTIME_ID and CLOCK_THREAD_CPUTIME_ID succeed,
    and if the ticks times the numerator of the time base are below 2^64 and make less
    than 2^23 seconds, [*tp] is exactly that time, the nanoseconds below one second,
    although the code computes it with doubles; any other clock gives -1 with EINVAL
    and leaves [*tp].  (A time base with denominator 0 divides by zero.) *)
Theorem clock_gettime_exact os clk_id tp inf ret einval tp' inf' :
  clock_gettime os clk_id tp inf = Ok (ret, einval, tp', inf') →
  (clk_id = CLOCK_REALTIME ∨ clk_id = CLOCK_MONOTONIC →
   (ret, einval, tp') = from_option (λ tm, (0, false, tm)) (-1, true, tp) (host_time os (bool_decide (clk_id = CLOCK_REALTIME)))) ∧
  (clk_id = CLOCK_PROCESS_CPUTIME_ID ∨ clk_id = CLOCK_THREAD_CPUTIME_ID →
   ret = 0 ∧ einval = false ∧
   (0 < denom inf' → 0 <= numer inf' →
    let ticks := u64 (absolute_end os - absolute_start os) in
    ticks * numer inf' < 2 ^ 64 → ticks * numer inf' / denom inf' < 2 ^ 23 * 1000000000 →
    nsecs tp' = ticks * numer inf' / denom inf' ∧ normal tp')) ∧
  (clk_id ∉ [CLOCK_REALTIME; CLOCK_MONOTONIC; CLOCK_PROCESS_CPUTIME_ID; CLOCK_THREAD_CPUTIME_ID] →
   ret = -1 ∧ einval = true ∧ tp' = tp).
Proof.
  unfold clock_gettime, host_time. intros E. split_and!.
  - intros Hc. assert (clk_id =? CLOCK_REALTIME = bool_decide (clk_id = CLOCK_REALTIME)) as Hb by (by destruct Hc as [-> | ->]).
    assert ((clk_id =? CLOCK_REALTIME) || (clk_id =? CLOCK_MONOTONIC) = true) as Ho by (by destruct Hc as [-> | ->]).
    rewrite Ho, Hb in E. destruct (host_get_clock_service os _) as [clk|]; simpl; [destruct (clock_get_time os clk)|]; by simplify_eq.
  - intros Hc. assert ((clk_id =? CLOCK_REALTIME) || (clk_id =? CLOCK_MONOTONIC) = false) as H1 by (by destruct Hc as [-> | ->]).
    assert ((clk_id =? CLOCK_PROCESS_CPUTIME_ID) || (clk_id =? CLOCK_THREAD_CPUTIME_ID) = true) as H2 by (by destruct Hc as [-> | ->]).
    rewrite H1, H2 in E.
    set (inf1 := if denom inf =? 0 then _ else _) in E. destruct (denom inf1 =? 0); [done|]. injection E as <- <- <- <-.
    split_and!; [done|done|]. intros Hd Hnum Hlt Hsm.
    set (ticks := u64 (absolute_end os - absolute_start os)) in *.
    pose proof (Z.mod_pos_bound (absolute_end os - absolute_start os) (2 ^ 64) ltac:(lia)) as Ht.
    change (0 <= ticks < 2 ^ 64) in Ht. assert (u64 (ticks * numer inf1) = ticks * numer inf1) as -> by (apply Z.mod_small; nia).
    set (nano := ticks * numer inf1 / denom inf1) in *. assert (0 <= nano) by (apply Z.div_pos; nia).
    rewrite split_nano_exact by lia. unfold nsecs, normal. cbn [tv_sec tv_nsec].
    pose proof (Z.div_mod nano 1000000000 ltac:(lia)). pose proof (Z.mod_pos_bound nano 1000000000 ltac:(lia)). lia.
  - intros Hc. rewrite !elem_of_cons in Hc. assert (clk_id ≠ CLOCK_REALTIME ∧ clk_id ≠ CLOCK_MONOTONIC ∧ clk_id ≠ CLOCK_PROCESS_CPUTIME_ID ∧ clk_id ≠ CLOCK_THREAD_CPUTIME_ID) as (H1 & H2 & H3 & H4) by tauto.
    destruct (Z.eqb_spec clk_id CLOCK_REALTIME), (Z.eqb_spec clk_id CLOCK_MONOTONIC),
      (Z.eqb_spec clk_id CLOCK_PROCESS_CPUTIME_ID), (Z.eqb_spec clk_id CLOCK_THREAD_CPUTIME_ID); try done. by simplify_eq/=.
Qed.

Definition ex_mach : mach := Mach (λ c, if c then Some 5 else None) (λ _, Some (Timespec 1400000000 7)) 10 3000000010 (Timebase 125 3).

Lemma clock_gettime_exact_witness :
  ∃ tp', clock_gettime ex_mach CLOCK_PROCESS_CPUTIME_ID (Timespec 0 0) (Timebase 0 0) = Ok (0, false, tp', Timebase 125 3) ∧
    nsecs tp' = 125000000000 ∧ normal tp'.
Proof.
  destruct (clock_gettime ex_mach CLOCK_PROCESS_CPUTIME_ID (Timespec 0 0) (Timebase 0 0)) as [[[[ret einval] tp'] inf']|] eqn:E.
  - destruct (clock_gettime_exact ex_mach CLOCK_PROCESS_CPUTIME_ID (Timespec 0 0) (Timebase 0 0) _ _ _ _ E) as (_ & H & _).
    destruct H as (-> & -> & H); [by left|]. assert (inf' = Timebase 125 3) as -> by (vm_compute in E; injection E; done).
    exists tp'. split; [reflexivity|]. apply H; vm_compute; done.
  - vm_compute in E. discriminate E.
Defined.

(** The bound is the best: one nanosecond before 2^23 + 1 seconds the product is rounded
    up, and the nanoseconds are negative. *)
Lemma split_nano_rounds_up : split_nano 8388608999999999 = Timespec 8388609 (-1).
Proof. vm_compute. reflexivity. Qed.

(** A time base with denominator 0 divides by zero. *)
Lemma clock_gettime_divides_by_zero os tp : denom (timebase_info os) = 0 →
  clock_gettime os CLOCK_THREAD_CPUTIME_ID tp (Timebase 0 0) = Fault DivideByZero.
Proof. intros Hd. unfold clock_gettime. simpl. by rewrite Hd. Qed.
