(* ===== verification/RpcClient.v ===== *)
(** * The RPC client endpoint (class rpcc of rpc/rpc.h, rpc/rpc.cc)

    Call numbering and acknowledgement window, the retransmission loop of
    [call1], the reply upcall, binding and cancelling.  [call1] is one thread of
    a process in which others run: what they do to the shared state while it
    waits is an argument of each round of its loop. *)

From stdpp Require Import base tactics numbers list gmap strings sorting.
From Stdlib Require Import ZArith Lia Ascii.
From S2P Require Import Prelude CxxString Marshall Connection RpcServer RpcTime.

(** struct caller: [xid] is its key in [calls_]; [intret] is only read when done. *)
Record caller := Caller { ca_un : unmarshall; ca_intret : Z; ca_done : bool }.

(** struct request *)
Record request := MkRequest { dup_buf : bytes; dup_xid : Z }.
Definition clear_request : request := MkRequest [] (-1).
Definition isvalid (r : request) : bool := negb (dup_xid r =? -1)%Z.

Record rpcc := Rpcc {
  clt_nonce : Z;
  srv_nonce : Z;
  bind_done : bool;
  next_xid : Z;                (* xid_ *)
  lossytest : Z;
  retrans : bool;
  reachable : bool;
  chan : option nat;
  destroy_wait : bool;
  calls : gmap Z caller;
  xid_rep_window : list Z;
  dup_req : request;
  xid_rep_done : Z }.

Definition to_max : Z := 120000.
Definition to_min : Z := 1000.

(** [rpcc::rpcc] *)
Definition new_rpcc (nonce lossy : Z) (retrans : bool) : rpcc :=
  Rpcc (if retrans then u32 nonce else 0%Z) 0 false 1 lossy retrans true None false ∅ [0%Z]
    clear_request (-1).

Definition set_bound (c : rpcc) (nonce : Z) : rpcc :=
  Rpcc (clt_nonce c) nonce true (next_xid c) (lossytest c) (retrans c) (reachable c) (chan c)
    (destroy_wait c) (calls c) (xid_rep_window c) (dup_req c) (xid_rep_done c).
Definition set_chan (c : rpcc) (ch : option nat) : rpcc :=
  Rpcc (clt_nonce c) (srv_nonce c) (bind_done c) (next_xid c) (lossytest c) (retrans c)
    (reachable c) ch (destroy_wait c) (calls c) (xid_rep_window c) (dup_req c) (xid_rep_done c).
Definition set_calls (c : rpcc) (m : gmap Z caller) : rpcc :=
  Rpcc (clt_nonce c) (srv_nonce c) (bind_done c) (next_xid c) (lossytest c) (retrans c)
    (reachable c) (chan c) (destroy_wait c) m (xid_rep_window c) (dup_req c) (xid_rep_done c).
Definition set_next_xid (c : rpcc) (x : Z) : rpcc :=
  Rpcc (clt_nonce c) (srv_nonce c) (bind_done c) x (lossytest c) (retrans c)
    (reachable c) (chan c) (destroy_wait c) (calls c) (xid_rep_window c) (dup_req c) (xid_rep_done c).
Definition set_window (c : rpcc) (l : list Z) : rpcc :=
  Rpcc (clt_nonce c) (srv_nonce c) (bind_done c) (next_xid c) (lossytest c) (retrans c)
    (reachable c) (chan c) (destroy_wait c) (calls c) l (dup_req c) (xid_rep_done c).
Definition set_destroy (c : rpcc) : rpcc :=
  Rpcc (clt_nonce c) (srv_nonce c) (bind_done c) (next_xid c) (lossytest c) (retrans c)
    (reachable c) (chan c) true (calls c) (xid_rep_window c) (dup_req c) (xid_rep_done c).
Definition set_dup (c : rpcc) (d : request) (done : Z) : rpcc :=
  Rpcc (clt_nonce c) (srv_nonce c) (bind_done c) (next_xid c) (lossytest c) (retrans c)
    (reachable c) (chan c) (destroy_wait c) (calls c) (xid_rep_window c) d done.

(** ** update_xid_rep *)

(** The insertion loop: before the first larger xid, else at the end. *)
Fixpoint insert_xid (xid : Z) (l : list Z) : list Z :=
  match l with
  | [] => [xid]
  | y :: l' => if (y >? xid)%Z then xid :: l else y :: insert_xid xid l'
  end.

(** The inner loop at the element [x], with [pre] the elements before it:
    [while (front() + 1 == *it) pop_front()]. *)
Fixpoint pop_while (x : Z) (pre : list Z) : list Z :=
  match pre with
  | [] => []
  | f :: pre' => if (u32 (f + 1) =? x)%Z then pop_while x pre' else pre
  end.

(** The outer loop: [pre] the elements before the iterator. *)
Fixpoint compress (pre rest : list Z) : list Z :=
  match rest with
  | [] => pre
  | x :: rest => compress (pop_while x pre ++ [x]) rest
  end.

(** [rpcc::update_xid_rep] *)
Definition update_xid_rep (xid : Z) (w : list Z) : outcome (list Z) :=
  match w with
  | [] => Fault EmptyFront
  | f :: _ =>
      if (xid <=? f)%Z then Ok w
      else match insert_xid xid w with
           | [] => Fault EmptyFront
           | f :: rest => Ok (compress [f] rest)
           end
  end.

Definition front (w : list Z) : outcome Z :=
  match w with [] => Fault EmptyFront | f :: _ => Ok f end.

(** ** The process around the endpoint: its connection objects and what was
    handed to [connection::send]. *)
Record cworld := CWorld {
  cw_clt : rpcc;
  cw_conns : conn_heap;
  cw_sent : list (nat * bytes) }.

Definition set_clt (w : cworld) (c : rpcc) : cworld := CWorld c (cw_conns w) (cw_sent w).
Definition set_cheap (w : cworld) (h : conn_heap) : cworld := CWorld (cw_clt w) h (cw_sent w).

(** [ch->send(b, sz)]; nothing is queued on a dead connection. *)
Definition ch_send (ch : nat) (b : option bytes) (sz : Z) (w : cworld) : outcome cworld :=
  x ← heap_at ch (cw_conns w);
  if isdead x then Ok w
  else
    b ← deref b;
    p ← load b 0 sz;
    Ok (CWorld (cw_clt w) (cw_conns w) (cw_sent w ++ [(ch, p)])).

(** [rpcc::get_refconn]; [fresh] is the answer of [connect_to_dst]. *)
Definition get_refconn (fresh : option (nat * connection)) (ch : option nat) (w : cworld) :
    outcome (option nat * cworld) :=
  reconnect ← match chan (cw_clt w) with
              | None => Ok true
              | Some p => x ← heap_at p (cw_conns w); Ok (isdead x)
              end;
  w ← (if (reconnect : bool) then
         h ← match chan (cw_clt w) with
             | Some p => heap_decref p (cw_conns w)
             | None => Ok (cw_conns w)
             end;
         Ok (match fresh with
             | Some (p, x) => CWorld (set_chan (cw_clt w) (Some p)) (<[p := x]> h) (cw_sent w)
             | None => CWorld (set_chan (cw_clt w) None) h (cw_sent w)
             end)
       else Ok w);
  match chan (cw_clt w) with
  | Some p =>
      h ← match ch with Some q => heap_decref q (cw_conns w) | None => Ok (cw_conns w) end;
      h ← heap_incref p h;
      Ok (Some p, set_cheap w h)
  | None => Ok (ch, w)
  end.

Section client.
Context (junk : nat → ascii).

(** [rpcc::call1], first critical section: the guards, the xid, the header.
    [inl r]: the call returns [r] at once. *)
Definition call1_begin (proc : Z) (req : marshall) (rep : unmarshall) (w : cworld) :
    outcome (Z + (Z * Z * marshall * cworld)) :=
  let c := cw_clt w in
  if (negb (proc =? rpc_bind)%Z && negb (bind_done c)) || ((proc =? rpc_bind)%Z && bind_done c)
  then Ok (inl bind_failure)
  else if destroy_wait c then Ok (inl cancel_failure)
  else
    let xid := next_xid c in
    f ← front (xid_rep_window c);
    req ← pack_req_header junk
            (ReqHeader (i32 xid) (i32 proc) (clt_nonce c) (srv_nonce c) (i32 f)) req;
    Ok (inr (xid, i32 f, req,
             set_clt w (set_calls (set_next_xid c (u32 (xid + 1)))
                          (<[i32 xid := Caller rep 0 false]> (calls c))))).

(** [rpcc::call1], sending on the connection found: first the remembered duplicate (loss
    test), then the request. *)
Definition call1_send (req : marshall) (p : nat) (w : cworld) : outcome cworld :=
  let c := cw_clt w in
  if reachable c then
    let old := isvalid (dup_req c) && (xid_rep_done c >? dup_xid (dup_req c))%Z in
    let forgot := if old then dup_req c else clear_request in
    let w := if old then set_clt w (set_dup c clear_request (xid_rep_done c)) else w in
    w ← (if isvalid forgot then ch_send p (Some (dup_buf forgot)) (size (dup_buf forgot)) w
         else Ok w);
    ch_send p (m_buf req) (m_ind req) w
  else Ok w.

(** [rpcc::call1], the transmission. *)
Definition call1_transmit (fresh : option (nat * connection)) (req : marshall)
    (ch : option nat) (w : cworld) : outcome (option nat * cworld) :=
  '(ch, w) ← get_refconn fresh ch w;
  match ch with
  | None => Ok (ch, w)
  | Some p => w ← call1_send req p w; Ok (ch, w)
  end.

(** A return of [pthread_cond_timedwait]: what other threads did to the process while it
    waited, and whether it returned ETIMEDOUT; else it was signalled, or woke up spuriously. *)
Record wakeup := Wakeup { wk_env : cworld → outcome cworld; wk_timeout : bool }.

(** One round of the loop: the answer of [connect_to_dst], the clock, what other threads do
    to the process until the thread has [ca.m], and the waits. *)
Record round := Round {
  rd_fresh : option (nat * connection);
  rd_now : timespec;
  rd_env : cworld → outcome cworld;
  rd_waits : list wakeup }.

(** [rpcc::call1], the loop [while (!ca.done)].  A deadline whose nanoseconds are out of range makes
    [pthread_cond_timedwait] return EINVAL at once, with the mutex held all the time. *)
Definition valid_deadline (t : timespec) : bool := ((0 <=? tv_nsec t) && (tv_nsec t <? 1000000000))%Z.
Fixpoint wait_reply (waits : list wakeup) (deadline : timespec) (xid : Z) (w : cworld) : outcome cworld :=
  ca ← deref (calls (cw_clt w) !! i32 xid);
  if ca_done ca then Ok w
  else
    match waits with
    | [] => Fault NoFuel
    | k :: waits =>
        if valid_deadline deadline then
          w ← wk_env k w;
          if wk_timeout k then Ok w else wait_reply waits deadline xid w
        else wait_reply waits deadline xid w
    end.

(** [rpcc::call1], the loop [while (1)]. *)
Fixpoint call1_loop (rounds : list round) (xid : Z) (req : marshall) (ch : option nat)
    (transmit : bool) (curr_to : Z) (final : timespec) (w : cworld) :
    outcome (option nat * cworld) :=
  match rounds with
  | [] => Fault NoFuel
  | r :: rounds =>
      '(ch, w) ← (if transmit then call1_transmit (rd_fresh r) req ch w else Ok (ch, w));
      if (tv_sec final =? 0)%Z then Ok (ch, w)
      else
        next ← add_timespec (rd_now r) curr_to;
        let last := (cmp_timespec next final >? 0)%Z in
        let deadline := if last then final else next in
        let final := if last then Timespec 0 (tv_nsec final) else final in
        w ← rd_env r w;
        w ← wait_reply (rd_waits r) deadline xid w;
        ca ← deref (calls (cw_clt w) !! i32 xid);
        if ca_done ca then Ok (ch, w)
        else
          dead ← match ch with
                 | None => Ok true
                 | Some p => x ← heap_at p (cw_conns w); Ok (isdead x)
                 end;
          curr_to ← int_result (Z.shiftl curr_to 1);
          call1_loop rounds xid req ch (retrans (cw_clt w) && dead) curr_to final w
  end.

(** [rpcc::call1], from the last critical section to the return. *)
Definition call1_end (xid xid_rep : Z) (req : marshall) (ch : option nat) (w : cworld) :
    outcome (Z * unmarshall * cworld) :=
  let c := cw_clt w in
  ca ← deref (calls c !! i32 xid);
  win ← update_xid_rep xid (xid_rep_window c);
  let c := set_window (set_calls c (delete (i32 xid) (calls c))) win in
  c ← (if ca_done ca && negb (lossytest c =? 0)%Z then
         d ← (if negb (isvalid (dup_req c)) then
                b ← deref (m_buf req);
                p ← load b 0 (m_ind req);
                Ok (MkRequest p (i32 xid))
              else Ok (dup_req c));
         Ok (set_dup c d (if (xid_rep >? xid_rep_done c)%Z then xid_rep else xid_rep_done c))
       else Ok c);
  h ← match ch with Some p => heap_decref p (cw_conns w) | None => Ok (cw_conns w) end;
  Ok (if ca_done ca then ca_intret ca else timeout_failure, ca_un ca,
      CWorld c h (cw_sent w)).

(** [rpcc::call1]; [now] is the clock before the loop. *)
Definition call1 (now : timespec) (rounds : list round) (proc : Z) (req : marshall)
    (rep : unmarshall) (to : Z) (w : cworld) : outcome (Z * unmarshall * cworld) :=
  r ← call1_begin proc req rep w;
  match r with
  | inl ret => Ok (ret, rep, w)
  | inr (xid, xid_rep, req, w) =>
      final ← add_timespec now to;
      '(ch, w) ← call1_loop rounds xid req None true to_min final w;
      call1_end xid xid_rep req ch w
  end.

(** Templates [rpcc::call_m] and [rpcc::call], with [ca] the codec of the
    argument tuple and [cr] that of the result. *)
Definition call_m {R} (cr : codec R) (now : timespec) (rounds : list round) (proc : Z)
    (req : marshall) (r : R) (to : Z) (w : cworld) : outcome (Z * R * cworld) :=
  '(intret, u, w) ← call1 now rounds proc req new_unmarshall to w;
  if (intret <? 0)%Z then Ok (intret, r, w)
  else
    '(r, u) ← get cr r u;
    VERIFY (okdone u);;
    Ok (intret, r, w).

Definition call {A R} (ca : codec A) (cr : codec R) (now : timespec) (rounds : list round)
    (proc : Z) (a : A) (r : R) (to : Z) (w : cworld) : outcome (Z * R * cworld) :=
  req ← put ca a (new_marshall junk);
  call_m cr now rounds proc req r to w.

(** [rpcc::bind] *)
Definition bind (now : timespec) (rounds : list round) (to : Z) (w : cworld) :
    outcome (Z * cworld) :=
  '(ret, r, w) ← call (int_codec junk) (int_codec junk) now rounds rpc_bind 0%Z 0%Z to w;
  if (ret =? 0)%Z then Ok (ret, set_clt w (set_bound (cw_clt w) (u32 r))) else Ok (ret, w).

End client.

(** [rpcc::cancel]: every pending caller fails; with callers pending the thread
    then waits for [calls_] to empty, with [destroy_wait_] set. *)
Definition cancel (c : rpcc) : rpcc :=
  let m := (λ ca, Caller (ca_un ca) cancel_failure true) <$> calls c in
  let c := set_calls c m in
  if decide (m = ∅) then c else set_destroy c.

(** [rpcc::got_pdu] *)
Definition client_got_pdu (b : bytes) (sz : Z) (c : rpcc) : outcome rpcc :=
  '(h, rep) ← unpack_reply_header (unmarshall_of b sz);
  if negb (u_ok rep) then Ok c
  else
    win ← update_xid_rep (u32 (rp_xid h)) (xid_rep_window c);
    let c := set_window c win in
    match calls c !! rp_xid h with
    | None => Ok c
    | Some ca =>
        if ca_done ca then Ok c
        else Ok (set_calls c (<[rp_xid h := Caller (take_in rep) (rp_ret h) true]> (calls c)))
    end.

(** ** The acknowledgement window *)

(** The xids a window stands for: everything up to the front, and the others in it. *)
Definition acked (w : list Z) (x : Z) : Prop :=
  match w with [] => False | f :: _ => (x <= f)%Z ∨ x ∈ w end.

(** Invariant: in order, the front as far advanced as it can be. *)
Definition window_inv (w : list Z) : Prop :=
  StronglySorted Z.le w ∧ Forall (λ x, is_u32 x) w ∧
  match w with [] => False | f :: _ => (f + 1)%Z ∉ w end.

Lemma insert_xid_perm xid l : insert_xid xid l ≡ₚ xid :: l.
Proof.
  induction l as [|y l IH]; simpl; [done|]. destruct (y >? xid)%Z; [done|].
  rewrite IH. apply Permutation_swap.
Qed.

Lemma insert_xid_sorted xid l : StronglySorted Z.le l → StronglySorted Z.le (insert_xid xid l).
Proof.
  induction 1 as [|y l Hl IH Hy]; simpl; [repeat constructor|].
  rewrite Z.gtb_ltb. destruct (Z.ltb_spec xid y).
  - constructor; [by constructor|]. constructor; [lia|]. eapply Forall_impl; [done|]. simpl. lia.
  - constructor; [done|]. rewrite insert_xid_perm. by constructor.
Qed.

Lemma insert_xid_front xid f l : (f < xid)%Z → insert_xid xid (f :: l) = f :: insert_xid xid l.
Proof. intros. simpl. rewrite Z.gtb_ltb. destruct (Z.ltb_spec xid f); [lia|done]. Qed.

Lemma pop_while_all x l : Forall (λ y, u32 (y + 1) = x) l → pop_while x l = [].
Proof. induction 1 as [|y l Hy Hl IH]; simpl; [done|]. by rewrite Hy, Z.eqb_refl. Qed.

Lemma StronglySorted_snoc {A} (R : A → A → Prop) l x rest :
  StronglySorted R (l ++ x :: rest) → StronglySorted R (l ++ [x]) ∧ Forall (λ y, R y x) l.
Proof.
  induction l as [|y l IH]; simpl; intros H; inversion H as [|? ? Hl Hy]; subst.
  - split; [repeat constructor|done].
  - destruct (IH Hl) as [H1 H2]. apply Forall_app in Hy as [Hy Hx].
    inversion Hx; subst. split; [|by constructor].
    constructor; [done|]. apply Forall_app. split; [done|by constructor].
Qed.

Lemma compress_inv rest pre :
  StronglySorted Z.le (pre ++ rest) → window_inv pre → Forall (λ x, is_u32 x) rest →
  window_inv (compress pre rest) ∧ ∀ x, acked (compress pre rest) x ↔ acked (pre ++ rest) x.
Proof.
  revert pre. induction rest as [|x rest IH]; intros pre Hs Hinv Hrest; cbn [compress].
  { by rewrite app_nil_r. }
  destruct pre as [|f pre]; [by destruct Hinv as (_ & _ & [])|].
  destruct Hinv as (Hsp & Hup & Hf). apply Forall_cons in Hrest as [Hx Hrest].
  destruct (StronglySorted_snoc _ _ _ _ Hs) as [Hsx Hle]. pose proof Hup as Hup'.
  apply Forall_cons in Hup' as [Hfu _]. pose proof Hle as [Hfx _]%Forall_cons.
  inversion Hsp as [|? ? _ Hfpre]; subst.
  destruct (decide (x = f + 1)%Z) as [->|Hne].
  - (* everything before [x] is the front itself *)
    assert (Forall (λ y, y = f) (f :: pre)) as Hall.
    { rewrite Forall_forall in Hle |- *. rewrite Forall_forall in Hfpre. intros y Hy.
      specialize (Hle y Hy). assert (y ≠ f + 1)%Z by (intros ->; done).
      apply elem_of_cons in Hy as [->|Hy]; [done|]. specialize (Hfpre y Hy). lia. }
    rewrite pop_while_all by (eapply Forall_impl; [exact Hall|]; intros ? ->; apply u32_small; lia).
    simpl. destruct (IH [f + 1]%Z) as [H1 H2]; [| |done|].
    + clear -Hs. induction (f :: pre) as [|y l IHl]; [done|]. apply IHl. by inversion Hs.
    + split_and!; [repeat constructor|by constructor|]. rewrite list_elem_of_singleton. lia.
    + split; [done|]. intros y. rewrite H2. simpl.
      rewrite !elem_of_cons, elem_of_app, elem_of_cons.
      assert (y ∈ pre → y = f) by (rewrite Forall_forall in Hall; intros; apply Hall; by right).
      destruct (decide (y <= f)%Z); destruct (decide (y = f + 1)%Z); split; intuition lia.
  - assert (pop_while x (f :: pre) = f :: pre) as ->.
    { simpl. destruct (Z.eqb_spec (u32 (f + 1)) x) as [E|]; [|done]. exfalso.
      destruct (decide (f + 1 = 2 ^ 32)%Z) as [E'|].
      - rewrite E' in E. compute in E. lia.
      - rewrite u32_small in E; lia. }
    destruct (IH ((f :: pre) ++ [x])) as [H1 H2].
    + by rewrite <- app_assoc.
    + split_and!; [done|apply Forall_app; split; [done|by constructor]|].
      change ((f + 1)%Z ∉ (f :: pre) ++ [x]).
      rewrite elem_of_app, list_elem_of_singleton. intros [?|?]; [done|lia].
    + done.
    + split; [done|]. intros y. by rewrite H2, <- app_assoc.
Qed.

Lemma update_xid_rep_inv xid w :
  window_inv w → is_u32 xid →
  ∃ w', update_xid_rep xid w = Ok w' ∧ window_inv w' ∧
        ∀ x, acked w' x ↔ acked w x ∨ x = xid.
Proof.
  intros Hinv Hx. destruct w as [|f w]; [by destruct Hinv as (_ & _ & [])|].
  unfold update_xid_rep. destruct (Z.leb_spec xid f) as [Hle|Hlt].
  { eexists. split_and!; [done..|]. intros x. split; [by left|]. intros [? | ->]; [done|by left]. }
  rewrite insert_xid_front by done. eexists. split; [done|].
  destruct Hinv as (Hs & Hu & Hf). inversion Hs as [|? ? Hs' Hfw]; subst.
  pose proof Hu as [Hfu Hu']%Forall_cons.
  destruct (compress_inv (insert_xid xid w) [f]) as [H1 H2].
  - simpl. rewrite <- insert_xid_front by done. by apply insert_xid_sorted.
  - split_and!; [repeat constructor|by constructor|]. rewrite list_elem_of_singleton. lia.
  - rewrite insert_xid_perm. by constructor.
  - split; [done|]. intros x. rewrite H2. simpl. rewrite !elem_of_cons, insert_xid_perm, elem_of_cons.
    naive_solver.
Qed.

(** ** The retransmission loop ends *)

Lemma bind_nofuel {A B} (m : outcome A) (k : A → outcome B) :
  m ≠ Fault NoFuel → (∀ a, m = Ok a → k a ≠ Fault NoFuel) → (m ≫= k) ≠ Fault NoFuel.
Proof. destruct m as [a|f]; simpl; naive_solver. Qed.

Ltac nofuel := repeat first [solve [auto 2] | apply bind_nofuel | progress intros | case_goal | discriminate].

Lemma VERIFY_nofuel b : VERIFY b ≠ Fault NoFuel.
Proof. by destruct b. Qed.
Lemma heap_at_nofuel c h : heap_at c h ≠ Fault NoFuel.
Proof. unfold heap_at. nofuel. Qed.
Lemma heap_decref_nofuel c h : heap_decref c h ≠ Fault NoFuel.
Proof. unfold heap_decref, decref, destroy, VERIFY. nofuel. apply heap_at_nofuel. Qed.
Lemma heap_incref_nofuel c h : heap_incref c h ≠ Fault NoFuel.
Proof. unfold heap_incref. nofuel. apply heap_at_nofuel. Qed.
Lemma ch_send_nofuel ch b sz w : ch_send ch b sz w ≠ Fault NoFuel.
Proof. unfold ch_send, deref, load. nofuel. apply heap_at_nofuel. Qed.
#[local] Hint Resolve VERIFY_nofuel heap_at_nofuel heap_decref_nofuel heap_incref_nofuel ch_send_nofuel : core.

Lemma get_refconn_nofuel fresh ch w : get_refconn fresh ch w ≠ Fault NoFuel.
Proof. unfold get_refconn. nofuel; auto. Qed.
#[local] Hint Resolve get_refconn_nofuel : core.

Lemma call1_transmit_nofuel fresh req ch w : call1_transmit fresh req ch w ≠ Fault NoFuel.
Proof. unfold call1_transmit, call1_send. nofuel; auto. Qed.

(** The state of the deadline: the last round is running, or [to] milliseconds
    after [start] are still ahead and [curr_to], doubled [j] times, exceeds them. *)
Definition deadline_in (start : timespec) (to curr_to : Z) (final : timespec) (j : nat) : Prop :=
  (0 < curr_to ∧ curr_to mod 1000 = 0 ∧ normal final ∧ nsecs final = nsecs start + to * 1000000 ∧
   to < curr_to * 2 ^ Z.of_nat j)%Z.

(** The clock does not run back behind the start of the call, the other threads' work
    ends, and so do the waits, at their deadline if not before. *)
Definition round_ok (start : timespec) (r : round) : Prop :=
  normal (rd_now r) ∧ (nsecs start <= nsecs (rd_now r))%Z ∧ (∀ w, rd_env r w ≠ Fault NoFuel) ∧
  Forall (λ k, ∀ w, wk_env k w ≠ Fault NoFuel) (rd_waits r) ∧ Exists (λ k, wk_timeout k = true) (rd_waits r).

Lemma normal_valid t : normal t → valid_deadline t = true.
Proof. unfold normal, valid_deadline. lia. Qed.

Lemma wait_reply_nofuel waits deadline xid w :
  normal deadline → Forall (λ k, ∀ w, wk_env k w ≠ Fault NoFuel) waits → Exists (λ k, wk_timeout k = true) waits →
  wait_reply waits deadline xid w ≠ Fault NoFuel.
Proof.
  intros Hd Henv Hex. revert w. induction Henv as [|k waits Hk Henv IH]; intros w; [by inv Hex|]. cbn [wait_reply].
  apply bind_nofuel; [unfold deref; nofuel|]. intros ca _. destruct (ca_done ca); [done|]. rewrite normal_valid by done.
  apply bind_nofuel; [done|]. intros w' _. destruct (wk_timeout k) eqn:Ek; [done|]. apply IH. inv Hex; [congruence|done].
Qed.

(** With an invalid deadline the loop never ends, nor does another thread get in to answer
    the call. *)
Lemma wait_reply_spins waits deadline xid w ca :
  valid_deadline deadline = false → calls (cw_clt w) !! i32 xid = Some ca → ca_done ca = false →
  wait_reply waits deadline xid w = Fault NoFuel.
Proof.
  intros Hd Hca Hn. induction waits as [|k waits IH]; cbn [wait_reply]; rewrite Hca; cbn [deref]; run; rewrite Hn; [done|].
  by rewrite Hd.
Qed.

Lemma normal_nearly t : normal t → nearly_normal t.
Proof. unfold normal, nearly_normal. lia. Qed.

Lemma call1_loop_nofuel start to rounds xid req ch transmit curr_to final w :
  Forall (round_ok start) rounds →
  (tv_sec final = 0%Z ∧ rounds ≠ [] ∨
   ∃ j, deadline_in start to curr_to final j ∧ j + 2 ≤ length rounds) →
  call1_loop rounds xid req ch transmit curr_to final w ≠ Fault NoFuel.
Proof.
  intros Hok. revert ch transmit curr_to final w.
  induction Hok as [|r rounds (Hnow & Hclock & Henv & Hwenv & Htimes) Hok IH]; intros ch transmit curr_to final w Hd.
  { exfalso. destruct Hd as [[_ ?]|(j & _ & ?)]; [done|simpl in *; lia]. }
  cbn [call1_loop]. apply bind_nofuel.
  { destruct transmit; [apply call1_transmit_nofuel|done]. }
  intros [ch' w'] _. destruct (Z.eqb_spec (tv_sec final) 0) as [|Hsec]; [done|].
  destruct Hd as [[? _]|(j & (Hpos & Hmod & Hnn & Hfin & Hto) & Hlen)]; [done|].
  destruct (add_timespec_seconds (rd_now r) curr_to Hnow ltac:(lia) Hmod) as (next & -> & Hnext & Hnnext).
  run. apply bind_nofuel; [done|]. intros w'' _. apply bind_nofuel.
  { apply wait_reply_nofuel; [by destruct (_ >? _)%Z|done..]. }
  intros w3 _. apply bind_nofuel; [unfold deref; nofuel|]. intros ca _.
  destruct (ca_done ca); [done|].
  apply bind_nofuel; [nofuel; auto|]. intros dead _.
  apply bind_nofuel; [unfold int_result; nofuel|]. intros curr_to' Hc.
  unfold int_result in Hc. case_match; [|done]. injection Hc as <-.
  apply IH. rewrite Z.gtb_ltb, Z.shiftl_mul_pow2 by lia. destruct j as [|j].
  - left. split; [|by destruct rounds; simpl in *; [lia|]].
    rewrite (cmp_timespec_later next final); [done|by apply normal_nearly..|]. simpl in Hto. lia.
  - simpl in Hlen. destruct (0 <? cmp_timespec next final)%Z.
    + left. split; [done|]. by destruct rounds; simpl in *; [lia|].
    + right. exists j. split; [|lia]. split; [lia|]. split; [|split; [exact Hnn|split; [done|]]].
      * change (2 ^ 1)%Z with 2%Z. rewrite Z.mul_mod, Hmod by lia. done.
      * replace (curr_to * 2 ^ 1 * 2 ^ Z.of_nat j)%Z with (curr_to * 2 ^ Z.of_nat (S j))%Z; [done|].
        rewrite Nat2Z.inj_succ, Z.pow_succ_r by lia. lia.
Qed.

(** ** Properties *)

Lemma window_front w : window_inv w →
  ∃ f, front w = Ok f ∧ (∀ x, (x <= f)%Z → acked w x) ∧ ¬ acked w (f + 1).
Proof.
  destruct w as [|f w]; intros (Hs & Hu & Hf); [done|]. exists f. split_and!; [done|by left|].
  intros [?|?]; [lia|done].
Qed.

(** C22: The acknowledgement window implements the set of xids whose reply has come:
    adding an xid adds exactly that one, whatever the order of arrival and however
    often, and the front, which is sent to the server as [xid_rep], is the largest
    xid up to which every reply has been received. *)
Theorem update_xid_rep_refines xid w :
  window_inv w → is_u32 xid →
  ∃ w' f, update_xid_rep xid w = Ok w' ∧ window_inv w' ∧
    (∀ x, acked w' x ↔ acked w x ∨ x = xid) ∧
    front w' = Ok f ∧ (∀ x, (x <= f)%Z → acked w x ∨ x = xid) ∧
    ¬ (acked w (f + 1) ∨ f + 1 = xid)%Z.
Proof.
  intros Hinv Hx. destruct (update_xid_rep_inv xid w Hinv Hx) as (w' & E & Hinv' & Hack).
  destruct (window_front w' Hinv') as (f & Ef & Hle & Hn).
  exists w', f. split_and!; [done..| |].
  - intros x Hxf. apply Hack. by apply Hle.
  - by rewrite <- Hack.
Qed.

Lemma update_xid_rep_refines_witness :
  window_inv [2; 4; 5; 5; 9]%Z ∧ update_xid_rep 3 [2; 4; 5; 5; 9]%Z = Ok [5; 5; 9]%Z.
Proof.
  assert (window_inv [2; 4; 5; 5; 9]%Z) as Hinv.
  { split_and!; [repeat constructor; discriminate| |].
    - repeat constructor; discriminate.
    - rewrite !elem_of_cons, elem_of_nil. lia. }
  split; [done|].
  destruct (update_xid_rep_refines 3 [2; 4; 5; 5; 9]%Z Hinv ltac:(lia)) as (w' & f & E & _).
  rewrite E. vm_compute in E. by rewrite E.
Defined.

(** The retransmission loop ends: with a timeout of [to] milliseconds, whose deadline is
    not exactly the [10^9] nanoseconds that [add_timespec] may leave, and a clock that does
    not run back behind the start, after at most [k + 2] rounds for any [k] with
    [to < 1000 * 2^k], whatever the other threads and the network do; with the default [to_max]
    that is 9 rounds. *)
Theorem call1_loop_ends start to k final rounds xid req ch w :
  normal start → (0 <= to < 1000 * 2 ^ Z.of_nat k)%Z → add_timespec start to = Ok final → normal final →
  Forall (round_ok start) rounds → k + 2 ≤ length rounds →
  call1_loop rounds xid req ch true to_min final w ≠ Fault NoFuel.
Proof.
  intros Hs Hto Hf Hnf Hok Hlen. apply (call1_loop_nofuel start to); [done|].
  destruct (add_timespec_spec start to) as (t & E & Hn & Hnn & _); [apply Hs|lia|].
  rewrite Hf in E. injection E as <-. right. exists k. split; [|done].
  unfold to_min. split; [lia|]. split; [done|]. split; [exact Hnf|]. split; [done|lia].
Qed.

Definition times_out : list wakeup := [Wakeup Ok true].
Definition quiet_round (n : nat) : round :=
  Round None (Timespec (1000 + Z.of_nat n) 0) Ok times_out.

Lemma call1_loop_ends_witness :
  call1_loop (quiet_round <$> seq 0 9) 1 (Marshall None 0 0) None true to_min
    (Timespec 1120 0)
    (CWorld (set_calls (new_rpcc 7 0 true) {[1 := Caller new_unmarshall 0 false]}) ∅ [])%Z
  ≠ Fault NoFuel.
Proof.
  apply (call1_loop_ends (Timespec 1000 0) to_max 7).
  - done.
  - by vm_compute.
  - reflexivity.
  - done.
  - apply Forall_forall. intros r (n & -> & Hn)%list_elem_of_fmap.
    split; [done|]. split; [unfold nsecs; simpl; lia|]. split; [discriminate|]. split; [by repeat constructor|by left].
  - done.
Defined.

(** A call whose deadline falls on the [10^9] nanoseconds that [add_timespec] leaves, for
    instance one of 1600 ms that begins at 0.4 s, never returns once its last wait has
    begun: [pthread_cond_timedwait] refuses the deadline and the loop calls it again. *)
Theorem call1_spins start to final next r rounds xid req ch curr_to w ca :
  add_timespec start to = Ok final → tv_nsec final = 1000000000%Z → tv_sec final ≠ 0%Z →
  add_timespec (rd_now r) curr_to = Ok next → (cmp_timespec next final > 0)%Z →
  rd_env r w = Ok w → calls (cw_clt w) !! i32 xid = Some ca → ca_done ca = false →
  call1_loop (r :: rounds) xid req ch false curr_to final w = Fault NoFuel.
Proof.
  intros _ H9 Hs En Hc Ee Hca Hn. cbn [call1_loop]. run. destruct (Z.eqb_spec (tv_sec final) 0); [done|].
  rewrite En. run. rewrite Ee. run. rewrite Z.gtb_ltb. destruct (Z.ltb_spec 0 (cmp_timespec next final)); [|lia].
  rewrite (wait_reply_spins _ _ _ _ ca); [done| |done|done]. unfold valid_deadline. by rewrite H9.
Qed.

Lemma call1_spins_witness :
  call1_loop [Round None (Timespec 6 0) Ok times_out] 1 (Marshall None 0 0) None false to_min (Timespec 6 1000000000)
    (CWorld (set_calls (new_rpcc 7 0 true) {[1 := Caller new_unmarshall 0 false]}) ∅ [])%Z = Fault NoFuel.
Proof.
  apply (call1_spins (Timespec 5 400000000) 1600 _ (Timespec 7 0) _ _ _ _ _ _ _ (Caller new_unmarshall 0 false)).
  1-8: by vm_compute.
Defined.
