(* ===== verification/RpcCancel.v ===== *)
(** * Cancelling the calls of an RPC client (rpc.cc [rpcc::cancel], [rpcc::call1])

    The threads in [call1] of one client and a thread in [cancel], as a step relation
    over the client of RpcClient.v: a call begins, connects, sends, waits, is answered or
    times out or begins again, and removes itself; it may get stuck where it connects or
    sends.  [cancel] fails the pending calls and waits until they are gone. *)

From stdpp Require Import base tactics numbers list gmap strings relations.
From Stdlib Require Import ZArith Lia Ascii.
From S2P Require Import Prelude CxxString Marshall Connection ConnRefs RpcServer RpcTime RpcClient.

(** Where the thread of a pending call is: in [get_refconn], in [connection::send], stuck for
    good in the first (where it then has [chan_m_]) or the second, in the loop that waits for
    its reply, or on the way to its last critical section. *)
Inductive place := Connects | Sends | Blocked (connecting : bool) | Waits | Leaves.
(** The thread that cancels; in its wait it sleeps until a signal. *)
Inductive canceller := NotYet | Asleep | Awake | Over.
#[global] Instance place_eq_dec : EqDecision place.
Proof. solve_decision. Defined.

Record cancelling := Cancelling {
  x_clt : rpcc;
  x_place : gmap Z place;     (* by the key in calls_ *)
  x_cancel : canceller;
  x_results : gmap Z Z }.     (* what the calls that have returned returned *)

(** The status of a call at its end. *)
Definition result_of (ca : caller) : Z := if ca_done ca then ca_intret ca else timeout_failure.

(** The moves of the thread of a call [ca], with [pl] the places of all: nobody connects
    while another is stuck at that; after a retransmission in the last round the loop is left
    at once; a call that is not answered may time out or, its connection dead, begin again. *)
Inductive moves (pl : gmap Z place) (ca : caller) : place → place → Prop :=
  | m_connected : (∀ y, pl !! y ≠ Some (Blocked true)) → moves pl ca Connects Sends
  | m_connecting : (∀ y, pl !! y ≠ Some (Blocked true)) → moves pl ca Connects (Blocked true)
  | m_sent : moves pl ca Sends Waits
  | m_over : moves pl ca Sends Leaves
  | m_sending : moves pl ca Sends (Blocked false)
  | m_answered : ca_done ca = true → moves pl ca Waits Leaves
  | m_timeout : ca_done ca = false → moves pl ca Waits Leaves
  | m_again : ca_done ca = false → moves pl ca Waits Connects.

(** A call begins when it is [bind] on a client that is not bound, or another procedure
    on one that is.  The wait of [cancel] ends by a signal. *)
Inductive xstep : cancelling → cancelling → Prop :=
  | x_begin rep c pl k res :
      destroy_wait c = false → calls c !! i32 (next_xid c) = None →
      xstep (Cancelling c pl k res)
        (Cancelling (set_calls (set_next_xid c (u32 (next_xid c + 1)))
                       (<[i32 (next_xid c) := Caller rep 0 false]> (calls c)))
           (<[i32 (next_xid c) := Connects]> pl) k res)
  | x_reply b sz c c' pl k res :
      client_got_pdu b sz c = Ok c' → calls c' ≠ calls c →
      xstep (Cancelling c pl k res) (Cancelling c' pl k res)
  | x_move xid p p' ca c pl k res :
      pl !! xid = Some p → calls c !! xid = Some ca → moves pl ca p p' →
      xstep (Cancelling c pl k res) (Cancelling c (<[xid := p']> pl) k res)
  | x_end xid ca win c pl k res :
      pl !! xid = Some Leaves → calls c !! xid = Some ca →
      update_xid_rep (u32 xid) (xid_rep_window c) = Ok win →
      xstep (Cancelling c pl k res)
        (Cancelling (set_window (set_calls c (delete xid (calls c))) win) (delete xid pl)
           (if destroy_wait c then match k with Asleep => Awake | k => k end else k)
           (<[xid := result_of ca]> res))
  | x_cancels c pl res :
      xstep (Cancelling c pl NotYet res)
        (Cancelling (cancel c) pl (if decide (calls c = ∅) then Over else Asleep) res)
  | x_check c pl res :
      xstep (Cancelling c pl Awake res)
        (Cancelling c pl (if decide (calls c = ∅) then Over else Asleep) res).

(** A client without pending calls. *)
Definition xstart (c : rpcc) : cancelling := Cancelling c ∅ NotYet ∅.

(** ** The invariant *)
Record xinv (σ : cancelling) : Prop := Xinv {
  xi_place xid : is_Some (x_place σ !! xid) ↔ is_Some (calls (x_clt σ) !! xid);
  xi_window : window_inv (xid_rep_window (x_clt σ));
  xi_failed xid ca : destroy_wait (x_clt σ) = true → calls (x_clt σ) !! xid = Some ca →
    ca_done ca = true ∧ ca_intret ca = cancel_failure;
  xi_asleep : x_cancel σ = Asleep → destroy_wait (x_clt σ) = true ∧ calls (x_clt σ) ≠ ∅;
  xi_awake : x_cancel σ = Awake → destroy_wait (x_clt σ) = true;
  xi_notyet : destroy_wait (x_clt σ) = true → x_cancel σ ≠ NotYet }.

Lemma got_pdu_effect b sz c c' :
  client_got_pdu b sz c = Ok c' → window_inv (xid_rep_window c) →
  window_inv (xid_rep_window c') ∧ destroy_wait c' = destroy_wait c ∧
  (calls c' = calls c ∨
   ∃ xid ca ca', calls c !! xid = Some ca ∧ ca_done ca = false ∧ calls c' = <[xid := ca']> (calls c)).
Proof.
  intros Hg Hw. unfold client_got_pdu in Hg. apply bind_Ok in Hg as ([h rep] & _ & Hg).
  destruct (negb (u_ok rep)); [injection Hg as <-; auto|].
  destruct (update_xid_rep_inv (u32 (rp_xid h)) _ Hw (u32_range _)) as (w' & E & Hw' & _). rewrite E in Hg.
  cbn [mbind outcome_bind calls set_window] in Hg.
  destruct (calls c !! rp_xid h) as [ca|] eqn:Eca; [|injection Hg as <-; auto].
  destruct (ca_done ca) eqn:Ed; injection Hg as <-; [by auto|]. split_and!; [done|done|]. right. eauto 10.
Qed.

Lemma xinv_step σ σ' : xstep σ σ' → xinv σ → xinv σ'.
Proof.
  intros Hs [H1 H2 H3 H4 H5 H6].
  destruct Hs as [rep c pl k res Hd Hn|b sz c c' pl k res Hg Hne|xid p p' ca c pl k res Hp Hc Hm
    |xid ca win c pl k res Hp Hc Hu|c pl res|c pl res]; cbn [x_clt x_place x_cancel] in *.
  - split; cbn [x_clt x_place x_cancel calls set_calls set_next_xid destroy_wait xid_rep_window]; rewrite ?Hd; try done.
    + intros xid. rewrite !lookup_insert_is_Some. by rewrite H1.
    + intros Hk. destruct (H4 Hk). congruence.
    + intros Hk. rewrite (H5 Hk) in Hd. done.
  - destruct (got_pdu_effect _ _ _ _ Hg H2) as (Hw & Hd & [?|(xid & ca & ca' & Hc & Hn & E)]); [done|].
    assert (destroy_wait c = true → False) as Hnd by (intros Hdw; destruct (H3 xid ca Hdw Hc); congruence).
    split; cbn [x_clt x_place x_cancel]; rewrite ?Hd; try done.
    + intros y. rewrite H1, E, lookup_insert_is_Some. destruct (decide (xid = y)) as [<-|]; naive_solver.
    + intros Hk. destruct (H4 Hk) as [Hdw _]. by destruct Hnd.
  - split; cbn [x_clt x_place x_cancel]; try done. intros y. rewrite <- H1, lookup_insert_is_Some.
    destruct (decide (xid = y)) as [<-|]; [rewrite Hp|]; naive_solver.
  - destruct (update_xid_rep_inv (u32 xid) _ H2 (u32_range _)) as (w' & E & Hw' & _). rewrite E in Hu.
    injection Hu as <-.
    split; cbn [x_clt x_place x_cancel calls set_calls set_window destroy_wait xid_rep_window]; try done.
    + intros y. rewrite !lookup_delete_is_Some. by rewrite H1.
    + intros y cy Hdw. rewrite lookup_delete_Some. intros [_ Hy]. by apply (H3 y).
    + destruct (destroy_wait c) eqn:Ed; [by destruct k|]. intros Hk. by destruct (H4 Hk).
    + by destruct (destroy_wait c).
    + intros Hdw. rewrite Hdw. specialize (H6 Hdw). by destruct k.
  - unfold cancel. destruct (decide (calls c = ∅)) as [E|E].
    + rewrite decide_True by (by rewrite E, fmap_empty). rewrite E, fmap_empty in *.
      split; cbn [x_clt x_place x_cancel calls set_calls destroy_wait]; done.
    + rewrite decide_False by (by rewrite fmap_empty_iff).
      split; cbn [x_clt x_place x_cancel calls set_calls set_destroy destroy_wait]; try done.
      * intros y. rewrite H1. by rewrite lookup_fmap, fmap_is_Some.
      * intros y cy _. rewrite lookup_fmap, fmap_Some. intros (z & _ & ->). done.
      * intros _. split; [done|]. by rewrite fmap_empty_iff.
  - specialize (H5 eq_refl). split; cbn [x_clt x_place x_cancel]; try done; by case_decide.
Qed.

Lemma xinv_start c :
  window_inv (xid_rep_window c) → destroy_wait c = false → calls c = ∅ → xinv (xstart c).
Proof.
  intros Hw Hd Hc. split; cbn; rewrite ?Hc, ?Hd; try done. intros xid. by rewrite !lookup_empty.
Qed.

Lemma xinv_reachable c σ :
  window_inv (xid_rep_window c) → destroy_wait c = false → calls c = ∅ → rtc xstep (xstart c) σ → xinv σ.
Proof.
  intros Hw Hd Hc Hr. pose proof (xinv_start c Hw Hd Hc) as Hi. revert Hi. generalize (xstart c) Hr. clear.
  intros σ0 Hr. induction Hr as [|x y z Hxy _ IH]; [done|]. intros Hx. by eapply IH, xinv_step.
Qed.

(** ** Work left once the pending calls are failed *)
Definition to_go (p : place) : nat :=
  match p with Connects => 6 | Sends => 5 | Blocked _ => 4 | Waits => 3 | Leaves => 2 end.
Definition calls_left (σ : cancelling) : nat :=
  sum_list_with to_go (vals (x_place σ)) + match x_cancel σ with Awake => 1 | _ => 0 end.

Lemma moves_on pl ca p p' : moves pl ca p p' → ca_done ca = true → to_go p' < to_go p.
Proof. destruct 1; simpl; intros; try lia; congruence. Qed.

Lemma calls_left_decreases σ σ' :
  xinv σ → xstep σ σ' → destroy_wait (x_clt σ) = true →
  calls_left σ' < calls_left σ ∧ destroy_wait (x_clt σ') = true.
Proof.
  intros Hi Hs Hd. pose proof Hi as [H1 H2 H3 H4 H5 H6]. unfold calls_left.
  destruct Hs as [rep c pl k res Hd' _|b sz c c' pl k res Hg Hne|xid p p' ca c pl k res Hp Hc Hm
    |xid ca win c pl k res Hp Hc Hu|c pl res|c pl res]; cbn [x_clt x_place x_cancel] in *; try congruence.
  - destruct (got_pdu_effect _ _ _ _ Hg H2) as (_ & _ & [?|(xid & ca & ca' & Hc & Hn & E)]); [done|].
    destruct (H3 xid ca Hd Hc). congruence.
  - split; [|done]. rewrite vals_insert_delete, (vals_delete _ _ _ Hp). simpl.
    pose proof (moves_on _ _ _ _ Hm (proj1 (H3 xid ca Hd Hc))). lia.
  - split; [|done]. rewrite (vals_delete _ _ _ Hp), Hd. simpl. destruct k; lia.
  - by destruct H6.
  - split; [|done]. case_decide; lia.
Qed.

Lemma cancel_terminates σ : xinv σ → destroy_wait (x_clt σ) = true → sn xstep σ.
Proof.
  remember (calls_left σ) as n eqn:En. revert σ En. induction (lt_wf n) as [n _ IH]. intros σ -> Hi Hd.
  constructor. intros σ' Hs. destruct (calls_left_decreases _ _ Hi Hs Hd) as [Hlt Hd'].
  eapply IH; [done|done|by eapply xinv_step|done].
Qed.

(** What has no step left: [cancel] has returned, or some call is stuck, and every other one
    that is pending is before the connection that the first holds up. *)
Definition held_up (pl : gmap Z place) : Prop :=
  (∃ y b, pl !! y = Some (Blocked b)) ∧ ∀ y p, pl !! y = Some p → p = Connects ∨ ∃ b, p = Blocked b.

Lemma cancel_progress σ :
  xinv σ → destroy_wait (x_clt σ) = true →
  (x_cancel σ = Over ∧ calls (x_clt σ) = ∅) ∨ held_up (x_place σ) ∨ red xstep σ.
Proof.
  intros [H1 H2 H3 H4 H5 H6] Hd. destruct σ as [c pl k res]. cbn [x_clt x_place x_cancel] in *.
  destruct (decide (calls c = ∅)) as [E|E].
  { destruct k; [by destruct H6|by destruct (H4 eq_refl)| |by left]. right. right. eexists. apply x_check. }
  assert (∀ y p p', pl !! y = Some p → (∀ ca, ca_done ca = true → moves pl ca p p') →
    red xstep (Cancelling c pl k res)) as Hmove.
  { intros y p p' Hy Hm. destruct (proj1 (H1 y)) as [ca Hca]; [eauto|]. eexists. eapply x_move; [done..|].
    apply Hm. by apply (H3 y). }
  assert (∀ y, pl !! y = Some Leaves → red xstep (Cancelling c pl k res)) as Hleave.
  { intros y Hy. destruct (proj1 (H1 y)) as [ca Hca]; [eauto|].
    destruct (update_xid_rep_inv (u32 y) _ H2 (u32_range _)) as (w' & E' & _). eexists. by eapply x_end. }
  destruct (decide (map_Forall (λ _ p, p = Connects ∨ p = Blocked true ∨ p = Blocked false) pl)) as [Hall|Hsome].
  - destruct (decide (map_Forall (λ _ p, p ≠ Blocked true) pl)) as [Hfree|Hheld].
    + assert (∀ y, pl !! y ≠ Some (Blocked true)) as Hfree' by (intros y Hy; by apply (Hfree y _ Hy)).
      destruct (decide (map_Forall (λ _ p, p = Blocked false) pl)) as [Hb|(y & p & Hy & Hp)%map_not_Forall]; [| |apply _].
      * right. left. apply map_choose in E as (y & ca & Hc). destruct (proj2 (H1 y)) as [p Hp]; [eauto|].
        split; [exists y, false; by rewrite (Hb y p Hp) in Hp|]. intros z q Hz. right. exists false. by apply (Hb z).
      * right. right. destruct (Hall y p Hy) as [-> | [-> | ->]]; [|by destruct (Hfree' y)|done].
        by apply (Hmove y Connects Sends Hy); constructor.
    + apply map_not_Forall in Hheld as (y & p & Hy & Hp); [|apply _]. right. left.
      split; [exists y, true; destruct (Hall y p Hy) as [-> | [-> | ->]]; [|done|]; by destruct Hp|].
      intros z q Hz. destruct (Hall z q Hz) as [-> | [-> | ->]]; eauto.
  - right. right. apply map_not_Forall in Hsome as (y & p & Hy & Hp); [|apply _]. destruct p as [| |b| |].
    + destruct Hp; auto.
    + by apply (Hmove y Sends Waits Hy); constructor.
    + destruct Hp. destruct b; auto.
    + by apply (Hmove y Waits Leaves Hy); constructor.
    + by apply (Hleave y).
Qed.

(** A call that is pending fails, or has failed, as cancelled. *)
Definition cancels (xid : Z) (σ : cancelling) : Prop :=
  is_Some (calls (x_clt σ) !! xid) ∨ x_results σ !! xid = Some cancel_failure.

Lemma cancels_step xid σ σ' :
  xinv σ → xstep σ σ' → destroy_wait (x_clt σ) = true → cancels xid σ → cancels xid σ'.
Proof.
  intros Hi Hs Hd Hx. pose proof Hi as [H1 H2 H3 H4 H5 H6]. unfold cancels in *.
  destruct Hs as [rep c pl k res Hd' _|b sz c c' pl k res Hg Hne|y p p' ca c pl k res Hp Hc Hm
    |y ca win c pl k res Hp Hc Hu|c pl res|c pl res]; cbn [x_clt x_place x_cancel x_results] in *; try done.
  - congruence.
  - destruct (got_pdu_effect _ _ _ _ Hg H2) as (_ & _ & [?|(z & ca & ca' & Hc & Hn & E)]); [done|].
    destruct (H3 z ca Hd Hc). congruence.
  - destruct (H3 y ca Hd Hc) as [Hdone Hret]. cbn. destruct (decide (y = xid)) as [->|Hne].
    + right. rewrite lookup_insert_eq. unfold result_of. by rewrite Hdone, Hret.
    + by rewrite lookup_insert_ne, lookup_delete_ne.
  - by destruct H6.
Qed.

Lemma cancels_forever xid σ σ' :
  xinv σ → rtc xstep σ σ' → destroy_wait (x_clt σ) = true → cancels xid σ →
  xinv σ' ∧ destroy_wait (x_clt σ') = true ∧ cancels xid σ'.
Proof.
  intros Hi Hr. induction Hr as [|x y z Hxy _ IH]; [done|]. intros Hd Hx.
  apply IH; [by eapply xinv_step|by eapply calls_left_decreases|by eapply cancels_step].
Qed.

(** [rpcc::~rpcc]: the connection closed and given up, and a check that no call is
    pending. *)
Definition rpcc_destroy (w : cworld) : outcome cworld :=
  let c := cw_clt w in
  h ← match chan c with
      | Some p =>
          x ← heap_at p (cw_conns w);
          heap_decref p (<[p := (closeconn x).1]> (cw_conns w))
      | None => Ok (cw_conns w)
      end;
  VERIFY (bool_decide (calls c = ∅));;
  Ok (CWorld c h (cw_sent w)).

Lemma heap_decref_closed p heap x :
  heap !! p = Some x → (1 <= c_refno x)%Z → cb_buf (c_wpdu x) = None →
  ∃ h, heap_decref p (<[p := (closeconn x).1]> heap) = Ok h.
Proof.
  intros Hx Hr Hb. unfold heap_decref, heap_at. rewrite lookup_insert_eq. run.
  assert (∃ y, (closeconn x).1 = y ∧ c_dead y = true ∧ c_refno y = c_refno x ∧ c_wpdu y = c_wpdu x) as (y & -> & Hd & Hry & Hwy).
  { unfold closeconn. destruct (c_dead x) eqn:E; eexists; by split_and!. }
  unfold decref. cbn. rewrite Hry, Z.geb_leb. destruct (Z.leb_spec 0 (c_refno x - 1)); [|lia]. run.
  destruct (c_refno x - 1 =? 0)%Z; [|run; eauto]. rewrite Hd. unfold destroy. cbn. rewrite ?Hd, ?Hwy, ?Hb. run. eauto.
Qed.

(** ** Property *)

(** C24: Cancelling ends unless a call is stuck.  However calls began, were answered, timed
    out and began again before, once [cancel] has found pending calls every further run is
    finite, counting no spurious wake-ups.  At its end either some call is stuck for good in
    [connection::send] or in [connect], and all others that are still pending are in
    [get_refconn] too; or [cancel] has returned, no call is pending, every call that was
    pending then has returned with the cancellation status, and the client can be destroyed
    without its check failing.  In either case a call that is out of [get_refconn] and
    [send] has returned as cancelled. *)
Theorem cancel_completes c0 σ xid ca :
  window_inv (xid_rep_window c0) → destroy_wait c0 = false → calls c0 = ∅ →
  rtc xstep (xstart c0) σ → destroy_wait (x_clt σ) = true → calls (x_clt σ) !! xid = Some ca →
  sn xstep σ ∧
  ∀ σ', rtc xstep σ σ' → nf xstep σ' →
    (x_results σ' !! xid = Some cancel_failure ∨
     x_place σ' !! xid = Some Connects ∨ ∃ b, x_place σ' !! xid = Some (Blocked b)) ∧
    (held_up (x_place σ') ∨
     x_cancel σ' = Over ∧ x_results σ' !! xid = Some cancel_failure ∧
     ∀ heap sent, (∀ p, chan (x_clt σ') = Some p → ∃ x, heap !! p = Some x ∧ (1 <= c_refno x)%Z ∧ cb_buf (c_wpdu x) = None) →
       ∃ w, rpcc_destroy (CWorld (x_clt σ') heap sent) = Ok w).
Proof.
  intros Hw Hd0 Hc0 Hr Hd Hc. pose proof (xinv_reachable c0 σ Hw Hd0 Hc0 Hr) as Hi.
  split; [by apply cancel_terminates|]. intros σ' Hr' Hnf.
  destruct (cancels_forever xid σ σ' Hi Hr' Hd) as (Hi' & Hd' & Hx); [left; eauto|].
  destruct (cancel_progress σ' Hi' Hd') as [[Hk He]|[Hheld|]]; [| |done].
  - assert (x_results σ' !! xid = Some cancel_failure) as Hres.
    { destruct Hx as [[? E]|?]; [by rewrite He, lookup_empty in E|done]. }
    split; [by left|]. right. split_and!; [done|done|].
    intros heap sent Hch. unfold rpcc_destroy. cbn [cw_clt cw_conns cw_sent]. rewrite He.
    destruct (chan (x_clt σ')) as [p|]; [|eauto]. destruct (Hch p eq_refl) as (x & Hx' & Hrf & Hb).
    destruct (heap_decref_closed p heap x Hx' Hrf Hb) as (h & E). unfold heap_at. rewrite Hx'. run.
    rewrite E. run. eauto.
  - split; [|by left]. destruct Hx as [Hx|?]; [right|by left]. apply (xi_place _ Hi') in Hx as [p Hp].
    destruct (proj2 Hheld xid p Hp) as [->|[b ->]]; eauto.
Qed.

(** One call begins, and is cancelled. *)
Definition ex_rpcc : rpcc := set_bound (new_rpcc 7 0 true) 5.

Lemma cancel_completes_witness :
  ∃ σ, rtc xstep (xstart ex_rpcc) σ ∧ is_Some (calls (x_clt σ) !! 1%Z) ∧ sn xstep σ.
Proof.
  assert (∃ σ ca, rtc xstep (xstart ex_rpcc) σ ∧ destroy_wait (x_clt σ) = true ∧ calls (x_clt σ) !! 1%Z = Some ca)
    as (σ & ca & Hr & Hd & Hc).
  { do 2 eexists. split; [|split].
    - eapply rtc_l; [by apply (x_begin new_unmarshall)|]. eapply rtc_l; [apply x_cancels|]. apply rtc_refl.
    - reflexivity.
    - reflexivity. }
  exists σ. split; [exact Hr|]. split; [eauto|].
  apply (cancel_completes ex_rpcc σ 1 ca).
  - split_and!; [repeat constructor|by repeat constructor|]. cbn. rewrite list_elem_of_singleton. discriminate.
  - reflexivity.
  - reflexivity.
  - exact Hr.
  - exact Hd.
  - exact Hc.
Defined.
