(* ===== verification/RpcCall.v ===== *)
(** * A remote procedure call from end to end

    The two endpoints together, over the framed connection: what the client's
    [call] sends, what the server's [dispatch] does with it, and what the call
    returns once the reply is delivered.  [remote] is the contract the rest of the
    system relies on: a call that is delivered runs the method once and returns
    what it returned; a call that fails returns a negative status, leaves the
    result variable as it was, and may or may not have run the method. *)

From stdpp Require Import base tactics numbers list gmap strings.
From Stdlib Require Import ZArith Lia Ascii.
From S2P Require Import Prelude CxxString Marshall Connection RpcServer RpcTime RpcClient.

(** ** The contract of a remote call *)
Inductive rpc_outcome :=
  | Delivered
  | Failed (code : Z) (executed : bool).

(** [r] is the caller's result variable, [r0] the fresh one of the handler. *)
Definition remote {S A R} (o : rpc_outcome) (meth : S → A → R → outcome (S * R * Z)) (r0 : R)
    (a : A) (r : R) (st : S) : outcome (Z * R * S) :=
  match o with
  | Delivered => '(st', r', b) ← meth st a r0; Ok (b, r', st')
  | Failed code false => Ok (code, r, st)
  | Failed code true => '(st', _, _) ← meth st a r0; Ok (code, r, st')
  end.

(** ** Packets *)
Definition req_packet (h : req_header) (body pkt : bytes) : Prop :=
  ∃ sz4, length sz4 = 4 ∧ pkt = sz4 ++ enc_req_header h ++ body.
Definition reply_packet (h : reply_header) (body pkt : bytes) : Prop :=
  ∃ sz4 pad, length sz4 = 4 ∧ length pad = 12 ∧ pkt = sz4 ++ enc_reply_header h ++ pad ++ body.

(** What the peer of [connection::send] is handed: the packet with the size word
    stamped over its first four bytes. *)
Definition received (pkt : bytes) : bytes := on_wire pkt (size pkt).

Lemma received_app sz4 rest :
  length sz4 = 4 → received (sz4 ++ rest) = size_prefix (size (sz4 ++ rest)) ++ rest.
Proof.
  intros L. unfold received, on_wire. f_equal.
  rewrite take_ge by (unfold size; lia). by apply drop_app_length'.
Qed.

Lemma received_size pkt : (4 <= size pkt)%Z → size (received pkt) = size pkt.
Proof. intros. apply size_on_wire. lia. Qed.

Lemma received_req h body pkt : req_packet h body pkt → req_packet h body (received pkt).
Proof.
  intros (sz4 & L & ->). rewrite received_app by done. eexists. split; [|reflexivity]. done.
Qed.
Lemma received_reply h body pkt : reply_packet h body pkt → reply_packet h body (received pkt).
Proof.
  intros (sz4 & pad & L & L' & ->). rewrite received_app by done.
  eexists _, pad. split_and!; [|done|reflexivity]. done.
Qed.

Lemma size_enc_req_header h : size (enc_req_header h) = 20%Z.
Proof. done. Qed.
Lemma size_enc_reply_header h : size (enc_reply_header h) = 8%Z.
Proof. done. Qed.

Lemma req_packet_size h body pkt : req_packet h body pkt → size pkt = (24 + size body)%Z.
Proof.
  intros (sz4 & L & ->). rewrite !size_app, size_enc_req_header. unfold size at 1. lia.
Qed.
Lemma reply_packet_size h body pkt : reply_packet h body pkt → size pkt = (24 + size body)%Z.
Proof.
  intros (sz4 & pad & L & L' & ->). rewrite !size_app, size_enc_reply_header.
  unfold size at 1 2. lia.
Qed.

(** The size word hides the only difference between two such packets. *)
Lemma received_req_unique h body p1 p2 :
  req_packet h body p1 → req_packet h body p2 → received p1 = received p2.
Proof.
  intros H1 H2. pose proof (req_packet_size _ _ _ H1) as E1. pose proof (req_packet_size _ _ _ H2) as E2.
  destruct H1 as (s1 & L1 & ->), H2 as (s2 & L2 & ->).
  by rewrite !received_app, E1, E2 by done.
Qed.

(** The packet [pkt], sent whole over a connection, reaches the peer's upcall as the
    buffer [b] with the size [sz]: the operating system takes it from [writepdu] in any
    pieces, and [readpdu] gets the size word and then the rest in any chunks. *)
Definition transported (pkt b : bytes) (sz : Z) : Prop :=
  ∃ junk out w' pre first chunks r,
    writes (CharBuf (Some pkt) (size pkt) 0) out w' ∧ cb_solong w' = size pkt ∧
    out = pre ++ first ++ concat chunks ∧ length pre = 4 ∧
    receive junk pre first chunks = Ok r ∧ cb_buf r = Some b ∧ cb_sz r = sz ∧ cb_solong r = sz.

Lemma transported_received pkt b sz :
  (4 < size pkt <= MAX_PDU)%Z → transported pkt b sz →
  sz = size (received pkt) ∧ ∃ rest, b = received pkt ++ rest.
Proof.
  intros Hsz (junk & out & w' & pre & first & chunks & r & Hw & Hl & -> & Hpre & Hr & Hb & Hs & _).
  apply writes_on_wire in Hw; [|lia|done].
  destruct (receive_on_wire junk pkt (size pkt) pre first chunks) as (r' & rest & Hr' & Hs' & _ & Hb');
    [lia..|done|done|]. rewrite Hr in Hr'. injection Hr' as <-. rewrite received_size by lia.
  rewrite Hb in Hb'. injection Hb' as ->. split; [congruence|by exists rest].
Qed.

(** Packets within the bound can be transported. *)
Lemma transported_exists pkt : (4 < size pkt <= MAX_PDU)%Z → ∃ b, transported pkt b (size pkt).
Proof.
  intros Hsz. pose proof (size_on_wire pkt (size pkt) ltac:(lia)) as Hw.
  destruct (take_store_prefix pkt (size pkt)) as (p & Hp & Hps & Hpt); [lia|].
  assert (p = received pkt) as ->.
  { rewrite <- (firstn_all p). unfold received. rewrite <- Hpt. f_equal. clear -Hps. unfold size in *. lia. }
  assert (size (received pkt) = size pkt) as Hrs by (by apply received_size; lia).
  assert (load (received pkt) 0 (size pkt - 0) = Ok (received pkt)) as Hld
    by (rewrite Z.sub_0_r, <- Hrs; apply load_all).
  set (pre := size_prefix (size pkt)). set (first := drop 4 (received pkt)).
  assert (received pkt = pre ++ first ++ concat []) as Hr by (simpl; by rewrite app_nil_r).
  destruct (receive_on_wire (λ _, NUL) pkt (size pkt) pre first []) as (r & rest & E & Hs & Hl & Hb); [lia..|exact Hr|done|].
  exists (received pkt ++ rest). exists (λ _, NUL), (received pkt), (CharBuf (Some (received pkt)) (size pkt) (size pkt)).
  exists pre, first, [], r. split_and!; try done.
  rewrite <- (app_nil_r (received pkt)) at 1. rewrite <- (firstn_all (received pkt)) at 1.
  replace (length (received pkt)) with (Z.to_nat (size pkt)) by (unfold size in *; lia).
  eapply (writes_some _ (size pkt) _ _ []); [simpl; lia| |lia| |apply writes_stop].
  - unfold write_request, stamped. simpl. rewrite Hp. exact Hld.
  - unfold writepdu, stamped. cbn [cb_solong cb_sz cb_buf deref]. run. destruct (Z.eqb_spec 0 (size pkt)); [lia|].
    cbn [Z.eqb]. rewrite Hp. run. rewrite Hld. by run.
Qed.

Lemma holds_load m w : holds m w → ∃ b, m_buf m = Some b ∧ load b 0 (m_ind m) = Ok w.
Proof.
  intros (rest & Hb & Hi & _). eexists. split; [done|]. rewrite Hi.
  apply (load_Ok [] w rest); done.
Qed.

Lemma unpack_req_packet h body pkt rest :
  req_packet h body pkt → req_header_ok h → (size pkt < 2 ^ 31)%Z →
  ∃ u pre, unpack_req_header (unmarshall_of (pkt ++ rest) (size pkt)) = Ok (h, u) ∧ reads u pre body.
Proof.
  intros Hp Hok Hlt. pose proof (req_packet_size _ _ _ Hp) as Hsz.
  destruct Hp as (sz4 & L & ->).
  destruct (unpack_req_header_reads ((sz4 ++ enc_req_header h ++ body) ++ rest)
    (size (sz4 ++ enc_req_header h ++ body)) sz4 h body rest) as (u & -> & Hr);
    rewrite <- ?app_assoc; try done. by eexists _, _.
Qed.

Lemma unpack_reply_packet h body pkt rest :
  reply_packet h body pkt → reply_header_ok h → (size pkt < 2 ^ 31)%Z →
  ∃ u pre, unpack_reply_header (unmarshall_of (pkt ++ rest) (size pkt)) = Ok (h, u) ∧ reads u pre body ∧
    size pre = 24%Z.
Proof.
  intros Hp Hok Hlt. pose proof (reply_packet_size _ _ _ Hp) as Hsz.
  destruct Hp as (sz4 & pad & L & L' & ->).
  destruct (unpack_reply_header_reads ((sz4 ++ enc_reply_header h ++ pad ++ body) ++ rest)
    (size (sz4 ++ enc_reply_header h ++ pad ++ body)) sz4 pad h body rest) as (u & -> & Hr);
    rewrite <- ?app_assoc; try done.
  eexists _, _. split_and!; [done|done|]. rewrite !size_app, size_enc_reply_header.
  unfold size. lia.
Qed.

(** ** Connection objects *)
Definition conn_ok (x : connection) : Prop :=
  (1 <= c_refno x)%Z ∧ (c_dead x = true → cb_buf (c_wpdu x) = None).
Definition usable (c : nat) (h : conn_heap) : Prop :=
  ∃ x, h !! c = Some x ∧ c_dead x = false ∧ (1 <= c_refno x)%Z.

Lemma heap_incref_usable c h : usable c h → ∃ h', heap_incref c h = Ok h' ∧ usable c h'.
Proof.
  intros (x & Hx & Hd & Hr). unfold heap_incref, heap_at. rewrite Hx. eexists. split; [done|].
  exists (incref x). rewrite lookup_insert_eq. split_and!; [done..|]. simpl. lia.
Qed.

Lemma heap_decref_usable c h : usable c h → ∃ h', heap_decref c h = Ok h'.
Proof.
  intros (x & Hx & Hd & Hr). unfold heap_decref, heap_at, decref. rewrite Hx. run. simpl.
  rewrite Z.geb_leb. destruct (Z.leb_spec 0 (c_refno x - 1)); [|lia]. run.
  rewrite Hd. destruct (_ =? 0)%Z; run; eauto.
Qed.

Lemma heap_decref_other c h x c' :
  h !! c = Some x → conn_ok x → c' ≠ c → usable c' h →
  ∃ h', heap_decref c h = Ok h' ∧ usable c' h'.
Proof.
  intros Hx [Hr Hw] Hne (y & Hy & Hd & Hry). unfold heap_decref, heap_at, decref, destroy.
  rewrite Hx. run. simpl. rewrite Z.geb_leb. destruct (Z.leb_spec 0 (c_refno x - 1)); [|lia]. run.
  destruct (Z.eqb_spec (c_refno x - 1) 0); [destruct (c_dead x)|]; run.
  - rewrite bool_decide_true by auto. run. eexists. split; [done|].
    exists y. by rewrite lookup_delete_ne.
  - eexists. split; [done|]. exists y. by rewrite lookup_insert_ne.
  - eexists. split; [done|]. exists y. by rewrite lookup_insert_ne.
Qed.

(** ** The server's part *)
Section server.
Context {Al : allocator} `{!KeepsFreed Al} {S : Type} (junk : nat → ascii).

(** The connections the server remembers are live objects. *)
Definition remembered_ok (w : world S) : Prop :=
  ∀ clt c, s_conns (w_srv w) !! clt = Some c → ∃ x, w_conns w !! c = Some x ∧ conn_ok x.

Lemma save_conn_usable clt c (w : world S) :
  remembered_ok w → usable c (w_conns w) →
  ∃ cs h, save_conn clt c w = Ok (World (set_conns (w_srv w) cs) h (w_st w) (w_sent w)) ∧
    usable c h.
Proof.
  intros Hrem Hc. unfold save_conn, conn_incref, conn_decref, conn_at.
  destruct (s_conns (w_srv w) !! clt) as [old|] eqn:Ho.
  - destruct (Hrem _ _ Ho) as (xo & Hxo & Hoko). pose proof Hc as (x & Hx & Hd & Hr).
    unfold heap_at. rewrite Hxo, Hx. run. destruct (Z.ltb_spec (compare xo x) 0).
    + assert (c ≠ old) as Hne.
      { intros ->. rewrite Hxo in Hx. injection Hx as <-. unfold compare in H.
        rewrite !Z.gtb_ltb, !Z.ltb_irrefl in H. lia. }
      destruct (heap_decref_other _ _ _ c Hxo Hoko Hne Hc) as (h & -> & Hu). run. simpl.
      destruct (heap_incref_usable c h Hu) as (h' & -> & Hu'). run. simpl. eauto.
    + exists (s_conns (w_srv w)), (w_conns w). split; [|done]. by destruct w as [[] ? ? ?].
  - destruct (heap_incref_usable c _ Hc) as (h & -> & Hu). run. simpl. eauto.
Qed.

(** A handler made by [reg] for the method [meth]. *)
Lemma h1_spec {A R} (ca : codec A) (cr : codec R) va ea vr er `{!CodecOK ca va ea, !CodecOK cr vr er}
    (meth : S → A → R → outcome (S * R * Z)) st st' a r b u pre m w :
  va a → reads u pre (ea a) → meth st a (dflt cr) = Ok (st', r, b) → vr r → holds m w →
  (size w + size (er r) < max_packet)%Z →
  ∃ m', h1 ca cr meth st u m = Ok (b, m', st') ∧ holds m' (w ++ er r).
Proof.
  intros Ha Hr Hm Hvr Hh Hsz. unfold h1. rewrite <- (app_nil_r (ea a)) in Hr.
  destruct (codec_get a u pre [] Ha Hr) as (u' & -> & Hr'). run.
  rewrite (reads_okdone _ _ Hr'). simpl. rewrite Hm. run.
  destruct (codec_put r m w Hvr Hh Hsz) as (m' & -> & Hh'). run. eauto.
Qed.

(** A request is [fresh] for the server: at-most-once judges it NEW. *)
Definition fresh_request (h : req_header) (w : windows) : Prop :=
  let clt := rq_clt_nonce h in
  let xid := u32 (rq_xid h) in
  window_ok (bound clt w) (replies clt w) ∧ (u32 (rq_xid_rep h) < xid)%Z ∧
  (bound clt w < xid)%Z ∧ xid ∉ xids (replies clt w).

Lemma fresh_is_new h w :
  fresh_request h w →
  ∃ b w' fr, checkduplicate_and_update (rq_clt_nonce h) (u32 (rq_xid h)) (u32 (rq_xid_rep h)) w
             = Ok (NEW, b, w', fr) ∧
    window_ok (bound (rq_clt_nonce h) w') (replies (rq_clt_nonce h) w') ∧
    u32 (rq_xid h) ∈ xids (replies (rq_clt_nonce h) w').
Proof.
  intros (Hok & Hrep & Hb & Hni).
  destruct (check_cases _ _ _ w Hok Hrep) as (st & b & w' & fr & E & Hv & Hok').
  destruct st; [|exfalso..].
  { exists b, w', fr. split_and!; [done..|]. destruct Hv as (_ & _ & ->).
    apply in_trimmed. split; [lia|by left]. }
  - destruct Hv as (_ & (r & Hr & Hx & _) & _). apply Hni, in_xids. eauto.
  - destruct Hv as (_ & (r & Hr & Hx & _) & _). apply Hni, in_xids. eauto.
  - destruct Hv as (_ & ? & _). lia.
Qed.

Lemma srv_nonce_matches n m :
  n = 0%Z ∨ n = m → negb (n =? 0)%Z && negb (n =? m)%Z = false.
Proof. intros [-> | ->]; rewrite Z.eqb_refl; [done|]. by rewrite andb_false_r. Qed.

(** The reply to [h] is in the window, as the bytes [rpl]. *)
Definition replied (h : req_header) (rpl : bytes) (s : rpcs S) : Prop :=
  let win := s_windows s in
  let clt := rq_clt_nonce h in
  window_ok (bound clt win) (replies clt win) ∧
  ∃ bb, recorded (u32 (rq_xid h)) (Some bb) (size rpl) (replies clt win) ∧
    load bb 0 (size rpl) = Ok rpl.

Lemma replied_add h rpl bb sz win (s : rpcs S) :
  window_ok (bound (rq_clt_nonce h) win) (replies (rq_clt_nonce h) win) →
  u32 (rq_xid h) ∈ xids (replies (rq_clt_nonce h) win) →
  load bb 0 sz = Ok rpl → sz = size rpl →
  replied h rpl (set_windows s (add_reply (rq_clt_nonce h) (u32 (rq_xid h)) (Some bb) sz win)).
Proof.
  intros Hok Hin Hl ->. unfold replied. cbn [s_windows set_windows]. unfold add_reply.
  rewrite replies_insert. split.
  - unfold window_ok. by rewrite xids_store_reply.
  - exists bb. split; [by apply store_reply_records|done].
Qed.

(** A retransmission of an answered request. *)
Lemma dispatch_done h body pkt rest c (w : world S) rpl :
  req_packet h body pkt → req_header_ok h → (size pkt < max_packet)%Z →
  rq_srv_nonce h = 0%Z ∨ rq_srv_nonce h = s_nonce (w_srv w) →
  rq_clt_nonce h ≠ 0%Z → is_Some (s_procs (w_srv w) !! rq_proc h) →
  replied h rpl (w_srv w) → remembered_ok w → usable c (w_conns w) →
  ∃ w', dispatch junk c (pkt ++ rest) (size pkt) w = Ok w' ∧ w_st w' = w_st w ∧
    w_sent w' = w_sent w ++ [(c, rpl)].
Proof.
  intros Hpkt Hh Hsz Hsrv Hclt [f Hf] (Hok & bb & Hrec & Hload) Hrem Hc.
  assert (max_packet < 2 ^ 31)%Z as Hmax by (unfold max_packet; lia).
  unfold dispatch. destruct (unpack_req_packet h body pkt rest) as (u & pre & -> & Hu); [done|done|lia|].
  run. assert (u_ok u = true) as -> by (by destruct Hu as (? & _ & _ & _ & _ & ?)). cbn [negb].
  rewrite srv_nonce_matches by done.
  match goal with |- context [match ?l with Some _ => _ | None => _ end] =>
    replace l with (Some f) by (symmetry; exact Hf) end.
  destruct (Z.eqb_spec (rq_clt_nonce h) 0); [done|]. cbn [negb].
  destruct (save_conn_usable (rq_clt_nonce h) c w Hrem Hc) as (cs & hp & -> & Hc'). run.
  cbn [w_srv s_windows set_conns].
  destruct (check_recorded _ _ _ _ _ (u32 (rq_xid_rep h)) Hok Hrec) as (win & ->). run.
  cbn [deref]. run. unfold conn_send, conn_at, heap_at. cbn [w_conns set_srv].
  pose proof Hc' as (x & Hx & Hd & _). rewrite Hx. run. unfold isdead. rewrite Hd. cbn [deref]. run. rewrite Hload. run.
  unfold conn_decref. cbn [w_conns].
  destruct (heap_decref_usable c hp Hc') as (h' & ->). run. by eexists.
Qed.

Lemma dispatch_new {A R} (ca : codec A) (cr : codec R) va ea vr er
    `{!CodecOK ca va ea, !CodecOK cr vr er} (meth : S → A → R → outcome (S * R * Z))
    h pkt rest c (w : world S) a r b st' :
  req_packet h (ea a) pkt → req_header_ok h → (size pkt < max_packet)%Z → va a →
  rq_srv_nonce h = 0%Z ∨ rq_srv_nonce h = s_nonce (w_srv w) →
  rq_clt_nonce h ≠ 0%Z → fresh_request h (s_windows (w_srv w)) →
  s_procs (w_srv w) !! rq_proc h = Some (h1 ca cr meth) →
  meth (w_st w) a (dflt cr) = Ok (st', r, b) → (0 <= b < 2 ^ 31)%Z → vr r →
  (24 + size (er r) < max_packet)%Z →
  remembered_ok w → usable c (w_conns w) →
  ∃ w' rpl, dispatch junk c (pkt ++ rest) (size pkt) w = Ok w' ∧ w_st w' = st' ∧
    w_sent w' = w_sent w ++ [(c, rpl)] ∧ reply_packet (ReplyHeader (rq_xid h) b) (er r) rpl ∧
    replied h rpl (w_srv w') ∧ s_nonce (w_srv w') = s_nonce (w_srv w) ∧
    s_procs (w_srv w') = s_procs (w_srv w).
Proof.
  intros Hpkt Hh Hsz Ha Hsrv Hclt Hfresh Hproc Hmeth Hb Hr Hrsz Hrem Hc.
  assert (max_packet < 2 ^ 31)%Z as Hmax by (unfold max_packet; lia).
  unfold dispatch. destruct (unpack_req_packet h (ea a) pkt rest) as (u & pre & -> & Hu); [done|done|lia|].
  run. assert (u_ok u = true) as -> by (by destruct Hu as (? & _ & _ & _ & _ & ?)). cbn [negb].
  rewrite srv_nonce_matches by done.
  match goal with |- context [match ?l with Some _ => _ | None => _ end] =>
    replace l with (Some (h1 ca cr meth)) by (symmetry; exact Hproc) end.
  destruct (Z.eqb_spec (rq_clt_nonce h) 0); [done|]. cbn [negb].
  destruct (save_conn_usable (rq_clt_nonce h) c w Hrem Hc) as (cs & hp & -> & Hc'). run.
  cbn [w_srv s_windows set_conns]. destruct (fresh_is_new h _ Hfresh) as (b0 & win & fr & -> & Hwok & Hwin). run.
  cbn [w_srv set_srv].
  destruct (new_marshall_holds junk) as (hd & Lhd & Hhd).
  destruct (h1_spec ca cr va ea vr er meth (w_st w) st' a r b u pre (new_marshall junk) hd)
    as (m' & Em & Hm'); try done.
  { assert (size hd = 24%Z) as -> by (unfold size; lia). lia. }
  assert (∀ w0 : world S, w_st w0 = w_st w →
    h1 ca cr meth (w_st w0) u (new_marshall junk) = Ok (b, m', st')) as Em' by (by intros ? ->).
  rewrite Em' by (by case_match). run.
  assert ((b =? unmarshal_args_failure)%Z = false) as ->.
  { unfold unmarshal_args_failure. destruct (Z.eqb_spec b (-2)); [lia|done]. }
  rewrite Z.geb_leb. destruct (Z.leb_spec 0 b); [|lia]. run. cbn [negb].
  destruct (pack_reply_header_holds junk (ReplyHeader (rq_xid h) b) m' hd (er r) Hm' Lhd)
    as (m'' & sz4 & pad & -> & L4 & L12 & Hm''). run.
  destruct (holds_load _ _ Hm'') as (bb & Hbb & Hload). cbn [take_buf]. rewrite Hbb.
  pose proof Hh as (_ & _ & Hcu & _ & _).
  rewrite Z.gtb_ltb. destruct (Z.ltb_spec 0 (rq_clt_nonce h)); [|lia].
  destruct Hc' as (x & Hx & Hd & Hrf).
  unfold reply_conn, conn_send, conn_decref, conn_at.
  case_match; cbn [w_conns set_srv set_st w_srv]; unfold heap_at at 1 2; rewrite Hx; run; cbn [isdead];
    unfold isdead; rewrite Hd; cbn [andb]; run; cbn [w_conns set_srv set_st]; unfold heap_at; rewrite Hx;
    run; rewrite Hd; cbn [deref]; run; rewrite Hload; run; cbn [w_conns];
    (destruct (heap_decref_usable c hp) as (h' & ->); [by exists x|]); run; cbn [set_heap];
    (do 2 eexists; split_and!; [done|done|done|by eexists _, _| |done|done]).
  - apply replied_add; [done..|]. by destruct Hm'' as (? & _ & -> & _).
  - apply replied_add; [done..|]. by destruct Hm'' as (? & _ & -> & _).
Qed.

End server.

(** ** The client's part *)
Section client.
Context (junk : nat → ascii).

(** A client that can make a call: bound, not being destroyed, with an idle
    loss test, and connected by [p]. *)
Definition client_ready (w : cworld) (p : nat) : Prop :=
  let c := cw_clt w in
  bind_done c = true ∧ destroy_wait c = false ∧ lossytest c = 0%Z ∧ dup_req c = clear_request ∧
  reachable c = true ∧ chan c = Some p ∧ usable p (cw_conns w) ∧
  window_inv (xid_rep_window c) ∧ is_u32 (next_xid c) ∧ is_u32 (clt_nonce c) ∧ is_u32 (srv_nonce c).

(** The header of the next call. *)
Definition next_header (c : rpcc) (proc : Z) : req_header :=
  ReqHeader (i32 (next_xid c)) (i32 proc) (clt_nonce c) (srv_nonce c)
    (i32 (default 0%Z (head (xid_rep_window c)))).

Lemma next_header_ok w p proc : client_ready w p → req_header_ok (next_header (cw_clt w) proc).
Proof.
  intros (_ & _ & _ & _ & _ & _ & _ & _ & _ & Hc & Hs). repeat split; try apply i32_range; simpl; lia.
Qed.

(** A packet handed to the client's upcall. *)
Definition deliver_pdu (b : bytes) (sz : Z) (w : cworld) : outcome cworld :=
  c ← client_got_pdu b sz (cw_clt w); Ok (set_clt w c).
Definition deliver (rpl : bytes) : cworld → outcome cworld := deliver_pdu rpl (size rpl).

Lemma call1_begin_sends {A} (ca : codec A) va ea `{!CodecOK ca va ea} proc a rep w p :
  client_ready w p → proc ≠ rpc_bind → va a → (24 + size (ea a) < max_packet)%Z →
  ∃ req req' pkt w', put ca a (new_marshall junk) = Ok req ∧
    call1_begin junk proc req rep w
    = Ok (inr (next_xid (cw_clt w), i32 (default 0%Z (head (xid_rep_window (cw_clt w)))), req', w')) ∧
    w' = set_clt w (set_calls (set_next_xid (cw_clt w) (u32 (next_xid (cw_clt w) + 1)))
           (<[i32 (next_xid (cw_clt w)) := Caller rep 0 false]> (calls (cw_clt w)))) ∧
    holds req' pkt ∧ req_packet (next_header (cw_clt w) proc) (ea a) pkt.
Proof.
  intros (Hbd & Hdw & _ & _ & _ & _ & _ & Hwin & _) Hp Ha Hsz.
  destruct (new_marshall_holds junk) as (hd & Lhd & Hhd).
  assert (size hd = 24%Z) as Shd by (unfold size; lia).
  destruct (codec_put a (new_marshall junk) hd Ha Hhd) as (req & Ereq & Hreq); [by rewrite Shd|].
  destruct (pack_req_header_holds junk (next_header (cw_clt w) proc) req hd (ea a) Hreq Lhd)
    as (req' & sz4 & Epack & L4 & Hh).
  exists req, req', (sz4 ++ enc_req_header (next_header (cw_clt w) proc) ++ ea a).
  eexists. split_and!; [done| |reflexivity|done|by exists sz4].
  unfold call1_begin. rewrite Hbd, Hdw. destruct (Z.eqb_spec proc rpc_bind); [done|]. cbn [negb andb orb].
  destruct (xid_rep_window (cw_clt w)) as [|f win] eqn:Ew; [by destruct Hwin as (_ & _ & [])|].
  cbn [front]. run. unfold next_header in Epack. rewrite Ew in Epack. simpl in Epack.
  rewrite Epack. run. done.
Qed.

Lemma call1_transmit_ready req ch pkt w p :
  chan (cw_clt w) = Some p → usable p (cw_conns w) → reachable (cw_clt w) = true →
  dup_req (cw_clt w) = clear_request → ch = None → holds req pkt →
  ∃ h', call1_transmit None req ch w = Ok (Some p, CWorld (cw_clt w) h' (cw_sent w ++ [(p, pkt)])) ∧
    usable p h'.
Proof.
  intros Hch Hu Hreach Hdup -> Hreq. unfold call1_transmit, call1_send, get_refconn. rewrite Hch.
  pose proof Hu as (x & Hx & Hd & _). unfold heap_at. rewrite Hx. run. unfold isdead. rewrite Hd. run.
  rewrite Hch. destruct (heap_incref_usable p _ Hu) as (h' & -> & Hu'). run.
  cbn [cw_clt set_cheap]. rewrite Hreach, Hdup. change (isvalid clear_request) with false.
  cbn [andb]. change (isvalid clear_request) with false. run.
  destruct (holds_load _ _ Hreq) as (b & Eb & Hl). rewrite Eb.
  unfold ch_send, heap_at. cbn [cw_conns set_cheap]. destruct Hu' as (x' & Hx' & Hd' & ?). rewrite Hx'. run.
  unfold isdead. rewrite Hd'. simpl. rewrite Hl. simpl. eexists. split; [done|]. by exists x'.
Qed.

Lemma client_got_pdu_pending h body rpl rest c ca :
  reply_packet h body rpl → reply_header_ok h → (size rpl < max_packet)%Z →
  window_inv (xid_rep_window c) → calls c !! rp_xid h = Some ca → ca_done ca = false →
  ∃ u pre win, client_got_pdu (rpl ++ rest) (size rpl) c
    = Ok (set_calls (set_window c win) (<[rp_xid h := Caller u (rp_ret h) true]> (calls c))) ∧
    window_inv win ∧ reads u pre body.
Proof.
  intros Hp Hok Hsz Hwin Hca Hnd. assert (max_packet < 2 ^ 31)%Z by (unfold max_packet; lia).
  destruct (unpack_reply_packet h body rpl rest Hp Hok ltac:(lia)) as (u & pre & E & Hr & Hpre).
  destruct (update_xid_rep_inv (u32 (rp_xid h)) (xid_rep_window c) Hwin ltac:(eauto with yfs))
    as (win & Ew & Hwin' & _).
  exists (take_in u), pre, win. unfold client_got_pdu. rewrite E. run.
  destruct Hr as (extra & Hb & Hi & Hs & Hlt & Hu). rewrite Hu. cbn [negb]. rewrite Ew. run.
  cbn [calls set_window]. rewrite Hca, Hnd. split_and!; [done|done|].
  exists extra. unfold take_in. cbn. rewrite Hs. change RPC_HEADER_SZ with 24%Z.
  pose proof (size_nonneg body). rewrite Z.geb_leb. split_and!; try done; try lia.
  destruct (Z.leb_spec 24 (size pre + size body)); [done|lia].
Qed.

End client.

(** ** The waits of a call until its reply comes *)

(** A round in which nothing comes for the call: any number of signals for others and
    spurious wake-ups, then the timeout. *)
Definition silent_round (s : timespec * nat) : round :=
  Round None s.1 Ok (replicate s.2 (Wakeup Ok false) ++ [Wakeup Ok true]).

(** The reply comes before the thread waits, or during its wait, after some wake-ups; that
    wait may time out all the same. *)
Inductive arrival := Early | Late (wakeups : nat) (timeout : bool).
Definition reply_round (now : timespec) (arr : arrival) (b : bytes) (sz : Z) : round :=
  match arr with
  | Early => Round None now (deliver_pdu b sz) []
  | Late n t => Round None now Ok (replicate n (Wakeup Ok false) ++ [Wakeup (deliver_pdu b sz) t])
  end.
Definition reply_after (silent : list (timespec * nat)) (now : timespec) (arr : arrival) (b : bytes) (sz : Z) :
    list round :=
  (silent_round <$> silent) ++ [reply_round now arr b sz].

(** The silent rounds end before the deadline, [to] milliseconds after [start]. *)
Fixpoint before_deadline (start : timespec) (to curr_to : Z) (silent : list (timespec * nat)) : Prop :=
  match silent with
  | [] => True
  | s :: silent =>
      normal s.1 ∧ (nsecs start <= nsecs s.1)%Z ∧
      (nsecs s.1 + curr_to * 1000000 <= nsecs start + to * 1000000)%Z ∧
      before_deadline start to (curr_to * 2) silent
  end.

Section waiting.
Context (xid : Z) (ca : caller) (w : cworld).
Context (Hca : calls (cw_clt w) !! i32 xid = Some ca) (Hnd : ca_done ca = false).

Lemma wait_reply_wakeups n waits deadline :
  valid_deadline deadline = true →
  wait_reply (replicate n (Wakeup Ok false) ++ waits) deadline xid w = wait_reply waits deadline xid w.
Proof using Hca Hnd.
  intros Hd. induction n as [|n IH]; [done|]. cbn [replicate app wait_reply]. rewrite Hca. cbn [deref]. run.
  rewrite Hnd, Hd. run. exact IH.
Qed.

Lemma call1_loop_silent start to final silent rounds req p curr_to :
  normal final → nsecs final = (nsecs start + to * 1000000)%Z → (to <= 1000000000)%Z →
  tv_sec final ≠ 0%Z → usable p (cw_conns w) →
  (0 < curr_to)%Z → (curr_to mod 1000 = 0)%Z → before_deadline start to curr_to silent →
  ∃ curr_to', (0 < curr_to')%Z ∧ (curr_to' mod 1000 = 0)%Z ∧
    call1_loop ((silent_round <$> silent) ++ rounds) xid req (Some p) false curr_to final w
    = call1_loop rounds xid req (Some p) false curr_to' final w.
Proof using Hca Hnd.
  intros Hn Hfin Hto Hf0 (x & Hx & Hd & _). revert curr_to.
  induction silent as [|s silent IH]; intros curr_to Hpos Hmod; [by exists curr_to|].
  intros (Hs & Hstart & Hle & Hrest). cbn [fmap list_fmap app call1_loop silent_round rd_now rd_env rd_waits].
  destruct (IH (curr_to * 2)%Z ltac:(lia)) as (c' & H1 & H2 & E); [by rewrite Z.mul_mod, Hmod by lia|done|].
  exists c'. split_and!; [done..|]. rewrite <- E. run. destruct (Z.eqb_spec (tv_sec final) 0); [done|].
  destruct (add_timespec_seconds s.1 curr_to Hs ltac:(lia) Hmod) as (next & -> & Hnext & Hnn). run.
  assert (cmp_timespec next final >? 0 = false)%Z as ->.
  { rewrite Z.gtb_ltb. apply Z.ltb_ge. by apply cmp_timespec_not_later; [..|lia]. }
  rewrite wait_reply_wakeups by (by apply normal_valid). cbn [wait_reply]. rewrite Hca. cbn [deref]. run.
  rewrite Hnd, normal_valid by done. cbn [wk_env wk_timeout]. run. rewrite ?Hca. cbn [deref]. run. rewrite ?Hnd.
  unfold heap_at. rewrite Hx. run. unfold isdead. rewrite Hd, andb_false_r.
  rewrite Z.shiftl_mul_pow2 by lia. change (2 ^ 1)%Z with 2%Z. by rewrite int_result_Ok by lia.
Qed.

Lemma call1_loop_reply final now arr b sz req p curr_to c' ca' :
  normal final → tv_sec final ≠ 0%Z → normal now → (0 < curr_to)%Z → (curr_to mod 1000 = 0)%Z →
  client_got_pdu b sz (cw_clt w) = Ok c' → calls c' !! i32 xid = Some ca' → ca_done ca' = true →
  call1_loop [reply_round now arr b sz] xid req (Some p) false curr_to final w = Ok (Some p, set_clt w c').
Proof using Hca Hnd.
  intros Hn Hf0 Hnow Hpos Hmod Hgot Hca' Hd'. cbn [call1_loop]. run. destruct (Z.eqb_spec (tv_sec final) 0); [done|].
  destruct (add_timespec_seconds now curr_to Hnow ltac:(lia) Hmod) as (next & E & _ & Hnn).
  assert (rd_now (reply_round now arr b sz) = now) as -> by (by destruct arr). rewrite E. run.
  set (deadline := if (cmp_timespec next final >? 0)%Z then final else next).
  assert (valid_deadline deadline = true) as Hv by (apply normal_valid; by unfold deadline; case_match).
  destruct arr as [|k t]; cbn [reply_round rd_env rd_waits]; unfold deliver_pdu at 1.
  - rewrite Hgot. run. cbn [wait_reply set_clt cw_clt]. rewrite Hca'. cbn [deref]. run. rewrite Hd'. run.
    cbn [set_clt cw_clt]. rewrite Hca'. cbn [deref]. run. by rewrite Hd'.
  - run. rewrite wait_reply_wakeups by done. cbn [wait_reply]. rewrite Hca. cbn [deref]. run. rewrite Hnd, Hv.
    cbn [wk_env wk_timeout]. unfold deliver_pdu. rewrite Hgot. run. cbn [set_clt cw_clt]. rewrite Hca'. cbn [deref]. run.
    rewrite Hd'. by destruct t; run; cbn [set_clt cw_clt]; rewrite Hca'; cbn [deref]; run; rewrite Hd'.
Qed.

End waiting.

(** The conditions on the clock and the timeout of a call: it does not begin in the first
    seconds of 1970, the timeout is an [int] of at most eleven days, its deadline is not the
    [10^9] nanoseconds that [add_timespec] may leave, and the reply comes in time. *)
Definition in_time (now : timespec) (to : Z) (silent : list (timespec * nat)) (now1 : timespec) : Prop :=
  normal now ∧ (1 < tv_sec now)%Z ∧ (0 <= to <= 1000000000)%Z ∧
  (∃ final, add_timespec now to = Ok final ∧ normal final) ∧
  before_deadline now to to_min silent ∧ normal now1.

(** What a call sends, and [call1] when the reply arrives in some wait, with any status. *)
Lemma call1_delivered junk {A} (ca : codec A) va ea `{!CodecOK ca va ea} now proc a to w p :
  client_ready w p → proc ≠ rpc_bind → va a → (24 + size (ea a) < max_packet)%Z →
  ∃ req pkt, put ca a (new_marshall junk) = Ok req ∧ req_packet (next_header (cw_clt w) proc) (ea a) pkt ∧
  ∀ silent now1 arr b body rpl rest,
  in_time now to silent now1 → is_i32 b → (size rpl < max_packet)%Z →
  reply_packet (ReplyHeader (i32 (next_xid (cw_clt w))) b) body rpl →
  ∃ w' u pre,
    call1 junk now (reply_after silent now1 arr (rpl ++ rest) (size rpl)) proc req new_unmarshall to w = Ok (b, u, w') ∧
    reads u pre body ∧ cw_sent w' = cw_sent w ++ [(p, pkt)].
Proof.
  intros Hready Hp Ha Hsz.
  pose proof Hready as (_ & _ & Hlossy & Hdup & Hreach & Hchan & Hu & Hwin & Hx & _).
  destruct (call1_begin_sends junk ca va ea proc a new_unmarshall w p Hready Hp Ha Hsz)
    as (req & req' & pkt & w1 & Eput & Ebegin & Ew1 & Hreq & Hpkt).
  exists req, pkt. split_and!; [done..|].
  intros silent now1 arr b body rpl rest (Hnow & Hsec & Hto & (final & Efin & Hnf) & Hsilent & Hnow1) Hb Hrsz Hrpl.
  unfold call1, reply_after. rewrite Ebegin. run.
  destruct (add_timespec_spec now to (proj1 Hnow) ltac:(lia)) as (t & E & Hfin & _).
  rewrite Efin in E. injection E as <-. rewrite Efin. run.
  assert (calls (cw_clt w1) !! i32 (next_xid (cw_clt w)) = Some (Caller new_unmarshall 0 false)) as Hca
    by (rewrite Ew1; cbn; by rewrite lookup_insert_eq).
  destruct (call1_transmit_ready req' None pkt w1 p) as (h' & Etr & Hu'); [by rewrite ?Ew1..|].
  assert (tv_sec final ≠ 0)%Z as Hf0 by (unfold nsecs, normal in *; lia).
  set (w2 := CWorld (cw_clt w1) h' (cw_sent w1 ++ [(p, pkt)])) in *.
  assert (∀ rounds, rounds ≠ [] → Forall (λ r, rd_fresh r = None) rounds →
    call1_loop rounds (next_xid (cw_clt w)) req' None true to_min final w1
    = call1_loop rounds (next_xid (cw_clt w)) req' (Some p) false to_min final w2) as Estart.
  { intros [|r rounds] Hne Hf; [done|]. apply Forall_cons in Hf as [Hf _]. cbn [call1_loop]. by rewrite Hf, Etr. }
  rewrite Estart; [|by destruct silent|].
  2: { apply Forall_app. split; [by apply Forall_fmap, Forall_true|]. repeat constructor. by destruct arr. }
  destruct (call1_loop_silent _ _ w2 Hca eq_refl now to final silent [reply_round now1 arr (rpl ++ rest) (size rpl)] req' p
    to_min) as (curr & Hpos & Hmod & ->); try done; [lia|].
  destruct (client_got_pdu_pending (ReplyHeader (i32 (next_xid (cw_clt w))) b) body rpl rest (cw_clt w2) (Caller new_unmarshall 0 false) Hrpl)
    as (u & pre & win & Egot & Hwin' & Hreads); [split; simpl; [apply i32_range|lia]|done|by subst w2 w1|exact Hca|done|].
  erewrite (call1_loop_reply _ _ w2 Hca eq_refl final now1 arr);
    [|done..|exact Egot|cbn; by rewrite lookup_insert_eq|done].
  run. unfold call1_end. subst w2. rewrite Ew1.
  cbn [cw_clt set_clt set_calls set_window set_next_xid calls xid_rep_window cw_conns cw_sent rp_xid rp_ret].
  rewrite lookup_insert_eq. cbn [deref]. run.
  destruct (update_xid_rep_inv (next_xid (cw_clt w)) win Hwin' Hx) as (win' & -> & _). run.
  cbn [ca_done ca_un ca_intret lossytest set_clt set_calls set_window set_next_xid cw_clt].
  rewrite Hlossy. cbn [Z.eqb negb andb]. run.
  destruct (heap_decref_usable p h' Hu') as (h'' & ->). run. by eexists _, u, pre.
Qed.

(** A call whose reply arrives in time. *)
Lemma call_delivered junk {A R} (ca : codec A) (cr : codec R) va ea vr er
    `{!CodecOK ca va ea, !CodecOK cr vr er} now proc a to w p :
  client_ready w p → proc ≠ rpc_bind → va a → (24 + size (ea a) < max_packet)%Z →
  ∃ pkt, req_packet (next_header (cw_clt w) proc) (ea a) pkt ∧
  ∀ silent now1 arr b rpl rest r, in_time now to silent now1 → (size rpl < max_packet)%Z →
    reply_packet (ReplyHeader (i32 (next_xid (cw_clt w))) b) (er r) rpl → (0 <= b < 2 ^ 31)%Z → vr r →
    ∃ w', call junk ca cr now (reply_after silent now1 arr (rpl ++ rest) (size rpl)) proc a (dflt cr) to w = Ok (b, r, w') ∧
      cw_sent w' = cw_sent w ++ [(p, pkt)].
Proof.
  intros Hready Hp Ha Hsz.
  destruct (call1_delivered junk ca va ea now proc a to w p) as (req & pkt & Eput & Hpkt & Hcall); [done..|].
  exists pkt. split; [done|]. intros silent now1 arr b rpl rest r Htime Hrsz Hrpl Hb Hr. unfold call, call_m. rewrite Eput. run.
  destruct (Hcall silent now1 arr b (er r) rpl rest) as (w' & u & pre & -> & Hreads & Hsent); [done|lia|done..|]. run.
  destruct (Z.ltb_spec b 0); [lia|]. rewrite <- (app_nil_r (er r)) in Hreads.
  destruct (codec_get r u pre [] Hr Hreads) as (u' & -> & Hr'). run. rewrite (reads_okdone _ _ Hr'). run. by eexists.
Qed.

(** A call that the server refuses: the status, and the result as it was. *)
Lemma call_refused junk {A R} (ca : codec A) (cr : codec R) va ea `{!CodecOK ca va ea} now proc a to w p :
  client_ready w p → proc ≠ rpc_bind → va a → (24 + size (ea a) < max_packet)%Z →
  ∃ pkt, req_packet (next_header (cw_clt w) proc) (ea a) pkt ∧
  ∀ silent now1 arr b rpl rest body (r : R), in_time now to silent now1 → (size rpl < max_packet)%Z →
    reply_packet (ReplyHeader (i32 (next_xid (cw_clt w))) b) body rpl → (- 2 ^ 31 <= b < 0)%Z →
    ∃ w', call junk ca cr now (reply_after silent now1 arr (rpl ++ rest) (size rpl)) proc a r to w = Ok (b, r, w') ∧
      cw_sent w' = cw_sent w ++ [(p, pkt)].
Proof.
  intros Hready Hp Ha Hsz.
  destruct (call1_delivered junk ca va ea now proc a to w p) as (req & pkt & Eput & Hpkt & Hcall); [done..|].
  exists pkt. split; [done|]. intros silent now1 arr b rpl rest body r Htime Hrsz Hrpl Hb. unfold call, call_m. rewrite Eput. run.
  destruct (Hcall silent now1 arr b body rpl rest) as (w' & u & pre & -> & _ & Hsent); [done|lia|done..|]. run.
  destruct (Z.ltb_spec b 0); [|lia]. by eexists.
Qed.

(** Packets within the bound arrive as they were sent. *)
Lemma req_packet_fits h body pkt :
  req_packet h body pkt → (24 + size body < max_packet)%Z → (4 < size pkt <= MAX_PDU)%Z ∧ (size pkt < max_packet)%Z.
Proof.
  intros H. rewrite (req_packet_size _ _ _ H). pose proof (size_nonneg body).
  change MAX_PDU with max_packet. lia.
Qed.
Lemma reply_packet_fits h body pkt :
  reply_packet h body pkt → (24 + size body < max_packet)%Z → (4 < size pkt <= MAX_PDU)%Z ∧ (size pkt < max_packet)%Z.
Proof.
  intros H. rewrite (reply_packet_size _ _ _ H). pose proof (size_nonneg body).
  change MAX_PDU with max_packet. lia.
Qed.

(** The request [pkt] is executed, however it travels: the server, handed it, comes to the
    world [w] with [done w] and sends one reply, and however that travels and whenever it
    comes in time, the call returns the status [b] and the result [r] and has sent [pkt]
    only. *)
Definition served `{Al : allocator} {S R} (js : nat → ascii) (cw : cworld) (p : nat) (sw : world S) (c : nat)
    (now : timespec) (to : Z) (f : list round → outcome (Z * R * cworld)) (done : world S → Prop) (b : Z) (r : R) : Prop :=
  ∃ pkt, (∃ buf sz, transported pkt buf sz) ∧
  ∀ buf sz, transported pkt buf sz → ∃ sw' rpl,
    dispatch js c buf sz sw = Ok sw' ∧ done sw' ∧ w_sent sw' = w_sent sw ++ [(c, rpl)] ∧
    (∃ buf' sz', transported rpl buf' sz') ∧
    ∀ buf' sz' silent now1 arr, transported rpl buf' sz' → in_time now to silent now1 →
      ∃ cw', f (reply_after silent now1 arr buf' sz') = Ok (b, r, cw') ∧ cw_sent cw' = cw_sent cw ++ [(p, pkt)].

(** A call from end to end, for use below and in the services. *)
Lemma call_over_network `{Al : allocator, !KeepsFreed Al} {S A R} (jc js : nat → ascii) (ca : codec A) (cr : codec R)
    va ea vr er `{!CodecOK ca va ea, !CodecOK cr vr er} (meth : S → A → R → outcome (S * R * Z))
    now proc a r b st' to cw p (sw : world S) c :
  client_ready cw p → proc ≠ rpc_bind → va a → (24 + size (ea a) < max_packet)%Z →
  clt_nonce (cw_clt cw) ≠ 0%Z → srv_nonce (cw_clt cw) = s_nonce (w_srv sw) →
  fresh_request (next_header (cw_clt cw) proc) (s_windows (w_srv sw)) →
  s_procs (w_srv sw) !! i32 proc = Some (h1 ca cr meth) →
  remote Delivered meth (dflt cr) a (dflt cr) (w_st sw) = Ok (b, r, st') →
  (0 <= b < 2 ^ 31)%Z → vr r →
  (24 + size (er r) < max_packet)%Z → remembered_ok sw → usable c (w_conns sw) →
  served js cw p sw c now to (λ rounds, call jc ca cr now rounds proc a (dflt cr) to cw) (λ sw', w_st sw' = st') b r.
Proof.
  intros Hready Hp Ha Hsz Hclt Hsrv Hfresh Hproc Hmeth Hb Hr Hrsz Hrem Hc.
  apply bind_Ok in Hmeth as ([[st1 r1] b1] & Hmeth & [= -> -> ->]).
  destruct (call_delivered jc ca cr va ea vr er now proc a to cw p) as (pkt & Hpkt & Hcall); [done..|].
  destruct (req_packet_fits _ _ _ Hpkt Hsz) as [Hpb _]. exists pkt.
  split; [destruct (transported_exists pkt Hpb); eauto|].
  intros buf sz (-> & rest & ->)%transported_received; [|done].
  apply received_req in Hpkt as Hpkt'. destruct (req_packet_fits _ _ _ Hpkt' Hsz) as [_ Hpb'].
  destruct (dispatch_new js ca cr va ea vr er meth (next_header (cw_clt cw) proc) (received pkt) rest
    c sw a r b st') as (sw' & rpl & Ed & Hst & Hsent & Hrpl & _);
    try done; [by eapply next_header_ok|by right|].
  destruct (reply_packet_fits _ _ _ Hrpl Hrsz) as [Hrb _].
  exists sw', rpl. split_and!; try done; [destruct (transported_exists rpl Hrb); eauto|].
  intros buf' sz' silent now1 arr (-> & rest' & ->)%transported_received Htime; [|done].
  apply received_reply in Hrpl. destruct (reply_packet_fits _ _ _ Hrpl Hrsz) as [_ Hrb'].
  by apply (Hcall silent now1 arr b (received rpl) rest' r).
Qed.

(** C9: A remote procedure call works from end to end, for arguments and results of any
    types whose encodings are correct and whose packets stay below the 10 MB that a
    connection takes.  The client is bound to this server, connected and not being
    destroyed, retransmits (its nonce is not 0), its loss test is off; the server has not
    seen the request, its handler returns a status that is not negative, the connections
    stay up, freed list nodes keep their contents while the reply window is trimmed, and the
    clock and the timeout are as [in_time] says.  Then the request that the client sends,
    in whatever pieces it is written and read, makes the server run the method registered
    under that procedure number once, on the arguments of the call, and send one reply; and
    in whatever pieces that travels, and in whichever of the waits before the deadline it
    comes, after any signals, spurious wake-ups and waits that timed out, the call returns the
    method's status and result, and nothing but the one request was sent. *)
Theorem rpc_end_to_end `{Al : allocator, !KeepsFreed Al} {S A R} (jc js : nat → ascii) (ca : codec A) (cr : codec R)
    va ea vr er `{!CodecOK ca va ea, !CodecOK cr vr er} (meth : S → A → R → outcome (S * R * Z))
    now proc a r b st' to cw p (sw : world S) c :
  client_ready cw p → proc ≠ rpc_bind → va a → (24 + size (ea a) < max_packet)%Z →
  clt_nonce (cw_clt cw) ≠ 0%Z → srv_nonce (cw_clt cw) = s_nonce (w_srv sw) →
  fresh_request (next_header (cw_clt cw) proc) (s_windows (w_srv sw)) →
  s_procs (w_srv sw) !! i32 proc = Some (h1 ca cr meth) →
  remote Delivered meth (dflt cr) a (dflt cr) (w_st sw) = Ok (b, r, st') →
  (0 <= b < 2 ^ 31)%Z → vr r →
  (24 + size (er r) < max_packet)%Z → remembered_ok sw → usable c (w_conns sw) →
  ∃ pkt, (∃ buf sz, transported pkt buf sz) ∧
  ∀ buf sz, transported pkt buf sz → ∃ sw' rpl,
    dispatch js c buf sz sw = Ok sw' ∧ w_st sw' = st' ∧ w_sent sw' = w_sent sw ++ [(c, rpl)] ∧
    (∃ buf' sz', transported rpl buf' sz') ∧
    ∀ buf' sz' silent now1 arr, transported rpl buf' sz' → in_time now to silent now1 →
      ∃ cw', call jc ca cr now (reply_after silent now1 arr buf' sz') proc a (dflt cr) to cw = Ok (b, r, cw') ∧
        cw_sent cw' = cw_sent cw ++ [(p, pkt)].
Proof. intros. by apply (call_over_network jc js ca cr va ea vr er meth now proc a r b st' to cw p sw c). Qed.

(** *** The concrete service of the witnesses: a counter with an [add] method. *)
#[local] Existing Instance keeping.
Definition jz (n : nat) : ascii := NUL.
Definition ex_meth (st a r : Z) : outcome (Z * Z * Z) := Ok (st + a, st + a, 0)%Z.
Definition ex_conn : connection := Connection 3 false empty_charbuf empty_charbuf 10 0 0 1 0.
Definition ex_client : cworld :=
  CWorld (Rpcc 77 55 true 9 0 true true (Some 0) false ∅ [4; 6]%Z clear_request (-1))
    {[0 := ex_conn]} [].
Definition ex_server : world Z :=
  World (Rpcs 55 (Windows {[77%Z := [new_reply_t 5; new_reply_t 7]]} {[77 := 3]}%Z) ∅ 0 0 ∅ true
           {[4098%Z := h1 (int_codec jz) (int_codec jz) ex_meth]})
    {[1 := ex_conn]} 40%Z [].

Lemma ex_client_ready : client_ready ex_client 0.
Proof.
  split_and!; try done.
  - by exists ex_conn.
  - split_and!; [repeat constructor; discriminate|repeat constructor; discriminate|].
    simpl. rewrite !elem_of_cons, elem_of_nil. lia.
Qed.

Lemma ex_fresh : fresh_request (next_header (cw_clt ex_client) 4098) (s_windows (w_srv ex_server)).
Proof.
  split_and!.
  - split; vm_compute; repeat constructor.
  - by vm_compute.
  - by vm_compute.
  - change (xids _) with [5; 7]%Z. change (u32 _) with 9%Z.
    rewrite !elem_of_cons, elem_of_nil. lia.
Qed.

Lemma ex_remembered : remembered_ok ex_server.
Proof. intros clt c H. simpl in H. by rewrite lookup_empty in H. Qed.

Lemma ex_usable : usable 1 (w_conns ex_server).
Proof. by exists ex_conn. Qed.

Lemma rpc_end_to_end_witness :
  ∃ pkt buf sz sw' rpl buf' sz' cw',
    transported pkt buf sz ∧ dispatch jz 1 buf sz ex_server = Ok sw' ∧ w_st sw' = 42%Z ∧ w_sent sw' = [(1, rpl)] ∧
    transported rpl buf' sz' ∧
    call jz (int_codec jz) (int_codec jz) (Timespec 100 0)
      (reply_after [(Timespec 100 5, 2); (Timespec 101 6, 0)] (Timespec 103 7) (Late 1 false) buf' sz') 4098 2%Z 0%Z
      to_max ex_client = Ok (0%Z, 42%Z, cw') ∧
    cw_sent cw' = [(0, pkt)].
Proof.
  destruct (rpc_end_to_end (S:=Z) jz jz (int_codec jz) (int_codec jz) (λ x, is_i32 x) enc_int
           (λ x, is_i32 x) enc_int ex_meth (Timespec 100 0) 4098 2 42 0 42 to_max ex_client 0 ex_server 1)%Z
    as (pkt & (buf & sz & Ht) & Hd).
  - apply ex_client_ready.
  - discriminate.
  - lia.
  - reflexivity.
  - discriminate.
  - reflexivity.
  - apply ex_fresh.
  - reflexivity.
  - reflexivity.
  - lia.
  - lia.
  - reflexivity.
  - apply ex_remembered.
  - apply ex_usable.
  - destruct (Hd buf sz Ht) as (sw' & rpl & E & Hst & Hs & (buf' & sz' & Ht') & Hc).
    destruct (Hc buf' sz' [(Timespec 100 5, 2); (Timespec 101 6, 0)] (Timespec 103 7) (Late 1 false) Ht')
      as (cw' & Ec & Hcs).
    { split; [by split|]. split; [done|]. split; [done|].
      split; [exists (Timespec 220 0); split; [reflexivity|by split]|].
      split; [|by split]. by repeat split. }
    exists pkt, buf, sz, sw', rpl, buf', sz', cw'.
    split; [exact Ht|]. split; [exact E|]. split; [exact Hst|]. split; [exact Hs|]. split; [exact Ht'|].
    split; [exact Ec|exact Hcs].
Defined.

(** Retransmission is harmless: once a request was executed and answered, the
    same packet, arriving again on any connection while the client has not
    acknowledged the reply, is not executed again and is answered with the
    identical reply. *)
Theorem retransmission_same_reply `{Al : allocator, !KeepsFreed Al} {S A R} (js : nat → ascii) (ca : codec A) (cr : codec R)
    va ea vr er `{!CodecOK ca va ea, !CodecOK cr vr er} (meth : S → A → R → outcome (S * R * Z))
    h pkt rest c (w : world S) a r b st' :
  req_packet h (ea a) pkt → req_header_ok h → (size pkt < max_packet)%Z → va a →
  rq_srv_nonce h = 0%Z ∨ rq_srv_nonce h = s_nonce (w_srv w) →
  rq_clt_nonce h ≠ 0%Z → fresh_request h (s_windows (w_srv w)) →
  s_procs (w_srv w) !! rq_proc h = Some (h1 ca cr meth) →
  meth (w_st w) a (dflt cr) = Ok (st', r, b) → (0 <= b < 2 ^ 31)%Z → vr r →
  (24 + size (er r) < max_packet)%Z → remembered_ok w → usable c (w_conns w) →
  ∃ w1 rpl, dispatch js c (pkt ++ rest) (size pkt) w = Ok w1 ∧ w_st w1 = st' ∧
    w_sent w1 = w_sent w ++ [(c, rpl)] ∧
    ∀ rest2 c2 w2, s_windows (w_srv w2) = s_windows (w_srv w1) → s_nonce (w_srv w2) = s_nonce (w_srv w1) →
      s_procs (w_srv w2) = s_procs (w_srv w1) → remembered_ok w2 → usable c2 (w_conns w2) →
      ∃ w3, dispatch js c2 (pkt ++ rest2) (size pkt) w2 = Ok w3 ∧ w_st w3 = w_st w2 ∧
        w_sent w3 = w_sent w2 ++ [(c2, rpl)].
Proof.
  intros Hpkt Hh Hsz Ha Hsrv Hclt Hfresh Hproc Hmeth Hb Hr Hrsz Hrem Hc.
  destruct (dispatch_new js ca cr va ea vr er meth h pkt rest c w a r b st')
    as (w1 & rpl & E & Hst & Hsent & _ & Hrep & Hnonce & Hprocs); try done.
  exists w1, rpl. split_and!; [done..|]. intros rest2 c2 w2 Ew En Ep Hrem2 Hc2.
  apply (dispatch_done js h (ea a)); try done.
  - by rewrite En, Hnonce.
  - rewrite Ep, Hprocs, Hproc. eauto.
  - unfold replied in *. by rewrite Ew.
Qed.

Lemma retransmission_same_reply_witness :
  ∃ pkt w1 rpl, req_packet (next_header (cw_clt ex_client) 4098) (enc_int 2) pkt ∧
    dispatch jz 1 (pkt ++ []) (size pkt) ex_server = Ok w1 ∧ w_st w1 = 42%Z ∧ w_sent w1 = [(1, rpl)].
Proof.
  set (pkt := lit "size" ++ enc_req_header (next_header (cw_clt ex_client) 4098) ++ enc_int 2).
  assert (req_packet (next_header (cw_clt ex_client) 4098) (enc_int 2) pkt) as Hpkt
    by (by exists (lit "size")).
  destruct (retransmission_same_reply (S:=Z) jz (int_codec jz) (int_codec jz) (λ x, is_i32 x) enc_int
              (λ x, is_i32 x) enc_int ex_meth (next_header (cw_clt ex_client) 4098) pkt [] 1
              ex_server 2 42 0 42)%Z as (w1 & rpl & E & Hst & Hs & _).
  - exact Hpkt.
  - apply (next_header_ok _ 0), ex_client_ready.
  - reflexivity.
  - lia.
  - right. reflexivity.
  - discriminate.
  - apply ex_fresh.
  - reflexivity.
  - reflexivity.
  - lia.
  - lia.
  - reflexivity.
  - apply ex_remembered.
  - apply ex_usable.
  - exists pkt, w1, rpl. split; [exact Hpkt|]. split; [exact E|].
    split; [exact Hst|exact Hs].
Defined.

(** A request for an earlier instance of the server is refused. *)
Lemma stale_request_reply {Al : allocator} {S} (js : nat → ascii) h body pkt rest c (w : world S) :
  req_packet h body pkt → req_header_ok h → (size pkt < max_packet)%Z →
  rq_srv_nonce h ≠ 0%Z → rq_srv_nonce h ≠ s_nonce (w_srv w) → usable c (w_conns w) →
  ∃ rpl, dispatch js c (pkt ++ rest) (size pkt) w
         = Ok (World (w_srv w) (w_conns w) (w_st w) (w_sent w ++ [(c, rpl)])) ∧
    reply_packet (ReplyHeader (rq_xid h) oldsrv_failure) [] rpl.
Proof.
  intros Hpkt Hh Hsz Hs0 Hs1 (x & Hx & Hd & _).
  assert (max_packet < 2 ^ 31)%Z as Hmax by (unfold max_packet; lia).
  unfold dispatch. destruct (unpack_req_packet h body pkt rest) as (u & pre & -> & Hu); [done|done|lia|].
  run. assert (u_ok u = true) as -> by (by destruct Hu as (? & _ & _ & _ & _ & ?)). cbn [negb].
  destruct (Z.eqb_spec (rq_srv_nonce h) 0); [done|].
  destruct (Z.eqb_spec (rq_srv_nonce h) (s_nonce (w_srv w))); [done|]. cbn [negb andb].
  destruct (new_marshall_holds js) as (hd & Lhd & Hhd). rewrite <- (app_nil_r hd) in Hhd.
  destruct (pack_reply_header_holds js (ReplyHeader (rq_xid h) oldsrv_failure) _ hd [] Hhd Lhd)
    as (m & sz4 & pad & -> & L4 & L12 & Hm). run.
  destruct (holds_load _ _ Hm) as (b & Hb & Hl). unfold conn_send, conn_at, heap_at.
  rewrite Hx, Hb. run. unfold isdead. rewrite Hd. cbn [deref]. run. rewrite Hl. run. eexists. split; [done|].
  by exists sz4, pad.
Qed.

(** A request for an earlier instance of the server is refused and not executed,
    but on that path the reference the job holds on its connection is not given
    back: every count is what it was, so the connection object is never freed. *)
Theorem stale_request_keeps_reference {Al : allocator} {S} (js : nat → ascii) h body pkt rest c (w : world S) :
  req_packet h body pkt → req_header_ok h → (size pkt < max_packet)%Z →
  rq_srv_nonce h ≠ 0%Z → rq_srv_nonce h ≠ s_nonce (w_srv w) → usable c (w_conns w) →
  ∃ rpl, dispatch js c (pkt ++ rest) (size pkt) w
         = Ok (World (w_srv w) (w_conns w) (w_st w) (w_sent w ++ [(c, rpl)])) ∧
    reply_packet (ReplyHeader (rq_xid h) oldsrv_failure) [] rpl.
Proof. intros. by apply stale_request_reply with body. Qed.

Lemma stale_request_keeps_reference_witness :
  ∃ rpl, dispatch jz 1 (lit "size" ++ enc_req_header (ReqHeader 9 4098 77 54 4) ++ enc_int 2)
           28 ex_server
         = Ok (World (w_srv ex_server) (w_conns ex_server) 40%Z [(1, rpl)]).
Proof.
  destruct (stale_request_keeps_reference jz (ReqHeader 9 4098 77 54 4) (enc_int 2)
    (lit "size" ++ enc_req_header (ReqHeader 9 4098 77 54 4) ++ enc_int 2) [] 1 ex_server)
    as (rpl & E & _).
  - by exists (lit "size").
  - repeat split; simpl; lia.
  - reflexivity.
  - discriminate.
  - discriminate.
  - apply ex_usable.
  - exists rpl. exact E.
Defined.
