(* ===== verification/ServerRun.v ===== *)
(** * The running RPC server (class rpcs of rpc/rpc.cc with its listener and its pool)

    The threads of a server object interleaved: the thread that accepts connections, the
    poll manager's thread that hands requests to [got_pdu], the workers of the dispatch
    pool, each somewhere in [dispatch], and the thread that runs the destructor
    [rpcs::~rpcs].  A step is a critical section or a call of another object; a worker in
    [connection::send] may be blocked there.  The
    connections are the reference-counted objects of Connection.v, the listener is that
    of Acceptor.v, the pool that of ThrPool.v and the dispatcher's operations those of
    RpcServer.v, which [dispatch] runs in one piece.

    [reachable_] is true throughout (rpctest alone changes it), and the code of a handler
    runs in one step on the state of its service. *)

From stdpp Require Import base tactics numbers list gmap sets sorting relations.
From Stdlib Require Import ZArith Lia Ascii.
From S2P Require Import Prelude CxxString Fifo ThrPool Marshall Connection ConnRefs Acceptor RpcServer RpcCall.

Section run.
Context {Al : allocator} `{!KeepsFreed Al} {S : Type} (junk : nat → ascii).
Implicit Types (w : world S) (c : nat) (h : conn_heap).

(** [rpcs::djob_t] *)
Record djob_t := DJob { dj_conn : nat; dj_buf : bytes; dj_sz : Z }.

(** ** The dispatcher, section by section *)

(** Where a worker is in [rpcs::dispatch]: the next section it runs.  It owns a reference
    to the connection [c] up to [DDrop].  [own] is the buffer of the reply window that
    is sent, by the number it was allocated with; [drop] is false where the code returns
    without [decref].  [DBlocked] is a wait in [connection::send], for the connection to be
    free or for the poll manager to write out the reply; [DSent] is before its return. *)
Inductive dphase :=
  | DStart (j : djob_t)
  | DSave c (hd : req_header) (req : unmarshall) (f : handler S)
  | DCheck c (hd : req_header) (req : unmarshall) (f : handler S)
  | DCall c (hd : req_header) (req : unmarshall) (f : handler S)
  | DAdd c (hd : req_header) (n : nat) (b : option bytes) (sz : Z)
  | DLatest c (hd : req_header) (own : option nat) (b : option bytes) (sz : Z)
  | DSend c (own : option nat) (b : option bytes) (sz : Z) (drop : bool)
  | DBlocked c (own : option nat) (drop : bool)
  | DSent c (own : option nat) (drop : bool)
  | DDrop c
  | DEnd.

(** The reply buffers on the heap: the one of each window entry, by client and xid, those
    that were freed, and the number of the next one. *)
Record bufs := Bufs { b_of : gmap (Z * Z) nat; b_freed : gset nat; b_next : nat }.

(** The buffers that [checkduplicate_and_update] frees for a NEW request that
    acknowledges up to [rep]. *)
Definition trimmed (clt rep : Z) (l : list reply_t) (B : bufs) : list nat :=
  omap (λ r, if (r_xid r <=? rep)%Z && bool_decide (is_Some (r_buf r)) then b_of B !! (clt, r_xid r) else None) l.

Definition free_bufs (ns : list nat) (B : bufs) : bufs := Bufs (b_of B) (list_to_set ns ∪ b_freed B) (b_next B).

(** One section of [rpcs::dispatch].  Sending a freed buffer is undefined. *)
Definition sect (d : dphase) (s : world S * bufs) : outcome (dphase * (world S * bufs)) :=
  let '(w, B) := s in
  match d with
  | DStart (DJob c buf sz) =>
      '(hd, req) ← unpack_req_header (unmarshall_of buf sz);
      if negb (u_ok req) then Ok (DDrop c, s)
      else if negb (rq_srv_nonce hd =? 0)%Z && negb (rq_srv_nonce hd =? s_nonce (w_srv w))%Z then
        rep ← pack_reply_header junk (ReplyHeader (rq_xid hd) oldsrv_failure) (new_marshall junk);
        Ok (DSend c None (m_buf rep) (m_ind rep) false, s)
      else
        match s_procs (w_srv w) !! rq_proc hd with
        | None => conn_decref c w;; Fault VerifyFailed
        | Some f => Ok (if (rq_clt_nonce hd =? 0)%Z then DCall c hd req f else DSave c hd req f, s)
        end
  | DSave c hd req f => w ← save_conn (rq_clt_nonce hd) c w; Ok (DCheck c hd req f, (w, B))
  | DCheck c hd req f =>
      let clt := rq_clt_nonce hd in
      '(stat, b1, win, _) ← checkduplicate_and_update clt (u32 (rq_xid hd)) (u32 (rq_xid_rep hd)) (s_windows (w_srv w));
      let w' := set_srv w (set_windows (w_srv w) win) in
      match stat with
      | NEW => Ok (DCall c hd req f,
                   (w', free_bufs (trimmed clt (u32 (rq_xid_rep hd)) (replies clt (s_windows (w_srv w))) B) B))
      | INPROGRESS => Ok (DDrop c, (w', B))
      | DONE => '(b, sz) ← deref b1; Ok (DSend c (b_of B !! (clt, u32 (rq_xid hd))) b sz true, (w', B))
      | FORGOTTEN =>
          rep ← pack_reply_header junk (ReplyHeader (rq_xid hd) atmostonce_failure) (new_marshall junk);
          Ok (DSend c None (m_buf rep) (m_ind rep) true, (w', B))
      end
  | DCall c hd req f =>
      let w := if (s_counting (w_srv w) =? 0)%Z then w else set_srv w (updatestat (rq_proc hd) (w_srv w)) in
      '(ret, rep, st) ← f (w_st w) req (new_marshall junk);
      VERIFY (negb (ret =? unmarshal_args_failure)%Z);;
      VERIFY (ret >=? 0)%Z;;
      rep ← pack_reply_header junk (ReplyHeader (rq_xid hd) ret) rep;
      let '((b1, sz1), rep) := take_buf rep in
      Ok (DAdd c hd (b_next B) b1 sz1, (set_st w st, Bufs (b_of B) (b_freed B) (b_next B + 1)))
  | DAdd c hd n b sz =>
      let clt := rq_clt_nonce hd in
      let xid := u32 (rq_xid hd) in
      if (clt >? 0)%Z then
        let win := s_windows (w_srv w) in
        let w' := set_srv w (set_windows (w_srv w) (add_reply clt xid b sz win)) in
        if bool_decide (xid ∈ xids (replies clt win))
        then Ok (DLatest c hd (Some n) b sz, (w', Bufs (<[(clt, xid) := n]> (b_of B)) (b_freed B) (b_next B)))
        else Ok (DLatest c hd None b sz, (w', B))
      else Ok (DLatest c hd None b sz, s)
  | DLatest c hd own b sz => '(c', w) ← reply_conn (rq_clt_nonce hd) c w; Ok (DSend c' own b sz true, (w, B))
  | DSend c own b sz drop =>
      match own with
      | Some n => if bool_decide (n ∈ b_freed B) then Fault OutOfBounds else Ok ()
      | None => Ok ()
      end;;
      w ← conn_send c b sz w;
      Ok (DSent c own drop, (w, B))
  | DBlocked c own drop => Ok (DBlocked c own drop, s)
  | DSent c own drop => Ok (if drop then DDrop c else DEnd, s)
  | DDrop c => w ← conn_decref c w; Ok (DEnd, (w, B))
  | DEnd => Ok (DEnd, s)
  end.

(** A worker that is blocked or through has no next section. *)
Definition stops (d : dphase) : bool := match d with DBlocked _ _ _ | DEnd => true | _ => false end.

(** The waits on the connection [c] end when a read or a write on it fails. *)
Definition wake c (d : dphase) : dphase :=
  match d with DBlocked c' own drop => if decide (c' = c) then DSent c' own drop else d | d => d end.

(** The sections of one worker with nobody else between them. *)
Fixpoint sects (n : nat) (d : dphase) (s : world S * bufs) : outcome (world S * bufs) :=
  match d, n with
  | DEnd, _ => Ok s
  | _, O => Fault NoFuel
  | _, Datatypes.S n => '(d, s) ← sect d s; sects n d s
  end.

(** Buffers are numbered in order, an entry of the window has one of its own, and it is
    not freed as long as the entry is in the window. *)
Record bufs_ok (win : windows) (B : bufs) : Prop := BufsOk {
  bo_freed n : n ∈ b_freed B → n < b_next B;
  bo_next k n : b_of B !! k = Some n → n < b_next B;
  bo_inj k k' n : b_of B !! k = Some n → b_of B !! k' = Some n → k = k';
  bo_live clt r n : r ∈ replies clt win → r_cb_present r = true → b_of B !! (clt, r_xid r) = Some n → n ∉ b_freed B }.

Lemma trimmed_in clt rep l B n : n ∈ trimmed clt rep l B →
  ∃ r, r ∈ l ∧ (r_xid r <= rep)%Z ∧ is_Some (r_buf r) ∧ b_of B !! (clt, r_xid r) = Some n.
Proof.
  unfold trimmed. intros (r & Hr & E)%list_elem_of_omap. exists r.
  destruct (Z.leb_spec (r_xid r) rep); [|done]. simpl in E. by case_bool_decide.
Qed.

Lemma scan_window_DONE xid l ret b b' : scan_window xid l ret b = (DONE, b') → ret ≠ DONE →
  ∃ r, r ∈ l ∧ r_cb_present r = true ∧ r_xid r = xid.
Proof.
  revert ret b. induction l as [|r l IH]; intros ret b; simpl; [congruence|]. intros E Hne.
  destruct (Z.eqb_spec xid (r_xid r)) as [->|]; [destruct (r_cb_present r) eqn:Ep|].
  - exists r. split; [by left|done].
  - edestruct IH as (r' & ? & ?); [exact E|done|]. exists r'. split; [by right|done].
  - edestruct IH as (r' & ? & ?); [exact E|done|]. exists r'. split; [by right|done].
Qed.

Lemma check_DONE clt xid rep win b1 win' fr :
  checkduplicate_and_update clt xid rep win = Ok (DONE, b1, win', fr) →
  ∃ r, r ∈ replies clt win ∧ r_cb_present r = true ∧ r_xid r = xid.
Proof.
  unfold checkduplicate_and_update. destruct (replies clt win) as [|r0 l] eqn:El.
  - rewrite decide_True by done. intros ([? ?] & _ & [=])%bind_Ok.
  - rewrite <- El. destruct (xid <=? _)%Z; [rewrite decide_False by done; intros [=]|].
    destruct (scan_window _ _ _ _) as [st b] eqn:Esc. case_decide as Hd.
    + intros ([? ?] & _ & [=])%bind_Ok. congruence.
    + intros [= -> _ _ _]. by eapply scan_window_DONE.
Qed.

Lemma sects_step n d s : d ≠ DEnd → sects (Datatypes.S n) d s = ('(d, s) ← sect d s; sects n d s).
Proof. by destruct d. Qed.
Lemma sects_end n s : sects n DEnd s = Ok s.
Proof. by destruct n. Qed.

(** The last sections: the reply is sent and the reference given back. *)
Lemma sects_drop n c w B : (s ← sects (Datatypes.S n) (DDrop c) (w, B); Ok s.1) = conn_decref c w.
Proof. rewrite sects_step by done. simpl. destruct (conn_decref c w); run; [|done]. by rewrite sects_end. Qed.

Lemma sects_send n c own b sz w B : (∀ k, own = Some k → k ∉ b_freed B) →
  (s ← sects (3 + n) (DSend c own b sz true) (w, B); Ok s.1)
  = (w ← conn_send c b sz w; conn_decref c w).
Proof.
  intros Hown. change (3 + n) with (Datatypes.S (2 + n)). rewrite sects_step by done. cbn [sect].
  assert (match own with Some n => if bool_decide (n ∈ b_freed B) then Fault OutOfBounds else Ok () | None => Ok () end = Ok ()) as ->.
  { destruct own; [|done]. rewrite bool_decide_false by auto. done. }
  run. destruct (conn_send c b sz w); run; [|done]. change (2 + n) with (Datatypes.S (1 + n)).
  rewrite sects_step by done. cbn [sect]. run. apply sects_drop.
Qed.

(** From the handler on. *)
Lemma sects_call n c hd req f w B :
  (∀ k, k ∈ b_freed B → k < b_next B) →
  (s ← sects (6 + n) (DCall c hd req f) (w, B); Ok s.1)
  = ('(c, w) ←
       (let w := if (s_counting (w_srv w) =? 0)%Z then w else set_srv w (updatestat (rq_proc hd) (w_srv w)) in
        '(ret, rep, st) ← f (w_st w) req (new_marshall junk);
        VERIFY (negb (ret =? unmarshal_args_failure)%Z);;
        VERIFY (ret >=? 0)%Z;;
        rep ← pack_reply_header junk (ReplyHeader (rq_xid hd) ret) rep;
        let '((b1, sz1), rep) := take_buf rep in
        let w := set_st w st in
        let w := if (rq_clt_nonce hd >? 0)%Z
                 then set_srv w (set_windows (w_srv w) (add_reply (rq_clt_nonce hd) (u32 (rq_xid hd)) b1 sz1 (s_windows (w_srv w))))
                 else w in
        '(c', w) ← reply_conn (rq_clt_nonce hd) c w;
        w ← conn_send c' b1 sz1 w;
        Ok (c', w));
     conn_decref c w).
Proof.
  intros Hfr. change (6 + n) with (Datatypes.S (5 + n)). rewrite sects_step by done. cbn [sect]. cbv zeta.
  set (w1 := if _ : bool then w else _). destruct (f (w_st w1) req _) as [[[ret rep] st]|]; run; [|done].
  destruct (negb _); run; [|done]. destruct (ret >=? 0)%Z; run; [|done].
  destruct (pack_reply_header _ _ rep) as [rep'|]; run; [|done]. destruct (take_buf rep') as [[b1 sz1] rep2].
  run. change (5 + n) with (Datatypes.S (4 + n)). rewrite sects_step by done. cbn [sect b_of b_freed b_next].
  assert (∀ w2 own B2, (∀ k, own = Some k → k ∉ b_freed B2) →
    (s ← sects (4 + n) (DLatest c hd own b1 sz1) (w2, B2); Ok s.1)
    = ('(c, w) ← ('(c', w) ← reply_conn (rq_clt_nonce hd) c w2; w ← conn_send c' b1 sz1 w; Ok (c', w)); conn_decref c w)) as Hlat.
  { intros w2 own B2 Hown. change (4 + n) with (Datatypes.S (3 + n)). rewrite sects_step by done. cbn [sect].
    destruct (reply_conn _ _ w2) as [[c' w3]|]; run; [|done]. rewrite (sects_send n) by done. by destruct (conn_send _ _ _ _). }
  destruct (rq_clt_nonce hd >? 0)%Z; [case_bool_decide|]; run; apply Hlat; try done.
  intros k [= <-] Hk%Hfr. simpl in Hk. lia.
Qed.

(** What [save_conn] changes. *)
Lemma save_conn_frame clt c w w' : save_conn clt c w = Ok w' →
  ∃ cs h, w' = World (set_conns (w_srv w) cs) h (w_st w) (w_sent w).
Proof.
  unfold save_conn, conn_incref, conn_decref, set_heap, set_srv. intros H. repeat case_match; simplify_eq/=.
  - apply bind_Ok in H as (xo & _ & H). apply bind_Ok in H as (xc & _ & H). case_match; [|simplify_eq; destruct w' as [[] ? ? ?]; simpl; eauto].
    apply bind_Ok in H as (w1 & (h1 & _ & [= <-])%bind_Ok & H). apply bind_Ok in H as (w2 & (h2 & _ & [= <-])%bind_Ok & [= <-]). simpl. eauto.
  - apply bind_Ok in H as (w1 & (h1 & _ & [= <-])%bind_Ok & [= <-]). simpl. eauto.
Qed.

(** Run without interruption, the sections are [dispatch]. *)
Lemma dispatch_sections c buf sz w B : bufs_ok (s_windows (w_srv w)) B →
  (s ← sects 9 (DStart (DJob c buf sz)) (w, B); Ok s.1) = dispatch junk c buf sz w.
Proof.
  intros [Hfr Hnx Hinj Hlive]. rewrite sects_step by done. unfold dispatch. cbn [sect].
  destruct (unpack_req_header _) as [[hd req]|]; run; [|done].
  destruct (u_ok req); cbn [negb]; run; [|apply sects_drop].
  destruct (_ && _).
  { destruct (pack_reply_header _ _ _) as [rep|]; run; [|done]. rewrite sects_step by done. cbn [sect]. run.
    destruct (conn_send _ _ _ _); run; [|done]. rewrite sects_step by done. cbn [sect]. run. by rewrite sects_end. }
  destruct (s_procs (w_srv w) !! rq_proc hd) as [f|]; run; [|by destruct (conn_decref c w)].
  destruct (rq_clt_nonce hd =? 0)%Z eqn:Ez; cbn [negb]; run.
  { apply (sects_call 2). done. }
  rewrite sects_step by done. cbn [sect]. destruct (save_conn _ c w) as [w1|] eqn:Es; run; [|done].
  assert (s_windows (w_srv w1) = s_windows (w_srv w)) as Hw1 by (by apply save_conn_frame in Es as (cs & h & ->)).
  rewrite <- Hw1 in *. rewrite sects_step by done. cbn [sect].
  destruct (checkduplicate_and_update _ _ _ _) as [[[[stat b1] win] fr]|] eqn:Ec; run; [|done]. destruct stat; run.
  - rewrite (sects_call 0); [done|]. simpl. intros k [Hk|Hk]%elem_of_union; [|by apply Hfr].
    apply elem_of_list_to_set, trimmed_in in Hk as (r & _ & _ & _ & Hk). by eapply Hnx.
  - apply (sects_drop 5).
  - destruct b1 as [[b sz1]|]; run; [|done]. cbn [deref]. run. rewrite (sects_send 3).
    + by destruct (conn_send _ _ _ _).
    + simpl. intros k Hk. apply check_DONE in Ec as (r & Hr & Hp & Hx). rewrite <- Hx in Hk. by eapply Hlive.
  - destruct (pack_reply_header _ _ _) as [rep|]; run; [|done]. rewrite (sects_send 3) by done. by destruct (conn_send _ _ _ _).
Qed.

(** ** The dispatcher's operations on counted connections *)

(** The worker's reference is [c]; the other references are those of the map of latest
    connections and [R]. *)
Lemma save_conn_refs_inv clt c w ls R : refs_inv (w_conns w) ls (c :: vals (s_conns (w_srv w)) ++ R) →
  ∃ cs h, save_conn clt c w = Ok (World (set_conns (w_srv w) cs) h (w_st w) (w_sent w)) ∧
    refs_inv h ls (c :: vals cs ++ R) ∧ descends (w_conns w) h ∧ is_Some (cs !! clt) ∧
    ∀ clt', is_Some (s_conns (w_srv w) !! clt') → is_Some (cs !! clt').
Proof.
  intros Hi. unfold save_conn, conn_incref, conn_decref, conn_at. set (cs := s_conns (w_srv w)) in *.
  destruct (cs !! clt) as [old|] eqn:Eo.
  - rewrite (vals_delete _ _ _ Eo) in Hi.
    destruct (refs_inv_at _ _ _ old Hi) as (xo & Hxo & ->); [set_solver|]. run.
    destruct (refs_inv_at _ _ _ c Hi) as (xc & Hxc & ->); [set_solver|]. run.
    destruct (compare xo xc <? 0)%Z.
    + destruct (refs_inv_decref (w_conns w) ls (c :: vals (delete clt cs) ++ R) old) as (h1 & -> & Hi1 & Hd1).
      { eapply refs_inv_perm; [done..|solve_Permutation]. } run.
      destruct (refs_inv_incref _ _ _ c Hi1) as (h2 & E2 & Hi2 & Hd2); [set_solver|]. cbn [w_conns set_heap]. rewrite E2. run.
      exists (<[clt := c]> cs), h2. split_and!; [done| |by etrans| |].
      * eapply refs_inv_perm; [done..|rewrite vals_insert_delete; solve_Permutation].
      * rewrite lookup_insert_eq. eauto.
      * intros clt' Hc. destruct (decide (clt' = clt)) as [->|]; [rewrite lookup_insert_eq; eauto|by rewrite lookup_insert_ne].
    + exists cs, (w_conns w). split_and!; [by destruct w as [[] ? ? ?]| |done|by eauto|done].
      eapply refs_inv_perm; [done..|]. by rewrite (vals_delete _ _ _ Eo).
  - destruct (refs_inv_incref _ _ _ c Hi) as (h & -> & Hi1 & Hd1); [set_solver|]. run. simpl.
    exists (<[clt := c]> cs), h. split_and!; [done| |done| |].
    + eapply refs_inv_perm; [done..|rewrite vals_insert by done; solve_Permutation].
    + rewrite lookup_insert_eq. eauto.
    + intros clt' Hc. destruct (decide (clt' = clt)) as [->|]; [rewrite lookup_insert_eq; eauto|by rewrite lookup_insert_ne].
Qed.

Lemma reply_conn_refs_inv clt c w ls R : refs_inv (w_conns w) ls (c :: vals (s_conns (w_srv w)) ++ R) →
  is_Some (s_conns (w_srv w) !! clt) →
  ∃ c' h, reply_conn clt c w = Ok (c', set_heap w h) ∧ refs_inv h ls (c' :: vals (s_conns (w_srv w)) ++ R) ∧ descends (w_conns w) h.
Proof.
  intros Hi [l El]. unfold reply_conn, conn_incref, conn_decref, conn_at.
  destruct (refs_inv_at _ _ _ c Hi) as (x & Hx & ->); [set_solver|]. run. rewrite El. destruct (_ && _).
  - destruct (refs_inv_decref _ _ _ _ Hi) as (h1 & -> & Hi1 & Hd1). run. cbn [w_srv set_heap]. rewrite El. cbn [deref]. run.
    assert (l ∈ vals (s_conns (w_srv w))) as Hl by (apply elem_of_vals; eauto).
    destruct (refs_inv_incref _ _ _ l Hi1) as (h2 & E2 & Hi2 & Hd2); [set_solver|]. cbn [w_conns set_heap]. rewrite E2. run.
    exists l, h2. split_and!; [done..|by etrans].
  - exists c, (w_conns w). by destruct w.
Qed.

Lemma conn_send_refs_inv c b sz w ls rs : refs_inv (w_conns w) ls rs → c ∈ ls ++ rs → sendable b sz →
  ∃ out, conn_send c b sz w = Ok (World (w_srv w) (w_conns w) (w_st w) out).
Proof.
  intros Hi Hc (bs & p & -> & Hl). unfold conn_send, conn_at. destruct (refs_inv_at _ _ _ c Hi Hc) as (x & _ & ->). run.
  destruct (isdead x); [destruct w; eauto|]. cbn [deref]. run. rewrite Hl. run. eauto.
Qed.

(** ** The server's threads *)

(** A call that the registered function [f] can serve: the client has a nonce, it does not
    acknowledge its own request, and the function returns whatever the service's state. *)
Definition call_ok (hd : req_header) (req : unmarshall) (f : handler S) : Prop :=
  (0 < rq_clt_nonce hd)%Z ∧ (u32 (rq_xid_rep hd) < u32 (rq_xid hd))%Z ∧
  ∀ st, ∃ ret rep st' pre body, f st req (new_marshall junk) = Ok (ret, rep, st') ∧ (0 <= ret)%Z ∧
    holds rep (pre ++ body) ∧ length pre = 24.

(** A packet whose header does not unpack, one for an earlier instance of the server, or
    a call that can be served. *)
Definition job_ok (s : rpcs S) (j : djob_t) : Prop :=
  ∃ hd req, unpack_req_header (unmarshall_of (dj_buf j) (dj_sz j)) = Ok (hd, req) ∧
    (u_ok req = false ∨
     (rq_srv_nonce hd ≠ 0%Z ∧ rq_srv_nonce hd ≠ s_nonce s) ∨
     ((rq_srv_nonce hd = 0%Z ∨ rq_srv_nonce hd = s_nonce s) ∧
      ∃ f, s_procs s !! rq_proc hd = Some f ∧ call_ok hd req f)).

(** How far the destructor is: [Closing] the connections of these descriptors still,
    [Draining] the pool. *)
Inductive stage := Serving | Closing (fds : list Z) | Draining | Freed.

(** The server object and its threads: [u_accept] is the accepting thread inside
    [process_accept], with the new connection and the descriptors it has still to look
    at; [u_at] says where the workers are.  For the properties: the references that
    nobody will give back, the operations on the reply window and the handler runs. *)
Record run := Run {
  u_w : world S; u_bufs : bufs; u_tcps : tcpsconn; u_accept : option (nat * list Z);
  u_pool : pool () djob_t; u_at : gmap nat dphase; u_stage : stage;
  u_leaked : list nat; u_trace : list (Z * win_event); u_execs : list (Z * Z) }.

Definition leaks (d : dphase) : list nat := match d with DSent c _ false => [c] | _ => [] end.
Definition events (d : dphase) : list (Z * win_event) :=
  match d with
  | DCheck _ hd _ _ => [(rq_clt_nonce hd, Request (u32 (rq_xid hd)) (u32 (rq_xid_rep hd)))]
  | DAdd _ hd _ b sz => if (rq_clt_nonce hd >? 0)%Z then [(rq_clt_nonce hd, Replied (u32 (rq_xid hd)) b sz)] else []
  | _ => []
  end.
Definition execs (d : dphase) : list (Z * Z) :=
  match d with DCall _ hd _ _ => [(rq_clt_nonce hd, u32 (rq_xid hd))] | _ => [] end.

(** The buffers that [free_reply_window] frees. *)
Definition window_bufs (win : windows) (B : bufs) : list nat :=
  '(clt, l) ← map_to_list (reply_window win);
  omap (λ r, if bool_decide (is_Some (r_buf r)) then b_of B !! (clt, r_xid r) else None) l.

Inductive srv_step : run → run → Prop :=
  (** process_accept: a new connection, the dead ones collected, the new one listed *)
  | s_accept s1 c tvs tvu w B tc po at_ lk tr ex :
      (0 <= s1)%Z → w_conns w !! c = None → (∀ c' x, w_conns w !! c' = Some x → c_fd x ≠ s1) →
      srv_step (Run w B tc None po at_ Serving lk tr ex)
        (Run (set_heap w (<[c := (new_connection s1 (ts_lossy tc) tvs tvu).1]> (w_conns w))) B tc
           (Some (c, keys_in_order (conns_ tc))) po at_ Serving lk tr ex)
  | s_collect c fd fds conns h w B tc po at_ lk tr ex :
      collect_dead [fd] (conns_ tc) (w_conns w) = Ok (conns, h) →
      srv_step (Run w B tc (Some (c, fd :: fds)) po at_ Serving lk tr ex)
        (Run (set_heap w h) B (TcpsConn conns (ts_lossy tc)) (Some (c, fds)) po at_ Serving lk tr ex)
  | s_accepted c x w B tc po at_ lk tr ex :
      w_conns w !! c = Some x →
      srv_step (Run w B tc (Some (c, [])) po at_ Serving lk tr ex)
        (Run w B (TcpsConn (<[c_fd x := c]> (conns_ tc)) (ts_lossy tc)) None po at_ Serving lk tr ex)
  (** a request arrives on an open connection: got_pdu, with the pool's answer *)
  | s_pdu x j w w' B tc ac q q' ws ad rn at_ st lk tr ex :
      w_conns w !! dj_conn j = Some x → c_dead x = false → job_ok (w_srv w) j →
      addJob false () j q = Added q' → got_pdu true (dj_conn j) w = Ok (true, w') →
      srv_step (Run w B tc ac (Pool q ws None ad rn) at_ st lk tr ex)
        (Run w' B tc ac (Pool q' ws None (ad ++ [Job (Some ()) j]) rn) at_ st lk tr ex)
  | s_pdu_full x j w w' B tc ac q ws ad rn at_ st lk tr ex :
      w_conns w !! dj_conn j = Some x → c_dead x = false →
      addJob false () j q = Refused → got_pdu false (dj_conn j) w = Ok (false, w') →
      srv_step (Run w B tc ac (Pool q ws None ad rn) at_ st lk tr ex)
        (Run w' B tc ac (Pool q ws None ad rn) at_ st lk tr ex)
  (** a read or a write fails *)
  | s_die c x w B tc ac po at_ st lk tr ex :
      w_conns w !! c = Some x → c_dead x = false →
      srv_step (Run w B tc ac po at_ st lk tr ex)
        (Run (set_heap w (<[c := set_dead x]> (w_conns w))) B tc ac po (wake c <$> at_) st lk tr ex)
  (** a worker has to wait in send, and its wait ends: its turn comes, or the poll
      manager has written out what it sends; [closeconn] does not end it *)
  | s_block t c own drop x w B tc ac po at_ st lk tr ex :
      at_ !! t = Some (DSent c own drop) → w_conns w !! c = Some x → c_dead x = false →
      srv_step (Run w B tc ac po at_ st lk tr ex)
        (Run w B tc ac po (<[t := DBlocked c own drop]> at_) st lk tr ex)
  | s_written t c own drop x w B tc ac po at_ st lk tr ex :
      at_ !! t = Some (DBlocked c own drop) → w_conns w !! c = Some x → c_dead x = false →
      (∀ n, own = Some n → n ∉ b_freed B) →
      srv_step (Run w B tc ac po at_ st lk tr ex)
        (Run w B tc ac po (<[t := DSent c own drop]> at_) st lk tr ex)
  (** the workers *)
  | s_take t j w B tc ac q q' ws l ad rn at_ st lk tr ex :
      ws !! t = Some Idle → takeJob q = Some (true, j, q') →
      srv_step (Run w B tc ac (Pool q ws l ad rn) at_ st lk tr ex)
        (Run w B tc ac (Pool q' (<[t := Running j]> ws) l ad rn) (<[t := DStart (j_a j)]> at_) st lk tr ex)
  | s_sect t d d' w w' B B' tc ac po at_ st lk tr ex :
      at_ !! t = Some d → stops d = false → sect d (w, B) = Ok (d', (w', B')) →
      srv_step (Run w B tc ac po at_ st lk tr ex)
        (Run w' B' tc ac po (<[t := d']> at_) st (leaks d ++ lk) (tr ++ events d) (execs d ++ ex))
  | s_return t j w B tc ac q ws l ad rn at_ st lk tr ex :
      ws !! t = Some (Running j) → at_ !! t = Some DEnd →
      srv_step (Run w B tc ac (Pool q ws l ad rn) at_ st lk tr ex)
        (Run w B tc ac (Pool q (<[t := Idle]> ws) l ad (rn ++ [j])) (delete t at_) st lk tr ex)
  (** ~rpcs: the accepting thread is joined, the connections are closed, the pool is
      deleted and the reply window freed *)
  | s_destroy w B tc po at_ lk tr ex :
      srv_step (Run w B tc None po at_ Serving lk tr ex)
        (Run w B tc None po at_ (Closing (keys_in_order (conns_ tc))) lk tr ex)
  | s_close fd fds h acts w B tc ac po at_ lk tr ex :
      close_all [fd] (conns_ tc) (w_conns w) [] = Ok (h, acts) →
      srv_step (Run w B tc ac po at_ (Closing (fd :: fds)) lk tr ex)
        (Run (set_heap w h) B tc ac po at_ (Closing fds) lk tr ex)
  | s_drain w B tc ac q ws ad rn at_ lk tr ex :
      srv_step (Run w B tc ac (Pool q ws None ad rn) at_ (Closing []) lk tr ex)
        (Run w B tc ac (Pool q ws (Some (length ws)) ad rn) at_ Draining lk tr ex)
  | s_pill a k w B tc ac q q' ws ad rn at_ st lk tr ex :
      enq_look (pill a) q = Some q' →
      srv_step (Run w B tc ac (Pool q ws (Some (Datatypes.S k)) ad rn) at_ st lk tr ex)
        (Run w B tc ac (Pool q' ws (Some k) ad rn) at_ st lk tr ex)
  | s_exit t j w B tc ac q q' ws l ad rn at_ st lk tr ex :
      ws !! t = Some Idle → takeJob q = Some (false, j, q') →
      srv_step (Run w B tc ac (Pool q ws l ad rn) at_ st lk tr ex)
        (Run w B tc ac (Pool q' (<[t := Exited]> ws) l ad rn) at_ st lk tr ex)
  | s_free w B tc ac po at_ lk tr ex :
      deleted po →
      srv_step (Run w B tc ac po at_ Draining lk tr ex)
        (Run (set_srv w (set_windows (w_srv w) (free_reply_window (s_windows (w_srv w)))))
           (free_bufs (window_bufs (s_windows (w_srv w)) B) B) tc ac po at_ Freed lk tr ex).

(** [rpcs::rpcs]: six workers that may refuse jobs, a listener without connections. *)
Definition srv_start (s : rpcs S) (st : S) (lossy : Z) : run :=
  Run (World s ∅ st []) (Bufs ∅ ∅ 0) (TcpsConn ∅ lossy) None (new_pool 6) ∅ Serving [] [] [].

(** A server as its constructor and the registrations leave it. *)
Definition fresh_server (s : rpcs S) : Prop :=
  s_windows s = Windows ∅ ∅ ∧ s_conns s = ∅ ∧ s_reachable s = true.

(** ** All the references *)
Definition holds_ref (d : dphase) : list nat :=
  match d with
  | DStart j => [dj_conn j]
  | DSave c _ _ _ | DCheck c _ _ _ | DCall c _ _ _ | DAdd c _ _ _ _ | DLatest c _ _ _ _ | DSend c _ _ _ _ | DBlocked c _ _ | DSent c _ _ | DDrop c => [c]
  | DEnd => []
  end.
Definition worker_refs (at_ : gmap nat dphase) : list nat := vals at_ ≫= holds_ref.
Definition queued (q : list (job_t () djob_t)) : list djob_t :=
  omap (λ j, match j_f j with Some _ => Some (j_a j) | None => None end) q.
Definition listed (u : run) : list nat :=
  match u_stage u with
  | Serving => vals (conns_ (u_tcps u))
  | Closing fds => omap (conns_ (u_tcps u) !!.) fds
  | _ => []
  end.
Definition accepting (u : run) : list nat := match u_accept u with Some (c, _) => [c] | None => [] end.
Definition other_refs (u : run) : list nat :=
  worker_refs (u_at u) ++ (dj_conn <$> queued (q_ (p_jobq (u_pool u)))) ++
  vals (s_conns (w_srv (u_w u))) ++ u_leaked u.

(** ** The reply windows *)
Definition windows_ok (win : windows) : Prop := ∀ clt,
  window_ok (bound clt win) (replies clt win) ∧
  ∀ r, r ∈ replies clt win → r_cb_present r = true → sendable (r_buf r) (r_sz r).

Lemma check_windows_ok clt xid rep win : windows_ok win → (rep < xid)%Z →
  ∃ st b1 win' fr, checkduplicate_and_update clt xid rep win = Ok (st, b1, win', fr) ∧ windows_ok win' ∧
    (st = DONE → ∃ b sz, b1 = Some (b, sz) ∧ sendable b sz).
Proof.
  intros Hw Hrep. destruct (check_cases clt xid rep win (proj1 (Hw clt)) Hrep) as (st & b1 & win' & fr & E & Hv & Hok).
  exists st, b1, win', fr. split_and!; [done| |].
  - intros clt'. destruct (decide (clt' = clt)) as [->|Hne].
    + split; [done|]. intros r Hr Hp. destruct st; cbn [verdict_ok] in Hv;
        [|destruct Hv as (_ & _ & _ & El); rewrite El in Hr; by apply (Hw clt)..].
      destruct Hv as (_ & _ & El). rewrite El in Hr. apply list_elem_of_filter in Hr as [_ Hr].
      rewrite insert_reply_perm in Hr. apply elem_of_cons in Hr as [->|Hr]; [done|by apply (Hw clt)].
    + destruct (check_frame _ _ _ _ _ _ _ _ clt' E Hne) as [-> ->]. apply Hw.
  - intros ->. destruct Hv as (_ & (r & Hr & _ & Hp & Eb) & _). exists (r_buf r), (r_sz r). split; [done|]. by apply (Hw clt).
Qed.

Lemma store_reply_in xid b sz l r : r ∈ store_reply xid b sz l → r ∈ l ∨ (r_buf r = b ∧ r_sz r = sz).
Proof.
  induction l as [|r' l IH]; simpl; [auto|]. destruct (xid =? r_xid r')%Z.
  - intros [->|Hr]%elem_of_cons; [by right|left; by right].
  - intros [->|Hr]%elem_of_cons; [left; by left|]. destruct (IH Hr); [left; by right|by right].
Qed.

Lemma add_reply_frame clt xid b sz win clt' : clt' ≠ clt →
  replies clt' (add_reply clt xid b sz win) = replies clt' win ∧ bound clt' (add_reply clt xid b sz win) = bound clt' win.
Proof. intros Hne. unfold add_reply, replies, bound. simpl. by rewrite lookup_insert_ne. Qed.

Lemma add_windows_ok clt xid b sz win : windows_ok win → sendable b sz → windows_ok (add_reply clt xid b sz win).
Proof.
  intros Hw Hb clt'. destruct (decide (clt' = clt)) as [->|Hne].
  - unfold add_reply. rewrite replies_insert. destruct (Hw clt) as [Hok Hs]. split.
    + unfold window_ok in *. rewrite xids_store_reply. done.
    + intros r [Hr|[-> ->]]%store_reply_in Hp; [by apply Hs|done].
  - destruct (add_reply_frame clt xid b sz win clt' Hne) as [-> ->]. apply Hw.
Qed.

(** ** One section *)
Definition phase_ok (s : rpcs S) (d : dphase) : Prop :=
  match d with
  | DStart j => job_ok s j
  | DSave _ hd req f => call_ok hd req f
  | DCheck _ hd req f | DCall _ hd req f => call_ok hd req f ∧ is_Some (s_conns s !! rq_clt_nonce hd)
  | DAdd _ hd _ b sz => (0 < rq_clt_nonce hd)%Z ∧ is_Some (s_conns s !! rq_clt_nonce hd) ∧ sendable b sz
  | DLatest _ hd _ b sz => is_Some (s_conns s !! rq_clt_nonce hd) ∧ sendable b sz
  | DSend _ _ b sz _ => sendable b sz
  | DBlocked _ _ _ | DSent _ _ _ | DDrop _ | DEnd => True
  end.

(** What running changes of a server. *)
Definition grows (s s' : rpcs S) : Prop :=
  s_nonce s' = s_nonce s ∧ s_procs s' = s_procs s ∧ s_reachable s' = s_reachable s ∧
  ∀ clt, is_Some (s_conns s !! clt) → is_Some (s_conns s' !! clt).

Lemma phase_ok_grows s s' d : phase_ok s d → grows s s' → phase_ok s' d.
Proof.
  intros Hp (Hn & Hpr & _ & Hc). destruct d; simpl in *; try naive_solver.
  destruct Hp as (hd & req & E & H). exists hd, req. by rewrite Hn, Hpr.
Qed.

(** The worker is about to send the buffer [n] of the reply window, or has it being sent. *)
Definition sends (d : dphase) (n : nat) : Prop :=
  match d with DSend _ (Some k) _ _ _ | DBlocked _ (Some k) _ => k = n | _ => False end.

Lemma packed_sendable (rh : reply_header) rep pre body : holds rep (pre ++ body) → length pre = 24 →
  ∃ rep', pack_reply_header junk rh rep = Ok rep' ∧ sendable (m_buf rep') (m_ind rep').
Proof.
  intros Hr Hl. destruct (pack_reply_header_holds junk rh rep pre body Hr Hl) as (m & sz4 & pad & -> & _ & _ & Hm).
  exists m. split; [done|]. destruct (holds_load _ _ Hm) as (b & -> & Hload). by exists b, (sz4 ++ enc_reply_header rh ++ pad ++ body).
Qed.

Lemma packed_new (rh : reply_header) : ∃ rep', pack_reply_header junk rh (new_marshall junk) = Ok rep' ∧ sendable (m_buf rep') (m_ind rep').
Proof.
  destruct (new_marshall_holds junk) as (hd & Lhd & Hhd). rewrite <- (app_nil_r hd) in Hhd. by eapply packed_sendable.
Qed.

(** What a section does to the windows, and whether the handler is next. *)
Definition win_change (d : dphase) (w : world S) (d' : dphase) (w' : world S) : Prop :=
  let win := s_windows (w_srv w) in
  let win' := s_windows (w_srv w') in
  match d with
  | DCheck _ hd _ _ => ∃ st b fr,
      checkduplicate_and_update (rq_clt_nonce hd) (u32 (rq_xid hd)) (u32 (rq_xid_rep hd)) win = Ok (st, b, win', fr) ∧
      execs d' = if decide (st = NEW) then [(rq_clt_nonce hd, u32 (rq_xid hd))] else []
  | DAdd _ hd _ b sz => win' = add_reply (rq_clt_nonce hd) (u32 (rq_xid hd)) b sz win ∧ execs d' = []
  | _ => win' = win ∧ execs d' = []
  end.

Lemma sect_start j w B ls R :
  refs_inv (w_conns w) ls (dj_conn j :: vals (s_conns (w_srv w)) ++ R) → job_ok (w_srv w) j →
  ∃ d', sect (DStart j) (w, B) = Ok (d', (w, B)) ∧ holds_ref d' = [dj_conn j] ∧ phase_ok (w_srv w) d' ∧ execs d' = [].
Proof.
  intros Hi (hd & req & E & Hj). destruct j as [c buf sz]. cbn [sect dj_buf dj_sz dj_conn] in *. rewrite E. run.
  destruct (u_ok req) eqn:Eu; cbn [negb]; cycle 1.
  { exists (DDrop c). done. }
  destruct Hj as [|[[Hn0 Hn]|(Hsrv & f & Hf & Hcall)]]; [done| |].
  - destruct (Z.eqb_spec (rq_srv_nonce hd) 0); [done|]. destruct (Z.eqb_spec (rq_srv_nonce hd) (s_nonce (w_srv w))); [done|].
    cbn [negb andb]. destruct (packed_new (ReplyHeader (rq_xid hd) oldsrv_failure)) as (rep & -> & Hs). run. by eexists.
  - rewrite srv_nonce_matches by done. match goal with |- context [match ?l with Some _ => _ | None => _ end] =>
      replace l with (Some f) by (symmetry; exact Hf) end.
    destruct (Z.eqb_spec (rq_clt_nonce hd) 0) as [Hz|]; [destruct Hcall as (? & _); lia|]. by eexists.
Qed.

Lemma sect_spec d w B ls R :
  refs_inv (w_conns w) ls (holds_ref d ++ vals (s_conns (w_srv w)) ++ R) → windows_ok (s_windows (w_srv w)) →
  phase_ok (w_srv w) d → (∀ n, sends d n → n ∉ b_freed B) →
  ∃ d' w' B', sect d (w, B) = Ok (d', (w', B')) ∧
    refs_inv (w_conns w') ls (holds_ref d' ++ vals (s_conns (w_srv w')) ++ leaks d ++ R) ∧
    windows_ok (s_windows (w_srv w')) ∧ phase_ok (w_srv w') d' ∧ grows (w_srv w) (w_srv w') ∧ descends (w_conns w) (w_conns w') ∧
    win_change d w d' w'.
Proof.
  intros Hi Hw Hp Hown. assert (grows (w_srv w) (w_srv w)) as Hg by done.
  destruct d as [j|c hd req f|c hd req f|c hd req f|c hd n b sz|c hd own b sz|c own b sz drop|c own drop|c own drop|c|]; cbn [phase_ok leaks app] in *.
  - destruct (sect_start j w B ls R Hi Hp) as (d' & -> & Hr & Hd & He). exists d', w, B. by rewrite Hr.
  - destruct (save_conn_refs_inv (rq_clt_nonce hd) c w ls R Hi) as (cs & h & E & Hi' & Hds & Hc & Hm). cbn [sect]. rewrite E. run.
    by do 3 eexists.
  - destruct Hp as [(Hclt & Hrep & Hf) Hc]. cbn [sect].
    destruct (check_windows_ok (rq_clt_nonce hd) _ _ _ Hw Hrep) as (st & b1 & win & fr & Ec & Hw' & Hdone). rewrite Ec. run.
    assert (∀ d', execs d' = (if decide (st = NEW) then [(rq_clt_nonce hd, u32 (rq_xid hd))] else []) →
      win_change (DCheck c hd req f) w d' (set_srv w (set_windows (w_srv w) win))) as Hch by (intros; by exists st, b1, fr).
    destruct st; [| |destruct (Hdone eq_refl) as (b & sz & -> & Hs); cbn [deref]; run
      |destruct (packed_new (ReplyHeader (rq_xid hd) atmostonce_failure)) as (rep & -> & Hs); run];
      (do 3 eexists; split_and!; [done..|by apply Hch]).
  - destruct Hp as [(Hclt & Hrep & Hf) Hc]. cbn [sect]. set (w1 := if (_ =? 0)%Z then w else _).
    assert (w_conns w1 = w_conns w ∧ s_conns (w_srv w1) = s_conns (w_srv w) ∧ s_windows (w_srv w1) = s_windows (w_srv w) ∧
      grows (w_srv w) (w_srv w1)) as (H1 & H2 & H3 & H4) by (unfold w1; by case_match).
    destruct (Hf (w_st w1)) as (ret & rep & st' & pre & body & -> & Hret & Hh & Hl). run.
    assert ((ret =? unmarshal_args_failure)%Z = false) as ->.
    { unfold unmarshal_args_failure. destruct (Z.eqb_spec ret (-2)); [lia|done]. }
    rewrite Z.geb_leb. destruct (Z.leb_spec 0 ret); [|lia]. cbn [negb]. run.
    destruct (packed_sendable (ReplyHeader (rq_xid hd) ret) rep pre body Hh Hl) as (rep' & -> & Hs). run.
    do 3 eexists. split; [done|]. cbn [w_conns set_st w_srv phase_ok holds_ref]. rewrite H1, H2, H3. done.
  - destruct Hp as (Hclt & Hc & Hs). cbn [sect]. rewrite Z.gtb_ltb. destruct (Z.ltb_spec 0 (rq_clt_nonce hd)); [|lia].
    case_bool_decide; do 3 eexists; (split_and!; [done|done|by apply add_windows_ok|done..]).
  - destruct Hp as (Hc & Hs). cbn [sect]. destruct (reply_conn_refs_inv _ c w ls R Hi Hc) as (c' & h & -> & Hi' & Hds). run.
    by do 3 eexists.
  - cbn [sect].
    assert (match own with Some n => if bool_decide (n ∈ b_freed B) then Fault OutOfBounds else Ok () | None => Ok () end = Ok ()) as ->.
    { destruct own as [n|]; [|done]. rewrite bool_decide_false; [done|]. by apply Hown. }
    run. destruct (conn_send_refs_inv c b sz w ls _ Hi) as (out & ->); [set_solver|done|]. run.
    by do 3 eexists.
  - by do 3 eexists.
  - cbn [sect]. destruct drop; do 3 eexists; (split_and!; [done| |done..]); simpl; [done|].
    eapply refs_inv_perm; [done..|]. simpl. solve_Permutation.
  - destruct (refs_inv_decref _ _ _ _ Hi) as (h & E & Hi' & Hds). cbn [sect]. unfold conn_decref. rewrite E. run. by do 3 eexists.
  - by do 3 eexists.
Qed.

(** ** The invariant *)
Lemma worker_refs_insert at_ t d : worker_refs (<[t := d]> at_) ≡ₚ holds_ref d ++ worker_refs (delete t at_).
Proof. unfold worker_refs. by rewrite vals_insert_delete. Qed.
Lemma worker_refs_delete at_ t d : at_ !! t = Some d → worker_refs at_ ≡ₚ holds_ref d ++ worker_refs (delete t at_).
Proof. intros Ht. unfold worker_refs. by rewrite (vals_delete _ _ _ Ht). Qed.

Lemma worker_refs_wake c at_ : worker_refs (wake c <$> at_) ≡ₚ worker_refs at_.
Proof.
  unfold worker_refs. rewrite vals_fmap. induction (vals at_) as [|d l IH]; [done|]. csimpl. rewrite IH. f_equiv.
  destruct d as [| | | | | | |c' own drop| | |]; simpl; try done. by case_decide.
Qed.

Record uinv (u : run) : Prop := Uinv {
  ui_h : refs_inv (w_conns (u_w u)) (accepting u ++ listed u) (other_refs u);
  ui_fds : u_stage u = Serving → ∀ fd c, conns_ (u_tcps u) !! fd = Some c → ∃ x, w_conns (u_w u) !! c = Some x ∧ c_fd x = fd;
  ui_joined : u_stage u ≠ Serving → u_accept u = None;
  ui_win : windows_ok (s_windows (w_srv (u_w u)));
  ui_at : ∀ t d, u_at u !! t = Some d → phase_ok (w_srv (u_w u)) d;
  ui_workers : ∀ t, is_Some (u_at u !! t) ↔ ∃ j, p_workers (u_pool u) !! t = Some (Running j);
  ui_queued : ∀ j, j ∈ queued (q_ (p_jobq (u_pool u))) → job_ok (w_srv (u_w u)) j;
  ui_stage : match u_stage u with
             | Serving | Closing _ => p_left (u_pool u) = None
             | Draining => p_left (u_pool u) ≠ None
             | Freed => deleted (u_pool u)
             end;
  ui_reach : s_reachable (w_srv (u_w u)) = true }.

Lemma job_ok_grows s s' j : job_ok s j → grows s s' → job_ok s' j.
Proof. apply (phase_ok_grows s s' (DStart j)). Qed.

(** The listed connections keep their descriptors while objects come and go. *)
Lemma fds_descend (cs : gmap Z nat) h h' refs :
  (∀ fd c, cs !! fd = Some c → ∃ x, h !! c = Some x ∧ c_fd x = fd) → descends h h' → ref_counted h' refs →
  (∀ fd c, cs !! fd = Some c → c ∈ refs) → ∀ fd c, cs !! fd = Some c → ∃ x, h' !! c = Some x ∧ c_fd x = fd.
Proof.
  intros Hf Hd Hct Hr fd c Hc. destruct (ct_in _ _ Hct c (Hr fd c Hc)) as [x' Hx']. exists x'. split; [done|].
  destruct (Hd c x' Hx') as (x & Hx & -> & _). destruct (Hf fd c Hc) as (y & Hy & <-). congruence.
Qed.

Lemma uinv_start s st lossy : fresh_server s → uinv (srv_start s st lossy).
Proof.
  intros (Hw & Hc & Hr). constructor; simpl; try done.
  - unfold other_refs, listed, accepting. simpl. rewrite Hc. constructor; simpl; try done.
    + constructor; [by intros c ?%elem_of_nil|]. done.
    + apply NoDup_nil_2.
  - rewrite Hw. intros clt. split; [|by intros r ?%elem_of_nil]. split; [apply SSorted_nil|done].
  - intros t. split; [by intros [? ?]|]. intros [j Hj]. change ((replicate 6 (@Idle () djob_t)) !! t = Some (Running j)) in Hj.
    by apply lookup_replicate in Hj as [? _].
  - intros j. by intros ?%elem_of_nil.
Qed.

(** A step that changes the heap and the other references only. *)
Lemma uinv_heap u w' q : uinv u → grows (w_srv (u_w u)) (w_srv w') → descends (w_conns (u_w u)) (w_conns w') →
  refs_inv (w_conns w') (accepting u ++ listed u)
    (worker_refs (u_at u) ++ (dj_conn <$> queued (q_ (p_jobq q))) ++ vals (s_conns (w_srv w')) ++ u_leaked u) →
  windows_ok (s_windows (w_srv w')) → p_workers q = p_workers (u_pool u) → p_left q = p_left (u_pool u) →
  (∀ j, j ∈ queued (q_ (p_jobq q)) → job_ok (w_srv w') j) →
  uinv (Run w' (u_bufs u) (u_tcps u) (u_accept u) q (u_at u) (u_stage u) (u_leaked u) (u_trace u) (u_execs u)).
Proof.
  intros [Hh Hfds Hj Hw Hat Hwk Hq Hst Hr] Hg Hd Hi Hwin Ews El Hjobs. constructor; simpl; try done.
  - intros Hs. eapply fds_descend; [by apply Hfds|done|apply (hi_counted _ _ _ Hi)|].
    intros fd c Hc. apply elem_of_app. left. apply elem_of_app. right. unfold listed. rewrite Hs. apply elem_of_vals. eauto.
  - intros t d Ht. eapply phase_ok_grows; [by eapply Hat|done].
  - intros t. by rewrite Ews.
  - unfold deleted in *. rewrite Ews, El. done.
  - by destruct Hg as (_ & _ & -> & _).
Qed.

(** The accepting thread. *)
Lemma uinv_accept s1 c tvs tvu w B tc po at_ lk tr ex :
  uinv (Run w B tc None po at_ Serving lk tr ex) →
  w_conns w !! c = None → (∀ c' x, w_conns w !! c' = Some x → c_fd x ≠ s1) →
  uinv (Run (set_heap w (<[c := (new_connection s1 (ts_lossy tc) tvs tvu).1]> (w_conns w))) B tc
          (Some (c, keys_in_order (conns_ tc))) po at_ Serving lk tr ex).
Proof.
  intros [Hh Hfds Hj Hw Hat Hwk Hq Hst Hr] Hn Hf. constructor; simpl in *; try done.
  - by apply (refs_inv_new _ _ _ c _ Hh Hn).
  - intros _ fd c' Hc'. destruct (Hfds eq_refl fd c' Hc') as (x & Hx & Hfd). exists x. split; [|done].
    rewrite lookup_insert_ne; [done|]. intros ->. congruence.
Qed.

Lemma uinv_collect c fd fds conns h w B tc po at_ lk tr ex :
  uinv (Run w B tc (Some (c, fd :: fds)) po at_ Serving lk tr ex) →
  collect_dead [fd] (conns_ tc) (w_conns w) = Ok (conns, h) →
  uinv (Run (set_heap w h) B (TcpsConn conns (ts_lossy tc)) (Some (c, fds)) po at_ Serving lk tr ex).
Proof.
  intros Hu E. destruct Hu as [Hh Hfds Hj Hw Hat Hwk Hq Hst Hr]. simpl in E.
  assert (∀ cs h', cs = conns_ tc → h' = w_conns w → uinv (Run (set_heap w h') B (TcpsConn cs (ts_lossy tc)) (Some (c, fds)) po at_ Serving lk tr ex)) as Hsame.
  { intros cs h' -> ->. destruct tc. by constructor. }
  destruct (conns_ tc !! fd) as [c'|] eqn:Ec; [|injection E as <- <-; by apply Hsame].
  apply bind_Ok in E as (x & Ex & E). destruct (collectable x) eqn:Ecol; [|injection E as <- <-; by apply Hsame].
  apply bind_Ok in E as (h' & Eh & [= <- <-]).
  assert (w_conns w !! c' = Some x) as Hx.
  { unfold heap_at in Ex. destruct (w_conns w !! c'); congruence. }
  unfold collectable in Ecol. apply andb_prop in Ecol as [Hd _].
  unfold listed, accepting in Hh. simpl in *. destruct (refs_inv_unlist (w_conns w) (c :: vals (delete fd (conns_ tc)))
    (other_refs (Run w B tc (Some (c, fd :: fds)) po at_ Serving lk tr ex)) c' x) as (h2 & E2 & Hi2 & Hd2); [|done|done|].
  { eapply refs_inv_perm; [done| |done]. rewrite (vals_delete _ _ _ Ec). simpl. solve_Permutation. }
  rewrite Eh in E2. injection E2 as <-. constructor; simpl in *; try done. intros _.
  eapply fds_descend; [|done|by apply (hi_counted _ _ _ Hi2)|].
  - intros fd' c2 [_ Hc2]%lookup_delete_Some. by apply Hfds.
  - intros fd' c2 Hc2. apply elem_of_app. left. right. apply elem_of_vals. eauto.
Qed.

Lemma uinv_accepted c x w B tc po at_ lk tr ex :
  uinv (Run w B tc (Some (c, [])) po at_ Serving lk tr ex) → w_conns w !! c = Some x →
  uinv (Run w B (TcpsConn (<[c_fd x := c]> (conns_ tc)) (ts_lossy tc)) None po at_ Serving lk tr ex).
Proof.
  intros [Hh Hfds Hj Hw Hat Hwk Hq Hst Hr] Hx. unfold listed, accepting in *. simpl in *.
  assert (conns_ tc !! c_fd x = None) as Hno.
  { destruct (conns_ tc !! c_fd x) as [c'|] eqn:Ec; [|done]. destruct (Hfds eq_refl _ _ Ec) as (x' & Hx' & Hfd).
    assert (c' = c) as -> by (by eapply (hi_fd _ _ _ Hh)).
    destruct (proj1 (NoDup_cons _ _) (hi_nodup _ _ _ Hh)) as [Hni _]. destruct Hni. apply elem_of_vals. eauto. }
  constructor; simpl; try done.
  - unfold listed, accepting. simpl. eapply refs_inv_perm; [exact Hh| |done]. by rewrite vals_insert.
  - intros _ fd c' Hc'. apply lookup_insert_Some in Hc' as [[<- <-]|[_ Hc']]; [eauto|by apply Hfds].
Qed.

(** A request arrives. *)
Lemma got_pdu_refs_inv succ c w ls rs : refs_inv (w_conns w) ls rs → c ∈ ls ++ rs → s_reachable (w_srv w) = true →
  ∃ h, got_pdu succ c w = Ok (succ, set_heap w h) ∧ descends (w_conns w) h ∧
    refs_inv h ls (if succ then c :: rs else rs).
Proof.
  intros Hi Hc Hr. unfold got_pdu, conn_incref, conn_decref. rewrite Hr. simpl.
  destruct (refs_inv_incref _ _ _ c Hi Hc) as (h & -> & Hi' & Hd). run. cbn [set_heap w_srv]. rewrite Hr.
  destruct succ; simpl; [by exists h|]. destruct (refs_inv_decref _ _ _ _ Hi') as (h' & -> & Hi2 & Hd2). run.
  exists h'. split_and!; [done|by etrans|done].
Qed.

Lemma uinv_pdu x j w w' B tc ac q q' ws ad rn at_ st lk tr ex :
  uinv (Run w B tc ac (Pool q ws None ad rn) at_ st lk tr ex) →
  w_conns w !! dj_conn j = Some x → job_ok (w_srv w) j →
  addJob false () j q = Added q' → got_pdu true (dj_conn j) w = Ok (true, w') →
  uinv (Run w' B tc ac (Pool q' ws None (ad ++ [Job (Some ()) j]) rn) at_ st lk tr ex).
Proof.
  intros Hu Hx Hj Ea Eg. pose proof (ui_h _ Hu) as Hi.
  destruct (got_pdu_refs_inv true (dj_conn j) w _ _ Hi) as (h & E & Hd & Hi'); [|apply (ui_reach _ Hu)|].
  { by eapply (ct_conn _ _ (hi_counted _ _ _ Hi)). }
  rewrite Eg in E. injection E as ->. unfold addJob in Ea. pose proof (enq_look_spec (Job (Some ()) j) q) as Hq.
  destruct (enq_look _ q) as [q2|]; [|done]. injection Ea as ->. destruct Hq as [Hq _].
  assert (queued (q_ q') = queued (q_ q) ++ [j]) as Eq by (rewrite Hq; unfold queued; by rewrite omap_app).
  apply (uinv_heap _ (set_heap w h) (Pool q' ws None (ad ++ [Job (Some ()) j]) rn) Hu); simpl; try done.
  - eapply refs_inv_perm; [exact Hi'|done|]. unfold other_refs. simpl. rewrite Eq, fmap_app. simpl. solve_Permutation.
  - apply (ui_win _ Hu).
  - intros j'. rewrite Eq. intros [Hj'|Hj']%elem_of_app; [by apply (ui_queued _ Hu)|].
    apply list_elem_of_singleton in Hj' as ->. done.
Qed.

Lemma uinv_pdu_full x j w w' B tc ac po at_ st lk tr ex :
  uinv (Run w B tc ac po at_ st lk tr ex) → w_conns w !! dj_conn j = Some x → got_pdu false (dj_conn j) w = Ok (false, w') →
  uinv (Run w' B tc ac po at_ st lk tr ex).
Proof.
  intros Hu Hx Eg. pose proof (ui_h _ Hu) as Hi.
  destruct (got_pdu_refs_inv false (dj_conn j) w _ _ Hi) as (h & E & Hd & Hi'); [|apply (ui_reach _ Hu)|].
  { by eapply (ct_conn _ _ (hi_counted _ _ _ Hi)). }
  rewrite Eg in E. injection E as ->. apply (uinv_heap _ (set_heap w h) po Hu); try done; [apply (ui_win _ Hu)|apply (ui_queued _ Hu)].
Qed.

(** The phases change, the references stay. *)
Lemma uinv_phases w B tc ac po at_ at' st lk tr ex :
  uinv (Run w B tc ac po at_ st lk tr ex) → worker_refs at' ≡ₚ worker_refs at_ →
  (∀ t, is_Some (at' !! t) ↔ is_Some (at_ !! t)) → (∀ t d, at' !! t = Some d → phase_ok (w_srv w) d) →
  uinv (Run w B tc ac po at' st lk tr ex).
Proof.
  intros [Hh Hfds Hj Hw Hat Hwk Hq Hst Hr] Hrefs Hdom Hok. constructor; simpl in *; try done.
  - unfold other_refs in *. simpl in *. by rewrite Hrefs.
  - intros t. rewrite Hdom. apply Hwk.
Qed.

Lemma uinv_wake c w B tc ac po at_ st lk tr ex :
  uinv (Run w B tc ac po at_ st lk tr ex) → uinv (Run w B tc ac po (wake c <$> at_) st lk tr ex).
Proof.
  intros Hu. eapply uinv_phases; [done|apply worker_refs_wake| |].
  - intros t. by rewrite lookup_fmap, fmap_is_Some.
  - intros t d. rewrite lookup_fmap, fmap_Some. intros (d0 & Hd & ->). pose proof (ui_at _ Hu t d0 Hd) as Hp.
    destruct d0; simpl in *; try done. by case_decide.
Qed.

Lemma uinv_send t d d' w B tc ac po at_ st lk tr ex :
  uinv (Run w B tc ac po at_ st lk tr ex) → at_ !! t = Some d → holds_ref d' = holds_ref d → phase_ok (w_srv w) d' →
  uinv (Run w B tc ac po (<[t := d']> at_) st lk tr ex).
Proof.
  intros Hu Ht Hr Hp. eapply uinv_phases; [done| | |].
  - by rewrite worker_refs_insert, (worker_refs_delete _ _ _ Ht), Hr.
  - intros t'. rewrite lookup_insert_is_Some. destruct (decide (t = t')) as [<-|]; naive_solver.
  - intros t' d2. rewrite lookup_insert_Some. intros [[<- <-]|[_ Hd]]; [done|]. by apply (ui_at _ Hu t').
Qed.

Lemma uinv_die c x w B tc ac po at_ st lk tr ex :
  uinv (Run w B tc ac po at_ st lk tr ex) → w_conns w !! c = Some x →
  uinv (Run (set_heap w (<[c := set_dead x]> (w_conns w))) B tc ac po (wake c <$> at_) st lk tr ex).
Proof.
  intros Hu Hx. apply uinv_wake, (uinv_heap _ (set_heap w (<[c := set_dead x]> (w_conns w))) po Hu); try done.
  - by apply descends_dead.
  - apply refs_inv_dead; [|done]. apply (ui_h _ Hu).
  - apply (ui_win _ Hu).
  - apply (ui_queued _ Hu).
Qed.

#[local] Arguments sect : simpl never.

(** The workers. *)
Lemma uinv_take t j w B tc ac q q' ws l ad rn at_ st lk tr ex :
  uinv (Run w B tc ac (Pool q ws l ad rn) at_ st lk tr ex) → ws !! t = Some Idle → takeJob q = Some (true, j, q') →
  uinv (Run w B tc ac (Pool q' (<[t := Running j]> ws) l ad rn) (<[t := DStart (j_a j)]> at_) st lk tr ex).
Proof.
  intros [Hh Hfds Hj Hw Hat Hwk Hq Hst Hr] Ht (Eq & _ & Hjob & _)%takeJob_spec.
  destruct (Hjob eq_refl) as [[] Hf]. assert (queued (q_ q) = j_a j :: queued (q_ q')) as Eqd.
  { rewrite Eq. unfold queued. simpl. by rewrite Hf. }
  assert (at_ !! t = None) as Hno.
  { destruct (at_ !! t) as [d|] eqn:E; [|done]. destruct (proj1 (Hwk t)) as [j' Hj']; [simpl; rewrite E; eauto|]. simpl in *. congruence. }
  constructor; simpl in *; try done.
  - unfold other_refs in *. simpl in *. rewrite Eqd in Hh. eapply refs_inv_perm; [exact Hh|done|].
    rewrite worker_refs_insert, delete_id by done. simpl. solve_Permutation.
  - intros t' d. destruct (decide (t' = t)) as [->|]; [|rewrite lookup_insert_ne by done; apply Hat].
    rewrite lookup_insert_eq. intros [= <-]. simpl. apply Hq. rewrite Eqd. by left.
  - intros t'. destruct (decide (t' = t)) as [->|Hne].
    + rewrite lookup_insert_eq, list_lookup_insert_eq by (by eapply lookup_lt_Some). naive_solver.
    + rewrite lookup_insert_ne, list_lookup_insert_ne by done. apply Hwk.
  - intros j' Hj'. apply Hq. rewrite Eqd. by right.
  - destruct st; try done. destruct Hst as [_ Hall]. simpl in Hall. by specialize (Hall t Idle Ht).
Qed.

(** A section of a worker in a run. *)
Lemma sect_not_freed d d' w w' B B' n : stops d = false → sect d (w, B) = Ok (d', (w', B')) → sends d n → n ∉ b_freed B.
Proof.
  intros Hst Es Hn Hin. destruct d as [| | | | | |? [k|] ? ? ?|? [k|] ?| | |]; try done. simpl in Hn. subst k. unfold sect in Es.
  by rewrite bool_decide_true in Es.
Qed.

Lemma sect_in_run u t d : uinv u → u_at u !! t = Some d → (∀ n, sends d n → n ∉ b_freed (u_bufs u)) →
  ∃ d' w' B', sect d (u_w u, u_bufs u) = Ok (d', (w', B')) ∧
    refs_inv (w_conns w') (accepting u ++ listed u)
      (worker_refs (<[t := d']> (u_at u)) ++ (dj_conn <$> queued (q_ (p_jobq (u_pool u)))) ++
       vals (s_conns (w_srv w')) ++ leaks d ++ u_leaked u) ∧
    windows_ok (s_windows (w_srv w')) ∧ phase_ok (w_srv w') d' ∧ grows (w_srv (u_w u)) (w_srv w') ∧
    descends (w_conns (u_w u)) (w_conns w') ∧ win_change d (u_w u) d' w'.
Proof.
  intros Hu Ht Hn. destruct (sect_spec d (u_w u) (u_bufs u) (accepting u ++ listed u)
    (worker_refs (delete t (u_at u)) ++ (dj_conn <$> queued (q_ (p_jobq (u_pool u)))) ++ u_leaked u))
    as (d' & w' & B' & E & Hi & Hrest); [|apply (ui_win _ Hu)|by apply (ui_at _ Hu t)|done|].
  { eapply refs_inv_perm; [apply (ui_h _ Hu)|done|]. unfold other_refs. rewrite (worker_refs_delete _ _ _ Ht). solve_Permutation. }
  exists d', w', B'. split_and!; [done| |apply Hrest..]. eapply refs_inv_perm; [exact Hi|done|].
  rewrite worker_refs_insert. solve_Permutation.
Qed.

Lemma uinv_sect t d d' w w' B B' tc ac po at_ st lk tr ex :
  uinv (Run w B tc ac po at_ st lk tr ex) → at_ !! t = Some d → stops d = false → sect d (w, B) = Ok (d', (w', B')) →
  uinv (Run w' B' tc ac po (<[t := d']> at_) st (leaks d ++ lk) (tr ++ events d) (execs d ++ ex)).
Proof.
  intros Hu Ht Hstop Es. pose proof Hu as [Hh Hfds Hj Hw Hat Hwk Hq Hst Hr].
  destruct (sect_in_run _ t d Hu Ht) as (d2 & w2 & B2 & E2 & Hi & Hw' & Hp & Hg & Hd & _);
    [by intros n; eapply sect_not_freed|]. simpl in *.
  rewrite Es in E2. injection E2 as <- <- <-. constructor; simpl; try done.
  - intros Hs. eapply fds_descend; [by apply Hfds|done|apply (hi_counted _ _ _ Hi)|].
    intros fd c Hc. apply elem_of_app. left. apply elem_of_app. right. unfold listed. simpl. rewrite Hs. apply elem_of_vals. eauto.
  - intros t' d2. destruct (decide (t' = t)) as [->|]; [rewrite lookup_insert_eq; by intros [= <-]|].
    rewrite lookup_insert_ne by done. intros Hd2. eapply phase_ok_grows; [by eapply Hat|done].
  - intros t'. rewrite <- Hwk. destruct (decide (t' = t)) as [->|]; [rewrite lookup_insert_eq, Ht; naive_solver|by rewrite lookup_insert_ne].
  - intros j Hj'. eapply job_ok_grows; [by apply Hq|done].
  - by destruct Hg as (_ & _ & -> & _).
Qed.

Lemma uinv_return t j w B tc ac q ws l ad rn at_ st lk tr ex :
  uinv (Run w B tc ac (Pool q ws l ad rn) at_ st lk tr ex) → ws !! t = Some (Running j) → at_ !! t = Some DEnd →
  uinv (Run w B tc ac (Pool q (<[t := Idle]> ws) l ad (rn ++ [j])) (delete t at_) st lk tr ex).
Proof.
  intros [Hh Hfds Hj Hw Hat Hwk Hq Hst Hr] Ht Hd. constructor; simpl in *; try done.
  - eapply refs_inv_perm; [exact Hh|done|]. unfold other_refs. simpl. by rewrite (worker_refs_delete _ _ _ Hd).
  - intros t' d [_ Hd']%lookup_delete_Some. by eapply Hat.
  - intros t'. destruct (decide (t' = t)) as [->|].
    + rewrite lookup_delete_eq, list_lookup_insert_eq by (by eapply lookup_lt_Some). split; [by intros [? ?]|by intros [? ?]].
    + rewrite lookup_delete_ne, list_lookup_insert_ne by done. apply Hwk.
  - destruct st; try done. destruct Hst as [_ Hall]. simpl in Hall. by specialize (Hall t _ Ht).
Qed.

(** A step of the pool that neither takes nor ends a job. *)
Lemma uinv_pool w B tc ac po po' at_ st st' lk tr ex :
  uinv (Run w B tc ac po at_ st lk tr ex) →
  queued (q_ (p_jobq po')) = queued (q_ (p_jobq po)) →
  (∀ t j, p_workers po' !! t = Some (Running j) ↔ p_workers po !! t = Some (Running j)) →
  (st' = st ∨ st = Closing [] ∧ st' = Draining) →
  match st' with Serving | Closing _ => p_left po' = None | Draining => p_left po' ≠ None | Freed => deleted po' end →
  uinv (Run w B tc ac po' at_ st' lk tr ex).
Proof.
  intros [Hh Hfds Hj Hw Hat Hwk Hq Hst Hr] Eq Hrun Hs Hst'. constructor; simpl in *; try done.
  - unfold other_refs. simpl. rewrite Eq. by destruct Hs as [->|[-> ->]].
  - by destruct Hs as [->|[-> ->]].
  - destruct Hs as [->|[-> ->]]; [done|]. intros _. by apply Hj.
  - intros t. rewrite Hwk. by setoid_rewrite Hrun.
  - by rewrite Eq.
Qed.

(** The destructor. *)
Lemma uinv_destroy w B tc po at_ lk tr ex :
  uinv (Run w B tc None po at_ Serving lk tr ex) →
  uinv (Run w B tc None po at_ (Closing (keys_in_order (conns_ tc))) lk tr ex).
Proof.
  intros [Hh Hfds Hj Hw Hat Hwk Hq Hst Hr]. constructor; simpl in *; try done.
  eapply refs_inv_perm; [exact Hh| |done]. unfold listed, accepting. simpl. symmetry. apply vals_keys.
  unfold keys_in_order. apply merge_sort_Permutation.
Qed.

Lemma uinv_close fd fds h acts w B tc ac po at_ lk tr ex :
  uinv (Run w B tc ac po at_ (Closing (fd :: fds)) lk tr ex) →
  close_all [fd] (conns_ tc) (w_conns w) [] = Ok (h, acts) →
  uinv (Run (set_heap w h) B tc ac po at_ (Closing fds) lk tr ex).
Proof.
  intros [Hh Hfds Hj Hw Hat Hwk Hq Hst Hr] E. unfold listed, accepting in *. simpl in *.
  assert (ac = None) as -> by (by apply Hj). destruct (conns_ tc !! fd) as [c|] eqn:Ec.
  - destruct (refs_inv_close _ _ _ _ Hh) as (x & h' & Hx & E' & Hi & Hd). unfold heap_at in E. rewrite Hx in E. run.
    cbn [mbind outcome_bind] in E. destruct (closeconn x) as [x' a]. simpl in E'. rewrite E' in E. cbn in E. injection E as <- _.
    by constructor.
  - injection E as <- _. by constructor.
Qed.

Lemma uinv_free w B B' tc ac po at_ lk tr ex :
  uinv (Run w B tc ac po at_ Draining lk tr ex) → deleted po →
  uinv (Run (set_srv w (set_windows (w_srv w) (free_reply_window (s_windows (w_srv w))))) B' tc ac po at_ Freed lk tr ex).
Proof.
  intros [Hh Hfds Hj Hw Hat Hwk Hq Hst Hr] Hd. constructor; simpl in *; try done.
  - intros _. by apply Hj.
  - intros clt. unfold replies. simpl. split; [|by intros r ?%elem_of_nil]. split; [apply SSorted_nil|done].
Qed.

Lemma uinv_step u u' : uinv u → srv_step u u' → uinv u'.
Proof.
  intros Hu Hs. destruct Hs.
  - by apply uinv_accept.
  - by eapply uinv_collect.
  - by apply uinv_accepted.
  - by eapply uinv_pdu.
  - by eapply uinv_pdu_full.
  - by apply uinv_die.
  - by eapply uinv_send.
  - by eapply uinv_send.
  - by eapply uinv_take.
  - by eapply uinv_sect.
  - by apply uinv_return.
  - by apply uinv_destroy.
  - by eapply uinv_close.
  - eapply uinv_pool; [exact Hu|done|done|by right|done].
  - pose proof (enq_look_spec (pill a) q) as Hspec. rewrite H in Hspec. destruct Hspec as [Eq _].
    eapply uinv_pool; [exact Hu| |done|by left|].
    + simpl. rewrite Eq. unfold queued. rewrite omap_app. simpl. by rewrite app_nil_r.
    + pose proof (ui_stage _ Hu) as Hst. simpl in *. destruct st; try done. by destruct Hst.
  - apply takeJob_spec in H0 as (Eq & _ & _ & Hf). eapply uinv_pool; [exact Hu| | |by left|].
    + simpl. rewrite Eq. unfold queued. simpl. by rewrite (Hf eq_refl).
    + intros t' j'. simpl. destruct (decide (t' = t)) as [->|]; [|by rewrite list_lookup_insert_ne].
      rewrite list_lookup_insert_eq by (by eapply lookup_lt_Some). rewrite H. done.
    + pose proof (ui_stage _ Hu) as Hst. simpl in *. destruct st; try done. destruct Hst as [_ Hall]. simpl in Hall.
      by specialize (Hall t Idle H).
  - by eapply uinv_free.
Qed.

Lemma uinv_reachable s st lossy u : fresh_server s → rtc srv_step (srv_start s st lossy) u → uinv u.
Proof.
  intros Hs Hr. pose proof (uinv_start s st lossy Hs) as H0. induction Hr as [|x y z Hxy Hyz IH]; [done|].
  apply IH. by eapply uinv_step.
Qed.

(** The steps of the server are steps of its pool, or leave it as it is. *)
Lemma srv_step_pool u u' : srv_step u u' → u_pool u' = u_pool u ∨ pstep false (u_pool u) (u_pool u').
Proof.
  intros Hs. destruct Hs; simpl; auto; right; [by apply p_add|by eapply p_take|by apply p_run|by apply p_delete|by eapply p_pill|by eapply p_exit].
Qed.

Lemma pool_reachable s st lossy u : rtc srv_step (srv_start s st lossy) u → ∃ jobs pills, pinv 6 (u_pool u) jobs pills.
Proof.
  intros Hr. apply (pinv_reachable 6 false). change (new_pool 6) with (u_pool (srv_start s st lossy)).
  induction Hr as [|x y z Hxy Hyz IH]; [done|]. destruct (srv_step_pool _ _ Hxy) as [<-|Hp]; [done|by eapply rtc_l].
Qed.

End run.
Arguments dphase S : clear implicits.
Arguments run S : clear implicits.
