(* ===== verification/ServerLife.v ===== *)
(** * What the running RPC server promises (class rpcs of rpc/rpc.cc)

    Over the threads of ServerRun.v: requests are executed at most once whatever the
    workers do side by side, references to connections are exact, and the destructor
    comes to its end; with schedules of the threads that can be computed, for examples
    and for the runs in which something goes wrong. *)

From stdpp Require Import base tactics numbers list gmap sets sorting strings relations.
From Stdlib Require Import ZArith Lia Ascii.
From S2P Require Import Prelude CxxString Fifo ThrPool Marshall Connection ConnRefs Acceptor RpcServer RpcCall ServerRun.

#[local] Arguments sect : simpl never.

Section life.
Context {Al : allocator} `{!KeepsFreed Al} {S : Type} (junk : nat → ascii).
#[local] Notation srv_step := (srv_step junk).
#[local] Notation sect := (sect junk).
#[local] Notation uinv := (uinv junk).
#[local] Notation phase_ok := (phase_ok junk).
#[local] Notation dphase := (dphase S).
#[local] Notation run := (run S).
Implicit Types (w : world S) (u : run).

(** ** The trace of the windows *)
Definition evs_of (clt : Z) (tr : list (Z * win_event)) : list win_event :=
  omap (λ '(c, e), if decide (c = clt) then Some e else None) tr.
Definition times (k : Z * Z) (l : list (Z * Z)) : nat := length (filter (k =.) l).
(** The handlers that a worker is about to run. *)
Definition calls (at_ : gmap nat dphase) : list (Z * Z) := vals at_ ≫= execs.

#[global] Instance times_proper k : Proper ((≡ₚ) ==> (=)) (times k).
Proof. intros l l' Hp. unfold times. by rewrite Hp. Qed.
Lemma times_app k l l' : times k (l ++ l') = times k l + times k l'.
Proof. unfold times. by rewrite filter_app, length_app. Qed.

Lemma win_run_app clt evs evs' win0 : win_run clt (evs ++ evs') win0 =
  ('(vs, win1) ← win_run clt evs win0; '(vs', win2) ← win_run clt evs' win1; Ok (vs ++ vs', win2)).
Proof.
  revert win0. induction evs as [|e evs IH]; intros win0; simpl.
  - by destruct (win_run clt evs' win0) as [[? ?]|].
  - destruct (win_step clt e win0) as [[v win1]|]; run; [|done]. rewrite IH.
    destruct (win_run clt evs win1) as [[vs win2]|]; run; [|done]. destruct (win_run clt evs' win2) as [[vs' win3]|]; run; [|done].
    by rewrite (assoc_L (++)).
Qed.

(** A request is judged by the window of its client. *)
Lemma check_local clt xid rep win1 win2 st b win1' fr :
  replies clt win2 = replies clt win1 → bound clt win2 = bound clt win1 →
  checkduplicate_and_update clt xid rep win1 = Ok (st, b, win1', fr) →
  ∃ win2', checkduplicate_and_update clt xid rep win2 = Ok (st, b, win2', fr) ∧
    replies clt win2' = replies clt win1' ∧ bound clt win2' = bound clt win1'.
Proof.
  unfold checkduplicate_and_update. intros -> ->. destruct (match replies clt win1 with [] => _ | _ => _ end) as [ret b'].
  destruct (decide (ret = NEW)).
  - intros ([l f] & -> & E)%bind_Ok. injection E as <- <- <- <-. run. eexists. split; [done|].
    by rewrite !replies_insert, !bound_insert.
  - intros [= <- <- <- <-]. eexists. split; [done|]. by rewrite !replies_insert, !bound_insert.
Qed.

Record trace_inv (u : run) (clt : Z) (vs : list (Z * rpcstate_t)) (win : windows) : Prop := Tinv {
  ti_run : win_run clt (evs_of clt (u_trace u)) (Windows ∅ ∅) = Ok (vs, win);
  ti_win : u_stage u ≠ Freed →
    replies clt win = replies clt (s_windows (w_srv (u_w u))) ∧ bound clt win = bound clt (s_windows (w_srv (u_w u)));
  ti_execs xid : executions xid vs = times (clt, xid) (u_execs u ++ calls (u_at u)) }.

Lemma calls_insert at_ t d : calls (<[t := d]> at_) ≡ₚ execs d ++ calls (delete t at_).
Proof. unfold calls. by rewrite vals_insert_delete. Qed.
Lemma calls_delete at_ t d : at_ !! t = Some d → calls at_ ≡ₚ execs d ++ calls (delete t at_).
Proof. intros Ht. unfold calls. by rewrite (vals_delete _ _ _ Ht). Qed.

Lemma calls_wake c at_ : calls (wake c <$> at_) ≡ₚ calls at_.
Proof.
  unfold calls. rewrite vals_fmap. induction (vals at_) as [|d l IH]; [done|]. csimpl. rewrite IH. f_equiv.
  destruct d as [| | | | | | |c' own drop| | |]; simpl; try done. by case_decide.
Qed.

Lemma evs_of_same clt e : evs_of clt [(clt, e)] = [e].
Proof. unfold evs_of. simpl. by rewrite decide_True. Qed.
Lemma evs_of_other clt clt' e : clt' ≠ clt → evs_of clt [(clt', e)] = [].
Proof. intros. unfold evs_of. simpl. by rewrite decide_False. Qed.

Lemma trace_inv_sect t d d' w w' B B' tc ac po at_ st lk tr ex clt vs win :
  trace_inv (Run w B tc ac po at_ st lk tr ex) clt vs win → at_ !! t = Some d → st ≠ Freed →
  phase_ok (w_srv w) d → win_change d w d' w' →
  ∃ vs' win', trace_inv (Run w' B' tc ac po (<[t := d']> at_) st (leaks d ++ lk) (tr ++ events d) (execs d ++ ex)) clt vs' win'.
Proof.
  intros [Hrun Hwin Hex] Ht Hst Hp Hch. simpl in *. destruct (Hwin Hst) as [Hrep Hbd].
  assert (∀ vs' win', win_run clt (evs_of clt (events d)) win = Ok (vs', win') →
    replies clt win' = replies clt (s_windows (w_srv w')) → bound clt win' = bound clt (s_windows (w_srv w')) →
    (∀ xid, executions xid vs' = times (clt, xid) (execs d')) →
    trace_inv (Run w' B' tc ac po (<[t := d']> at_) st (leaks d ++ lk) (tr ++ events d) (execs d ++ ex)) clt (vs ++ vs') win') as Hgo.
  { intros vs' win' E Er Eb Ex. constructor; simpl; [|done|].
    - unfold evs_of in *. rewrite omap_app, win_run_app, Hrun. run. by rewrite E.
    - intros xid. rewrite executions_app, Hex, Ex, (calls_delete _ _ _ Ht), calls_insert, !times_app. lia. }
  assert (s_windows (w_srv w') = s_windows (w_srv w) → evs_of clt (events d) = [] → execs d' = [] →
    ∃ vs' win', trace_inv (Run w' B' tc ac po (<[t := d']> at_) st (leaks d ++ lk) (tr ++ events d) (execs d ++ ex)) clt vs' win') as Hstay.
  { intros Ew Ee Ed. eexists _, _. apply (Hgo [] win); rewrite ?Ee, ?Ew, ?Ed; done. }
  destruct d as [| |c hd req f| |c hd n b sz| | | | | |]; try (destruct Hch as [Hch1 Hch2]; by apply Hstay); simpl in Hch.
  - destruct Hch as (stt & b & fr & Ec & Ee). cbn [events] in Hgo. destruct (decide (rq_clt_nonce hd = clt)) as [<-|Hne].
    + destruct (check_local _ _ _ _ win _ _ _ _ Hrep Hbd Ec) as (win' & Ec' & Er & Eb). rewrite evs_of_same in Hgo.
      eexists _, _. eapply (Hgo [(u32 (rq_xid hd), stt)] win'); [simpl; rewrite Ec'; done|done|done|].
      intros xid. rewrite Ee. unfold times. simpl.
      destruct (decide (stt = NEW)) as [->|]; [|rewrite decide_False by naive_solver; done]. rewrite filter_cons.
      destruct (decide (u32 (rq_xid hd) = xid ∧ NEW = NEW)) as [[<- _]|Hn]; [by rewrite decide_True|].
      rewrite decide_False by naive_solver. done.
    + destruct (check_frame _ _ _ _ _ _ _ _ clt Ec) as [Er Eb]; [congruence|]. rewrite evs_of_other in Hgo by done.
      eexists _, _. apply (Hgo [] win); [done|congruence|congruence|].
      intros xid. rewrite Ee. case_decide; [|done]. unfold times. rewrite filter_cons_False by naive_solver. done.
  - destruct Hch as [Ew Ee]. cbn [events] in Hgo |- *. destruct (rq_clt_nonce hd >? 0)%Z eqn:Eg.
    + destruct (decide (rq_clt_nonce hd = clt)) as [<-|Hne].
      * rewrite evs_of_same in Hgo. eexists _, _.
        apply (Hgo [] (add_reply (rq_clt_nonce hd) (u32 (rq_xid hd)) b sz win)); rewrite ?Ew, ?Ee; try done.
        unfold add_reply. rewrite !replies_insert. by rewrite Hrep.
      * destruct (add_reply_frame (rq_clt_nonce hd) (u32 (rq_xid hd)) b sz (s_windows (w_srv w)) clt) as [Er Eb]; [congruence|].
        rewrite evs_of_other in Hgo by done. eexists _, _.
        apply (Hgo [] win); [done|rewrite Ew; congruence|rewrite Ew; congruence|by rewrite Ee].
    + destruct Hp as [? _]. rewrite Z.gtb_ltb in Eg. zbool. lia.
Qed.

Lemma trace_inv_step u u' clt vs win : uinv u → srv_step u u' → trace_inv u clt vs win → ∃ vs' win', trace_inv u' clt vs' win'.
Proof.
  intros Hu Hs Ht. destruct Hs as [s1 c tvs tvu w B tc po at_ lk tr ex H1 H2 H3|c fd fds conns h w B tc po at_ lk tr ex H1
    |c x w B tc po at_ lk tr ex H1|x j w w' B tc ac q q' ws ad rn at_ st lk tr ex H1 H2 H3 H4 H5
    |x j w w' B tc ac q ws ad rn at_ st lk tr ex H1 H2 H3 H4|c x w B tc ac po at_ st lk tr ex H1 H2
    |t c own drop x w B tc ac po at_ st lk tr ex H1 H2 H3|t c own drop x w B tc ac po at_ st lk tr ex H1 H2 H3 H4
    |t j w B tc ac q q' ws l ad rn at_ st lk tr ex H1 H2|t d d' w w' B B' tc ac po at_ st lk tr ex H1 H2 H3
    |t j w B tc ac q ws l ad rn at_ st lk tr ex H1 H2| | | | | |]; try (destruct Ht as [Hr Hw He]; exists vs, win; by constructor).
  - destruct (got_pdu_refs_inv true (dj_conn j) w _ _ (ui_h _ _ Hu)) as (h & E & _); [by eapply (ct_conn _ _ (hi_counted _ _ _ (ui_h _ _ Hu)))|apply (ui_reach _ _ Hu)|].
    rewrite H5 in E. injection E as ->. destruct Ht as [Hr Hw He]. exists vs, win. by constructor.
  - destruct (got_pdu_refs_inv false (dj_conn j) w _ _ (ui_h _ _ Hu)) as (h & E & _); [by eapply (ct_conn _ _ (hi_counted _ _ _ (ui_h _ _ Hu)))|apply (ui_reach _ _ Hu)|].
    rewrite H4 in E. injection E as ->. destruct Ht as [Hr Hw He]. exists vs, win. by constructor.
  - destruct Ht as [Hr Hw He]. exists vs, win. constructor; [done..|]. simpl in *. intros xid. by rewrite He, !times_app, calls_wake.
  - destruct Ht as [Hr Hw He]. exists vs, win. constructor; [done..|]. simpl in *. intros xid.
    by rewrite He, !times_app, calls_insert, (calls_delete _ _ _ H1).
  - destruct Ht as [Hr Hw He]. exists vs, win. constructor; [done..|]. simpl in *. intros xid.
    by rewrite He, !times_app, calls_insert, (calls_delete _ _ _ H1).
  - destruct Ht as [Hr Hw He]. exists vs, win. constructor; [done..|]. simpl in *. intros xid. rewrite He, !times_app, calls_insert.
    rewrite delete_id; [done|]. destruct (at_ !! t) as [d|] eqn:E; [|done].
    destruct (proj1 (ui_workers _ _ Hu t)) as [j' Hj']; [simpl; rewrite E; eauto|]. simpl in *. congruence.
  - assert (st ≠ Freed) as Hst.
    { intros ->. destruct (ui_stage _ _ Hu) as [_ Hall]. destruct (proj1 (ui_workers _ _ Hu t)) as [j Hj]; [simpl; rewrite H1; eauto|].
      by specialize (Hall t _ Hj). }
    eapply trace_inv_sect; [exact Ht|done|done|apply (ui_at _ _ Hu _ _ H1)|].
    destruct (sect_in_run _ _ t d Hu H1) as (d2 & w2 & B2 & E2 & _ & _ & _ & _ & _ & Hch);
      [by intros n; eapply (sect_not_freed junk)|]. simpl in *.
    rewrite H3 in E2. by injection E2 as <- <- <-.
  - destruct Ht as [Hr Hw He]. exists vs, win. constructor; [done..|]. simpl in *. intros xid.
    rewrite He, !times_app, (calls_delete _ _ _ H2). done.
  - destruct Ht as [Hr Hw He]. exists vs, win. constructor; [done| |done]. intros _. by apply Hw.
  - destruct Ht as [Hr Hw He]. exists vs, win. constructor; [done| |done]. intros _. by apply Hw.
  - destruct Ht as [Hr Hw He]. exists vs, win. constructor; [done| |done]. intros _. by apply Hw.
Qed.

Lemma trace_inv_reachable s st lossy u clt : fresh_server s → rtc srv_step (srv_start s st lossy) u → ∃ vs win, trace_inv u clt vs win.
Proof.
  intros Hs Hr. assert (∀ u0, uinv u0 → rtc srv_step u0 u → (∃ vs win, trace_inv u0 clt vs win) → ∃ vs win, trace_inv u clt vs win) as H.
  { clear -KeepsFreed0. intros u0 Hu0 Hr. induction Hr as [|x y z Hxy Hyz IH]; [done|]. intros (vs & win & Ht). apply IH; [by eapply uinv_step|].
    by eapply trace_inv_step. }
  apply (H _ (uinv_start junk s st lossy Hs) Hr). exists [], (Windows ∅ ∅). destruct Hs as (Hw & _). constructor; simpl; [done| |done].
  by rewrite Hw.
Qed.

(** ** The end of the destructor *)
Definition rank (d : dphase) : nat :=
  match d with
  | DStart _ => 9 | DSave _ _ _ _ => 8 | DCheck _ _ _ _ => 7 | DCall _ _ _ _ => 6 | DAdd _ _ _ _ _ => 5
  | DLatest _ _ _ _ _ => 4 | DSend _ _ _ _ _ => 3 | DSent _ _ _ => 2 | DBlocked _ _ _ | DDrop _ => 1 | DEnd => 0
  end.

Lemma sect_rank d s d' s' : sect d s = Ok (d', s') → stops d = false → rank d' < rank d.
Proof.
  intros H Hne. destruct s as [w B].
  destruct d as [[c buf sz]|c hd req f|c hd req f|c hd req f|c hd n b sz|c hd own b sz|c own b sz drop|c own drop|c own drop|c|]; unfold sect in H; [..|done].
  - apply bind_Ok in H as ([hd req] & _ & H). destruct (negb (u_ok req)); [injection H as <- _; simpl; lia|].
    destruct (_ && _); [apply bind_Ok in H as (rep & _ & [= <- _]); simpl; lia|].
    destruct (s_procs (w_srv w) !! rq_proc hd); [|by apply bind_Ok in H as (? & _ & H)].
    injection H as <- _. destruct (_ =? 0)%Z; simpl; lia.
  - apply bind_Ok in H as (w1 & _ & [= <- _]). simpl. lia.
  - apply bind_Ok in H as ([[[st b1] win] fr] & _ & H). destruct st.
    + injection H as <- _. simpl. lia.
    + injection H as <- _. simpl. lia.
    + apply bind_Ok in H as ([b sz] & _ & [= <- _]). simpl. lia.
    + apply bind_Ok in H as (rep & _ & [= <- _]). simpl. lia.
  - apply bind_Ok in H as ([[ret rep] st] & _ & H). apply bind_Ok in H as (? & _ & H). apply bind_Ok in H as (? & _ & H).
    apply bind_Ok in H as (rep' & _ & H). destruct (take_buf rep') as [[b1 sz1] ?]. injection H as <- _. simpl. lia.
  - destruct (_ >? 0)%Z; [destruct (bool_decide _)|]; injection H as <- _; simpl; lia.
  - apply bind_Ok in H as ([c' w1] & _ & [= <- _]). simpl. lia.
  - apply bind_Ok in H as (? & _ & H). apply bind_Ok in H as (w1 & _ & [= <- _]). simpl. lia.
  - done.
  - injection H as <- _. destruct drop; simpl; lia.
  - apply bind_Ok in H as (w1 & _ & [= <- _]). simpl. lia.
Qed.

Definition ranks (at_ : gmap nat dphase) : nat := sum_list (rank <$> vals at_).
Lemma ranks_insert at_ t d : ranks (<[t := d]> at_) = rank d + ranks (delete t at_).
Proof. unfold ranks. by rewrite vals_insert_delete. Qed.
Lemma ranks_delete at_ t d : at_ !! t = Some d → ranks at_ = rank d + ranks (delete t at_).
Proof. intros Ht. unfold ranks. by rewrite (vals_delete _ _ _ Ht). Qed.

Definition drain_left (u : run) : nat :=
  11 * work_left (u_pool u) + ranks (u_at u) + match u_stage u with Draining => 1 | _ => 0 end.

(** Nothing is listed when the pool's destructor runs. *)
Definition ending (u : run) : Prop := u_stage u = Draining ∨ u_stage u = Freed.

Lemma ending_dead u c x : uinv u → ending u → w_conns (u_w u) !! c = Some x → c_dead x = true.
Proof.
  intros Hu He Hx. destruct (c_dead x) eqn:Hd; [done|]. pose proof (hi_live _ _ _ (ui_h _ _ Hu) c x Hx Hd) as Hc.
  unfold accepting, listed in Hc. rewrite (ui_joined _ _ Hu) in Hc by (by destruct He as [->| ->]).
  destruct He as [He|He]; rewrite He in Hc; by apply elem_of_nil in Hc.
Qed.

Lemma ending_left u : uinv u → ending u → p_left (u_pool u) ≠ None.
Proof. intros Hu He. pose proof (ui_stage _ _ Hu) as Hs. destruct He as [He|He]; rewrite He in Hs; [done|]. destruct Hs as [-> _]. done. Qed.

Lemma drain_step u u' : uinv u → ending u → srv_step u u' → drain_left u' < drain_left u ∧ ending u'.
Proof.
  intros Hu He Hs. pose proof (ending_left u Hu He) as Hl. pose proof (srv_step_pool _ _ _ Hs) as Hp. destruct Hs as [s1 c tvs tvu w B tc po at_ lk tr ex H1 H2 H3|c fd fds conns h w B tc po at_ lk tr ex H1
    |c x w B tc po at_ lk tr ex H1|x j w w' B tc ac q q' ws ad rn at_ st lk tr ex H1 H2 H3 H4 H5
    |x j w w' B tc ac q ws ad rn at_ st lk tr ex H1 H2 H3 H4|c x w B tc ac po at_ st lk tr ex H1 H2
    |t c own drop x w B tc ac po at_ st lk tr ex H1 H2 H3|t c own drop x w B tc ac po at_ st lk tr ex H1 H2 H3 H4
    |t j w B tc ac q q' ws l ad rn at_ st lk tr ex H1 H2|t d d' w w' B B' tc ac po at_ st lk tr ex H1 H2 H3
    |t j w B tc ac q ws l ad rn at_ st lk tr ex H1 H2|w B tc po at_ lk tr ex|fd fds h acts w B tc ac po at_ lk tr ex H1
    |w B tc ac q ws ad rn at_ lk tr ex|a k w B tc ac q q' ws ad rn at_ st lk tr ex H1
    |t j w B tc ac q q' ws l ad rn at_ st lk tr ex H1 H2|w B tc ac po at_ lk tr ex H1]; try (by destruct He); try done.
  - by rewrite (ending_dead _ _ _ Hu He H1) in H2.
  - by rewrite (ending_dead _ _ _ Hu He H2) in H3.
  - by rewrite (ending_dead _ _ _ Hu He H2) in H3.
  - split; [|done]. destruct Hp as [Hp|Hp].
    + apply (f_equal p_workers) in Hp. simpl in Hp. assert (<[t := Running j]> ws !! t = ws !! t) as E by (by rewrite Hp).
      rewrite list_lookup_insert_eq in E by (by eapply lookup_lt_Some). congruence.
    + destruct (work_decreases _ _ _ Hp Hl) as [Hlt _]. unfold drain_left. cbn [u_pool u_at u_stage] in *. rewrite ranks_insert. simpl.
      rewrite delete_id; [lia|]. destruct (at_ !! t) as [d|] eqn:E; [|done].
      destruct (proj1 (ui_workers _ _ Hu t)) as [j' Hj']; [simpl; rewrite E; eauto|]. simpl in *. congruence.
  - split; [|done]. unfold drain_left. cbn [u_pool u_at u_stage]. rewrite ranks_insert, (ranks_delete _ _ _ H1).
    pose proof (sect_rank _ _ _ _ H3 H2). lia.
  - split; [|done]. destruct Hp as [Hp|Hp].
    + apply (f_equal (length ∘ p_ran)) in Hp. simpl in Hp. rewrite length_app in Hp. simpl in Hp. lia.
    + destruct (work_decreases _ _ _ Hp Hl) as [Hlt _]. unfold drain_left. cbn [u_pool u_at u_stage] in *.
      rewrite (ranks_delete _ _ _ H2). lia.
  - split; [|done]. destruct Hp as [Hp|Hp].
    + apply (f_equal p_left) in Hp. simpl in Hp. injection Hp. lia.
    + destruct (work_decreases _ _ _ Hp Hl) as [Hlt _]. unfold drain_left. cbn [u_pool u_at u_stage] in *. lia.
  - split; [|done]. destruct Hp as [Hp|Hp].
    + apply (f_equal p_workers) in Hp. simpl in Hp. assert (<[t := Exited]> ws !! t = ws !! t) as E by (by rewrite Hp).
      rewrite list_lookup_insert_eq in E by (by eapply lookup_lt_Some). congruence.
    + destruct (work_decreases _ _ _ Hp Hl) as [Hlt _]. unfold drain_left. cbn [u_pool u_at u_stage] in *. lia.
  - split; [|by right]. unfold drain_left. simpl. lia.
Qed.

Lemma drain_terminates u : uinv u → ending u → sn srv_step u.
Proof.
  remember (drain_left u) as n eqn:En. revert u En. induction (lt_wf n) as [n _ IH]. intros u -> Hu He. constructor. intros u' Hs.
  destruct (drain_step _ _ Hu He Hs) as [Hlt He']. eapply IH; [exact Hlt|done|by eapply uinv_step|done].
Qed.

Lemma drain_progress u jobs pills : uinv u → pinv 6 (u_pool u) jobs pills → u_stage u = Draining →
  (∀ t d n, u_at u !! t = Some d → sends d n → n ∉ b_freed (u_bufs u)) →
  (∀ t c own drop, u_at u !! t ≠ Some (DBlocked c own drop)) → ∃ u', srv_step u u'.
Proof.
  intros Hu Hpi He Hn Hnb. destruct (pool_progress false _ _ _ _ (DJob 0 [] 0) Hpi (ending_left u Hu (or_introl He))) as [Hd|[σ' Hs]].
  { destruct u as [w B tc ac po at_ st lk tr ex]. simpl in *. subst. eexists. by apply s_free. }
  pose proof (ending_left u Hu (or_introl He)) as Hl. pose proof (ui_workers _ _ Hu) as Hwk.
  pose proof (sect_in_run junk u) as Hsect.
  destruct u as [w B tc ac po at_ st lk tr ex]. simpl in *. destruct Hs as [| | |a k q q' ws ad rn Eenq|t j q q' ws l ad rn Ht Etk
    |t j q q' ws l ad rn Ht Etk|t j q ws l ad rn Ht]; try done.
  - eexists. by eapply s_pill.
  - eexists. by eapply s_take.
  - eexists. by eapply s_exit.
  - destruct (proj2 (Hwk t)) as [d Hd]; [by exists j|]. destruct (stops d) eqn:Hstop.
    + destruct d as [| | | | | | |c own drop| | |]; try done; [by destruct (Hnb t c own drop)|]. eexists. by eapply s_return.
    + destruct (Hsect t d Hu Hd) as (d' & w' & B' & E & _); [intros n; by eapply Hn|].
      eexists. eapply s_sect; [exact Hd|done|exact E].
Qed.

(** The thread of the destructor gets to the pool by its own steps. *)
Lemma closing_completes fds u : uinv u → u_stage u = Closing fds → ∃ u', rtc srv_step u u' ∧ u_stage u' = Draining.
Proof.
  revert u. induction fds as [|fd fds IH]; intros u Hu He.
  - pose proof (ui_stage _ _ Hu) as Hl. rewrite He in Hl. destruct u as [w B tc ac [q ws l ad rn] at_ st lk tr ex]. simpl in *. subst.
    eexists. split; [apply rtc_once, s_drain|done].
  - assert (∃ h acts, close_all [fd] (conns_ (u_tcps u)) (w_conns (u_w u)) [] = Ok (h, acts)) as (h & acts & E).
    { pose proof (ui_h _ _ Hu) as Hi. unfold listed, accepting in Hi. rewrite He, (ui_joined _ _ Hu) in Hi by (by rewrite He). simpl in *.
      destruct (conns_ (u_tcps u) !! fd) as [c|] eqn:Ec; [|eauto].
      destruct (refs_inv_close _ _ _ _ Hi) as (x & h' & Hx & E' & _). unfold heap_at. rewrite Hx. run.
      destruct (closeconn x) as [x' a]. simpl in E'. rewrite E'. run. eauto. }
    destruct u as [w B tc ac po at_ st lk tr ex]. simpl in *. subst st.
    destruct (IH (Run (set_heap w h) B tc ac po at_ (Closing fds) lk tr ex)) as (u' & Hr & Hd); [by eapply uinv_close|done|].
    exists u'. split; [|done]. eapply rtc_l; [by eapply s_close|done].
Qed.

(** ** Schedules *)

(** The steps of the threads as actions that can be computed. *)
Inductive srv_act :=
  | AAccept (s1 : Z) (c : nat) (tvs tvu : Z) | ACollect | AAccepted
  | APdu (j : djob_t) | ADie (c : nat) | ABlock (t : nat)
  | ATake (t : nat) | ASect (t : nat) | AReturn (t : nat)
  | ADestroy | AClose | ADrain | APill | AExit (t : nat) | AFree.

Definition is_ok {A} (o : outcome A) : option A := match o with Ok a => Some a | Fault _ => None end.
Definition only (b : bool) : option () := if b then Some () else None.
Definition all_exited (ws : list (@worker () djob_t)) : bool := forallb exited ws.

Definition act_step (a : srv_act) (u : run) : option run :=
  let 'Run w B tc ac po at_ st lk tr ex := u in
  let 'Pool q ws l ad rn := po in
  match a, ac, st with
  | AAccept s1 c tvs tvu, None, Serving =>
      only ((0 <=? s1)%Z && bool_decide (w_conns w !! c = None) && forallb (λ x, negb (c_fd x =? s1)%Z) (vals (w_conns w)));;
      Some (Run (set_heap w (<[c := (new_connection s1 (ts_lossy tc) tvs tvu).1]> (w_conns w))) B tc
              (Some (c, keys_in_order (conns_ tc))) po at_ st lk tr ex)
  | ACollect, Some (c, fd :: fds), Serving =>
      '(conns, h) ← is_ok (collect_dead [fd] (conns_ tc) (w_conns w));
      Some (Run (set_heap w h) B (TcpsConn conns (ts_lossy tc)) (Some (c, fds)) po at_ st lk tr ex)
  | AAccepted, Some (c, []), Serving =>
      x ← w_conns w !! c;
      Some (Run w B (TcpsConn (<[c_fd x := c]> (conns_ tc)) (ts_lossy tc)) None po at_ st lk tr ex)
  | APdu j, _, _ =>
      x ← w_conns w !! dj_conn j;
      only (negb (c_dead x));;
      match l, addJob false () j q with
      | None, Added q' =>
          '(r, w') ← is_ok (got_pdu true (dj_conn j) w);
          only r;;
          Some (Run w' B tc ac (Pool q' ws None (ad ++ [Job (Some ()) j]) rn) at_ st lk tr ex)
      | _, _ => None
      end
  | ADie c, _, _ =>
      x ← w_conns w !! c;
      only (negb (c_dead x));;
      Some (Run (set_heap w (<[c := set_dead x]> (w_conns w))) B tc ac po (wake c <$> at_) st lk tr ex)
  | ABlock t, _, _ =>
      match at_ !! t with
      | Some (DSent c own drop) =>
          x ← w_conns w !! c;
          only (negb (c_dead x));;
          Some (Run w B tc ac po (<[t := DBlocked c own drop]> at_) st lk tr ex)
      | _ => None
      end
  | ATake t, _, _ =>
      match ws !! t, takeJob q with
      | Some Idle, Some (true, j, q') =>
          Some (Run w B tc ac (Pool q' (<[t := Running j]> ws) l ad rn) (<[t := DStart (j_a j)]> at_) st lk tr ex)
      | _, _ => None
      end
  | ASect t, _, _ =>
      d ← at_ !! t;
      only (negb (stops d));;
      '(d', (w', B')) ← is_ok (sect d (w, B));
      Some (Run w' B' tc ac po (<[t := d']> at_) st (leaks d ++ lk) (tr ++ events d) (execs d ++ ex))
  | AReturn t, _, _ =>
      match ws !! t, at_ !! t with
      | Some (Running j), Some DEnd => Some (Run w B tc ac (Pool q (<[t := Idle]> ws) l ad (rn ++ [j])) (delete t at_) st lk tr ex)
      | _, _ => None
      end
  | ADestroy, None, Serving => Some (Run w B tc None po at_ (Closing (keys_in_order (conns_ tc))) lk tr ex)
  | AClose, _, Closing (fd :: fds) =>
      '(h, acts) ← is_ok (close_all [fd] (conns_ tc) (w_conns w) []);
      Some (Run (set_heap w h) B tc ac po at_ (Closing fds) lk tr ex)
  | ADrain, _, Closing [] =>
      match l with
      | None => Some (Run w B tc ac (Pool q ws (Some (length ws)) ad rn) at_ Draining lk tr ex)
      | Some _ => None
      end
  | APill, _, _ =>
      match l with
      | Some (Datatypes.S k) =>
          q' ← enq_look (pill (DJob 0 [] 0)) q;
          Some (Run w B tc ac (Pool q' ws (Some k) ad rn) at_ st lk tr ex)
      | _ => None
      end
  | AExit t, _, _ =>
      match ws !! t, takeJob q with
      | Some Idle, Some (false, j, q') => Some (Run w B tc ac (Pool q' (<[t := Exited]> ws) l ad rn) at_ st lk tr ex)
      | _, _ => None
      end
  | AFree, _, Draining =>
      only (bool_decide (l = Some 0) && all_exited ws);;
      Some (Run (set_srv w (set_windows (w_srv w) (free_reply_window (s_windows (w_srv w)))))
              (free_bufs (window_bufs (s_windows (w_srv w)) B) B) tc ac po at_ Freed lk tr ex)
  | _, _, _ => None
  end.

Fixpoint act_run (l : list srv_act) (u : run) : option run :=
  match l with [] => Some u | a :: l => u ← act_step a u; act_run l u end.

Lemma only_Some b (r : ()) : only b = Some r → b = true.
Proof. by destruct b. Qed.
Lemma is_ok_Some {A} (o : outcome A) a : is_ok o = Some a → o = Ok a.
Proof. by destruct o; intros [= ->]. Qed.

(** The request of an action, if it has one, is one that the server can serve. *)
Definition act_ok (s : rpcs S) (a : srv_act) : Prop := match a with APdu j => job_ok junk s j | _ => True end.

Lemma act_step_sound a u u' : act_ok (w_srv (u_w u)) a → act_step a u = Some u' → srv_step u u'.
Proof.
  intros Ha E. destruct u as [w B tc ac [q ws l ad rn] at_ st lk tr ex]. unfold act_step in E.
  destruct a as [s1 c tvs tvu| | |j|c|t|t|t|t| | | | |t|].
  - destruct ac, st; try done. apply bind_Some in E as (? & (H & H3)%only_Some%andb_prop & [= <-]).
    apply andb_prop in H as [H1 H2]. apply s_accept; [by apply Z.leb_le|by apply bool_decide_eq_true in H2|].
    intros c' y Hy Hfd. rewrite forallb_forall in H3. specialize (H3 y). rewrite <- list_elem_of_In in H3.
    assert (y ∈ vals (w_conns w)) as Hin by (apply elem_of_vals; eauto). specialize (H3 Hin). rewrite Hfd, Z.eqb_refl in H3. done.
  - destruct ac as [[c [|fd fds]]|], st; try done. apply bind_Some in E as ([conns h] & H%is_ok_Some & [= <-]). by apply s_collect.
  - destruct ac as [[c [|fd fds]]|], st; try done. apply bind_Some in E as (x & Hx & [= <-]). by apply s_accepted.
  - apply bind_Some in E as (x & Hx & E). apply bind_Some in E as (? & Hd%only_Some & E). destruct l; [done|].
    destruct (addJob false () j q) eqn:Ej; try done. apply bind_Some in E as ([[] w'] & Hg%is_ok_Some & E); [|done].
    injection E as <-. eapply s_pdu; [done|by destruct (c_dead x)|done|done|done].
  - apply bind_Some in E as (x & Hx & E). apply bind_Some in E as (? & Hd%only_Some & [= <-]). apply s_die; [done|by destruct (c_dead x)].
  - destruct (at_ !! t) as [[]|] eqn:Et; try done. apply bind_Some in E as (x & Hx & E). apply bind_Some in E as (? & Hd%only_Some & [= <-]).
    eapply s_block; [done|done|by destruct (c_dead x)].
  - destruct (ws !! t) as [[]|] eqn:Et; try done. destruct (takeJob q) as [[[[] j] q']|] eqn:Ej; try done. injection E as <-. by eapply s_take.
  - apply bind_Some in E as (d & Hd & E). apply bind_Some in E as (? & Hr%only_Some & E).
    apply bind_Some in E as ([d' [w' B']] & Hs%is_ok_Some & [= <-]). eapply s_sect; [done| |done]. by destruct (stops d).
  - destruct (ws !! t) as [[]|] eqn:Et; try done. destruct (at_ !! t) as [[]|] eqn:Ed; try done. injection E as <-. by apply s_return.
  - destruct ac, st; try done. injection E as <-. apply s_destroy.
  - destruct st as [|[|fd fds]| |]; try done. apply bind_Some in E as ([h acts] & H%is_ok_Some & [= <-]). by eapply s_close.
  - destruct st as [|[|fd fds]| |], l; try done. injection E as <-. apply s_drain.
  - destruct l as [[|k]|]; try done. apply bind_Some in E as (q' & Hq & [= <-]). by eapply s_pill.
  - destruct (ws !! t) as [[]|] eqn:Et; try done. destruct (takeJob q) as [[[[] j] q']|] eqn:Ej; try done. injection E as <-. by eapply s_exit.
  - destruct st; try done. apply bind_Some in E as (? & (H1 & H2)%only_Some%andb_prop & [= <-]).
    apply bool_decide_eq_true in H1 as ->. apply s_free. split; [done|]. simpl. intros t v Hv. unfold all_exited in H2.
    rewrite forallb_forall in H2. assert (exited v = true) as He by (apply H2, list_elem_of_In; by eapply list_elem_of_lookup_2).
    by destruct v.
Qed.

(** Running keeps the procedures and the nonce. *)
Lemma srv_step_grows u u' : uinv u → srv_step u u' → grows (w_srv (u_w u)) (w_srv (u_w u')).
Proof.
  intros Hu Hs. destruct Hs as [| | |x j w w' B tc ac q q' ws ad rn at_ st lk tr ex H1 H2 H3 H4 H5
    |x j w w' B tc ac q ws ad rn at_ st lk tr ex H1 H2 H3 H4| | | | |t d d' w w' B B' tc ac po at_ st lk tr ex H1 H2 H3| | | | | | |]; try done.
  - destruct (got_pdu_refs_inv true (dj_conn j) w _ _ (ui_h _ _ Hu)) as (h & E & _);
      [by eapply (ct_conn _ _ (hi_counted _ _ _ (ui_h _ _ Hu)))|apply (ui_reach _ _ Hu)|]. rewrite H5 in E. by injection E as ->.
  - destruct (got_pdu_refs_inv false (dj_conn j) w _ _ (ui_h _ _ Hu)) as (h & E & _);
      [by eapply (ct_conn _ _ (hi_counted _ _ _ (ui_h _ _ Hu)))|apply (ui_reach _ _ Hu)|]. rewrite H4 in E. by injection E as ->.
  - destruct (sect_in_run _ _ t d Hu H1) as (d2 & w2 & B2 & E2 & _ & _ & _ & Hg & _); [by intros n; eapply (sect_not_freed junk)|].
    simpl in *. rewrite H3 in E2. by injection E2 as <- <- <-.
Qed.

Lemma act_run_sound l u u' : uinv u → Forall (act_ok (w_srv (u_w u))) l → act_run l u = Some u' → rtc srv_step u u'.
Proof.
  revert u. induction l as [|a l IH]; intros u Hu Hl; simpl; [by intros [= ->]|].
  apply Forall_cons in Hl as [Ha Hl]. intros (u1 & E1 & E)%bind_Some.
  pose proof (act_step_sound _ _ _ Ha E1) as Hs. eapply rtc_l; [done|]. apply IH; [by eapply uinv_step| |done].
  eapply Forall_impl; [done|]. intros [] Hok; try done. eapply job_ok_grows; [done|]. by apply srv_step_grows.
Qed.
End life.
Arguments act_run {Al S} junk l u.

(** Does a worker send a reply that was freed? *)
Definition freed_send {S} (B : bufs) (d : dphase S) : bool :=
  match d with DSend _ (Some n) _ _ _ | DBlocked _ (Some n) _ => bool_decide (n ∈ b_freed B) | _ => false end.

Lemma freed_send_spec {S} B (d : dphase S) : freed_send B d = true ↔ ∃ n, sends d n ∧ n ∈ b_freed B.
Proof.
  destruct d as [| | | | | |c [n|] b sz drop|c [n|] drop| | |]; simpl; try naive_solver; rewrite bool_decide_eq_true; naive_solver.
Qed.

Lemma freed_send_dec {S} (u : run S) :
  (∃ t d n, u_at u !! t = Some d ∧ sends d n ∧ n ∈ b_freed (u_bufs u)) ∨
  (∀ t d n, u_at u !! t = Some d → sends d n → n ∉ b_freed (u_bufs u)).
Proof.
  destruct (decide (map_Forall (λ _ d, freed_send (u_bufs u) d = false) (u_at u))) as [Hall|Hn].
  - right. intros t d n Ht Hsd Hf. specialize (Hall t d Ht). simpl in Hall.
    assert (freed_send (u_bufs u) d = true) by (apply freed_send_spec; eauto). congruence.
  - left. apply map_not_Forall in Hn as (t & d & Ht & Hd); [|apply _]. apply not_false_is_true in Hd.
    apply freed_send_spec in Hd as (n & ? & ?). by exists t, d, n.
Qed.

Lemma blocked_dec {S} (at_ : gmap nat (dphase S)) :
  (∃ t c own drop, at_ !! t = Some (DBlocked c own drop)) ∨ (∀ t c own drop, at_ !! t ≠ Some (DBlocked c own drop)).
Proof.
  set (blocked := λ d : dphase S, match d with DBlocked _ _ _ => true | _ => false end).
  destruct (decide (map_Forall (λ _ d, blocked d = false) at_)) as [Hall|(t & d & Ht & Hd)%map_not_Forall]; [| |apply _].
  - right. intros t c own drop Ht. by specialize (Hall t _ Ht).
  - left. destruct d as [| | | | | | |c own drop| | |]; try (by destruct Hd). by exists t, c, own, drop.
Qed.

Lemma sn_sub {A} (R R' : relation A) x : (∀ y z, R' y z → R y z) → sn R x → sn R' x.
Proof. intros Hsub. induction 1 as [x _ IH]. constructor. intros y Hy. by apply IH, Hsub. Qed.

(** ** Freed list nodes

    What the server does, it also does where freed nodes keep their contents; the other
    way round a step is one, or it is in the trimming of the window that uses a freed node. *)
Section keeping.
Context {Al : allocator} {S : Type} (junk : nat → ascii).

Lemma sect_keeps (d : dphase S) s r : sect junk d s = Ok r → sect (Al := keeping) junk d s = Ok r.
Proof.
  destruct s as [w B]. destruct d; try done. unfold sect. intros (x & E & <-)%bind_Ok. by rewrite (check_keeps _ _ _ _ _ E).
Qed.
Lemma sect_keeping (d : dphase S) s r : sect (Al := keeping) junk d s = Ok r →
  sect junk d s = Ok r ∨ freed_nodes_keep = false ∧ sect junk d s = Fault UseAfterFree.
Proof.
  destruct s as [w B]. destruct d; try by left. unfold sect. intros (x & E & <-)%bind_Ok.
  destruct (check_keeping _ _ _ _ _ E) as [->|[? ->]]; [by left|by right].
Qed.

Lemma srv_step_keeps (u u' : run S) : srv_step junk u u' → srv_step (Al := keeping) junk u u'.
Proof.
  intros Hs. destruct Hs; try (by econstructor). eapply s_sect; [done|done|by apply sect_keeps].
Qed.
Lemma srv_steps_keep (u u' : run S) : rtc (srv_step junk) u u' → rtc (srv_step (Al := keeping) junk) u u'.
Proof. induction 1 as [|x y z Hxy _ IH]; [done|]. eapply rtc_l; [by apply srv_step_keeps|done]. Qed.

Lemma srv_step_keeping (u u' : run S) : srv_step (Al := keeping) junk u u' →
  srv_step junk u u' ∨
  freed_nodes_keep = false ∧ ∃ t d, u_at u !! t = Some d ∧ sect junk d (u_w u, u_bufs u) = Fault UseAfterFree.
Proof.
  intros Hs. destruct Hs; try (left; by econstructor).
  match goal with H : ServerRun.sect _ _ _ = Ok _ |- _ => destruct (sect_keeping _ _ _ H) as [E|[Hk E]] end.
  - left. by eapply s_sect.
  - right. split; [done|]. by do 2 eexists.
Qed.

Lemma uinv_any s st lossy (u : run S) : fresh_server s → rtc (srv_step junk) (srv_start s st lossy) u → uinv junk u.
Proof. intros Hs Hr. by apply (uinv_reachable (Al := keeping) junk s st lossy u Hs), srv_steps_keep. Qed.
End keeping.

(** ** The properties *)

(** C5: The threads of a server, its listener, its six workers and its destructor in any
    interleaving, for requests of clients that have a nonce and whose handlers return a
    status that is not negative: a worker is never led to an object that is gone, so that
    whatever section it is in runs through, unless it sends a reply whose buffer was freed,
    or trims the window where a freed list node does not keep its contents; every
    connection object has as many references as there are pointers to it in the
    listener, the jobs, the workers, the map of latest connections and the requests to
    an old instance; when the pool is deleted no connection is open, so none can add a
    job; and when the destructor is through every accepted request was dispatched once,
    and the objects left are those that the map of latest connections and the requests
    to an old instance still refer to, which nobody deletes. *)
Theorem server_references_exact {Al : allocator} {S} junk (s : rpcs S) st lossy u :
  fresh_server s → rtc (srv_step junk) (srv_start s st lossy) u →
  (∀ t d, u_at u !! t = Some d → (∀ n, sends d n → n ∉ b_freed (u_bufs u)) →
     (∃ d' s', sect junk d (u_w u, u_bufs u) = Ok (d', s')) ∨
     freed_nodes_keep = false ∧ sect junk d (u_w u, u_bufs u) = Fault UseAfterFree) ∧
  (∀ c x, w_conns (u_w u) !! c = Some x →
     c_refno x = Z.of_nat (count_occ Nat.eq_dec ((accepting u ++ listed u) ++ other_refs u) c)) ∧
  (u_stage u = Draining ∨ u_stage u = Freed → ∀ c x, w_conns (u_w u) !! c = Some x → c_dead x = true) ∧
  (u_stage u = Freed → p_ran (u_pool u) ≡ₚ p_added (u_pool u) ∧
     ∀ c, is_Some (w_conns (u_w u) !! c) ↔ c ∈ vals (s_conns (w_srv (u_w u))) ++ u_leaked u).
Proof.
  intros Hs Hr. pose proof (uinv_any junk s st lossy u Hs Hr) as Hu. split_and!.
  - intros t d Ht Hn. destruct (sect_in_run (Al := keeping) _ _ t d Hu Ht Hn) as (d' & w' & B' & E & _).
    destruct (sect_keeping junk _ _ _ E) as [E'|?]; [|by right]. left. eauto.
  - intros c x Hx. by destruct (ct_conn _ _ (hi_counted _ _ _ (ui_h _ _ Hu)) c x Hx) as (_ & ? & _).
  - intros He c x. by apply (ending_dead junk u c x Hu He).
  - intros He. destruct (pool_reachable junk s st lossy u Hr) as (jobs & pills & Hpi).
    pose proof (ui_stage _ _ Hu) as Hd. rewrite He in Hd. destruct (deleted_spec _ 6 _ _ ltac:(done) Hpi Hd) as [Hq Hran]. split; [done|].
    assert (u_at u = ∅) as Hat.
    { apply map_empty. intros t. destruct (u_at u !! t) as [d|] eqn:E; [|done]. destruct (proj1 (ui_workers _ _ Hu t)) as [j Hj]; [by rewrite E|].
      destruct Hd as [_ Hall]. by specialize (Hall t _ Hj). }
    assert ((accepting u ++ listed u) ++ other_refs u = vals (s_conns (w_srv (u_w u))) ++ u_leaked u) as <-.
    { unfold accepting, listed, other_refs. rewrite He, (ui_joined _ _ Hu) by (by rewrite He). by rewrite Hq, Hat. }
    intros c. split; [|apply (ct_in _ _ (hi_counted _ _ _ (ui_h _ _ Hu)))].
    intros [x Hx]. by apply (ct_conn _ _ (hi_counted _ _ _ (ui_h _ _ Hu)) c x).
Qed.

(** C4: At most once with all workers side by side, for requests of clients that have a
    nonce and whose handlers return a status that is not negative: whatever the
    interleaving, and whatever becomes of freed list nodes, if the requests of a client, in
    the order in which the workers look them up, do not lower the xid it acknowledges, no
    handler is run twice for one of its requests. *)
Theorem concurrent_at_most_once {Al : allocator} {S} junk (s : rpcs S) st lossy u clt xid :
  fresh_server s → rtc (srv_step junk) (srv_start s st lossy) u →
  acks_in_order [] 0 (evs_of clt (u_trace u)) → times (clt, xid) (u_execs u) ≤ 1.
Proof.
  intros Hs Hr%srv_steps_keep Ha. destruct (trace_inv_reachable junk s st lossy u clt Hs Hr) as (vs & win & [Hrun _ Hex]).
  destruct (win_run_executions (Al := keeping) clt (evs_of clt (u_trace u)) (Windows ∅ ∅) []) as (vs' & win' & Hrun' & Hle).
  - split; [apply SSorted_nil|done].
  - split_and!; [done|by intros x ?%elem_of_nil..].
  - done.
  - rewrite Hrun in Hrun'. injection Hrun' as <- <-. specialize (Hex xid). rewrite times_app in Hex. specialize (Hle xid).
    destruct Hle as [Hle _]. lia.
Qed.

(** C26: The destructor of a server ends unless a worker is stuck, for requests of clients
    that have a nonce and whose handlers return.  While it closes the connections its own
    steps lead it to the pool, whatever else goes on; from there every run of all threads is
    finite, and where it stops the destructor is through, or a worker is blocked for good in
    [connection::send] on a connection that was closed, or a worker sends a reply whose
    buffer was freed, or trims the window where a freed list node does not keep its
    contents. *)
Theorem destructor_ends {Al : allocator} {S} junk (s : rpcs S) st lossy u :
  fresh_server s → rtc (srv_step junk) (srv_start s st lossy) u →
  (∀ fds, u_stage u = Closing fds → ∃ u', rtc (srv_step junk) u u' ∧ u_stage u' = Draining) ∧
  (u_stage u = Draining →
     sn (srv_step junk) u ∧
     ∀ u', rtc (srv_step junk) u u' → nf (srv_step junk) u' →
       u_stage u' = Freed ∨
       (∃ t c own drop x, u_at u' !! t = Some (DBlocked c own drop) ∧ w_conns (u_w u') !! c = Some x ∧ c_dead x = true) ∨
       (∃ t d n, u_at u' !! t = Some d ∧ sends d n ∧ n ∈ b_freed (u_bufs u')) ∨
       freed_nodes_keep = false ∧ ∃ t d, u_at u' !! t = Some d ∧ sect junk d (u_w u', u_bufs u') = Fault UseAfterFree).
Proof.
  intros Hs Hr. pose proof (uinv_any junk s st lossy u Hs Hr) as Hu. split.
  - intros fds. by apply closing_completes.
  - intros He. split.
    { apply (sn_sub (srv_step (Al := keeping) junk)); [apply srv_step_keeps|]. by apply drain_terminates; [..|left]. }
    intros u' Hr' Hnf.
    assert (rtc (srv_step junk) (srv_start s st lossy) u') as Hr2 by (by etrans).
    pose proof (uinv_any junk s st lossy u' Hs Hr2) as Hu'. destruct (pool_reachable junk s st lossy u' Hr2) as (jobs & pills & Hpi).
    assert (ending u') as Hend.
    { apply srv_steps_keep in Hr'. clear -Hr' Hu He. assert (ending u) as H by (by left). clear He. induction Hr' as [|x y z Hxy Hyz IH]; [done|].
      apply IH; [by eapply (uinv_step (Al := keeping) junk x y)|]. by apply (drain_step (Al := keeping) junk x y). }
    destruct Hend as [Hd|Hd]; [|by left]. right. destruct (blocked_dec (u_at u')) as [(t & c & own & drop & Ht)|Hnb].
    { left. exists t, c, own, drop. pose proof (hi_counted _ _ _ (ui_h _ _ Hu')) as Hct.
      destruct (ct_in _ _ Hct c) as [x Hx].
      { unfold other_refs. rewrite (worker_refs_delete _ _ _ Ht). set_solver. }
      exists x. split_and!; [done..|]. by apply (ending_dead junk u' c x Hu' (or_introl Hd)). }
    right. destruct (freed_send_dec u') as [Hf|Hf]; [by left|]. right.
    destruct (drain_progress (Al := keeping) junk u' jobs pills Hu' Hpi Hd Hf Hnb) as [u2 Hstep].
    destruct (srv_step_keeping _ _ _ Hstep) as [?|?]; [|done]. destruct Hnf. by eexists.
Qed.

(** ** Examples *)
#[local] Existing Instance keeping.

(** A server with one procedure, which adds its argument to a counter. *)
Definition ex_add (st a r : Z) : outcome (Z * Z * Z) := Ok (st + a, a, 0)%Z.
Definition ex_rpcs : rpcs Z :=
  Rpcs 55 (Windows ∅ ∅) ∅ 0 0 ∅ true {[4098%Z := h1 (int_codec jz) (int_codec jz) ex_add]}.
(** The request [xid] of client 77, which acknowledges up to [rep]. *)
Definition ex_request (c : nat) (xid rep : Z) : djob_t :=
  DJob c (lit "size" ++ enc_req_header (ReqHeader xid 4098 77 55 rep) ++ enc_int 2) 28.

Lemma ex_fresh_server : fresh_server ex_rpcs.
Proof. done. Qed.

Lemma ex_request_ok c xid rep : (0 <= rep < xid)%Z → (xid < 2 ^ 31)%Z → job_ok jz ex_rpcs (ex_request c xid rep).
Proof.
  intros Hr Hx. destruct (unpack_req_packet (ReqHeader xid 4098 77 55 rep) (enc_int 2)
    (lit "size" ++ enc_req_header (ReqHeader xid 4098 77 55 rep) ++ enc_int 2) []) as (u & pre & E & Hu).
  { by exists (lit "size"). }
  { repeat split; simpl; lia. }
  { done. }
  rewrite app_nil_r in E. exists (ReqHeader xid 4098 77 55 rep), u. split; [exact E|]. right. right. split; [by right|].
  exists (h1 (int_codec jz) (int_codec jz) ex_add). split; [done|]. split_and!; [done|simpl; rewrite !u32_small by lia; lia|].
  intros st. destruct (new_marshall_holds jz) as (hd & Lhd & Hhd).
  destruct (h1_spec (int_codec jz) (int_codec jz) (λ x, is_i32 x) enc_int (λ x, is_i32 x) enc_int ex_add st (st + 2)%Z 2%Z 2%Z 0%Z u pre
    (new_marshall jz) hd) as (m & Em & Hm); [lia|exact Hu|reflexivity|lia|exact Hhd| |].
  { unfold size. rewrite Lhd. done. }
  exists 0%Z, m, (st + 2)%Z, hd, (enc_int 2). split_and!; [exact Em|lia|exact Hm|exact Lhd].
Qed.

(** A connection is accepted, request 1 is served by worker 0, the server destroyed. *)
Definition ex_served : list (srv_act) :=
  [AAccept 7 1 10 0; AAccepted; APdu (ex_request 1 1 0); ATake 0] ++ replicate 9 (ASect 0) ++ [AReturn 0].
Definition ex_destroyed : list srv_act :=
  [ADestroy; AClose; ADrain] ++ replicate 6 APill ++ [AExit 0; AExit 1; AExit 2; AExit 3; AExit 4; AExit 5; AFree].
Definition ex_state (l : list srv_act) : run Z := default (srv_start ex_rpcs 40%Z 0) (act_run jz l (srv_start ex_rpcs 40%Z 0)).

Lemma ex_run l : Forall (act_ok jz ex_rpcs) l →
  (match act_run jz l (srv_start ex_rpcs 40%Z 0) with Some _ => true | None => false end) = true →
  rtc (srv_step jz) (srv_start ex_rpcs 40%Z 0) (ex_state l).
Proof.
  intros Hl Hb. unfold ex_state. destruct (act_run jz l _) as [u|] eqn:Hu; [|done]. simpl. apply (act_run_sound jz l); [apply uinv_start, ex_fresh_server|done|done].
Qed.

Lemma ex_life_runs : rtc (srv_step jz) (srv_start ex_rpcs 40%Z 0) (ex_state (ex_served ++ ex_destroyed)).
Proof.
  apply ex_run; [|vm_compute; reflexivity].
  repeat (apply Forall_cons; split; [first [exact I|apply ex_request_ok; lia]|]). by apply Forall_nil.
Qed.

(** The connection of client 77 is left. *)
Lemma server_references_exact_witness :
  p_ran (u_pool (ex_state (ex_served ++ ex_destroyed))) ≡ₚ p_added (u_pool (ex_state (ex_served ++ ex_destroyed))) ∧
  is_Some (w_conns (u_w (ex_state (ex_served ++ ex_destroyed))) !! 1).
Proof.
  destruct (server_references_exact jz ex_rpcs 40%Z 0 (ex_state (ex_served ++ ex_destroyed)) ex_fresh_server ex_life_runs)
    as (_ & _ & _ & H). destruct H as [H1 H2]; [vm_compute; reflexivity|]. split; [exact H1|]. apply H2.
  replace (vals _ ++ _) with [1] by (vm_compute; reflexivity). by left.
Defined.

Lemma concurrent_at_most_once_witness : times (77, 1)%Z (u_execs (ex_state (ex_served ++ ex_destroyed))) ≤ 1.
Proof.
  apply (concurrent_at_most_once jz ex_rpcs 40%Z 0 _ 77 1 ex_fresh_server ex_life_runs).
  replace (evs_of 77 _) with (evs_of 77 (u_trace (ex_state ex_served))) by (vm_compute; reflexivity).
  vm_compute. repeat split; discriminate.
Defined.

Lemma ex_drain_runs : rtc (srv_step jz) (srv_start ex_rpcs 40%Z 0) (ex_state (ex_served ++ [ADestroy; AClose; ADrain])).
Proof.
  apply ex_run; [|vm_compute; reflexivity].
  repeat (apply Forall_cons; split; [first [exact I|apply ex_request_ok; lia]|]). by apply Forall_nil.
Qed.

Lemma destructor_ends_witness : sn (srv_step jz) (ex_state (ex_served ++ [ADestroy; AClose; ADrain])).
Proof.
  destruct (destructor_ends jz ex_rpcs 40%Z 0 _ ex_fresh_server ex_drain_runs) as [_ H].
  apply H. vm_compute. reflexivity.
Defined.

(** ** Where it goes wrong *)

(** A duplicate of request 1 is found DONE by worker 0; before it sends the recorded
    reply, worker 1 looks up request 2, which acknowledges request 1, and frees it. *)
Definition ex_race : list srv_act :=
  ex_served ++ [APdu (ex_request 1 1 0); APdu (ex_request 1 2 1); ATake 0; ATake 1] ++ replicate 3 (ASect 0) ++ replicate 3 (ASect 1).

(** A worker can send a reply that another worker has freed: the lock of the window is
    given up between [checkduplicate_and_update] and [send]. *)
Theorem reply_freed_while_sent :
  ∃ u t d n, rtc (srv_step jz) (srv_start ex_rpcs 40%Z 0) u ∧ u_at u !! t = Some d ∧ sends d n ∧ n ∈ b_freed (u_bufs u) ∧
    sect jz d (u_w u, u_bufs u) = Fault OutOfBounds.
Proof.
  assert (rtc (srv_step jz) (srv_start ex_rpcs 40%Z 0) (ex_state ex_race)) as Hr.
  { apply ex_run; [|vm_compute; reflexivity].
    repeat (apply Forall_cons; split; [first [exact I|apply ex_request_ok; lia]|]). by apply Forall_nil. }
  assert (match u_at (ex_state ex_race) !! 0 with Some d => freed_send (u_bufs (ex_state ex_race)) d && negb (stops d) | None => false end = true) as Hf
    by (vm_compute; reflexivity).
  generalize dependent (ex_state ex_race). intros u Hr Hf. destruct (u_at u !! 0) as [d|] eqn:Ed; [|done].
  apply andb_prop in Hf as [Hf Hst]. apply freed_send_spec in Hf as (n & Hn & Hf). exists u, 0, d, n. split_and!; [done..|].
  destruct d as [| | | | | |c [k|] b sz drop|c [k|] drop| | |]; try done. simpl in Hn. subst k. unfold sect. by rewrite bool_decide_true.
Qed.

(** When the connection of a client without a nonce dies while its request is served, the
    dispatcher takes the entry of the map of latest connections that is not there. *)
Theorem unreliable_client_crashes {Al : allocator} {S} junk c hd own b sz (w : world S) B x :
  rq_clt_nonce hd = 0%Z → s_conns (w_srv w) !! 0%Z = None →
  w_conns w !! c = Some x → c_dead x = true → (1 <= c_refno x)%Z → cb_buf (c_wpdu x) = None →
  sect junk (DLatest c hd own b sz) (w, B) = Fault NullDeref.
Proof.
  intros Hz Hn Hx Hd Hr Hb. unfold sect, reply_conn, conn_decref, conn_at, heap_decref, heap_at, decref, destroy.
  rewrite Hz, Hx. run. unfold isdead. rewrite Hd, Hn. rewrite bool_decide_true by done. cbn [andb c_refno set_refno c_dead c_wpdu].
  rewrite Z.geb_leb. destruct (Z.leb_spec 0 (c_refno x - 1)); [|lia]. run. rewrite Hd, Hb.
  rewrite bool_decide_true by done. destruct (_ =? 0)%Z; cbn; rewrite Hn; done.
Qed.

(** The reply of request 1 does not fit the socket at once, and the worker waits; the
    destructor closes the connection, which does not wake it. *)
Definition ex_stuck : list srv_act :=
  [AAccept 7 1 10 0; AAccepted; APdu (ex_request 1 1 0); ATake 0] ++ replicate 7 (ASect 0) ++ [ABlock 0; ADestroy; AClose; ADrain].

Theorem destructor_meets_blocked_worker :
  ∃ u x, rtc (srv_step jz) (srv_start ex_rpcs 40%Z 0) u ∧ u_stage u = Draining ∧
    u_at u !! 0 = Some (DBlocked 1 (Some 0) true) ∧ w_conns (u_w u) !! 1 = Some x ∧ c_dead x = true.
Proof.
  assert (rtc (srv_step jz) (srv_start ex_rpcs 40%Z 0) (ex_state ex_stuck)) as Hr.
  { apply ex_run; [|vm_compute; reflexivity].
    repeat (apply Forall_cons; split; [first [exact I|apply ex_request_ok; lia]|]). by apply Forall_nil. }
  exists (ex_state ex_stuck). eexists. split; [exact Hr|]. split_and!; by vm_compute.
Qed.
