(* ===== verification/ClientRun.v ===== *)
(** * The running RPC client (class rpcc of rpc/rpc.cc with its threads)

    The threads of one client object interleaved: any number of threads in [call1], each at
    one of its critical sections, the poll manager's thread in [got_pdu], a thread that
    cancels and the one that destroys the client.  The steps run the operations of
    RpcClient.v, which [call1] composes for one thread; the connections are counted as in
    ConnRefs.v. *)

From stdpp Require Import base tactics numbers list gmap sets sorting relations.
From Stdlib Require Import ZArith Lia Ascii.
From S2P Require Import Prelude CxxString Marshall Connection ConnRefs RpcServer RpcTime RpcClient RpcCancel RpcCall.

(** The locals of [call1]: the xid, the acknowledgement sent, the request, [curr_to] and
    [finaldeadline]. *)
Record calling := Calling { k_xid : Z; k_rep : Z; k_req : marshall; k_to : Z; k_final : timespec }.

(** Where a thread is in [call1], with the connection [ch] that it refers to: before
    [get_refconn], before the sends, in [connection::send], where it may be blocked, before
    the next deadline is computed, waiting, past the loop, returned. *)
Inductive cphase :=
  | CConn (k : calling) (ch : option nat)
  | CSend (k : calling) (ch : option nat)
  | CSent (k : calling) (p : nat)
  | CTop (k : calling) (ch : option nat)
  | CWait (k : calling) (ch : option nat)
  | CEnd (k : calling) (ch : option nat)
  | CRet (xid : Z) (ret : Z) (un : unmarshall).

(** The client with its connections, its threads, whether it is destroyed; for the property
    the replies that came in: xid, status and what is left to read. *)
Record crun := CRun {
  v_w : cworld; v_at : gmap nat cphase; v_gone : bool; v_replies : list (Z * Z * unmarshall) }.

(** A connection that [connect_to_dst] makes: new, on a descriptor that no other object
    has, but for the connection that the client gives up in the same step. *)
Definition fresh_ok (fresh : option (nat * connection)) (w : cworld) : Prop :=
  match fresh with
  | None => True
  | Some (p, x) =>
      cw_conns w !! p = None ∧ c_refno x = 1%Z ∧ cb_buf (c_wpdu x) = None ∧
      ∀ c x', cw_conns w !! c = Some x' → c_fd x' = c_fd x → chan (cw_clt w) = Some c ∧ c_refno x' = 1%Z
  end.

(** The reply that a packet holds, if its header unpacks. *)
Definition reply_of (b : bytes) (sz : Z) : list (Z * Z * unmarshall) :=
  match unpack_reply_header (unmarshall_of b sz) with
  | Ok (h, rep) => if u_ok rep then [(rp_xid h, rp_ret h, take_in rep)] else []
  | Fault _ => []
  end.

(** Has the thread's connection died, or does it have none? *)
Definition is_gone (ch : option nat) (h : conn_heap) : outcome bool :=
  match ch with None => Ok true | Some p => x ← heap_at p h; Ok (isdead x) end.

(** [rpcc::set_reachable] *)
Definition set_reachable (c : rpcc) (r : bool) : rpcc :=
  Rpcc (clt_nonce c) (srv_nonce c) (bind_done c) (next_xid c) (lossytest c) (retrans c) r (chan c)
    (destroy_wait c) (calls c) (xid_rep_window c) (dup_req c) (xid_rep_done c).

(** A thread whose request is with a connection may stay at [CSent].  The last critical sections of [call1] are one step, [l_end]: no thread reaches the
    caller once it is erased from [calls_]. *)
Section run.
Context (junk : nat → ascii).

Inductive cl_step : crun → crun → Prop :=
  | l_begin t proc req rep hd body to now xid xrep req' final w w' at_ rs :
      at_ !! t = None → holds req (hd ++ body) → length hd = 24 →
      call1_begin junk proc req rep w = Ok (inr (xid, xrep, req', w')) → calls (cw_clt w) !! i32 xid = None →
      add_timespec now to = Ok final →
      cl_step (CRun w at_ false rs) (CRun w' (<[t := CConn (Calling xid xrep req' to_min final) None]> at_) false rs)
  | l_conn t k ch ch' fresh w w' at_ rs :
      at_ !! t = Some (CConn k ch) → fresh_ok fresh w → get_refconn fresh ch w = Ok (ch', w') →
      cl_step (CRun w at_ false rs) (CRun w' (<[t := CSend k ch']> at_) false rs)
  | l_send t k p w w' at_ rs :
      at_ !! t = Some (CSend k (Some p)) → call1_send (k_req k) p w = Ok w' →
      cl_step (CRun w at_ false rs) (CRun w' (<[t := CSent k p]> at_) false rs)
  | l_sent t k p w at_ rs :
      at_ !! t = Some (CSent k p) →
      cl_step (CRun w at_ false rs) (CRun w (<[t := CTop k (Some p)]> at_) false rs)
  | l_unsent t k w at_ rs :
      at_ !! t = Some (CSend k None) →
      cl_step (CRun w at_ false rs) (CRun w (<[t := CTop k None]> at_) false rs)
  | l_over t k ch w at_ rs :
      at_ !! t = Some (CTop k ch) → tv_sec (k_final k) = 0%Z →
      cl_step (CRun w at_ false rs) (CRun w (<[t := CEnd k ch]> at_) false rs)
  | l_wait t k ch now next w at_ rs :
      at_ !! t = Some (CTop k ch) → tv_sec (k_final k) ≠ 0%Z → add_timespec now (k_to k) = Ok next →
      let final := if (cmp_timespec next (k_final k) >? 0)%Z then Timespec 0 (tv_nsec (k_final k)) else k_final k in
      cl_step (CRun w at_ false rs)
        (CRun w (<[t := CWait (Calling (k_xid k) (k_rep k) (k_req k) (k_to k) final) ch]> at_) false rs)
  | l_done t k ch ca w at_ rs :
      at_ !! t = Some (CWait k ch) → calls (cw_clt w) !! i32 (k_xid k) = Some ca → ca_done ca = true →
      cl_step (CRun w at_ false rs) (CRun w (<[t := CEnd k ch]> at_) false rs)
  | l_timeout t k ch ca dead to' w at_ rs :
      at_ !! t = Some (CWait k ch) → calls (cw_clt w) !! i32 (k_xid k) = Some ca → ca_done ca = false →
      is_gone ch (cw_conns w) = Ok dead → int_result (Z.shiftl (k_to k) 1) = Ok to' →
      let k' := Calling (k_xid k) (k_rep k) (k_req k) to' (k_final k) in
      cl_step (CRun w at_ false rs)
        (CRun w (<[t := if retrans (cw_clt w) && dead then CConn k' ch else CTop k' ch]> at_) false rs)
  | l_end t k ch r un w w' at_ rs :
      at_ !! t = Some (CEnd k ch) → call1_end (k_xid k) (k_rep k) (k_req k) ch w = Ok (r, un, w') →
      cl_step (CRun w at_ false rs) (CRun w' (<[t := CRet (k_xid k) r un]> at_) false rs)
  | l_reply b sz c' w at_ rs :
      client_got_pdu b sz (cw_clt w) = Ok c' →
      cl_step (CRun w at_ false rs) (CRun (set_clt w c') at_ false (reply_of b sz ++ rs))
  | l_die p x w at_ rs :
      cw_conns w !! p = Some x →
      cl_step (CRun w at_ false rs) (CRun (set_cheap w (<[p := set_dead x]> (cw_conns w))) at_ false rs)
  | l_cancel w at_ rs :
      cl_step (CRun w at_ false rs) (CRun (set_clt w (cancel (cw_clt w))) at_ false rs)
  | l_reachable r w at_ rs :
      cl_step (CRun w at_ false rs) (CRun (set_clt w (set_reachable (cw_clt w) r)) at_ false rs)
  | l_destroy w w' at_ rs :
      (∀ t d, at_ !! t = Some d → ∃ xid r un, d = CRet xid r un) → rpcc_destroy w = Ok w' →
      cl_step (CRun w at_ false rs) (CRun w' at_ true rs).

(** ** References *)
Definition ch_ref (ch : option nat) : list nat := match ch with Some p => [p] | None => [] end.
Definition call_ref (d : cphase) : list nat :=
  match d with CConn _ ch | CSend _ ch | CTop _ ch | CWait _ ch | CEnd _ ch => ch_ref ch | CSent _ p => [p] | CRet _ _ _ => [] end.
Definition call_refs (at_ : gmap nat cphase) : list nat := vals at_ ≫= call_ref.

Lemma call_refs_insert at_ t d : call_refs (<[t := d]> at_) ≡ₚ call_ref d ++ call_refs (delete t at_).
Proof. unfold call_refs. by rewrite vals_insert_delete. Qed.
Lemma call_refs_delete at_ t d : at_ !! t = Some d → call_refs at_ ≡ₚ call_ref d ++ call_refs (delete t at_).
Proof. intros Ht. unfold call_refs. by rewrite (vals_delete _ _ _ Ht). Qed.

(** A new connection in the place of none. *)
Lemma fresh_refs p x w h rs : refs_inv h [] rs → descends (cw_conns w) h → fresh_ok (Some (p, x)) w →
  (∀ c, chan (cw_clt w) = Some c → (∃ y, cw_conns w !! c = Some y ∧ c_refno y = 1%Z) → h !! c = None) →
  refs_inv (<[p := x]> h) [p] rs.
Proof.
  intros Hi Hd (Hp & Hr & Hb & Hfd) Hgone. apply refs_inv_new; [done| |done|done|].
  - destruct (h !! p) as [y|] eqn:E; [|done]. destruct (Hd p y E) as (z & Hz & _). congruence.
  - intros c y Hy Ef. destruct (Hd c y Hy) as (z & Hz & Efz & _). destruct (Hfd c z Hz) as [Hch Hz1]; [congruence|].
    rewrite (Hgone c Hch) in Hy by eauto. done.
Qed.

(** A dead channel is given up. *)
Lemma unlist_gone h p x rs : refs_inv h [p] rs → h !! p = Some x → c_dead x = true →
  ∃ h', heap_decref p h = Ok h' ∧ refs_inv h' [] rs ∧ descends h h' ∧ (c_refno x = 1%Z → h' !! p = None).
Proof.
  intros Hi Hx Hd. destruct (refs_inv_unlist _ _ _ _ _ Hi Hx Hd) as (h' & E & Hi' & Hds). exists h'. split_and!; [done..|].
  intros H1. destruct (h' !! p) as [y|] eqn:Ey; [|done]. destruct (ct_conn _ _ (hi_counted _ _ _ Hi') p y Ey) as (Hin & _).
  destruct (ct_conn _ _ (hi_counted _ _ _ Hi) p x Hx) as (_ & Hn & _). cbn [app] in Hn, Hin. rewrite count_occ_cons_eq in Hn by done.
  apply list_elem_of_In, (count_occ_In Nat.eq_dec) in Hin. lia.
Qed.

(** The first half of [get_refconn]: a channel that is dead is replaced. *)
Lemma get_refconn_refs fresh ch w R :
  refs_inv (cw_conns w) (ch_ref (chan (cw_clt w))) (ch_ref ch ++ R) → fresh_ok fresh w →
  ∃ ch' q h, get_refconn fresh ch w = Ok (ch', CWorld (set_chan (cw_clt w) q) h (cw_sent w)) ∧
    refs_inv h (ch_ref q) (ch_ref ch' ++ R).
Proof.
  intros Hi Hf. unfold get_refconn.
  assert (∃ b, match chan (cw_clt w) with None => Ok true | Some p => x ← heap_at p (cw_conns w); Ok (isdead x) end = Ok b ∧
    ∃ q h, (if (b : bool) then
         h ← match chan (cw_clt w) with Some p => heap_decref p (cw_conns w) | None => Ok (cw_conns w) end;
         Ok (match fresh with
             | Some (p, x) => CWorld (set_chan (cw_clt w) (Some p)) (<[p := x]> h) (cw_sent w)
             | None => CWorld (set_chan (cw_clt w) None) h (cw_sent w)
             end)
       else Ok w) = Ok (CWorld (set_chan (cw_clt w) q) h (cw_sent w)) ∧ refs_inv h (ch_ref q) (ch_ref ch ++ R))
    as (b & -> & q & h & E & Hi').
  { destruct (chan (cw_clt w)) as [p0|] eqn:Ec; cbn [ch_ref] in Hi.
    - destruct (refs_inv_at _ _ _ p0 Hi) as (x0 & Hx0 & ->); [by left|]. run. eexists. split; [done|].
      unfold isdead. destruct (c_dead x0) eqn:Hd0.
      + destruct (unlist_gone _ _ _ _ Hi Hx0 Hd0) as (h1 & -> & Hi1 & Hds & Hg). run.
        destruct fresh as [[p x]|]; [|by exists None, h1]. exists (Some p), (<[p := x]> h1). split; [done|].
        apply (fresh_refs p x w); [done..|]. intros c Hc (y & Hy & Hy1). rewrite Ec in Hc. injection Hc as <-. apply Hg. congruence.
      + exists (Some p0), (cw_conns w). split; [|done]. destruct w as [[] ? ?]. simpl in *. by subst.
    - eexists. split; [done|]. run. destruct fresh as [[p x]|]; [|by exists None, (cw_conns w)].
      exists (Some p), (<[p := x]> (cw_conns w)). split; [done|]. apply (fresh_refs p x w); [done..|]. intros c Hc. congruence. }
  run. rewrite E. run. cbn [cw_clt chan set_chan]. destruct q as [p|]; [|by eexists _, None, h].
  assert (∃ h1, match ch with Some q => heap_decref q h | None => Ok h end = Ok h1 ∧ refs_inv h1 [p] R) as (h1 & E1 & Hi1).
  { destruct ch as [q|]; [|by exists h]. destruct (refs_inv_decref _ _ _ _ Hi') as (h1 & -> & ? & _). by exists h1. }
  cbn [cw_conns]. rewrite E1. run. destruct (refs_inv_incref _ _ _ p Hi1) as (h2 & -> & Hi2 & _); [by left|]. run.
  by exists (Some p), (Some p), h2.
Qed.

(** Sending leaves the connections as they are. *)
Lemma ch_send_refs p b sz w ls rs : refs_inv (cw_conns w) ls rs → p ∈ ls ++ rs → sendable b sz →
  ∃ out, ch_send p b sz w = Ok (CWorld (cw_clt w) (cw_conns w) out).
Proof.
  intros Hi Hp (bs & q & -> & Hl). unfold ch_send. destruct (refs_inv_at _ _ _ p Hi Hp) as (x & _ & ->). run.
  destruct (isdead x); [destruct w; eauto|]. cbn [deref]. run. rewrite Hl. run. eauto.
Qed.

Lemma call1_send_refs req p w ls rs : refs_inv (cw_conns w) ls rs → p ∈ ls ++ rs → sendable (m_buf req) (m_ind req) →
  ∃ d done out, call1_send req p w = Ok (CWorld (set_dup (cw_clt w) d done) (cw_conns w) out).
Proof.
  intros Hi Hp Hs. unfold call1_send. destruct (reachable (cw_clt w)); cycle 1.
  { exists (dup_req (cw_clt w)), (xid_rep_done (cw_clt w)), (cw_sent w). by destruct w as [[] ? ?]. }
  set (old := _ && _). set (forgot := if old then _ else _).
  set (w1 := if old then _ else _). assert (cw_conns w1 = cw_conns w ∧
    ∃ d done, cw_clt w1 = set_dup (cw_clt w) d done) as (Hc1 & d & dn & Hw1).
  { unfold w1. destruct old; [by eauto|]. split; [done|]. exists (dup_req (cw_clt w)), (xid_rep_done (cw_clt w)). by destruct w as [[] ? ?]. }
  assert (∃ out, (if isvalid forgot then ch_send p (Some (dup_buf forgot)) (size (dup_buf forgot)) w1 else Ok w1)
    = Ok (CWorld (cw_clt w1) (cw_conns w) out)) as (out & ->).
  { destruct (isvalid forgot); [|exists (cw_sent w1); rewrite <- Hc1; by destruct w1].
    rewrite <- Hc1 in Hi |- *. eapply ch_send_refs; [done..|]. eexists _, _. split; [done|]. apply load_all. }
  run. destruct (ch_send_refs p (m_buf req) (m_ind req) (CWorld (cw_clt w1) (cw_conns w) out) ls rs Hi Hp Hs) as (out2 & E).
  cbn [cw_clt cw_conns] in E. rewrite E, Hw1. eauto.
Qed.

(** The end of a call: its entry goes, its xid is acknowledged, its reference given back. *)
Lemma call1_end_refs xid xrep req ch ca w R :
  refs_inv (cw_conns w) (ch_ref (chan (cw_clt w))) (ch_ref ch ++ R) → window_inv (xid_rep_window (cw_clt w)) → is_u32 xid →
  sendable (m_buf req) (m_ind req) → calls (cw_clt w) !! i32 xid = Some ca →
  ∃ win d dn h, call1_end xid xrep req ch w = Ok (result_of ca, ca_un ca,
      CWorld (set_dup (set_window (set_calls (cw_clt w) (delete (i32 xid) (calls (cw_clt w)))) win) d dn) h (cw_sent w)) ∧
    refs_inv h (ch_ref (chan (cw_clt w))) R ∧ window_inv win.
Proof.
  intros Hi Hw Hx (b & p & Hb & Hl) Hc. unfold call1_end. rewrite Hc. cbn [deref]. run.
  destruct (update_xid_rep_inv xid _ Hw Hx) as (win & -> & Hwin & _). run.
  set (c1 := set_window _ _). set (lossy := ca_done ca && _).
  assert (∃ d dn, (if lossy then
       d ← (if negb (isvalid (dup_req c1)) then
              b ← deref (m_buf req); p ← load b 0 (m_ind req); Ok (MkRequest p (i32 xid))
            else Ok (dup_req c1));
       Ok (set_dup c1 d (if (xrep >? xid_rep_done c1)%Z then xrep else xid_rep_done c1))
     else Ok c1) = Ok (set_dup c1 d dn)) as (d & dn & ->).
  { destruct lossy; [|by exists (dup_req c1), (xid_rep_done c1)]. destruct (negb _); [|run; eauto].
    rewrite Hb. cbn [deref]. run. rewrite Hl. run. eauto. }
  run. assert (∃ h, match ch with Some p => heap_decref p (cw_conns w) | None => Ok (cw_conns w) end = Ok h ∧
    refs_inv h (ch_ref (chan (cw_clt w))) R) as (h & -> & Hh).
  { destruct ch as [q|]; [|by eauto]. destruct (refs_inv_decref _ _ _ _ Hi) as (h & -> & ? & _). eauto. }
  run. by exists win, d, dn, h.
Qed.

(** The start of a call. *)
Lemma call1_begin_holds proc req rep hd body w xid xrep req' w' :
  holds req (hd ++ body) → length hd = 24 → call1_begin junk proc req rep w = Ok (inr (xid, xrep, req', w')) →
  xid = next_xid (cw_clt w) ∧ sendable (m_buf req') (m_ind req') ∧
  w' = set_clt w (set_calls (set_next_xid (cw_clt w) (u32 (xid + 1))) (<[i32 xid := Caller rep 0 false]> (calls (cw_clt w)))).
Proof.
  intros Hh Hl E. unfold call1_begin in E. destruct (_ || _); [done|]. destruct (destroy_wait _); [done|].
  apply bind_Ok in E as (f & _ & E). destruct (pack_req_header_holds junk (ReqHeader (i32 (next_xid (cw_clt w))) (i32 proc)
    (clt_nonce (cw_clt w)) (srv_nonce (cw_clt w)) (i32 f)) req hd body Hh Hl) as (m & sz4 & Em & _ & Hm).
  rewrite Em in E. cbn [mbind outcome_bind] in E. simplify_eq. split_and!; [done| |done].
  destruct (holds_load _ _ Hm) as (b & ? & ?). by exists b, (sz4 ++ enc_req_header (ReqHeader (i32 (next_xid (cw_clt w))) (i32 proc)
    (clt_nonce (cw_clt w)) (srv_nonce (cw_clt w)) (i32 f)) ++ body).
Qed.

(** It is let in or refused. *)
Lemma call1_begin_total proc req rep hd body w :
  holds req (hd ++ body) → length hd = 24 → window_inv (xid_rep_window (cw_clt w)) →
  (∃ ret, call1_begin junk proc req rep w = Ok (inl ret) ∧ (ret = bind_failure ∨ ret = cancel_failure)) ∨
  ∃ xid xrep req' w', call1_begin junk proc req rep w = Ok (inr (xid, xrep, req', w')).
Proof.
  intros Hh Hl Hwin. unfold call1_begin. destruct (_ || _); [left; eauto|]. destruct (destroy_wait _); [left; eauto|]. right.
  destruct (xid_rep_window (cw_clt w)) as [|f win]; [by destruct Hwin as (_ & _ & [])|]. cbn [front]. run.
  destruct (pack_req_header_holds junk (ReqHeader (i32 (next_xid (cw_clt w))) (i32 proc) (clt_nonce (cw_clt w)) (srv_nonce (cw_clt w)) (i32 f))
    req hd body Hh Hl) as (m & sz4 & -> & _). run. eauto 10.
Qed.

(** The end of the client. *)
Lemma rpcc_destroy_refs w : refs_inv (cw_conns w) (ch_ref (chan (cw_clt w))) [] → calls (cw_clt w) = ∅ →
  rpcc_destroy w = Ok (CWorld (cw_clt w) ∅ (cw_sent w)).
Proof.
  intros Hi Hc. unfold rpcc_destroy. rewrite Hc, bool_decide_true by done.
  assert (∀ h, refs_inv h [] [] → h = ∅) as Hnil.
  { intros h Hh. apply map_eq. intros c. rewrite lookup_empty. destruct (h !! c) as [x|] eqn:E; [|done].
    destruct (ct_conn _ _ (hi_counted _ _ _ Hh) c x E) as (Hin & _). by apply elem_of_nil in Hin. }
  destruct (chan (cw_clt w)) as [p|]; cbn [ch_ref] in Hi; [|run; by rewrite (Hnil _ Hi)].
  destruct (refs_inv_close _ _ _ _ Hi) as (x & h & Hx & E & Hh & _). unfold heap_at. rewrite Hx. run. rewrite E. run.
  by rewrite (Hnil _ Hh).
Qed.

(** ** The invariant *)
Definition pending (d : cphase) : option calling :=
  match d with CConn k _ | CSend k _ | CSent k _ | CTop k _ | CWait k _ | CEnd k _ => Some k | CRet _ _ _ => None end.

Record client_inv (σ : crun) : Prop := Cinv {
  ci_refs : refs_inv (cw_conns (v_w σ)) (if v_gone σ then [] else ch_ref (chan (cw_clt (v_w σ)))) (call_refs (v_at σ));
  ci_gone : v_gone σ = true → cw_conns (v_w σ) = ∅;
  ci_window : window_inv (xid_rep_window (cw_clt (v_w σ)));
  ci_next : is_u32 (next_xid (cw_clt (v_w σ)));
  ci_pending t d k : v_at σ !! t = Some d → pending d = Some k →
    is_u32 (k_xid k) ∧ sendable (m_buf (k_req k)) (m_ind (k_req k)) ∧ is_Some (calls (cw_clt (v_w σ)) !! i32 (k_xid k));
  ci_one t t' d d' k k' : v_at σ !! t = Some d → v_at σ !! t' = Some d' → pending d = Some k → pending d' = Some k' →
    i32 (k_xid k) = i32 (k_xid k') → t = t';
  ci_calls x ca : calls (cw_clt (v_w σ)) !! x = Some ca →
    (∃ t d k, v_at σ !! t = Some d ∧ pending d = Some k ∧ i32 (k_xid k) = x) ∧
    (ca_done ca = true → ca_intret ca = cancel_failure ∨ (x, ca_intret ca, ca_un ca) ∈ v_replies σ);
  ci_ret t xid r un : v_at σ !! t = Some (CRet xid r un) →
    r = timeout_failure ∨ r = cancel_failure ∨ (i32 xid, r, un) ∈ v_replies σ }.

Lemma client_refs_at t d w at_ rs : client_inv (CRun w at_ false rs) → at_ !! t = Some d →
  refs_inv (cw_conns w) (ch_ref (chan (cw_clt w))) (call_ref d ++ call_refs (delete t at_)).
Proof. intros Hi Ht. pose proof (ci_refs _ Hi) as Hr. cbn in Hr. by rewrite (call_refs_delete _ _ _ Ht) in Hr. Qed.

(** A thread goes on with the same call. *)
Lemma client_inv_move t d d' k k' w w' at_ rs :
  client_inv (CRun w at_ false rs) → at_ !! t = Some d → pending d = Some k → pending d' = Some k' →
  k_xid k' = k_xid k → k_req k' = k_req k → calls (cw_clt w') = calls (cw_clt w) →
  xid_rep_window (cw_clt w') = xid_rep_window (cw_clt w) → next_xid (cw_clt w') = next_xid (cw_clt w) →
  refs_inv (cw_conns w') (ch_ref (chan (cw_clt w'))) (call_ref d' ++ call_refs (delete t at_)) →
  client_inv (CRun w' (<[t := d']> at_) false rs).
Proof.
  intros [_ _ Hw Hn Hp Ho Hc Hr] Ht Hd Hd' Ex Eq Ec Ew En Hi. cbn [v_w v_at v_gone v_replies] in *.
  assert (∀ t1 d1 k1, <[t := d']> at_ !! t1 = Some d1 → pending d1 = Some k1 →
    ∃ d2 k2, at_ !! t1 = Some d2 ∧ pending d2 = Some k2 ∧ k_xid k2 = k_xid k1 ∧ k_req k2 = k_req k1) as Hback.
  { intros t1 d1 k1. rewrite lookup_insert_Some. intros [[<- <-]|[_ ?]] ?; [|by eauto 10]. simplify_eq. by exists d, k. }
  split; cbn [v_w v_at v_gone v_replies]; rewrite ?Ec, ?Ew, ?En; try done.
  - by rewrite call_refs_insert.
  - intros t1 d1 k1 H1 P1. destruct (Hback _ _ _ H1 P1) as (d2 & k2 & H2 & P2 & <- & <-). by eapply Hp.
  - intros t1 t2 d1 d2 k1 k2 H1 H2 P1 P2. destruct (Hback _ _ _ H1 P1) as (? & ? & ? & ? & <- & _).
    destruct (Hback _ _ _ H2 P2) as (? & ? & ? & ? & <- & _). by eapply Ho.
  - intros x ca Hx. destruct (Hc x ca Hx) as [(t1 & d1 & k1 & H1 & P1 & E1) Hdone]. split; [|done].
    destruct (decide (t1 = t)) as [->|Hne]; [|exists t1, d1, k1; by rewrite lookup_insert_ne].
    exists t, d', k'. rewrite lookup_insert_eq, Ex. by simplify_eq.
  - intros t1 xid r un. rewrite lookup_insert_Some. intros [[<- ->]|[_ ?]]; [done|by eapply Hr].
Qed.

(** The replies only grow, and the calls that change are answered or failed. *)
Lemma client_inv_update w w' at_ rs rs' :
  client_inv (CRun w at_ false rs) → rs ⊆ rs' →
  refs_inv (cw_conns w') (ch_ref (chan (cw_clt w'))) (call_refs at_) →
  window_inv (xid_rep_window (cw_clt w')) → next_xid (cw_clt w') = next_xid (cw_clt w) →
  (∀ x, is_Some (calls (cw_clt w') !! x) ↔ is_Some (calls (cw_clt w) !! x)) →
  (∀ x ca, calls (cw_clt w') !! x = Some ca → calls (cw_clt w) !! x = Some ca ∨
     ca_intret ca = cancel_failure ∨ (x, ca_intret ca, ca_un ca) ∈ rs') →
  client_inv (CRun w' at_ false rs').
Proof.
  intros [_ _ Hw Hn Hp Ho Hc Hr] Hrs Hi Hw' En Hdom Hca. cbn [v_w v_at v_gone v_replies] in *.
  split; cbn [v_w v_at v_gone v_replies]; rewrite ?En; try done.
  - intros t d k Ht Hd. destruct (Hp t d k Ht Hd) as (? & ? & ?). by rewrite Hdom.
  - intros x ca Hx. destruct (proj1 (Hdom x)) as [ca0 Hx0]; [by eauto|]. split; [by eapply Hc|].
    intros Hdone. destruct (Hca x ca Hx) as [Hold|?]; [|done]. destruct (Hc x ca Hold) as [_ [?|?]]; [done|by left|right; by apply Hrs].
  - intros t xid r un Ht. destruct (Hr t xid r un Ht) as [?|[?|?]]; auto.
Qed.

(** A packet that comes in. *)
Lemma client_got_pdu_calls b sz c c' : client_got_pdu b sz c = Ok c' → window_inv (xid_rep_window c) →
  window_inv (xid_rep_window c') ∧ next_xid c' = next_xid c ∧ chan c' = chan c ∧
  (calls c' = calls c ∨ ∃ x ca ca', calls c !! x = Some ca ∧ calls c' = <[x := ca']> (calls c) ∧
     (x, ca_intret ca', ca_un ca') ∈ reply_of b sz).
Proof.
  intros Hg Hw. unfold client_got_pdu in Hg. unfold reply_of. destruct (unpack_reply_header _) as [[h rep]|]; [|done].
  cbn [mbind outcome_bind] in Hg. destruct (u_ok rep); cbn [negb] in Hg; [|simplify_eq; auto].
  destruct (update_xid_rep_inv (u32 (rp_xid h)) _ Hw (u32_range _)) as (w' & E & Hw' & _). rewrite E in Hg.
  cbn [mbind outcome_bind calls set_window] in Hg. destruct (calls c !! rp_xid h) as [ca|] eqn:Eca; [|simplify_eq; auto].
  destruct (ca_done ca); simplify_eq; [auto|]. split_and!; [done..|]. right. do 3 eexists. split_and!; [done..|]. by left.
Qed.

(** A call is entered. *)
Lemma client_inv_begin t k rep w at_ rs :
  client_inv (CRun w at_ false rs) → at_ !! t = None → k_xid k = next_xid (cw_clt w) → sendable (m_buf (k_req k)) (m_ind (k_req k)) →
  calls (cw_clt w) !! i32 (k_xid k) = None →
  client_inv (CRun (set_clt w (set_calls (set_next_xid (cw_clt w) (u32 (k_xid k + 1))) (<[i32 (k_xid k) := Caller rep 0 false]> (calls (cw_clt w)))))
    (<[t := CConn k None]> at_) false rs).
Proof.
  intros [Hi _ Hw Hn Hp Ho Hc Hr] Ht Ek Hs Hfree. cbn [v_w v_at v_gone v_replies] in *.
  assert (∀ t1 d1 k1, at_ !! t1 = Some d1 → pending d1 = Some k1 → i32 (k_xid k1) ≠ i32 (k_xid k)) as Hnew.
  { intros t1 d1 k1 H1 P1 E. destruct (Hp _ _ _ H1 P1) as (_ & _ & [? ?]). rewrite E in *. congruence. }
  split; cbn [v_w v_at v_gone v_replies cw_clt cw_conns set_clt calls chan xid_rep_window next_xid set_calls set_next_xid]; try done.
  - rewrite call_refs_insert. cbn [call_ref ch_ref app]. by rewrite delete_id.
  - apply u32_range.
  - intros t1 d1 k1. rewrite lookup_insert_is_Some, lookup_insert_Some. intros [[<- <-]|[Hne H1]] P1.
    + cbn in P1. simplify_eq. split; [by rewrite Ek|]. split; [done|by left].
    + destruct (Hp _ _ _ H1 P1) as (? & ? & ?). do 2 (split; [done|]). right. split; [|done]. intros E. by eapply Hnew.
  - intros t1 t2 d1 d2 k1 k2. rewrite !lookup_insert_Some.
    intros [[<- <-]|[? H1]] [[<- <-]|[? H2]] P1 P2 E; cbn in P1, P2; simplify_eq; [done| | |by eapply Ho].
    + by destruct (Hnew _ _ _ H2 P2).
    + by destruct (Hnew _ _ _ H1 P1).
  - intros x ca. rewrite lookup_insert_Some. intros [[<- <-]|[Hne Hx]].
    + split; [|done]. exists t, (CConn k None), k. by rewrite lookup_insert_eq.
    + destruct (Hc x ca Hx) as [(t1 & d1 & k1 & H1 & P1 & E1) Hdone]. split; [|done]. exists t1, d1, k1.
      rewrite lookup_insert_ne; [done|]. intros <-. congruence.
  - intros t1 xid r un. rewrite lookup_insert_Some. intros [[_ ?]|[_ ?]]; [done|by eapply Hr].
Qed.

(** A call returns. *)
Lemma client_inv_end t k ch ca win d dn h w at_ rs :
  client_inv (CRun w at_ false rs) → at_ !! t = Some (CEnd k ch) → calls (cw_clt w) !! i32 (k_xid k) = Some ca →
  refs_inv h (ch_ref (chan (cw_clt w))) (call_refs (delete t at_)) → window_inv win →
  client_inv (CRun (CWorld (set_dup (set_window (set_calls (cw_clt w) (delete (i32 (k_xid k)) (calls (cw_clt w)))) win) d dn) h (cw_sent w))
    (<[t := CRet (k_xid k) (result_of ca) (ca_un ca)]> at_) false rs).
Proof.
  intros [Hi _ Hw Hn Hp Ho Hc Hr] Ht Hca Hh Hwin. cbn [v_w v_at v_gone v_replies] in *.
  split; cbn [v_w v_at v_gone v_replies cw_clt cw_conns calls chan xid_rep_window next_xid set_calls set_window set_dup]; try done.
  - by rewrite call_refs_insert.
  - intros t1 d1 k1. rewrite lookup_insert_Some. intros [[<- <-]|[Hne H1]] P1; [done|].
    destruct (Hp _ _ _ H1 P1) as (? & ? & ?). do 2 (split; [done|]). rewrite lookup_delete_ne; [done|].
    intros E. apply Hne. by eapply (Ho t t1 _ _ k k1).
  - intros t1 t2 d1 d2 k1 k2. rewrite !lookup_insert_Some. intros [[<- <-]|[? H1]] [[<- <-]|[? H2]] P1 P2 E; try done. by eapply Ho.
  - intros x cx. rewrite lookup_delete_Some. intros [Hne Hx]. destruct (Hc x cx Hx) as [(t1 & d1 & k1 & H1 & P1 & E1) Hdone].
    split; [|done]. exists t1, d1, k1. rewrite lookup_insert_ne; [done|]. intros <-. rewrite Ht in H1. injection H1 as <-. cbn in P1. congruence.
  - intros t1 xid r un. rewrite lookup_insert_Some. intros [[_ E]|[_ ?]]; [|by eapply Hr]. injection E as <- <- <-.
    unfold result_of. destruct (ca_done ca) eqn:Ed; [|by left]. right. by apply (Hc _ _ Hca).
Qed.

Lemma returned_refs at_ : (∀ t d, at_ !! t = Some d → ∃ xid r un, d = CRet xid r un) → call_refs at_ = [].
Proof.
  intros Hret. unfold call_refs. assert (∀ d, d ∈ vals at_ → call_ref d = []) as Hv.
  { intros d (t & Ht)%elem_of_vals. by destruct (Hret t d Ht) as (? & ? & ? & ->). }
  induction (vals at_) as [|d l IH]; [done|]. csimpl. rewrite (Hv d) by (by left). apply IH. intros d' Hd. apply Hv. by right.
Qed.

Lemma returned_calls w at_ rs : client_inv (CRun w at_ false rs) →
  (∀ t d, at_ !! t = Some d → ∃ xid r un, d = CRet xid r un) → calls (cw_clt w) = ∅.
Proof.
  intros Hi Hret. apply map_eq. intros x. rewrite lookup_empty. destruct (calls (cw_clt w) !! x) as [ca|] eqn:E; [|done].
  destruct (ci_calls _ Hi x ca E) as [(t & d & k & Ht & Hd & _) _]. by destruct (Hret t d Ht) as (? & ? & ? & ->).
Qed.

Lemma client_destroy_empties w at_ rs : client_inv (CRun w at_ false rs) →
  (∀ t d, at_ !! t = Some d → ∃ xid r un, d = CRet xid r un) → rpcc_destroy w = Ok (CWorld (cw_clt w) ∅ (cw_sent w)).
Proof.
  intros Hi Hret. apply rpcc_destroy_refs; [|by eapply returned_calls]. pose proof (ci_refs _ Hi) as Hr. cbn in Hr.
  by rewrite (returned_refs _ Hret) in Hr.
Qed.

(** A packet comes in. *)
Lemma client_inv_reply b sz c' w at_ rs : client_got_pdu b sz (cw_clt w) = Ok c' →
  client_inv (CRun w at_ false rs) → client_inv (CRun (set_clt w c') at_ false (reply_of b sz ++ rs)).
Proof.
  intros E Hi. destruct (client_got_pdu_calls b _ _ _ E (ci_window _ Hi)) as (Hw & Hn & Hch & Hc).
  eapply client_inv_update; [done|by apply list_subseteq_app_r| |done|done| |]; cbn [cw_clt cw_conns set_clt].
  - rewrite Hch. apply (ci_refs _ Hi).
  - intros x. destruct Hc as [->|(y & ca & ca' & Hy & -> & _)]; [done|]. rewrite lookup_insert_is_Some.
    destruct (decide (y = x)) as [<-|]; naive_solver.
  - intros x ca Hx. destruct Hc as [Hc|(y & ca0 & ca' & Hy & Hc & Hin)]; rewrite Hc in Hx; [by left|].
    apply lookup_insert_Some in Hx as [[<- <-]|[_ ?]]; [|by left]. right. right. apply elem_of_app. by left.
Qed.

(** The calls are cancelled. *)
Lemma client_inv_cancel w at_ rs : client_inv (CRun w at_ false rs) → client_inv (CRun (set_clt w (cancel (cw_clt w))) at_ false rs).
Proof.
  intros Hi. assert (∃ c, cancel (cw_clt w) = c ∧ calls c = (λ ca, Caller (ca_un ca) cancel_failure true) <$> calls (cw_clt w) ∧
    chan c = chan (cw_clt w) ∧ xid_rep_window c = xid_rep_window (cw_clt w) ∧ next_xid c = next_xid (cw_clt w)) as (c & -> & Hc & Hch & Hw & Hn).
  { unfold cancel. case_decide; by eexists. }
  eapply client_inv_update; [done|done| | |done| |]; cbn [cw_clt cw_conns set_clt].
  - rewrite Hch. apply (ci_refs _ Hi).
  - rewrite Hw. apply (ci_window _ Hi).
  - intros x. by rewrite Hc, lookup_fmap, fmap_is_Some.
  - intros x ca. rewrite Hc, lookup_fmap, fmap_Some. intros (ca0 & _ & ->). auto.
Qed.

Lemma client_inv_step σ σ' : cl_step σ σ' → client_inv σ → client_inv σ'.
Proof.
  intros Hs Hi. destruct Hs as [t proc req rep hd body to now xid xrep req' final w w' at_ rs Ht Hh Hl Hb Hfree _
    |t k ch ch' fresh w w' at_ rs Ht Hf E|t k p w w' at_ rs Ht E|t k p w at_ rs Ht|t k w at_ rs Ht|t k ch w at_ rs Ht Hfin
    |t k ch now next w at_ rs Ht Hfin _ final|t k ch ca w at_ rs Ht Hc Hd|t k ch ca dead to' w at_ rs Ht Hc Hd _ _ k'
    |t k ch r un w w' at_ rs Ht E|b sz c' w at_ rs E|p x w at_ rs Hx|w at_ rs|r w at_ rs|w w' at_ rs Hret E].
  - destruct (call1_begin_holds _ _ _ _ _ _ _ _ _ _ Hh Hl Hb) as (Ex & Hs & ->).
    by apply (client_inv_begin t (Calling xid xrep req' to_min final)).
  - pose proof (client_refs_at _ _ _ _ _ Hi Ht) as Hr. destruct (get_refconn_refs _ _ _ _ Hr Hf) as (c2 & q & h & E2 & Hr2).
    rewrite E in E2. injection E2 as -> ->. by eapply client_inv_move.
  - pose proof (client_refs_at _ _ _ _ _ Hi Ht) as Hr. destruct (ci_pending _ Hi t _ _ Ht eq_refl) as (_ & Hs & _).
    destruct (call1_send_refs (k_req k) p w _ _ Hr) as (d & dn & out & E2); [apply elem_of_app; right; by left|done|].
    rewrite E in E2. injection E2 as ->. by eapply client_inv_move.
  - pose proof (client_refs_at _ _ _ _ _ Hi Ht). by eapply client_inv_move.
  - pose proof (client_refs_at _ _ _ _ _ Hi Ht). by eapply client_inv_move.
  - pose proof (client_refs_at _ _ _ _ _ Hi Ht). by eapply client_inv_move.
  - pose proof (client_refs_at _ _ _ _ _ Hi Ht). by eapply client_inv_move.
  - pose proof (client_refs_at _ _ _ _ _ Hi Ht). by eapply client_inv_move.
  - pose proof (client_refs_at _ _ _ _ _ Hi Ht). eapply (client_inv_move t _ _ k k'); try done; by destruct (_ && _).
  - pose proof (client_refs_at _ _ _ _ _ Hi Ht) as Hr. destruct (ci_pending _ Hi t _ _ Ht eq_refl) as (Hx & Hs & [ca Hca]).
    destruct (call1_end_refs (k_xid k) (k_rep k) (k_req k) ch ca w _ Hr (ci_window _ Hi) Hx Hs Hca) as (win & d & dn & h & E2 & Hh & Hw).
    rewrite E in E2. injection E2 as -> -> ->. by eapply client_inv_end.
  - by apply client_inv_reply.
  - eapply client_inv_update; [done|done| |apply (ci_window _ Hi)|done|done|auto]. cbn. apply refs_inv_dead; [apply (ci_refs _ Hi)|done].
  - by apply client_inv_cancel.
  - eapply client_inv_update; [done|done|apply (ci_refs _ Hi)|apply (ci_window _ Hi)|done|done|auto].
  - rewrite (client_destroy_empties _ _ _ Hi Hret) in E. injection E as <-. destruct Hi as [_ _ Hw Hn Hp Ho Hc Hr].
    split; cbn [v_w v_at v_gone v_replies] in *; try done. rewrite (returned_refs _ Hret). constructor; [constructor|..]; try done.
    + by intros c ?%elem_of_nil.
    + apply NoDup_nil_2.
Qed.

(** A client without connection and calls. *)
Definition client_start (w : cworld) : crun := CRun w ∅ false [].
Definition idle_client (w : cworld) : Prop :=
  chan (cw_clt w) = None ∧ cw_conns w = ∅ ∧ calls (cw_clt w) = ∅ ∧ window_inv (xid_rep_window (cw_clt w)) ∧ is_u32 (next_xid (cw_clt w)).

Lemma client_inv_reachable w σ : idle_client w → rtc cl_step (client_start w) σ → client_inv σ.
Proof.
  intros (Hch & Hh & Hc & Hw & Hn) Hr. assert (client_inv (client_start w)) as Hi.
  { split; cbn [client_start v_w v_at v_gone v_replies]; try done; rewrite ?Hc; try done. rewrite Hch, Hh.
    constructor; [constructor|..]; try done; [|apply NoDup_nil_2]. by intros c ?%elem_of_nil. }
  revert Hi. induction Hr as [|x y z Hxy _ IH]; [done|]. intros Hx. by eapply IH, client_inv_step.
Qed.

Lemma client_inv_runs σ σ' : rtc cl_step σ σ' → client_inv σ → client_inv σ'.
Proof. induction 1 as [|x y z Hxy _ IH]; [done|]. intros Hx. by eapply IH, client_inv_step. Qed.

(** ** [call1] as a run of one thread *)

(** What the others do while thread [t] waits: steps of the client that leave [t] where it is. *)
Definition env_steps (t : nat) (e : cworld → outcome cworld) : Prop := ∀ w at_ rs, client_inv (CRun w at_ false rs) →
  ∃ w' at' rs', e w = Ok w' ∧ rtc cl_step (CRun w at_ false rs) (CRun w' at' false rs') ∧ at' !! t = at_ !! t.

Lemma env_steps_quiet t : env_steps t Ok.
Proof. intros w at_ rs _. by exists w, at_, rs. Qed.
(** A packet comes in, whatever xid it carries. *)
Lemma env_steps_deliver t b sz r : unpack_reply_header (unmarshall_of b sz) = Ok r → env_steps t (deliver_pdu b sz).
Proof.
  intros Er w at_ rs Hi. assert (∃ c', client_got_pdu b sz (cw_clt w) = Ok c') as (c' & E).
  { unfold client_got_pdu. rewrite Er. destruct r as [h rep]. run. destruct (u_ok rep); [cbn [negb]|by eexists].
    pose proof (ci_window _ Hi) as Hw. cbn [v_w] in Hw.
    destruct (update_xid_rep_inv (u32 (rp_xid h)) _ Hw (u32_range _)) as (win & -> & _). run. case_match; [case_match|]; eauto. }
  exists (set_clt w c'), at_, (reply_of b sz ++ rs). unfold deliver_pdu. rewrite E. split; [done|]. split; [|done]. by apply rtc_once, l_reply.
Qed.
Lemma env_steps_cancel t : env_steps t (λ w, Ok (set_clt w (cancel (cw_clt w)))).
Proof. intros w at_ rs _. do 3 eexists. split; [done|]. split; [apply rtc_once, l_cancel|done]. Qed.

(** The clock does not run back behind the start of the call, the others make steps of the
    client, and a wait ends at its deadline if not before. *)
Definition round_runs (t : nat) (start : timespec) (r : round) : Prop :=
  normal (rd_now r) ∧ (nsecs start <= nsecs (rd_now r))%Z ∧ env_steps t (rd_env r) ∧
  Forall (λ k, env_steps t (wk_env k)) (rd_waits r) ∧ Exists (λ k, wk_timeout k = true) (rd_waits r).

(** The connections that the rounds make are new where they are made. *)
Fixpoint rounds_fit (rounds : list round) (req : marshall) (ch : option nat) (transmit : bool) (w : cworld) : Prop :=
  match rounds with
  | [] => True
  | r :: rounds =>
      (transmit = true → fresh_ok (rd_fresh r) w) ∧
      ∀ ch' w1 w2 w3 deadline xid b, (if transmit then call1_transmit (rd_fresh r) req ch w else Ok (ch, w)) = Ok (ch', w1) →
        rd_env r w1 = Ok w2 → wait_reply (rd_waits r) deadline xid w2 = Ok w3 → rounds_fit rounds req ch' b w3
  end.
Lemma rounds_fit_none rounds req ch transmit w : Forall (λ r, rd_fresh r = None) rounds → rounds_fit rounds req ch transmit w.
Proof.
  intros Hf. revert ch transmit w. induction Hf as [|r rounds Hr Hf IH]; [done|]. intros ch transmit w. split; [by rewrite Hr|].
  intros. apply IH.
Qed.

Lemma transmit_runs t k fresh ch w at_ rs :
  client_inv (CRun w at_ false rs) → at_ !! t = Some (CConn k ch) → fresh_ok fresh w →
  ∃ ch' w', call1_transmit fresh (k_req k) ch w = Ok (ch', w') ∧
    rtc cl_step (CRun w at_ false rs) (CRun w' (<[t := CTop k ch']> at_) false rs).
Proof.
  intros Hi Ht Hf. destruct (get_refconn_refs _ _ _ _ (client_refs_at _ _ _ _ _ Hi Ht) Hf) as (c1 & q & h & E1 & _).
  pose proof (l_conn t k ch c1 fresh _ _ _ rs Ht Hf E1) as Hs1. pose proof (client_inv_step _ _ Hs1 Hi) as Hi1.
  unfold call1_transmit. rewrite E1. run. pose proof (lookup_insert_eq at_ t (CSend k c1)) as Ht1. destruct c1 as [p|].
  - destruct (ci_pending _ Hi1 t _ _ Ht1 eq_refl) as (_ & Hsend & _).
    destruct (call1_send_refs (k_req k) p _ _ _ (client_refs_at _ _ _ _ _ Hi1 Ht1)) as (d & dn & out & E2);
      [apply elem_of_app; right; by left|done|].
    rewrite E2. run. do 2 eexists. split; [done|]. eapply rtc_l; [exact Hs1|].
    pose proof (l_send t k p _ _ _ rs Ht1 E2) as Hs2. rewrite insert_insert_eq in Hs2. eapply rtc_l; [exact Hs2|].
    eapply rtc_l; [eapply l_sent, lookup_insert_eq|]. by rewrite insert_insert_eq.
  - do 2 eexists. split; [done|]. eapply rtc_l; [exact Hs1|].
    pose proof (l_unsent t k (CWorld (set_chan (cw_clt w) q) h (cw_sent w)) _ rs Ht1) as Hs2. rewrite insert_insert_eq in Hs2. by apply rtc_once.
Qed.

Lemma wait_runs t k ch waits deadline w at_ rs :
  valid_deadline deadline = true → Forall (λ k, env_steps t (wk_env k)) waits → Exists (λ k, wk_timeout k = true) waits →
  client_inv (CRun w at_ false rs) → at_ !! t = Some (CWait k ch) →
  ∃ w' at' rs', wait_reply waits deadline (k_xid k) w = Ok w' ∧
    rtc cl_step (CRun w at_ false rs) (CRun w' at' false rs') ∧ at' !! t = at_ !! t.
Proof.
  intros Hd Henv Hex. revert w at_ rs. induction Henv as [|wk waits Hk Henv IH]; intros w at_ rs Hi Ht; [by inv Hex|].
  destruct (ci_pending _ Hi t _ _ Ht eq_refl) as (_ & _ & [ca Hca]). cbn [v_w] in Hca. cbn [wait_reply]. rewrite Hca. cbn [deref]. run.
  destruct (ca_done ca); [by exists w, at_, rs|]. rewrite Hd. destruct (Hk w at_ rs Hi) as (w1 & at1 & rs1 & -> & Hr1 & Ht1). run.
  destruct (wk_timeout wk) eqn:Ek; [by exists w1, at1, rs1|]. destruct (IH ltac:(inv Hex; [congruence|done]) w1 at1 rs1) as (w2 & at2 & rs2 & E & Hr2 & Ht2);
    [by eapply client_inv_runs|by rewrite Ht1|].
  exists w2, at2, rs2. split_and!; [done|by etrans|by rewrite Ht2].
Qed.

(** Where the loop is with its deadlines: in the last round, or before it with the next
    timeout still an [int] when doubled. *)
Definition looping (start : timespec) (to curr_to : Z) (final : timespec) (n : nat) : Prop :=
  tv_sec final = 0%Z ∧ n ≠ 0 ∨
  ∃ j, deadline_in start to curr_to final j ∧ j + 2 ≤ n ∧ (to <= 500000000)%Z ∧ (curr_to <= 1000000000)%Z.

Lemma looping_next start to curr_to final next now n :
  (0 <= tv_nsec final)%Z → looping start to curr_to final (S n) → tv_sec final ≠ 0%Z → (nsecs start <= nsecs now)%Z →
  nsecs next = (nsecs now + curr_to * 1000000)%Z → normal next →
  let final1 := if (cmp_timespec next final >? 0)%Z then Timespec 0 (tv_nsec final) else final in
  looping start to (curr_to * 2) final1 n ∧ (0 <= tv_nsec final1)%Z.
Proof.
  intros Hns [[? _]|(j & (Hpos & Hmod & Hnn & Hfin & Hto) & Hlen & Ht & Hc)] Hsec Hclock Hnext Hnorm final1; [done|].
  split; [|unfold final1; by case_match]. unfold final1. rewrite Z.gtb_ltb. destruct (Z.ltb_spec 0 (cmp_timespec next final)) as [|Hle].
  { left. split; [done|]. lia. }
  assert (nsecs next <= nsecs final)%Z as Hbefore.
  { destruct (decide (nsecs final < nsecs next)%Z) as [Hlt|]; [|lia].
    rewrite (cmp_timespec_later next final) in Hle; [lia|by apply normal_nearly..|done]. }
  right. destruct j as [|j]; [simpl in Hto; lia|]. exists j. split; [|lia]. split; [lia|]. split; [by rewrite Z.mul_mod, Hmod by lia|].
  split; [done|]. split; [done|].
  replace (curr_to * 2 * 2 ^ Z.of_nat j)%Z with (curr_to * 2 ^ Z.of_nat (S j))%Z; [done|].
  rewrite Nat2Z.inj_succ, Z.pow_succ_r by lia. lia.
Qed.

Lemma loop_runs t start to rounds k ch (transmit : bool) w at_ rs :
  Forall (round_runs t start) rounds → rounds_fit rounds (k_req k) ch transmit w →
  looping start to (k_to k) (k_final k) (length rounds) → (0 <= tv_nsec (k_final k))%Z →
  client_inv (CRun w at_ false rs) → at_ !! t = Some (if transmit then CConn k ch else CTop k ch) →
  ∃ ch' w' at' rs' k', call1_loop rounds (k_xid k) (k_req k) ch transmit (k_to k) (k_final k) w = Ok (ch', w') ∧
    rtc cl_step (CRun w at_ false rs) (CRun w' at' false rs') ∧ at' !! t = Some (CEnd k' ch') ∧
    k_xid k' = k_xid k ∧ k_rep k' = k_rep k ∧ k_req k' = k_req k.
Proof.
  intros Hok. revert k ch transmit w at_ rs.
  induction Hok as [|r rounds (Hnow & Hclock & Henv & Hwenv & Htimes) Hok IH];
    intros [xid xrep req curr final] ch transmit w at_ rs Hfit Hl Hns Hi Ht; cbn [k_xid k_rep k_req k_to k_final] in *.
  { exfalso. destruct Hl as [[_ ?]|(j & _ & ? & _)]; [done|simpl in *; lia]. }
  set (k := Calling xid xrep req curr final) in *. cbn [call1_loop]. destruct Hfit as [Hfresh Hfit].
  assert (∃ c1 w1, (if transmit then call1_transmit (rd_fresh r) req ch w else Ok (ch, w)) = Ok (c1, w1) ∧
    rtc cl_step (CRun w at_ false rs) (CRun w1 (<[t := CTop k c1]> at_) false rs)) as (c1 & w1 & E1 & Hr1).
  { destruct transmit; [by apply (transmit_runs t k); [..|apply Hfresh]|]. exists ch, w. by rewrite insert_id. }
  rewrite E1. run. pose proof (client_inv_runs _ _ Hr1 Hi) as Hi1. pose proof (lookup_insert_eq at_ t (CTop k c1)) as Ht1.
  destruct (Z.eqb_spec (tv_sec final) 0) as [Hz|Hz].
  { exists c1, w1, (<[t := CEnd k c1]> at_), rs, k. split_and!; try done; [|by rewrite lookup_insert_eq].
    etrans; [exact Hr1|]. pose proof (l_over t k c1 w1 _ rs Ht1 Hz) as Hs. rewrite insert_insert_eq in Hs. by apply rtc_once. }
  assert (0 < curr ∧ curr mod 1000 = 0 ∧ curr <= 1000000000 ∧ normal final)%Z as (Hpos & Hmod & Hc & Hnf).
  { destruct Hl as [[? _]|(j & (? & ? & ? & _) & _ & _ & ?)]; done. }
  destruct (add_timespec_seconds (rd_now r) curr Hnow ltac:(lia) Hmod) as (next & En & Hnext & Hnn). rewrite En. run.
  destruct (looping_next start to curr final next (rd_now r) (length rounds) Hns Hl Hz Hclock Hnext Hnn) as [Hl' Hns'].
  pose proof (l_wait t k c1 (rd_now r) next w1 _ rs Ht1 Hz En) as Hs2. cbv zeta in Hs2. cbn [k_final k_xid k_rep k_req k_to k] in Hs2.
  set (final1 := if (cmp_timespec next final >? 0)%Z then Timespec 0 (tv_nsec final) else final) in *.
  set (k1 := Calling xid xrep req curr final1) in *. rewrite insert_insert_eq in Hs2.
  pose proof (client_inv_step _ _ Hs2 Hi1) as Hi2.
  destruct (Henv w1 _ rs Hi2) as (w2 & at2 & rs2 & Ee & Hr2 & Ht2). rewrite Ee. run. pose proof (client_inv_runs _ _ Hr2 Hi2) as Hi3.
  rewrite lookup_insert_eq in Ht2. set (deadline := if (cmp_timespec next final >? 0)%Z then final else next).
  assert (valid_deadline deadline = true) as Hv by (apply normal_valid; unfold deadline; by destruct (_ >? _)%Z).
  destruct (wait_runs t k1 c1 (rd_waits r) deadline w2 at2 rs2 Hv Hwenv Htimes Hi3 Ht2) as (w3 & at3 & rs3 & Ew & Hr3 & Ht3).
  rewrite Ht2 in Ht3. cbn [k_xid k1] in Ew. rewrite Ew. run. pose proof (client_inv_runs _ _ Hr3 Hi3) as Hi4.
  assert (rtc cl_step (CRun w at_ false rs) (CRun w3 at3 false rs3)) as Hruns.
  { etrans; [exact Hr1|]. eapply rtc_l; [exact Hs2|]. by etrans. }
  destruct (ci_pending _ Hi4 t _ _ Ht3 eq_refl) as (_ & _ & [ca Hca]). cbn [v_w k_xid k1] in Hca. rewrite Hca. cbn [deref]. run.
  destruct (ca_done ca) eqn:Hd.
  { exists c1, w3, (<[t := CEnd k1 c1]> at3), rs3, k1. split_and!; try done; [|by rewrite lookup_insert_eq].
    etrans; [exact Hruns|]. by eapply rtc_once, l_done. }
  assert (∃ dead, is_gone c1 (cw_conns w3) = Ok dead) as (dead & Ed).
  { destruct c1 as [p|]; [|by eexists]. cbn [is_gone]. destruct (refs_inv_at _ _ _ p (client_refs_at _ _ _ _ _ Hi4 Ht3)) as (x & _ & ->);
      [apply elem_of_app; right; by left|]. run. eauto. }
  unfold is_gone in Ed. rewrite Ed. run.
  assert (int_result (Z.shiftl curr 1) = Ok (curr * 2)%Z) as Ei.
  { rewrite Z.shiftl_mul_pow2 by lia. change (2 ^ 1)%Z with 2%Z. by rewrite int_result_Ok by lia. }
  rewrite Ei. run.
  pose proof (l_timeout t k1 c1 ca dead (curr * 2)%Z w3 at3 rs3 Ht3 Hca Hd Ed Ei) as Hs4. cbv zeta in Hs4.
  cbn [k_xid k_rep k_req k_to k_final k1] in Hs4. pose proof (client_inv_step _ _ Hs4 Hi4) as Hi5.
  destruct (IH (Calling xid xrep req (curr * 2) final1) c1 (retrans (cw_clt w3) && dead) w3 _ rs3 (Hfit _ _ _ _ _ _ _ E1 Ee Ew)
    Hl' Hns' Hi5) as (ch' & w' & at' & rs' & k' & E & Hrest & Ht' & Hk'); [by rewrite lookup_insert_eq|].
  exists ch', w', at', rs', k'. split_and!; try apply Hk'; [exact E| |exact Ht']. etrans; [exact Hruns|]. eapply rtc_l; [exact Hs4|exact Hrest].
Qed.

(** C23: A call returns: with a timeout of [to < 1000 * 2^k] milliseconds (at most five
    days) whose deadline is not the [10^9] nanoseconds that [add_timespec] may leave,
    [call1] has returned after at most [k + 2] rounds of its loop, 9 with the default
    [to_max], whatever the other threads of the client and the network do in the meantime,
    as long as the clock does not run back behind the start, each wait ends at its deadline
    and the sends end.  Its own operations never fail on the way, the call is a run of the client,
    and what it returns is [bind_failure] or [cancel_failure] at the start, or the status of
    a reply with its xid, of a timeout or of a cancellation. *)
Theorem call1_returns w0 t k now final rounds proc req rep to hd body w at_ rs :
  idle_client w0 → rtc cl_step (client_start w0) (CRun w at_ false rs) → at_ !! t = None →
  holds req (hd ++ body) → length hd = 24 → calls (cw_clt w) !! i32 (next_xid (cw_clt w)) = None →
  normal now → (0 <= to < 1000 * 2 ^ Z.of_nat k)%Z → (to <= 500000000)%Z → add_timespec now to = Ok final → normal final →
  Forall (round_runs t now) rounds → k + 2 ≤ length rounds →
  (∀ xid xrep req' w1, call1_begin junk proc req rep w = Ok (inr (xid, xrep, req', w1)) → rounds_fit rounds req' None true w1) →
  ∃ ret un w', call1 junk now rounds proc req rep to w = Ok (ret, un, w') ∧
    (call1_begin junk proc req rep w = Ok (inl ret) ∧ (ret = bind_failure ∨ ret = cancel_failure) ∧ un = rep ∧ w' = w ∨
     ∃ xid at' rs', rtc cl_step (CRun w at_ false rs) (CRun w' at' false rs') ∧ at' !! t = Some (CRet xid ret un) ∧
       xid = next_xid (cw_clt w) ∧
       (ret = timeout_failure ∨ ret = cancel_failure ∨ (i32 xid, ret, un) ∈ rs')).
Proof.
  intros Hw0 Hr Ht Hh Hhd Hfree Hnow Hto Hto5 Ef Hnf Hok Hlen Hfit. pose proof (client_inv_reachable _ _ Hw0 Hr) as Hi.
  unfold call1. destruct (call1_begin_total proc req rep hd body w Hh Hhd (ci_window _ Hi)) as [(ret & Eb & Hret)|(xid & xrep & req' & w1 & Eb)];
    rewrite Eb; run; [exists ret, rep, w; split; [done|]; by left|].
  rewrite Ef. run. destruct (call1_begin_holds _ _ _ _ _ _ _ _ _ _ Hh Hhd Eb) as (Ex & _ & _).
  pose proof (l_begin t proc req rep hd body to now xid xrep req' final w w1 at_ rs Ht Hh Hhd Eb ltac:(by rewrite Ex) Ef) as Hs1.
  pose proof (client_inv_step _ _ Hs1 Hi) as Hi1. destruct (add_timespec_spec now to) as (t' & E & Hfin & _); [apply Hnow|lia|].
  rewrite Ef in E. injection E as <-.
  destruct (loop_runs t now to rounds (Calling xid xrep req' to_min final) None true w1
    (<[t := CConn (Calling xid xrep req' to_min final) None]> at_) rs Hok (Hfit _ _ _ _ Eb))
    as (ch' & w2 & at2 & rs2 & k' & El & Hr2 & Ht2 & Ek & Ekr & Ekq); cbn [k_xid k_rep k_req k_to k_final] in *.
  { right. exists k. split; [|unfold to_min; lia]. split; [done|]. split; [done|]. split; [done|]. split; [done|]. unfold to_min. lia. }
  { apply Hnf. }
  { exact Hi1. }
  { apply lookup_insert_eq. }
  rewrite El. run. pose proof (client_inv_runs _ _ Hr2 Hi1) as Hi2.
  destruct (ci_pending _ Hi2 t _ _ Ht2 eq_refl) as (Hx & Hsend & [ca Hca]).
  destruct (call1_end_refs (k_xid k') (k_rep k') (k_req k') ch' ca w2 _ (client_refs_at _ _ _ _ _ Hi2 Ht2) (ci_window _ Hi2) Hx Hsend Hca)
    as (win & d & dn & h & Ee & _ & _).
  pose proof (l_end t k' ch' _ _ w2 _ at2 rs2 Ht2 Ee) as Hs3. rewrite Ek, Ekr, Ekq in Ee. rewrite Ee.
  do 3 eexists. split; [done|]. right. exists xid. do 2 eexists. rewrite <- Ek. split_and!; [| |by rewrite Ek|].
  - eapply rtc_l; [exact Hs1|]. etrans; [exact Hr2|]. by apply rtc_once.
  - apply lookup_insert_eq.
  - eapply (ci_ret _ (client_inv_step _ _ Hs3 Hi2) t). apply lookup_insert_eq.
Qed.

(** C6: The client's connections are used and freed soundly, whatever threads call it,
    however often connections die and are replaced, and however calls are answered, time
    out and are cancelled: every connection object is counted by exactly the references of
    [chan_] and of the threads in [call1], so that no thread's next operation touches a
    freed object or fails a check, and destroying the client when no call is in progress
    frees all of them. *)
Theorem client_references_exact w0 w at_ gone rs :
  idle_client w0 → rtc cl_step (client_start w0) (CRun w at_ gone rs) →
  if gone then cw_conns w = ∅
  else
    ref_counted (cw_conns w) (ch_ref (chan (cw_clt w)) ++ call_refs at_) ∧
    (∀ t k ch fresh, at_ !! t = Some (CConn k ch) → fresh_ok fresh w → ∃ r, get_refconn fresh ch w = Ok r) ∧
    (∀ t k p, at_ !! t = Some (CSend k (Some p)) → ∃ w', call1_send (k_req k) p w = Ok w') ∧
    (∀ t k ch, at_ !! t = Some (CWait k ch) → ∃ dead, is_gone ch (cw_conns w) = Ok dead) ∧
    (∀ t k ch, at_ !! t = Some (CEnd k ch) → ∃ r, call1_end (k_xid k) (k_rep k) (k_req k) ch w = Ok r) ∧
    ((∀ t d, at_ !! t = Some d → ∃ xid r un, d = CRet xid r un) →
     rpcc_destroy w = Ok (CWorld (cw_clt w) ∅ (cw_sent w))).
Proof.
  intros Hw0 Hr. pose proof (client_inv_reachable _ _ Hw0 Hr) as Hi. pose proof (ci_refs _ Hi) as Hrefs.
  cbn [v_w v_at v_gone v_replies] in Hrefs.
  destruct gone; [by apply (ci_gone _ Hi)|]. split_and!.
  - apply (hi_counted _ _ _ Hrefs).
  - intros t k ch fresh Ht Hf. destruct (get_refconn_refs _ _ _ _ (client_refs_at _ _ _ _ _ Hi Ht) Hf) as (? & ? & ? & -> & _). eauto.
  - intros t k p Ht. destruct (ci_pending _ Hi t _ _ Ht eq_refl) as (_ & Hs & _).
    destruct (call1_send_refs (k_req k) p w _ _ (client_refs_at _ _ _ _ _ Hi Ht)) as (? & ? & ? & ->); [apply elem_of_app; right; by left|done|eauto].
  - intros t k [p|] Ht; [|by eexists]. cbn [is_gone]. destruct (refs_inv_at _ _ _ p (client_refs_at _ _ _ _ _ Hi Ht)) as (x & _ & ->);
      [apply elem_of_app; right; by left|]. run. eauto.
  - intros t k ch Ht. destruct (ci_pending _ Hi t _ _ Ht eq_refl) as (Hx & Hs & [ca Hca]).
    destruct (call1_end_refs (k_xid k) (k_rep k) (k_req k) ch ca w _ (client_refs_at _ _ _ _ _ Hi Ht) (ci_window _ Hi) Hx Hs Hca)
      as (? & ? & ? & ? & -> & _). eauto.
  - by eapply client_destroy_empties.
Qed.

(** C7: Every call returns its own outcome: the status and the results that a thread gets
    from [call1] are those of a reply packet that carries the xid of this very call, or the
    status of a timeout or a cancellation; no thread gets another's reply, in whatever
    order replies arrive. *)
Theorem replies_reach_callers w0 σ t xid r un :
  idle_client w0 → rtc cl_step (client_start w0) σ → v_at σ !! t = Some (CRet xid r un) →
  r = timeout_failure ∨ r = cancel_failure ∨ (i32 xid, r, un) ∈ v_replies σ.
Proof. intros Hw0 Hr Ht. by eapply ci_ret; [eapply client_inv_reachable|]. Qed.
End run.

(** Two threads call; the connection that the first one has sent on dies, and the second
    one connects anew before the reply to the first one comes in. *)
Definition ex_bound_client : cworld := CWorld ex_rpcc ∅ [].
Definition ex_req : marshall := Marshall (Some (replicate 28 NUL)) 28 24.
Definition ex_conn2 : connection := Connection 4 false empty_charbuf empty_charbuf 10 0 0 1 0.
Definition ex_reply : bytes := replicate 4 NUL ++ enc_reply_header (ReplyHeader 1 7) ++ replicate 12 NUL.

Lemma ex_bound_client_ok : idle_client ex_bound_client.
Proof.
  split_and!; [done..| |done|done]. split_and!; [repeat constructor|by repeat constructor|]. cbn. rewrite list_elem_of_singleton. discriminate.
Qed.
Lemma ex_req_holds : holds ex_req (replicate 24 NUL ++ []).
Proof. exists (replicate 4 NUL). by vm_compute. Qed.

Lemma ex_fresh_ok p x w :
  bool_decide (cw_conns w !! p = None ∧ c_refno x = 1%Z ∧ cb_buf (c_wpdu x) = None ∧
    map_Forall (λ _ x', c_fd x' ≠ c_fd x) (cw_conns w)) = true → fresh_ok (Some (p, x)) w.
Proof. intros (? & ? & ? & Hall)%bool_decide_eq_true. split_and!; [done..|]. intros c x' Hc E. by destruct (Hall c x' Hc). Qed.

Lemma ex_client_run : ∃ w at_ rs, rtc (cl_step jz) (client_start ex_bound_client) (CRun w at_ false rs) ∧
  v_at (CRun w at_ false rs) !! 0 = Some (CRet 1 7 (take_in (unmarshall_of ex_reply (size ex_reply)))) ∧
  ch_ref (chan (cw_clt w)) ++ call_refs at_ = [1; 1] ∧ cw_conns w !! 0 = None.
Proof.
  eexists _, _, _. split; [unfold client_start|].
  - eapply rtc_l; [eapply (l_begin jz 0 4098 ex_req new_unmarshall (replicate 24 NUL) [] to_max (Timespec 1000 0));
      [reflexivity|apply ex_req_holds|reflexivity|vm_compute; reflexivity..]|].
    eapply rtc_l; [eapply (l_begin jz 1 4098 ex_req new_unmarshall (replicate 24 NUL) [] to_max (Timespec 1000 0));
      [vm_compute; reflexivity|apply ex_req_holds|reflexivity|vm_compute; reflexivity..]|].
    eapply rtc_l; [eapply (l_conn jz 0 _ _ _ (Some (0, ex_conn))); [vm_compute; reflexivity| |vm_compute; reflexivity]|].
    { by apply ex_fresh_ok. }
    eapply rtc_l; [eapply (l_send jz 0); [vm_compute; reflexivity|vm_compute; reflexivity]|].
    eapply rtc_l; [eapply (l_sent jz 0); vm_compute; reflexivity|].
    eapply rtc_l; [eapply (l_die jz 0); vm_compute; reflexivity|].
    eapply rtc_l; [eapply (l_conn jz 1 _ _ _ (Some (1, ex_conn2))); [vm_compute; reflexivity| |vm_compute; reflexivity]|].
    { by apply ex_fresh_ok. }
    eapply rtc_l; [eapply (l_send jz 1); vm_compute; reflexivity|].
    eapply rtc_l; [eapply (l_sent jz 1); vm_compute; reflexivity|].
    eapply rtc_l; [eapply (l_wait jz 0 _ _ (Timespec 1000 5)); [vm_compute; reflexivity|discriminate|vm_compute; reflexivity]|].
    eapply rtc_l; [eapply (l_reply jz ex_reply (size ex_reply)); vm_compute; reflexivity|].
    eapply rtc_l; [eapply (l_done jz 0); [vm_compute; reflexivity|vm_compute; reflexivity|reflexivity]|].
    eapply rtc_l; [eapply (l_end jz 0); [vm_compute; reflexivity|vm_compute; reflexivity]|].
    eapply rtc_refl.
  - split_and!; by vm_compute.
Qed.

Lemma client_references_exact_witness : ∃ w at_ rs, rtc (cl_step jz) (client_start ex_bound_client) (CRun w at_ false rs) ∧
  cw_conns w !! 0 = None ∧ ref_counted (cw_conns w) [1; 1].
Proof.
  destruct ex_client_run as (w & at_ & rs & Hr & _ & Hrefs & H0). exists w, at_, rs. split_and!; [exact Hr|exact H0|].
  rewrite <- Hrefs. exact (proj1 (client_references_exact jz ex_bound_client w at_ false rs ex_bound_client_ok Hr)).
Defined.

Lemma replies_reach_callers_witness : ∃ σ un, rtc (cl_step jz) (client_start ex_bound_client) σ ∧
  v_at σ !! 0 = Some (CRet 1 7 un) ∧ (i32 1, 7%Z, un) ∈ v_replies σ.
Proof.
  destruct ex_client_run as (w & at_ & rs & Hr & H0 & _). eexists _, _. split_and!; [exact Hr|exact H0|].
  by destruct (replies_reach_callers jz ex_bound_client _ 0 1 7 _ ex_bound_client_ok Hr H0) as [?|[?|?]].
Defined.

(** A call whose first packet is another's: its reply comes in the second wait, after a spurious wake-up. *)
Definition ex_stray : bytes := replicate 4 NUL ++ enc_reply_header (ReplyHeader 5 3) ++ replicate 12 NUL.
Definition ex_rounds : list round :=
  [Round (Some (0, ex_conn)) (Timespec 1000 5) Ok [Wakeup (deliver ex_stray) false; Wakeup Ok true];
   Round None (Timespec 1002 5) Ok [Wakeup Ok false; Wakeup (deliver ex_reply) false; Wakeup Ok true]] ++
  ((λ n, quiet_round n) <$> seq 3 7).

Lemma call1_returns_witness : ∃ un w', call1 jz (Timespec 1000 0) ex_rounds 4098 ex_req new_unmarshall to_max ex_bound_client = Ok (7%Z, un, w').
Proof.
  destruct (call1_returns jz ex_bound_client 0 7 (Timespec 1000 0) (Timespec 1120 0) ex_rounds 4098 ex_req new_unmarshall to_max
    (replicate 24 NUL) [] ex_bound_client ∅ []) as (ret & un & w' & E & _).
  - apply ex_bound_client_ok.
  - apply rtc_refl.
  - reflexivity.
  - apply ex_req_holds.
  - reflexivity.
  - reflexivity.
  - by split.
  - by vm_compute.
  - discriminate.
  - reflexivity.
  - by split.
  - repeat apply Forall_cons_2; [..|by apply Forall_nil_2].
    all: split; [by split|]; split; [by vm_compute|]; split; [apply env_steps_quiet|].
    all: split; [|first [by left | right; by left | right; right; by left]].
    all: repeat constructor; first [apply env_steps_quiet | eapply env_steps_deliver; vm_compute; reflexivity].
  - by vm_compute.
  - intros xid xrep req' w1 Eb. vm_compute in Eb. injection Eb as _ _ _ <-. split; [intros _; by apply ex_fresh_ok|]. intros. apply rounds_fit_none.
    repeat constructor.
  - pose proof E as E'. vm_compute in E'. injection E' as <- _ _. exists un, w'. exact E.
Defined.
