(* ===== verification/Stubs.v ===== *)
(** * The typed templates of calls and registrations (rpc.h)

    [rpcc::call] is written out for no to seven arguments and [rpcs::reg] for one to
    seven; here each as it stands.  The rest of the development uses the versions for
    an argument tuple, [call] of RpcClient.v and [h1] of RpcServer.v; the theorem says
    that the written-out ones are those. *)

From stdpp Require Import base tactics numbers list gmap strings.
From Stdlib Require Import ZArith Lia Ascii.
From S2P Require Import Prelude CxxString Marshall Connection RpcServer RpcTime RpcClient.

(** ** The client: template [rpcc::call] *)
Section calls.
Context (junk : nat → ascii) {R : Type} (cr : codec R) (now : timespec) (rounds : list round) (proc : Z).

Definition call_0 (r : R) (to : Z) (w : cworld) : outcome (Z * R * cworld) :=
  let m := new_marshall junk in
  call_m junk cr now rounds proc m r to w.

Definition call_1 {A1} (c1 : codec A1)
    (a1 : A1) (r : R) (to : Z) (w : cworld) : outcome (Z * R * cworld) :=
  let m := new_marshall junk in
  m ← put c1 a1 m;
  call_m junk cr now rounds proc m r to w.

Definition call_2 {A1 A2} (c1 : codec A1) (c2 : codec A2)
    (a1 : A1) (a2 : A2) (r : R) (to : Z) (w : cworld) : outcome (Z * R * cworld) :=
  let m := new_marshall junk in
  m ← put c1 a1 m;
  m ← put c2 a2 m;
  call_m junk cr now rounds proc m r to w.

Definition call_3 {A1 A2 A3} (c1 : codec A1) (c2 : codec A2) (c3 : codec A3)
    (a1 : A1) (a2 : A2) (a3 : A3) (r : R) (to : Z) (w : cworld) : outcome (Z * R * cworld) :=
  let m := new_marshall junk in
  m ← put c1 a1 m;
  m ← put c2 a2 m;
  m ← put c3 a3 m;
  call_m junk cr now rounds proc m r to w.

Definition call_4 {A1 A2 A3 A4} (c1 : codec A1) (c2 : codec A2) (c3 : codec A3) (c4 : codec A4)
    (a1 : A1) (a2 : A2) (a3 : A3) (a4 : A4) (r : R) (to : Z) (w : cworld) : outcome (Z * R * cworld) :=
  let m := new_marshall junk in
  m ← put c1 a1 m;
  m ← put c2 a2 m;
  m ← put c3 a3 m;
  m ← put c4 a4 m;
  call_m junk cr now rounds proc m r to w.

Definition call_5 {A1 A2 A3 A4 A5} (c1 : codec A1) (c2 : codec A2) (c3 : codec A3) (c4 : codec A4) (c5 : codec A5)
    (a1 : A1) (a2 : A2) (a3 : A3) (a4 : A4) (a5 : A5) (r : R) (to : Z) (w : cworld) : outcome (Z * R * cworld) :=
  let m := new_marshall junk in
  m ← put c1 a1 m;
  m ← put c2 a2 m;
  m ← put c3 a3 m;
  m ← put c4 a4 m;
  m ← put c5 a5 m;
  call_m junk cr now rounds proc m r to w.

Definition call_6 {A1 A2 A3 A4 A5 A6} (c1 : codec A1) (c2 : codec A2) (c3 : codec A3) (c4 : codec A4) (c5 : codec A5) (c6 : codec A6)
    (a1 : A1) (a2 : A2) (a3 : A3) (a4 : A4) (a5 : A5) (a6 : A6) (r : R) (to : Z) (w : cworld) : outcome (Z * R * cworld) :=
  let m := new_marshall junk in
  m ← put c1 a1 m;
  m ← put c2 a2 m;
  m ← put c3 a3 m;
  m ← put c4 a4 m;
  m ← put c5 a5 m;
  m ← put c6 a6 m;
  call_m junk cr now rounds proc m r to w.

Definition call_7 {A1 A2 A3 A4 A5 A6 A7} (c1 : codec A1) (c2 : codec A2) (c3 : codec A3) (c4 : codec A4) (c5 : codec A5) (c6 : codec A6) (c7 : codec A7)
    (a1 : A1) (a2 : A2) (a3 : A3) (a4 : A4) (a5 : A5) (a6 : A6) (a7 : A7) (r : R) (to : Z) (w : cworld) : outcome (Z * R * cworld) :=
  let m := new_marshall junk in
  m ← put c1 a1 m;
  m ← put c2 a2 m;
  m ← put c3 a3 m;
  m ← put c4 a4 m;
  m ← put c5 a5 m;
  m ← put c6 a6 m;
  m ← put c7 a7 m;
  call_m junk cr now rounds proc m r to w.
End calls.

(** ** The server: the class [h1] in each template [rpcs::reg] *)
Section handlers.
Context {S R : Type} (cr : codec R).

Definition fn_1 {A1} (c1 : codec A1)
    (meth : S → A1 → R → outcome (S * R * Z)) : handler S :=
  λ st args ret,
    '(a1, args) ← get c1 (dflt c1) args;
    if negb (okdone args) then Ok (unmarshal_args_failure, ret, st)
    else
      '(st, r, b) ← meth st a1 (dflt cr);
      ret ← put cr r ret;
      Ok (b, ret, st).

Definition fn_2 {A1 A2} (c1 : codec A1) (c2 : codec A2)
    (meth : S → A1 → A2 → R → outcome (S * R * Z)) : handler S :=
  λ st args ret,
    '(a1, args) ← get c1 (dflt c1) args;
    '(a2, args) ← get c2 (dflt c2) args;
    if negb (okdone args) then Ok (unmarshal_args_failure, ret, st)
    else
      '(st, r, b) ← meth st a1 a2 (dflt cr);
      ret ← put cr r ret;
      Ok (b, ret, st).

Definition fn_3 {A1 A2 A3} (c1 : codec A1) (c2 : codec A2) (c3 : codec A3)
    (meth : S → A1 → A2 → A3 → R → outcome (S * R * Z)) : handler S :=
  λ st args ret,
    '(a1, args) ← get c1 (dflt c1) args;
    '(a2, args) ← get c2 (dflt c2) args;
    '(a3, args) ← get c3 (dflt c3) args;
    if negb (okdone args) then Ok (unmarshal_args_failure, ret, st)
    else
      '(st, r, b) ← meth st a1 a2 a3 (dflt cr);
      ret ← put cr r ret;
      Ok (b, ret, st).

Definition fn_4 {A1 A2 A3 A4} (c1 : codec A1) (c2 : codec A2) (c3 : codec A3) (c4 : codec A4)
    (meth : S → A1 → A2 → A3 → A4 → R → outcome (S * R * Z)) : handler S :=
  λ st args ret,
    '(a1, args) ← get c1 (dflt c1) args;
    '(a2, args) ← get c2 (dflt c2) args;
    '(a3, args) ← get c3 (dflt c3) args;
    '(a4, args) ← get c4 (dflt c4) args;
    if negb (okdone args) then Ok (unmarshal_args_failure, ret, st)
    else
      '(st, r, b) ← meth st a1 a2 a3 a4 (dflt cr);
      ret ← put cr r ret;
      Ok (b, ret, st).

Definition fn_5 {A1 A2 A3 A4 A5} (c1 : codec A1) (c2 : codec A2) (c3 : codec A3) (c4 : codec A4) (c5 : codec A5)
    (meth : S → A1 → A2 → A3 → A4 → A5 → R → outcome (S * R * Z)) : handler S :=
  λ st args ret,
    '(a1, args) ← get c1 (dflt c1) args;
    '(a2, args) ← get c2 (dflt c2) args;
    '(a3, args) ← get c3 (dflt c3) args;
    '(a4, args) ← get c4 (dflt c4) args;
    '(a5, args) ← get c5 (dflt c5) args;
    if negb (okdone args) then Ok (unmarshal_args_failure, ret, st)
    else
      '(st, r, b) ← meth st a1 a2 a3 a4 a5 (dflt cr);
      ret ← put cr r ret;
      Ok (b, ret, st).

Definition fn_6 {A1 A2 A3 A4 A5 A6} (c1 : codec A1) (c2 : codec A2) (c3 : codec A3) (c4 : codec A4) (c5 : codec A5) (c6 : codec A6)
    (meth : S → A1 → A2 → A3 → A4 → A5 → A6 → R → outcome (S * R * Z)) : handler S :=
  λ st args ret,
    '(a1, args) ← get c1 (dflt c1) args;
    '(a2, args) ← get c2 (dflt c2) args;
    '(a3, args) ← get c3 (dflt c3) args;
    '(a4, args) ← get c4 (dflt c4) args;
    '(a5, args) ← get c5 (dflt c5) args;
    '(a6, args) ← get c6 (dflt c6) args;
    if negb (okdone args) then Ok (unmarshal_args_failure, ret, st)
    else
      '(st, r, b) ← meth st a1 a2 a3 a4 a5 a6 (dflt cr);
      ret ← put cr r ret;
      Ok (b, ret, st).

Definition fn_7 {A1 A2 A3 A4 A5 A6 A7} (c1 : codec A1) (c2 : codec A2) (c3 : codec A3) (c4 : codec A4) (c5 : codec A5) (c6 : codec A6) (c7 : codec A7)
    (meth : S → A1 → A2 → A3 → A4 → A5 → A6 → A7 → R → outcome (S * R * Z)) : handler S :=
  λ st args ret,
    '(a1, args) ← get c1 (dflt c1) args;
    '(a2, args) ← get c2 (dflt c2) args;
    '(a3, args) ← get c3 (dflt c3) args;
    '(a4, args) ← get c4 (dflt c4) args;
    '(a5, args) ← get c5 (dflt c5) args;
    '(a6, args) ← get c6 (dflt c6) args;
    '(a7, args) ← get c7 (dflt c7) args;
    if negb (okdone args) then Ok (unmarshal_args_failure, ret, st)
    else
      '(st, r, b) ← meth st a1 a2 a3 a4 a5 a6 a7 (dflt cr);
      ret ← put cr r ret;
      Ok (b, ret, st).
End handlers.

(** A registration that succeeds. *)
Lemma reg1_Ok {S} proc (h : handler S) s s' :
  reg1 proc h s = Ok s' → s_procs s' = <[proc := h]> (s_procs s).
Proof. unfold reg1. intros ([] & _ & [= <-])%bind_Ok. done. Qed.


(** ** The tuple of the arguments *)

(** The codec of a tuple, as [operator<<] and [operator>>] on its parts in order. *)
Definition tuple3 {A1 A2 A3} (c1 : codec A1) (c2 : codec A2) (c3 : codec A3) :=
  pair_codec c1 (pair_codec c2 c3).
Definition tuple4 {A1 A2 A3 A4} (c1 : codec A1) (c2 : codec A2) (c3 : codec A3) (c4 : codec A4) :=
  pair_codec c1 (tuple3 c2 c3 c4).
Definition tuple5 {A1 A2 A3 A4 A5} (c1 : codec A1) (c2 : codec A2) (c3 : codec A3) (c4 : codec A4) (c5 : codec A5) :=
  pair_codec c1 (tuple4 c2 c3 c4 c5).
Definition tuple6 {A1 A2 A3 A4 A5 A6} (c1 : codec A1) (c2 : codec A2) (c3 : codec A3) (c4 : codec A4) (c5 : codec A5) (c6 : codec A6) :=
  pair_codec c1 (tuple5 c2 c3 c4 c5 c6).
Definition tuple7 {A1 A2 A3 A4 A5 A6 A7} (c1 : codec A1) (c2 : codec A2) (c3 : codec A3) (c4 : codec A4) (c5 : codec A5) (c6 : codec A6) (c7 : codec A7) :=
  pair_codec c1 (tuple6 c2 c3 c4 c5 c6 c7).

(** Both sides marshall, or unmarshall, the same values in the same order. *)
Ltac by_parts :=
  cbn [put get dflt pair_codec mbind outcome_bind];
  repeat match goal with
  | |- context [put ?c ?x ?m] => destruct (put c x m) as [?|?]; cbn [mbind outcome_bind]; [|done]
  | |- context [get ?c ?d ?u] => destruct (get c d u) as [[? ?]|?]; cbn [mbind outcome_bind]; [|done]
  end; done.

Section agree.
Context (junk : nat → ascii) {S R : Type} (cr : codec R).

Lemma call_1_tuple {A1} (c1 : codec A1) now rounds proc
    a1 r to w :
  call_1 junk cr now rounds proc c1 a1 r to w
  = call junk c1 cr now rounds proc a1 r to w.
Proof. unfold call, call_1. by_parts. Qed.
Lemma fn_1_tuple {A1} (c1 : codec A1)
    (meth : S → A1 → R → outcome (S * R * Z)) st args ret :
  fn_1 cr c1 meth st args ret
  = h1 c1 cr (λ st a1 r, meth st a1 r) st args ret.
Proof. unfold h1, fn_1. by_parts. Qed.
Lemma call_2_tuple {A1 A2} (c1 : codec A1) (c2 : codec A2) now rounds proc
    a1 a2 r to w :
  call_2 junk cr now rounds proc c1 c2 a1 a2 r to w
  = call junk (pair_codec c1 c2) cr now rounds proc (a1, a2) r to w.
Proof. unfold call, call_2. by_parts. Qed.
Lemma fn_2_tuple {A1 A2} (c1 : codec A1) (c2 : codec A2)
    (meth : S → A1 → A2 → R → outcome (S * R * Z)) st args ret :
  fn_2 cr c1 c2 meth st args ret
  = h1 (pair_codec c1 c2) cr (λ st '(a1, a2) r, meth st a1 a2 r) st args ret.
Proof. unfold h1, fn_2. by_parts. Qed.
Lemma call_3_tuple {A1 A2 A3} (c1 : codec A1) (c2 : codec A2) (c3 : codec A3) now rounds proc
    a1 a2 a3 r to w :
  call_3 junk cr now rounds proc c1 c2 c3 a1 a2 a3 r to w
  = call junk (tuple3 c1 c2 c3) cr now rounds proc (a1, (a2, a3)) r to w.
Proof. unfold call, call_3, tuple3. by_parts. Qed.
Lemma fn_3_tuple {A1 A2 A3} (c1 : codec A1) (c2 : codec A2) (c3 : codec A3)
    (meth : S → A1 → A2 → A3 → R → outcome (S * R * Z)) st args ret :
  fn_3 cr c1 c2 c3 meth st args ret
  = h1 (tuple3 c1 c2 c3) cr (λ st '(a1, (a2, a3)) r, meth st a1 a2 a3 r) st args ret.
Proof. unfold h1, fn_3, tuple3. by_parts. Qed.
Lemma call_4_tuple {A1 A2 A3 A4} (c1 : codec A1) (c2 : codec A2) (c3 : codec A3) (c4 : codec A4) now rounds proc
    a1 a2 a3 a4 r to w :
  call_4 junk cr now rounds proc c1 c2 c3 c4 a1 a2 a3 a4 r to w
  = call junk (tuple4 c1 c2 c3 c4) cr now rounds proc (a1, (a2, (a3, a4))) r to w.
Proof. unfold call, call_4, tuple4, tuple3. by_parts. Qed.
Lemma fn_4_tuple {A1 A2 A3 A4} (c1 : codec A1) (c2 : codec A2) (c3 : codec A3) (c4 : codec A4)
    (meth : S → A1 → A2 → A3 → A4 → R → outcome (S * R * Z)) st args ret :
  fn_4 cr c1 c2 c3 c4 meth st args ret
  = h1 (tuple4 c1 c2 c3 c4) cr (λ st '(a1, (a2, (a3, a4))) r, meth st a1 a2 a3 a4 r) st args ret.
Proof. unfold h1, fn_4, tuple4, tuple3. by_parts. Qed.
Lemma call_5_tuple {A1 A2 A3 A4 A5} (c1 : codec A1) (c2 : codec A2) (c3 : codec A3) (c4 : codec A4) (c5 : codec A5) now rounds proc
    a1 a2 a3 a4 a5 r to w :
  call_5 junk cr now rounds proc c1 c2 c3 c4 c5 a1 a2 a3 a4 a5 r to w
  = call junk (tuple5 c1 c2 c3 c4 c5) cr now rounds proc (a1, (a2, (a3, (a4, a5)))) r to w.
Proof. unfold call, call_5, tuple5, tuple4, tuple3. by_parts. Qed.
Lemma fn_5_tuple {A1 A2 A3 A4 A5} (c1 : codec A1) (c2 : codec A2) (c3 : codec A3) (c4 : codec A4) (c5 : codec A5)
    (meth : S → A1 → A2 → A3 → A4 → A5 → R → outcome (S * R * Z)) st args ret :
  fn_5 cr c1 c2 c3 c4 c5 meth st args ret
  = h1 (tuple5 c1 c2 c3 c4 c5) cr (λ st '(a1, (a2, (a3, (a4, a5)))) r, meth st a1 a2 a3 a4 a5 r) st args ret.
Proof. unfold h1, fn_5, tuple5, tuple4, tuple3. by_parts. Qed.
Lemma call_6_tuple {A1 A2 A3 A4 A5 A6} (c1 : codec A1) (c2 : codec A2) (c3 : codec A3) (c4 : codec A4) (c5 : codec A5) (c6 : codec A6) now rounds proc
    a1 a2 a3 a4 a5 a6 r to w :
  call_6 junk cr now rounds proc c1 c2 c3 c4 c5 c6 a1 a2 a3 a4 a5 a6 r to w
  = call junk (tuple6 c1 c2 c3 c4 c5 c6) cr now rounds proc (a1, (a2, (a3, (a4, (a5, a6))))) r to w.
Proof. unfold call, call_6, tuple6, tuple5, tuple4, tuple3. by_parts. Qed.
Lemma fn_6_tuple {A1 A2 A3 A4 A5 A6} (c1 : codec A1) (c2 : codec A2) (c3 : codec A3) (c4 : codec A4) (c5 : codec A5) (c6 : codec A6)
    (meth : S → A1 → A2 → A3 → A4 → A5 → A6 → R → outcome (S * R * Z)) st args ret :
  fn_6 cr c1 c2 c3 c4 c5 c6 meth st args ret
  = h1 (tuple6 c1 c2 c3 c4 c5 c6) cr (λ st '(a1, (a2, (a3, (a4, (a5, a6))))) r, meth st a1 a2 a3 a4 a5 a6 r) st args ret.
Proof. unfold h1, fn_6, tuple6, tuple5, tuple4, tuple3. by_parts. Qed.
Lemma call_7_tuple {A1 A2 A3 A4 A5 A6 A7} (c1 : codec A1) (c2 : codec A2) (c3 : codec A3) (c4 : codec A4) (c5 : codec A5) (c6 : codec A6) (c7 : codec A7) now rounds proc
    a1 a2 a3 a4 a5 a6 a7 r to w :
  call_7 junk cr now rounds proc c1 c2 c3 c4 c5 c6 c7 a1 a2 a3 a4 a5 a6 a7 r to w
  = call junk (tuple7 c1 c2 c3 c4 c5 c6 c7) cr now rounds proc (a1, (a2, (a3, (a4, (a5, (a6, a7)))))) r to w.
Proof. unfold call, call_7, tuple7, tuple6, tuple5, tuple4, tuple3. by_parts. Qed.
Lemma fn_7_tuple {A1 A2 A3 A4 A5 A6 A7} (c1 : codec A1) (c2 : codec A2) (c3 : codec A3) (c4 : codec A4) (c5 : codec A5) (c6 : codec A6) (c7 : codec A7)
    (meth : S → A1 → A2 → A3 → A4 → A5 → A6 → A7 → R → outcome (S * R * Z)) st args ret :
  fn_7 cr c1 c2 c3 c4 c5 c6 c7 meth st args ret
  = h1 (tuple7 c1 c2 c3 c4 c5 c6 c7) cr (λ st '(a1, (a2, (a3, (a4, (a5, (a6, a7)))))) r, meth st a1 a2 a3 a4 a5 a6 a7 r) st args ret.
Proof. unfold h1, fn_7, tuple7, tuple6, tuple5, tuple4, tuple3. by_parts. Qed.
End agree.

(** ** Property *)

(** The templates that rpc.h writes out for each number of arguments marshall and
    unmarshall their arguments in the order of their parameters: a call with two to seven
    arguments is the call with the tuple of them, and the handler made by reg for a
    method of two to seven arguments is the handler for the tuple, bad requests and
    faults included; so the theorems on tuples hold of every call in the program. *)
Theorem templates_are_tuples (junk : nat → ascii) {S R A1 A2 A3 A4 A5 A6 A7} (cr : codec R)
    (c1 : codec A1) (c2 : codec A2) (c3 : codec A3) (c4 : codec A4) (c5 : codec A5) (c6 : codec A6) (c7 : codec A7)
    now rounds proc a1 a2 a3 a4 a5 a6 a7 r to w (st : S) args ret :
  (call_2 junk cr now rounds proc c1 c2 a1 a2 r to w
   = call junk (pair_codec c1 c2) cr now rounds proc (a1, a2) r to w) ∧
  (call_3 junk cr now rounds proc c1 c2 c3 a1 a2 a3 r to w
   = call junk (tuple3 c1 c2 c3) cr now rounds proc (a1, (a2, a3)) r to w) ∧
  (call_4 junk cr now rounds proc c1 c2 c3 c4 a1 a2 a3 a4 r to w
   = call junk (tuple4 c1 c2 c3 c4) cr now rounds proc (a1, (a2, (a3, a4))) r to w) ∧
  (call_5 junk cr now rounds proc c1 c2 c3 c4 c5 a1 a2 a3 a4 a5 r to w
   = call junk (tuple5 c1 c2 c3 c4 c5) cr now rounds proc (a1, (a2, (a3, (a4, a5)))) r to w) ∧
  (call_6 junk cr now rounds proc c1 c2 c3 c4 c5 c6 a1 a2 a3 a4 a5 a6 r to w
   = call junk (tuple6 c1 c2 c3 c4 c5 c6) cr now rounds proc (a1, (a2, (a3, (a4, (a5, a6))))) r to w) ∧
  (call_7 junk cr now rounds proc c1 c2 c3 c4 c5 c6 c7 a1 a2 a3 a4 a5 a6 a7 r to w
   = call junk (tuple7 c1 c2 c3 c4 c5 c6 c7) cr now rounds proc (a1, (a2, (a3, (a4, (a5, (a6, a7)))))) r to w) ∧
  (∀ meth, fn_2 cr c1 c2 meth st args ret
   = h1 (pair_codec c1 c2) cr (λ st '(a1, a2) r, meth st a1 a2 r) st args ret) ∧
  (∀ meth, fn_3 cr c1 c2 c3 meth st args ret
   = h1 (tuple3 c1 c2 c3) cr (λ st '(a1, (a2, a3)) r, meth st a1 a2 a3 r) st args ret) ∧
  (∀ meth, fn_4 cr c1 c2 c3 c4 meth st args ret
   = h1 (tuple4 c1 c2 c3 c4) cr (λ st '(a1, (a2, (a3, a4))) r, meth st a1 a2 a3 a4 r) st args ret) ∧
  (∀ meth, fn_5 cr c1 c2 c3 c4 c5 meth st args ret
   = h1 (tuple5 c1 c2 c3 c4 c5) cr (λ st '(a1, (a2, (a3, (a4, a5)))) r, meth st a1 a2 a3 a4 a5 r) st args ret) ∧
  (∀ meth, fn_6 cr c1 c2 c3 c4 c5 c6 meth st args ret
   = h1 (tuple6 c1 c2 c3 c4 c5 c6) cr (λ st '(a1, (a2, (a3, (a4, (a5, a6))))) r, meth st a1 a2 a3 a4 a5 a6 r) st args ret) ∧
  (∀ meth, fn_7 cr c1 c2 c3 c4 c5 c6 c7 meth st args ret
   = h1 (tuple7 c1 c2 c3 c4 c5 c6 c7) cr (λ st '(a1, (a2, (a3, (a4, (a5, (a6, a7)))))) r, meth st a1 a2 a3 a4 a5 a6 a7 r) st args ret).
Proof.
  split_and!; [apply call_2_tuple|apply call_3_tuple|apply call_4_tuple|apply call_5_tuple|apply call_6_tuple
    |apply call_7_tuple|intros; apply fn_2_tuple|intros; apply fn_3_tuple|intros; apply fn_4_tuple
    |intros; apply fn_5_tuple|intros; apply fn_6_tuple|intros; apply fn_7_tuple].
Qed.
