(* ===== verification/RpcTest.v ===== *)
(** * The RPC test program (rpctest.cc)

    Its service [srv] with the registrations of [startserver], the marshalling test, and
    the calls that [simple_tests] makes of the service. *)

From stdpp Require Import base tactics numbers list gmap strings.
From Stdlib Require Import ZArith Lia Ascii.
From S2P Require Import Prelude CxxString Marshall Connection RpcServer RpcTime RpcClient RpcCall Stubs.

#[global] Instance req_header_eq_dec : EqDecision req_header.
Proof. solve_decision. Defined.

(** ** The service *)
Definition handle_22 (st : unit) (ab : bytes * bytes) (r : bytes) : outcome (unit * bytes * Z) :=
  let '(a, b) := ab in Ok (st, a ++ b, 0%Z).
Definition handle_fast (st : unit) (a r : Z) : outcome (unit * Z * Z) :=
  r ← int_result (a + 1); Ok (st, r, 0%Z).
Definition handle_slow (st : unit) (a r : Z) : outcome (unit * Z * Z) :=
  r ← int_result (a + 2); Ok (st, r, 0%Z).
(** [std::string(len, 'x')] throws for a negative length. *)
Definition handle_bigrep (st : unit) (len : Z) (r : bytes) : outcome (unit * bytes * Z) :=
  if (len <? 0)%Z then Fault StringOutOfRange else Ok (st, replicate (Z.to_nat len) "x"%char, 0%Z).

Definition startserver (junk : nat → ascii) (nonce : Z) : outcome (rpcs unit) :=
  s ← new_rpcs junk nonce 0;
  s ← reg1 22 (h1 (pair_codec (string_codec junk) (string_codec junk)) (string_codec junk) handle_22) s;
  s ← reg1 23 (h1 (int_codec junk) (int_codec junk) handle_fast) s;
  s ← reg1 24 (h1 (int_codec junk) (int_codec junk) handle_slow) s;
  reg1 25 (h1 (int_codec junk) (string_codec junk) handle_bigrep) s.

(** ** The marshalling test *)
Definition testmarshall (junk : nat → ascii) : outcome unit :=
  let rh := ReqHeader 1 2 3 4 5 in
  m ← pack_req_header junk rh (new_marshall junk);
  VERIFY (m_ind m =? RPC_HEADER_SZ)%Z;;
  let i := 12345%Z in
  let l := 1223344455%Z in
  let s := lit "hallo...." in
  m ← put (int_codec junk) i m;
  m ← put (ull_codec junk) l m;
  m ← put (string_codec junk) s m;
  let '((b, sz), m) := take_buf m in
  VERIFY (sz =? RPC_HEADER_SZ + 4 + 8 + size s + 4)%Z;;
  b ← deref b;
  '(rh1, un) ← unpack_req_header (unmarshall_of b sz);
  VERIFY (bool_decide (rh = rh1));;
  '(i1, un) ← get (int_codec junk) 0%Z un;
  '(l1, un) ← get (ull_codec junk) 0%Z un;
  '(s1, un) ← get (string_codec junk) [] un;
  VERIFY (okdone un);;
  VERIFY (bool_decide (i1 = i ∧ l1 = l ∧ s1 = s)).

(** Whatever bytes an allocation contains at first. *)
Lemma testmarshall_passes junk : testmarshall junk = Ok ().
Proof. vm_compute. reflexivity. Qed.

(** ** The calls of the test *)

(** A client at the start of a call, and the server it is bound to. *)
Definition connected {S} (cw : cworld) (p : nat) (sw : world S) (c : nat) : Prop :=
  client_ready cw p ∧ clt_nonce (cw_clt cw) ≠ 0%Z ∧ srv_nonce (cw_clt cw) = s_nonce (w_srv sw) ∧
  (∀ proc, fresh_request (next_header (cw_clt cw) proc) (s_windows (w_srv sw))) ∧
  remembered_ok sw ∧ usable c (w_conns sw).

(** The call is executed and returns 0 and the result [r]. *)
Definition answered `{Al : allocator} {S R} (js : nat → ascii) (cw : cworld) (p : nat) (sw : world S) (c : nat)
    (now : timespec) (to : Z) (f : list round → outcome (Z * R * cworld)) (r : R) : Prop :=
  served js cw p sw c now to f (λ _, True) 0%Z r.

Lemma answered_call `{Al : allocator, !KeepsFreed Al} {S A R} jc js (ca : codec A) (cr : codec R) va ea vr er
    `{!CodecOK ca va ea, !CodecOK cr vr er} (meth : S → A → R → outcome (S * R * Z))
    now proc a r to cw p (sw : world S) c f st' :
  connected cw p sw c →
  proc ≠ rpc_bind → s_procs (w_srv sw) !! i32 proc = Some (h1 ca cr meth) →
  va a → (24 + size (ea a) < max_packet)%Z → vr r → (24 + size (er r) < max_packet)%Z →
  meth (w_st sw) a (dflt cr) = Ok (st', r, 0%Z) →
  (∀ rs, f rs = call jc ca cr now rs proc a (dflt cr) to cw) →
  answered js cw p sw c now to f r.
Proof.
  intros (Hr & Hc & Hs & Hf & Hrem & Hu) Hp Hproc Ha Hsa Hvr Hsr Hm Hcall.
  destruct (call_over_network jc js ca cr va ea vr er meth now proc a r 0 st' to cw p sw c)
    as (pkt & Ht & Hd); try done.
  { unfold remote. by rewrite Hm. }
  exists pkt. split; [done|]. intros buf sz Hb. destruct (Hd buf sz Hb) as (sw' & rpl & E & _ & Hsent & Ht' & Hret).
  exists sw', rpl. split_and!; [done..|]. intros. rewrite Hcall. by apply Hret.
Qed.

(** The calls that rpctest makes of its service are answered right, for all arguments
    and not only the ones it tries: procedure 22 returns the two strings joined, 23 and
    24 the number plus one and plus two, 25 a string of that many characters, each with
    status 0, one request and one reply. *)
Theorem rpctest_calls_answered `{Al : allocator, !KeepsFreed Al} junk nonce s now to cw p (sw : world unit) c :
  startserver junk nonce = Ok s → s_procs (w_srv sw) = s_procs s → connected cw p sw c →
  (∀ a b, (size a + size b < max_packet - 40)%Z →
     answered junk cw p sw c now to
       (λ rs, call_2 junk (string_codec junk) now rs 22 (string_codec junk) (string_codec junk) a b [] to cw)
       (a ++ b)) ∧
  (∀ x, is_i32 x → is_i32 (x + 1) →
     answered junk cw p sw c now to
       (λ rs, call_1 junk (int_codec junk) now rs 23 (int_codec junk) x 0%Z to cw) (x + 1)%Z) ∧
  (∀ x, is_i32 x → is_i32 (x + 2) →
     answered junk cw p sw c now to
       (λ rs, call_1 junk (int_codec junk) now rs 24 (int_codec junk) x 0%Z to cw) (x + 2)%Z) ∧
  (∀ n, (0 <= n < max_packet - 40)%Z →
     answered junk cw p sw c now to
       (λ rs, call_1 junk (string_codec junk) now rs 25 (int_codec junk) n [] to cw)
       (replicate (Z.to_nat n) "x"%char)).
Proof.
  intros E Hprocs Hcon. assert (max_packet = 10485760)%Z as Hmax by done.
  unfold startserver, new_rpcs in E.
  apply bind_Ok in E as (s1 & E1%reg1_Ok & E). apply bind_Ok in E as (s2 & E2%reg1_Ok & E).
  apply bind_Ok in E as (s3 & E3%reg1_Ok & E). apply bind_Ok in E as (s4 & E4%reg1_Ok & E%reg1_Ok).
  rewrite E, E4, E3, E2, E1 in Hprocs. clear E E1 E2 E3 E4. split_and!.
  - intros a b Hsz. pose proof (size_nonneg a). pose proof (size_nonneg b).
    apply (answered_call junk junk (pair_codec (string_codec junk) (string_codec junk)) (string_codec junk)
      _ _ _ _ handle_22 now 22 (a, b) (a ++ b) to cw p sw c _ (w_st sw)); try done.
    + by rewrite Hprocs.
    + simpl. lia.
    + unfold enc_pair, enc_string. cbn [fst snd]. rewrite !size_app, !size_enc_uint. lia.
    + rewrite size_app. lia.
    + unfold enc_string. rewrite !size_app, size_enc_uint. lia.
    + intros rs. apply (call_2_tuple junk (string_codec junk)).
  - intros x Hx Hx1.
    apply (answered_call junk junk (int_codec junk) (int_codec junk)
      _ _ _ _ handle_fast now 23 x (x + 1)%Z to cw p sw c _ (w_st sw)); try done.
    + by rewrite Hprocs.
    + unfold handle_fast. by rewrite int_result_Ok.
  - intros x Hx Hx1.
    apply (answered_call junk junk (int_codec junk) (int_codec junk)
      _ _ _ _ handle_slow now 24 x (x + 2)%Z to cw p sw c _ (w_st sw)); try done.
    + by rewrite Hprocs.
    + unfold handle_slow. by rewrite int_result_Ok.
  - intros n Hn'.
    apply (answered_call junk junk (int_codec junk) (string_codec junk)
      _ _ _ _ handle_bigrep now 25 n _ to cw p sw c _ (w_st sw)); try done.
    + by rewrite Hprocs.
    + lia.
    + rewrite size_replicate. lia.
    + unfold enc_string. rewrite size_app, size_enc_uint, size_replicate. lia.
    + unfold handle_bigrep. by destruct (Z.ltb_spec n 0); [lia|].
Qed.

#[local] Existing Instance keeping.
Definition ex_srv_program : outcome (rpcs unit) := startserver jz 55.
Definition ex_srv : world unit :=
  World (Rpcs 55 (Windows {[77%Z := [new_reply_t 5; new_reply_t 7]]} {[77 := 3]}%Z) ∅ 0 0 ∅ true
           (match ex_srv_program with Ok s => s_procs s | Fault _ => ∅ end))
    {[1 := ex_conn]} () [].

Lemma ex_srv_connected : connected ex_client 0 ex_srv 1.
Proof.
  split_and!.
  - apply ex_client_ready.
  - discriminate.
  - reflexivity.
  - intros proc. destruct ex_fresh as (H1 & H2 & H3 & H4). by split_and!.
  - intros clt c H. simpl in H. by rewrite lookup_empty in H.
  - exact ex_usable.
Qed.

Lemma rpctest_calls_answered_witness :
  answered jz ex_client 0 ex_srv 1 (Timespec 100 0) to_max
    (λ rs, call_2 jz (string_codec jz) (Timespec 100 0) rs 22 (string_codec jz) (string_codec jz)
             (lit "hello") (lit " goodbye") [] to_max ex_client) (lit "hello goodbye").
Proof.
  destruct ex_srv_program as [s|] eqn:Es; [|discriminate Es].
  destruct (rpctest_calls_answered jz 55 s (Timespec 100 0) to_max ex_client 0 ex_srv 1) as [H22 _].
  - exact Es.
  - unfold ex_srv. rewrite Es. reflexivity.
  - apply ex_srv_connected.
  - exact (H22 (lit "hello") (lit " goodbye") eq_refl).
Defined.

(** ** A server that was restarted *)

(** C33: The calls of an old client to the new server end to end: the client is bound to an
    earlier server (its server nonce is neither 0 nor the new one), connected to the new one
    by a connection that stays up, not being destroyed, and its loss test is off; packets are
    below 10 MB, and the clock and the timeout are as [in_time] says.  Then whatever the
    procedure, the argument and the methods, the server, given the request as it travels,
    runs nothing and sends one reply, and in whatever pieces that travels, and in whichever
    wait before the deadline it comes, the call returns [oldsrv_failure], its result
    variable untouched; until it is made anew the client cannot be bound again either, a
    second [bind] returns [bind_failure] and sends nothing. *)
Theorem old_client_refused `{Al : allocator} {S A R} jc js (ca : codec A) (cr : codec R) va ea `{!CodecOK ca va ea}
    now proc a (r : R) to cw p (sw : world S) c :
  client_ready cw p → srv_nonce (cw_clt cw) ≠ 0%Z → srv_nonce (cw_clt cw) ≠ s_nonce (w_srv sw) →
  usable c (w_conns sw) → proc ≠ rpc_bind → va a → (24 + size (ea a) < max_packet)%Z →
  (∃ pkt, (∃ buf sz, transported pkt buf sz) ∧
   ∀ buf sz, transported pkt buf sz → ∃ rpl,
     dispatch js c buf sz sw
     = Ok (World (w_srv sw) (w_conns sw) (w_st sw) (w_sent sw ++ [(c, rpl)])) ∧
     (∃ buf' sz', transported rpl buf' sz') ∧
     ∀ buf' sz' silent now1 arr, transported rpl buf' sz' → in_time now to silent now1 →
       ∃ cw', call jc ca cr now (reply_after silent now1 arr buf' sz') proc a r to cw = Ok (oldsrv_failure, r, cw') ∧
         cw_sent cw' = cw_sent cw ++ [(p, pkt)]) ∧
  ∀ rs, bind jc now rs to cw = Ok (bind_failure, cw).
Proof.
  intros Hr Hs0 Hs Hu Hp Ha Hsz. split.
  - destruct (call_refused jc ca cr va ea now proc a to cw p) as (pkt & Hpkt & Hcall); [done..|].
    destruct (req_packet_fits _ _ _ Hpkt Hsz) as [Hpb _]. exists pkt.
    split; [destruct (transported_exists pkt Hpb); eauto|].
    intros buf sz (-> & rest & ->)%transported_received; [|done].
    apply received_req in Hpkt as Hpkt'. destruct (req_packet_fits _ _ _ Hpkt' Hsz) as [_ Hpb'].
    destruct (stale_request_reply js (next_header (cw_clt cw) proc) (ea a) (received pkt) rest c sw)
      as (rpl & Ed & Hrpl); try done; [by eapply next_header_ok|].
    destruct (reply_packet_fits _ _ _ Hrpl) as [Hrb _]; [done|].
    exists rpl. split_and!; [done|destruct (transported_exists rpl Hrb); eauto|].
    intros buf' sz' silent now1 arr (-> & rest' & ->)%transported_received Htime; [|done].
    apply received_reply in Hrpl. destruct (reply_packet_fits _ _ _ Hrpl) as [_ Hrb']; [done|].
    by eapply (Hcall silent now1 arr oldsrv_failure (received rpl) rest' [] r).
  - intros rs. destruct Hr as (Hb & _). unfold bind, call, call_m, call1.
    destruct (new_marshall_holds jc) as (hd & Lhd & Hhd).
    assert (CodecOK (int_codec jc) (λ x, is_i32 x) enc_int) as Hi by apply _.
    destruct (@codec_put _ _ _ _ Hi 0%Z (new_marshall jc) hd) as (req & -> & _); [lia|done| |].
    { assert (size hd = 24%Z) as -> by (unfold size; lia). done. }
    run. unfold call1_begin. rewrite Hb. by run.
Qed.

Definition ex_restarted : world unit :=
  World (Rpcs 56 (Windows ∅ ∅) ∅ 0 0 ∅ true (s_procs (w_srv ex_srv))) {[1 := ex_conn]} () [].

Lemma old_client_refused_witness :
  ∃ pkt buf sz rpl buf' sz' cw',
    transported pkt buf sz ∧
    dispatch jz 1 buf sz ex_restarted
    = Ok (World (w_srv ex_restarted) (w_conns ex_restarted) () [(1, rpl)]) ∧
    transported rpl buf' sz' ∧
    call jz (int_codec jz) (int_codec jz) (Timespec 100 0)
      (reply_after [(Timespec 100 5, 1)] (Timespec 101 9) (Late 0 true) buf' sz')
      23 77%Z 12%Z to_max ex_client = Ok (oldsrv_failure, 12%Z, cw').
Proof.
  destruct (old_client_refused (S:=unit) jz jz (int_codec jz) (int_codec jz) (λ x, is_i32 x) enc_int
    (Timespec 100 0) 23 77%Z 12%Z to_max ex_client 0 ex_restarted 1)
    as [(pkt & (buf & sz & Ht) & Hd) _].
  - apply ex_client_ready.
  - discriminate.
  - discriminate.
  - by exists ex_conn.
  - discriminate.
  - lia.
  - reflexivity.
  - destruct (Hd buf sz Ht) as (rpl & E & (buf' & sz' & Ht') & Hc).
    destruct (Hc buf' sz' [(Timespec 100 5, 1)] (Timespec 101 9) (Late 0 true) Ht') as (cw' & Ec & _).
    { split; [by split|]. split; [done|]. split; [done|].
      split; [exists (Timespec 220 0); split; [reflexivity|by split]|].
      split; [|by split]. by repeat split. }
    exists pkt, buf, sz, rpl, buf', sz', cw'. split; [exact Ht|]. split; [exact E|]. split; [exact Ht'|exact Ec].
Defined.
