(* ===== verification/RpcTestRun.v ===== *)
(** * The test programs of rpctest.cc

    The threads, tests and [main] of rpctest.cc as programs over a specification of the
    RPC library ([answers]): what bind and call return to a client, by whether the server it is
    bound to is the one that runs.  The specification is stated here, with no call timing
    out while its server runs, and not derived from the models of client and server; what
    those guarantee of one call is in RpcCall.v and RpcTest.v.  [main] never fails a [VERIFY]
    over it, however its threads interleave: the test programs ask for no more than it.

    Clients are known by the variable that holds them: 0 and 1 for [clients], 2 for [c1]
    of simple_tests, 3 for [client1] of failure_test. *)

From stdpp Require Import base tactics numbers list gmap strings relations.
From Stdlib Require Import ZArith Lia Ascii.
From S2P Require Import Prelude CxxString Marshall Connection RpcServer RpcTime RpcClient RpcCall Stubs RpcTest.

(** ** Programs *)
Inductive targ := A22 (a b : bytes) | AInt (n : Z).

Inductive top :=
  | TRandom
  | TTime
  | TSetenv (lossy : bool)               (* RPC_LOSSY to 5 or to 0 *)
  | TStartServer
  | TDeleteServer
  | TNewClient (c : nat) (here : bool)   (* [here]: at the address of the server *)
  | TDeleteClient (c : nat)
  | TBind (c : nat) (to : Z)
  | TCall (c : nat) (proc : Z) (a : targ) (to : Z).

(** The return value and the result of a call, an int or a string. *)
Record tres := TRes { tr_ret : Z; tr_int : Z; tr_str : bytes }.

(** [Par]: threads are started, and waited for. *)
Inductive prog :=
  | Done
  | Failed
  | Do (o : top) (k : tres → prog)
  | Par (ps : list prog) (k : prog).

Definition verify (b : bool) (k : prog) : prog := if b then k else Failed.

(** [r ⇐ o; k]: the call [o] and its answer; [check b; k]: [VERIFY(b)]. *)
Declare Scope prog_scope.
Notation "r ⇐ o ; k" := (Do o (λ r, k)) (at level 200, o at level 100, k at level 200, right associativity) : prog_scope.
Notation "'check' b ; k" := (verify b k) (at level 200, b at level 100, k at level 200, right associativity) : prog_scope.
Delimit Scope prog_scope with prog.
Open Scope prog_scope.

Fixpoint repeat_n (n : nat) (body : prog → prog) (k : prog) : prog :=
  match n with O => k | S n => body (repeat_n n body k) end.

(** [client1]: a hundred big replies, then a hundred calls answered out of order. *)
Definition NUM_CL : nat := 2.
Definition client1 (xx : nat) : prog :=
  let which_cl := xx mod NUM_CL in
  repeat_n 100 (λ k,
    rnd ⇐ TRandom; let arg := (tr_ret rnd mod 2000)%Z in
    r ⇐ TCall which_cl 25 (AInt arg) to_max;
    check (tr_ret r =? 0)%Z;
    check (size (tr_str r) =? arg)%Z; k)
  (repeat_n 100 (λ k,
    rnd ⇐ TRandom; let which := (tr_ret rnd mod 2)%Z in
    rnd ⇐ TRandom; let arg := (tr_ret rnd mod 1000)%Z in
    start ⇐ TTime;
    r ⇐ TCall which_cl (if (which =? 0)%Z then 24 else 23) (AInt arg) to_max;
    stop ⇐ TTime;
    check (tr_ret r =? 0)%Z;
    check (tr_int r =? (if (which =? 0)%Z then arg + 2 else arg + 1))%Z; k)
  Done).

(** [client2] with [n] rounds of its loop, which looks at the time. *)
Fixpoint client2_loop (n : nat) (which_cl : nat) (t1 : Z) : prog :=
  match n with
  | O => Done
  | S n =>
      t ⇐ TTime;
      if (tr_ret t - t1 <? 10)%Z then
        rnd ⇐ TRandom; let arg := (tr_ret rnd mod 2000)%Z in
        r ⇐ TCall which_cl 25 (AInt arg) to_max;
        check (size (tr_str r) =? arg)%Z; client2_loop n which_cl t1
      else Done
  end.
Definition client2 (n : nat) (xx : nat) : prog := t ⇐ TTime; client2_loop n (xx mod NUM_CL) (tr_ret t).

Definition client3 (c : nat) : prog :=
  foldr (λ i k,
    r ⇐ TCall c 24 (AInt i) 3000;
    check (tr_ret r =? timeout_failure)%Z || (tr_int r =? i + 2)%Z; k) Done [0; 1; 2; 3]%Z.

Definition xs (n : Z) : bytes := replicate (Z.to_nat n) "x"%char.

Definition simple_tests (c : nat) (k : prog) : prog :=
  r ⇐ TCall c 22 (A22 (lit "hello") (lit " goodbye")) to_max;
  check (tr_ret r =? 0)%Z;
  check bool_decide (tr_str r = lit "hello goodbye");
  r ⇐ TCall c 25 (AInt 70000) 200000;
  check (tr_ret r =? 0)%Z;
  check (size (tr_str r) =? 70000)%Z;
  r ⇐ TCall c 23 (AInt 77) 3000;
  check (tr_ret r =? 0)%Z && (tr_int r =? 78)%Z;
  r ⇐ TCall c 22 (A22 (xs 1000) (lit "x")) 3000;
  check (size (tr_str r) =? 1001)%Z;
  r ⇐ TCall c 22 (A22 (xs 1000000) (lit "z")) to_max;
  check (size (tr_str r) =? 1000001)%Z;
  c1 ⇐ TNewClient 2 false;
  t0 ⇐ TTime;
  r ⇐ TBind 2 3000;
  t1 ⇐ TTime;
  check (tr_ret r <? 0)%Z && (tr_ret t1 - tr_ret t0 <=? 4)%Z; k.

Definition concurrent_test (nt : nat) (k : prog) : prog := Par (client1 <$> seq 0 nt) k.

Definition lossy_test (server : bool) (n : nat) (k : prog) : prog :=
  r ⇐ TSetenv true; check (tr_ret r =? 0)%Z;
  let rest :=
    foldr (λ c k,
      d ⇐ TDeleteClient c;
      n ⇐ TNewClient c true;
      r ⇐ TBind c to_max;
      check (tr_ret r =? 0)%Z; k)
    (Par (client2 n <$> seq 0 1) (r ⇐ TSetenv false; check (tr_ret r =? 0)%Z; k)) (seq 0 NUM_CL) in
  if server then d ⇐ TDeleteServer; s ⇐ TStartServer; rest else rest.

Definition failure_test (k : prog) : prog :=
  d ⇐ TDeleteServer;
  n ⇐ TNewClient 3 true;
  r ⇐ TBind 3 3000;
  check (tr_ret r <? 0)%Z;
  d ⇐ TDeleteClient 3;
  s ⇐ TStartServer;
  r ⇐ TCall 0 22 (A22 (lit "hello") (lit " goodbye")) to_max;
  check (tr_ret r =? oldsrv_failure)%Z;
  d ⇐ TDeleteClient 0;
  n ⇐ TNewClient 0 true;
  r ⇐ TBind 0 to_max;
  check (tr_ret r >=? 0)%Z;
  r ⇐ TBind 0 to_max;
  check (tr_ret r <? 0)%Z;
  r ⇐ TCall 0 22 (A22 (lit "hello") (lit " goodbye")) to_max;
  check (tr_ret r =? 0)%Z;
  check bool_decide (tr_str r = lit "hello goodbye");
  Par (client3 <$> replicate 10 0) (
  d ⇐ TDeleteServer;
  d ⇐ TDeleteClient 0;
  s ⇐ TStartServer;
  n ⇐ TNewClient 0 true;
  r ⇐ TBind 0 to_max;
  check (tr_ret r >=? 0)%Z;
  Par (client3 <$> replicate 10 0) k).

Definition all_tests (server : bool) (n : nat) : prog :=
  simple_tests 0 (concurrent_test 10 (lossy_test server n (if server then failure_test Done else Done))).

(** The options of the command line that [main] reads. *)
Inductive option_char := Opt_c | Opt_s | Opt_d (level : Z) | Opt_p (port : Z) | Opt_l.

Definition has_opt (o : option_char) (opts : list option_char) : bool :=
  existsb (λ x, match x, o with Opt_c, Opt_c | Opt_s, Opt_s | Opt_l, Opt_l => true | _, _ => false end) opts.

(** [main], after [testmarshall]; a server without client waits for ever.  [n] is the
    number of rounds of the lossy test. *)
Definition rpctest_main (n : nat) (opts : list option_char) : prog :=
  let neither := negb (has_opt Opt_s opts) && negb (has_opt Opt_c opts) in
  let isserver := has_opt Opt_s opts || neither in
  let isclient := has_opt Opt_c opts || neither in
  let client :=
    if isclient then
      foldr (λ c k, n ⇐ TNewClient c true; r ⇐ TBind c to_max; check (tr_ret r =? 0)%Z; k)
        (all_tests isserver n) (seq 0 NUM_CL)
    else Done in
  let start := if isserver then s ⇐ TStartServer; client else client in
  if has_opt Opt_l opts then r ⇐ TSetenv true; check (tr_ret r =? 0)%Z; start else start.

(** ** The contract of the library *)

(** What matters of the process and its servers: the incarnation of the server that
    runs, the next one's number, each client with whether it was made for the address of
    the server and the incarnation it is bound to, RPC_LOSSY, and the time in
    milliseconds.  The default bound of a call, two minutes, is taken as no bound. *)
Record tworld := TWorld {
  tw_live : option nat; tw_next : nat; tw_clients : gmap nat (bool * option nat);
  tw_lossy : bool; tw_clock : Z }.

Definition with_clients (cs : gmap nat (bool * option nat)) (w : tworld) : tworld :=
  TWorld (tw_live w) (tw_next w) cs (tw_lossy w) (tw_clock w).
Definition later (d : Z) (w : tworld) : tworld :=
  TWorld (tw_live w) (tw_next w) (tw_clients w) (tw_lossy w) (tw_clock w + d).

(** What the service's methods return. *)
Definition serviced (proc : Z) (a : targ) : option tres :=
  match a with
  | A22 x y => if (proc =? 22)%Z then match handle_22 () (x, y) [] with Ok (_, r, ret) => Some (TRes ret 0 r) | Fault _ => None end else None
  | AInt x =>
      if (proc =? 23)%Z then match handle_fast () x 0 with Ok (_, r, ret) => Some (TRes ret r []) | Fault _ => None end
      else if (proc =? 24)%Z then match handle_slow () x 0 with Ok (_, r, ret) => Some (TRes ret r []) | Fault _ => None end
      else if (proc =? 25)%Z then match handle_bigrep () x [] with Ok (_, r, ret) => Some (TRes ret 0 r) | Fault _ => None end
      else None
  end.

(** A bounded call may time out when the handler sleeps or packets are lost. *)
Definition may_time_out (w : tworld) (proc to : Z) : bool :=
  (to <? to_max)%Z && ((proc =? 24)%Z || tw_lossy w).

(** [answers w o r w']: in [w], the call [o] may return [r] and leave [w'].  A bound
    on the time of a bind is kept to a second. *)
Inductive answers (w : tworld) : top → tres → tworld → Prop :=
  | a_random r : (0 <= tr_ret r < 2 ^ 31)%Z → answers w TRandom r w
  | a_time r : tr_ret r = (tw_clock w / 1000)%Z → answers w TTime r w
  | a_setenv b r : tr_ret r = 0%Z →
      answers w (TSetenv b) r (TWorld (tw_live w) (tw_next w) (tw_clients w) b (tw_clock w))
  | a_start r : tw_live w = None →
      answers w TStartServer r (TWorld (Some (tw_next w)) (S (tw_next w)) (tw_clients w) (tw_lossy w) (tw_clock w))
  | a_stop r i : tw_live w = Some i →
      answers w TDeleteServer r (TWorld None (tw_next w) (tw_clients w) (tw_lossy w) (tw_clock w))
  | a_new c here r : answers w (TNewClient c here) r (with_clients (<[c := (here, None)]> (tw_clients w)) w)
  | a_delete c r : is_Some (tw_clients w !! c) → answers w (TDeleteClient c) r (with_clients (delete c (tw_clients w)) w)
  | a_bind c to i r d : tw_clients w !! c = Some (true, None) → tw_live w = Some i → (0 <= d <= to + 1000)%Z →
      tr_ret r = 0%Z →
      answers w (TBind c to) r (later d (with_clients (<[c := (true, Some i)]> (tw_clients w)) w))
  | a_bind_late c to here r d : tw_clients w !! c = Some (here, None) →
      (here = false ∨ tw_live w = None ∨ tw_lossy w = true) → (to < to_max)%Z → (0 <= d <= to + 1000)%Z →
      tr_ret r = timeout_failure → answers w (TBind c to) r (later d w)
  | a_bind_again c to here i r : tw_clients w !! c = Some (here, Some i) → tr_ret r = bind_failure →
      answers w (TBind c to) r w
  | a_call c proc a to i r d : tw_clients w !! c = Some (true, Some i) → tw_live w = Some i →
      serviced proc a = Some r → (0 <= d)%Z → answers w (TCall c proc a to) r (later d w)
  | a_call_late c proc a to i r d : tw_clients w !! c = Some (true, Some i) → tw_live w = Some i →
      may_time_out w proc to = true → tr_ret r = timeout_failure → (0 <= d)%Z →
      answers w (TCall c proc a to) r (later d w)
  | a_call_old c proc a to i j r d : tw_clients w !! c = Some (true, Some i) → tw_live w = Some j → i ≠ j →
      to = to_max → tr_ret r = oldsrv_failure → (0 <= d)%Z → answers w (TCall c proc a to) r (later d w).

(** ** Runs of a program and its threads *)

(** [main] takes no step while there are threads it waits for. *)
Record tconfig := TConfig { tc_world : tworld; tc_main : prog; tc_threads : list prog }.

Inductive test_step : tconfig → tconfig → Prop :=
  | ts_main w o k r w' : answers w o r w' → test_step (TConfig w (Do o k) []) (TConfig w' (k r) [])
  | ts_start w ps k : test_step (TConfig w (Par ps k) []) (TConfig w k ps)
  | ts_thread w m l1 o k l2 r w' : answers w o r w' →
      test_step (TConfig w m (l1 ++ Do o k :: l2)) (TConfig w' m (l1 ++ k r :: l2))
  | ts_join w m ts : ts ≠ [] → Forall (λ t, t = Done) ts → test_step (TConfig w m ts) (TConfig w m []).

Definition passing (c : tconfig) : Prop := tc_main c ≠ Failed ∧ Forall (λ t, t ≠ Failed) (tc_threads c).
Definition finished (c : tconfig) : Prop := tc_main c = Done ∧ tc_threads c = [].

(** ** No check fails *)

(** The worlds that differ in the time only, which is all a thread changes. *)
Definition same (w w' : tworld) : Prop := ∃ d, w' = later d w.

Definition thread_op (o : top) : bool := match o with TRandom | TTime | TCall _ _ _ _ => true | _ => false end.

Definition possible (w : tworld) (o : top) : Prop := ∃ r w', answers w o r w'.

Fixpoint thread_ok (w : tworld) (p : prog) : Prop :=
  match p with
  | Done => True
  | Do o k => thread_op o = true ∧
      ∀ w1, same w w1 → possible w1 o ∧ ∀ r w', answers w1 o r w' → thread_ok w (k r)
  | Failed | Par _ _ => False
  end.

Fixpoint main_ok (w : tworld) (p : prog) : Prop :=
  match p with
  | Done => True
  | Failed => False
  | Do o k => possible w o ∧ ∀ r w', answers w o r w' → main_ok w' (k r)
  | Par ps k => Forall (thread_ok w) ps ∧ ∀ w', same w w' → main_ok w' k
  end.

Definition tconfig_ok (c : tconfig) : Prop :=
  match tc_threads c with
  | [] => main_ok (tc_world c) (tc_main c)
  | ts => ∃ w, same w (tc_world c) ∧ Forall (thread_ok w) ts ∧ ∀ w', same w w' → main_ok w' (tc_main c)
  end.

Lemma later_0 w : later 0 w = w.
Proof. destruct w. unfold later. simpl. by rewrite Z.add_0_r. Qed.
Lemma later_later d e w : later e (later d w) = later (d + e) w.
Proof. unfold later. simpl. by rewrite Z.add_assoc. Qed.
Lemma same_refl w : same w w.
Proof. exists 0%Z. by rewrite later_0. Qed.
Lemma same_trans w1 w2 w3 : same w1 w2 → same w2 w3 → same w1 w3.
Proof. intros [d ->] [e ->]. exists (d + e)%Z. apply later_later. Qed.

Lemma thread_answers w o r w' : thread_op o = true → answers w o r w' → same w w'.
Proof. intros Ho H. destruct H; try discriminate Ho; try apply same_refl; by eexists. Qed.

Lemma tconfig_ok_step c c' : tconfig_ok c → test_step c c' → tconfig_ok c'.
Proof.
  intros H Hs. destruct Hs as [w o k r w' Ha|w ps k|w m l1 o k l2 r w' Ha|w m ts Hne Hd].
  - destruct H as [_ H]. by apply H.
  - destruct H as [Hps Hk]. unfold tconfig_ok. simpl. destruct ps as [|p ps].
    + apply Hk, same_refl.
    + exists w. split; [apply same_refl|done].
  - assert (∃ w0, same w0 w ∧ Forall (thread_ok w0) (l1 ++ Do o k :: l2) ∧ ∀ w', same w0 w' → main_ok w' m)
      as (w0 & Hw & Hts & Hm).
    { unfold tconfig_ok in H. simpl in H. by destruct l1. }
    apply Forall_app in Hts as [H1 [[Ho Hk] H2]%Forall_cons].
    assert (tconfig_ok (TConfig w' m (l1 ++ k r :: l2)) = ∃ w, same w w' ∧ Forall (thread_ok w) (l1 ++ k r :: l2) ∧
      ∀ w'', same w w'' → main_ok w'' m) as -> by (unfold tconfig_ok; simpl; by destruct l1).
    exists w0. split_and!; [|apply Forall_app; split; [done|constructor; [|done]]|done].
    + eapply same_trans; [done|]. by eapply thread_answers.
    + destruct (Hk w Hw) as [_ Hk']. by eapply Hk'.
  - unfold tconfig_ok in *. simpl in *. destruct ts as [|t ts]; [done|]. destruct H as (w0 & Hw & _ & Hm). by apply Hm.
Qed.

Lemma thread_ok_not_failed w ts : Forall (thread_ok w) ts → Forall (λ t, t ≠ Failed) ts.
Proof. intros H. eapply Forall_impl; [exact H|]. by intros [] ?. Qed.

Lemma all_done_or_not w ts : Forall (thread_ok w) ts →
  Forall (λ t, t = Done) ts ∨ ∃ l1 o k l2, ts = l1 ++ Do o k :: l2.
Proof.
  induction 1 as [|t ts Ht Hts IH]; [by left|]. destruct t as [| |o k|ps k]; try done.
  - destruct IH as [IH|(l1 & o & k & l2 & ->)]; [left; by constructor|]. right. by exists (Done :: l1), o, k, l2.
  - right. by exists [], o, k, ts.
Qed.

(** A good configuration fails no check, and is finished or takes a step. *)
Lemma main_ok_not_failed w p : main_ok w p → p ≠ Failed.
Proof. by intros H ->. Qed.

Lemma tconfig_ok_passing c : tconfig_ok c → passing c.
Proof.
  destruct c as [w m [|t ts]]; unfold tconfig_ok, passing; simpl.
  - intros H. split; [by eapply main_ok_not_failed|constructor].
  - intros (w0 & Hw & Hts & Hm). split; [eapply main_ok_not_failed, Hm, same_refl|by eapply thread_ok_not_failed].
Qed.

Lemma tconfig_ok_progress c : tconfig_ok c → finished c ∨ ∃ c', test_step c c'.
Proof.
  destruct c as [w m [|t ts]]; unfold tconfig_ok, finished; simpl.
  - destruct m as [| |o k|ps k]; simpl; [by left|done| |].
    + intros [(r & w' & Ha) _]. right. eexists. by constructor.
    + intros _. right. eexists. by constructor.
  - intros (w0 & Hw & Hts & _). right. destruct (all_done_or_not _ _ Hts) as [Hd|(l1 & o & k & l2 & E)].
    + eexists. by apply ts_join.
    + rewrite E in *. apply Forall_app in Hts as [_ [[_ H] _]%Forall_cons].
      destruct (H w Hw) as [(r & w' & Ha) _]. eexists. by constructor.
Qed.

(** ** The threads *)

Section threads.
Context (w : tworld) (i : nat) (Hlive : tw_live w = Some i).

Lemma ok_repeat n body k : (∀ p, thread_ok w p → thread_ok w (body p)) → thread_ok w k → thread_ok w (repeat_n n body k).
Proof. intros Hb Hk. induction n; simpl; auto. Qed.

Lemma ok_random k : (∀ r, (0 <= tr_ret r < 2 ^ 31)%Z → thread_ok w (k r)) → thread_ok w (Do TRandom k).
Proof.
  intros H. split; [done|]. intros w1 _. split.
  - exists (TRes 0 0 []), w1. by constructor.
  - intros r w' Ha. inversion Ha; subst. auto.
Qed.

Lemma ok_time k : (∀ r, thread_ok w (k r)) → thread_ok w (Do TTime k).
Proof.
  intros H. split; [done|]. intros w1 _. split.
  - by exists (TRes (tw_clock w1 / 1000) 0 []), w1; constructor.
  - auto.
Qed.

(** A call to the server the client is bound to. *)
Lemma ok_call c proc a to k x :
  tw_clients w !! c = Some (true, Some i) → serviced proc a = Some x → thread_ok w (k x) →
  (may_time_out w proc to = true → ∀ r, tr_ret r = timeout_failure → thread_ok w (k r)) →
  thread_ok w (Do (TCall c proc a to) k).
Proof.
  intros Hc Hx Hk Hlate. split; [done|]. intros w1 [d ->]. split.
  - exists x, (later 0 (later d w)). by econstructor.
  - intros r w' Ha. inversion Ha; subst; simpl in *; simplify_eq; auto.
Qed.
End threads.

Lemma serviced_fast x : is_i32 (x + 1) → serviced 23 (AInt x) = Some (TRes 0 (x + 1) []).
Proof. intros H. unfold serviced, handle_fast. simpl. by rewrite int_result_Ok. Qed.
Lemma serviced_slow x : is_i32 (x + 2) → serviced 24 (AInt x) = Some (TRes 0 (x + 2) []).
Proof. intros H. unfold serviced, handle_slow. simpl. by rewrite int_result_Ok. Qed.
Lemma serviced_big x : (0 <= x)%Z → serviced 25 (AInt x) = Some (TRes 0 0 (xs x)).
Proof. intros H. unfold serviced, handle_bigrep. simpl. by destruct (Z.ltb_spec x 0); [lia|]. Qed.
Lemma size_xs x : (0 <= x)%Z → size (xs x) = x.
Proof. intros H. unfold xs. rewrite size_replicate. lia. Qed.

Lemma verify_true b k : b = true → verify b k = k.
Proof. by intros ->. Qed.

#[global] Opaque xs.

(** The clients of [clients], all bound to the server that runs. *)
Definition all_bound (w : tworld) (i : nat) : Prop :=
  tw_live w = Some i ∧ ∀ c, c < NUM_CL → tw_clients w !! c = Some (true, Some i).

Ltac passed := rewrite verify_true by (simpl; rewrite ?size_xs by lia; rewrite ?Z.eqb_refl; try done; lia).

Lemma client1_ok w i xx : all_bound w i → thread_ok w (client1 xx).
Proof.
  intros [Hl Hb]. unfold client1. assert (xx mod NUM_CL < NUM_CL) as Hx by (apply Nat.mod_upper_bound; done).
  apply ok_repeat; [|apply ok_repeat; [|done]]; intros p Hp; apply ok_random; intros r Hr.
  - pose proof (Z.mod_pos_bound (tr_ret r) 2000 ltac:(lia)).
    eapply (ok_call w i Hl); [by apply Hb|apply serviced_big; lia| |discriminate].
    passed. by passed.
  - apply ok_random. intros r2 Hr2. apply ok_time. intros t.
    pose proof (Z.mod_pos_bound (tr_ret r2) 1000 ltac:(lia)).
    assert (is_i32 (tr_ret r2 mod 1000 + 1) ∧ is_i32 (tr_ret r2 mod 1000 + 2)) as [H1 H2] by lia.
    destruct (_ =? 0)%Z; (eapply (ok_call w i Hl); [by apply Hb|first [by apply serviced_slow|by apply serviced_fast]| |discriminate]);
      apply ok_time; intros t'; passed; by passed.
Qed.

Lemma client2_ok w i n xx : all_bound w i → thread_ok w (client2 n xx).
Proof.
  intros [Hl Hb]. unfold client2. assert (xx mod NUM_CL < NUM_CL) as Hx by (apply Nat.mod_upper_bound; done).
  apply ok_time. intros t. generalize (tr_ret t) as t1. intros t1. induction n as [|n IH]; [done|].
  simpl. apply ok_time. intros t2. destruct (_ <? 10)%Z; [|done].
  apply ok_random. intros r Hr. pose proof (Z.mod_pos_bound (tr_ret r) 2000 ltac:(lia)).
  eapply (ok_call w i Hl); [by apply Hb|apply serviced_big; lia| |discriminate]. by passed.
Qed.

Lemma client3_ok w i c : tw_live w = Some i → tw_clients w !! c = Some (true, Some i) → thread_ok w (client3 c).
Proof.
  intros Hl Hc. unfold client3.
  assert (∀ l, Forall (λ x, is_i32 (x + 2)) l → thread_ok w (foldr (λ x k,
    r ⇐ TCall c 24 (AInt x) 3000; check (tr_ret r =? timeout_failure)%Z || (tr_int r =? x + 2)%Z; k) Done l)) as H.
  { induction 1 as [|x l Hx Hl' IH]; [done|]. simpl.
    eapply (ok_call w i Hl); [done|by apply serviced_slow| |].
    - by passed.
    - intros _ r Hr. rewrite Hr. by rewrite verify_true. }
  apply H. repeat constructor; lia.
Qed.

(** ** The main program *)

(** Each operation of [main] in a world whose parts are known. *)
Section main.
Lemma main_time w k : (∀ r, tr_ret r = (tw_clock w / 1000)%Z → main_ok w (k r)) → main_ok w (Do TTime k).
Proof. intros H. split; [by exists (TRes (tw_clock w / 1000) 0 []), w; constructor|]. intros r w' Ha. inversion Ha; subst. auto. Qed.

Lemma main_setenv w b k : (∀ r, tr_ret r = 0%Z → main_ok (TWorld (tw_live w) (tw_next w) (tw_clients w) b (tw_clock w)) (k r)) →
  main_ok w (Do (TSetenv b) k).
Proof. intros H. split; [exists (TRes 0 0 []); eexists; by constructor|]. intros r w' Ha. inversion Ha; subst. auto. Qed.

Lemma main_start w k : tw_live w = None →
  (∀ r, main_ok (TWorld (Some (tw_next w)) (S (tw_next w)) (tw_clients w) (tw_lossy w) (tw_clock w)) (k r)) →
  main_ok w (Do TStartServer k).
Proof. intros Hl H. split; [exists (TRes 0 0 []); eexists; by constructor|]. intros r w' Ha. inversion Ha; subst. auto. Qed.

Lemma main_stop w i k : tw_live w = Some i →
  (∀ r, main_ok (TWorld None (tw_next w) (tw_clients w) (tw_lossy w) (tw_clock w)) (k r)) →
  main_ok w (Do TDeleteServer k).
Proof. intros Hl H. split; [exists (TRes 0 0 []); eexists; by econstructor|]. intros r w' Ha. inversion Ha; subst. auto. Qed.

Lemma main_new w c here k : (∀ r, main_ok (with_clients (<[c := (here, None)]> (tw_clients w)) w) (k r)) →
  main_ok w (Do (TNewClient c here) k).
Proof. intros H. split; [exists (TRes 0 0 []); eexists; by constructor|]. intros r w' Ha. inversion Ha; subst. auto. Qed.

Lemma main_delete w c k : is_Some (tw_clients w !! c) →
  (∀ r, main_ok (with_clients (delete c (tw_clients w)) w) (k r)) → main_ok w (Do (TDeleteClient c) k).
Proof. intros Hc H. split; [exists (TRes 0 0 []); eexists; by constructor|]. intros r w' Ha. inversion Ha; subst. auto. Qed.

(** The first bind of a client to a server that runs, without bound. *)
Lemma main_bind w c i k : tw_clients w !! c = Some (true, None) → tw_live w = Some i →
  (∀ r d, tr_ret r = 0%Z → main_ok (later d (with_clients (<[c := (true, Some i)]> (tw_clients w)) w)) (k r)) →
  main_ok w (Do (TBind c to_max) k).
Proof.
  intros Hc Hl H. split.
  - exists (TRes 0 0 []). eexists. by eapply (a_bind _ _ _ _ _ 0).
  - intros r w' Ha. inversion Ha; subst; simplify_eq; auto. done.
Qed.

(** A bind that reaches no server. *)
Lemma main_bind_late w c here to k : tw_clients w !! c = Some (here, None) → (here = false ∨ tw_live w = None) →
  (0 <= to < to_max)%Z →
  (∀ r d, tr_ret r = timeout_failure → (0 <= d <= to + 1000)%Z → main_ok (later d w) (k r)) →
  main_ok w (Do (TBind c to) k).
Proof.
  intros Hc Hl Hto H. split.
  - exists (TRes timeout_failure 0 []). eexists. eapply (a_bind_late _ _ _ _ _ 0); try done; [tauto|lia|lia].
  - intros r w' Ha. inversion Ha; subst; simplify_eq; auto. by destruct Hl; simplify_eq.
Qed.

Lemma main_bind_again w c here i to k : tw_clients w !! c = Some (here, Some i) →
  (∀ r, tr_ret r = bind_failure → main_ok w (k r)) → main_ok w (Do (TBind c to) k).
Proof.
  intros Hc H. split.
  - exists (TRes bind_failure 0 []). eexists. by eapply a_bind_again.
  - intros r w' Ha. inversion Ha; subst; simplify_eq; auto.
Qed.

Lemma main_call w c i proc a to k x : tw_clients w !! c = Some (true, Some i) → tw_live w = Some i →
  may_time_out w proc to = false → serviced proc a = Some x →
  (∀ d, main_ok (later d w) (k x)) → main_ok w (Do (TCall c proc a to) k).
Proof.
  intros Hc Hl Hto Hx H. split.
  - exists x. eexists. by eapply (a_call _ _ _ _ _ _ _ 0).
  - intros r w' Ha. inversion Ha; subst; simplify_eq; auto; congruence.
Qed.

Lemma main_call_old w c i j proc a k : tw_clients w !! c = Some (true, Some i) → tw_live w = Some j → i ≠ j →
  (∀ r d, tr_ret r = oldsrv_failure → main_ok (later d w) (k r)) → main_ok w (Do (TCall c proc a to_max) k).
Proof.
  intros Hc Hl Hij H. split.
  - exists (TRes oldsrv_failure 0 []). eexists. by eapply (a_call_old _ _ _ _ _ _ _ _ 0).
  - intros r w' Ha. inversion Ha; subst; simplify_eq; auto; done.
Qed.

Lemma main_par w ps k : (∀ p, p ∈ ps → thread_ok w p) → (∀ w', same w w' → main_ok w' k) → main_ok w (Par ps k).
Proof. intros Hp Hk. split; [by apply Forall_forall|done]. Qed.
End main.

(** The world between the tests: two clients of [clients] bound to the server, whose
    incarnation is older than the next one's. *)
Definition ready (w : tworld) (i : nat) : Prop := all_bound w i ∧ (i < tw_next w).

Lemma ready_same w w' i : ready w i → same w w' → ready w' i.
Proof. by intros H [d ->]. Qed.

Lemma simple_tests_ok w i k : ready w i → tw_lossy w = false →
  (∀ w', ready w' i → tw_lossy w' = false → main_ok w' k) → main_ok w (simple_tests 0 k).
Proof.
  intros [[Hl Hb] Hn] Hlo Hk. pose proof (Hb 0 ltac:(unfold NUM_CL; lia)) as H0. pose proof (Hb 1 ltac:(unfold NUM_CL; lia)) as H1.
  assert (∀ proc to, proc ≠ 24%Z → may_time_out w proc to = false) as Hto.
  { intros proc to Hp. unfold may_time_out. rewrite Hlo. destruct (Z.eqb_spec proc 24); [done|]. by destruct (_ <? _)%Z. }
  unfold simple_tests.
  do 2 (eapply main_call; [exact H0|exact Hl|by apply Hto|first [by apply serviced_big|reflexivity]|]; intros ?; passed; passed).
  eapply main_call; [exact H0|exact Hl|by apply Hto|by apply serviced_fast|]; intros ?; passed.
  do 2 (eapply main_call; [exact H0|exact Hl|by apply Hto|reflexivity|]; intros ?;
    rewrite verify_true by (simpl; rewrite size_app, size_xs; done)).
  apply main_new. intros _. apply main_time. intros t0 Ht0.
  eapply main_bind_late; [apply lookup_insert_eq|by left|done|]. intros rb e Hr Hd.
  apply main_time. intros t1 Ht1. rewrite verify_true.
  - apply Hk; [|done]. split; [split; [done|]|done]. intros c Hc. simpl.
    rewrite lookup_insert_ne by (unfold NUM_CL in Hc; lia). by apply Hb.
  - simpl in *. rewrite Hr, Ht1, Ht0. apply andb_true_iff. split; [done|]. apply Z.leb_le.
    lazymatch goal with |- ((?y + e) / 1000 - ?y / 1000 <= 4)%Z => generalize y end. intros x.
    pose proof (Z.div_le_mono (x + e) (x + 4 * 1000) 1000 ltac:(lia) ltac:(lia)) as Hm.
    rewrite Z.div_add in Hm by lia. lia.
Qed.

Lemma concurrent_test_ok w i nt k : ready w i → (∀ w', same w w' → main_ok w' k) → main_ok w (concurrent_test nt k).
Proof.
  intros [Hb _] Hk. apply main_par; [|done]. intros p (x & -> & _)%list_elem_of_fmap. by eapply client1_ok.
Qed.

(** Both clients are made anew and bound, to the server [i]. *)
Lemma rebind_ok w i k : tw_live w = Some i → (i < tw_next w) → (∀ c, c < NUM_CL → is_Some (tw_clients w !! c)) →
  (∀ w', ready w' i → tw_lossy w' = tw_lossy w → main_ok w' k) →
  main_ok w (foldr (λ c k, _ ⇐ TDeleteClient c; _ ⇐ TNewClient c true; r ⇐ TBind c to_max; check (tr_ret r =? 0)%Z; k)
    k (seq 0 NUM_CL)).
Proof.
  intros Hl Hn Hc Hk. cbn [NUM_CL seq foldr].
  do 2 (apply main_delete; [simpl; rewrite ?lookup_insert_ne, ?lookup_delete_ne, ?lookup_insert_ne by done; apply Hc; unfold NUM_CL; lia|];
    intros _; apply main_new; intros _; eapply main_bind; [apply lookup_insert_eq|done|]; intros ? ? Hr;
    rewrite verify_true by (by rewrite Hr); clear Hr).
  apply Hk; [|done]. split; [split; [done|]|done]. simpl. intros [|[|c]] ?; [| |unfold NUM_CL in *; lia].
  - do 3 (rewrite ?lookup_insert_ne, ?lookup_delete_ne by done). by rewrite ?lookup_insert_eq.
  - by rewrite ?lookup_insert_eq.
Qed.

Lemma lossy_test_ok w i server n k : ready w i →
  (∀ w' j, ready w' j → tw_lossy w' = false → main_ok w' k) → main_ok w (lossy_test server n k).
Proof.
  intros [[Hl Hb] Hn] Hk. unfold lossy_test. apply main_setenv. intros r Hr. rewrite verify_true by (by rewrite Hr).
  assert (∀ w' j, ready w' j → main_ok w' (Par (client2 n <$> seq 0 1) (r ⇐ TSetenv false; check (tr_ret r =? 0)%Z; k))) as Hpar.
  { intros w' j [Hbj Hj]. apply main_par.
    - intros p (x & -> & _)%list_elem_of_fmap. by eapply client2_ok.
    - intros w'' [d ->]. apply main_setenv. intros r' Hr'. rewrite verify_true by (by rewrite Hr').
      apply (Hk _ j); [|done]. done. }
  destruct server.
  - eapply main_stop; [done|]. intros _. apply main_start; [done|]. intros _.
    eapply rebind_ok; [done|simpl; lia| |]; [intros c Hc; simpl; rewrite Hb by done; done|].
    intros w' Hw' _. by eapply Hpar.
  - eapply rebind_ok; [done|simpl; lia| |]; [intros c Hc; simpl; rewrite Hb by done; done|].
    intros w' Hw' _. by eapply Hpar.
Qed.

Lemma client3s_ok w i c n : tw_live w = Some i → tw_clients w !! c = Some (true, Some i) →
  ∀ p, p ∈ client3 <$> replicate n c → thread_ok w p.
Proof. intros Hl Hc p (x & -> & [-> _]%elem_of_replicate)%list_elem_of_fmap. by eapply client3_ok. Qed.

Lemma failure_test_ok w i : ready w i → tw_lossy w = false → main_ok w (failure_test Done).
Proof.
  intros [[Hl Hb] Hn] Hlo. unfold failure_test.
  assert (tw_clients w !! 0 = Some (true, Some i)) as H0 by (apply Hb; unfold NUM_CL; lia).
  eapply main_stop; [done|]. intros _. apply main_new. intros _.
  eapply main_bind_late; [apply lookup_insert_eq|by right|done|]. intros r d Hr _. rewrite verify_true by (by rewrite Hr).
  apply main_delete; [simpl; by rewrite lookup_insert_eq|]. intros _. apply main_start; [done|]. intros _.
  eapply main_call_old; [simpl; rewrite lookup_delete_ne, lookup_insert_ne by done; exact H0|done|simpl; lia|].
  intros r1 d1 Hr1. rewrite verify_true by (by rewrite Hr1).
  apply main_delete; [simpl; rewrite lookup_delete_ne, lookup_insert_ne by done; by rewrite H0|].
  intros _. apply main_new. intros _. eapply main_bind; [apply lookup_insert_eq|done|].
  intros r2 d2 Hr2. rewrite verify_true by (by rewrite Hr2).
  eapply main_bind_again; [apply lookup_insert_eq|]. intros r3 Hr3. rewrite verify_true by (by rewrite Hr3).
  eapply main_call; [apply lookup_insert_eq|done|done|reflexivity|]. intros d4. do 2 rewrite verify_true by done.
  apply main_par; [eapply client3s_ok; [done|apply lookup_insert_eq]|].
  intros w' [d5 ->]. eapply main_stop; [done|]. intros _.
  apply main_delete; [simpl; by rewrite lookup_insert_eq|]. intros _. apply main_start; [done|]. intros _.
  apply main_new. intros _. eapply main_bind; [apply lookup_insert_eq|done|].
  intros r6 d6 Hr6. rewrite verify_true by (by rewrite Hr6).
  apply main_par; [eapply client3s_ok; [done|apply lookup_insert_eq]|done].
Qed.

(** Every run of a program ends. *)
Definition pool_step (ts ts' : list prog) : Prop :=
  ∃ l1 o k l2 r, ts = l1 ++ Do o k :: l2 ∧ ts' = l1 ++ k r :: l2.

Lemma pool_step_cons t ts ts' : pool_step (t :: ts) ts' →
  (∃ o k r, t = Do o k ∧ ts' = k r :: ts) ∨ ∃ ts1, pool_step ts ts1 ∧ ts' = t :: ts1.
Proof.
  intros ([|t1 l1] & o & k & l2 & r & E & ->); simplify_eq/=; [left; by eauto|].
  right. eexists. split; [|done]. by exists l1, o, k, l2, r.
Qed.

Lemma pool_sn_cons t : ∀ ts, sn pool_step ts → sn pool_step (t :: ts).
Proof.
  induction t as [| |o k IHt|ps k _]; intros ts Hts; induction Hts as [ts Hts IH]; constructor;
    intros ts' [(?&?&?&?&->)|(ts1 & Hs & ->)]%pool_step_cons; simplify_eq; try by apply IH.
  apply IHt. by constructor.
Qed.

Lemma pool_sn ts : sn pool_step ts.
Proof.
  induction ts as [|t ts IH]; [|by apply pool_sn_cons].
  constructor. intros ts' ([] & ? & ? & ? & ? & ? & _); done.
Qed.

Lemma tstep_alone w p c : test_step (TConfig w p []) c →
  (∃ o k r w', p = Do o k ∧ c = TConfig w' (k r) []) ∨ (∃ ps k, p = Par ps k ∧ c = TConfig w k ps).
Proof.
  inversion 1 as [? o k r w' Ha|? ps k|? ? l1 ? ? ? ? ? ? E|? ? ? Hne]; subst.
  - left. by exists o, k, r, w'.
  - right. by exists ps, k.
  - by destruct l1.
  - by destruct Hne.
Qed.

Lemma tstep_waiting w p t ts c : test_step (TConfig w p (t :: ts)) c →
  (∃ w' ts', pool_step (t :: ts) ts' ∧ c = TConfig w' p ts') ∨ c = TConfig w p [].
Proof.
  inversion 1 as [| |? ? l1 o k l2 r w' Ha E|]; subst; [left|by right].
  eexists _, _. split; [|done]. by exists l1, o, k, l2, r.
Qed.

Lemma tests_end p : ∀ ts w, sn test_step (TConfig w p ts).
Proof.
  assert (∀ p, (∀ w, sn test_step (TConfig w p [])) → ∀ ts w, sn test_step (TConfig w p ts)) as Hpool.
  { clear p. intros p H ts. induction (pool_sn ts) as [ts _ IH]. intros w. destruct ts as [|t ts]; [apply H|].
    constructor. intros c [(w' & ts' & Hs & ->)| ->]%tstep_waiting; [by apply IH|apply H]. }
  induction p as [| |o k IH|ps k IH]; apply Hpool; intros w; constructor;
    intros c [(?&?&?&?&E&->)|(?&?&E&->)]%tstep_alone; simplify_eq; apply IH.
Qed.

(** The server of [main]: its own, or with -c alone one that runs already. *)
Definition main_server (opts : list option_char) (w : tworld) : Prop :=
  if has_opt Opt_s opts || negb (has_opt Opt_c opts) then tw_live w = None
  else ∃ i, tw_live w = Some i ∧ i < tw_next w.

Lemma bind_clients_ok w i k : tw_live w = Some i → i < tw_next w →
  (∀ w', ready w' i → tw_lossy w' = tw_lossy w → main_ok w' k) →
  main_ok w (foldr (λ c k, _ ⇐ TNewClient c true; r ⇐ TBind c to_max; check (tr_ret r =? 0)%Z; k) k (seq 0 NUM_CL)).
Proof.
  intros Hl Hn Hk. cbn [NUM_CL seq foldr].
  do 2 (apply main_new; intros _; eapply main_bind; [apply lookup_insert_eq|done|]; intros ? ? Hr;
    rewrite verify_true by (by rewrite Hr); clear Hr).
  apply Hk; [|done]. split; [split; [done|]|done]. simpl. intros [|[|c]] ?; [| |unfold NUM_CL in *; lia].
  - do 2 (rewrite ?lookup_insert_ne by done). by rewrite ?lookup_insert_eq.
  - by rewrite ?lookup_insert_eq.
Qed.

Lemma all_tests_ok w i server n : ready w i → tw_lossy w = false → main_ok w (all_tests server n).
Proof.
  intros Hw Hlo. eapply (simple_tests_ok _ i); [done..|].
  intros w1 Hw1 _. eapply concurrent_test_ok; [done|]. intros w2 Hw2.
  eapply lossy_test_ok; [by eapply ready_same|]. intros w3 j Hw3 Hlo3.
  destruct server; [by eapply failure_test_ok|done].
Qed.

Lemma main_client_ok w i server n : tw_live w = Some i → i < tw_next w → tw_lossy w = false →
  main_ok w (foldr (λ c k, _ ⇐ TNewClient c true; r ⇐ TBind c to_max; check (tr_ret r =? 0)%Z; k)
    (all_tests server n) (seq 0 NUM_CL)).
Proof.
  intros Hl Hn Hlo. eapply bind_clients_ok; [done..|]. intros w' Hw' Hlo'. eapply all_tests_ok; [done|congruence].
Qed.

Lemma rpctest_main_ok n opts w : has_opt Opt_l opts = false → tw_lossy w = false → main_server opts w →
  main_ok w (rpctest_main n opts).
Proof.
  intros Hlopt Hlo Hs. unfold rpctest_main. rewrite Hlopt. unfold main_server in Hs.
  destruct (has_opt Opt_s opts), (has_opt Opt_c opts); cbn [negb andb orb] in *.
  3: { destruct Hs as (i & Hl & Hi). by eapply main_client_ok. }
  all: apply main_start; [exact Hs|]; intros _; first [exact I|eapply main_client_ok; [reflexivity|simpl; lia|exact Hlo]].
Qed.

(** rpctest passes: from a state without server, or for -c with one that runs, every
    run of [main] with its threads, in every interleaving and for every answer that the
    contract of the RPC library allows, fails no VERIFY, is never stuck, and ends with
    [main] at its end. *)
Theorem rpctest_passes n opts w :
  has_opt Opt_l opts = false → tw_lossy w = false → main_server opts w →
  sn test_step (TConfig w (rpctest_main n opts) []) ∧
  ∀ c, rtc test_step (TConfig w (rpctest_main n opts) []) c → passing c ∧ (finished c ∨ ∃ c', test_step c c').
Proof.
  intros Hl Hlo Hs. split; [apply tests_end|]. intros c Hc.
  assert (tconfig_ok c) as Hok.
  { revert Hc. generalize (rpctest_main_ok n opts w Hl Hlo Hs). change (main_ok w ?p) with (tconfig_ok (TConfig w p [])).
    intros H0 Hc. revert H0. induction Hc as [|c1 c2 c3 Hs1 _ IH]; [done|]. intros H1. apply IH. by eapply tconfig_ok_step. }
  split; [by apply tconfig_ok_passing|by apply tconfig_ok_progress].
Qed.

Definition ex_tworld : tworld := TWorld None 0 ∅ false 5000.

Lemma rpctest_passes_witness :
  passing (TConfig ex_tworld (rpctest_main 3 [Opt_p 4000]) []) ∧
  sn test_step (TConfig ex_tworld (rpctest_main 3 [Opt_p 4000]) []).
Proof.
  destruct (rpctest_passes 3 [Opt_p 4000] ex_tworld eq_refl eq_refl eq_refl) as [Hsn H].
  split; [|exact Hsn]. exact (proj1 (H _ (rtc_refl _ _))).
Defined.
