(* ===== verification/Handle.v ===== *)
(** * The cache of RPC clients of handle.cc

    [handle_mgr] keeps one [hinfo] per destination, counted by the [handle] objects
    that use it; [handle::safebind] makes and binds the [rpcc] the first time.  The
    [hinfo]s are a heap of objects, so that a use of a deleted one is a fault; an
    [rpcc] is an address, and what its [bind] returns is an argument. *)

From stdpp Require Import base tactics numbers list gmap strings relations.
From Stdlib Require Import ZArith Lia Ascii.
From S2P Require Import Prelude Fifo.

(** [struct hinfo] *)
Record hinfo := HInfo { h_cl : option nat; h_refcnt : Z; h_del : bool; h_m : bytes }.

(** [handle_mgr] with the heap it allocates in, and the [rpcc]s deleted so far. *)
Record handle_mgr := HandleMgr {
  hmap : gmap bytes nat; hheap : gmap nat hinfo; hnext : nat; rpcc_deleted : list nat }.

Definition new_handle_mgr : handle_mgr := HandleMgr ∅ ∅ 0 [].

Definition hinfo_at (p : nat) (g : handle_mgr) : outcome hinfo :=
  match hheap g !! p with Some h => Ok h | None => Fault NullDeref end.
Definition set_hinfo (p : nat) (h : hinfo) (g : handle_mgr) : handle_mgr :=
  HandleMgr (hmap g) (<[p := h]> (hheap g)) (hnext g) (rpcc_deleted g).

(** [handle_mgr::get_handle] *)
Definition get_handle (m : bytes) (g : handle_mgr) : outcome (option nat * handle_mgr) :=
  match hmap g !! m with
  | None =>
      let p := hnext g in
      Ok (Some p, HandleMgr (<[m := p]> (hmap g)) (<[p := HInfo None 1 false m]> (hheap g)) (S p)
                    (rpcc_deleted g))
  | Some p =>
      h ← hinfo_at p g;
      if h_del h then Ok (None, g)
      else
        n ← int_result (h_refcnt h + 1);
        Ok (Some p, set_hinfo p (HInfo (h_cl h) n (h_del h) (h_m h)) g)
  end.

(** [handle_mgr::delete_handle_wo] *)
Definition delete_handle_wo (m : bytes) (g : handle_mgr) : outcome handle_mgr :=
  match hmap g !! m with
  | None => Ok g
  | Some p =>
      h ← hinfo_at p g;
      if (h_refcnt h =? 0)%Z then
        Ok (HandleMgr (delete m (hmap g)) (delete p (hheap g)) (hnext g)
              (match h_cl h with Some c => rpcc_deleted g ++ [c] | None => rpcc_deleted g end))
      else Ok (set_hinfo p (HInfo (h_cl h) (h_refcnt h) true (h_m h)) g)
  end.

(** [handle_mgr::done_handle] *)
Definition done_handle (p : nat) (g : handle_mgr) : outcome handle_mgr :=
  h ← hinfo_at p g;
  n ← int_result (h_refcnt h - 1);
  let g := set_hinfo p (HInfo (h_cl h) n (h_del h) (h_m h)) g in
  if ((n =? 0)%Z && h_del h)%bool then delete_handle_wo (h_m h) g else Ok g.

(** [handle_mgr::delete_handle] *)
Definition delete_handle (m : bytes) (g : handle_mgr) : outcome handle_mgr := delete_handle_wo m g.

(** [handle::safebind]: [cl] is the address of the [rpcc] made if need be, [ret] what
    its [bind] returns. *)
Definition safebind (cl : nat) (ret : Z) (h : option nat) (g : handle_mgr) :
    outcome (option nat * handle_mgr) :=
  match h with
  | None => Ok (None, g)
  | Some p =>
      i ← hinfo_at p g;
      if h_del i then Ok (None, g)
      else match h_cl i with
           | Some c => Ok (Some c, g)
           | None =>
               if (ret <? 0)%Z then
                 let g := set_hinfo p (HInfo (h_cl i) (h_refcnt i) true (h_m i)) g in
                 Ok (h_cl i, HandleMgr (hmap g) (hheap g) (hnext g) (rpcc_deleted g ++ [cl]))
               else Ok (Some cl, set_hinfo p (HInfo (Some cl) (h_refcnt i) (h_del i) (h_m i)) g)
           end
  end.

(** [handle::~handle] *)
Definition handle_destroy (h : option nat) (g : handle_mgr) : outcome handle_mgr :=
  match h with None => Ok g | Some p => done_handle p g end.

(** ** Programs that use handles

    A program has places for handle objects: a place is empty, or has a handle, whose
    pointer may be null.  [hs_clock] makes the addresses of new [rpcc]s. *)
Abbreviation slot := (option (option nat)).
Record hsys := HSys { hs_mgr : handle_mgr; hs_slots : list slot; hs_clock : nat }.

Inductive handle_op :=
  | HNew (k : nat) (m : bytes) | HBind (k : nat) (ret : Z) | HDrop (k : nat) | HDelete (m : bytes).

(** C++ scoping: a handle is made in an empty place, used and destroyed in its own. *)
Definition op_allowed (op : handle_op) (σ : hsys) : Prop :=
  match op with
  | HNew k _ => hs_slots σ !! k = Some None
  | HBind k _ | HDrop k => ∃ h, hs_slots σ !! k = Some (Some h)
  | HDelete _ => True
  end.

Definition slot_at (k : nat) (σ : hsys) : option nat := default None (default None (hs_slots σ !! k)).

Definition handle_exec (op : handle_op) (σ : hsys) : outcome (option nat * hsys) :=
  match op with
  | HNew k m =>
      '(h, g) ← get_handle m (hs_mgr σ);
      Ok (None, HSys g (<[k := Some h]> (hs_slots σ)) (hs_clock σ))
  | HBind k ret =>
      '(c, g) ← safebind (hs_clock σ) ret (slot_at k σ) (hs_mgr σ);
      Ok (c, HSys g (hs_slots σ) (S (hs_clock σ)))
  | HDrop k =>
      g ← handle_destroy (slot_at k σ) (hs_mgr σ);
      Ok (None, HSys g (<[k := None]> (hs_slots σ)) (hs_clock σ))
  | HDelete m => g ← delete_handle m (hs_mgr σ); Ok (None, HSys g (hs_slots σ) (hs_clock σ))
  end.

Inductive handle_step : hsys → hsys → Prop :=
  | handle_does op σ r σ' : op_allowed op σ → handle_exec op σ = Ok (r, σ') → handle_step σ σ'.

Definition handle_start (n : nat) : hsys := HSys new_handle_mgr (replicate n None) 0.

(** ** Invariant *)
Definition points_to (p : nat) (s : slot) : bool :=
  match s with Some (Some q) => bool_decide (q = p) | _ => false end.

(** The map leads to the objects of the heap and back; a count is the number of handles
    at the object; a cached [rpcc] is one of a kind and not deleted. *)
Record hinv (σ : hsys) : Prop := HInv {
  hi_map m p : hmap (hs_mgr σ) !! m = Some p ↔ ∃ h, hheap (hs_mgr σ) !! p = Some h ∧ h_m h = m;
  hi_next p : is_Some (hheap (hs_mgr σ) !! p) → p < hnext (hs_mgr σ);
  hi_count p h : hheap (hs_mgr σ) !! p = Some h →
    h_refcnt h = Z.of_nat (count (points_to p) (hs_slots σ));
  hi_alive k p : hs_slots σ !! k = Some (Some (Some p)) → is_Some (hheap (hs_mgr σ) !! p);
  hi_cl p h c : hheap (hs_mgr σ) !! p = Some h → h_cl h = Some c →
    c ∉ rpcc_deleted (hs_mgr σ) ∧ c < hs_clock σ;
  hi_cl_inj p q h h' c : hheap (hs_mgr σ) !! p = Some h → hheap (hs_mgr σ) !! q = Some h' →
    h_cl h = Some c → h_cl h' = Some c → p = q;
  hi_deleted c : c ∈ rpcc_deleted (hs_mgr σ) → c < hs_clock σ }.

Lemma points_to_same p : points_to p (Some (Some p)) = true.
Proof. simpl. by rewrite bool_decide_true. Qed.

(** An update of one object that keeps its name: what is left to show. *)
Lemma hinv_update σ p h h' slots clock dels :
  hinv σ → hheap (hs_mgr σ) !! p = Some h → h_m h' = h_m h →
  (∀ q, count (points_to q) slots
      = if decide (q = p) then Z.to_nat (h_refcnt h') else count (points_to q) (hs_slots σ)) →
  (0 <= h_refcnt h')%Z →
  (∀ k q, slots !! k = Some (Some (Some q)) → q = p ∨ ∃ k', hs_slots σ !! k' = Some (Some (Some q))) →
  hs_clock σ ≤ clock →
  (∀ c, c ∈ dels → c ∈ rpcc_deleted (hs_mgr σ) ∨ hs_clock σ ≤ c < clock) →
  (∀ c, h_cl h' = Some c → h_cl h = Some c ∨ (hs_clock σ ≤ c < clock ∧ c ∉ dels)) →
  hinv (HSys (HandleMgr (hmap (hs_mgr σ)) (<[p := h']> (hheap (hs_mgr σ))) (hnext (hs_mgr σ)) dels)
          slots clock).
Proof.
  intros [Hmap Hnext Hcnt Hal Hcl Hinj Hdel] Hp Hm Hc Hpos Hs Hck Hd Hcl'. constructor; simpl.
  - intros m q. rewrite Hmap. destruct (decide (q = p)) as [->|Hq].
    + rewrite lookup_insert_eq. naive_solver congruence.
    + by rewrite lookup_insert_ne.
  - intros q [x Hx]. destruct (decide (q = p)) as [->|Hq]; [eauto|].
    rewrite lookup_insert_ne in Hx by done. eauto.
  - intros q x. rewrite Hc. destruct (decide (q = p)) as [->|Hq].
    + rewrite lookup_insert_eq. intros [= <-]. lia.
    + rewrite lookup_insert_ne by done. apply Hcnt.
  - intros k q Hk. destruct (decide (q = p)) as [->|Hq]; [rewrite lookup_insert_eq; eauto|].
    rewrite lookup_insert_ne by done. destruct (Hs k q Hk) as [|[k' Hk']]; [done|eauto].
  - intros q x c Hx Ex. assert ((∃ x, hheap (hs_mgr σ) !! q = Some x ∧ h_cl x = Some c) ∨
      (hs_clock σ ≤ c < clock ∧ c ∉ dels)) as [(y & Hy & Ey)|?]; [| |naive_solver lia].
    { destruct (decide (q = p)) as [->|Hq].
      - rewrite lookup_insert_eq in Hx. injection Hx as <-. destruct (Hcl' c Ex); naive_solver.
      - rewrite lookup_insert_ne in Hx by done. eauto. }
    destruct (Hcl _ _ _ Hy Ey) as [H1 H2]. split; [|lia]. intros [?|?]%Hd; [done|lia].
  - assert (∀ q x c, <[p := h']> (hheap (hs_mgr σ)) !! q = Some x → h_cl x = Some c →
      (∃ y, hheap (hs_mgr σ) !! q = Some y ∧ h_cl y = Some c) ∨ (q = p ∧ hs_clock σ ≤ c)) as Ho.
    { intros q x c Hx Ex. destruct (decide (q = p)) as [->|Hq].
      - rewrite lookup_insert_eq in Hx. injection Hx as <-. destruct (Hcl' c Ex); [left; eauto|naive_solver].
      - rewrite lookup_insert_ne in Hx by done. eauto. }
    intros q q' x x' c Hx Hx' Ex Ex'.
    destruct (Ho _ _ _ Hx Ex) as [(y & Hy & Ey)|[-> Hf]], (Ho _ _ _ Hx' Ex') as [(y' & Hy' & Ey')|[-> Hf']];
      [by eapply Hinj| | |done].
    + destruct (Hcl _ _ _ Hy Ey). lia.
    + destruct (Hcl _ _ _ Hy' Ey'). lia.
  - intros c [?%Hdel|?]%Hd; lia.
Qed.

(** The removal of an object nothing points at. *)
Lemma hinv_delete σ p h slots :
  hinv σ → hheap (hs_mgr σ) !! p = Some h →
  (∀ k, slots !! k ≠ Some (Some (Some p))) →
  (∀ q, q ≠ p → count (points_to q) slots = count (points_to q) (hs_slots σ)) →
  (∀ k q, slots !! k = Some (Some (Some q)) → ∃ k', hs_slots σ !! k' = Some (Some (Some q))) →
  hinv (HSys (HandleMgr (delete (h_m h) (hmap (hs_mgr σ))) (delete p (hheap (hs_mgr σ))) (hnext (hs_mgr σ))
          (match h_cl h with Some c => rpcc_deleted (hs_mgr σ) ++ [c] | None => rpcc_deleted (hs_mgr σ) end))
          slots (hs_clock σ)).
Proof.
  intros [Hmap Hnext Hcnt Hal Hcl Hinj Hdel] Hp Hno Hc Hs.
  assert (∀ c, c ∈ (match h_cl h with Some c => rpcc_deleted (hs_mgr σ) ++ [c] | None => rpcc_deleted (hs_mgr σ) end)
    → c ∈ rpcc_deleted (hs_mgr σ) ∨ h_cl h = Some c) as Hd by (intros c; destruct (h_cl h); set_solver).
  constructor; simpl.
  - intros m q. rewrite lookup_delete_Some, Hmap. split.
    + intros [Hne (x & Hx & <-)]. exists x. rewrite lookup_delete_ne; [done|naive_solver].
    + intros (x & [Hne Hx]%lookup_delete_Some & <-). split; [|eauto]. intros Hm.
      apply Hne. apply (inj Some). transitivity (hmap (hs_mgr σ) !! h_m h); [symmetry|]; apply Hmap; eauto.
  - intros q [x [_ Hx]%lookup_delete_Some]. eauto.
  - intros q x [Hne Hx]%lookup_delete_Some. rewrite Hc by done. eauto.
  - intros k q Hk. destruct (decide (q = p)) as [->|Hne]; [by destruct (Hno k)|].
    rewrite lookup_delete_ne by done. destruct (Hs k q Hk). eauto.
  - intros q x c [Hne Hx]%lookup_delete_Some Ex. destruct (Hcl _ _ _ Hx Ex) as [? ?].
    split; [|done]. intros [?|Eh]%Hd; [done|]. by destruct Hne; eapply Hinj.
  - intros q q' x x' c [_ Hx]%lookup_delete_Some [_ Hx']%lookup_delete_Some. by apply Hinj.
  - intros c [?|Eh]%Hd; [auto|]. by eapply Hcl.
Qed.

(** Nothing but places and the clock changes. *)
Lemma hinv_slots σ slots clock :
  hinv σ → (∀ q, count (points_to q) slots = count (points_to q) (hs_slots σ)) →
  (∀ k q, slots !! k = Some (Some (Some q)) → ∃ k', hs_slots σ !! k' = Some (Some (Some q))) →
  hs_clock σ ≤ clock → hinv (HSys (hs_mgr σ) slots clock).
Proof.
  intros [Hmap Hnext Hcnt Hal Hcl Hinj Hdel] Hc Hs Hck. constructor; simpl; try done.
  - intros p h Hp. rewrite Hc. eauto.
  - intros k p (k' & Hk)%Hs. eauto.
  - intros p h c Hp Ec. destruct (Hcl _ _ _ Hp Ec). split; [done|lia].
  - intros c ?%Hdel. lia.
Qed.

(** A new object with one handle at it. *)
Lemma hinv_new σ m slots :
  let g := hs_mgr σ in
  let p := hnext g in
  hinv σ → hmap g !! m = None →
  (∀ q, count (points_to q) slots
      = if decide (q = p) then 1 else count (points_to q) (hs_slots σ)) →
  (∀ k q, slots !! k = Some (Some (Some q)) → q = p ∨ ∃ k', hs_slots σ !! k' = Some (Some (Some q))) →
  hinv (HSys (HandleMgr (<[m := p]> (hmap g)) (<[p := HInfo None 1 false m]> (hheap g)) (S p) (rpcc_deleted g))
          slots (hs_clock σ)).
Proof.
  intros g p [Hmap Hnext Hcnt Hal Hcl Hinj Hdel] Hm Hc Hs.
  assert (hheap g !! p = None) as Hp.
  { destruct (hheap g !! p) eqn:E; [|done]. assert (p < hnext g) by eauto. unfold p in *. lia. }
  constructor; simpl.
  - intros m' q. destruct (decide (q = p)) as [->|Hq].
    + rewrite lookup_insert_eq, lookup_insert_Some. split; [|naive_solver].
      intros [[-> _]|[_ (h & Hh & _)%Hmap]]; [by eexists|]. fold g in Hh. congruence.
    + rewrite lookup_insert_Some, (lookup_insert_ne (hheap g)) by done. etrans; [|apply Hmap]. fold g.
      split; [naive_solver|]. intros H. right. split; [|done]. intros <-. congruence.
  - intros q [x [[<- _]|[_ Hx]]%lookup_insert_Some]; [unfold p; lia|].
    assert (q < hnext g) by eauto. unfold p. lia.
  - intros q x Hx. rewrite Hc. destruct (decide (q = p)) as [->|Hq].
    + rewrite lookup_insert_eq in Hx. by injection Hx as <-.
    + rewrite lookup_insert_ne in Hx by done. eauto.
  - intros k q [->|[k' Hk]]%Hs; [rewrite lookup_insert_eq; eauto|].
    apply Hal in Hk. destruct (decide (q = p)) as [->|]; [rewrite lookup_insert_eq; eauto|].
    by rewrite lookup_insert_ne.
  - intros q x c [[_ <-]|[_ Hx]]%lookup_insert_Some; [done|eauto].
  - intros q q' x x' c [[_ <-]|[_ Hx]]%lookup_insert_Some [[_ <-]|[_ Hx']]%lookup_insert_Some; [naive_solver..|].
    by apply Hinj.
  - done.
Qed.

(** The places after one of them changes. *)
Lemma slots_insert_in (slots : list slot) k s k' q :
  <[k := s]> slots !! k' = Some (Some (Some q)) → s = Some (Some q) ∨ slots !! k' = Some (Some (Some q)).
Proof. intros [(_ & <- & _)|[_ ?]]%list_lookup_insert_Some; auto. Qed.

Lemma count_le {P} (f : P → bool) l : count f l ≤ length l.
Proof. induction l as [|x l IH]; [done|]. rewrite count_cons. simpl. destruct (f x); lia. Qed.

Lemma exec_new σ k m :
  hinv σ → (Z.of_nat (length (hs_slots σ)) < 2 ^ 31)%Z → hs_slots σ !! k = Some None →
  ∃ r σ', handle_exec (HNew k m) σ = Ok (r, σ') ∧ hinv σ'.
Proof.
  intros Hi Hlen Hk. pose proof Hi as [Hmap Hnext Hcnt Hal Hcl Hinj Hdel]. cbn [handle_exec].
  assert (∀ q s, count (points_to q) (<[k := s]> (hs_slots σ))
    = count (points_to q) (hs_slots σ) + (if points_to q s then 1 else 0)) as Hc.
  { intros q s. pose proof (count_insert (points_to q) _ _ _ s Hk). simpl in *. lia. }
  unfold get_handle. destruct (hmap (hs_mgr σ) !! m) as [p|] eqn:Em.
  - apply Hmap in Em as (h & Hh & Hm). unfold hinfo_at. rewrite Hh. run. destruct (h_del h); run.
    + do 2 eexists. split; [done|]. apply hinv_slots; [done| | |done].
      * intros q. rewrite Hc. simpl. lia.
      * intros k' q [?|?]%slots_insert_in; [done|eauto].
    + rewrite (Hcnt _ _ Hh). rewrite int_result_Ok.
      2: { pose proof (count_le (points_to p) (<[k := Some (Some p)]> (hs_slots σ))) as Hle.
           rewrite Hc, points_to_same, length_insert in Hle. lia. }
      run. do 2 eexists. split; [done|]. eapply hinv_update; simpl; [done..| | | |lia|by left|by left].
      * intros q. rewrite Hc. case_decide as Hq; [subst; rewrite points_to_same; lia|].
        simpl. rewrite bool_decide_false by congruence. lia.
      * lia.
      * intros k' q [[= ->]|?]%slots_insert_in; eauto.
  - run. do 2 eexists. split; [done|]. apply hinv_new; [done..| |].
    + intros q. rewrite Hc. case_decide as Hq; [subst|].
      * rewrite points_to_same. assert (¬ 0 < count (points_to (hnext (hs_mgr σ))) (hs_slots σ)); [|lia].
        intros (t & [[q|]|] & Ht & Hpt)%count_pos; try done. apply bool_decide_eq_true in Hpt as ->.
        apply Hal, Hnext in Ht. lia.
      * simpl. rewrite bool_decide_false by congruence. lia.
    + intros k' q [[= ->]|?]%slots_insert_in; eauto.
Qed.

Lemma exec_bind σ k ret h :
  hinv σ → hs_slots σ !! k = Some (Some h) →
  ∃ r σ', handle_exec (HBind k ret) σ = Ok (r, σ') ∧ hinv σ'.
Proof.
  intros Hi Hk. pose proof Hi as [Hmap Hnext Hcnt Hal Hcl Hinj Hdel]. cbn [handle_exec].
  unfold slot_at. rewrite Hk. simpl.
  assert (hinv (HSys (hs_mgr σ) (hs_slots σ) (S (hs_clock σ)))) as Hsame.
  { apply hinv_slots; [done..|eauto|lia]. }
  destruct h as [p|]; [|do 2 eexists; by split].
  destruct (Hal _ _ Hk) as [i Hp]. simpl. unfold hinfo_at. rewrite Hp. run.
  destruct (h_del i); run; [do 2 eexists; by split|].
  destruct (h_cl i) as [c|] eqn:Ec; run; [do 2 eexists; by split|].
  assert (∀ q, count (points_to q) (hs_slots σ)
    = if decide (q = p) then Z.to_nat (h_refcnt i) else count (points_to q) (hs_slots σ)) as Hcount.
  { intros q. case_decide; [subst; rewrite (Hcnt _ _ Hp); lia|done]. }
  assert (0 <= h_refcnt i)%Z by (rewrite (Hcnt _ _ Hp); lia).
  destruct (ret <? 0)%Z; run; do 2 eexists; (split; [done|]); eapply hinv_update; simpl; eauto.
  - intros c [? | ->%list_elem_of_singleton]%elem_of_app; [by left|lia].
  - done.
  - intros c [= <-]. right. split; [lia|]. intros Hin%Hdel. lia.
Qed.

Lemma exec_drop σ k h :
  hinv σ → (Z.of_nat (length (hs_slots σ)) < 2 ^ 31)%Z → hs_slots σ !! k = Some (Some h) →
  ∃ r σ', handle_exec (HDrop k) σ = Ok (r, σ') ∧ hinv σ'.
Proof.
  intros Hi Hlen Hk. pose proof Hi as [Hmap Hnext Hcnt Hal Hcl Hinj Hdel]. cbn [handle_exec].
  unfold slot_at. rewrite Hk. simpl.
  assert (∀ q, count (points_to q) (<[k := None]> (hs_slots σ)) + (if points_to q (Some h) then 1 else 0)
    = count (points_to q) (hs_slots σ)) as Hc.
  { intros q. pose proof (count_insert (points_to q) _ _ _ None Hk). simpl in *. lia. }
  assert (∀ k' q, <[k := None]> (hs_slots σ) !! k' = Some (Some (Some q)) →
    ∃ k', hs_slots σ !! k' = Some (Some (Some q))) as Hs.
  { intros k' q [?|?]%slots_insert_in; [done|eauto]. }
  destruct h as [p|]; run.
  2: { do 2 eexists. split; [done|]. apply hinv_slots; [done| |done..]. intros q. rewrite <-Hc. simpl. lia. }
  destruct (Hal _ _ Hk) as [i Hp]. pose proof (Hcnt _ _ Hp) as Hn. pose proof (Hc p) as Hcp.
  rewrite points_to_same in Hcp. pose proof (count_le (points_to p) (hs_slots σ)).
  assert (∀ q, q ≠ p → count (points_to q) (<[k := None]> (hs_slots σ)) = count (points_to q) (hs_slots σ)) as Hcq.
  { intros q Hq. rewrite <-(Hc q). simpl. rewrite bool_decide_false by congruence. lia. }
  cbn [handle_destroy]. unfold done_handle, hinfo_at. rewrite Hp. run. rewrite int_result_Ok by lia. run.
  destruct ((h_refcnt i - 1 =? 0)%Z && h_del i)%bool eqn:E.
  - apply andb_prop in E as [E0%Z.eqb_eq _]. unfold delete_handle_wo. cbn [set_hinfo hmap].
    rewrite (proj2 (Hmap (h_m i) p)) by eauto. unfold hinfo_at. simpl. rewrite lookup_insert_eq. run. simpl.
    rewrite E0. simpl. rewrite delete_insert_eq. do 2 eexists. split; [done|].
    apply hinv_delete; [done..| |done|done]. intros k' Hk'.
    assert (0 < count (points_to p) (<[k := None]> (hs_slots σ))); [|lia].
    apply count_pos. exists k', (Some (Some p)). split; [done|apply points_to_same].
  - run. do 2 eexists. split; [done|]. eapply hinv_update; simpl; [done..| | | |lia|by left|by left].
    + intros q. case_decide as Hq; [subst; lia|auto].
    + lia.
    + intros k' q Hk'. right. eauto.
Qed.

Lemma exec_delete σ m : hinv σ → ∃ r σ', handle_exec (HDelete m) σ = Ok (r, σ') ∧ hinv σ'.
Proof.
  intros Hi. pose proof Hi as [Hmap Hnext Hcnt Hal Hcl Hinj Hdel]. cbn [handle_exec].
  unfold delete_handle, delete_handle_wo. destruct (hmap (hs_mgr σ) !! m) as [p|] eqn:Em; run.
  2: { do 2 eexists. split; [done|]. apply hinv_slots; [done..|eauto|done]. }
  apply Hmap in Em as (h & Hp & <-). unfold hinfo_at. rewrite Hp. run. pose proof (Hcnt _ _ Hp) as Hn.
  destruct (Z.eqb_spec (h_refcnt h) 0) as [E|E]; run; do 2 eexists; (split; [done|]).
  - apply hinv_delete; [done..| |done|eauto]. intros k' Hk'.
    assert (0 < count (points_to p) (hs_slots σ)); [|lia].
    apply count_pos. exists k', (Some (Some p)). split; [done|apply points_to_same].
  - eapply hinv_update; simpl; [done..| | | |lia|by left|by left].
    + intros q. case_decide; [subst; lia|done].
    + lia.
    + intros k' q Hk'. right. eauto.
Qed.

Lemma handle_exec_ok σ op :
  hinv σ → (Z.of_nat (length (hs_slots σ)) < 2 ^ 31)%Z → op_allowed op σ →
  ∃ r σ', handle_exec op σ = Ok (r, σ') ∧ hinv σ'.
Proof.
  intros Hi Hlen Hop. destruct op as [k m|k ret|k|m]; simpl in Hop.
  - by apply exec_new.
  - destruct Hop as [h Hk]. by eapply exec_bind.
  - destruct Hop as [h Hk]. by eapply exec_drop.
  - by apply exec_delete.
Qed.

Lemma handle_exec_length σ op r σ' :
  handle_exec op σ = Ok (r, σ') → length (hs_slots σ') = length (hs_slots σ).
Proof.
  destruct op; simpl; [intros ([h g] & _ & [= _ <-])%bind_Ok|intros ([h g] & _ & [= _ <-])%bind_Ok
    |intros (g & _ & [= _ <-])%bind_Ok|intros (g & _ & [= _ <-])%bind_Ok]; simpl; by rewrite ?length_insert.
Qed.

Lemma handle_reachable n σ :
  (Z.of_nat n < 2 ^ 31)%Z → rtc handle_step (handle_start n) σ → hinv σ ∧ length (hs_slots σ) = n.
Proof.
  intros Hn Hr. assert (hinv (handle_start n) ∧ length (hs_slots (handle_start n)) = n) as H0.
  { split; [|apply length_replicate]. constructor; simpl.
    - intros m p. split; [|intros (h & Hh & _)]; by rewrite lookup_empty in *.
    - intros p [h Hh]. by rewrite lookup_empty in Hh.
    - intros p h Hh. by rewrite lookup_empty in Hh.
    - intros k p [? _]%lookup_replicate. done.
    - intros p h c Hh. by rewrite lookup_empty in Hh.
    - intros p q h h' c Hh. by rewrite lookup_empty in Hh.
    - intros c Hc. by apply elem_of_nil in Hc. }
  revert H0. induction Hr as [|x y z Hxy Hyz IH]; [done|]. intros [Hi Hl]. apply IH.
  destruct Hxy as [op x r y Hop E]. assert (Z.of_nat (length (hs_slots x)) < 2 ^ 31)%Z as Hlen by lia.
  destruct (handle_exec_ok x op Hi Hlen Hop) as (r' & y' & E' & Hi').
  pose proof (handle_exec_length _ _ _ _ E). rewrite E in E'. injection E' as <- <-. split; [done|congruence].
Qed.

(** C30: However a program creates, uses, destroys and invalidates handles, no operation
    touches a deleted object, the count of an object is the number of handles at it, an
    object that a handle is at exists and is found under its name, and a cached client
    is not a deleted one. *)
Theorem handles_are_safe n σ :
  (Z.of_nat n < 2 ^ 31)%Z → rtc handle_step (handle_start n) σ →
  (∀ op, op_allowed op σ → ∃ r σ', handle_exec op σ = Ok (r, σ')) ∧
  (∀ k p, hs_slots σ !! k = Some (Some (Some p)) →
     ∃ h, hheap (hs_mgr σ) !! p = Some h ∧ hmap (hs_mgr σ) !! h_m h = Some p ∧
       h_refcnt h = Z.of_nat (count (points_to p) (hs_slots σ)) ∧
       ∀ c, h_cl h = Some c → c ∉ rpcc_deleted (hs_mgr σ)).
Proof.
  intros Hn Hr. destruct (handle_reachable n σ Hn Hr) as [Hi Hl]. split.
  - intros op Hop. destruct (handle_exec_ok σ op Hi) as (r & σ' & E & _); [lia|done|eauto].
  - intros k p Hk. destruct (hi_alive _ Hi _ _ Hk) as [h Hh]. exists h. split_and!; [done| | |].
    + apply (hi_map _ Hi). eauto.
    + by apply (hi_count _ Hi).
    + intros c Hc. by eapply (hi_cl _ Hi).
Qed.

Lemma handles_are_safe_witness :
  ∃ σ, rtc handle_step (handle_start 2) σ ∧
    ∃ h, hheap (hs_mgr σ) !! 0 = Some h ∧ h_refcnt h = 2%Z ∧ h_cl h = Some 0.
Proof.
  assert (∃ σ, rtc handle_step (handle_start 2) σ ∧ hs_slots σ = [Some (Some 0); Some (Some 0)] ∧
    h_cl <$> hheap (hs_mgr σ) !! 0 = Some (Some 0)) as (σ & Hr & Hs & Hc).
  { eexists. split.
    - eapply rtc_l; [by eapply (handle_does (HNew 0 (lit "a:1")))|].
      eapply rtc_l; [by eapply (handle_does (HBind 0 0)); [eexists|]|].
      eapply rtc_l; [by eapply (handle_does (HNew 1 (lit "a:1")))|]. apply rtc_refl.
    - by split. }
  destruct (handles_are_safe 2 σ ltac:(lia) Hr) as [_ Hk].
  destruct (Hk 0 0) as (h & Hh & _ & Hn & _); [by rewrite Hs|].
  exists σ. split; [exact Hr|]. exists h. rewrite Hs in Hn. rewrite Hh in Hc. injection Hc as Hc. by split.
Defined.
