(* ===== verification/ExtentServer.v ===== *)
(** * The extent server (extent_protocol.h, extent_server.h, extent_server.cc,
    extent_smain.cc)

    Two maps, contents and attributes, by extent id.  [now] is the answer of
    [time(NULL)]. *)

From stdpp Require Import base tactics numbers list gmap strings.
From Stdlib Require Import ZArith Lia Ascii.
From S2P Require Import Prelude CxxString Marshall Connection RpcServer RpcTime RpcClient RpcCall.

Module extent_protocol.
Definition OK : Z := 0.
Definition RPCERR : Z := 1.
Definition NOENT : Z := 2.
Definition IOERR : Z := 3.
Definition put : Z := 24577.       (* 0x6001 *)
Definition get : Z := 24578.
Definition getattr : Z := 24579.
Definition remove : Z := 24580.

(** struct attr: four [unsigned int] fields *)
Record attr := Attr { atime : Z; mtime : Z; ctime : Z; a_size : Z }.
End extent_protocol.
Import extent_protocol (attr, Attr, atime, mtime, ctime, a_size).

(** [operator<<] and [operator>>] on attributes. *)
Definition put_attr (junk : nat → ascii) (a : attr) (m : marshall) : outcome marshall :=
  m ← put_uint junk (atime a) m;
  m ← put_uint junk (mtime a) m;
  m ← put_uint junk (ctime a) m;
  put_uint junk (a_size a) m.
Definition get_attr (a : attr) (u : unmarshall) : outcome (attr * unmarshall) :=
  '(at_, u) ← get_uint (atime a) u;
  '(mt, u) ← get_uint (mtime a) u;
  '(ct, u) ← get_uint (ctime a) u;
  '(sz, u) ← get_uint (a_size a) u;
  Ok (Attr at_ mt ct sz, u).
Definition attr_codec (junk : nat → ascii) : codec attr :=
  Codec attr (put_attr junk) get_attr (Attr 0 0 0 0).

Definition new_attr (now : Z) (n : Z) : attr := Attr (u32 now) (u32 now) (u32 now) (u32 n).

(** class extent_server *)
Record extent_server := ExtentServer {
  content_map : gmap Z bytes;
  attr_map : gmap Z attr }.

(** [extent_server::extent_server]: the root extent is empty. *)
Definition new_extent_server (now : Z) : extent_server :=
  ExtentServer {[1%Z := []]} {[1%Z := new_attr now 0]}.

(** [extent_server::put] *)
Definition es_put (now : Z) (s : extent_server) (id_buf : Z * bytes) (r : Z) :
    outcome (extent_server * Z * Z) :=
  let '(id, buf) := id_buf in
  let cm := <[id := buf]> (content_map s) in
  let am := match attr_map s !! id with
            | None => <[id := new_attr now (size buf)]> (attr_map s)
            | Some a => <[id := Attr (atime a) (u32 now) (u32 now) (u32 (size buf))]> (attr_map s)
            end in
  Ok (ExtentServer cm am, r, extent_protocol.OK).

(** [extent_server::get] *)
Definition es_get (now : Z) (s : extent_server) (id : Z) (buf : bytes) :
    outcome (extent_server * bytes * Z) :=
  match content_map s !! id, attr_map s !! id with
  | Some c, Some a =>
      Ok (ExtentServer (content_map s)
            (<[id := Attr (u32 now) (mtime a) (ctime a) (a_size a)]> (attr_map s)),
          c, extent_protocol.OK)
  | _, _ => Ok (s, buf, extent_protocol.IOERR)
  end.

(** [extent_server::getattr] *)
Definition es_getattr (s : extent_server) (id : Z) (a : attr) : outcome (extent_server * attr * Z) :=
  match attr_map s !! id with
  | Some a' => Ok (s, a', extent_protocol.OK)
  | None => Ok (s, a, extent_protocol.IOERR)
  end.

(** [extent_server::remove] *)
Definition es_remove (s : extent_server) (id : Z) (r : Z) : outcome (extent_server * Z * Z) :=
  match content_map s !! id, attr_map s !! id with
  | Some _, Some _ =>
      Ok (ExtentServer (delete id (content_map s)) (delete id (attr_map s)), r, extent_protocol.OK)
  | _, _ => Ok (s, r, extent_protocol.IOERR)
  end.

(** [main] of extent_smain.cc: the four handlers registered. *)
Definition extent_main (junk : nat → ascii) (now nonce count : Z) : outcome (rpcs extent_server) :=
  s ← new_rpcs junk nonce count;
  s ← reg1 extent_protocol.get (h1 (ull_codec junk) (string_codec junk) (es_get now)) s;
  s ← reg1 extent_protocol.getattr (h1 (ull_codec junk) (attr_codec junk) es_getattr) s;
  s ← reg1 extent_protocol.put
        (h1 (pair_codec (ull_codec junk) (string_codec junk)) (int_codec junk) (es_put now)) s;
  reg1 extent_protocol.remove (h1 (ull_codec junk) (int_codec junk) es_remove) s.

(** ** The attribute codec *)
Definition attr_ok (a : attr) : Prop :=
  is_u32 (atime a) ∧ is_u32 (mtime a) ∧ is_u32 (ctime a) ∧ is_u32 (a_size a).
Definition enc_attr (a : attr) : bytes :=
  enc_uint (atime a) ++ enc_uint (mtime a) ++ enc_uint (ctime a) ++ enc_uint (a_size a).

#[global] Instance attr_codec_ok junk : CodecOK (attr_codec junk) attr_ok enc_attr.
Proof.
  split.
  - intros [a b c d] m w _ Hm Hsz. unfold enc_attr in *. cbn [put attr_codec put_attr].
    unfold put_attr. cbn [atime mtime ctime a_size] in *. rewrite !size_app, !size_enc_uint in Hsz.
    destruct (put_uint_holds junk m w a Hm) as (m1 & -> & H1); [lia|]. run.
    destruct (put_uint_holds junk m1 _ b H1) as (m2 & -> & H2); [rewrite !size_app, !size_enc_uint; lia|].
    run.
    destruct (put_uint_holds junk m2 _ c H2) as (m3 & -> & H3); [rewrite !size_app, !size_enc_uint; lia|].
    run.
    destruct (put_uint_holds junk m3 _ d H3) as (m4 & -> & H4); [rewrite !size_app, !size_enc_uint; lia|].
    exists m4. split; [done|]. by rewrite <- !app_assoc in H4.
  - intros [a b c d] u pre post (Ha & Hb & Hc & Hd) Hr. unfold enc_attr in *.
    cbn [atime mtime ctime a_size get attr_codec] in *. unfold get_attr. rewrite <- !app_assoc in Hr.
    edestruct get_uint_reads as (u1 & -> & H1); [exact Ha|exact Hr|]. run.
    edestruct get_uint_reads as (u2 & -> & H2); [exact Hb|exact H1|]. run.
    edestruct get_uint_reads as (u3 & -> & H3); [exact Hc|exact H2|]. run.
    edestruct get_uint_reads as (u4 & -> & H4); [exact Hd|exact H3|]. run.
    exists u4. split; [done|]. by rewrite <- !app_assoc in H4.
Qed.

(** ** The invariant: every content has its attributes, with its size modulo 2^32. *)
Definition server_ok (s : extent_server) : Prop :=
  ∀ id, match content_map s !! id, attr_map s !! id with
        | Some c, Some a => a_size a = u32 (size c)
        | None, None => True
        | _, _ => False
        end.

Lemma new_extent_server_ok now : server_ok (new_extent_server now).
Proof.
  intros id. simpl. destruct (decide (id = 1%Z)) as [->|Hne].
  - by rewrite !lookup_singleton_eq.
  - by rewrite !lookup_singleton_ne.
Qed.

(** What each operation does under the invariant, as a function of the contents. *)
Lemma es_put_spec now s id buf r :
  ∃ s', es_put now s (id, buf) r = Ok (s', r, extent_protocol.OK) ∧
    content_map s' = <[id := buf]> (content_map s) ∧ (server_ok s → server_ok s').
Proof.
  eexists. split; [reflexivity|]. split; [done|]. intros Hok id'. simpl.
  specialize (Hok id'). destruct (decide (id' = id)) as [->|Hne].
  - rewrite lookup_insert_eq. by destruct (attr_map s !! id); rewrite lookup_insert_eq.
  - rewrite lookup_insert_ne by done. by destruct (attr_map s !! id); rewrite lookup_insert_ne by done.
Qed.

Lemma es_get_spec now s id buf :
  server_ok s →
  ∃ s', es_get now s id buf
        = Ok (s', default buf (content_map s !! id),
              if content_map s !! id then extent_protocol.OK else extent_protocol.IOERR) ∧
    content_map s' = content_map s ∧ server_ok s'.
Proof.
  intros Hok. unfold es_get. pose proof (Hok id) as Hid.
  destruct (content_map s !! id) as [c|] eqn:Ec, (attr_map s !! id) as [a|] eqn:Ea; try done.
  - eexists. split; [done|]. split; [done|]. intros id'. simpl. specialize (Hok id').
    destruct (decide (id' = id)) as [->|Hne].
    + by rewrite lookup_insert_eq, Ec.
    + by rewrite lookup_insert_ne.
  - by eexists.
Qed.

Lemma es_getattr_spec s id a :
  server_ok s →
  ∃ a', es_getattr s id a
        = Ok (s, a', if content_map s !! id then extent_protocol.OK else extent_protocol.IOERR) ∧
    ∀ c, content_map s !! id = Some c → a_size a' = u32 (size c).
Proof.
  intros Hok. unfold es_getattr. specialize (Hok id).
  destruct (content_map s !! id), (attr_map s !! id); try done; eexists; (split; [done|]); naive_solver.
Qed.

Lemma es_remove_spec s id r :
  server_ok s →
  ∃ s', es_remove s id r
        = Ok (s', r, if content_map s !! id then extent_protocol.OK else extent_protocol.IOERR) ∧
    content_map s' = delete id (content_map s) ∧ server_ok s'.
Proof.
  intros Hok. unfold es_remove. pose proof (Hok id) as Hid.
  destruct (content_map s !! id) as [c|] eqn:Ec, (attr_map s !! id) as [a|] eqn:Ea; try done.
  - eexists. split; [done|]. split; [done|]. intros id'. simpl. specialize (Hok id').
    destruct (decide (id' = id)) as [->|Hne]; [by rewrite !lookup_delete_eq|by rewrite !lookup_delete_ne].
  - exists s. split_and!; [done| |done]. by rewrite delete_id.
Qed.

(** ** Refinement: the server implements a map from extent ids to contents *)
Inductive es_request :=
  | ReqPut (now id : Z) (buf : bytes)
  | ReqGet (now id : Z)
  | ReqGetattr (id : Z)
  | ReqRemove (id : Z).
(** Status with the content, or with the size attribute. *)
Inductive es_reply := RepBuf (st : Z) (buf : bytes) | RepSize (st sz : Z) | RepStatus (st : Z).

(** The server's answer, with the fresh result variable of the handler template. *)
Definition es_serve (q : es_request) (s : extent_server) : outcome (es_reply * extent_server) :=
  match q with
  | ReqPut now id buf => '(s, _, st) ← es_put now s (id, buf) 0; Ok (RepStatus st, s)
  | ReqGet now id => '(s, buf, st) ← es_get now s id []; Ok (RepBuf st buf, s)
  | ReqGetattr id => '(s, a, st) ← es_getattr s id (Attr 0 0 0 0); Ok (RepSize st (a_size a), s)
  | ReqRemove id => '(s, _, st) ← es_remove s id 0; Ok (RepStatus st, s)
  end.
Fixpoint es_serve_all (qs : list es_request) (s : extent_server) :
    outcome (list es_reply * extent_server) :=
  match qs with
  | [] => Ok ([], s)
  | q :: qs => '(p, s) ← es_serve q s; '(ps, s) ← es_serve_all qs s; Ok (p :: ps, s)
  end.

(** The specification. *)
Definition found (m : gmap Z bytes) (id : Z) : Z :=
  if m !! id then extent_protocol.OK else extent_protocol.IOERR.
Definition spec_serve (q : es_request) (m : gmap Z bytes) : es_reply * gmap Z bytes :=
  match q with
  | ReqPut _ id buf => (RepStatus extent_protocol.OK, <[id := buf]> m)
  | ReqGet _ id => (RepBuf (found m id) (default [] (m !! id)), m)
  | ReqGetattr id => (RepSize (found m id) (u32 (size (default [] (m !! id)))), m)
  | ReqRemove id => (RepStatus (found m id), delete id m)
  end.
Fixpoint spec_serve_all (qs : list es_request) (m : gmap Z bytes) : list es_reply * gmap Z bytes :=
  match qs with
  | [] => ([], m)
  | q :: qs =>
      let '(p, m) := spec_serve q m in
      let '(ps, m) := spec_serve_all qs m in (p :: ps, m)
  end.

Lemma es_serve_refines q s :
  server_ok s →
  ∃ s', es_serve q s = Ok ((spec_serve q (content_map s)).1, s') ∧
    content_map s' = (spec_serve q (content_map s)).2 ∧ server_ok s'.
Proof.
  intros Hok. destruct q as [now id buf|now id|id|id]; cbn [es_serve spec_serve fst snd]; unfold found.
  - destruct (es_put_spec now s id buf 0) as (s' & -> & Hc & Hok'). run. eauto.
  - destruct (es_get_spec now s id [] Hok) as (s' & -> & Hc & Hok'). run. eauto.
  - unfold es_getattr. pose proof (Hok id) as Hid.
    destruct (content_map s !! id), (attr_map s !! id) as [a|]; try done; run; simpl; rewrite ?Hid; eauto.
  - destruct (es_remove_spec s id 0 Hok) as (s' & -> & Hc & Hok'). run. eauto.
Qed.

(** C17: The extent server implements a map: in any sequence of put, get, getattr and
    remove requests from its start, every answer is the one of a finite map from
    extent ids to contents that starts with the empty root extent; the size
    attribute is the size of the content modulo 2^32. *)
Theorem extent_server_refines now qs :
  ∃ s', es_serve_all qs (new_extent_server now) = Ok ((spec_serve_all qs {[1%Z := []]}).1, s') ∧
    content_map s' = (spec_serve_all qs {[1%Z := []]}).2.
Proof.
  change {[1%Z := []]} with (content_map (new_extent_server now)).
  generalize (new_extent_server_ok now). generalize (new_extent_server now). intros s.
  revert s. induction qs as [|q qs IH]; intros s Hok; cbn [es_serve_all spec_serve_all].
  { by exists s. }
  destruct (es_serve_refines q s Hok) as (s1 & -> & Hc & Hok1). run.
  destruct (IH s1 Hok1) as (s2 & -> & Hc2). run. rewrite Hc in *.
  destruct (spec_serve q (content_map s)) as [p m]. cbn [fst snd] in *.
  destruct (spec_serve_all qs m) as [ps m2]. by exists s2.
Qed.

(** [main] registers its four procedures (and bind) under different numbers. *)
Lemma extent_main_registers junk now nonce count :
  ∃ s, extent_main junk now nonce count = Ok s ∧
    s_procs s !! extent_protocol.get = Some (h1 (ull_codec junk) (string_codec junk) (es_get now)) ∧
    s_procs s !! extent_protocol.getattr = Some (h1 (ull_codec junk) (attr_codec junk) es_getattr) ∧
    s_procs s !! extent_protocol.put
      = Some (h1 (pair_codec (ull_codec junk) (string_codec junk)) (int_codec junk) (es_put now)) ∧
    s_procs s !! extent_protocol.remove = Some (h1 (ull_codec junk) (int_codec junk) es_remove).
Proof. eexists. split; [reflexivity|]. split_and!; reflexivity. Qed.
