(* ===== verification/Wire.v ===== *)
(** * The types that are marshalled (rpc/marshall.h, rpc/rpc.cc, extent_protocol.h)

    All the types with an [operator<<] and an [operator>>], as a universe: the integers
    of every width, characters, strings, the attributes of an extent, and vectors, maps and
    argument lists of those.  Their round trip. *)

From stdpp Require Import base tactics numbers list gmap strings.
From Stdlib Require Import ZArith Lia Ascii.
From S2P Require Import Prelude CxxString Marshall RpcServer ExtentServer.

(** The integer types, which are also those of the keys of a map. *)
Inductive int_type := TUshort | TShort | TUint | TInt | TUll.
Inductive wire_type :=
  | TBool
  | TChar
  | TNum (n : int_type)
  | TString
  | TAttr
  | TVector (t : wire_type)
  | TMap (k : int_type) (t : wire_type)
  | TArgs (t u : wire_type).

Fixpoint wire_val (t : wire_type) : Type :=
  match t with
  | TBool => bool
  | TChar => ascii
  | TNum _ => Z
  | TString => bytes
  | TAttr => extent_protocol.attr
  | TVector t => list (wire_val t)
  | TMap _ t => gmap Z (wire_val t)
  | TArgs t u => wire_val t * wire_val u
  end.

Section wire.
Context (junk : nat → ascii).

Definition int_codec_of (n : int_type) : codec Z :=
  match n with
  | TUshort => ushort_codec junk
  | TShort => short_codec junk
  | TUint => uint_codec junk
  | TInt => int_codec junk
  | TUll => ull_codec junk
  end.

(** The operators of a type. *)
Fixpoint codec_of (t : wire_type) : codec (wire_val t) :=
  match t with
  | TBool => bool_codec junk
  | TChar => char_codec junk
  | TNum n => int_codec_of n
  | TString => string_codec junk
  | TAttr => attr_codec junk
  | TVector t => vector_codec junk (codec_of t)
  | TMap k t => map_codec junk (int_codec_of k) (codec_of t)
  | TArgs t u => pair_codec (codec_of t) (codec_of u)
  end.
End wire.

(** The values of a type: numbers in its range, strings and collections that fit. *)
Definition int_valid (n : int_type) (x : Z) : Prop :=
  match n with
  | TUshort => is_u16 x
  | TShort => is_i16 x
  | TUint => is_u32 x
  | TInt => is_i32 x
  | TUll => is_u64 x
  end.
Fixpoint wire_valid (t : wire_type) : wire_val t → Prop :=
  match t with
  | TBool | TChar => λ _, True
  | TNum n => int_valid n
  | TString => λ s, (size s < max_packet)%Z
  | TAttr => attr_ok
  | TVector t => λ v, Forall (wire_valid t) v ∧ is_u32 (Z.of_nat (length v))
  | TMap k t => λ d, map_Forall (λ a b, int_valid k a ∧ wire_valid t b) d ∧ is_u32 (Z.of_nat (base.size d))
  | TArgs t u => λ p, wire_valid t p.1 ∧ wire_valid u p.2
  end.

(** The bytes of a value. *)
Definition int_bytes (n : int_type) : Z → bytes :=
  match n with
  | TUshort => enc_ushort
  | TShort => enc_short
  | TUint => enc_uint
  | TInt => enc_int
  | TUll => enc_ull
  end.
Fixpoint wire_bytes (t : wire_type) : wire_val t → bytes :=
  match t with
  | TBool => enc_bool
  | TChar => enc_char
  | TNum n => int_bytes n
  | TString => enc_string
  | TAttr => enc_attr
  | TVector t => enc_vector (wire_bytes t)
  | TMap k t => enc_map (int_bytes k) (wire_bytes t)
  | TArgs t u => enc_pair (wire_bytes t) (wire_bytes u)
  end.

#[global] Instance int_codec_of_ok junk n : CodecOK (int_codec_of junk n) (int_valid n) (int_bytes n).
Proof. destruct n; apply _. Qed.
#[global] Instance codec_of_ok junk t : CodecOK (codec_of junk t) (wire_valid t) (wire_bytes t).
Proof. induction t; simpl; apply _. Qed.

(** ** Property *)

(** C18: Whatever is written with [operator<<] is read back with [operator>>]: for a
    value of any of the types of the program (booleans, characters, integers of all
    widths, strings, attributes, and vectors, maps and argument lists of those) whose
    numbers are in the range of their types and whose bytes with the header of 24 fit into
    the largest packet of 10 MB, the content of the buffer is the value's bytes, and taken
    into a fresh [unmarshall] it yields the value and leaves nothing over. *)
Theorem marshall_roundtrip t junk junk' (x : wire_val t) :
  wire_valid t x → (24 + size (wire_bytes t x) < max_packet)%Z →
  ∃ m s u, put (codec_of junk t) x (new_marshall junk) = Ok m ∧ get_content m = Ok s ∧ s = wire_bytes t x ∧
    get (codec_of junk t) (dflt (codec_of junk t)) (take_content junk' s) = Ok (x, u) ∧ okdone u = true.
Proof.
  intros Hx Hsz. destruct (codec_roundtrip (codec_of junk t) (wire_valid t) (wire_bytes t) junk junk' x Hx Hsz)
    as (m & u & E1 & E2 & E3 & E4). by exists m, (wire_bytes t x), u.
Qed.

(** The arguments of a call with a list of names, a table and two numbers. *)
Definition ex_wire : wire_type := TArgs (TVector TString) (TArgs (TMap TUll TBool) (TArgs (TNum TShort) (TNum TUll))).
Definition ex_value : wire_val ex_wire :=
  ([lit "ab"; []; lit "c"], (({[5%Z := true]} : gmap Z bool), ((-3)%Z, (2 ^ 40 + 7)%Z))).
Lemma marshall_roundtrip_witness : let c := codec_of (λ _, NUL) ex_wire in
  ∃ m s u, put c ex_value (new_marshall (λ _, NUL)) = Ok m ∧ get_content m = Ok s ∧ size s = 42%Z ∧
    get c (dflt c) (take_content (λ _, NUL) s) = Ok (ex_value, u) ∧ okdone u = true.
Proof.
  intros c. destruct (marshall_roundtrip ex_wire (λ _, NUL) (λ _, NUL) ex_value) as (m & s & u & E1 & E2 & E3 & E4 & E5).
  - split; simpl; [split; [by repeat constructor|done]|]. split; [split; [|done]|split; simpl; lia].
    apply map_Forall_singleton. split; [simpl; lia|done].
  - vm_compute. reflexivity.
  - exists m, s, u. split; [exact E1|]. split; [exact E2|]. split; [rewrite E3; vm_compute; reflexivity|]. split; [exact E4|exact E5].
Defined.
