(* ===== verification/ExtentClient.v ===== *)
(** * The caching extent client (extent_client.h, extent_client.cc)

    Contents and attributes are cached, writes stay in the cache until [flush].
    The remote calls go through the contract [remote] of RpcCall.v: [o] says what
    becomes of the call. *)

From stdpp Require Import base tactics numbers list gmap sets strings.
From Stdlib Require Import ZArith Lia Ascii.
From S2P Require Import Prelude CxxString Marshall Connection RpcServer RpcTime RpcClient RpcCall ExtentServer.
Import extent_protocol (attr, Attr, atime, mtime, ctime, a_size).

Record extent_client := ExtentClient {
  content_map_cache : gmap Z bytes;
  attr_map_cache : gmap Z attr;
  dirty_eid_set : gset Z }.

(** [extent_client::extent_client] *)
Definition new_extent_client : extent_client := ExtentClient ∅ ∅ ∅.

(** [extent_client::get]; [buf] is the caller's variable. *)
Definition ec_get (o : rpc_outcome) (now : Z) (eid : Z) (buf : bytes)
    (c : extent_client) (s : extent_server) : outcome (Z * bytes * extent_client * extent_server) :=
  match content_map_cache c !! eid with
  | Some b => Ok (extent_protocol.OK, b, c, s)
  | None =>
      '(ret, buf, s) ← remote o (es_get now) [] eid buf s;
      let c := if (ret =? extent_protocol.OK)%Z
               then ExtentClient (<[eid := buf]> (content_map_cache c)) (attr_map_cache c) (dirty_eid_set c)
               else c in
      Ok (ret, buf, c, s)
  end.

(** [extent_client::getattr] *)
Definition ec_getattr (o : rpc_outcome) (eid : Z) (a : attr)
    (c : extent_client) (s : extent_server) : outcome (Z * attr * extent_client * extent_server) :=
  match attr_map_cache c !! eid with
  | Some a => Ok (extent_protocol.OK, a, c, s)
  | None =>
      '(ret, a, s) ← remote o es_getattr (Attr 0 0 0 0) eid a s;
      let c := if (ret =? extent_protocol.OK)%Z
               then ExtentClient (content_map_cache c) (<[eid := a]> (attr_map_cache c)) (dirty_eid_set c)
               else c in
      Ok (ret, a, c, s)
  end.

(** [extent_client::put] *)
Definition ec_put (now : Z) (eid : Z) (buf : bytes) (c : extent_client) : Z * extent_client :=
  (extent_protocol.OK,
   ExtentClient (<[eid := buf]> (content_map_cache c))
     (<[eid := new_attr now (size buf)]> (attr_map_cache c))
     ({[eid]} ∪ dirty_eid_set c)).

(** [extent_client::remove] *)
Definition ec_remove (eid : Z) (c : extent_client) : Z * extent_client :=
  (extent_protocol.OK,
   ExtentClient (delete eid (content_map_cache c)) (delete eid (attr_map_cache c)) (dirty_eid_set c)).

(** [extent_client::flush]; [content_map_cache[eid]] of a missing key is created
    empty. *)
Definition ec_flush (o : rpc_outcome) (now : Z) (eid : Z)
    (c : extent_client) (s : extent_server) : outcome (Z * extent_client * extent_server) :=
  '(ret, c, s) ←
    (if decide (eid ∈ dirty_eid_set c) then
       let buf := default [] (content_map_cache c !! eid) in
       '(ret, _, s) ← remote o (es_put now) 0%Z (eid, buf) 0%Z s;
       Ok (ret, ExtentClient (<[eid := buf]> (content_map_cache c)) (attr_map_cache c)
                  (dirty_eid_set c ∖ {[eid]}), s)
     else Ok (extent_protocol.OK, c, s));
  Ok (ret, (ec_remove eid c).2, s).

(** ** What a client sees *)

(** The content of an extent as this client reads it. *)
Definition view (c : extent_client) (s : extent_server) (eid : Z) : option bytes :=
  match content_map_cache c !! eid with
  | Some b => Some b
  | None => content_map s !! eid
  end.

(** Invariant of client and server, for a client that has exclusive use of what it
    caches: clean entries are copies, dirty ones are complete, cached attributes
    have the right size. *)
Definition cache_ok (c : extent_client) (s : extent_server) : Prop :=
  server_ok s ∧
  ∀ eid,
    (eid ∈ dirty_eid_set c → is_Some (content_map_cache c !! eid) ∧ is_Some (attr_map_cache c !! eid)) ∧
    (eid ∉ dirty_eid_set c → ∀ b, content_map_cache c !! eid = Some b → content_map s !! eid = Some b) ∧
    (∀ a, attr_map_cache c !! eid = Some a →
       ∃ b, view c s eid = Some b ∧ a_size a = u32 (size b)).

Lemma new_client_ok now : cache_ok new_extent_client (new_extent_server now).
Proof.
  split; [apply new_extent_server_ok|]. intros eid. simpl. split_and!.
  - set_solver.
  - intros _ b. by rewrite lookup_empty.
  - intros a. by rewrite lookup_empty.
Qed.

Lemma view_get c s eid eid' b :
  view c s eid = Some b →
  view (ExtentClient (<[eid := b]> (content_map_cache c)) (attr_map_cache c) (dirty_eid_set c)) s eid'
  = view c s eid'.
Proof.
  unfold view. simpl. destruct (decide (eid' = eid)) as [->|Hne].
  - by rewrite lookup_insert_eq.
  - by rewrite lookup_insert_ne.
Qed.

Lemma view_ext c s s' eid : content_map s' = content_map s → view c s' eid = view c s eid.
Proof. unfold view. by intros ->. Qed.

Lemma cache_ok_same c s s' :
  content_map s' = content_map s → server_ok s' → cache_ok c s → cache_ok c s'.
Proof.
  intros Hc Hok' [Hok H]. split; [done|]. intros eid. destruct (H eid) as (H1 & H2 & H3).
  rewrite Hc, (view_ext c s s' eid Hc). done.
Qed.

Lemma ec_get_spec now eid buf c s :
  cache_ok c s →
  ∃ c' s', ec_get Delivered now eid buf c s
    = Ok (if view c s eid then extent_protocol.OK else extent_protocol.IOERR,
          default [] (view c s eid), c', s') ∧
    cache_ok c' s' ∧ content_map s' = content_map s ∧ dirty_eid_set c' = dirty_eid_set c ∧
    (∀ eid', view c' s' eid' = view c s eid') ∧
    (∀ eid', eid' ≠ eid → content_map_cache c' !! eid' = content_map_cache c !! eid') ∧
    attr_map_cache c' = attr_map_cache c.
Proof.
  intros Hcache. pose proof Hcache as [Hok H]. unfold ec_get.
  destruct (content_map_cache c !! eid) as [b|] eqn:Ec.
  { exists c, s. unfold view. by rewrite Ec. }
  cbn [remote]. destruct (es_get_spec now s eid [] Hok) as (s' & -> & Hcs & Hok'). run.
  assert (view c s eid = content_map s !! eid) as Ev by (unfold view; by rewrite Ec).
  rewrite Ev. destruct (content_map s !! eid) as [b|] eqn:Es.
  - change (extent_protocol.OK =? extent_protocol.OK)%Z with true. cbn [default].
    assert (∀ eid', view (ExtentClient (<[eid:=b]> (content_map_cache c)) (attr_map_cache c)
        (dirty_eid_set c)) s' eid' = view c s eid') as Hview.
    { intros eid'. rewrite (view_ext _ s s' _ Hcs). by apply view_get. }
    eexists _, s'. split; [done|]. split_and!; try done.
    + split; [done|]. intros eid'. destruct (H eid') as (H1 & H2 & H3). rewrite Hview, Hcs. simpl.
      destruct (decide (eid' = eid)) as [->|Hne].
      * rewrite lookup_insert_eq. split_and!; [|naive_solver|done].
        intros Hd. destruct (H1 Hd) as [[? ?] _]. congruence.
      * by rewrite lookup_insert_ne.
    + intros eid' Hne. simpl. by rewrite lookup_insert_ne.
  - change (extent_protocol.IOERR =? extent_protocol.OK)%Z with false.
    exists c, s'. split_and!; try done; [by eapply cache_ok_same|]. intros eid'. by apply view_ext.
Qed.

Lemma ec_getattr_spec eid a c s :
  cache_ok c s →
  ∃ a' c', ec_getattr Delivered eid a c s
    = Ok (if view c s eid then extent_protocol.OK else extent_protocol.IOERR, a', c', s) ∧
    (∀ b, view c s eid = Some b → a_size a' = u32 (size b)) ∧
    cache_ok c' s ∧ content_map_cache c' = content_map_cache c ∧ dirty_eid_set c' = dirty_eid_set c ∧
    (∀ eid', view c' s eid' = view c s eid') ∧
    (∀ eid', eid' ≠ eid → attr_map_cache c' !! eid' = attr_map_cache c !! eid').
Proof.
  intros Hcache. pose proof Hcache as [Hok H]. unfold ec_getattr.
  destruct (attr_map_cache c !! eid) as [a'|] eqn:Ea.
  { destruct (H eid) as (_ & _ & H3). destruct (H3 a' Ea) as (b & -> & Hb).
    exists a', c. split_and!; try done. by intros ? [= <-]. }
  cbn [remote]. destruct (es_getattr_spec s eid (Attr 0 0 0 0) Hok) as (a' & -> & Ha'). run.
  destruct (H eid) as (H1 & H2 & _).
  assert (view c s eid = content_map s !! eid) as Ev.
  { unfold view. destruct (content_map_cache c !! eid) as [b|] eqn:Ec; [|done].
    destruct (decide (eid ∈ dirty_eid_set c)) as [Hd|Hd].
    - destruct (H1 Hd) as [_ [? ?]]. congruence.
    - symmetry. by apply H2. }
  rewrite Ev. destruct (content_map s !! eid) as [b|] eqn:Es.
  - change (extent_protocol.OK =? extent_protocol.OK)%Z with true. exists a'. eexists. split; [done|].
    split_and!; try done.
    + split; [done|]. intros eid'. destruct (H eid') as (H1' & H2' & H3'). simpl.
      destruct (decide (eid' = eid)) as [->|Hne].
      * rewrite lookup_insert_eq. split_and!; [naive_solver|done|]. intros ? [= <-].
        exists b. split; [|by apply Ha']. done.
      * by rewrite lookup_insert_ne.
    + intros eid' Hne. simpl. by rewrite lookup_insert_ne.
  - change (extent_protocol.IOERR =? extent_protocol.OK)%Z with false. exists a', c. by split_and!.
Qed.

Lemma ec_put_spec now eid buf c s :
  cache_ok c s →
  ∃ c', ec_put now eid buf c = (extent_protocol.OK, c') ∧ cache_ok c' s ∧
    view c' s eid = Some buf ∧ (∀ eid', eid' ≠ eid → view c' s eid' = view c s eid') ∧
    (∀ eid', eid' ≠ eid → content_map_cache c' !! eid' = content_map_cache c !! eid' ∧
       attr_map_cache c' !! eid' = attr_map_cache c !! eid').
Proof.
  intros [Hok H]. eexists. split; [reflexivity|]. unfold view. simpl. split_and!.
  - split; [done|]. intros eid'. destruct (H eid') as (H1 & H2 & H3). unfold view in *. simpl.
    destruct (decide (eid' = eid)) as [->|Hne].
    + rewrite !lookup_insert_eq. split_and!; [eauto|set_solver|]. intros a [= <-]. eauto.
    + rewrite !lookup_insert_ne by done. split_and!; [set_solver..|done].
  - by rewrite lookup_insert_eq.
  - intros eid' Hne. by rewrite lookup_insert_ne.
  - intros eid' Hne. by rewrite !lookup_insert_ne.
Qed.

(** After a delivered flush the server has what the client saw, and the client
    nothing any more. *)
Lemma ec_flush_spec now eid c s :
  cache_ok c s →
  ∃ c' s', ec_flush Delivered now eid c s = Ok (extent_protocol.OK, c', s') ∧ cache_ok c' s' ∧
    content_map s' !! eid = view c s eid ∧
    (∀ eid', eid' ≠ eid → content_map s' !! eid' = content_map s !! eid') ∧
    content_map_cache c' = delete eid (content_map_cache c) ∧
    attr_map_cache c' = delete eid (attr_map_cache c) ∧
    dirty_eid_set c' = dirty_eid_set c ∖ {[eid]}.
Proof.
  intros Hcache. pose proof Hcache as [Hok H]. unfold ec_flush.
  assert (∀ s' d, server_ok s' → content_map s' !! eid = view c s eid →
    (∀ eid', eid' ≠ eid → content_map s' !! eid' = content_map s !! eid') →
    d = dirty_eid_set c ∖ {[eid]} →
    cache_ok (ExtentClient (delete eid (content_map_cache c)) (delete eid (attr_map_cache c)) d) s')
    as Hend.
  { intros s' d Hok' He Hne ->. split; [done|]. intros eid'. destruct (H eid') as (H1 & H2 & H3).
    unfold view in *. simpl. destruct (decide (eid' = eid)) as [->|Hn].
    - rewrite !lookup_delete_eq. split_and!; [set_solver|naive_solver|naive_solver].
    - rewrite !lookup_delete_ne, Hne by done. split_and!; [set_solver..|done]. }
  destruct (H eid) as (H1 & H2 & _). case_decide as Hd.
  - destruct (H1 Hd) as [[b Eb] _]. rewrite Eb. change (default [] (Some b)) with b. cbn [remote].
    destruct (es_put_spec now s eid b 0) as (s' & -> & Hcs & Hok'). run.
    assert (view c s eid = Some b) as Ev by (unfold view; by rewrite Eb).
    eexists _, s'. split; [done|]. unfold ec_remove. cbn [snd content_map_cache attr_map_cache dirty_eid_set].
    rewrite delete_insert_eq. split_and!; try done.
    + apply Hend; [by apply Hok'| | |done].
      * by rewrite Hcs, lookup_insert_eq.
      * intros. by rewrite Hcs, lookup_insert_ne.
    + by rewrite Hcs, lookup_insert_eq.
    + intros. by rewrite Hcs, lookup_insert_ne.
  - run. assert (content_map s !! eid = view c s eid) as Ev.
    { unfold view. destruct (content_map_cache c !! eid) as [b|] eqn:Eb; [|done]. by apply H2. }
    assert (dirty_eid_set c = dirty_eid_set c ∖ {[eid]}) as Es by set_solver.
    eexists _, s. split; [done|]. split_and!; try done. by apply Hend.
Qed.

(** ** Properties *)

(** Under exclusive use a client reads its own writes and loses nothing: a get
    returns what the last put stored, with the matching size attribute, and once a
    delivered flush has emptied the cache the server holds exactly that content. *)
Theorem read_your_writes now now' now'' eid buf b0 a0 c s :
  cache_ok c s →
  ∃ c1 c2 c3 a c4 s4,
    ec_put now eid buf c = (extent_protocol.OK, c1) ∧
    ec_get Delivered now' eid b0 c1 s = Ok (extent_protocol.OK, buf, c2, s) ∧
    ec_getattr Delivered eid a0 c2 s = Ok (extent_protocol.OK, a, c3, s) ∧
    a_size a = u32 (size buf) ∧
    ec_flush Delivered now'' eid c3 s = Ok (extent_protocol.OK, c4, s4) ∧
    content_map s4 = <[eid := buf]> (content_map s) ∧
    content_map_cache c4 !! eid = None ∧ eid ∉ dirty_eid_set c4 ∧ cache_ok c4 s4.
Proof.
  intros Hok. destruct (ec_put_spec now eid buf c s Hok) as (c1 & Ep & Hok1 & Hv & _ & _).
  assert (content_map_cache c1 !! eid = Some buf) as Ec1.
  { injection Ep as <-. apply lookup_insert_eq. }
  assert (ec_get Delivered now' eid b0 c1 s = Ok (extent_protocol.OK, buf, c1, s)) as Eg
    by (unfold ec_get; by rewrite Ec1).
  destruct (ec_getattr_spec eid a0 c1 s Hok1) as (a & c3 & Ea & Ha & Hok3 & Hc3 & Hd3 & Hv3 & _).
  destruct (ec_flush_spec now'' eid c3 s Hok3) as (c4 & s4 & Ef & Hok4 & Hs4 & Hne & Hcc & _ & Hd4).
  exists c1, c1, c3, a, c4, s4. rewrite Hv in Ea. rewrite Hv3, Hv in Hs4.
  split_and!; try done.
  - by apply Ha.
  - apply map_eq. intros eid'. destruct (decide (eid' = eid)) as [->|Hn].
    + by rewrite lookup_insert_eq.
    + by rewrite lookup_insert_ne, Hne.
  - by rewrite Hcc, lookup_delete_eq.
  - rewrite Hd4. set_solver.
Qed.

Lemma read_your_writes_witness :
  ∃ c4 s4, ec_flush Delivered 9 5 (ec_put 7 5 (lit "ab") new_extent_client).2 (new_extent_server 1)
           = Ok (extent_protocol.OK, c4, s4) ∧
    content_map s4 = <[5%Z := lit "ab"]> (content_map (new_extent_server 1)).
Proof.
  destruct (read_your_writes 7 8 9 5 (lit "ab") [] (Attr 0 0 0 0) new_extent_client
    (new_extent_server 1) (new_client_ok 1))
    as (c1 & c2 & c3 & a & c4 & s4 & Ep & Eg & Ea & _ & Ef & Hs & _).
  injection Ep as <-. injection Eg as <-. vm_compute in Ea. injection Ea as <- <-.
  exists c4, s4. split; [exact Ef|exact Hs].
Defined.

(** A removal is never sent to the server, and leaves the dirty mark: when an
    extent that was written is removed and then flushed, the server ends up with an
    empty extent under that id instead of none. *)
Theorem removed_extent_comes_back now now' eid buf c s :
  ∃ c' s',
    ec_flush Delivered now' eid (ec_remove eid (ec_put now eid buf c).2).2 s
    = Ok (extent_protocol.OK, c', s') ∧ content_map s' !! eid = Some [].
Proof.
  unfold ec_flush, ec_remove, ec_put. cbn [snd content_map_cache dirty_eid_set].
  rewrite decide_True by set_solver. rewrite lookup_delete_eq. change (default [] None) with (@nil ascii).
  cbn [remote]. destruct (es_put_spec now' s eid [] 0) as (s' & -> & Hc & _). run.
  eexists _, s'. split; [done|]. by rewrite Hc, lookup_insert_eq.
Qed.

(** A flush whose remote call fails drops the write: the dirty mark and the
    cached content are gone all the same, and the client then sees what the server
    had before. *)
Theorem failed_flush_loses_write now now' code eid buf c s :
  ∃ c', ec_flush (Failed code false) now' eid (ec_put now eid buf c).2 s = Ok (code, c', s) ∧
    eid ∉ dirty_eid_set c' ∧ view c' s eid = content_map s !! eid.
Proof.
  unfold ec_flush, ec_put, view. cbn [snd content_map_cache dirty_eid_set attr_map_cache].
  rewrite decide_True by set_solver. cbn [remote]. run. eexists. split; [done|].
  unfold ec_remove. cbn [snd content_map_cache dirty_eid_set]. split; [set_solver|].
  by rewrite lookup_delete_eq.
Qed.
