(* ===== verification/Coherence.v ===== *)
(** * Cache coherence of several extent clients under the lock discipline

    The clients of one extent server, each with its own cache.  The file system
    uses an extent only while it holds the lock of the same number, and the lock
    client flushes the extent before it gives the lock back
    ([lock_release_action::dorelease], lock_client_cache.h).  Under that discipline the
    caches together implement one map. *)

From stdpp Require Import base tactics numbers list gmap sets strings.
From Stdlib Require Import ZArith Lia Ascii.
From S2P Require Import Prelude CxxString Marshall Connection RpcServer RpcTime RpcClient RpcCall ExtentServer ExtentClient.
Import extent_protocol (attr, Attr, a_size).

Record system := System {
  sy_server : extent_server;
  sy_clients : gmap bytes extent_client;
  sy_owner : gmap Z bytes }.

Definition client_of (σ : system) (i : bytes) : extent_client :=
  default new_extent_client (sy_clients σ !! i).

(** What client [i] does; [Release] is the flush that goes before giving the lock
    back. *)
Inductive coh_op :=
  | Acquire (i : bytes) (eid : Z)
  | Release (i : bytes) (eid now : Z)
  | Get (i : bytes) (eid now : Z)
  | Getattr (i : bytes) (eid : Z)
  | Put (i : bytes) (eid : Z) (buf : bytes) (now : Z).
Inductive coh_reply := CDone | CBuf (st : Z) (buf : bytes) | CSize (st : Z) (sz : option Z).

Definition set_client (σ : system) (i : bytes) (c : extent_client) (s : extent_server) : system :=
  System s (<[i := c]> (sy_clients σ)) (sy_owner σ).

Definition coh_exec (op : coh_op) (σ : system) : outcome (coh_reply * system) :=
  match op with
  | Acquire i eid =>
      Ok (CDone, System (sy_server σ) (sy_clients σ) (<[eid := i]> (sy_owner σ)))
  | Release i eid now =>
      '(_, c, s) ← ec_flush Delivered now eid (client_of σ i) (sy_server σ);
      Ok (CDone, System s (<[i := c]> (sy_clients σ)) (delete eid (sy_owner σ)))
  | Get i eid now =>
      '(st, buf, c, s) ← ec_get Delivered now eid [] (client_of σ i) (sy_server σ);
      Ok (CBuf st buf, set_client σ i c s)
  | Getattr i eid =>
      '(st, a, c, s) ← ec_getattr Delivered eid (Attr 0 0 0 0) (client_of σ i) (sy_server σ);
      Ok (CSize st (if (st =? extent_protocol.OK)%Z then Some (a_size a) else None), set_client σ i c s)
  | Put i eid buf now =>
      let '(st, c) := ec_put now eid buf (client_of σ i) in
      Ok (CSize st None, set_client σ i c (sy_server σ))
  end.

Fixpoint coh_run (ops : list coh_op) (σ : system) : outcome (list coh_reply * system) :=
  match ops with
  | [] => Ok ([], σ)
  | op :: ops => '(r, σ) ← coh_exec op σ; '(rs, σ) ← coh_run ops σ; Ok (r :: rs, σ)
  end.

(** The discipline: a lock has one holder, and only the holder of [eid] uses it. *)
Definition permitted (op : coh_op) (owner : gmap Z bytes) : Prop :=
  match op with
  | Acquire _ eid => owner !! eid = None
  | Release i eid _ | Get i eid _ | Getattr i eid | Put i eid _ _ => owner !! eid = Some i
  end.
Definition owner_after (op : coh_op) (owner : gmap Z bytes) : gmap Z bytes :=
  match op with
  | Acquire i eid => <[eid := i]> owner
  | Release _ eid _ => delete eid owner
  | _ => owner
  end.
Fixpoint disciplined (ops : list coh_op) (owner : gmap Z bytes) : Prop :=
  match ops with
  | [] => True
  | op :: ops => permitted op owner ∧ disciplined ops (owner_after op owner)
  end.

(** The specification: one map, no caches, no locks. *)
Definition coh_spec (op : coh_op) (m : gmap Z bytes) : coh_reply * gmap Z bytes :=
  match op with
  | Acquire _ _ | Release _ _ _ => (CDone, m)
  | Get _ eid _ => (CBuf (found m eid) (default [] (m !! eid)), m)
  | Getattr _ eid => (CSize (found m eid) ((λ b, u32 (size b)) <$> m !! eid), m)
  | Put _ eid buf _ => (CSize extent_protocol.OK None, <[eid := buf]> m)
  end.
Fixpoint coh_spec_run (ops : list coh_op) (m : gmap Z bytes) : list coh_reply :=
  match ops with
  | [] => []
  | op :: ops => let '(r, m) := coh_spec op m in r :: coh_spec_run ops m
  end.

(** ** The simulation relation *)

(** A client caches only what it owns. *)
Definition caches_only (c : extent_client) (P : Z → Prop) : Prop :=
  ∀ eid, is_Some (content_map_cache c !! eid) ∨ is_Some (attr_map_cache c !! eid) ∨
         eid ∈ dirty_eid_set c → P eid.

Definition value (σ : system) (eid : Z) : option bytes :=
  match sy_owner σ !! eid with
  | Some i => view (client_of σ i) (sy_server σ) eid
  | None => content_map (sy_server σ) !! eid
  end.

Definition coh_inv (σ : system) (m : gmap Z bytes) : Prop :=
  (∀ i, cache_ok (client_of σ i) (sy_server σ)) ∧
  (∀ i, caches_only (client_of σ i) (λ eid, sy_owner σ !! eid = Some i)) ∧
  (∀ eid, value σ eid = m !! eid).

Lemma client_of_insert s cl ow i j c :
  client_of (System s (<[i := c]> cl) ow) j
  = if decide (j = i) then c else default new_extent_client (cl !! j).
Proof.
  unfold client_of. simpl. case_decide; [subst; by rewrite lookup_insert_eq|by rewrite lookup_insert_ne].
Qed.

(** A change of the server at extents a client does not cache does not matter to it. *)
Lemma cache_ok_elsewhere c s s' :
  server_ok s' → cache_ok c s →
  (∀ eid, is_Some (content_map_cache c !! eid) ∨ is_Some (attr_map_cache c !! eid) →
     content_map s' !! eid = content_map s !! eid) →
  cache_ok c s'.
Proof.
  intros Hok' [_ H] Hs. split; [done|]. intros eid. destruct (H eid) as (H1 & H2 & H3). split_and!.
  - done.
  - intros Hd b Hb. rewrite Hs by eauto. by apply H2.
  - intros a Ha. destruct (H3 a Ha) as (b & Hb & Hsz). exists b. split; [|done].
    unfold view in *. rewrite Hs by eauto. done.
Qed.

(** The holder's operation on its own extent, with the client state [c'] and server
    [s'] it leaves behind. *)
Lemma coh_inv_holder σ m i eid c' s' v :
  coh_inv σ m → sy_owner σ !! eid = Some i → cache_ok c' s' →
  (∀ eid', eid' ≠ eid →
     content_map_cache c' !! eid' = content_map_cache (client_of σ i) !! eid' ∧
     attr_map_cache c' !! eid' = attr_map_cache (client_of σ i) !! eid' ∧
     (eid' ∈ dirty_eid_set c' → eid' ∈ dirty_eid_set (client_of σ i))) →
  content_map s' = content_map (sy_server σ) → view c' s' eid = v →
  coh_inv (set_client σ i c' s') (partial_alter (λ _, v) eid m).
Proof.
  intros (Hok & Hown & Hval) Ho Hok' Hother Hs Hv. unfold set_client. split_and!.
  - intros j. rewrite client_of_insert. simpl. case_decide; [done|].
    eapply cache_ok_same; [done|apply Hok'|]. apply (Hok j).
  - intros j. rewrite client_of_insert. simpl. case_decide as Hj; [subst j|apply (Hown j)].
    intros eid' Hc. destruct (decide (eid' = eid)) as [->|Hne]; [done|].
    destruct (Hother eid' Hne) as (E1 & E2 & E3). apply (Hown i). rewrite E1, E2 in Hc. intuition.
  - intros eid'. unfold value. simpl. destruct (decide (eid' = eid)) as [->|Hne].
    + rewrite Ho, client_of_insert, decide_True by done. by rewrite lookup_partial_alter_eq.
    + rewrite lookup_partial_alter_ne by done. rewrite <- Hval. unfold value.
      destruct (sy_owner σ !! eid') as [j|]; [|by rewrite Hs].
      rewrite client_of_insert. unfold view. rewrite Hs. case_decide as Hj; [|done].
      subst j. by destruct (Hother eid' Hne) as (-> & _).
Qed.

Lemma partial_alter_const_id {A} (m : gmap Z A) k v : m !! k = v → partial_alter (λ _, v) k m = m.
Proof.
  intros E. apply map_eq. intros k'. destruct (decide (k' = k)) as [->|].
  - by rewrite lookup_partial_alter_eq.
  - by rewrite lookup_partial_alter_ne.
Qed.

Lemma coh_inv_acquire σ m i eid :
  coh_inv σ m → sy_owner σ !! eid = None →
  coh_inv (System (sy_server σ) (sy_clients σ) (<[eid := i]> (sy_owner σ))) m.
Proof.
  intros (Hok & Hown & Hval) Ho. split_and!; [done| |].
  - intros j eid' Hc. simpl. pose proof (Hown j eid' Hc) as E.
    rewrite lookup_insert_ne; [done|]. congruence.
  - intros eid'. rewrite <- Hval. unfold value. simpl.
    destruct (decide (eid' = eid)) as [->|Hne]; [|by rewrite lookup_insert_ne].
    rewrite lookup_insert_eq, Ho. unfold view. change (client_of _ i) with (client_of σ i).
    destruct (content_map_cache (client_of σ i) !! eid) eqn:E; [|done].
    assert (sy_owner σ !! eid = Some i); [|congruence]. apply (Hown i). rewrite E. eauto.
Qed.

Lemma coh_inv_release σ m i eid now :
  coh_inv σ m → sy_owner σ !! eid = Some i →
  ∃ c s, ec_flush Delivered now eid (client_of σ i) (sy_server σ) = Ok (extent_protocol.OK, c, s) ∧
    coh_inv (System s (<[i := c]> (sy_clients σ)) (delete eid (sy_owner σ))) m.
Proof.
  intros (Hok & Hown & Hval) Ho.
  destruct (ec_flush_spec now eid _ _ (Hok i)) as (c & s & E & Hok' & He & Hne & Hcc & Hca & Hcd).
  exists c, s. split; [done|]. split_and!.
  - intros j. rewrite client_of_insert. simpl. case_decide as Hj; [done|].
    eapply cache_ok_elsewhere; [apply Hok'|apply (Hok j)|]. intros eid' Hc. apply Hne. intros ->.
    assert (sy_owner σ !! eid = Some j); [|congruence]. apply (Hown j). intuition.
  - intros j. rewrite client_of_insert. simpl. case_decide as Hj; intros eid' Hc.
    + subst j. rewrite Hcc, Hca, Hcd in Hc. rewrite lookup_delete_ne.
      * apply (Hown i). rewrite !lookup_delete_is_Some, elem_of_difference in Hc. naive_solver.
      * intros ->. rewrite !lookup_delete_eq in Hc. destruct Hc as [[? ?]|[[? ?]|?]]; [done..|set_solver].
    + pose proof (Hown j eid' Hc) as E'. rewrite lookup_delete_ne; [done|]. congruence.
  - intros eid'. rewrite <- Hval. unfold value. simpl. destruct (decide (eid' = eid)) as [->|Hn].
    + by rewrite lookup_delete_eq, He, Ho.
    + rewrite lookup_delete_ne by done. destruct (sy_owner σ !! eid') as [j|]; [|by apply Hne].
      rewrite client_of_insert. unfold view. rewrite Hne by done. case_decide as Hj; [|done].
      subst j. by rewrite Hcc, lookup_delete_ne.
Qed.

Lemma coh_exec_refines op σ m :
  coh_inv σ m → permitted op (sy_owner σ) →
  ∃ σ', coh_exec op σ = Ok ((coh_spec op m).1, σ') ∧ coh_inv σ' (coh_spec op m).2 ∧
    sy_owner σ' = owner_after op (sy_owner σ).
Proof.
  intros Hinv Hp. pose proof Hinv as (Hok & Hown & Hval).
  destruct op as [i eid|i eid now|i eid now|i eid|i eid buf now];
    cbn [permitted coh_exec coh_spec fst snd owner_after] in *.
  - eexists. split; [done|]. split; [by apply coh_inv_acquire|done].
  - destruct (coh_inv_release σ m i eid now Hinv Hp) as (c & s & -> & Hinv'). run.
    eexists. split; [done|]. by split.
  - assert (view (client_of σ i) (sy_server σ) eid = m !! eid) as Ev
      by (rewrite <- Hval; unfold value; by rewrite Hp).
    destruct (ec_get_spec now eid [] _ _ (Hok i)) as (c & s & -> & Hok' & Hs & Hd & Hv & Hc & Ha). run.
    eexists. split; [by rewrite Ev|]. split; [|done].
    rewrite <- (partial_alter_const_id m eid (m !! eid)) by done.
    apply coh_inv_holder; try done; [|by rewrite Hv, Ev].
    intros eid' Hne. rewrite Hc, Ha, Hd by done. done.
  - assert (view (client_of σ i) (sy_server σ) eid = m !! eid) as Ev
      by (rewrite <- Hval; unfold value; by rewrite Hp).
    destruct (ec_getattr_spec eid (Attr 0 0 0 0) _ _ (Hok i))
      as (a & c & -> & Ha & Hok' & Hc & Hd & Hv & Hca). run. rewrite Ev in *. eexists. split.
    { unfold found. destruct (m !! eid) as [b|] eqn:Em; [|done]. simpl.
      by rewrite (Ha b). }
    split; [|done]. rewrite <- (partial_alter_const_id m eid (m !! eid)) by done.
    apply coh_inv_holder; try done; [|by rewrite Hv, Ev].
    intros eid' Hne. by rewrite Hc, Hca, Hd.
  - destruct (ec_put_spec now eid buf _ _ (Hok i)) as (c & Ec & Hok' & Hv & _ & Hcc). rewrite Ec.
    eexists. split; [done|]. split; [|done]. unfold insert, map_insert.
    apply coh_inv_holder; try done. intros eid' Hne. destruct (Hcc eid' Hne) as [-> ->].
    split_and!; [done..|]. injection Ec as <-. simpl. set_solver.
Qed.

Lemma coh_inv_start now : coh_inv (System (new_extent_server now) ∅ ∅) {[1%Z := []]}.
Proof.
  split_and!.
  - intros i. unfold client_of. simpl. rewrite lookup_empty. apply new_client_ok.
  - intros i eid Hc. unfold client_of in Hc. simpl in Hc. rewrite lookup_empty in Hc. simpl in Hc.
    rewrite lookup_empty in Hc. destruct Hc as [[? ?]|[[? ?]|?]]; [done|done|set_solver].
  - intros eid. unfold value. simpl. by rewrite lookup_empty.
Qed.

(** The refinement of runs. *)
Lemma coh_run_refines ops σ m :
  coh_inv σ m → disciplined ops (sy_owner σ) → ∃ σ', coh_run ops σ = Ok (coh_spec_run ops m, σ').
Proof.
  revert σ m. induction ops as [|op ops IH]; intros σ m Hinv Hd; cbn [coh_run coh_spec_run]; [eauto|].
  destruct Hd as [Hp Hd]. destruct (coh_exec_refines op σ m Hinv Hp) as (σ1 & -> & Hinv1 & Ho). run.
  destruct (coh_spec op m) as [r m1]. cbn [fst snd] in *.
  destruct (IH σ1 m1 Hinv1) as (σ2 & -> ); [by rewrite Ho|]. run. eauto.
Qed.

(** Cache coherence.  Any number of caching clients that use an extent only while
    holding its lock, and flush it before giving the lock back, together behave as
    one map of extents without caches: every get by whoever holds the lock returns
    the content of the last put by anyone, and every getattr its size. *)
Theorem caches_coherent now ops :
  disciplined ops ∅ →
  ∃ σ', coh_run ops (System (new_extent_server now) ∅ ∅)
        = Ok (coh_spec_run ops {[1%Z := []]}, σ').
Proof. intros Hd. apply coh_run_refines; [apply coh_inv_start|done]. Qed.

Lemma caches_coherent_witness :
  ∃ σ', coh_run [Acquire (lit "a") 5; Put (lit "a") 5 (lit "xy") 10; Release (lit "a") 5 11; Acquire (lit "b") 5; Get (lit "b") 5 12;
                 Put (lit "b") 5 (lit "xyz") 13; Getattr (lit "b") 5; Release (lit "b") 5 14; Acquire (lit "a") 5; Get (lit "a") 5 15]
          (System (new_extent_server 1) ∅ ∅)
        = Ok ([CDone; CSize 0 None; CDone; CDone; CBuf 0 (lit "xy"); CSize 0 None;
               CSize 0 (Some 3%Z); CDone; CDone; CBuf 0 (lit "xyz")], σ').
Proof.
  destruct (caches_coherent 1 [Acquire (lit "a") 5; Put (lit "a") 5 (lit "xy") 10; Release (lit "a") 5 11; Acquire (lit "b") 5;
    Get (lit "b") 5 12; Put (lit "b") 5 (lit "xyz") 13; Getattr (lit "b") 5; Release (lit "b") 5 14; Acquire (lit "a") 5; Get (lit "a") 5 15])
    as (σ' & E).
  - vm_compute. repeat split.
  - exists σ'. rewrite E. reflexivity.
Defined.
