(* ===== verification/LockServer.v ===== *)
(** * The lock servers (lock_protocol.h, lock_server.cc, lock_server_cache.cc)

    The plain server blocks a second acquirer on a condition variable; the caching
    server, the one lock_smain.cc runs, remembers which client a lock is at and who
    waits for it.  Each critical section is a function; what the server does
    outside its mutex, and the remote calls it makes, come between them. *)

From stdpp Require Import base tactics numbers list gmap strings.
From Stdlib Require Import ZArith Lia Ascii.
From S2P Require Import Prelude CxxString.

Module lock_protocol.
Definition OK : Z := 0.
Definition RETRY : Z := 1.
Definition RPCERR : Z := 2.
Definition NOENT : Z := 3.
Definition IOERR : Z := 4.
Definition acquire : Z := 28673.   (* 0x7001 *)
Definition release : Z := 28674.
Definition stat : Z := 28675.
End lock_protocol.
Module rlock_protocol.
Definition OK : Z := 0.
Definition RPCERR : Z := 1.
Definition revoke : Z := 32769.    (* 0x8001 *)
Definition retry : Z := 32770.
End rlock_protocol.

(** ** The plain lock server *)
Module lock_server.

Record t := LockServer {
  nacquire : Z;
  lock_inuse_map : gmap Z Z;
  lock_cv_map : gset Z }.

Definition new : t := LockServer 0 ∅ ∅.

(** [lock_server::stat] *)
Definition stat (s : t) : Z * Z := (lock_protocol.OK, nacquire s).

(** [lock_server::acquire] up to its return or its wait: [true] when the lock is
    granted at once, [false] when the thread waits on the condition variable. *)
Definition acquire (lid : Z) (s : t) : outcome (bool * t) :=
  match lock_inuse_map s !! lid with
  | None => Ok (true, LockServer (nacquire s) (<[lid := 1%Z]> (lock_inuse_map s))
                        ({[lid]} ∪ lock_cv_map s))
  | Some n =>
      n ← int_result (n + 1);
      Ok ((n =? 1)%Z, LockServer (nacquire s) (<[lid := n]> (lock_inuse_map s)) (lock_cv_map s))
  end.

(** [lock_server::release]; [find] of an unknown lock is [end()], and its field is
    written through all the same.  [lock_cv_map[lid]] creates an entry. *)
Definition release (lid : Z) (s : t) : outcome t :=
  match lock_inuse_map s !! lid with
  | None => Fault NullDeref
  | Some n =>
      n ← int_result (n - 1);
      Ok (LockServer (nacquire s) (<[lid := n]> (lock_inuse_map s)) ({[lid]} ∪ lock_cv_map s))
  end.

(** The threads of the server on one lock: granted ones, and waiters. *)
Record threads := Threads { held : nat; waiting : nat }.

(** The steps: an acquire, a release with its signal (which wakes one waiter if
    there is one), and a wake-up without a signal, which POSIX allows. *)
Inductive step (lid : Z) : t * threads → t * threads → Prop :=
  | step_grant s s' h :
      acquire lid s = Ok (true, s') → step lid (s, h) (s', Threads (S (held h)) (waiting h))
  | step_wait s s' h :
      acquire lid s = Ok (false, s') → step lid (s, h) (s', Threads (held h) (S (waiting h)))
  | step_release s s' h n :
      held h = S n → release lid s = Ok s' →
      step lid (s, h) (s', match waiting h with
                           | O => Threads n 0
                           | S w => Threads (S n) w
                           end).
Inductive spurious (lid : Z) : t * threads → t * threads → Prop :=
  | spurious_wake s h w :
      waiting h = S w → spurious lid (s, h) (s, Threads (S (held h)) w).

End lock_server.

(** ** The caching lock server *)

Record lock_server_cache := LockServerCache {
  lsc_nacquire : Z;
  where_is_lock : gmap Z bytes;
  who_waiting_lock : gmap Z (list bytes) }.

(** [lock_server_cache::lock_server_cache] *)
Definition new_lock_server_cache : lock_server_cache := LockServerCache 0 ∅ ∅.

Definition waiters (lid : Z) (s : lock_server_cache) : list bytes :=
  default [] (who_waiting_lock s !! lid).
Definition owner (lid : Z) (s : lock_server_cache) : bytes := default [] (where_is_lock s !! lid).

(** What the critical section of [acquire] decides. *)
Inductive acquire_verdict := Granted | Queued (need_revoke : bool).

(** [lock_server_cache::acquire], lines under [serverlock_mutex]. *)
Definition lsc_acquire_locked (lid : Z) (id : bytes) (s : lock_server_cache) :
    acquire_verdict * lock_server_cache :=
  match where_is_lock s !! lid with
  | None =>
      (Granted, LockServerCache (lsc_nacquire s) (<[lid := id]> (where_is_lock s)) (who_waiting_lock s))
  | Some w =>
      if decide (w = []) then
        (Granted, LockServerCache (lsc_nacquire s) (<[lid := id]> (where_is_lock s)) (who_waiting_lock s))
      else
        let l := waiters lid s in
        let l' := if decide (id ∈ l) then l else l ++ [id] in
        (Queued (bool_decide (l = [])),
         LockServerCache (lsc_nacquire s) (where_is_lock s) (<[lid := l']> (who_waiting_lock s)))
  end.

(** The revocation after the unlock: the owner is read again, without the mutex;
    [revoke] is [None] when [safebind] fails, else the status of the call.  When it has
    not succeeded, [serverlock_mutex] is unlocked once more, by a thread that does not
    have it (which POSIX leaves undefined); the RPCERR set before is never returned by a
    defined run. *)
Definition lsc_revoke_status (revoke : option Z) : outcome Z :=
  match revoke with
  | Some st => if decide (st = rlock_protocol.OK) then Ok lock_protocol.RETRY else Fault NotLocked
  | None => Fault NotLocked
  end.

(** [lock_server_cache::acquire]: [others] is what other threads do to the server
    between the unlock and the read of the owner, [revoke] the revocation at it. *)
Definition lsc_acquire (others : lock_server_cache → lock_server_cache)
    (revoke : bytes → option Z) (lid : Z) (id : bytes) (s : lock_server_cache) :
    outcome (Z * lock_server_cache) :=
  let '(v, s) := lsc_acquire_locked lid id s in
  match v with
  | Granted => Ok (lock_protocol.OK, s)
  | Queued false => Ok (lock_protocol.RETRY, s)
  | Queued true => let s := others s in ret ← lsc_revoke_status (revoke (owner lid s)); Ok (ret, s)
  end.

(** [lock_server_cache::release]: the lock comes back, and the first waiter, if
    any, is to be sent a retry, with the mutex still held. *)
Definition lsc_release (lid : Z) (s : lock_server_cache) : option bytes * lock_server_cache :=
  let wh := <[lid := []]> (where_is_lock s) in
  match waiters lid s with
  | [] => (None, LockServerCache (lsc_nacquire s) wh (<[lid := []]> (who_waiting_lock s)))
  | first :: l => (Some first, LockServerCache (lsc_nacquire s) wh (<[lid := l]> (who_waiting_lock s)))
  end.

(** The retry: [ser_cl->call] on the result of [safebind], without a check. *)
Definition lsc_retry_call (safebind : bytes → option (outcome Z)) (first : bytes) : outcome Z :=
  match safebind first with None => Fault NullDeref | Some call => call end.

(** [lock_server_cache::stat] *)
Definition lsc_stat (s : lock_server_cache) : Z * Z := (lock_protocol.OK, lsc_nacquire s).

(** One pass of [lock_server_cache::wake_up]: the owners that are sent a revoke. *)
Definition wake_up_targets (s : lock_server_cache) : list (Z * bytes) :=
  omap (λ lid, if decide (waiters lid s = []) then None else Some (lid, owner lid s))
    (keys_in_order (who_waiting_lock s)).

(** ** Properties of the plain server *)

(** The counter of a lock counts its holders and waiters; there is at most one
    holder, and nobody waits for a lock that nobody holds. *)
Definition plain_inv (lid : Z) (x : lock_server.t * lock_server.threads) : Prop :=
  let '(s, h) := x in
  default 0%Z (lock_server.lock_inuse_map s !! lid)
    = Z.of_nat (lock_server.held h + lock_server.waiting h) ∧
  lock_server.held h ≤ 1 ∧ (lock_server.waiting h ≠ 0 → lock_server.held h = 1).

Lemma plain_acquire_spec lid s b s' :
  lock_server.acquire lid s = Ok (b, s') →
  let n := default 0%Z (lock_server.lock_inuse_map s !! lid) in
  b = (n =? 0)%Z ∧ default 0%Z (lock_server.lock_inuse_map s' !! lid) = (n + 1)%Z.
Proof.
  unfold lock_server.acquire. destruct (lock_server.lock_inuse_map s !! lid) as [n|]; simpl.
  - intros (m & Hm & [= <- <-])%bind_Ok. unfold int_result in Hm. case_match; [|done].
    injection Hm as <-. simpl. rewrite lookup_insert_eq. split; [|done].
    destruct (Z.eqb_spec (n + 1) 1), (Z.eqb_spec n 0); (done || lia).
  - intros [= <- <-]. simpl. by rewrite lookup_insert_eq.
Qed.

Lemma plain_release_spec lid s s' :
  lock_server.release lid s = Ok s' →
  default 0%Z (lock_server.lock_inuse_map s' !! lid)
  = (default 0 (lock_server.lock_inuse_map s !! lid) - 1)%Z.
Proof.
  unfold lock_server.release. destruct (lock_server.lock_inuse_map s !! lid) as [n|]; [|done].
  intros (m & Hm & [= <-])%bind_Ok. unfold int_result in Hm. case_match; [|done].
  injection Hm as <-. simpl. by rewrite lookup_insert_eq.
Qed.

Lemma plain_inv_step lid x y : lock_server.step lid x y → plain_inv lid x → plain_inv lid y.
Proof.
  intros Hs. destruct Hs as [s s' [h w] E|s s' [h w] E|s s' [h w] n Hn E]; simpl in *;
    intros (Hc & H1 & H2).
  - apply plain_acquire_spec in E as [Hb ->]. symmetry in Hb. apply Z.eqb_eq in Hb. lia.
  - apply plain_acquire_spec in E as [Hb ->]. symmetry in Hb. apply Z.eqb_neq in Hb.
    split; [|split]; lia.
  - apply plain_release_spec in E as ->. destruct w; simpl; lia.
Qed.

(** C40: The plain lock server grants a lock to one client thread at a time, and a thread
    waits only while another holds the lock: true of every run in which threads release
    only what they hold and a wait ends only by a signal (a spurious wake-up, which POSIX
    allows, gives the lock to two). *)
Theorem plain_server_mutual_exclusion lid s h :
  rtc (lock_server.step lid) (lock_server.new, lock_server.Threads 0 0) (s, h) →
  lock_server.held h ≤ 1 ∧ (lock_server.waiting h ≠ 0 → lock_server.held h = 1).
Proof.
  intros Hr. assert (plain_inv lid (s, h)) as (_ & ?); [|done].
  remember (lock_server.new, lock_server.Threads 0 0) as x eqn:Ex.
  assert (plain_inv lid x) as Hx by (subst; simpl; split_and!; [done|lia|done]). clear Ex.
  induction Hr as [|x y z Hxy Hyz IH]; [done|]. apply IH. by eapply plain_inv_step.
Qed.

Lemma plain_server_mutual_exclusion_witness :
  ∃ s, rtc (lock_server.step 7) (lock_server.new, lock_server.Threads 0 0)
         (s, lock_server.Threads 1 0) ∧ (1 ≤ 1).
Proof.
  assert (rtc (lock_server.step 7) (lock_server.new, lock_server.Threads 0 0)
    (lock_server.LockServer 0 (<[7%Z := 1%Z]> (<[7%Z := 2%Z]> (<[7%Z := 1%Z]> ∅)))
       ({[7%Z]} ∪ ({[7%Z]} ∪ ∅)), lock_server.Threads 1 0)) as Hr.
  { eapply rtc_l; [eapply lock_server.step_grant; reflexivity|].
    eapply rtc_l; [eapply lock_server.step_wait; reflexivity|].
    eapply rtc_l; [eapply (lock_server.step_release _ _ _ _ 0); reflexivity|]. apply rtc_refl. }
  eexists. split; [exact Hr|].
  exact (proj1 (plain_server_mutual_exclusion _ _ _ Hr)).
Defined.

(** The wait is not in a loop that tests the lock again, so a wake-up without a
    signal, which pthread_cond_wait may have, gives a lock that is held to a second
    thread. *)
Theorem plain_server_spurious_wakeup lid :
  ∃ s x, rtc (lock_server.step lid) (lock_server.new, lock_server.Threads 0 0) x ∧
    lock_server.spurious lid x (s, lock_server.Threads 2 0).
Proof.
  eexists _, _. split.
  - eapply rtc_l.
    { eapply lock_server.step_grant. unfold lock_server.acquire. simpl.
      by rewrite lookup_empty. }
    eapply rtc_l; [|apply rtc_refl].
    eapply lock_server.step_wait. unfold lock_server.acquire. simpl. by rewrite lookup_insert_eq.
  - exact (lock_server.spurious_wake lid _ (lock_server.Threads 1 1) 0 eq_refl).
Qed.
