(* ===== verification/LockClient.v ===== *)
(** * The caching lock client (lock_client_cache.h, lock_client_cache.cc)

    The state of each lock at a client, and the operations on it, cut where the
    code gives up [lockmap_mutex] or makes a remote call.  What happens at the
    cuts is put together in LockProtocol.v. *)

From stdpp Require Import base tactics numbers list gmap sets strings.
From Stdlib Require Import ZArith Lia Ascii.
From S2P Require Import Prelude CxxString LockServer.

(** class client_lock_state *)
Inductive client_lock_state := NONE | FREE | LOCKED | ACQUIRING | RELEASING.
#[global] Instance client_lock_state_eq_dec : EqDecision client_lock_state.
Proof. solve_decision. Defined.

(** class lock_client_cache; of the condition variables, which exist. *)
Record lock_client_cache := LockClientCache {
  lockstate_map : gmap Z client_lock_state;
  lock_cv_map : gset Z }.
Definition new_lock_client_cache : lock_client_cache := LockClientCache ∅ ∅.

(** [lockstate_map[lid]] *)
Definition lockstate (lid : Z) (c : lock_client_cache) : client_lock_state :=
  default NONE (lockstate_map c !! lid).
Definition set_lockstate (lid : Z) (st : client_lock_state) (c : lock_client_cache) :
    lock_client_cache :=
  LockClientCache (<[lid := st]> (lockstate_map c)) (lock_cv_map c).

(** [lock_client_cache::acquire], before its loop. *)
Definition acquire_enter (lid : Z) (c : lock_client_cache) : lock_client_cache :=
  match lockstate_map c !! lid with
  | None => LockClientCache (<[lid := NONE]> (lockstate_map c)) ({[lid]} ∪ lock_cv_map c)
  | Some _ => c
  end.

(** One look at the state, at the head of the loop: the lock is taken, the thread
    waits on the condition variable (giving up the mutex), or calls the server
    (keeping it). *)
Inductive acquire_action :=
  | Got (c : lock_client_cache)
  | MustWait
  | MustCall.
Definition acquire_look (lid : Z) (c : lock_client_cache) : acquire_action :=
  match lockstate lid c with
  | FREE => Got (set_lockstate lid LOCKED c)
  | LOCKED | ACQUIRING | RELEASING => MustWait
  | NONE => MustCall
  end.

(** The server's answer. *)
Inductive acquire_answer :=
  | GotLock (c : lock_client_cache)
  | RetryLater (c : lock_client_cache)
  | Unrecognized.
Definition acquire_answered (lid : Z) (ret1 : Z) (c : lock_client_cache) : acquire_answer :=
  if decide (ret1 = lock_protocol.OK) then GotLock (set_lockstate lid LOCKED c)
  else if decide (ret1 = lock_protocol.RETRY) then RetryLater (set_lockstate lid ACQUIRING c)
  else Unrecognized.

(** [lock_client_cache::release], under the mutex: unknown lock, kept at the client,
    or to be flushed and given back. *)
Inductive release_action :=
  | NoSuchLock
  | Kept (c : lock_client_cache)
  | GiveBack (c : lock_client_cache).
Definition release_locked (lid : Z) (c : lock_client_cache) : release_action :=
  match lockstate_map c !! lid with
  | None => NoSuchLock
  | Some RELEASING => GiveBack (set_lockstate lid NONE c)
  | Some _ => Kept (set_lockstate lid FREE c)
  end.
(** The status [release] returns after giving back, from that of the remote call. *)
Definition release_status (ret1 : Z) : Z :=
  if decide (ret1 = lock_protocol.OK) then lock_protocol.OK else ret1.

(** [lock_client_cache::revoke_handler] *)
Definition revoke_handler (lid : Z) (c : lock_client_cache) : Z * lock_client_cache :=
  match lockstate lid c with
  | FREE => (rlock_protocol.OK, set_lockstate lid FREE c)
  | LOCKED => (rlock_protocol.OK, set_lockstate lid RELEASING c)
  | st => (rlock_protocol.OK, set_lockstate lid st c)
  end.

(** [lock_client_cache::retry_handler] *)
Definition retry_handler (lid : Z) (c : lock_client_cache) : Z * lock_client_cache :=
  if decide (lid ∈ lock_cv_map c) then (rlock_protocol.OK, set_lockstate lid NONE c)
  else (rlock_protocol.RPCERR, c).

(** [lock_client_cache::give_back]: the scan, without the mutex, for the first lock
    that is free; and the change of its state, under the mutex. *)
Definition give_back_scan (c : lock_client_cache) : option Z :=
  head (filter (λ lid, lockstate lid c = FREE) (keys_in_order (lockstate_map c))).
Definition give_back_take (lid : Z) (c : lock_client_cache) : lock_client_cache :=
  set_lockstate lid NONE c.

(** ** Lemmas *)
Lemma lockstate_set lid st c lid' :
  lockstate lid' (set_lockstate lid st c) = if decide (lid' = lid) then st else lockstate lid' c.
Proof.
  unfold lockstate, set_lockstate. simpl. case_decide; [subst; by rewrite lookup_insert_eq|].
  by rewrite lookup_insert_ne.
Qed.

Lemma lockstate_enter lid c lid' : lockstate lid' (acquire_enter lid c) = lockstate lid' c.
Proof.
  unfold acquire_enter, lockstate. destruct (lockstate_map c !! lid) eqn:E; [done|]. simpl.
  destruct (decide (lid' = lid)) as [->|]; [by rewrite lookup_insert_eq, E|by rewrite lookup_insert_ne].
Qed.

Lemma revoke_handler_state lid c lid' :
  lockstate lid' (revoke_handler lid c).2
  = if decide (lid' = lid ∧ lockstate lid c = LOCKED) then RELEASING else lockstate lid' c.
Proof.
  unfold revoke_handler. destruct (lockstate lid c) eqn:E; simpl; rewrite lockstate_set;
    repeat case_decide; naive_solver.
Qed.

Lemma give_back_scan_free c lid : give_back_scan c = Some lid → lockstate lid c = FREE.
Proof.
  unfold give_back_scan. intros H. assert (lid ∈ filter (λ lid, lockstate lid c = FREE)
    (keys_in_order (lockstate_map c))) as Hin.
  { destruct (filter _ _); simplify_eq/=. by left. }
  by apply list_elem_of_filter in Hin as [? _].
Qed.

Lemma give_back_scan_some c lid : lockstate lid c = FREE → is_Some (give_back_scan c).
Proof.
  intros H. unfold give_back_scan.
  assert (lid ∈ filter (λ lid, lockstate lid c = FREE) (keys_in_order (lockstate_map c))) as Hin.
  { apply list_elem_of_filter. split; [done|]. apply elem_of_keys_in_order. unfold lockstate in H.
    destruct (lockstate_map c !! lid); [eauto|done]. }
  destruct (filter _ _); [by apply not_elem_of_nil in Hin|]. simpl. eauto.
Qed.
