(* ===== verification/Services.v ===== *)
(** * The programs: which requests meet which handlers

    The registrations in lock_smain.cc and in the constructor of lock_client_cache, with
    that of extent_smain.cc (ExtentServer.v), against the calls the clients make: a
    request is served when the types of its arguments are those of the handler under
    its number.  The caching clients' are; the ones of lock_client.cc, written for the
    plain lock server, are not those of the server that lock_smain.cc starts. *)

From stdpp Require Import base tactics numbers list gmap strings.
From Stdlib Require Import ZArith Lia Ascii.
From coqutil Require Import Z.prove_Zeq_bitwise.
From S2P Require Import Prelude CxxString Marshall Connection RpcServer RpcTime RpcClient RpcCall Stubs ExtentServer LockServer LockClient.

(** ** The lock server's program *)
Section lock_main.
Context (junk : nat → ascii).

(** What the methods of lock_server_cache meet at the clients: the work of other
    threads during an acquire, the revoke, the result of [safebind] and the retry. *)
Context (others : lock_server_cache → lock_server_cache) (revoke : bytes → option Z)
  (safebind : bytes → option (outcome Z)).

(** [lock_server_cache::acquire], [release] and [stat] as they are registered. *)
Definition lsc_acquire_meth (s : lock_server_cache) (a : Z * bytes) (r : Z) :
    outcome (lock_server_cache * Z * Z) :=
  let '(lid, id) := a in
  '(ret, s) ← lsc_acquire others revoke lid id s;
  Ok (s, r, ret).
Definition lsc_release_meth (s : lock_server_cache) (a : Z * bytes) (r : Z) :
    outcome (lock_server_cache * Z * Z) :=
  let '(lid, id) := a in
  let '(w, s) := lsc_release lid s in
  match w with
  | Some first => lsc_retry_call safebind first;; Ok (s, r, lock_protocol.OK)
  | None => Ok (s, r, lock_protocol.OK)
  end.
Definition lsc_stat_meth (s : lock_server_cache) (lid : Z) (r : Z) : outcome (lock_server_cache * Z * Z) :=
  let '(ret, n) := lsc_stat s in Ok (s, n, ret).

(** [main] of lock_smain.cc *)
Definition lock_main (nonce count : Z) : outcome (rpcs lock_server_cache) :=
  s ← new_rpcs junk nonce count;
  s ← reg1 lock_protocol.stat (h1 (ull_codec junk) (int_codec junk) lsc_stat_meth) s;
  s ← reg1 lock_protocol.acquire
        (h1 (pair_codec (ull_codec junk) (string_codec junk)) (int_codec junk) lsc_acquire_meth) s;
  reg1 lock_protocol.release
    (h1 (pair_codec (ull_codec junk) (string_codec junk)) (int_codec junk) lsc_release_meth) s.

(** The constructor of lock_client_cache: the server for revoke and retry. *)
Definition rlock_meth (f : Z → lock_client_cache → Z * lock_client_cache) (c : lock_client_cache) (lid r : Z) :
    outcome (lock_client_cache * Z * Z) :=
  let '(ret, c) := f lid c in Ok (c, r, ret).
Definition rlock_main (nonce : Z) : outcome (rpcs lock_client_cache) :=
  s ← new_rpcs junk nonce 0;
  s ← reg1 rlock_protocol.revoke (h1 (ull_codec junk) (int_codec junk) (rlock_meth revoke_handler)) s;
  reg1 rlock_protocol.retry (h1 (ull_codec junk) (int_codec junk) (rlock_meth retry_handler)) s.
End lock_main.

(** ** Requests and handlers *)

(** What the calls of a client make of a server: the requests, how the call marshalls
    the arguments, and what the method does on the state: the new state, the bytes of
    the result and the status. *)
Record service (S : Type) := Service {
  sv_req : Type;
  sv_proc : sv_req → Z;
  sv_put : sv_req → marshall → outcome marshall;
  sv_valid : S → sv_req → Prop;
  sv_run : sv_req → S → outcome (S * bytes * Z) }.
Arguments sv_req {S}. Arguments sv_proc {S}. Arguments sv_put {S}.
Arguments sv_valid {S}. Arguments sv_run {S}.

(** The handler [f], given the bytes [body], does [res] and appends the result. *)
Definition accepts {S} (f : handler S) (body : bytes) (st : S) (res : outcome (S * bytes * Z)) : Prop :=
  ∀ u pre m w, reads u pre body → holds m w →
    match res with
    | Ok (st', out, b) =>
        (size w + size out < max_packet)%Z → ∃ m', f st u m = Ok (b, m', st') ∧ holds m' (w ++ out)
    | Fault e => f st u m = Fault e
    end.

(** Every request finds a handler that reads from it the arguments it was made of. *)
Definition implements {S} (procs : gmap Z (handler S)) (sv : service S) : Prop :=
  ∀ q st, sv_valid sv st q →
    ∃ body f,
      (∀ m w, holds m w → (size w + size body < max_packet)%Z →
         ∃ m', sv_put sv q m = Ok m' ∧ holds m' (w ++ body)) ∧
      procs !! i32 (sv_proc sv q) = Some f ∧ accepts f body st (sv_run sv q st).

(** The method's result in the form of [sv_run]. *)
Definition ran {S R} (er : R → bytes) (o : outcome (S * R * Z)) : outcome (S * bytes * Z) :=
  '(st, r, b) ← o; Ok (st, er r, b).

Lemma h1_accepts {S A R} (ca : codec A) (cr : codec R) va ea vr er `{!CodecOK ca va ea, !CodecOK cr vr er}
    (meth : S → A → R → outcome (S * R * Z)) a st :
  va a → (∀ st' r b, meth st a (dflt cr) = Ok (st', r, b) → vr r) →
  accepts (h1 ca cr meth) (ea a) st (ran er (meth st a (dflt cr))).
Proof.
  intros Ha Hr u pre m w Hu Hm. destruct (meth st a (dflt cr)) as [[[st' r] b]|e] eqn:E; run.
  - intros Hsz. eapply h1_spec; eauto.
  - unfold h1. rewrite <- (app_nil_r (ea a)) in Hu. destruct (codec_get a u pre [] Ha Hu) as (u' & -> & Hu'). run.
    rewrite (reads_okdone _ _ Hu'). simpl. by rewrite E.
Qed.

(** A request of a call whose codecs are those of the handler. *)
Lemma implements_call {S A R} (procs : gmap Z (handler S)) (ca : codec A) (cr : codec R) va ea vr er
    `{!CodecOK ca va ea, !CodecOK cr vr er} (meth : S → A → R → outcome (S * R * Z)) proc a st (sput : marshall → outcome marshall) :
  procs !! i32 proc = Some (h1 ca cr meth) → (∀ m, sput m = put ca a m) → va a →
  (∀ st' r b, meth st a (dflt cr) = Ok (st', r, b) → vr r) →
  ∃ body f,
    (∀ m w, holds m w → (size w + size body < max_packet)%Z → ∃ m', sput m = Ok m' ∧ holds m' (w ++ body)) ∧
    procs !! i32 proc = Some f ∧ accepts f body st (ran er (meth st a (dflt cr))).
Proof.
  intros Hp Hput Ha Hr. exists (ea a), (h1 ca cr meth). split_and!; [|done|by apply (h1_accepts ca cr va ea vr er)].
  intros m w Hm Hsz. rewrite Hput. by apply codec_put.
Qed.

(** ** The three services *)

(** The calls of extent_client.cc and the bind of every client. *)
Inductive extent_req := EBind | EGet (eid : Z) | EGetattr (eid : Z) | EPut (eid : Z) (buf : bytes).
Definition extent_service (junk : nat → ascii) (now nonce : Z) : service extent_server :=
  Service _ extent_req
    (λ q, match q with
          | EBind => rpc_bind
          | EGet _ => extent_protocol.get
          | EGetattr _ => extent_protocol.getattr
          | EPut _ _ => extent_protocol.put
          end)
    (λ q m, match q with
            | EBind => put (int_codec junk) 0%Z m
            | EGet eid | EGetattr eid => put (ull_codec junk) eid m
            | EPut eid buf => m ← put (ull_codec junk) eid m; put (string_codec junk) buf m
            end)
    (λ s q, match q with
            | EBind => True
            | EGet eid => is_u64 eid ∧ ∀ b, content_map s !! eid = Some b → (size b < max_packet)%Z
            | EGetattr eid => is_u64 eid ∧ ∀ a, attr_map s !! eid = Some a → attr_ok a
            | EPut eid buf => is_u64 eid ∧ (size buf < max_packet)%Z
            end)
    (λ q s, match q with
            | EBind => ran enc_int (rpcbind nonce s 0 0)
            | EGet eid => ran enc_string (es_get now s eid [])
            | EGetattr eid => ran enc_attr (es_getattr s eid (extent_protocol.Attr 0 0 0 0))
            | EPut eid buf => ran enc_int (es_put now s (eid, buf) 0)
            end).

(** The calls of lock_client_cache.cc, and the stat that its class inherits from
    lock_client.cc: this one sends the client's number [cid] in front of the lock id, the
    handler reads one number, and the call comes to the unmarshalling failure. *)
Inductive lock_req :=
  | LBind | LAcq (lid : Z) (id : bytes) | LRel (lid : Z) (id : bytes) | LStat (cid lid : Z).
Definition lock_service (junk : nat → ascii) others revoke safebind (nonce : Z) : service lock_server_cache :=
  Service _ lock_req
    (λ q, match q with
          | LBind => rpc_bind
          | LAcq _ _ => lock_protocol.acquire
          | LRel _ _ => lock_protocol.release
          | LStat _ _ => lock_protocol.stat
          end)
    (λ q m, match q with
            | LBind => put (int_codec junk) 0%Z m
            | LAcq lid id | LRel lid id => m ← put (ull_codec junk) lid m; put (string_codec junk) id m
            | LStat cid lid => m ← put (uint_codec junk) cid m; put (ull_codec junk) lid m
            end)
    (λ s q, match q with
            | LBind => True
            | LAcq lid id | LRel lid id => is_u64 lid ∧ (size id < max_packet)%Z
            | LStat cid lid => is_u32 cid ∧ is_u64 lid
            end)
    (λ q s, match q with
            | LBind => ran enc_int (rpcbind nonce s 0 0)
            | LAcq lid id => ran enc_int (lsc_acquire_meth others revoke s (lid, id) 0)
            | LRel lid id => ran enc_int (lsc_release_meth safebind s (lid, id) 0)
            | LStat _ _ => Ok (s, [], unmarshal_args_failure)
            end).

(** The calls of lock_server_cache.cc to the clients. *)
Inductive rlock_req := RBind | RRevoke (lid : Z) | RRetry (lid : Z).
Definition rlock_service (junk : nat → ascii) (nonce : Z) : service lock_client_cache :=
  Service _ rlock_req
    (λ q, match q with RBind => rpc_bind | RRevoke _ => rlock_protocol.revoke | RRetry _ => rlock_protocol.retry end)
    (λ q m, match q with
            | RBind => put (int_codec junk) 0%Z m
            | RRevoke lid | RRetry lid => put (ull_codec junk) lid m
            end)
    (λ _ q, match q with RBind => True | RRevoke lid | RRetry lid => is_u64 lid end)
    (λ q c, match q with
            | RBind => ran enc_int (rpcbind nonce c 0 0)
            | RRevoke lid => ran enc_int (rlock_meth revoke_handler c lid 0)
            | RRetry lid => ran enc_int (rlock_meth retry_handler c lid 0)
            end).

(** The arguments of a plain call, read as a lock id: four bytes are left. *)
Lemma plain_args_read id lid :
  is_u32 id → is_u64 lid →
  enc_uint id ++ enc_ull lid = enc_ull (id * 2 ^ 32 + u32 (Z.shiftr lid 32)) ++ enc_uint (u32 lid) ∧
  is_u64 (id * 2 ^ 32 + u32 (Z.shiftr lid 32)).
Proof.
  intros Hid Hlid. pose proof (u32_range (Z.shiftr lid 32)) as Hh. split; [|lia].
  unfold enc_ull at 2. rewrite <- app_assoc. unfold enc_ull. f_equal; [|f_equal]; f_equal.
  - rewrite Z.shiftr_div_pow2 by lia. rewrite Z.add_comm, Z.div_add, Z.div_small by lia.
    by rewrite Z.add_0_l, u32_small.
  - unfold u32 at 2. rewrite Z.add_comm, Z.mod_add by lia. by rewrite Z.mod_small by lia.
Qed.

Lemma holds_inj m w w' : holds m w → holds m w' → w = w'.
Proof.
  intros (r & Hb & Hi & _) (r' & Hb' & Hi' & _). rewrite Hb in Hb'. injection Hb' as E.
  apply app_inj_1 in E as [-> _]; [done|]. unfold size in *. lia.
Qed.

Lemma reads_not_done u pre post : reads u pre post → post ≠ [] → okdone u = false.
Proof.
  intros (extra & _ & Hi & Hs & _ & Ho) Hne. unfold okdone. rewrite Hi, Hs, Ho. simpl. apply Z.eqb_neq.
  destruct post; [done|]. unfold size. simpl. lia.
Qed.

(** The handler of stat on them. *)
Lemma plain_stat_refused junk {S R} (cr : codec R) (meth : S → Z → R → outcome (S * R * Z)) id lid st u pre m :
  is_u32 id → is_u64 lid → reads u pre (enc_uint id ++ enc_ull lid) →
  h1 (ull_codec junk) cr meth st u m = Ok (unmarshal_args_failure, m, st).
Proof.
  intros Hid Hlid Hu. destruct (plain_args_read id lid Hid Hlid) as [E Hx]. rewrite E in Hu.
  unfold h1. destruct (codec_get (c := ull_codec junk) _ u pre _ Hx Hu) as (u' & -> & Hu'). run.
  by rewrite (reads_not_done _ _ _ Hu').
Qed.

Lemma rpcbind_int {S} nonce (st st' : S) r b : rpcbind nonce st 0 0 = Ok (st', r, b) → is_i32 r.
Proof. intros [= _ <- _]. apply i32_range. Qed.

#[local] Instance ull_string_ok junk :
  CodecOK (pair_codec (ull_codec junk) (string_codec junk)) (λ p, is_u64 p.1 ∧ (size p.2 < max_packet)%Z)
    (enc_pair enc_ull enc_string).
Proof. apply (pair_codec_ok _ _ (λ x, is_u64 x) (λ b, (size b < max_packet)%Z)); apply _. Qed.

Lemma extent_implements junk now nonce count s :
  extent_main junk now nonce count = Ok s → implements (s_procs s) (extent_service junk now nonce).
Proof.
  intros E q st Hq. unfold extent_main, new_rpcs in E.
  apply bind_Ok in E as (s1 & E1%reg1_Ok & E).
  apply bind_Ok in E as (s2 & E2%reg1_Ok & E).
  apply bind_Ok in E as (s3 & E3%reg1_Ok & E).
  apply bind_Ok in E as (s4 & E4%reg1_Ok & E%reg1_Ok).
  rewrite E, E4, E3, E2, E1. clear E E1 E2 E3 E4. destruct q as [|eid|eid|eid buf]; simpl in Hq.
  - apply (implements_call _ (int_codec junk) (int_codec junk) (λ x, is_i32 x) enc_int (λ x, is_i32 x) enc_int
      (rpcbind nonce) rpc_bind 0%Z); [done|done|done|]. apply rpcbind_int.
  - apply (implements_call _ (ull_codec junk) (string_codec junk) (λ x, is_u64 x) enc_ull
      (λ b, (size b < max_packet)%Z) enc_string (es_get now) extent_protocol.get eid); [done|done|apply Hq|].
    intros st' r b. unfold es_get. simpl. destruct (content_map st !! eid) eqn:Ec; repeat case_match; naive_solver.
  - apply (implements_call _ (ull_codec junk) (attr_codec junk) (λ x, is_u64 x) enc_ull attr_ok enc_attr
      es_getattr extent_protocol.getattr eid); [done|done|apply Hq|].
    intros st' r b. unfold es_getattr. simpl.
    destruct (attr_map st !! eid) as [a|] eqn:Ea; intros [= _ <- _]; [by apply Hq|by repeat split].
  - apply (implements_call _ (pair_codec (ull_codec junk) (string_codec junk)) (int_codec junk)
      (λ p, is_u64 p.1 ∧ (size p.2 < max_packet)%Z) (enc_pair enc_ull enc_string) (λ x, is_i32 x) enc_int
      (es_put now) extent_protocol.put (eid, buf)); [done|done|apply Hq|].
    intros st' r b. intros [= _ <- _]. done.
Qed.

Lemma lock_implements junk others revoke safebind nonce count s :
  lock_main junk others revoke safebind nonce count = Ok s →
  implements (s_procs s) (lock_service junk others revoke safebind nonce).
Proof.
  intros E q st Hq. unfold lock_main, new_rpcs in E.
  apply bind_Ok in E as (s1 & E1%reg1_Ok & E).
  apply bind_Ok in E as (s2 & E2%reg1_Ok & E).
  apply bind_Ok in E as (s3 & E3%reg1_Ok & E%reg1_Ok).
  rewrite E, E3, E2, E1. clear E E1 E2 E3. destruct q as [|lid id|lid id|cid lid]; simpl in Hq.
  - apply (implements_call _ (int_codec junk) (int_codec junk) (λ x, is_i32 x) enc_int (λ x, is_i32 x) enc_int
      (rpcbind nonce) rpc_bind 0%Z); [done|done|done|]. apply rpcbind_int.
  - apply (implements_call _ (pair_codec (ull_codec junk) (string_codec junk)) (int_codec junk)
      (λ p, is_u64 p.1 ∧ (size p.2 < max_packet)%Z) (enc_pair enc_ull enc_string) (λ x, is_i32 x) enc_int
      (lsc_acquire_meth others revoke) lock_protocol.acquire (lid, id)); [done|done|apply Hq|].
    intros st' r b. unfold lsc_acquire_meth. intros ([ret s'] & _ & [= _ <- _])%bind_Ok. done.
  - apply (implements_call _ (pair_codec (ull_codec junk) (string_codec junk)) (int_codec junk)
      (λ p, is_u64 p.1 ∧ (size p.2 < max_packet)%Z) (enc_pair enc_ull enc_string) (λ x, is_i32 x) enc_int
      (lsc_release_meth safebind) lock_protocol.release (lid, id)); [done|done|apply Hq|].
    intros st' r b. unfold lsc_release_meth. destruct (lsc_release lid st) as [[w|] s']; [|by intros [= _ <- _]].
    destruct (lsc_retry_call safebind w); [by intros [= _ <- _]|done].
  - destruct Hq as [Hcid Hlid]. exists (enc_uint cid ++ enc_ull lid). eexists. split_and!; [|reflexivity|].
    + intros m w. change (enc_uint cid ++ enc_ull lid) with (enc_pair enc_uint enc_ull (cid, lid)).
      pose proof (pair_codec_ok _ _ _ _ _ _ (uint_codec_ok junk) (ull_codec_ok junk)) as Hok.
      apply (codec_put (c := pair_codec (uint_codec junk) (ull_codec junk)) (cid, lid)). by split.
    + intros u pre m w Hu Hm _. exists m. rewrite app_nil_r. split; [|done]. by eapply plain_stat_refused.
Qed.

Lemma rlock_implements junk nonce s :
  rlock_main junk nonce = Ok s → implements (s_procs s) (rlock_service junk nonce).
Proof.
  intros E q st Hq. unfold rlock_main, new_rpcs in E.
  apply bind_Ok in E as (s1 & E1%reg1_Ok & E).
  apply bind_Ok in E as (s2 & E2%reg1_Ok & E%reg1_Ok).
  rewrite E, E2, E1. clear E E1 E2. destruct q as [|lid|lid]; simpl in Hq.
  - apply (implements_call _ (int_codec junk) (int_codec junk) (λ x, is_i32 x) enc_int (λ x, is_i32 x) enc_int
      (rpcbind nonce) rpc_bind 0%Z); [done|done|done|]. apply rpcbind_int.
  - apply (implements_call _ (ull_codec junk) (int_codec junk) (λ x, is_u64 x) enc_ull (λ x, is_i32 x) enc_int
      (rlock_meth revoke_handler) rlock_protocol.revoke lid); [done|done|done|].
    intros st' r b. unfold rlock_meth. case_match. by intros [= _ <- _].
  - apply (implements_call _ (ull_codec junk) (int_codec junk) (λ x, is_u64 x) enc_ull (λ x, is_i32 x) enc_int
      (rlock_meth retry_handler) rlock_protocol.retry lid); [done|done|done|].
    intros st' r b. unfold rlock_meth. case_match. by intros [= _ <- _].
Qed.

(** ** The plain lock client (lock_client.cc) *)
Section lock_client.
Context (junk : nat → ascii) (now : timespec) (rounds : list round).

Definition lock_client_stat (lid : Z) (w : cworld) : outcome (Z * cworld) :=
  '(ret, r, w) ← call_2 junk (int_codec junk) now rounds lock_protocol.stat
                   (uint_codec junk) (ull_codec junk) (clt_nonce (cw_clt w)) lid 0%Z to_max w;
  VERIFY (ret =? lock_protocol.OK)%Z;;
  Ok (r, w).
Definition lock_client_acquire (lid : Z) (w : cworld) : outcome (Z * cworld) :=
  '(ret, _, w) ← call_2 junk (int_codec junk) now rounds lock_protocol.acquire
                   (uint_codec junk) (ull_codec junk) (clt_nonce (cw_clt w)) lid 0%Z to_max w;
  Ok (ret, w).
Definition lock_client_release (lid : Z) (w : cworld) : outcome (Z * cworld) :=
  '(ret, _, w) ← call_2 junk (int_codec junk) now rounds lock_protocol.release
                   (uint_codec junk) (ull_codec junk) (clt_nonce (cw_clt w)) lid 0%Z to_max w;
  Ok (ret, w).
End lock_client.

(** The packet that the call of [proc] in lock_client.cc sends. *)
Definition plain_request (junk : nat → ascii) (proc lid : Z) (w : cworld) (pkt : bytes) : Prop :=
  ∃ req xid xid_rep req' w',
    (m ← put (uint_codec junk) (clt_nonce (cw_clt w)) (new_marshall junk); put (ull_codec junk) lid m) = Ok req ∧
    call1_begin junk proc req new_unmarshall w = Ok (inr (xid, xid_rep, req', w')) ∧ holds req' pkt.

(** A new request whose handler cannot read its arguments ends the server. *)
Lemma dispatch_bad_args {Al : allocator} `{!KeepsFreed Al} {S} js h body pkt rest c (w : world S) f :
  req_packet h body pkt → req_header_ok h → (size pkt < max_packet)%Z →
  rq_srv_nonce h = 0%Z ∨ rq_srv_nonce h = s_nonce (w_srv w) →
  rq_clt_nonce h ≠ 0%Z → fresh_request h (s_windows (w_srv w)) →
  s_procs (w_srv w) !! rq_proc h = Some f →
  (∀ u pre m, reads u pre body → f (w_st w) u m = Ok (unmarshal_args_failure, m, w_st w)) →
  remembered_ok w → usable c (w_conns w) →
  dispatch js c (pkt ++ rest) (size pkt) w = Fault VerifyFailed.
Proof.
  intros Hpkt Hh Hsz Hsrv Hclt Hfresh Hproc Hf Hrem Hc.
  assert (max_packet < 2 ^ 31)%Z as Hmax by (unfold max_packet; lia).
  unfold dispatch. destruct (unpack_req_packet h body pkt rest) as (u & pre & -> & Hu); [done|done|lia|].
  run. assert (u_ok u = true) as -> by (by destruct Hu as (? & _ & _ & _ & _ & ?)). cbn [negb].
  rewrite srv_nonce_matches by done.
  match goal with |- context [match ?l with Some _ => _ | None => _ end] =>
    replace l with (Some f) by (symmetry; exact Hproc) end.
  destruct (Z.eqb_spec (rq_clt_nonce h) 0); [done|]. cbn [negb].
  destruct (save_conn_usable (rq_clt_nonce h) c w Hrem Hc) as (cs & hp & -> & Hc'). run.
  cbn [w_srv s_windows set_conns]. destruct (fresh_is_new h _ Hfresh) as (b0 & win & fr & -> & _). run.
  assert (∀ w0 : world S, w_st w0 = w_st w →
    f (w_st w0) u (new_marshall js) = Ok (unmarshal_args_failure, new_marshall js, w_st w)) as Em
    by (intros ? ->; by eapply Hf).
  rewrite Em by (by case_match). done.
Qed.

(** The handlers of the caching server on the arguments of a plain call. *)
Lemma plain_lock_refused junk {S R} (cr : codec R) (meth : S → Z * bytes → R → outcome (S * R * Z))
    id lid st u pre m :
  is_u32 id → is_u64 lid → (0 < u32 lid < 2 ^ 31)%Z → reads u pre (enc_uint id ++ enc_ull lid) →
  h1 (pair_codec (ull_codec junk) (string_codec junk)) cr meth st u m = Ok (unmarshal_args_failure, m, st).
Proof.
  intros Hid Hlid Hlo Hu. destruct (plain_args_read id lid Hid Hlid) as [E Hx]. rewrite E in Hu.
  unfold h1. cbn [get dflt pair_codec].
  destruct (codec_get (c := ull_codec junk) _ u pre _ Hx Hu) as (u' & -> & Hu'). run.
  cbn [get dflt string_codec]. unfold get_string. rewrite <- (app_nil_r (enc_uint (u32 lid))) in Hu'.
  destruct (get_uint_reads u' _ [] (u32 lid) 0 (u32_range lid) Hu') as (u2 & -> & Hu2). run.
  pose proof Hu2 as (extra & Hb & Hi & Hs & Hlt & ->). unfold u_rawbytes.
  rewrite app_nil_l in Hb. change (size []) with 0%Z in Hs. pose proof (size_nonneg ((pre ++ enc_ull (id * 2 ^ 32 + u32 (Z.shiftr lid 32))) ++ enc_uint (u32 lid))).
  rewrite (u32_small (u_ind u2 + u32 lid)), (u32_small (u_sz u2)) by lia. rewrite Z.gtb_ltb. destruct (Z.ltb_spec (u_sz u2) (u_ind u2 + u32 lid)); [|lia].
  done.
Qed.

(** A request for which the server ends in the unmarshalling failure. *)
Definition refused {S} (sv : service S) (q : sv_req sv) (st : S) : Prop :=
  ∃ st' out, sv_run sv q st = Ok (st', out, unmarshal_args_failure).

Lemma ran_status {S R} (er : R → bytes) o (st : S) out b :
  ran er o = Ok (st, out, b) → ∃ r, o = Ok (st, r, b).
Proof. unfold ran. intros ([[st' r] b'] & -> & [= -> _ ->])%bind_Ok. by exists r. Qed.

Lemma extent_not_refused junk now nonce q st : ¬ refused (extent_service junk now nonce) q st.
Proof.
  intros (st' & out & H). destruct q; cbn [sv_run extent_service] in H; apply ran_status in H as [r H]; [done|..|done].
  - unfold es_get in H. by repeat case_match.
  - unfold es_getattr in H. by repeat case_match.
Qed.

Lemma lock_refused_stat junk others revoke safebind nonce q st :
  refused (lock_service junk others revoke safebind nonce) q st ↔ ∃ cid lid, q = LStat cid lid.
Proof.
  split; [|intros (cid & lid & ->); by do 2 eexists].
  intros (st' & out & H). destruct q as [|lid id|lid id|cid lid]; [exfalso..|by do 2 eexists];
    cbn [sv_run lock_service] in H; apply ran_status in H as [r H]; [done|..].
  - apply bind_Ok in H as ([ret s'] & Ha & [= _ _ ->]). unfold lsc_acquire in Ha.
    destruct (lsc_acquire_locked lid id st) as [[|[]] s1]; simplify_eq; try done.
    apply bind_Ok in Ha as (x & Hx & [= -> _]). unfold lsc_revoke_status in Hx. by repeat case_match; simplify_eq.
  - unfold lsc_release_meth in H. destruct (lsc_release lid st) as [[w|] s1]; [|done].
    by destruct (lsc_retry_call safebind w).
Qed.

Lemma rlock_not_refused junk nonce q st : ¬ refused (rlock_service junk nonce) q st.
Proof.
  intros (st' & out & H). destruct q as [|lid|lid]; cbn [sv_run rlock_service] in H; apply ran_status in H as [r H]; [done|..];
    unfold rlock_meth, revoke_handler, retry_handler in H; by repeat case_match; simplify_eq.
Qed.

(** ** Properties *)

(** C21: Which requests meet which handlers across the network.  The three programs
    start, no procedure number being registered twice.  Every request that a client of
    the extent server, a caching lock client or the lock server's callbacks can make,
    with arguments and results that fit in a packet, finds under its number a handler
    that does with the bytes the call marshalled what is said here: but for one request,
    it reads exactly those arguments, runs the method on them and appends the encoded
    result, and none of these ends in the unmarshalling failure that aborts the server.
    The one is the stat that the caching lock client inherits from lock_client.cc, whose
    two arguments the registered stat handler cannot read: it always ends in that
    failure. *)
Theorem requests_match_handlers junk now nonce count others revoke safebind :
  (∃ s, extent_main junk now nonce count = Ok s ∧ implements (s_procs s) (extent_service junk now nonce)) ∧
  (∃ s, lock_main junk others revoke safebind nonce count = Ok s ∧
     implements (s_procs s) (lock_service junk others revoke safebind nonce)) ∧
  (∃ s, rlock_main junk nonce = Ok s ∧ implements (s_procs s) (rlock_service junk nonce)) ∧
  (∀ q st, ¬ refused (extent_service junk now nonce) q st) ∧
  (∀ q st, refused (lock_service junk others revoke safebind nonce) q st ↔ ∃ cid lid, q = LStat cid lid) ∧
  (∀ q st, ¬ refused (rlock_service junk nonce) q st).
Proof.
  split_and!; [| | |apply extent_not_refused|intros; apply lock_refused_stat|apply rlock_not_refused].
  - destruct (extent_main junk now nonce count) as [s|e] eqn:E; [|discriminate E].
    exists s. split; [done|by eapply extent_implements].
  - destruct (lock_main junk others revoke safebind nonce count) as [s|e] eqn:E; [|discriminate E].
    exists s. split; [done|by eapply lock_implements].
  - destruct (rlock_main junk nonce) as [s|e] eqn:E; [|discriminate E].
    exists s. split; [done|by eapply rlock_implements].
Qed.

(** The request for lock 1 by client "a", at a new server: granted, the server's record
    saying so. *)
Lemma requests_match_handlers_witness :
  ∃ s body f, lock_main jz id (λ _, None) (λ _, None) 55 0 = Ok s ∧ s_procs s !! 28673%Z = Some f ∧
    (∀ m w, holds m w → (size w + size body < max_packet)%Z →
       ∃ m', (m ← put (ull_codec jz) 1%Z m; put (string_codec jz) (lit "a") m) = Ok m' ∧ holds m' (w ++ body)) ∧
    accepts f body new_lock_server_cache
      (Ok (LockServerCache 0 {[1%Z := lit "a"]} ∅, enc_int 0, lock_protocol.OK)).
Proof.
  destruct (requests_match_handlers jz 0 55 0 id (λ _, None) (λ _, None)) as (_ & (s & Es & Hs) & _).
  destruct (Hs (LAcq 1 (lit "a")) new_lock_server_cache) as (body & f & Hput & Hf & Ha).
  - split; vm_compute; done.
  - exists s, body, f. split_and!; [exact Es|exact Hf|exact Hput|exact Ha].
Defined.

(** The lock server that lock_smain.cc starts does not survive a plain lock client
    (lock_client.cc, used by lock_demo.cc): its stat for any lock, and its acquire and
    release for any lock whose low word is positive as an [int], are sent with the
    client's number in front of the lock id, the handler fails to read the arguments,
    and the server aborts. *)
Theorem plain_client_aborts_server {Al : allocator} `{!KeepsFreed Al} jc js others revoke safebind nonce count s proc lid cw p
    (sw : world lock_server_cache) c pkt buf sz :
  lock_main js others revoke safebind nonce count = Ok s → s_procs (w_srv sw) = s_procs s →
  proc = lock_protocol.stat ∨
    (proc = lock_protocol.acquire ∨ proc = lock_protocol.release) ∧ (0 < u32 lid < 2 ^ 31)%Z →
  is_u64 lid → client_ready cw p → clt_nonce (cw_clt cw) ≠ 0%Z →
  srv_nonce (cw_clt cw) = s_nonce (w_srv sw) →
  fresh_request (next_header (cw_clt cw) proc) (s_windows (w_srv sw)) →
  remembered_ok sw → usable c (w_conns sw) →
  plain_request jc proc lid cw pkt → transported pkt buf sz →
  dispatch js c buf sz sw = Fault VerifyFailed.
Proof.
  intros E Hprocs Hproc Hlid Hready Hclt Hsrv Hfresh Hrem Hc (req & xid & xr & req' & w' & Eput & Eb & Hh).
  pose proof Hready as (_ & _ & _ & _ & _ & _ & _ & _ & _ & Hid & _).
  assert (proc ≠ rpc_bind) as Hnb by (by destruct Hproc as [->|[[-> | ->] _]]).
  destruct (call1_begin_sends jc (pair_codec (uint_codec jc) (ull_codec jc)) _ _ proc
    (clt_nonce (cw_clt cw), lid) new_unmarshall cw p Hready Hnb (conj Hid Hlid))
    as (req1 & req2 & pkt' & w1 & Eput1 & Eb1 & _ & Hh' & Hpkt); [done|].
  cbn [put pair_codec] in Eput1. rewrite Eput in Eput1. injection Eput1 as <-.
  rewrite Eb in Eb1. injection Eb1 as _ _ <- _.
  rewrite <- (holds_inj _ _ _ Hh' Hh). clear Hh Hh' Eb Eput.
  assert (size (received pkt') < max_packet)%Z as Hsz
    by (by rewrite (req_packet_size _ _ _ (received_req _ _ _ Hpkt))).
  destruct (req_packet_fits _ _ _ Hpkt) as [Hfit _]; [done|].
  intros (-> & rest & ->)%transported_received; [|done].
  unfold lock_main, new_rpcs in E.
  apply bind_Ok in E as (s1 & E1%reg1_Ok & E).
  apply bind_Ok in E as (s2 & E2%reg1_Ok & E).
  apply bind_Ok in E as (s3 & E3%reg1_Ok & E%reg1_Ok).
  assert (∃ f, s_procs (w_srv sw) !! i32 proc = Some f ∧ ∀ u pre m,
    reads u pre (enc_uint (clt_nonce (cw_clt cw)) ++ enc_ull lid) →
    f (w_st sw) u m = Ok (unmarshal_args_failure, m, w_st sw)) as (f & Hf & Hbad).
  { rewrite Hprocs, E, E3, E2, E1. destruct Hproc as [->|[[-> | ->] Hlo]]; (eexists; split; [reflexivity|]).
    - intros u pre m Hu. by eapply plain_stat_refused.
    - intros u pre m Hu. by eapply plain_lock_refused.
    - intros u pre m Hu. by eapply plain_lock_refused. }
  apply (dispatch_bad_args js (next_header (cw_clt cw) proc)
    (enc_uint (clt_nonce (cw_clt cw)) ++ enc_ull lid) _ rest c sw f); try done.
  - by apply received_req.
  - by eapply next_header_ok.
  - by right.
Qed.

Definition ex_lock_program : outcome (rpcs lock_server_cache) := lock_main jz id (λ _, None) (λ _, None) 55 0.
Definition ex_lock_world : world lock_server_cache :=
  World (Rpcs 55 (Windows {[77%Z := [new_reply_t 5; new_reply_t 7]]} {[77 := 3]}%Z) ∅ 0 0 ∅ true
           (match ex_lock_program with Ok s => s_procs s | Fault _ => ∅ end))
    {[1 := ex_conn]} new_lock_server_cache [].

Lemma ex_lock_fresh :
  fresh_request (next_header (cw_clt ex_client) lock_protocol.stat) (s_windows (w_srv ex_lock_world)).
Proof.
  destruct ex_fresh as (H1 & H2 & H3 & H4). unfold fresh_request, next_header in *. cbn [rq_clt_nonce rq_xid rq_xid_rep] in *.
  by split_and!.
Qed.

#[local] Existing Instance keeping.
Lemma plain_client_aborts_server_witness :
  ∃ pkt buf sz, plain_request jz lock_protocol.stat 1 ex_client pkt ∧ transported pkt buf sz ∧
    dispatch jz 1 buf sz ex_lock_world = Fault VerifyFailed.
Proof.
  pose proof (pair_codec_ok _ _ _ _ _ _ (uint_codec_ok jz) (ull_codec_ok jz)) as Hok.
  destruct (call1_begin_sends jz _ _ _ lock_protocol.stat (77, 1)%Z new_unmarshall ex_client 0 ex_client_ready)
    as (req & req' & pkt & w' & Ep & Eb & _ & Hh & Hpkt).
  - discriminate.
  - simpl. lia.
  - reflexivity.
  - destruct (req_packet_fits _ _ _ Hpkt) as [Hfit _]; [done|].
    destruct (transported_exists pkt Hfit) as [buf Hbuf].
    assert (plain_request jz lock_protocol.stat 1 ex_client pkt) as Hreq.
    { exists req. do 4 eexists. split; [exact Ep|]. split; [exact Eb|exact Hh]. }
    exists pkt, buf, (size pkt). split; [exact Hreq|]. split; [exact Hbuf|].
    destruct ex_lock_program as [s|] eqn:Es; [|discriminate Es].
    eapply (plain_client_aborts_server jz jz id (λ _, None) (λ _, None) 55 0 s lock_protocol.stat 1
      ex_client 0 ex_lock_world 1 pkt).
    + exact Es.
    + unfold ex_lock_world. rewrite Es. reflexivity.
    + by left.
    + lia.
    + apply ex_client_ready.
    + discriminate.
    + reflexivity.
    + exact ex_lock_fresh.
    + intros clt c H. simpl in H. by rewrite lookup_empty in H.
    + exact ex_usable.
    + exact Hreq.
    + exact Hbuf.
Defined.

(** The client of lock_demo.cc, the server being gone: its call times out, and the
    check of the status in [lock_client::stat] ends the client as well. *)
Example lock_demo_aborts : lock_client_stat jz (Timespec 1000 0) (quiet_round <$> seq 0 9) 1 ex_client = Fault VerifyFailed.
Proof. vm_compute. reflexivity. Qed.
