(* ===== verification/ServerMain.v ===== *)
(** * The server programs from their command line

    [main] of lock_smain.cc and extent_smain.cc: the arguments and the environment, the
    RPC server with its listening socket (the constructors of rpcs and tcpsconn) and the
    registrations; [main] of lock_demo.cc.  What the system calls of the socket answer is
    an argument. *)

From stdpp Require Import base tactics numbers list gmap strings.
From Stdlib Require Import ZArith Lia Ascii.
From S2P Require Import Prelude CxxString Address Marshall Connection Acceptor RpcServer RpcTime RpcClient RpcCall Stubs ExtentServer LockServer LockClient Services.

(** The answers of socket, bind, listen, getsockname, pipe and the start of the thread;
    [na_bound]: the port that getsockname returns, by the one given to bind, both in
    network order. *)
Record net_answers := NetAnswers {
  na_socket : Z; na_bind : Z; na_listen : Z; na_getsockname : Z; na_bound : Z → Z; na_pipe : Z; na_thread : Z }.

(** [tcpsconn::tcpsconn], with its [port_]. *)
Definition new_tcpsconn (port lossytest : Z) (a : net_answers) : outcome (tcpsconn * Z) :=
  VERIFY (0 <=? na_socket a)%Z;;
  VERIFY (0 <=? na_bind a)%Z;;
  VERIFY (0 <=? na_listen a)%Z;;
  VERIFY (na_getsockname a =? 0)%Z;;
  let port_ := ntohs (na_bound a (htons port)) in
  VERIFY (0 <=? na_pipe a)%Z;;
  VERIFY (negb (na_thread a =? 0)%Z);;
  Ok (TcpsConn ∅ lossytest, port_).

(** The variable [name] of the environment as an int, 0 when it is not set. *)
Definition env_int (env : gmap bytes bytes) (name : bytes) : outcome Z :=
  match env !! name with Some v => atoi v | None => Ok 0%Z end.

(** What both programs do before the registrations: [None] when the usage is printed
    and the process exits with 1; else the count of RPC_COUNT and the listener. *)
Definition server_args (argv : list bytes) (env : gmap bytes bytes) (a : net_answers) :
    outcome (option (Z * tcpsconn * Z)) :=
  match argv with
  | [_; port] =>
      count ← env_int env (lit "RPC_COUNT");
      port ← atoi port;
      lossytest ← env_int env (lit "RPC_LOSSY");
      '(l, port_) ← new_tcpsconn port lossytest a;
      Ok (Some (count, l, port_))
  | _ => Ok None
  end.

Section programs.
Context (junk : nat → ascii) (argv : list bytes) (env : gmap bytes bytes) (a : net_answers) (nonce : Z).

(** A server that runs: the listener, its port, and the RPC server. *)
Definition running_server (S : Type) : Type := tcpsconn * Z * rpcs S.

(** [main] of lock_smain.cc *)
Definition lock_smain others revoke safebind : outcome (option (running_server lock_server_cache)) :=
  r ← server_args argv env a;
  match r with
  | None => Ok None
  | Some (count, l, port) => s ← lock_main junk others revoke safebind nonce count; Ok (Some (l, port, s))
  end.

(** [main] of extent_smain.cc *)
Definition extent_smain (now : Z) : outcome (option (running_server extent_server)) :=
  r ← server_args argv env a;
  match r with
  | None => Ok None
  | Some (count, l, port) => s ← extent_main junk now nonce count; Ok (Some (l, port, s))
  end.
End programs.

Section lock_demo.
Context (junk : nat → ascii) (inet_addr : bytes → Z) (gethostbyname : bytes → option (Z * Z)).

(** [lock_client::lock_client]: the client object, its address, and its bind, whose status
    is only printed; [nonce] is what [random] returns, [lossy] the value of RPC_LOSSY.
    [None]: make_sockaddr ends the process. *)
Definition new_lock_client (nonce lossy : Z) (now : timespec) (rounds : list round) (dst : bytes) :
    outcome (option (sockaddr_in * cworld)) :=
  a ← make_sockaddr inet_addr gethostbyname dst;
  match a with
  | None => Ok None
  | Some a =>
      '(_, w) ← RpcClient.bind junk now rounds to_max (CWorld (new_rpcc nonce lossy true) ∅ []);
      Ok (Some (a, w))
  end.

(** [main] of lock_demo.cc: what it prints, [None] is an exit with status 1; the clock and the rounds of
    its two calls are arguments. *)
Definition lock_demo (nonce lossy : Z) (now1 now2 : timespec) (rounds1 rounds2 : list round) (argv : list bytes) :
    outcome (option Z) :=
  match argv with
  | [_; dst] =>
      lc ← new_lock_client nonce lossy now1 rounds1 dst;
      match lc with
      | None => Ok None
      | Some (_, w) => '(r, _) ← lock_client_stat junk now2 rounds2 1 w; Ok (Some r)
      end
  | _ => Ok None
  end.
End lock_demo.

(** ** From the command line to the service *)

(** The system calls succeed, and a port that is asked for is the port one gets. *)
Definition net_ok (a : net_answers) : Prop :=
  (0 <= na_socket a)%Z ∧ (0 <= na_bind a)%Z ∧ (0 <= na_listen a)%Z ∧ na_getsockname a = 0%Z ∧
  (0 <= na_pipe a)%Z ∧ na_thread a ≠ 0%Z ∧ ∀ p, p ≠ 0%Z → na_bound a p = p.

(** The listener of a server that is started with a port. *)
Lemma server_args_port prog env a p count lossytest : (0 < p < 2 ^ 16)%Z → net_ok a →
  env_int env (lit "RPC_COUNT") = Ok count → env_int env (lit "RPC_LOSSY") = Ok lossytest →
  server_args [prog; show_u64 p] env a = Ok (Some (count, TcpsConn ∅ lossytest, p)).
Proof.
  intros Hp (Hs & Hb & Hl & Hg & Hpi & Ht & Hport) Hc Hlo. unfold server_args. rewrite Hc. run.
  rewrite atoi_show by lia. run. rewrite Hlo. run. unfold new_tcpsconn.
  rewrite !(proj2 (Z.leb_le 0 _)) by done. rewrite Hg. destruct (Z.eqb_spec (na_thread a) 0); [done|]. run.
  assert (htons p ≠ 0%Z) as Hne.
  { intros E. assert (htons 0 = 0%Z) as E0 by reflexivity. rewrite <- E0 in E. apply htons_inj in E; lia. }
  rewrite Hport by done. rewrite ntohs_htons by lia. done.
Qed.

Lemma reg1_counting {S} proc (h : handler S) s s' : reg1 proc h s = Ok s' → s_counting s' = s_counting s.
Proof. unfold reg1. intros ([] & _ & [= <-])%bind_Ok. done. Qed.

(** A sequence of registrations leaves the count. *)
Ltac counts E :=
  lazymatch type of E with
  | mbind _ _ = Ok _ => let s := fresh in let H := fresh in apply bind_Ok in E as (s & H & E); apply reg1_counting in H; counts E; congruence
  | _ => apply reg1_counting in E; simpl in *; try congruence
  end.

(** The server programs from the command line: with other than one argument they print
    the usage and serve nothing; with a port, and the system calls succeeding, both come
    to listen on that port with the count of RPC_COUNT, and serve the requests of their
    service; and when a call of the socket fails the process aborts instead. *)
Theorem servers_listen junk now nonce others revoke safebind prog env a p count lossytest :
  (0 < p < 2 ^ 16)%Z → env_int env (lit "RPC_COUNT") = Ok count → env_int env (lit "RPC_LOSSY") = Ok lossytest →
  (net_ok a →
    (∃ s, lock_smain junk [prog; show_u64 p] env a nonce others revoke safebind = Ok (Some (TcpsConn ∅ lossytest, p, s)) ∧
       s_counting s = count ∧ implements (s_procs s) (lock_service junk others revoke safebind nonce)) ∧
    (∃ s, extent_smain junk [prog; show_u64 p] env a nonce now = Ok (Some (TcpsConn ∅ lossytest, p, s)) ∧
       s_counting s = count ∧ implements (s_procs s) (extent_service junk now nonce))) ∧
  (((na_socket a < 0)%Z ∨ (na_bind a < 0)%Z ∨ (na_listen a < 0)%Z ∨ (na_pipe a < 0)%Z) →
    lock_smain junk [prog; show_u64 p] env a nonce others revoke safebind = Fault VerifyFailed ∧
    extent_smain junk [prog; show_u64 p] env a nonce now = Fault VerifyFailed) ∧
  (∀ argv, length argv ≠ 2 →
    lock_smain junk argv env a nonce others revoke safebind = Ok None ∧ extent_smain junk argv env a nonce now = Ok None).
Proof.
  intros Hp Hc Hlo. split_and!.
  - intros Hok. unfold lock_smain, extent_smain. rewrite (server_args_port _ _ _ _ _ _ Hp Hok Hc Hlo). run. split.
    + destruct (lock_main junk others revoke safebind nonce count) as [s|] eqn:E; [|discriminate E]. run.
      exists s. split; [done|]. split; [|by eapply lock_implements]. unfold lock_main, new_rpcs in E. by counts E.
    + destruct (extent_main junk now nonce count) as [s|] eqn:E; [|discriminate E]. run.
      exists s. split; [done|]. split; [|by eapply extent_implements]. unfold extent_main, new_rpcs in E. by counts E.
  - intros Hbad. assert (server_args [prog; show_u64 p] env a = Fault VerifyFailed) as E.
    { unfold server_args. rewrite Hc. run. rewrite atoi_show by lia. run. rewrite Hlo. run. unfold new_tcpsconn.
      destruct (Z.leb_spec 0 (na_socket a)), (Z.leb_spec 0 (na_bind a)), (Z.leb_spec 0 (na_listen a)),
        (Z.eqb_spec (na_getsockname a) 0), (Z.leb_spec 0 (na_pipe a)); run; try done; lia. }
    unfold lock_smain, extent_smain. by rewrite E.
  - intros argv Hargv. unfold lock_smain, extent_smain, server_args. by destruct argv as [|? [|? [|? ?]]].
Qed.

Definition ex_net : net_answers := NetAnswers 5 0 0 0 (λ p, p) 0 9.

Lemma servers_listen_witness :
  ∃ s, extent_smain jz [lit "extent_server"; show_u64 3772] ∅ ex_net 55 1000 = Ok (Some (TcpsConn ∅ 0, 3772%Z, s)).
Proof.
  destruct (servers_listen jz 1000 55 id (λ _, None) (λ _, None) (lit "extent_server") ∅ ex_net 3772 0 0)
    as (H & _).
  - lia.
  - reflexivity.
  - reflexivity.
  - destruct H as (_ & s & E & _); [by split_and!|]. exists s. exact E.
Defined.

(** lock_demo, the server being gone: the bind times out, so that the next call returns
    bind_failure, and the check of the status in [lock_client::stat] ends the process. *)
Example lock_demo_fails :
  lock_demo jz (λ _, 0%Z) (λ _, None) 7 0 (Timespec 1000 0) (Timespec 1200 0) (quiet_round <$> seq 0 9) [] [lit "lock_demo"; lit "3772"]
  = Fault VerifyFailed.
Proof. vm_compute. reflexivity. Qed.

(** lock_demo with a server that answers the bind and counts 3 requests for the lock. *)
Definition ex_answer (xid ret x : Z) : bytes := replicate 4 NUL ++ enc_reply_header (ReplyHeader xid ret) ++ replicate 12 NUL ++ enc_int x.
Example lock_demo_prints :
  lock_demo jz (λ _, 0%Z) (λ _, None) 7 0 (Timespec 1000 0) (Timespec 1001 0)
    [Round (Some (0, ex_conn)) (Timespec 1000 5) (deliver (ex_answer 1 0 55)) [Wakeup Ok false]]
    [Round None (Timespec 1001 5) (deliver (ex_answer 2 0 3)) [Wakeup Ok false]] [lit "lock_demo"; lit "3772"]
  = Ok (Some 3%Z).
Proof. vm_compute. reflexivity. Qed.
