(* ===== verification/LockProtocol.v ===== *)
(** * The cached-lock protocol (lock_client_cache.cc with lock_server_cache.cc)

    Threads at several clients and the lock server, as a step relation: between two
    steps a thread has given up a mutex, waits for one, or has a remote call under
    way.  The steps run the operations of LockServer.v and LockClient.v.  A remote
    call is served at most once; it may fail, before it is served or when its reply is
    lost, and its caller then goes on as the code does.

    A run ends when a thread unlocks a mutex that it does not have, or calls a server
    that it could not bind to: the server's acquire handler unlocks [serverlock_mutex] a
    second time when a revoke has not succeeded, and a client unlocks [lockmap_mutex] a
    second time when its call of release has failed.  What follows is undefined.

    A thread that calls the server to acquire keeps [lockmap_mutex] of its client
    meanwhile; the server's release handler keeps [serverlock_mutex] while it calls
    retry; the revoke call is made without a mutex. *)

From stdpp Require Import base tactics numbers list gmap sets strings functions relations.
From Stdlib Require Import ZArith Lia Ascii.
From S2P Require Import Prelude CxxString LockServer LockClient.

(** Where a thread is. *)
Inductive pc :=
  | Idle
  | Acquiring (lid : Z)               (* in acquire, before a look at the state *)
  | Waiting (lid : Z)                 (* in acquire, in pthread_cond_wait *)
  | Calling (lid : Z)                 (* in acquire, request sent; mutex kept *)
  | Revoking (lid : Z)                (* the handler of that request, before it reads the owner *)
  | RevokeSent (lid : Z) (o : bytes)  (* the handler, revoke called at [o] *)
  | Answered (lid : Z) (ret : Z)      (* in acquire, reply under way; mutex kept *)
  | Holding (lid : Z)                 (* acquire has returned *)
  | Flushing (lid : Z)                (* in release or give_back: in lu->dorelease *)
  | Returning (lid : Z)               (* in release or give_back: request sent *)
  | Retrying (lid : Z) (w : bytes)    (* the handler of that request; server mutex kept *)
  | SawFree (lid : Z)                 (* give_back has seen the lock free *)
  | Undefined (lid : Z).              (* has unlocked a mutex it did not have, or called NULL *)

#[global] Instance pc_eq_dec : EqDecision pc.
Proof. solve_decision. Defined.

(** The lock for which a thread keeps [lockmap_mutex] of its client. *)
Definition keeps_mutex (p : pc) : option Z :=
  match p with
  | Calling lid | Revoking lid | RevokeSent lid _ | Answered lid _ => Some lid
  | _ => None
  end.
Definition keeps_server (p : pc) : bool := match p with Retrying _ _ => true | _ => false end.

Record lsys := Lsys {
  server : lock_server_cache;
  client : bytes → lock_client_cache;
  pcs : nat → pc }.

Section protocol.
Context (home : nat → bytes).   (* the client of a thread, by its id *)

Definition lockmap_free (i : bytes) (σ : lsys) : Prop :=
  ∀ t, home t = i → keeps_mutex (pcs σ t) = None.
Definition serverlock_free (σ : lsys) : Prop := ∀ t, keeps_server (pcs σ t) = false.

(** No thread has done something undefined. *)
Definition defined (σ : lsys) : Prop := ∀ t lid, pcs σ t ≠ Undefined lid.

(** Where the acquire handler is after the revocation. *)
Definition revoked (lid : Z) (status : outcome Z) : pc :=
  match status with Ok ret => Answered lid ret | Fault _ => Undefined lid end.

Definition goto (t : nat) (p : pc) (σ : lsys) : lsys := Lsys (server σ) (client σ) (<[t := p]> (pcs σ)).
Definition at_client (i : bytes) (c : lock_client_cache) (σ : lsys) : lsys :=
  Lsys (server σ) (<[i := c]> (client σ)) (pcs σ).
Definition at_server (s : lock_server_cache) (σ : lsys) : lsys := Lsys s (client σ) (pcs σ).
Definition here (t : nat) (σ : lsys) : lock_client_cache := client σ (home t).

(** The next place of a thread after a look at the lock's state. *)
Definition look (t : nat) (lid : Z) (c : lock_client_cache) (σ : lsys) : lsys :=
  match acquire_look lid c with
  | Got c' => goto t (Holding lid) (at_client (home t) c' σ)
  | MustWait => goto t (Waiting lid) (at_client (home t) c σ)
  | MustCall => goto t (Calling lid) (at_client (home t) c σ)
  end.

Definition answer (t : nat) (lid ret : Z) (σ : lsys) : lsys :=
  match acquire_answered lid ret (here t σ) with
  | GotLock c => goto t (Holding lid) (at_client (home t) c σ)
  | RetryLater c => goto t (Waiting lid) (at_client (home t) c σ)
  | Unrecognized => look t lid (here t σ) σ
  end.

(** Which remote calls may fail: none; those that have not been served; any acquire,
    release and revoke, and a retry that has not been served. *)
Inductive failures := Never | Unserved | Anytime.

(** [quiet]: a give-back takes the lock only if it is still free, as it would be if
    the scan were made under the mutex. *)
Inductive lstep (quiet : bool) (f : failures) : lsys → lsys → Prop :=
  | step_acquire t lid σ :
      pcs σ t = Idle → lstep quiet f σ (goto t (Acquiring lid) σ)
  | step_enter t lid σ :
      pcs σ t = Acquiring lid → lockmap_free (home t) σ →
      lstep quiet f σ (look t lid (acquire_enter lid (here t σ)) σ)
  | step_wake t lid σ :
      pcs σ t = Waiting lid → lockmap_free (home t) σ →
      lstep quiet f σ (look t lid (here t σ) σ)
  | step_serve_acquire t lid v s σ :
      pcs σ t = Calling lid → serverlock_free σ →
      lsc_acquire_locked lid (home t) (server σ) = (v, s) →
      lstep quiet f σ (goto t (match v with
                            | Granted => Answered lid lock_protocol.OK
                            | Queued false => Answered lid lock_protocol.RETRY
                            | Queued true => Revoking lid
                            end) (at_server s σ))
  | step_read_owner t lid σ :
      pcs σ t = Revoking lid →
      lstep quiet f σ (goto t (if decide (owner lid (server σ) = []) then revoked lid (lsc_revoke_status None)
                            else RevokeSent lid (owner lid (server σ))) σ)
  | step_revoke t lid o r c σ :
      pcs σ t = RevokeSent lid o → lockmap_free o σ → revoke_handler lid (client σ o) = (r, c) →
      lstep quiet f σ (goto t (revoked lid (lsc_revoke_status (Some r))) (at_client o c σ))
  | step_answer t lid ret σ :
      pcs σ t = Answered lid ret → lstep quiet f σ (answer t lid ret σ)
  | step_keep t lid c σ :
      pcs σ t = Holding lid → lockmap_free (home t) σ → release_locked lid (here t σ) = Kept c →
      lstep quiet f σ (goto t Idle (at_client (home t) c σ))
  | step_give t lid c σ :
      pcs σ t = Holding lid → lockmap_free (home t) σ → release_locked lid (here t σ) = GiveBack c →
      lstep quiet f σ (goto t (Flushing lid) (at_client (home t) c σ))
  | step_flushed t lid σ :
      pcs σ t = Flushing lid → lstep quiet f σ (goto t (Returning lid) σ)
  | step_serve_release t lid w s σ :
      pcs σ t = Returning lid → serverlock_free σ → lsc_release lid (server σ) = (w, s) →
      lstep quiet f σ (goto t (match w with Some w => Retrying lid w | None => Idle end) (at_server s σ))
  | step_retry t lid w r c σ :
      pcs σ t = Retrying lid w → lockmap_free w σ → retry_handler lid (client σ w) = (r, c) →
      lstep quiet f σ (goto t Idle (at_client w c σ))
  | step_scan t lid σ :
      pcs σ t = Idle → give_back_scan (here t σ) = Some lid → lstep quiet f σ (goto t (SawFree lid) σ)
  | step_take t lid σ :
      pcs σ t = SawFree lid → lockmap_free (home t) σ →
      (quiet = true → lockstate lid (here t σ) = FREE) →
      lstep quiet f σ (goto t (Flushing lid) (at_client (home t) (give_back_take lid (here t σ)) σ))
  (* a call fails: acquire with a status that is neither OK nor RETRY *)
  | step_acquire_fails t lid ret σ :
      f ≠ Never → pcs σ t = Calling lid → (ret < 0)%Z → lstep quiet f σ (goto t (Answered lid ret) σ)
  | step_grant_lost t lid ret ret' σ :
      f = Anytime → pcs σ t = Answered lid ret → (ret' < 0)%Z → lstep quiet f σ (goto t (Answered lid ret') σ)
  | step_revoke_fails t lid o st σ :
      f ≠ Never → pcs σ t = RevokeSent lid o → from_option (λ st, (st < 0)%Z) True st →
      lstep quiet f σ (goto t (revoked lid (lsc_revoke_status st)) σ)
  | step_release_fails t lid σ :
      f ≠ Never → pcs σ t = Returning lid → lstep quiet f σ (goto t (Undefined lid) σ)
  | step_retry_fails t lid w σ :
      f ≠ Never → pcs σ t = Retrying lid w → lstep quiet f σ (goto t Idle σ)
  | step_retry_unbound t lid w σ :
      f ≠ Never → pcs σ t = Retrying lid w → lstep quiet f σ (goto t (Undefined lid) σ).

(** The steps of a program whose threads have done nothing undefined. *)
Definition step (quiet : bool) (f : failures) (σ σ' : lsys) : Prop := defined σ ∧ lstep quiet f σ σ'.

Definition start : lsys := Lsys new_lock_server_cache (λ _, new_lock_client_cache) (λ _, Idle).

(** ** The invariant *)

(** Who is responsible for a lock: the client that has it, or a thread on the way
    between it and the server. *)
Definition has (st : client_lock_state) : Prop := st = FREE ∨ st = LOCKED ∨ st = RELEASING.
Definition in_transit (p : pc) (lid : Z) : Prop :=
  p = Answered lid lock_protocol.OK ∨ p = Flushing lid ∨ p = Returning lid.
Definition st_of (σ : lsys) (i : bytes) (lid : Z) : client_lock_state := lockstate lid (client σ i).

Record linv (σ : lsys) : Prop := Linv {
  (* the server knows the responsible client *)
  inv_has i lid : has (st_of σ i lid) → i ≠ [] ∧ owner lid (server σ) = i;
  inv_transit t lid : in_transit (pcs σ t) lid → owner lid (server σ) = home t;
  (* there is one responsible *)
  inv_has_transit t lid : in_transit (pcs σ t) lid → ¬ has (st_of σ (home t) lid);
  inv_transit2 t t' lid : in_transit (pcs σ t) lid → in_transit (pcs σ t') lid → t = t';
  (* the holders *)
  inv_holding t lid :
    pcs σ t = Holding lid → st_of σ (home t) lid = LOCKED ∨ st_of σ (home t) lid = RELEASING;
  inv_holding2 t t' lid :
    pcs σ t = Holding lid → pcs σ t' = Holding lid → home t = home t' → t = t';
  (* a kept mutex *)
  inv_mutex t t' : home t = home t' → is_Some (keeps_mutex (pcs σ t)) →
    is_Some (keeps_mutex (pcs σ t')) → t = t';
  inv_none t lid : keeps_mutex (pcs σ t) = Some lid → st_of σ (home t) lid = NONE;
  (* a retry is sent for a lock that is at the server *)
  inv_retry t lid w : pcs σ t = Retrying lid w → owner lid (server σ) = [] }.

Hypothesis home_ne : ∀ t, home t ≠ [].

Lemma st_of_at i c σ t p j lid :
  st_of (goto t p (at_client i c σ)) j lid = if decide (j = i) then lockstate lid c else st_of σ j lid.
Proof.
  unfold st_of. simpl. destruct (decide (j = i)) as [->|].
  - by rewrite fn_lookup_insert.
  - by rewrite fn_lookup_insert_ne.
Qed.

Lemma pcs_at σ t p t' : pcs (goto t p σ) t' = if decide (t' = t) then p else pcs σ t'.
Proof.
  simpl. destruct (decide (t' = t)) as [->|].
  - by rewrite fn_lookup_insert.
  - by rewrite fn_lookup_insert_ne.
Qed.

(** A thread takes the lock [lid] of its client from state [a] to [b], moving from
    [p] to [q], under the client's mutex; nothing else changes. *)
Lemma linv_update σ t q i lid b c :
  linv σ → lockmap_free i σ ∨ (home t = i ∧ keeps_mutex (pcs σ t) = Some lid) →
  (∀ lid', lockstate lid' c = if decide (lid' = lid) then b else st_of σ i lid') →
  (* the responsibility for [lid] passes on, or stays *)
  (has b → has (st_of σ i lid) ∨ home t = i ∧ in_transit (pcs σ t) lid ∧ ¬ in_transit q lid) →
  (in_transit q lid → home t = i ∧ has (st_of σ i lid) ∧ ¬ has b) →
  (∀ lid', lid' ≠ lid → ¬ in_transit q lid') → (∀ lid', lid' ≠ lid → q ≠ Holding lid') →
  (∀ t', home t' = i → t' ≠ t → pcs σ t' = Holding lid → b = LOCKED ∨ b = RELEASING) →
  (q = Holding lid → home t = i ∧ (b = LOCKED ∨ b = RELEASING) ∧
     ∀ t', home t' = i → pcs σ t' = Holding lid → False) →
  (∀ lid', keeps_mutex q = Some lid' → home t = i ∧ lid' = lid ∧ b = NONE) →
  (∀ lid' w, q ≠ Retrying lid' w) →
  linv (goto t q (at_client i c σ)).
Proof.
  intros [I1 I2 I3 I4 I5 I6 I7 I8 I9] Hm Hc Hb Hq Hqo Hqh Hho Hqhold Hqm Hqr.
  assert (∀ j l, st_of (goto t q (at_client i c σ)) j l
    = if decide (j = i ∧ l = lid) then b else st_of σ j l) as Hst.
  { intros j l. rewrite st_of_at. destruct (decide (j = i)) as [->|];
      [rewrite Hc|]; repeat case_decide; naive_solver. }
  split.
  - intros j l. rewrite Hst. simpl. case_decide as E; [|apply I1]. destruct E as [-> ->].
    intros Hh. destruct (Hb Hh) as [?|(<- & Ht & _)]; [by apply I1|]. split; [done|by apply I2].
  - intros u l. rewrite pcs_at. simpl. case_decide as E; [subst u|apply I2]. intros Ht.
    destruct (decide (l = lid)) as [->|Hne]; [|by apply Hqo in Ht].
    destruct (Hq Ht) as (-> & Hh & _). by apply I1.
  - intros u l. rewrite pcs_at, Hst. case_decide as E.
    + subst u. intros Ht. destruct (decide (l = lid)) as [->|Hne]; [|by apply Hqo in Ht].
      destruct (Hq Ht) as (-> & _ & Hh). by rewrite decide_True.
    + intros Ht. case_decide as E'; [|by apply I3]. destruct E' as [Hu ->]. intros Hh.
      destruct (Hb Hh) as [Hh'|(Hi & Ht' & _)].
      * rewrite <- Hu in Hh'. by apply (I3 u lid).
      * apply E. by apply (I4 u t lid).
  - intros u u' l. rewrite !pcs_at. repeat case_decide; subst; try done; intros H1 H2.
    + destruct (decide (l = lid)) as [->|]; [|by apply Hqo in H1]. destruct (Hq H1) as (Hi & Hh & _).
      exfalso. apply (I3 u' lid H2). destruct (I1 _ _ Hh) as [_ Ho]. by rewrite <- (I2 u' lid H2), Ho.
    + destruct (decide (l = lid)) as [->|]; [|by apply Hqo in H2]. destruct (Hq H2) as (Hi & Hh & _).
      exfalso. apply (I3 u lid H1). destruct (I1 _ _ Hh) as [_ Ho]. by rewrite <- (I2 u lid H1), Ho.
    + by apply (I4 u u' l).
  - intros u l. rewrite pcs_at, Hst. case_decide as E.
    + subst u. intros ->. destruct (decide (l = lid)) as [->|Hne]; [|by destruct (Hqh l)].
      destruct (Hqhold eq_refl) as (-> & Hbb & _). by rewrite decide_True.
    + intros Hu. case_decide as E'; [|by apply I5]. destruct E' as [<- ->]. by eapply Hho.
  - intros u u' l. rewrite !pcs_at. repeat case_decide; subst; try done; intros H1 H2 Hh.
    + subst q. destruct (decide (l = lid)) as [->|]; [|by destruct (Hqh l)].
      destruct (Hqhold eq_refl) as (Hi & _ & Hno). exfalso. apply (Hno u'); [congruence|done].
    + subst q. destruct (decide (l = lid)) as [->|]; [|by destruct (Hqh l)].
      destruct (Hqhold eq_refl) as (Hi & _ & Hno). exfalso. apply (Hno u); [congruence|done].
    + by apply (I6 u u' l).
  - intros u u' Hh. rewrite !pcs_at. repeat case_decide; subst; try done; intros [l1 H1] [l2 H2];
    cbn [pcs at_client] in *.
    + destruct (Hqm l1 H1) as (Hi & _). destruct Hm as [Hm|[_ Hm]].
      * rewrite (Hm u') in H2 by congruence. done.
      * apply I7; [done|by exists lid|eauto].
    + destruct (Hqm l2 H2) as (Hi & _). destruct Hm as [Hm|[_ Hm]].
      * rewrite (Hm u) in H1 by congruence. done.
      * apply I7; [done|eauto|by exists lid].
    + apply I7; eauto.
  - intros u l. rewrite pcs_at, Hst. case_decide as E.
    + subst u. intros Hk. destruct (Hqm l Hk) as (-> & -> & ->). by rewrite decide_True.
    + cbn [pcs at_client]. intros Hk. case_decide as E'; [|by apply I8].
      destruct E' as [Hu ->]. exfalso.
      destruct Hm as [Hm|[Hi Hm]]; [by rewrite Hm in Hk|].
      apply E. apply I7; [congruence|eauto|eauto].
  - intros u l w. rewrite pcs_at. simpl. case_decide as E; [intros Hr; by apply Hqr in Hr|apply I9].
Qed.

(** A thread moves, and the server's record changes to [s]: locks that were at the
    server may be granted, and the lock the thread brings back may be taken in. *)
Lemma linv_move σ t q s :
  linv σ →
  (∀ l, owner l s = owner l (server σ) ∨ owner l (server σ) = [] ∨
        in_transit (pcs σ t) l ∧ ¬ in_transit q l) →
  (∀ l, in_transit q l → owner l s = home t ∧
        (in_transit (pcs σ t) l ∨ owner l (server σ) = [])) →
  (∀ l, q ≠ Holding l) → (∀ l, keeps_mutex q = Some l → keeps_mutex (pcs σ t) = Some l) →
  (∀ l w, q = Retrying l w → owner l s = []) →
  s = server σ ∨ serverlock_free σ →
  linv (goto t q (at_server s σ)).
Proof.
  intros [I1 I2 I3 I4 I5 I6 I7 I8 I9] Ho Hq Hqh Hqm Hqr Hs.
  assert (∀ i l, has (st_of σ i l) → owner l s = i) as Hhas.
  { intros i l Hh. destruct (I1 i l Hh) as [Hi Hl]. destruct (Ho l) as [->|[?|[Ht _]]]; [done|congruence|].
    exfalso. apply (I3 t l Ht). rewrite (I2 t l Ht) in Hl. by rewrite Hl. }
  assert (∀ u l, u ≠ t → in_transit (pcs σ u) l → owner l s = owner l (server σ)) as Htr.
  { intros u l Hu Ht. destruct (Ho l) as [->|[He|[Ht' _]]]; [done| |].
    - rewrite (I2 u l Ht) in He. by apply home_ne in He.
    - by destruct (Hu (I4 u t l Ht Ht')). }
  assert (∀ u l, u ≠ t → in_transit (pcs σ u) l → in_transit q l → False) as Hone.
  { intros u l Hu Ht Ht'. destruct (Hq l Ht') as [_ [Ht2|He]]; [by apply Hu, (I4 u t l)|].
    rewrite (I2 u l Ht) in He. by apply home_ne in He. }
  split.
  - intros i l Hh. change (has (st_of σ i l)) in Hh. split; [by apply (I1 i l)|by apply Hhas].
  - intros u l. rewrite pcs_at. simpl. case_decide as E; [subst|].
    + intros Ht. by apply Hq.
    + intros Ht. rewrite (Htr u l E Ht). by apply I2.
  - intros u l. rewrite pcs_at. change (st_of (goto t q (at_server s σ)) (home u) l)
      with (st_of σ (home u) l). simpl. case_decide as E; [subst u|apply I3].
    intros Ht Hh. destruct (Hq l Ht) as [_ [Ht'|He]]; [by apply (I3 t l)|].
    destruct (I1 _ _ Hh) as [Hn Hh']. congruence.
  - intros u u' l. rewrite !pcs_at. repeat case_decide; subst; try done; intros H1 H2; cbn [pcs at_server] in *.
    + exfalso. by eapply (Hone u').
    + exfalso. by eapply (Hone u).
    + by apply (I4 u u' l).
  - intros u l. rewrite pcs_at. simpl. case_decide as E; [intros Hh; by apply Hqh in Hh|]. apply I5.
  - intros u u' l. rewrite !pcs_at. repeat case_decide; subst; try done; intros H1 H2 Hh;
      cbn [pcs at_server] in *; try (by apply Hqh in H1); try (by apply Hqh in H2). by apply (I6 u u' l).
  - intros u u' Hh. rewrite !pcs_at. repeat case_decide; subst; try done; intros [l1 H1] [l2 H2];
      cbn [pcs at_server] in *.
    + apply I7; eauto.
    + apply I7; eauto.
    + apply I7; eauto.
  - intros u l. rewrite pcs_at. change (st_of (goto t q (at_server s σ)) (home u) l)
      with (st_of σ (home u) l). case_decide as E; [subst u|apply I8]. intros Hk. by apply I8, Hqm.
  - intros u l w. rewrite pcs_at. simpl. case_decide as E; [intros Hr; by eapply Hqr|].
    intros Hr. destruct Hs as [->|Hs]; [by eapply I9|]. specialize (Hs u). by rewrite Hr in Hs.
Qed.

Lemma linv_start : linv start.
Proof.
  split; unfold start, st_of, lockstate; simpl; try done.
  - intros i lid Hh. rewrite lookup_empty in Hh. by destruct Hh as [|[|]].
  - intros t lid Ht. by destruct Ht as [|[|]].
  - intros t lid Ht. by destruct Ht as [|[|]].
  - intros t t' lid Ht. by destruct Ht as [|[|]].
Qed.

(** What the server's critical sections do to the record of owners. *)
Lemma lsc_acquire_owner lid id s v s' l :
  lsc_acquire_locked lid id s = (v, s') →
  (v = Granted ∧ owner lid s = [] ∧ owner l s' = if decide (l = lid) then id else owner l s) ∨
  (∃ b, v = Queued b) ∧ owner l s' = owner l s.
Proof.
  unfold lsc_acquire_locked, owner. destruct (where_is_lock s !! lid) as [w|] eqn:E.
  - case_decide as Hw.
    + intros [= <- <-]. left. simpl. subst. split_and!; [done..|].
      case_decide; [subst; by rewrite lookup_insert_eq|by rewrite lookup_insert_ne].
    + intros [= <- <-]. right. eauto.
  - intros [= <- <-]. left. simpl. split_and!; [done..|].
    case_decide; [subst; by rewrite lookup_insert_eq|by rewrite lookup_insert_ne].
Qed.

Lemma lsc_release_owner lid s w s' l :
  lsc_release lid s = (w, s') → owner l s' = if decide (l = lid) then [] else owner l s.
Proof.
  unfold lsc_release, owner. destruct (waiters lid s); intros [= <- <-]; simpl;
    (case_decide; [subst; by rewrite lookup_insert_eq|by rewrite lookup_insert_ne]).
Qed.

(** Places that carry nothing. *)
Lemma linv_goto σ t q :
  linv σ → (∀ l, ¬ in_transit q l ∨ in_transit (pcs σ t) l) → (∀ l, q ≠ Holding l) →
  (∀ l, keeps_mutex q = Some l → keeps_mutex (pcs σ t) = Some l) → (∀ l w, q ≠ Retrying l w) →
  linv (goto t q σ).
Proof.
  intros Hinv Hq Hh Hm Hr. pose proof Hinv as [_ I2 _ _ _ _ _ _ _].
  replace σ with (at_server (server σ) σ) by (by destruct σ).
  apply linv_move; try done; auto.
  - intros l Ht. destruct (Hq l) as [?|Ht']; [done|]. split; [by apply I2|by left].
  - intros l w ->. by destruct (Hr l w).
Qed.

Ltac transit :=
  repeat match goal with H : forall _ : _, _ |- _ => clear H end;
  repeat match goal with H : linv _ |- _ => clear H end;
  unfold in_transit, has in *; naive_solver.

Lemma linv_look σ t lid c :
  linv σ → lockmap_free (home t) σ ∨ keeps_mutex (pcs σ t) = Some lid →
  (∀ l, lockstate l c = st_of σ (home t) l) → linv (look t lid c σ).
Proof.
  intros Hinv Hm Hc. pose proof Hinv as [_ _ _ _ I5 _ _ _ _]. unfold look, acquire_look.
  rewrite Hc. destruct (st_of σ (home t) lid) eqn:E.
  - apply linv_update with (lid := lid) (b := NONE); try done; try transit.
    + intros l. rewrite Hc. case_decide; [by subst|done].
    + intros t' Ht' _ Hh. apply I5 in Hh. rewrite Ht', E in Hh. by destruct Hh.
  - apply linv_update with (lid := lid) (b := LOCKED); try done; try transit.
    + intros l. rewrite lockstate_set, Hc. done.
    + intros _. split_and!; [done|by left|]. intros t' Ht' Hh. apply I5 in Hh. rewrite Ht', E in Hh.
      by destruct Hh.
  - apply linv_update with (lid := lid) (b := LOCKED); try done; try transit.
    intros l. rewrite Hc. case_decide; [by subst|done].
  - apply linv_update with (lid := lid) (b := ACQUIRING); try done; try transit.
    + intros l. rewrite Hc. case_decide; [by subst|done].
    + intros t' Ht' _ Hh. apply I5 in Hh. rewrite Ht', E in Hh. by destruct Hh.
  - apply linv_update with (lid := lid) (b := RELEASING); try done; try transit.
    intros l. rewrite Hc. case_decide; [by subst|done].
Qed.

Lemma at_server_same σ : at_server (server σ) σ = σ.
Proof. by destruct σ. Qed.

(** A release is called by a holder, so the state it finds is one of two. *)
Lemma release_locked_cases lid c :
  lockstate lid c = LOCKED ∨ lockstate lid c = RELEASING →
  release_locked lid c
  = if decide (lockstate lid c = LOCKED) then Kept (set_lockstate lid FREE c)
    else GiveBack (set_lockstate lid NONE c).
Proof.
  unfold release_locked, lockstate. destruct (lockstate_map c !! lid) as [[]|]; simpl; naive_solver.
Qed.

(** A revoke marks a lock that is in use at a client. *)
Lemma linv_revoke σ i lid c :
  linv σ → lockmap_free i σ →
  (∀ l, lockstate l c = if decide (l = lid ∧ st_of σ i lid = LOCKED) then RELEASING else st_of σ i l) →
  linv (at_client i c σ).
Proof.
  intros [I1 I2 I3 I4 I5 I6 I7 I8 I9] Hm Hc.
  assert (∀ j l, st_of (at_client i c σ) j l = st_of σ j l ∨
    j = i ∧ l = lid ∧ st_of σ j l = LOCKED ∧ st_of (at_client i c σ) j l = RELEASING) as Hst.
  { intros j l. unfold st_of in *. simpl. destruct (decide (j = i)) as [->|Hne].
    - rewrite fn_lookup_insert, Hc.
      destruct (decide (l = lid ∧ lockstate lid (client σ i) = LOCKED)) as [[-> E]|]; [|by left].
      right. by split_and!.
    - rewrite fn_lookup_insert_ne by done. by left. }
  split; try done.
  - intros j l. destruct (Hst j l) as [->|(-> & -> & E & _)]; [apply I1|]. intros _. apply I1. transit.
  - intros t l Ht. destruct (Hst (home t) l) as [->|(_ & -> & E & _)]; [by apply I3|].
    exfalso. apply (I3 t lid Ht). transit.
  - intros t l Hh. destruct (Hst (home t) l) as [->|(_ & _ & _ & ->)]; [by apply I5|by right].
  - intros t l Hk. destruct (Hst (home t) l) as [->|(Hi & _)]; [by apply I8|].
    simpl in Hk. by rewrite (Hm t Hi) in Hk.
Qed.

Lemma revoke_handler_ok lid c r c' : revoke_handler lid c = (r, c') → r = rlock_protocol.OK.
Proof. unfold revoke_handler. by case_match; intros [= <- <-]. Qed.
Lemma revoke_failed lid st : from_option (λ st, (st < 0)%Z) True st → revoked lid (lsc_revoke_status st) = Undefined lid.
Proof.
  destruct st as [st|]; [|done]. simpl. intros Hst. rewrite decide_False; [done|]. unfold rlock_protocol.OK. lia.
Qed.

Lemma linv_step f σ σ' : lstep true f σ σ' → linv σ → linv σ'.
Proof.
  intros Hs Hinv. pose proof Hinv as [I1 I2 I3 I4 I5 I6 I7 I8 I9].
  destruct Hs as [t lid σ Hp|t lid σ Hp Hm|t lid σ Hp Hm|t lid v s σ Hp Hsf Ha|t lid σ Hp
    |t lid o r c σ Hp Hm Hr|t lid ret σ Hp|t lid c σ Hp Hm Hr|t lid c σ Hp Hm Hr|t lid σ Hp
    |t lid w s σ Hp Hsf Hr|t lid w r c σ Hp Hm Hr|t lid σ Hp Hg|t lid σ Hp Hm Hq
    |t lid ret σ Hf Hp Hret|t lid ret ret' σ Hf Hp Hret|t lid o st σ Hf Hp Hst|t lid σ Hf Hp|t lid w σ Hf Hp|t lid w σ Hf Hp].
  - apply linv_goto; try done. transit.
  - apply linv_look; [done|by left|]. intros l. by rewrite lockstate_enter.
  - apply linv_look; [done|by left|done].
  - assert (∀ l, owner l s = owner l (server σ) ∨ owner l (server σ) = []) as Ho.
    { intros l. destruct (lsc_acquire_owner _ _ _ _ _ l Ha) as [(_ & He & El)|(_ & El)]; [|by left].
      case_decide; [subst; by right|by left]. }
    apply linv_move; try done; try (by right); try (by destruct v as [|[]]).
    + intros l. destruct (Ho l); auto.
    + intros l Ht. destruct (lsc_acquire_owner _ _ _ _ _ l Ha) as [(-> & He & El)|((b & ->) & _)].
      * destruct Ht as [[= ->]|[?|?]]; [|done..]. rewrite decide_True in El by done. auto.
      * destruct b; transit.
    + intros l. rewrite Hp. by destruct v as [|[]].
  - apply linv_goto; try done; case_decide; try done; [transit|transit|]; intros l; by rewrite Hp.
  - assert (home t = o ∨ home t ≠ o) as [Ho|Ho] by (destruct (decide (home t = o)); auto).
    { (* a revoke at the caller's own client never gets the mutex *)
      specialize (Hm t Ho). by rewrite Hp in Hm. }
    assert (∀ l, lockstate l c = if decide (l = lid ∧ st_of σ o lid = LOCKED) then RELEASING
                                 else st_of σ o l) as Hc.
    { intros l. replace c with (revoke_handler lid (client σ o)).2 by (by rewrite Hr).
      apply revoke_handler_state. }
    apply linv_goto; [by eapply linv_revoke|..]; rewrite (revoke_handler_ok _ _ _ _ Hr); simpl; rewrite ?Hp; try done.
    transit.
  - unfold answer, acquire_answered, here. case_decide as Ho.
    { subst ret. apply linv_update with (lid := lid) (b := LOCKED); try done; try transit.
      - right. by rewrite Hp.
      - intros l. apply lockstate_set.
      - intros _. split_and!; [done|by left|]. intros t' Ht' Hh. apply (I3 t lid); [rewrite Hp; by left|].
        rewrite <- Ht'. apply I5 in Hh. transit. }
    case_decide as Hret; [|apply linv_look; [done|right; by rewrite Hp|done]].
    apply linv_update with (lid := lid) (b := ACQUIRING); try done; try transit.
    + right. by rewrite Hp.
    + intros l. apply lockstate_set.
    + intros t' Ht' _ Hh. apply I5 in Hh. rewrite Ht', (I8 t lid) in Hh by (by rewrite Hp).
      by destruct Hh.
  - assert (lockstate lid (here t σ) = LOCKED ∨ lockstate lid (here t σ) = RELEASING) as Hst
      by (by apply (I5 t lid)).
    rewrite release_locked_cases in Hr by done. case_decide as E; [|done]. injection Hr as <-.
    apply linv_update with (lid := lid) (b := FREE); try done; try transit.
    + intros l. apply lockstate_set.
    + intros t' Ht' Hne Hh. destruct Hne. by apply (I6 t' t lid).
  - assert (lockstate lid (here t σ) = LOCKED ∨ lockstate lid (here t σ) = RELEASING) as Hst
      by (by apply (I5 t lid)).
    rewrite release_locked_cases in Hr by done. case_decide as E; [done|]. injection Hr as <-.
    apply linv_update with (lid := lid) (b := NONE); try done; try transit.
    + intros l. apply lockstate_set.
    + intros t' Ht' Hne Hh. destruct Hne. by apply (I6 t' t lid).
  - apply linv_goto; try done. rewrite Hp. intros l.
    destruct (decide (l = lid)) as [->|]; [right; by right; left|left; transit].
  - apply linv_move; try done; try (by right); try (by destruct w).
    + intros l. rewrite (lsc_release_owner _ _ _ _ l Hr), Hp.
      destruct (decide (l = lid)) as [->|]; [|by left]. right. right.
      split; [by right; right|]. destruct w; transit.
    + intros l. destruct w; transit.
    + intros l w'. rewrite (lsc_release_owner _ _ _ _ l Hr). destruct w; [|done].
      intros [= -> ->]. by rewrite decide_True.
  - assert (¬ has (st_of σ w lid)) as Hn.
    { intros Hh. destruct (I1 _ _ Hh) as [Hw Ho]. rewrite (I9 t lid w Hp) in Ho. done. }
    unfold retry_handler in Hr. case_decide as Hcv; injection Hr as <- <-.
    + apply linv_update with (lid := lid) (b := NONE); try done; try transit.
      * intros l. apply lockstate_set.
      * intros t' <- _ Hh. apply I5 in Hh. transit.
    + apply linv_update with (lid := lid) (b := st_of σ w lid); try done; try transit.
      * intros l. case_decide; [by subst|done].
      * intros t' <- _ Hh. by apply I5.
  - apply linv_goto; try done. transit.
  - specialize (Hq eq_refl). apply linv_update with (lid := lid) (b := NONE); try done; try transit.
    + intros l. apply lockstate_set.
    + intros t' Ht' _ Hh. apply I5 in Hh. unfold st_of, here in *. rewrite Ht', Hq in Hh. by destruct Hh.
  - apply linv_goto; try done; [|intros l; by rewrite Hp]. assert (ret ≠ lock_protocol.OK) by (unfold lock_protocol.OK; lia). transit.
  - apply linv_goto; try done; [|intros l; by rewrite Hp]. assert (ret' ≠ lock_protocol.OK) by (unfold lock_protocol.OK; lia). transit.
  - rewrite (revoke_failed _ st) by done. apply linv_goto; try done. transit.
  - apply linv_goto; try done. transit.
  - apply linv_goto; try done. transit.
  - apply linv_goto; try done. transit.
Qed.

Lemma linv_reachable f σ : rtc (step true f) start σ → linv σ.
Proof.
  intros Hr. pose proof linv_start as Hi. revert Hi. generalize start Hr. clear Hr. intros σ0 Hr.
  induction Hr as [|x y z [_ Hxy] _ IH]; [done|]. intros Hx. by eapply IH, linv_step.
Qed.

(** ** No lock is lost *)

(** A lock the server has given out is with its owner, or on the way between them. *)
Definition accounted (σ : lsys) (lid : Z) : Prop :=
  owner lid (server σ) = [] ∨ has (st_of σ (owner lid (server σ)) lid) ∨
  ∃ t, home t = owner lid (server σ) ∧ in_transit (pcs σ t) lid.

Lemma accounted_update σ t q i lid b c :
  (∀ l, lockstate l c = if decide (l = lid) then b else st_of σ i l) →
  (has (st_of σ i lid) → has b ∨ home t = i ∧ in_transit q lid) →
  (∀ l, in_transit (pcs σ t) l → in_transit q l ∨ l = lid ∧ home t = i ∧ has b) →
  ∀ l, accounted σ l → accounted (goto t q (at_client i c σ)) l.
Proof.
  intros Hc Hb Hq l. unfold accounted. rewrite st_of_at.
  change (server (goto t q (at_client i c σ))) with (server σ).
  assert (in_transit q l → home t = owner l (server σ) →
    ∃ u, home u = owner l (server σ) ∧ in_transit (pcs (goto t q (at_client i c σ)) u) l) as Hme.
  { intros Ht Ho. exists t. rewrite pcs_at. by rewrite decide_True. }
  intros [?|[Hh|(u & Hu & Ht)]]; [by left|right..].
  - destruct (decide (owner l (server σ) = i)) as [E|]; [|by left]. rewrite Hc. rewrite E in Hh.
    destruct (decide (l = lid)) as [->|]; [|by left]. destruct (Hb Hh) as [?|[? ?]]; [by left|].
    right. apply Hme; [done|congruence].
  - destruct (decide (u = t)) as [->|Hne].
    + destruct (Hq l Ht) as [?|(-> & Hi & Hhb)]; [right; by apply Hme|]. left.
      rewrite <- Hu, Hi, decide_True, Hc by done. by rewrite decide_True.
    + right. exists u. rewrite pcs_at. by rewrite decide_False.
Qed.

Lemma accounted_move σ t q s :
  (∀ l, in_transit (pcs σ t) l → in_transit q l ∨ owner l s = []) →
  (∀ l, owner l s = [] ∨ owner l s = owner l (server σ) ∨ owner l s = home t ∧ in_transit q l) →
  ∀ l, accounted σ l → accounted (goto t q (at_server s σ)) l.
Proof.
  intros Hq Ho l Ha. unfold accounted in *.
  change (st_of (goto t q (at_server s σ))) with (st_of σ). change (server (goto t q (at_server s σ))) with s.
  destruct (Ho l) as [?|[E|[E Ht]]]; [by left| |].
  - rewrite E. destruct Ha as [?|[?|(u & Hu & Ht)]]; [by left|by right; left|].
    destruct (decide (u = t)) as [->|Hne].
    + destruct (Hq l Ht) as [?|?]; [|left; congruence]. right. right. exists t. rewrite pcs_at.
      by rewrite decide_True.
    + right. right. exists u. rewrite pcs_at. by rewrite decide_False.
  - right. right. exists t. rewrite E, pcs_at. by rewrite decide_True.
Qed.

Lemma accounted_goto σ t q :
  (∀ l, in_transit (pcs σ t) l → in_transit q l) → ∀ l, accounted σ l → accounted (goto t q σ) l.
Proof.
  destruct σ as [s c p]. intros Hq. apply (accounted_move (Lsys s c p) t q s); [by left; apply Hq|by right; left].
Qed.

Lemma accounted_look σ t lid c :
  (∀ l, ¬ in_transit (pcs σ t) l) → (∀ l, lockstate l c = st_of σ (home t) l) →
  ∀ l, accounted σ l → accounted (look t lid c σ) l.
Proof.
  intros Hp Hc. unfold look, acquire_look. rewrite Hc.
  assert (∀ q, ∀ l, accounted σ l → accounted (goto t q (at_client (home t) c σ)) l) as Hsame.
  { intros q. apply (accounted_update _ _ _ _ lid (st_of σ (home t) lid)).
    - intros l. rewrite Hc. case_decide; [by subst|done].
    - by left.
    - by intros l ?%Hp. }
  destruct (st_of σ (home t) lid) eqn:E; try apply Hsame.
  apply (accounted_update _ _ _ _ lid LOCKED); [|transit|by intros l ?%Hp].
  intros l. by rewrite lockstate_set, Hc.
Qed.

Lemma accounted_step f σ σ' :
  linv σ → lstep true f σ σ' → f ≠ Anytime → defined σ' → ∀ l, accounted σ l → accounted σ' l.
Proof.
  intros Hi Hs Hany Hdef. pose proof Hi as [I1 I2 I3 I4 I5 I6 I7 I8 I9].
  destruct Hs as [t lid σ Hp|t lid σ Hp Hm|t lid σ Hp Hm|t lid v s σ Hp Hsf Ha|t lid σ Hp
    |t lid o r c σ Hp Hm Hr|t lid ret σ Hp|t lid c σ Hp Hm Hr|t lid c σ Hp Hm Hr|t lid σ Hp
    |t lid w s σ Hp Hsf Hr|t lid w r c σ Hp Hm Hr|t lid σ Hp Hg|t lid σ Hp Hm Hq
    |t lid ret σ Hf Hp Hret|t lid ret ret' σ Hf Hp Hret|t lid o st σ Hf Hp Hst|t lid σ Hf Hp|t lid w σ Hf Hp|t lid w σ Hf Hp].
  - apply accounted_goto. rewrite Hp. transit.
  - apply accounted_look; [rewrite Hp; transit|]. intros l. by rewrite lockstate_enter.
  - apply accounted_look; [rewrite Hp; transit|done].
  - apply accounted_move; [rewrite Hp; transit|]. intros l.
    destruct (lsc_acquire_owner _ _ _ _ _ l Ha) as [(-> & _ & ->)|(_ & ->)]; [|by right; left].
    case_decide; [subst; right; right; split; [done|by left]|by right; left].
  - apply accounted_goto. rewrite Hp. transit.
  - apply (accounted_update _ _ _ _ lid (if decide (st_of σ o lid = LOCKED) then RELEASING else st_of σ o lid)).
    + intros l. pose proof (revoke_handler_state lid (client σ o) l) as H. rewrite Hr in H. simpl in H.
      rewrite H. unfold st_of. repeat case_decide; naive_solver.
    + intros Hh. left. case_decide; [transit|done].
    + rewrite Hp. transit.
  - unfold answer, acquire_answered. case_decide as E1.
    { subst. apply (accounted_update _ _ _ _ lid LOCKED); [intros l; apply lockstate_set|transit|].
      rewrite Hp. transit. }
    case_decide as E2.
    + apply (accounted_update _ _ _ _ lid ACQUIRING); [intros l; apply lockstate_set| |rewrite Hp; transit].
      rewrite (I8 t lid) by (by rewrite Hp). transit.
    + apply accounted_look; [rewrite Hp; transit|done].
  - assert (lockstate lid (here t σ) = LOCKED ∨ lockstate lid (here t σ) = RELEASING) as Hst
      by (by apply (I5 t lid)).
    rewrite release_locked_cases in Hr by done. case_decide as E; [|done]. injection Hr as <-.
    apply (accounted_update _ _ _ _ lid FREE); [intros l; apply lockstate_set|transit|rewrite Hp; transit].
  - assert (lockstate lid (here t σ) = LOCKED ∨ lockstate lid (here t σ) = RELEASING) as Hst
      by (by apply (I5 t lid)).
    rewrite release_locked_cases in Hr by done. case_decide as E; [done|]. injection Hr as <-.
    apply (accounted_update _ _ _ _ lid NONE); [intros l; apply lockstate_set|transit|rewrite Hp; transit].
  - apply accounted_goto. rewrite Hp. transit.
  - apply accounted_move.
    + rewrite Hp. intros l [?|[?|[= ->]]]; [done..|]. right. rewrite (lsc_release_owner _ _ _ _ l Hr).
      by rewrite decide_True.
    + intros l. rewrite (lsc_release_owner _ _ _ _ l Hr). case_decide; auto.
  - assert (¬ has (st_of σ w lid)) as Hn.
    { intros Hh. destruct (I1 _ _ Hh) as [Hw Ho]. rewrite (I9 t lid w Hp) in Ho. done. }
    unfold retry_handler in Hr. case_decide as Hcv; injection Hr as <- <-.
    + apply (accounted_update _ _ _ _ lid NONE); [intros l; apply lockstate_set|done|rewrite Hp; transit].
    + apply (accounted_update _ _ _ _ lid (st_of σ w lid)); [|done|rewrite Hp; transit].
      intros l. case_decide; [by subst|done].
  - apply accounted_goto. rewrite Hp. transit.
  - apply (accounted_update _ _ _ _ lid NONE); [intros l; apply lockstate_set|transit|rewrite Hp; transit].
  - apply accounted_goto. rewrite Hp. transit.
  - done.
  - apply accounted_goto. rewrite Hp. transit.
  - exfalso. apply (Hdef t lid). rewrite pcs_at. by rewrite decide_True.
  - apply accounted_goto. rewrite Hp. transit.
  - apply accounted_goto. rewrite Hp. transit.
Qed.

Lemma accounted_reachable f σ :
  rtc (step true f) start σ → f ≠ Anytime → defined σ → ∀ lid, accounted σ lid.
Proof.
  intros Hr Hany. assert (∀ lid, accounted start lid) as Ha by (intros; by left).
  pose proof linv_start as Hi. revert Hi Ha. generalize start Hr. clear Hr. intros σ0 Hr.
  induction Hr as [|x y z [_ Hxy] Hyz IH]; [done|]. intros Hx Ha Hz.
  assert (defined y) as Hy by (by destruct Hyz as [|y y' z [Hy _] _]).
  apply IH; [by eapply linv_step| |done]. intros lid. by eapply accounted_step.
Qed.

(** A lock has one holder. *)
Lemma linv_one_holder σ t t' lid :
  linv σ → pcs σ t = Holding lid → pcs σ t' = Holding lid → t = t'.
Proof.
  intros [I1 _ _ _ I5 I6 _ _ _] H1 H2.
  assert (∀ u, pcs σ u = Holding lid → has (st_of σ (home u) lid)) as Hhas
    by (intros u Hu; apply I5 in Hu; unfold has; tauto).
  apply (I6 t t' lid); [done..|]. by rewrite <- (proj2 (I1 _ _ (Hhas _ H1))), <- (proj2 (I1 _ _ (Hhas _ H2))).
Qed.

(** The lock a thread is acquiring or holds. *)
Definition lock_of (p : pc) : option Z :=
  match p with
  | Acquiring lid | Waiting lid | Calling lid | Revoking lid | RevokeSent lid _ | Answered lid _
  | Holding lid => Some lid
  | _ => None
  end.

Lemma step_lock_of quiet f σ σ' t lid :
  step quiet f σ σ' → lock_of (pcs σ' t) = Some lid →
  lock_of (pcs σ t) = Some lid ∨ pcs σ' t = Acquiring lid.
Proof.
  intros [_ Hs].
  assert (∀ u q σ1, pcs σ1 = pcs σ → (lock_of q = Some lid → lock_of (pcs σ u) = Some lid ∨ q = Acquiring lid) →
    lock_of (pcs (goto u q σ1) t) = Some lid →
    lock_of (pcs σ t) = Some lid ∨ pcs (goto u q σ1) t = Acquiring lid) as Hgo.
  { intros u q σ1 E Hq. rewrite pcs_at, E. case_decide; [subst; apply Hq|by left]. }
  assert (∀ u l c, lock_of (pcs σ u) = Some l → lock_of (pcs (look u l c σ) t) = Some lid →
    lock_of (pcs σ t) = Some lid ∨ pcs (look u l c σ) t = Acquiring lid) as Hlook.
  { intros u l c Hu. unfold look. case_match; (apply Hgo; [done|]); intros [= <-]; by left. }
  destruct Hs as [u l σ Hp|u l σ Hp _|u l σ Hp _|u l v s σ Hp _ _|u l σ Hp|u l o r c σ Hp _ _
    |u l ret σ Hp|u l c σ Hp _ _|u l c σ Hp _ _|u l σ Hp|u l w s σ Hp _ _|u l w r c σ Hp _ _
    |u l σ Hp _|u l σ Hp _ _|u l ret σ _ Hp _|u l ret ret' σ _ Hp _|u l o st σ _ Hp Hst|u l σ _ Hp|u l w σ _ Hp|u l w σ _ Hp];
    try (apply Hlook; by rewrite Hp); try (apply Hgo; [done|]; rewrite Hp; try done).
  - intros [= <-]. by right.
  - destruct v as [|[]]; intros [= <-]; by left.
  - case_decide; intros [= <-]; by left.
  - destruct (lsc_revoke_status _); intros [= <-]; by left.
  - unfold answer. case_match; [apply Hgo; [done|]; intros [= <-]; left; by rewrite Hp..|].
    apply Hlook. by rewrite Hp.
  - by destruct w.
  - intros [= <-]. by left.
  - intros [= <-]. by left.
  - by rewrite (revoke_failed _ _ Hst).
Qed.

(** A step moves one thread. *)
Lemma look_one t lid c σ u : u ≠ t → pcs (look t lid c σ) u = pcs σ u.
Proof. intros Hu. unfold look. destruct (acquire_look lid c); simpl; by rewrite fn_lookup_insert_ne. Qed.
Lemma answer_one t lid ret σ u : u ≠ t → pcs (answer t lid ret σ) u = pcs σ u.
Proof.
  intros Hu. unfold answer. destruct (acquire_answered lid ret (here t σ)); [| |by apply look_one];
    simpl; by rewrite fn_lookup_insert_ne.
Qed.
Lemma step_one quiet f σ σ' : step quiet f σ σ' → ∃ t, ∀ u, u ≠ t → pcs σ' u = pcs σ u.
Proof.
  intros [_ Hs]. destruct Hs; exists t; intros u Hu; try by (simpl; rewrite fn_lookup_insert_ne). all: by (apply look_one || apply answer_one).
Qed.

(** A thread that gives its lock up goes on without one. *)
Lemma step_from_holding quiet f σ σ' t lid :
  step quiet f σ σ' → pcs σ t = Holding lid → pcs σ' t ≠ Holding lid → lock_of (pcs σ' t) = None.
Proof.
  intros [_ Hs] Hp Hn. rewrite <- Hp in Hn.
  destruct Hs as [w l σ Hw|w l σ Hw|w l σ Hw|w l v s σ Hw|w l σ Hw|w l o r c σ Hw|w l ret σ Hw|w l c σ Hw|w l c σ Hw|w l σ Hw
    |w l w' s σ Hw|w l w' r c σ Hw|w l σ Hw|w l σ Hw|w l ret σ _ Hw|w l ret ret' σ _ Hw|w l o st σ _ Hw|w l σ _ Hw|w l w' σ _ Hw|w l w' σ _ Hw];
    (destruct (decide (t = w)) as [->|Htw];
      [rewrite Hp in Hw; try discriminate Hw; simpl; by rewrite fn_lookup_insert
      |exfalso; apply Hn; rewrite ?look_one, ?answer_one by done; simpl; by rewrite ?fn_lookup_insert_ne by done]).
Qed.

(** Two threads that wait for each other: the server's release handler for the
    other's client, and that client's acquire for the server. *)
Definition stuck (t t' : nat) (lid lid' : Z) (σ : lsys) : Prop :=
  pcs σ t = Retrying lid (home t') ∧ pcs σ t' = Calling lid'.

Lemma stuck_step quiet t t' lid lid' σ σ' :
  step quiet Never σ σ' → stuck t t' lid lid' σ → stuck t t' lid lid' σ'.
Proof.
  intros [_ Hs] [H1 H2].
  assert (¬ lockmap_free (home t') σ) as Hm by (intros Hm; specialize (Hm t' eq_refl); by rewrite H2 in Hm).
  assert (¬ serverlock_free σ) as Hv by (intros Hv; specialize (Hv t); by rewrite H1 in Hv).
  assert (∀ u q σ1, pcs σ1 = pcs σ → u ≠ t → u ≠ t' → stuck t t' lid lid' (goto u q σ1)) as Hgo.
  { intros u q σ1 E ? ?. unfold stuck. rewrite !pcs_at, E. by repeat case_decide; simplify_eq. }
  assert (∀ u l c, u ≠ t → u ≠ t' → stuck t t' lid lid' (look u l c σ)) as Hlook.
  { intros u l c ? ?. unfold look. case_match; by apply Hgo. }
  assert (∀ u, pcs σ u ≠ Retrying lid (home t') → pcs σ u ≠ Calling lid' → u ≠ t ∧ u ≠ t') as Hne
    by (intros u ? ?; split; intros ->; done).
  destruct Hs as [u l σ Hp|u l σ Hp _|u l σ Hp _|u l v s σ Hp Hsf _|u l σ Hp|u l o r c σ Hp _ _
    |u l ret σ Hp|u l c σ Hp _ _|u l c σ Hp _ _|u l σ Hp|u l w s σ Hp Hsf _|u l w r c σ Hp Hf _
    |u l σ Hp _|u l σ Hp _ _|u l ret σ []|u l ret ret' σ [=]|u l o st σ []|u l σ []|u l w σ []|u l w σ []]; try done;
    try (destruct (Hne u) as [? ?]; [by rewrite Hp..|]; by (apply Hgo || apply Hlook)).
  - destruct (Hne u) as [? ?]; [by rewrite Hp..|]. unfold answer.
    case_match; by (apply Hgo || apply Hlook).
  - assert (u ≠ t') by (intros ->; congruence). apply Hgo; [done| |done].
    intros ->. rewrite H1 in Hp. by injection Hp as <- <-.
Qed.

Lemma stuck_forever quiet t t' lid lid' σ σ' :
  rtc (step quiet Never) σ σ' → stuck t t' lid lid' σ → stuck t t' lid lid' σ'.
Proof. induction 1; [done|]. intros. by eapply IHrtc, stuck_step. Qed.

(** ** Running the protocol

    The steps of threads among [ts], the others being idle, as a function: what
    thread [t] does next, or starts to do. *)
Inductive label := LAcquire (t : nat) (lid : Z) | LScan (t : nat) | LGo (t : nat).

Definition lockmap_freeb (ts : list nat) (i : bytes) (σ : lsys) : bool :=
  forallb (λ t, if decide (home t = i) then bool_decide (keeps_mutex (pcs σ t) = None) else true) ts.
Definition serverlock_freeb (ts : list nat) (σ : lsys) : bool :=
  forallb (λ t, negb (keeps_server (pcs σ t))) ts.
Definition when (b : bool) (σ : lsys) : option lsys := if b then Some σ else None.

Definition go (quiet : bool) (ts : list nat) (t : nat) (σ : lsys) : option lsys :=
  match pcs σ t with
  | Idle => None
  | Acquiring lid =>
      when (lockmap_freeb ts (home t) σ) (look t lid (acquire_enter lid (here t σ)) σ)
  | Waiting lid => when (lockmap_freeb ts (home t) σ) (look t lid (here t σ) σ)
  | Calling lid =>
      let '(v, s) := lsc_acquire_locked lid (home t) (server σ) in
      when (serverlock_freeb ts σ)
        (goto t (match v with
                 | Granted => Answered lid lock_protocol.OK
                 | Queued false => Answered lid lock_protocol.RETRY
                 | Queued true => Revoking lid
                 end) (at_server s σ))
  | Revoking lid =>
      Some (goto t (if decide (owner lid (server σ) = []) then revoked lid (lsc_revoke_status None)
                    else RevokeSent lid (owner lid (server σ))) σ)
  | RevokeSent lid o =>
      let '(r, c) := revoke_handler lid (client σ o) in
      when (lockmap_freeb ts o σ) (goto t (revoked lid (lsc_revoke_status (Some r))) (at_client o c σ))
  | Answered lid ret => Some (answer t lid ret σ)
  | Holding lid =>
      match release_locked lid (here t σ) with
      | NoSuchLock => None
      | Kept c => when (lockmap_freeb ts (home t) σ) (goto t Idle (at_client (home t) c σ))
      | GiveBack c => when (lockmap_freeb ts (home t) σ) (goto t (Flushing lid) (at_client (home t) c σ))
      end
  | Flushing lid => Some (goto t (Returning lid) σ)
  | Returning lid =>
      let '(w, s) := lsc_release lid (server σ) in
      when (serverlock_freeb ts σ)
        (goto t (match w with Some w => Retrying lid w | None => Idle end) (at_server s σ))
  | Retrying lid w =>
      let '(r, c) := retry_handler lid (client σ w) in
      when (lockmap_freeb ts w σ) (goto t Idle (at_client w c σ))
  | SawFree lid =>
      when (lockmap_freeb ts (home t) σ && (negb quiet || bool_decide (lockstate lid (here t σ) = FREE)))
        (goto t (Flushing lid) (at_client (home t) (give_back_take lid (here t σ)) σ))
  | Undefined _ => None
  end.

Definition definedb (ts : list nat) (σ : lsys) : bool :=
  forallb (λ t, match pcs σ t with Undefined _ => false | _ => true end) ts.

Definition exec (quiet : bool) (ts : list nat) (l : label) (σ : lsys) : option lsys :=
  if negb (definedb ts σ) then None else
  match l with
  | LAcquire t lid =>
      match pcs σ t with
      | Idle => when (bool_decide (t ∈ ts)) (goto t (Acquiring lid) σ)
      | _ => None
      end
  | LScan t =>
      match pcs σ t, give_back_scan (here t σ) with
      | Idle, Some lid => when (bool_decide (t ∈ ts)) (goto t (SawFree lid) σ)
      | _, _ => None
      end
  | LGo t => go quiet ts t σ
  end.

Definition replay (quiet : bool) (ts : list nat) (ls : list label) (σ : lsys) : option lsys :=
  foldl (λ m l, m ≫= exec quiet ts l) (Some σ) ls.

Definition idle_outside (ts : list nat) (σ : lsys) : Prop := ∀ t, t ∉ ts → pcs σ t = Idle.

Lemma lockmap_freeb_ok ts i σ : idle_outside ts σ → lockmap_freeb ts i σ = true → lockmap_free i σ.
Proof.
  intros Hi Hb t Ht. destruct (decide (t ∈ ts)) as [Hin|Hni]; [|by rewrite (Hi t Hni)].
  apply forallb_forall with (x := t) in Hb; [|by apply list_elem_of_In].
  rewrite decide_True in Hb by done. by apply bool_decide_eq_true in Hb.
Qed.
Lemma serverlock_freeb_ok ts σ : idle_outside ts σ → serverlock_freeb ts σ = true → serverlock_free σ.
Proof.
  intros Hi Hb t. destruct (decide (t ∈ ts)) as [Hin|Hni]; [|by rewrite (Hi t Hni)].
  apply forallb_forall with (x := t) in Hb; [|by apply list_elem_of_In].
  by apply negb_true_iff in Hb.
Qed.
Lemma definedb_ok ts σ : idle_outside ts σ → definedb ts σ = true → defined σ.
Proof.
  intros Hi Hb t lid. destruct (decide (t ∈ ts)) as [Hin|Hni]; [|by rewrite (Hi t Hni)].
  apply forallb_forall with (x := t) in Hb; [|by apply list_elem_of_In]. by destruct (pcs σ t).
Qed.
Lemma when_Some b σ σ' : when b σ = Some σ' ↔ b = true ∧ σ' = σ.
Proof. destruct b; simpl; naive_solver. Qed.

Lemma go_step quiet f ts t σ σ' :
  idle_outside ts σ → go quiet ts t σ = Some σ' → lstep quiet f σ σ' ∧ pcs σ t ≠ Idle.
Proof.
  intros Hi Hg. unfold go in Hg.
  destruct (pcs σ t) eqn:Hp; repeat case_match; try discriminate;
    try (apply when_Some in Hg as [Hb ->]); simplify_eq;
    (split; [|done]); try (apply andb_prop in Hb as [Hb Hb']).
  all: try (apply (lockmap_freeb_ok _ _ _ Hi) in Hb || apply (serverlock_freeb_ok _ _ Hi) in Hb).
  all: try first [by eapply step_enter | by eapply step_wake | by eapply step_revoke
    | by eapply step_answer | by eapply step_keep | by eapply step_give | by eapply step_flushed
    | by eapply step_retry].
  all: try match goal with H : lsc_acquire_locked _ _ _ = (?v, ?s) |- _ =>
    exact (step_serve_acquire _ f t _ v s σ Hp Hb H) end.
  all: try match goal with H : lsc_release _ _ = (?w, ?s) |- _ =>
    exact (step_serve_release _ f t _ w s σ Hp Hb H) end.
  all: try (pose proof (step_read_owner quiet f t _ σ Hp) as Hs; revert Hs; by case_decide).
  apply step_take; [done..|]. intros ->. by apply bool_decide_eq_true in Hb'.
Qed.

Lemma exec_step quiet f ts l σ σ' :
  idle_outside ts σ → exec quiet ts l σ = Some σ' →
  step quiet f σ σ' ∧ idle_outside ts σ'.
Proof.
  intros Hi He. unfold exec in He. destruct (definedb ts σ) eqn:Hd; [|done]. apply (definedb_ok _ _ Hi) in Hd.
  cbn [negb] in He. unfold step.
  assert (lstep quiet f σ σ' ∧ idle_outside ts σ') as [? ?]; [|done].
  assert (∀ t, t ∈ ts → (∀ t', t' ≠ t → pcs σ' t' = pcs σ t') → idle_outside ts σ') as Hout.
  { intros t Ht Hsame t' Hn. rewrite Hsame; [by apply Hi|]. intros ->. done. }
  destruct l as [t lid|t|t]; simpl in He.
  - destruct (pcs σ t) eqn:Hp; try done. apply when_Some in He as [Hb ->].
    apply bool_decide_eq_true in Hb. split; [by constructor|]. apply (Hout t); [done|].
    intros t' Hne. rewrite pcs_at. by case_decide.
  - destruct (pcs σ t) eqn:Hp; try done. destruct (give_back_scan (here t σ)) eqn:Hg; [|done].
    apply when_Some in He as [Hb ->].
    apply bool_decide_eq_true in Hb. split; [by constructor|]. apply (Hout t); [done|].
    intros t' Hne. rewrite pcs_at. by case_decide.
  - destruct (go_step _ f _ _ _ _ Hi He) as [Hs Hp]. split; [done|].
    apply (Hout t).
    { destruct (decide (t ∈ ts)) as [?|Hn]; [done|]. by rewrite (Hi t Hn) in Hp. }
    intros t' Hne. clear Hout Hs. unfold go in He.
    assert (∀ q σ1, pcs σ1 = pcs σ → pcs (goto t q σ1) t' = pcs σ t') as Hgo.
    { intros q σ1 E. rewrite pcs_at, E. by case_decide. }
    assert (∀ l c, pcs (look t l c σ) t' = pcs σ t') as Hlook.
    { intros l c. unfold look. destruct (acquire_look l c); by apply Hgo. }
    destruct (pcs σ t) eqn:Hpt; repeat case_match; try done;
      try (apply when_Some in He as [_ ->]); simplify_eq; try (by apply Hgo); try (by apply Hlook).
    unfold answer. destruct (acquire_answered _ _ _); by (apply Hgo || apply Hlook).
Qed.

Lemma replay_steps_idle quiet f ts ls σ σ' :
  idle_outside ts σ → replay quiet ts ls σ = Some σ' → rtc (step quiet f) σ σ' ∧ idle_outside ts σ'.
Proof.
  unfold replay. revert σ. induction ls as [|l ls IH]; intros σ Hi Hr; simpl in Hr.
  { injection Hr as ->. by split. }
  destruct (exec quiet ts l σ) as [σ1|] eqn:He.
  - destruct (exec_step _ f _ _ _ _ Hi He) as [Hs Hi1]. destruct (IH σ1 Hi1 Hr) as [Hr1 ?].
    split; [by eapply rtc_l|done].
  - exfalso. clear -Hr. induction ls; simpl in *; [done|auto].
Qed.

Lemma replay_steps quiet f ts ls σ σ' :
  idle_outside ts σ → replay quiet ts ls σ = Some σ' → rtc (step quiet f) σ σ'.
Proof. intros Hi Hr. by apply (replay_steps_idle quiet f ts ls). Qed.

End protocol.

(** ** Properties *)

(** C13: Mutual exclusion of the cached locks.  Take the runs of any number of threads
    at any number of clients in which no thread changes a lock at a client between
    give_back's unlocked look at it and its change of it, and in which a remote call
    that fails does so before its handler has begun or, for an acquire, a release or a
    revoke, also when its reply is lost; a run ends where a mutex is unlocked by a
    thread that does not have it (after a failed revoke or release) or a client that
    cannot be bound is called.  In every state reached two threads never hold the same
    lock, and while a client writes its cached extent back before returning a lock, no
    thread anywhere holds that lock.  If moreover only calls that have not been served
    have failed, and nothing undefined has been done, no lock is lost: one that the
    server has given out is in the state FREE, LOCKED or RELEASING at the client the
    server knows as its owner, or a thread of that client is on the way with it. *)
Theorem cached_locks_mutual_exclusion home f σ :
  (∀ t, home t ≠ []) → rtc (step home true f) start σ →
  (∀ t t' lid, pcs σ t = Holding lid → pcs σ t' = Holding lid → t = t') ∧
  (∀ t t' lid, pcs σ t = Flushing lid → pcs σ t' ≠ Holding lid) ∧
  (f ≠ Anytime → defined σ → ∀ lid, accounted home σ lid).
Proof.
  intros Hne Hr. pose proof (linv_reachable home Hne f σ Hr) as Hinv.
  pose proof Hinv as [I1 I2 I3 I4 I5 I6 I7 I8 I9].
  split; [intros t t' lid; by apply (linv_one_holder home)|].
  split; [|by eapply accounted_reachable]. intros t t' lid H1 H2.
  assert (in_transit (pcs σ t) lid) as Ht by (right; by left).
  assert (has (st_of σ (home t') lid)) as Hhas by (apply I5 in H2; unfold has; tauto).
  apply (I3 t lid Ht). by rewrite <- (I2 t lid Ht), (proj2 (I1 _ _ Hhas)).
Qed.

(** The clients of the concrete runs: threads 0 and 1 at one, the others at another. *)
Definition ex_home (t : nat) : bytes := if decide (t ≤ 1) then lit "a" else lit "b".

Definition threads4 : list nat := [0; 1; 2; 3].

Lemma start_idle ts : idle_outside ts start.
Proof. done. Qed.

(** Thread 0 acquires lock 1; thread 2, at the other client, asks for it and causes a
    revoke; thread 0 gives it back; thread 2 is told to retry and gets it. *)
Definition ex_run_quiet : list label :=
  [LAcquire 0 1; LGo 0; LGo 0; LGo 0; LAcquire 2 1; LGo 2; LGo 2; LGo 2; LGo 2; LGo 2; LGo 0;
   LGo 0; LGo 0; LGo 0; LGo 2; LGo 2; LGo 2].

Lemma cached_locks_mutual_exclusion_witness :
  match replay ex_home true threads4 ex_run_quiet start with
  | Some σ => pcs σ 2 = Holding 1 ∧ (∀ t, pcs σ t = Holding 1 → t = 2) ∧ owner 1 (server σ) = ex_home 2 ∧
              accounted ex_home σ 1
  | None => False
  end.
Proof.
  destruct (replay ex_home true threads4 ex_run_quiet start) as [σ|] eqn:E.
  - assert (pcs σ 2 = Holding 1) as H2 by (vm_compute in E; injection E as <-; reflexivity).
    destruct (cached_locks_mutual_exclusion ex_home Unserved σ) as (H & _ & Hacc).
    + intros u. unfold ex_home. by case_decide.
    + eapply replay_steps; [apply start_idle|exact E].
    + split_and!; [exact H2| | |].
      * intros t Ht. by apply (H t 2 1%Z).
      * vm_compute in E. injection E as <-. reflexivity.
      * apply Hacc; [discriminate|]. apply (definedb_ok threads4).
        -- by apply (replay_steps_idle ex_home true Unserved threads4 ex_run_quiet start).
        -- vm_compute in E. injection E as <-. reflexivity.
  - vm_compute in E. discriminate.
Defined.

(** Thread 0 acquires lock 1 and keeps it at its client; thread 1, that client's
    give-back, sees it free; thread 0 takes it again; thread 1 gives it back to the
    server; thread 2 gets it there. *)
Definition ex_run_race : list label :=
  [LAcquire 0 1; LGo 0; LGo 0; LGo 0; LGo 0; LScan 1; LAcquire 0 1; LGo 0; LGo 1; LGo 1; LGo 1;
   LAcquire 2 1; LGo 2; LGo 2; LGo 2].

(** The scan of the give-back thread reads the lock's state without the mutex and
    does not look again after taking it: a run of the code exists in which two threads
    of different clients hold the same lock at the same time. *)
Theorem give_back_breaks_mutual_exclusion :
  ∃ σ, rtc (step ex_home false Never) start σ ∧
    pcs σ 0 = Holding 1 ∧ pcs σ 2 = Holding 1 ∧ ex_home 0 ≠ ex_home 2.
Proof.
  destruct (replay ex_home false threads4 ex_run_race start) as [σ|] eqn:E.
  - exists σ. split; [by eapply replay_steps; [apply start_idle|exact E]|].
    vm_compute in E. injection E as <-. split_and!; [reflexivity..|discriminate].
  - vm_compute in E. discriminate.
Qed.

(** Thread 0 holds lock 1; thread 2, at the other client, has asked for it; thread 3,
    at the same client as thread 2, asks for lock 2; thread 0 gives lock 1 back. *)
Definition ex_run_deadlock : list label :=
  [LAcquire 0 1; LGo 0; LGo 0; LGo 0; LAcquire 2 1; LGo 2; LGo 2; LGo 2; LGo 2; LGo 2;
   LAcquire 3 2; LGo 3; LGo 0; LGo 0; LGo 0].

(** The server's release handler keeps the server's mutex while it calls retry,
    and a client keeps its own mutex while it calls acquire.  A run exists, without
    the race of the give-back, after which a release and an acquire wait for each
    other in every continuation in which no call fails: the deadlock ends only when one
    of the calls times out. *)
Theorem release_retry_deadlock :
  ∃ σ, rtc (step ex_home true Never) start σ ∧
    ∀ σ', rtc (step ex_home false Never) σ σ' →
      pcs σ' 0 = Retrying 1 (ex_home 3) ∧ pcs σ' 3 = Calling 2.
Proof.
  destruct (replay ex_home true threads4 ex_run_deadlock start) as [σ|] eqn:E.
  - exists σ. split; [by eapply replay_steps; [apply start_idle|exact E]|].
    intros σ' Hr. apply (stuck_forever ex_home false 0 3 1 2 σ σ' Hr).
    vm_compute in E. injection E as <-. split; reflexivity.
  - vm_compute in E. discriminate.
Qed.

(** Thread 0 holds lock 1; thread 2, at the other client, asks for it, and the server
    forgets its mutex before it reads the owner; thread 0, whose client has been sent no
    revoke yet, lets the lock go and thread 1, that client's give-back, returns it. *)
Definition ex_run_undefined : list label :=
  [LAcquire 0 1; LGo 0; LGo 0; LGo 0; LAcquire 2 1; LGo 2; LGo 2; LGo 0; LScan 1; LGo 1; LGo 1; LGo 1; LGo 2].

(** The server's acquire handler reads the owner after it has unlocked, and unlocks a
    second time when the owner cannot be sent the revoke: a run exists, without the race
    of the give-back and without a failed call, in which it does so while a release
    handler of another thread holds the mutex. *)
Theorem acquire_unlocks_twice :
  ∃ σ, rtc (step ex_home true Never) start σ ∧ pcs σ 2 = Undefined 1 ∧ keeps_server (pcs σ 1) = true.
Proof.
  destruct (replay ex_home true threads4 ex_run_undefined start) as [σ|] eqn:E.
  - exists σ. split; [by eapply replay_steps; [apply start_idle|exact E]|].
    vm_compute in E. injection E as <-. split; reflexivity.
  - vm_compute in E. discriminate.
Qed.
