(* ===== verification/Cluster.v ===== *)
(** * Locks and caches together

    The whole distributed store: the threads of all clients in the lock protocol of
    LockProtocol.v, the extent caches and the extent server of Coherence.v.  A thread
    uses an extent while it holds the lock of the same number, and
    [lock_release_action::dorelease] flushes the extent between the release at the
    client and the request to the lock server.  Coherence.v assumes that the clients
    keep a discipline; here the lock protocol is shown to enforce it.

    A thread that holds two locks, as [yfs_client::create] does, is two threads of the
    model. *)

From stdpp Require Import base tactics numbers list gmap sets strings functions relations.
From Stdlib Require Import ZArith Lia Ascii.
From S2P Require Import Prelude CxxString Marshall Connection RpcServer RpcTime RpcClient RpcCall ExtentServer ExtentClient Coherence LockServer LockClient LockProtocol.

Record cluster := Cluster { k_lock : lsys; k_data : system }.

(** The client and the extent that an operation of the file system touches. *)
Definition touches (op : coh_op) : option (bytes * Z) :=
  match op with
  | Get i eid _ | Getattr i eid | Put i eid _ _ => Some (i, eid)
  | Acquire _ _ | Release _ _ _ => None
  end.

(** A step of the lock protocol in which no thread is granted a lock by the server and
    none ends its flush. *)
Definition silent (σ σ' : lsys) : Prop :=
  ∀ t lid, (pcs σ t = Flushing lid → pcs σ' t = Flushing lid) ∧
           (pcs σ t = Answered lid lock_protocol.OK → pcs σ' t ≠ Holding lid).

Section cluster.
Context (home : nat → bytes).

(** The steps, with the operation on the extents and its reply; a flush, and the first
    use of an extent at a client, call the extent server. *)
Inductive cstep : cluster → list (coh_op * coh_reply) → cluster → Prop :=
  | c_lock σ σ' d : step home true Anytime σ σ' → silent σ σ' → cstep (Cluster σ d) [] (Cluster σ' d)
  | c_granted t lid σ d r d' :
      defined σ → pcs σ t = Answered lid lock_protocol.OK → coh_exec (Acquire (home t) lid) d = Ok (r, d') →
      cstep (Cluster σ d) [(Acquire (home t) lid, r)]
        (Cluster (answer home t lid lock_protocol.OK σ) d')
  | c_flush t lid now σ d r d' :
      defined σ → pcs σ t = Flushing lid → coh_exec (Release (home t) lid now) d = Ok (r, d') →
      cstep (Cluster σ d) [(Release (home t) lid now, r)] (Cluster (goto t (Returning lid) σ) d')
  | c_use t lid op σ d r d' :
      defined σ → pcs σ t = Holding lid → touches op = Some (home t, lid) → coh_exec op d = Ok (r, d') →
      cstep (Cluster σ d) [(op, r)] (Cluster σ d').

Inductive cruns : cluster → list (coh_op * coh_reply) → cluster → Prop :=
  | cruns_nil κ : cruns κ [] κ
  | cruns_cons κ κ' κ'' ev tr : cstep κ ev κ' → cruns κ' tr κ'' → cruns κ (ev ++ tr) κ''.

Definition cstart (now : Z) : cluster := Cluster start (System (new_extent_server now) ∅ ∅).

(** ** Who may have an extent in its cache

    A client that has the lock, in whatever state, and one that is flushing. *)
Definition may_cache (σ : lsys) (i : bytes) (lid : Z) : Prop :=
  has (st_of σ i lid) ∨ ∃ t, home t = i ∧ pcs σ t = Flushing lid.

(** A thread moves without a flush, and nothing changes at the clients. *)
Lemma may_cache_goto σ t q s i lid :
  (∀ l, pcs σ t ≠ Flushing l) → (∀ l, q ≠ Flushing l) →
  may_cache (goto t q (at_server s σ)) i lid ↔ may_cache σ i lid.
Proof.
  intros Hp Hq. unfold may_cache. change (st_of (goto t q (at_server s σ)) i lid) with (st_of σ i lid).
  assert (∀ u, pcs (goto t q (at_server s σ)) u = Flushing lid ↔ pcs σ u = Flushing lid) as Hpc.
  { intros u. rewrite pcs_at. case_decide as E; [subst; split; [by intros ?%Hq|by intros ?%Hp]|done]. }
  by setoid_rewrite Hpc.
Qed.

Lemma may_cache_move σ t q i lid :
  (∀ l, pcs σ t ≠ Flushing l) → (∀ l, q ≠ Flushing l) → may_cache (goto t q σ) i lid ↔ may_cache σ i lid.
Proof. destruct σ as [s c p]. apply (may_cache_goto (Lsys s c p) t q s). Qed.

(** A thread changes the state of one lock at a client. *)
Lemma may_cache_update σ t q i lid b c :
  (∀ l, pcs σ t ≠ Flushing l) → (∀ l, q = Flushing l → l = lid ∧ home t = i) →
  (∀ l, lockstate l c = if decide (l = lid) then b else st_of σ i l) →
  (has b ∨ q = Flushing lid ↔ has (st_of σ i lid)) →
  ∀ j l, may_cache (goto t q (at_client i c σ)) j l ↔ may_cache σ j l.
Proof.
  intros Hp Hq Hc Hb j l. unfold may_cache.
  assert ((∃ u, home u = j ∧ pcs (goto t q (at_client i c σ)) u = Flushing l) ↔
    (home t = j ∧ q = Flushing l) ∨ ∃ u, home u = j ∧ pcs σ u = Flushing l) as ->.
  { split.
    - intros (u & Hu & Hf). rewrite pcs_at in Hf. case_decide; [subst; by left|right; eauto].
    - intros [[Hj ->]|(u & Hu & Hf)].
      + exists t. rewrite pcs_at. by rewrite decide_True.
      + exists u. rewrite pcs_at. rewrite decide_False; [done|]. intros ->. by apply Hp in Hf. }
  rewrite st_of_at. destruct (decide (j = i)) as [->|Hj].
  - rewrite Hc. destruct (decide (l = lid)) as [->|Hl].
    + rewrite <- Hb. split; [|intros [[?|Hf]|?]; auto]; [naive_solver|]. right. left.
      split; [by apply (Hq lid)|done].
    + split; [|tauto]. intros [?|[[_ Hf]|?]]; [tauto| |tauto]. by destruct (Hq l Hf).
  - split; [|tauto]. intros [?|[[Ht Hf]|?]]; [tauto| |tauto]. destruct (Hq l Hf). congruence.
Qed.

Lemma may_cache_look σ t lid c :
  (∀ l, pcs σ t ≠ Flushing l) → (∀ l, lockstate l c = st_of σ (home t) l) →
  ∀ j l, may_cache (look home t lid c σ) j l ↔ may_cache σ j l.
Proof.
  intros Hp Hc. unfold look, acquire_look. rewrite Hc.
  assert (∀ q, (∀ l, q ≠ Flushing l) →
    ∀ j l, may_cache (goto t q (at_client (home t) c σ)) j l ↔ may_cache σ j l) as Hsame.
  { intros q Hq. apply (may_cache_update _ _ _ _ lid (st_of σ (home t) lid)); [done|by intros l ?%Hq| |].
    - intros l. rewrite Hc. case_decide; [by subst|done].
    - split; [intros [?|?%Hq]; done|by left]. }
  destruct (st_of σ (home t) lid) eqn:E; try by apply Hsame.
  apply (may_cache_update _ _ _ _ lid LOCKED); [done|done| |].
  - intros l. by rewrite lockstate_set, Hc.
  - rewrite E. unfold has. naive_solver.
Qed.

Hypothesis home_ne : ∀ t, home t ≠ [].

(** A silent step of the lock protocol leaves the right to cache where it is. *)
Lemma may_cache_silent σ σ' :
  linv home σ → step home true Anytime σ σ' → silent σ σ' →
  ∀ j l, may_cache σ' j l ↔ may_cache σ j l.
Proof.
  intros Hi [_ Hs] Hsil. pose proof Hi as [I1 I2 I3 I4 I5 I6 I7 I8 I9].
  destruct Hs as [t lid σ Hp|t lid σ Hp Hm|t lid σ Hp Hm|t lid v s σ Hp Hm Ha|t lid σ Hp
    |t lid o r c σ Hp Hm Hr|t lid ret σ Hp|t lid c σ Hp Hm Hr|t lid c σ Hp Hm Hr|t lid σ Hp
    |t lid w s σ Hp Hm Hr|t lid w r c σ Hp Hm Hr|t lid σ Hp Hg|t lid σ Hp Hm Hq
    |t lid ret σ Hf Hp Hret|t lid ret ret' σ Hf Hp Hret|t lid o st σ Hf Hp Hst|t lid σ Hf Hp|t lid w σ Hf Hp|t lid w σ Hf Hp].
  - intros j l. apply may_cache_move; [by rewrite Hp|done].
  - apply may_cache_look; [by rewrite Hp|]. intros l. by rewrite lockstate_enter.
  - apply may_cache_look; [by rewrite Hp|done].
  - intros j l. apply may_cache_goto; [by rewrite Hp|]. by destruct v as [|[]].
  - intros j l. apply may_cache_move; [by rewrite Hp|].
    simpl. by case_decide.
  - rewrite (revoke_handler_ok _ _ _ _ Hr).
    apply (may_cache_update _ _ _ _ lid (if decide (st_of σ o lid = LOCKED) then RELEASING else st_of σ o lid));
      [by rewrite Hp|done| |].
    + intros l. pose proof (revoke_handler_state lid (client σ o) l) as H. rewrite Hr in H. simpl in H.
      rewrite H. unfold st_of. repeat case_decide; naive_solver.
    + case_decide as E; [rewrite E|]; unfold has; naive_solver.
  - unfold answer, acquire_answered. case_decide as E1.
    { exfalso. subst. destruct (Hsil t lid) as [_ H]. apply (H Hp). unfold answer. simpl. by rewrite fn_lookup_insert. }
    case_decide as E2.
    + assert (st_of σ (home t) lid = NONE) as Hn by (apply I8; by rewrite Hp).
      apply (may_cache_update _ _ _ _ lid ACQUIRING); [by rewrite Hp|done| |].
      * intros l. apply lockstate_set.
      * rewrite Hn. unfold has. naive_solver.
    + apply may_cache_look; [by rewrite Hp|done].
  - assert (lockstate lid (here home t σ) = LOCKED ∨ lockstate lid (here home t σ) = RELEASING) as Hst
      by (by apply (I5 t lid)).
    rewrite release_locked_cases in Hr by done. case_decide as E; [|done]. injection Hr as <-.
    apply (may_cache_update _ _ _ _ lid FREE); [by rewrite Hp|done| |].
    + intros l. apply lockstate_set.
    + unfold has. unfold here in E. unfold st_of. rewrite E. naive_solver.
  - assert (lockstate lid (here home t σ) = LOCKED ∨ lockstate lid (here home t σ) = RELEASING) as Hst
      by (by apply (I5 t lid)).
    rewrite release_locked_cases in Hr by done. case_decide as E; [done|]. injection Hr as <-.
    apply (may_cache_update _ _ _ _ lid NONE); [by rewrite Hp|by intros l [= ->]| |].
    + intros l. apply lockstate_set.
    + unfold has. unfold here in Hst. unfold st_of. naive_solver.
  - exfalso. destruct (Hsil t lid) as [H _]. specialize (H Hp). simpl in H. by rewrite fn_lookup_insert in H.
  - intros j l. apply may_cache_goto; [by rewrite Hp|]. by destruct w.
  - assert (¬ has (st_of σ w lid)) as Hn.
    { intros Hh. destruct (I1 _ _ Hh) as [Hw Ho]. rewrite (I9 t lid w Hp) in Ho. done. }
    unfold retry_handler in Hr. case_decide as Hcv; injection Hr as <- <-.
    + apply (may_cache_update _ _ _ _ lid NONE); [by rewrite Hp|done| |].
      * intros l. apply lockstate_set.
      * unfold has in *. naive_solver.
    + apply (may_cache_update _ _ _ _ lid (st_of σ w lid)); [by rewrite Hp|done| |naive_solver].
      intros l. case_decide; [by subst|done].
  - intros j l. apply may_cache_move; [by rewrite Hp|done].
  - specialize (Hq eq_refl). apply (may_cache_update _ _ _ _ lid NONE); [by rewrite Hp|by intros l [= ->]| |].
    + intros l. apply lockstate_set.
    + unfold has. unfold here in Hq. unfold st_of. rewrite Hq. naive_solver.
  - intros j l. apply may_cache_move; [by rewrite Hp|done].
  - intros j l. apply may_cache_move; [by rewrite Hp|done].
  - intros j l. rewrite (revoke_failed _ _ Hst). apply may_cache_move; [by rewrite Hp|done].
  - intros j l. apply may_cache_move; [by rewrite Hp|done].
  - intros j l. apply may_cache_move; [by rewrite Hp|done].
  - intros j l. apply may_cache_move; [by rewrite Hp|done].
Qed.

(** A grant gives the right to the client of the thread, and nobody had it. *)
Lemma may_cache_granted σ t lid :
  linv home σ → pcs σ t = Answered lid lock_protocol.OK →
  (∀ i, ¬ may_cache σ i lid) ∧
  ∀ j l, may_cache (answer home t lid lock_protocol.OK σ) j l ↔ may_cache σ j l ∨ (j = home t ∧ l = lid).
Proof.
  intros [I1 I2 I3 I4 I5 I6 I7 I8 I9] Hp. assert (in_transit (pcs σ t) lid) as Ht by (by left).
  split.
  - intros i [Hh|(u & <- & Hf)].
    + apply (I3 t lid Ht). destruct (I1 _ _ Hh) as [_ E]. by rewrite <- (I2 t lid Ht), E.
    + assert (u = t) as -> by (apply (I4 u t lid); [right; by left|done]). congruence.
  - intros j l. unfold answer, acquire_answered. rewrite decide_True by done. unfold may_cache.
    rewrite st_of_at, lockstate_set.
    assert (∀ u c, pcs (goto t (Holding lid) (at_client (home t) c σ)) u = Flushing l ↔ pcs σ u = Flushing l)
      as Hpc.
    { intros u c. rewrite pcs_at. case_decide; [subst; rewrite Hp; split; discriminate|done]. }
    setoid_rewrite Hpc. unfold st_of, here.
    destruct (decide (j = home t)) as [->|]; [destruct (decide (l = lid)) as [->|]|].
    + unfold has. tauto.
    + tauto.
    + tauto.
Qed.

(** The end of a flush takes the right from the client of the thread. *)
Lemma may_cache_flushed σ t lid :
  linv home σ → pcs σ t = Flushing lid →
  ∀ j l, may_cache (goto t (Returning lid) σ) j l ↔ may_cache σ j l ∧ ¬ (j = home t ∧ l = lid).
Proof.
  intros [I1 I2 I3 I4 I5 I6 I7 I8 I9] Hp. assert (in_transit (pcs σ t) lid) as Ht by (right; by left).
  intros j l. unfold may_cache. change (st_of (goto t (Returning lid) σ) j l) with (st_of σ j l).
  split.
  - intros [Hh|(u & Hu & Hf)].
    + split; [by left|]. intros [-> ->]. by apply (I3 t lid Ht).
    + rewrite pcs_at in Hf. case_decide as E; [done|]. split; [right; eauto|]. intros [_ ->].
      apply E, (I4 u t lid); [right; by left|done].
  - intros [[Hh|(u & <- & Hf)] Hn]; [by left|]. right. exists u. split; [done|]. rewrite pcs_at.
    rewrite decide_False; [done|]. intros ->. apply Hn. split; [done|]. congruence.
Qed.

(** ** The invariant: the owner of an extent is the client that may have it cached *)
Definition cinv (κ : cluster) (m : gmap Z bytes) : Prop :=
  linv home (k_lock κ) ∧ coh_inv (k_data κ) m ∧
  ∀ i lid, sy_owner (k_data κ) !! lid = Some i ↔ may_cache (k_lock κ) i lid.

Lemma cinv_start now : cinv (cstart now) {[1%Z := []]}.
Proof.
  split_and!; [by apply linv_start|by apply coh_inv_start|]. intros i lid. simpl. rewrite lookup_empty.
  split; [done|]. intros [Hh|(t & _ & [=])]. exfalso. unfold has in Hh. by destruct Hh as [|[|]].
Qed.

(** What the holder of a lock does with the extent, and the flush of a thread that
    returns the lock, keep the discipline. *)
Lemma cinv_permits_use κ m t lid op :
  cinv κ m → pcs (k_lock κ) t = Holding lid → touches op = Some (home t, lid) →
  permitted op (sy_owner (k_data κ)) ∧ owner_after op (sy_owner (k_data κ)) = sy_owner (k_data κ).
Proof.
  intros (Hl & _ & Ho) Hp Ht.
  assert (sy_owner (k_data κ) !! lid = Some (home t)) as E.
  { apply Ho. left. destruct (inv_holding _ _ Hl t lid Hp) as [->| ->]; unfold has; tauto. }
  destruct op; simplify_eq/=; done.
Qed.
Lemma cinv_permits_flush κ m t lid now :
  cinv κ m → pcs (k_lock κ) t = Flushing lid → permitted (Release (home t) lid now) (sy_owner (k_data κ)).
Proof. intros (_ & _ & Ho) Hp. apply Ho. right. eauto. Qed.

Lemma cstep_refines κ ev κ' m :
  cinv κ m → cstep κ ev κ' →
  match ev with
  | [] => cinv κ' m
  | [(op, r)] => r = (coh_spec op m).1 ∧ cinv κ' (coh_spec op m).2
  | _ => False
  end.
Proof.
  intros Hi Hs. pose proof Hi as (Hl & Hc & Ho).
  destruct Hs as [σ σ' d Hs Hsil|t lid σ d r d' _ Hp He|t lid now σ d r d' _ Hp He|t lid op σ d r d' _ Hp Ht He];
    cbn [k_lock k_data] in *.
  - split_and!; [eapply linv_step; [done|apply Hs|done]|done|]. intros i lid. cbn [k_lock k_data].
    rewrite Ho. symmetry. by apply may_cache_silent.
  - destruct (may_cache_granted σ t lid Hl Hp) as [Hno Hcache].
    assert (permitted (Acquire (home t) lid) (sy_owner d)) as Hperm.
    { simpl. destruct (sy_owner d !! lid) as [i|] eqn:E; [|done]. destruct (Hno i). by apply Ho. }
    destruct (coh_exec_refines _ _ _ Hc Hperm) as (d1 & E & Hc' & Hw). rewrite E in He.
    injection He as <- <-. split; [done|]. split_and!; [|done|].
    + apply (linv_step home home_ne Anytime σ); [by apply step_answer|done].
    + intros i l. cbn [k_lock k_data]. rewrite Hw, Hcache, <- Ho. simpl.
      destruct (decide (l = lid)) as [->|]; [rewrite lookup_insert_eq|rewrite lookup_insert_ne by done].
      * simpl in Hperm. rewrite Hperm. naive_solver.
      * naive_solver.
  - destruct (coh_exec_refines _ _ _ Hc (cinv_permits_flush _ _ t lid now Hi Hp)) as (d1 & E & Hc' & Hw).
    rewrite E in He. injection He as <- <-. split; [done|]. split_and!; [|done|].
    + apply (linv_step home home_ne Anytime σ); [by apply step_flushed|done].
    + intros i l. cbn [k_lock k_data]. rewrite Hw, (may_cache_flushed σ t lid) by done. rewrite <- Ho. simpl.
      rewrite lookup_delete_Some. pose proof (cinv_permits_flush _ _ t lid now Hi Hp) as Hperm. simpl in Hperm.
      naive_solver.
  - destruct (cinv_permits_use _ _ t lid op Hi Hp Ht) as [Hperm Hsame].
    destruct (coh_exec_refines _ _ _ Hc Hperm) as (d1 & E & Hc' & Hw). rewrite E in He. injection He as <- <-.
    split; [done|]. split_and!; [done|done|]. intros i l. cbn [k_lock k_data]. rewrite Hw. simpl in Hsame.
    by rewrite Hsame.
Qed.

Lemma cruns_refine κ tr κ' m :
  cinv κ m → cruns κ tr κ' → tr.*2 = coh_spec_run tr.*1 m ∧ ∃ m', cinv κ' m'.
Proof.
  intros Hi Hr. revert m Hi. induction Hr as [κ|κ κ1 κ2 ev tr Hs Hr IH]; intros m Hi; [eauto|].
  pose proof (cstep_refines _ _ _ _ Hi Hs) as H. destruct ev as [|[op r] [|? ?]]; [by apply IH| |done].
  destruct H as [-> H]. destruct (IH _ H) as [E He]. split; [|done].
  cbn [app fmap list_fmap fst snd coh_spec_run]. destruct (coh_spec op m) as [r m1]. simpl in *. by rewrite <- E.
Qed.

(** ** Running the cluster

    A step of the lock protocol, or the use of an extent by a thread.  [now] is the
    time at which a flush reaches the extent server. *)
Inductive clabel := CGo (l : label) (now : Z) | CUse (t : nat) (op : coh_op).

Definition silentb (ts : list nat) (σ σ' : lsys) : bool :=
  forallb (λ t, match pcs σ t with
                | Flushing _ => bool_decide (pcs σ' t = pcs σ t)
                | Answered lid r => bool_decide (r ≠ lock_protocol.OK ∨ pcs σ' t ≠ Holding lid)
                | _ => true
                end) ts.

Definition cuse (op : coh_op) (σ' : lsys) (d : system) : option (list (coh_op * coh_reply) * cluster) :=
  match coh_exec op d with Ok (r, d') => Some ([(op, r)], Cluster σ' d') | _ => None end.

Definition cexec (ts : list nat) (l : clabel) (κ : cluster) : option (list (coh_op * coh_reply) * cluster) :=
  let σ := k_lock κ in
  match l with
  | CGo l now =>
      σ' ← exec home true ts l σ;
      if silentb ts σ σ' then Some ([], Cluster σ' (k_data κ))
      else match l with
           | LGo t =>
               match pcs σ t with
               | Flushing lid => cuse (Release (home t) lid now) σ' (k_data κ)
               | Answered lid r =>
                   if decide (r = lock_protocol.OK) then cuse (Acquire (home t) lid) σ' (k_data κ) else None
               | _ => None
               end
           | _ => None
           end
  | CUse t op =>
      match pcs σ t with
      | Holding lid => if decide (touches op = Some (home t, lid) ∧ definedb ts σ = true) then cuse op σ (k_data κ) else None
      | _ => None
      end
  end.

Fixpoint creplay (ts : list nat) (ls : list clabel) (κ : cluster) : option (list (coh_op * coh_reply) * cluster) :=
  match ls with
  | [] => Some ([], κ)
  | l :: ls => '(ev, κ) ← cexec ts l κ; '(tr, κ) ← creplay ts ls κ; Some (ev ++ tr, κ)
  end.

Lemma silentb_ok ts σ σ' : idle_outside ts σ → silentb ts σ σ' = true → silent σ σ'.
Proof.
  intros Hi Hb t lid. destruct (decide (t ∈ ts)) as [Hin|Hn]; [|by rewrite (Hi t Hn)].
  apply forallb_forall with (x := t) in Hb; [|by apply list_elem_of_In].
  split; intros Hp; rewrite Hp in Hb; apply bool_decide_eq_true in Hb; [done|]. naive_solver.
Qed.

Lemma cuse_Some op σ' d ev κ' :
  cuse op σ' d = Some (ev, κ') → ∃ r d', coh_exec op d = Ok (r, d') ∧ ev = [(op, r)] ∧ κ' = Cluster σ' d'.
Proof. unfold cuse. intros H. repeat case_match; simplify_eq. eauto. Qed.

Lemma cexec_step ts l κ ev κ' :
  idle_outside ts (k_lock κ) → cexec ts l κ = Some (ev, κ') → cstep κ ev κ' ∧ idle_outside ts (k_lock κ').
Proof.
  destruct κ as [σ d]. cbn [k_lock]. intros Hi He. destruct l as [l now|t op]; cbn [cexec k_lock k_data] in He.
  - destruct (exec home true ts l σ) as [σ'|] eqn:Ex; [|done]. cbn [mbind option_bind] in He.
    destruct (exec_step home _ Anytime _ _ _ _ Hi Ex) as [Hs Hi']. destruct (silentb ts σ σ') eqn:Hb.
    { injection He as <- <-. split; [|done]. apply c_lock; [done|by eapply silentb_ok]. }
    destruct l as [| |t]; try done. pose proof Hs as [Hd _]. unfold exec in Ex. destruct (negb _); [done|]. unfold go in Ex.
    destruct (pcs σ t) as [| | | | | |lid r| |lid| | | |lid] eqn:Hp; try done.
    + case_decide; [subst r|done]. apply cuse_Some in He as (r & d' & E & -> & ->). injection Ex as <-.
      split; [by apply c_granted|done].
    + apply cuse_Some in He as (r & d' & E & -> & ->). injection Ex as <-.
      split; [by apply c_flush|done].
  - destruct (pcs σ t) as [| | | | | | |lid| | | | |] eqn:Hp; try done. case_decide as Ht; [|done]. destruct Ht as [Ht Hd%(definedb_ok _ _ Hi)].
    apply cuse_Some in He as (r & d' & E & -> & ->). split; [by eapply c_use|done].
Qed.

Lemma creplay_runs ts ls κ tr κ' :
  idle_outside ts (k_lock κ) → creplay ts ls κ = Some (tr, κ') → cruns κ tr κ'.
Proof.
  revert κ tr. induction ls as [|l ls IH]; intros κ tr Hi Hr; simpl in Hr; [simplify_eq; constructor|].
  destruct (cexec ts l κ) as [[ev κ1]|] eqn:E; [|done]. simpl in Hr.
  destruct (creplay ts ls κ1) as [[tr1 κ2]|] eqn:E1; [|done]. simpl in Hr. injection Hr as <- <-.
  destruct (cexec_step _ _ _ _ _ Hi E) as [Hs Hi1]. eapply cruns_cons; [done|]. by apply IH.
Qed.
End cluster.

(** ** The property *)

(** C10: The distributed store is coherent.  Take the runs of any number of threads at
    any number of clients in which the locks are taken, revoked, retried and given back
    by the cached-lock protocol under the conditions of its mutual exclusion (no thread
    between give_back's look and its change; a run ends at an undefined unlock), extents
    are used only by the thread that holds the lock of the same number and flushed by
    dorelease before the lock goes back, every call of the extent server succeeds, and
    the operations on the maps of one client's cache and of the extent server, which the
    code does not lock, take effect one at a time.  In each such run every operation on
    an extent answers as one map of extents without caches and without locks would in
    the order of the run; and in every state reached the holder of a lock can use its
    extent, and a flush can be done, without a fault. *)
Theorem cluster_coherent home now tr κ :
  (∀ t, home t ≠ []) → cruns home (cstart now) tr κ →
  tr.*2 = coh_spec_run tr.*1 {[1%Z := []]} ∧
  (∀ t lid op, pcs (k_lock κ) t = Holding lid → touches op = Some (home t, lid) →
     ∃ r d, coh_exec op (k_data κ) = Ok (r, d)) ∧
  (∀ t lid now', pcs (k_lock κ) t = Flushing lid →
     ∃ d, coh_exec (Release (home t) lid now') (k_data κ) = Ok (CDone, d)).
Proof.
  intros Hne Hr. destruct (cruns_refine home Hne _ _ _ _ (cinv_start home now) Hr) as (E & m & Hi).
  pose proof Hi as (_ & Hc & _). split_and!; [done| |].
  - intros t lid op Hp Ht. destruct (cinv_permits_use home _ _ _ _ _ Hi Hp Ht) as [Hperm _].
    destruct (coh_exec_refines _ _ _ Hc Hperm) as (d & -> & _). eauto.
  - intros t lid now' Hp. pose proof (cinv_permits_flush home _ _ _ _ now' Hi Hp) as Hperm.
    destruct (coh_exec_refines _ _ _ Hc Hperm) as (d & -> & _). eauto.
Qed.

(** Thread 0 takes lock 1 and writes extent 1; thread 2, at the other client, asks for
    the lock; thread 0 gives it back after its flush; thread 2 gets the lock, reads what
    thread 0 wrote and writes itself. *)
Definition ex_cluster_run : list clabel :=
  let go t := CGo (LGo t) 20 in
  [CGo (LAcquire 0 1) 10; go 0; go 0; go 0; CUse 0 (Put (lit "a") 1 (lit "xy") 11);
   CGo (LAcquire 2 1) 12; go 2; go 2; go 2; go 2; go 2; CUse 0 (Getattr (lit "a") 1); go 0; go 0; go 0; go 0;
   go 2; go 2; go 2; CUse 2 (Get (lit "b") 1 21); CUse 2 (Put (lit "b") 1 (lit "xyz") 22)].

Lemma cluster_coherent_witness :
  match creplay ex_home threads4 ex_cluster_run (cstart 1) with
  | Some (tr, κ) => tr.*2 = coh_spec_run tr.*1 {[1%Z := []]} ∧
      (Get (lit "b") 1 21, CBuf extent_protocol.OK (lit "xy")) ∈ tr ∧ pcs (k_lock κ) 2 = Holding 1
  | None => False
  end.
Proof.
  destruct (creplay ex_home threads4 ex_cluster_run (cstart 1)) as [[tr κ]|] eqn:E.
  - split_and!.
    + apply (cluster_coherent ex_home 1 tr κ).
      * intros u. unfold ex_home. by case_decide.
      * eapply creplay_runs; [apply start_idle|exact E].
    + assert (tr = [(Acquire (lit "a") 1, CDone); (Put (lit "a") 1 (lit "xy") 11, CSize 0 None);
        (Getattr (lit "a") 1, CSize 0 (Some 2%Z)); (Release (lit "a") 1 20, CDone); (Acquire (lit "b") 1, CDone);
        (Get (lit "b") 1 21, CBuf 0 (lit "xy")); (Put (lit "b") 1 (lit "xyz") 22, CSize 0 None)]) as ->
        by (vm_compute in E; injection E as <- _; reflexivity).
      do 5 right. left.
    + vm_compute in E. injection E as _ <-. reflexivity.
  - vm_compute in E. discriminate.
Defined.
