(* ===== verification/YfsClient.v ===== *)
(** * The file system client (yfs_client.h, yfs_client.cc)

    Files and directories as extents, each used under the lock of the same number.
    The client is written against an interface: the lock client and the extent
    client as operations on a process state ([FsOps]), with what they promise
    ([FsSpec]).  Stack.v builds an instance from their models. *)

From stdpp Require Import base tactics numbers list gmap sets strings.
From Stdlib Require Import ZArith Lia Ascii.
From S2P Require Import Prelude CxxString Marshall ExtentServer.
Import extent_protocol (attr, Attr, atime, mtime, ctime, a_size).

(** ** The interface *)
Class FsOps (E : Type) := {
  lc_acquire : Z → E → outcome E;
  lc_release : Z → E → outcome E;
  fs_get : Z → bytes → E → outcome (Z * bytes * E);
  fs_getattr : Z → attr → E → outcome (Z * attr * E);
  fs_put : Z → bytes → E → outcome (Z * E) }.

(** What one client, alone or with the others kept out by the locks, relies on:
    [content] is the file system's contents as this client sees it, [locks] what
    the thread holds. *)
Class FsSpec (E : Type) `{FsOps E} := {
  fs_ok : E → Prop;
  content : E → gmap Z bytes;
  locks : E → gset Z;
  spec_acquire i e : fs_ok e → i ∉ locks e →
    ∃ e', lc_acquire i e = Ok e' ∧ fs_ok e' ∧ content e' = content e ∧ locks e' = {[i]} ∪ locks e;
  spec_release i e : fs_ok e → i ∈ locks e →
    ∃ e', lc_release i e = Ok e' ∧ fs_ok e' ∧ content e' = content e ∧ locks e' = locks e ∖ {[i]};
  spec_get i buf e : fs_ok e → i ∈ locks e →
    ∃ e', fs_get i buf e = Ok (found (content e) i, default [] (content e !! i), e') ∧
      fs_ok e' ∧ content e' = content e ∧ locks e' = locks e;
  spec_getattr i a e : fs_ok e → i ∈ locks e →
    ∃ a' e', fs_getattr i a e = Ok (found (content e) i, a', e') ∧
      (∀ b, content e !! i = Some b → a_size a' = u32 (size b)) ∧
      fs_ok e' ∧ content e' = content e ∧ locks e' = locks e;
  spec_put i buf e : fs_ok e → i ∈ locks e →
    ∃ e', fs_put i buf e = Ok (extent_protocol.OK, e') ∧
      fs_ok e' ∧ content e' = <[i := buf]> (content e) ∧ locks e' = locks e }.

(** ** The code *)
Module yfs.
Definition OK : Z := 0.
Definition RPCERR : Z := 1.
Definition NOENT : Z := 2.
Definition IOERR : Z := 3.
Definition EXIST : Z := 4.
End yfs.

Record fileinfo := Fileinfo { fi_size : Z; fi_atime : Z; fi_mtime : Z; fi_ctime : Z }.
Record dirinfo := Dirinfo { di_atime : Z; di_mtime : Z; di_ctime : Z }.

(** [yfs_client::n2i], [yfs_client::filename] *)
Definition n2i (n : bytes) : Z := scan_u64 n.
Definition filename (inum : Z) : bytes := show_u64 inum.

(** [yfs_client::isfile], [yfs_client::isdir] *)
Definition isfile (inum : Z) : bool := negb (Z.land inum 2147483648 =? 0)%Z.
Definition isdir (inum : Z) : bool := negb (isfile inum).

(** [yfs_client::split]: positions are [int]s, [find] and [substr] work on
    [size_t].  A separator that is not empty is found at most once per byte. *)
Fixpoint split_loop (fuel : nat) (src sep : bytes) (last : Z) (strs : list bytes) :
    outcome (list bytes) :=
  let index := i32 (find src sep (u64 last)) in
  if (index =? -1)%Z then
    lastString ← substr_from src (u64 last);
    Ok (if decide (lastString = []) then strs else strs ++ [lastString])
  else
    match fuel with
    | O => Fault NoFuel
    | S fuel =>
        len ← int_result (index - last);
        s ← substr src (u64 last) (u64 len);
        last ← int_result (index + i32 (size sep));
        split_loop fuel src sep last (strs ++ [s])
    end.
Definition split (src sep : bytes) : outcome (list bytes) :=
  split_loop (S (length src)) src sep 0 [].

Definition sep : bytes := lit " ".

(** The loop [for (i = 1; i < key_values.size(); i += 2)] that looks for a name:
    the token before the first match. *)
Fixpoint find_entry (name : bytes) (kv : list bytes) : option bytes :=
  match kv with
  | k :: v :: kv => if decide (name = v) then Some k else find_entry name kv
  | _ => None
  end.

Section client.
Context {E : Type} `{FsOps E}.

(** [yfs_client::getfile] *)
Definition getfile (inum : Z) (fin : fileinfo) (e : E) : outcome (Z * fileinfo * E) :=
  e ← lc_acquire inum e;
  '(st, a, e) ← fs_getattr inum (Attr 0 0 0 0) e;
  let '(r, fin) :=
    if decide (st ≠ extent_protocol.OK) then (yfs.IOERR, fin)
    else (yfs.OK, Fileinfo (a_size a) (atime a) (mtime a) (ctime a)) in
  e ← lc_release inum e;
  Ok (r, fin, e).

(** [yfs_client::getdir] *)
Definition getdir (inum : Z) (din : dirinfo) (e : E) : outcome (Z * dirinfo * E) :=
  e ← lc_acquire inum e;
  '(st, a, e) ← fs_getattr inum (Attr 0 0 0 0) e;
  let '(r, din) :=
    if decide (st ≠ extent_protocol.OK) then (yfs.IOERR, din)
    else (yfs.OK, Dirinfo (atime a) (mtime a) (ctime a)) in
  e ← lc_release inum e;
  Ok (r, din, e).

(** [yfs_client::isExist]; [name] is the memory the pointer points to. *)
Definition isExist (parent : Z) (name : bytes) (e : E) : outcome (bool * E) :=
  '(st, entries, e) ← fs_get parent [] e;
  if decide (st ≠ extent_protocol.OK) then Ok (false, e)
  else
    str_name ← c_string name;
    key_values ← split entries sep;
    Ok (bool_decide (is_Some (find_entry str_name key_values)), e).

(** [yfs_client::add_entry] *)
Definition add_entry (parent : Z) (name : bytes) (new_inum : Z) (e : E) : outcome (Z * E) :=
  '(st, entries, e) ← fs_get parent [] e;
  if decide (st ≠ extent_protocol.OK) then Ok (1%Z, e)
  else
    str_name ← c_string name;
    let entries := if decide (entries ≠ []) then entries ++ sep else entries in
    let entries := entries ++ filename new_inum in
    let entries := entries ++ sep in
    let entries := entries ++ str_name in
    '(st, e) ← fs_put parent entries e;
    if decide (st ≠ extent_protocol.OK) then Ok (1%Z, e) else Ok (0%Z, e).

(** [yfs_client::create] *)
Definition create (parent : Z) (name : bytes) (new_inum : Z) (result_attr : attr) (e : E) :
    outcome (Z * attr * E) :=
  e ← lc_acquire parent e;
  e ← lc_acquire new_inum e;
  '(ex, e) ← isExist parent name e;
  '(ret, result_attr, e) ←
    (if (ex : bool) then Ok (yfs.EXIST, result_attr, e)
     else
       '(_, e) ← fs_put new_inum [] e;
       '(r, e) ← add_entry parent name new_inum e;
       if decide (0%Z ≠ r) then Ok (yfs.IOERR, result_attr, e)
       else
         '(st, result_attr, e) ← fs_getattr new_inum result_attr e;
         Ok (if decide (st ≠ extent_protocol.OK) then yfs.IOERR else yfs.OK, result_attr, e));
  e ← lc_release new_inum e;
  e ← lc_release parent e;
  Ok (ret, result_attr, e).

(** [yfs_client::lookup] *)
Definition lookup (parent : Z) (name : bytes) (result_inum : Z) (result_attr : attr) (fnd : bool)
    (e : E) : outcome (Z * Z * attr * bool * E) :=
  e ← lc_acquire parent e;
  str_name ← c_string name;
  '(st, entries, e) ← fs_get parent [] e;
  '(ret, result_inum, result_attr, fnd, e) ←
    (if decide (st ≠ extent_protocol.OK) then Ok (yfs.IOERR, result_inum, result_attr, fnd, e)
     else
       key_values ← split entries sep;
       match find_entry str_name key_values with
       | None => Ok (yfs.OK, result_inum, result_attr, fnd, e)
       | Some k =>
           let result_inum := n2i k in
           e ← lc_acquire result_inum e;
           '(st, result_attr, e) ← fs_getattr (n2i k) result_attr e;
           e ← lc_release result_inum e;
           Ok (if decide (st ≠ extent_protocol.OK) then yfs.IOERR else yfs.OK,
               result_inum, result_attr, true, e)
       end);
  e ← lc_release parent e;
  Ok (ret, result_inum, result_attr, fnd, e).

(** [yfs_client::readdir] *)
Definition readdir (parent : Z) (result : list bytes) (e : E) : outcome (Z * list bytes * E) :=
  e ← lc_acquire parent e;
  '(st, entries, e) ← fs_get parent [] e;
  '(ret, result) ←
    (if decide (st ≠ extent_protocol.OK) then Ok (yfs.IOERR, result)
     else r ← split entries sep; Ok (yfs.OK, r));
  e ← lc_release parent e;
  Ok (ret, result, e).

(** [yfs_client::updatesize]; [new_size] is a [size_t]. *)
Definition updatesize (inum new_size : Z) (e : E) : outcome (Z * E) :=
  e ← lc_acquire inum e;
  '(st, old_attr, e) ← fs_getattr inum (Attr 0 0 0 0) e;
  '(ret, e) ←
    (if decide (st ≠ extent_protocol.OK) then Ok (yfs.IOERR, e)
     else
       let old_size := a_size old_attr in
       '(st, old_buf, e) ← fs_get inum [] e;
       if decide (st ≠ extent_protocol.OK) then Ok (yfs.IOERR, e)
       else
         new_buf ← (if (new_size >? old_size)%Z
                    then Ok (append_n old_buf (new_size - old_size) NUL)
                    else substr old_buf 0 new_size);
         '(st, e) ← fs_put inum new_buf e;
         Ok (if decide (st ≠ extent_protocol.OK) then yfs.IOERR else yfs.OK, e));
  e ← lc_release inum e;
  Ok (ret, e).

(** [yfs_client::read]; [sz] is a [size_t], so never negative, [off] an [off_t]. *)
Definition read (inum sz off : Z) (buf : bytes) (e : E) : outcome (Z * bytes * E) :=
  e ← lc_acquire inum e;
  '(st, cont, e) ← fs_get inum [] e;
  '(ret, buf) ←
    (if decide (st ≠ extent_protocol.OK) then Ok (yfs.IOERR, buf)
     else if (u64 off <? size cont)%Z then
       b ← (if (sz <? 0)%Z then substr_from cont (u64 off) else substr cont (u64 off) sz);
       Ok (yfs.OK, b)
     else Ok (yfs.OK, []));
  e ← lc_release inum e;
  Ok (ret, buf, e).

(** The new content computed by [yfs_client::write], once [buf_str] is filled up to
    [sz] bytes; the sums are made in [size_t]. *)
Definition write_content (cont buf_str : bytes) (sz off : Z) : outcome bytes :=
  new ← substr buf_str 0 sz;
  if (u64 off >? size cont)%Z then Ok (append_n cont (u64 off - size cont) NUL ++ new)
  else if (u64 (off + sz) >? size cont)%Z || (u64 (off + sz) =? size cont)%Z then
    if (off =? 0)%Z then Ok new
    else pre ← substr cont 0 (u64 off); Ok (pre ++ new)
  else if (off =? 0)%Z then
    post ← substr_from cont (u64 (off + sz)); Ok (new ++ post)
  else
    pre ← substr cont 0 (u64 off);
    post ← substr_from cont (u64 (off + sz));
    Ok (pre ++ new ++ post).

(** [yfs_client::write]; [buf] is the memory the pointer points to. *)
Definition write (inum : Z) (buf : bytes) (sz off : Z) (e : E) : outcome (Z * E) :=
  e ← lc_acquire inum e;
  buf_str ← c_string buf;
  '(st, cont, e) ← fs_get inum [] e;
  '(ret, e) ←
    (if decide (st ≠ extent_protocol.OK) then Ok (yfs.IOERR, e)
     else
       '(st, the_attr, e) ← fs_getattr inum (Attr 0 0 0 0) e;
       if decide (st ≠ extent_protocol.OK) then Ok (yfs.IOERR, e)
       else
         let buf_str := if (sz >? size buf_str)%Z
                        then append_n buf_str (sz - size buf_str) NUL else buf_str in
         new_content ← (if (a_size the_attr =? 0)%Z then substr buf_str 0 sz
                        else write_content cont buf_str sz off);
         '(st, e) ← fs_put inum new_content e;
         Ok (if decide (st ≠ extent_protocol.OK) then yfs.IOERR else yfs.OK, e));
  e ← lc_release inum e;
  Ok (ret, e).

(** [yfs_client::mymkdir] *)
Definition mymkdir (parent : Z) (name : bytes) (dir_inum : Z) (e : E) : outcome (Z * E) :=
  e ← lc_acquire parent e;
  e ← lc_acquire dir_inum e;
  '(ex, e) ← isExist parent name e;
  '(ret, e) ←
    (if (ex : bool) then Ok (yfs.EXIST, e)
     else
       '(st, e) ← fs_put dir_inum [] e;
       if decide (st ≠ extent_protocol.OK) then Ok (yfs.IOERR, e)
       else
         '(r, e) ← add_entry parent name dir_inum e;
         Ok (if decide (0%Z ≠ r) then yfs.IOERR else yfs.OK, e));
  e ← lc_release dir_inum e;
  e ← lc_release parent e;
  Ok (ret, e).

(** The new directory text computed by [yfs_client::unlink]. *)
Definition without (inum_tok name : bytes) (kv : list bytes) : bytes :=
  concat ((λ t, t ++ sep) <$> filter (λ t, t ≠ inum_tok ∧ t ≠ name) kv).

(** [yfs_client::unlink].  [unlink_inum] is not initialised; [isExist] makes sure
    that the loop sets it. *)
Definition unlink (parent : Z) (name : bytes) (e : E) : outcome (Z * E) :=
  str_name ← c_string name;
  e ← lc_acquire parent e;
  '(ex, e) ← isExist parent name e;
  '(ret, e) ←
    (if negb ex then Ok (yfs.NOENT, e)
     else
       '(st, entries, e) ← fs_get parent [] e;
       if decide (st ≠ extent_protocol.OK) then Ok (yfs.IOERR, e)
       else
         key_values ← split entries sep;
         str_unlink_inum ← deref (find_entry str_name key_values);
         let unlink_inum := n2i str_unlink_inum in
         if isdir unlink_inum then Ok (yfs.IOERR, e)
         else
           let new_entries := without str_unlink_inum str_name key_values in
           new_entries ← substr new_entries 0 (u64 (size new_entries - 1));
           '(st, e) ← fs_put parent new_entries e;
           if decide (st ≠ extent_protocol.OK) then Ok (yfs.IOERR, e)
           else
             e ← lc_acquire unlink_inum e;
             '(st, e) ← fs_put unlink_inum [] e;
             if decide (st ≠ extent_protocol.OK) then
               e ← lc_release unlink_inum e; Ok (yfs.IOERR, e)
             else Ok (yfs.OK, e));
  e ← lc_release parent e;
  Ok (ret, e).

End client.

(** ** Splitting *)
Definition space : ascii := byte_of_Z 32.

(** The tokens between single spaces; an empty one at the end is dropped. *)
Fixpoint split_ref (s acc : bytes) : list bytes :=
  match s with
  | [] => if decide (acc = []) then [] else [acc]
  | c :: s => if decide (c = space) then acc :: split_ref s [] else split_ref s (acc ++ [c])
  end.

Lemma split_ref_no_space s acc :
  space ∉ s → split_ref s acc = if decide (acc ++ s = []) then [] else [acc ++ s].
Proof.
  revert acc. induction s as [|c s IH]; intros acc Hs; simpl; [by rewrite app_nil_r|].
  apply not_elem_of_cons in Hs as [Hc Hs]. rewrite decide_False by done.
  rewrite IH by done. by rewrite <- app_assoc.
Qed.

Lemma split_ref_token s acc r :
  space ∉ s → split_ref (s ++ space :: r) acc = (acc ++ s) :: split_ref r [].
Proof.
  revert acc. induction s as [|c s IH]; intros acc Hs; cbn [split_ref app].
  - by rewrite decide_True, app_nil_r.
  - apply not_elem_of_cons in Hs as [Hc Hs]. rewrite decide_False by done.
    rewrite IH by done. by rewrite <- app_assoc.
Qed.

Lemma first_space s : space ∉ s ∨ ∃ t r, s = t ++ space :: r ∧ space ∉ t.
Proof.
  induction s as [|c s IH]; [left; apply not_elem_of_nil|].
  destruct (decide (c = space)) as [->|Hc].
  { right. exists [], s. split; [done|apply not_elem_of_nil]. }
  destruct IH as [Hs|(t & r & -> & Ht)].
  - left. by apply not_elem_of_cons.
  - right. exists (c :: t), r. split; [done|]. by apply not_elem_of_cons.
Qed.

Lemma find_from pre rest :
  (size (pre ++ rest) < 2 ^ 63)%Z →
  find (pre ++ rest) sep (size pre)
  = match find_in sep rest with Some i => (size pre + Z.of_nat i)%Z | None => npos end.
Proof.
  intros. unfold find. rewrite size_app. pose proof (size_nonneg rest).
  destruct (Z.gtb_spec (size pre) (size pre + size rest)); [lia|].
  by rewrite to_nat_size, drop_app_length.
Qed.

Lemma split_loop_spec fuel pre rest strs :
  length rest < fuel → (size (pre ++ rest) < 2 ^ 31)%Z →
  split_loop fuel (pre ++ rest) sep (size pre) strs = Ok (strs ++ split_ref rest []).
Proof.
  revert pre rest strs. induction fuel as [|fuel IH]; intros pre rest strs Hf Hsz; [lia|].
  pose proof (size_nonneg pre). pose proof (size_nonneg rest).
  cbn [split_loop]. rewrite size_app in Hsz. rewrite (u64_small (size pre)) by lia.
  rewrite find_from by (rewrite size_app; lia).
  change sep with [space]. destruct (first_space rest) as [Hn|(t & r & -> & Ht)].
  - rewrite find_in_char_absent by done. change (i32 npos =? -1)%Z with true. cbn iota.
    rewrite substr_from_Ok by (rewrite size_app; lia).
    rewrite to_nat_size, drop_app_length. run.
    rewrite split_ref_no_space by done. simpl. case_decide; [by rewrite app_nil_r|done].
  - rewrite find_in_char_first by done. rewrite size_app in Hsz. pose proof (size_nonneg (space :: r)).
    fold (size t). pose proof (size_nonneg t).
    assert (size (space :: r) = 1 + size r)%Z as Es by (unfold size; simpl length; lia).
    pose proof (size_nonneg r).
    rewrite i32_small by lia.
    destruct (Z.eqb_spec (size pre + size t) (-1)); [lia|].
    change (i32 (size [space])) with 1%Z.
    rewrite (int_result_Ok (size pre + size t - size pre)) by lia. run.
    rewrite substr_Ok by (rewrite !size_app; lia).
    replace (size pre + size t - size pre)%Z with (size t) by lia. rewrite u64_small by lia.
    rewrite !to_nat_size, drop_app_length, take_app_length. run.
    rewrite int_result_Ok by lia. run.
    rewrite split_ref_token by done.
    replace (pre ++ t ++ space :: r) with ((pre ++ t ++ [space]) ++ r) by (by rewrite <- !app_assoc).
    replace (size pre + size t + 1)%Z with (size (pre ++ t ++ [space]))
      by (rewrite !size_app; unfold size; simpl length; lia).
    rewrite IH; [by rewrite <- app_assoc| |].
    + rewrite length_app in Hf. simpl in Hf. lia.
    + rewrite !size_app. change (size [space]) with 1%Z. lia.
Qed.

Lemma split_spec s : (size s < 2 ^ 31)%Z → split s sep = Ok (split_ref s []).
Proof. intros. apply (split_loop_spec (S (length s)) [] s []); [lia|done]. Qed.

(** ** Directories *)
Abbreviation entry := (Z * bytes)%type.
Definition name_ok (n : bytes) : Prop := n ≠ [] ∧ space ∉ n ∧ NUL ∉ n.
Definition entry_ok (x : entry) : Prop := is_u64 x.1 ∧ name_ok x.2.

(** The text of a directory: inum and name, all separated by one space. *)
Definition entry_text (x : entry) : bytes := filename x.1 ++ sep ++ x.2.
Definition add_text (s : bytes) (x : entry) : bytes :=
  (if decide (s ≠ []) then s ++ sep else s) ++ entry_text x.
Definition dir_text (d : list entry) : bytes := foldl add_text [] d.
Definition tokens (d : list entry) : list bytes := d ≫= λ x, [filename x.1; x.2].

Lemma filename_no_space i : (0 <= i)%Z → space ∉ filename i.
Proof. intros. eapply digits_no_space; [by apply show_u64_digits|done]. Qed.

Lemma dir_text_snoc d x : dir_text (d ++ [x]) = add_text (dir_text d) x.
Proof. unfold dir_text. by rewrite foldl_app. Qed.

Lemma entry_text_nonempty x : entry_text x ≠ [].
Proof.
  unfold entry_text, filename. pose proof (show_u64_nonempty x.1). by destruct (show_u64 x.1).
Qed.

Lemma dir_text_nonempty d : d ≠ [] → dir_text d ≠ [].
Proof.
  destruct d as [|x d _] using rev_ind; [done|]. rewrite dir_text_snoc. unfold add_text.
  intros _ H. apply app_eq_nil in H as [_ H]. by apply entry_text_nonempty in H.
Qed.

(** Splitting at a separator after which something follows. *)
Lemma split_ref_sep s x : s ≠ [] → (∀ r, s ≠ r ++ [space]) →
  split_ref (s ++ space :: x) [] = split_ref s [] ++ split_ref x [].
Proof.
  remember (length s) as n eqn:Hn. revert s Hn.
  induction n as [n IH] using lt_wf_ind. intros s -> Hs Hl.
  destruct (first_space s) as [Hns|(t & r & -> & Ht)].
  - rewrite split_ref_token, (split_ref_no_space s) by done. simpl. by rewrite decide_False.
  - rewrite (split_ref_token t [] r), <- app_assoc by done. cbn [app].
    rewrite (split_ref_token t [] (r ++ space :: x)) by done. cbn [app]. f_equal.
    assert (r ≠ []) as Hr by (intros ->; by destruct (Hl t)).
    apply (IH (length r)); [|done|done|].
    + rewrite length_app. simpl. lia.
    + intros r' ->. apply (Hl (t ++ space :: r')). by rewrite <- app_assoc.
Qed.

Lemma entry_text_split x : entry_ok x → split_ref (entry_text x) [] = [filename x.1; x.2].
Proof.
  intros ([Hi _] & Hn & Hs & _). unfold entry_text. change sep with [space]. cbn [app].
  rewrite split_ref_token by (by apply filename_no_space).
  rewrite split_ref_no_space by done. by rewrite decide_False.
Qed.

Lemma dir_text_last d r : Forall entry_ok d → dir_text d ≠ r ++ [space].
Proof.
  destruct d as [|x d _] using rev_ind; intros Hd; [by destruct r|].
  apply Forall_app in Hd as [_ [Hx _]%Forall_cons]. rewrite dir_text_snoc. unfold add_text, entry_text.
  destruct Hx as (_ & Hn & Hs & _). destruct (exists_last Hn) as (n & c & E). rewrite E, !app_assoc.
  intros [_ [= ->]]%app_inj_tail_iff. apply Hs. rewrite E. apply elem_of_app. right. left.
Qed.

Lemma dir_text_split d : Forall entry_ok d → split_ref (dir_text d) [] = tokens d.
Proof.
  induction d as [|x d IH] using rev_ind; intros Hd; [done|].
  pose proof Hd as [Hd' [Hx _]%Forall_cons]%Forall_app. rewrite dir_text_snoc. unfold add_text.
  unfold tokens. rewrite bind_app. fold (tokens d). cbn [mbind list_bind app].
  destruct (decide (d = [])) as [->|Hne].
  - change (dir_text []) with (@nil ascii). rewrite decide_False by auto.
    cbn [app]. by rewrite entry_text_split.
  - rewrite decide_True by (by apply dir_text_nonempty). change sep with [space].
    rewrite <- app_assoc. cbn [app]. rewrite split_ref_sep, IH, entry_text_split; try done.
    + by apply dir_text_nonempty.
    + intros r. by apply dir_text_last.
Qed.

(** The inum of the first entry of a name. *)
Fixpoint dir_lookup (n : bytes) (d : list entry) : option Z :=
  match d with
  | [] => None
  | (i, m) :: d => if decide (n = m) then Some i else dir_lookup n d
  end.

Lemma find_entry_tokens n d : find_entry n (tokens d) = filename <$> dir_lookup n d.
Proof.
  induction d as [|[i m] d IH]; [done|]. unfold tokens. cbn [mbind list_bind app find_entry dir_lookup fst snd].
  fold (tokens d). by case_decide.
Qed.

Lemma dir_lookup_elem n d i : dir_lookup n d = Some i → (i, n) ∈ d.
Proof.
  induction d as [|[j m] d IH]; simpl; [done|]. case_decide; intros; simplify_eq; [by left|].
  right. by apply IH.
Qed.

Lemma dir_lookup_None n d : dir_lookup n d = None ↔ n ∉ d.*2.
Proof.
  induction d as [|[j m] d IH]; simpl; [split; [intros _; apply not_elem_of_nil|done]|].
  rewrite not_elem_of_cons, <- IH. case_decide; naive_solver.
Qed.

(** ** The operations against the interface *)
Section specs.
Context {E : Type} `{FsSpec E}.

(** A state of the client, as far as the interface shows it. *)
Definition at_state (e : E) (C : gmap Z bytes) (L : gset Z) : Prop :=
  fs_ok e ∧ content e = C ∧ locks e = L.

Lemma acquire_at i e C L :
  at_state e C L → i ∉ L → ∃ e', lc_acquire i e = Ok e' ∧ at_state e' C ({[i]} ∪ L).
Proof.
  intros (Hok & <- & <-) Hi. destruct (spec_acquire i e Hok Hi) as (e' & E' & Hok' & HC & HL).
  exists e'. split; [done|]. by split_and!.
Qed.
Lemma release_at i e C L :
  at_state e C L → i ∈ L → ∃ e', lc_release i e = Ok e' ∧ at_state e' C (L ∖ {[i]}).
Proof.
  intros (Hok & <- & <-) Hi. destruct (spec_release i e Hok Hi) as (e' & E' & Hok' & HC & HL).
  exists e'. split; [done|]. by split_and!.
Qed.
Lemma get_at i buf e C L :
  at_state e C L → i ∈ L →
  ∃ e', fs_get i buf e = Ok (found C i, default [] (C !! i), e') ∧ at_state e' C L.
Proof.
  intros (Hok & <- & <-) Hi. destruct (spec_get i buf e Hok Hi) as (e' & E' & Hok' & HC & HL).
  exists e'. split; [done|]. by split_and!.
Qed.
Lemma getattr_at i a e C L :
  at_state e C L → i ∈ L →
  ∃ a' e', fs_getattr i a e = Ok (found C i, a', e') ∧
    (∀ b, C !! i = Some b → a_size a' = u32 (size b)) ∧ at_state e' C L.
Proof.
  intros (Hok & <- & <-) Hi.
  destruct (spec_getattr i a e Hok Hi) as (a' & e' & E' & Ha & Hok' & HC & HL).
  exists a', e'. split; [done|]. split; [done|]. by split_and!.
Qed.
Lemma put_at i buf e C L :
  at_state e C L → i ∈ L →
  ∃ e', fs_put i buf e = Ok (extent_protocol.OK, e') ∧ at_state e' (<[i := buf]> C) L.
Proof.
  intros (Hok & <- & <-) Hi. destruct (spec_put i buf e Hok Hi) as (e' & E' & Hok' & HC & HL).
  exists e'. split; [done|]. by split_and!.
Qed.

Lemma found_Some C i b : C !! i = Some b → found C i = extent_protocol.OK.
Proof. intros E'. unfold found. by rewrite E'. Qed.
Lemma found_None C i : C !! i = None → found C i = extent_protocol.IOERR.
Proof. intros E'. unfold found. by rewrite E'. Qed.

(** One call of the interface: [S] is the [at_state] fact of the current state; the
    new one takes its name. *)
Ltac acquire S :=
  match type of S with at_state ?e _ _ =>
    match goal with |- context [lc_acquire ?i e] =>
      let e' := fresh "e" in let Eq := fresh in let S' := fresh in
      destruct (acquire_at i e _ _ S) as (e' & Eq & S'); [set_solver|];
      rewrite Eq; clear Eq S; rename S' into S; run end end.
Ltac release S :=
  match type of S with at_state ?e _ _ =>
    match goal with |- context [lc_release ?i e] =>
      let e' := fresh "e" in let Eq := fresh in let S' := fresh in
      destruct (release_at i e _ _ S) as (e' & Eq & S'); [set_solver|];
      rewrite Eq; clear Eq S; rename S' into S; run end end.
Ltac getx S :=
  match type of S with at_state ?e _ _ =>
    match goal with |- context [fs_get ?i ?b e] =>
      let e' := fresh "e" in let Eq := fresh in let S' := fresh in
      destruct (get_at i b e _ _ S) as (e' & Eq & S'); [set_solver|];
      rewrite Eq; clear Eq S; rename S' into S; run end end.
Ltac getattrx S Ha :=
  match type of S with at_state ?e _ _ =>
    match goal with |- context [fs_getattr ?i ?b e] =>
      let a' := fresh "a" in let e' := fresh "e" in let Eq := fresh in let S' := fresh in
      destruct (getattr_at i b e _ _ S) as (a' & e' & Eq & Ha & S'); [set_solver|];
      rewrite Eq; clear Eq S; rename S' into S; run end end.
Ltac putx S :=
  match type of S with at_state ?e _ _ =>
    match goal with |- context [fs_put ?i ?b e] =>
      let e' := fresh "e" in let Eq := fresh in let S' := fresh in
      destruct (put_at i b e _ _ S) as (e' & Eq & S'); [set_solver|];
      rewrite Eq; clear Eq S; rename S' into S; run end end.
(** Back to the locks held before. *)
Ltac same_locks S :=
  match type of S with at_state ?e ?C ?L' =>
    match goal with |- context [at_state _ _ ?L] =>
      replace L' with L in S by set_solver end end.

(** *** Attributes *)
Lemma getfile_spec i fin e C L :
  at_state e C L → i ∉ L →
  ∃ r fin' e', getfile i fin e = Ok (r, fin', e') ∧ at_state e' C L ∧
    match C !! i with
    | Some b => r = yfs.OK ∧ fi_size fin' = u32 (size b)
    | None => r = yfs.IOERR ∧ fin' = fin
    end.
Proof.
  intros S Hi. unfold getfile. acquire S. getattrx S Ha.
  destruct (C !! i) as [b|] eqn:Eb.
  - rewrite (found_Some _ _ _ Eb). rewrite decide_False by naive_solver. release S.
    do 3 eexists. split; [done|]. same_locks S. split; [done|]. split; [done|]. simpl. by apply Ha.
  - rewrite (found_None _ _ Eb). rewrite decide_True by done. release S.
    do 3 eexists. split; [done|]. same_locks S. by split.
Qed.

Lemma getdir_spec i din e C L :
  at_state e C L → i ∉ L →
  ∃ r din' e', getdir i din e = Ok (r, din', e') ∧ at_state e' C L ∧
    match C !! i with Some _ => r = yfs.OK | None => r = yfs.IOERR ∧ din' = din end.
Proof.
  intros S Hi. unfold getdir. acquire S. getattrx S Ha.
  destruct (C !! i) as [b|] eqn:Eb.
  - rewrite (found_Some _ _ _ Eb). rewrite decide_False by naive_solver. release S.
    do 3 eexists. split; [done|]. same_locks S. by split.
  - rewrite (found_None _ _ Eb). rewrite decide_True by done. release S.
    do 3 eexists. split; [done|]. same_locks S. by split.
Qed.

(** *** Reading and writing *)
Lemma read_spec i sz off buf e C L b :
  at_state e C L → i ∉ L → C !! i = Some b → (0 <= sz)%Z → (0 <= off < 2 ^ 63)%Z →
  ∃ e', read i sz off buf e = Ok (yfs.OK, take (Z.to_nat sz) (drop (Z.to_nat off) b), e') ∧
    at_state e' C L.
Proof.
  intros S Hi Hb Hsz Hoff. unfold read. acquire S. getx S.
  rewrite (found_Some _ _ _ Hb), Hb. rewrite decide_False by naive_solver.
  change (default [] (Some b)) with b. rewrite u64_small by lia.
  destruct (Z.ltb_spec off (size b)) as [Hlt|Hge].
  - destruct (Z.ltb_spec sz 0); [lia|]. rewrite substr_Ok by lia. run. release S.
    eexists. split; [done|]. by same_locks S.
  - run. release S. eexists. same_locks S. split; [|done]. do 3 f_equal.
    rewrite drop_ge by (unfold size in *; lia). by rewrite take_nil.
Qed.

(** Bytes [data] written at [off] into [b]: a gap is filled with zeros. *)
Definition splice (b : bytes) (off : Z) (data : bytes) : bytes :=
  take (Z.to_nat off) b ++ replicate (Z.to_nat off - length b) NUL ++ data ++
  drop (Z.to_nat off + length data) b.

Lemma write_content_spec b data rest sz off :
  sz = size data → (0 <= off)%Z → (off + sz < 2 ^ 63)%Z → (size b < 2 ^ 63)%Z →
  write_content b (data ++ rest) sz off = Ok (splice b off data).
Proof.
  intros -> Hoff Hsum Hb. unfold write_content. pose proof (size_nonneg data). pose proof (size_nonneg b).
  rewrite (substr_Ok (data ++ rest) 0) by apply size_nonneg. run.
  rewrite to_nat_size. change (Z.to_nat 0) with 0. rewrite drop_0, take_app_length.
  rewrite (u64_small off), (u64_small (off + size data)), !Z.gtb_ltb by lia. unfold splice, append_n.
  destruct (Z.ltb_spec (size b) off) as [Hgt|Hle].
  { rewrite (take_ge b), (drop_ge b) by (unfold size in *; lia). f_equal. rewrite app_nil_r, <- app_assoc.
    do 3 f_equal. unfold size. lia. }
  replace (replicate (Z.to_nat off - length b) NUL) with (@nil ascii).
  2: { replace (Z.to_nat off - length b) with 0 by (unfold size in *; lia). done. }
  cbn [app]. assert (Z.to_nat (off + size data) = Z.to_nat off + length data) as Ht
    by (unfold size in *; lia).
  assert ((size b <? off + size data)%Z || (off + size data =? size b)%Z
          = (size b <=? off + size data)%Z) as -> by lia.
  destruct (Z.leb_spec (size b) (off + size data)) as [Hge|Hlt].
  - rewrite (drop_ge b) by (unfold size in *; lia). rewrite app_nil_r.
    destruct (Z.eqb_spec off 0) as [->|]; [done|].
    rewrite substr_Ok by lia. run. by rewrite drop_0.
  - rewrite substr_from_Ok by lia. rewrite Ht.
    destruct (Z.eqb_spec off 0) as [->|]; [done|].
    rewrite substr_Ok by lia. run. by rewrite drop_0.
Qed.

(** The buffer as the C string the code makes of it, filled up to [sz]. *)
Lemma filled_ok data rest :
  NUL ∉ data →
  ∃ s, c_string (data ++ NUL :: rest) = Ok s ∧
    (if (size data >? size s)%Z then append_n s (size data - size s) NUL else s) = data ++ [].
Proof.
  intros Hn. exists data. rewrite c_string_app by done. split; [done|].
  rewrite Z.gtb_ltb, Z.ltb_irrefl. by rewrite app_nil_r.
Qed.

Lemma write_spec i data rest off e C L b :
  at_state e C L → i ∉ L → C !! i = Some b → NUL ∉ data → u32 (size b) ≠ 0%Z →
  (0 <= off)%Z → (off + size data < 2 ^ 63)%Z → (size b < 2 ^ 63)%Z →
  ∃ e', write i (data ++ NUL :: rest) (size data) off e = Ok (yfs.OK, e') ∧
    at_state e' (<[i := splice b off data]> C) L.
Proof.
  intros S Hi Hb Hn Hne Hoff Hsum Hsz. unfold write. acquire S.
  destruct (filled_ok data rest Hn) as (s & -> & Hs). run. getx S.
  rewrite (found_Some _ _ _ Hb), Hb. rewrite decide_False by naive_solver. getattrx S Ha.
  rewrite (found_Some _ _ _ Hb), decide_False by naive_solver. rewrite Hs, (Ha b Hb).
  destruct (Z.eqb_spec (u32 (size b)) 0); [done|]. change (default [] (Some b)) with b.
  rewrite write_content_spec by done. run. putx S. rewrite decide_False by naive_solver.
  release S. eexists. split; [done|]. by same_locks S.
Qed.

(** A write to an empty file: the offset is not used. *)
Lemma write_empty_spec i data rest off e C L :
  at_state e C L → i ∉ L → C !! i = Some [] → NUL ∉ data →
  ∃ e', write i (data ++ NUL :: rest) (size data) off e = Ok (yfs.OK, e') ∧
    at_state e' (<[i := data]> C) L.
Proof.
  intros S Hi Hb Hn. unfold write. acquire S.
  destruct (filled_ok data rest Hn) as (s & -> & Hs). run. getx S.
  rewrite (found_Some _ _ _ Hb), Hb. rewrite decide_False by naive_solver. getattrx S Ha.
  rewrite (found_Some _ _ _ Hb), decide_False by naive_solver. rewrite Hs, (Ha [] Hb).
  change (u32 (size []) =? 0)%Z with true. cbn iota. pose proof (size_nonneg data).
  rewrite (substr_Ok (data ++ []) 0) by apply size_nonneg.
  run. rewrite to_nat_size, drop_0, take_app_length. putx S. rewrite decide_False by naive_solver.
  release S. eexists. split; [done|]. by same_locks S.
Qed.

(** A file cut or padded with zeros to [n] bytes. *)
Definition resized (b : bytes) (n : Z) : bytes :=
  take (Z.to_nat n) b ++ replicate (Z.to_nat n - length b) NUL.

Lemma updatesize_spec i n e C L b :
  at_state e C L → i ∉ L → C !! i = Some b → (size b < 2 ^ 32)%Z → (0 <= n)%Z →
  ∃ e', updatesize i n e = Ok (yfs.OK, e') ∧ at_state e' (<[i := resized b n]> C) L.
Proof.
  intros S Hi Hb Hsz Hn. unfold updatesize. acquire S. getattrx S Ha.
  pose proof (size_nonneg b).
  rewrite (found_Some _ _ _ Hb), decide_False by naive_solver. getx S.
  rewrite (found_Some _ _ _ Hb), Hb. rewrite decide_False by naive_solver.
  rewrite (Ha b Hb), (u32_small (size b)), Z.gtb_ltb by lia. change (default [] (Some b)) with b.
  assert (∃ s, (if (size b <? n)%Z then Ok (append_n b (n - size b) NUL) else substr b 0 n)
    = Ok s ∧ s = resized b n) as (s & -> & ->).
  { unfold resized, append_n. destruct (Z.ltb_spec (size b) n).
    - eexists. split; [done|]. rewrite take_ge by (unfold size in *; lia). do 2 f_equal.
      unfold size. lia.
    - rewrite substr_Ok by lia. eexists. split; [done|]. rewrite drop_0.
      replace (Z.to_nat n - length b) with 0 by (unfold size in *; lia). by rewrite app_nil_r. }
  run. putx S. rewrite decide_False by naive_solver. release S. eexists. split; [done|]. by same_locks S.
Qed.

(** *** Directories *)
Definition dir_of (C : gmap Z bytes) (p : Z) (d : list entry) : Prop :=
  C !! p = Some (dir_text d) ∧ Forall entry_ok d ∧ (size (dir_text d) < 2 ^ 31)%Z.

Lemma dir_split C p d : dir_of C p d → split (dir_text d) sep = Ok (tokens d).
Proof. intros (_ & Hd & Hsz). by rewrite split_spec, dir_text_split. Qed.

Lemma isExist_spec p n rest e C L d :
  at_state e C L → p ∈ L → dir_of C p d → NUL ∉ n →
  ∃ e', isExist p (n ++ NUL :: rest) e = Ok (bool_decide (n ∈ d.*2), e') ∧ at_state e' C L.
Proof.
  intros S Hp Hd Hn. pose proof Hd as (HC & _). unfold isExist. getx S.
  rewrite (found_Some _ _ _ HC), HC, decide_False by naive_solver.
  change (default [] (Some (dir_text d))) with (dir_text d).
  rewrite c_string_app by done. run. rewrite (dir_split C p d Hd). run. eexists. split; [|done].
  do 2 f_equal. apply bool_decide_ext. rewrite find_entry_tokens, fmap_is_Some.
  destruct (dir_lookup n d) as [i|] eqn:Ei.
  - split; [intros _|by eauto]. apply list_elem_of_fmap. exists (i, n). split; [done|].
    by apply dir_lookup_elem.
  - apply dir_lookup_None in Ei. split; [intros [? ?]; done|done].
Qed.

Lemma add_entry_spec p n rest i e C L d :
  at_state e C L → p ∈ L → dir_of C p d → NUL ∉ n →
  ∃ e', add_entry p (n ++ NUL :: rest) i e = Ok (0%Z, e') ∧
    at_state e' (<[p := dir_text (d ++ [(i, n)])]> C) L.
Proof.
  intros S Hp (HC & _) Hn. unfold add_entry. getx S.
  rewrite (found_Some _ _ _ HC), HC, decide_False by naive_solver.
  change (default [] (Some (dir_text d))) with (dir_text d).
  rewrite c_string_app by done. run.
  replace (((_ ++ filename i) ++ sep) ++ n) with (dir_text (d ++ [(i, n)])).
  2: { rewrite dir_text_snoc. unfold add_text, entry_text. simpl. by rewrite <- !app_assoc. }
  putx S. rewrite decide_False by naive_solver. by eexists.
Qed.

Lemma create_spec p n rest i a e C L d :
  at_state e C L → p ∉ L → i ∉ L → p ≠ i → dir_of C p d → NUL ∉ n →
  ∃ r a' e', create p (n ++ NUL :: rest) i a e = Ok (r, a', e') ∧
    if decide (n ∈ d.*2) then r = yfs.EXIST ∧ a' = a ∧ at_state e' C L
    else r = yfs.OK ∧ a_size a' = 0%Z ∧
      at_state e' (<[p := dir_text (d ++ [(i, n)])]> (<[i := []]> C)) L.
Proof.
  intros S Hp Hi Hne Hd Hn. unfold create. acquire S. acquire S.
  destruct (isExist_spec p n rest _ _ _ d S) as (ex1 & -> & S1); [set_solver|done|done|]. clear S.
  run. destruct (decide (n ∈ d.*2)) as [Hin|Hin].
  - rewrite bool_decide_true by done. run. release S1. release S1.
    do 3 eexists. split; [done|]. same_locks S1. done.
  - rewrite bool_decide_false by done. putx S1.
    destruct (add_entry_spec p n rest i _ _ _ d S1) as (ex2 & -> & S2); [set_solver| |done|].
    { destruct Hd as (HC & Hd). split; [|done]. by rewrite lookup_insert_ne. }
    clear S1. run. rewrite decide_False by naive_solver. getattrx S2 Ha.
    assert ((<[p := dir_text (d ++ [(i, n)])]> (<[i := []]> C)) !! i = Some []) as Hi2
      by (rewrite lookup_insert_ne by done; apply lookup_insert_eq).
    rewrite (found_Some _ _ _ Hi2), decide_False by naive_solver. release S2. release S2.
    do 3 eexists. split; [done|]. same_locks S2. split_and!; [done| |done].
    by rewrite (Ha [] Hi2).
Qed.

Lemma mymkdir_spec p n rest i e C L d :
  at_state e C L → p ∉ L → i ∉ L → p ≠ i → dir_of C p d → NUL ∉ n →
  ∃ r e', mymkdir p (n ++ NUL :: rest) i e = Ok (r, e') ∧
    if decide (n ∈ d.*2) then r = yfs.EXIST ∧ at_state e' C L
    else r = yfs.OK ∧ at_state e' (<[p := dir_text (d ++ [(i, n)])]> (<[i := []]> C)) L.
Proof.
  intros S Hp Hi Hne Hd Hn. unfold mymkdir. acquire S. acquire S.
  destruct (isExist_spec p n rest _ _ _ d S) as (ex1 & -> & S1); [set_solver|done|done|]. clear S.
  run. destruct (decide (n ∈ d.*2)) as [Hin|Hin].
  - rewrite bool_decide_true by done. run. release S1. release S1.
    do 2 eexists. split; [done|]. by same_locks S1.
  - rewrite bool_decide_false by done. putx S1. rewrite decide_False by naive_solver.
    destruct (add_entry_spec p n rest i _ _ _ d S1) as (ex2 & -> & S2); [set_solver| |done|].
    { destruct Hd as (HC & Hd). split; [|done]. by rewrite lookup_insert_ne. }
    clear S1. run. rewrite decide_False by naive_solver. release S2. release S2.
    do 2 eexists. split; [done|]. by same_locks S2.
Qed.

Lemma readdir_spec p res e C L d :
  at_state e C L → p ∉ L → dir_of C p d →
  ∃ e', readdir p res e = Ok (yfs.OK, tokens d, e') ∧ at_state e' C L.
Proof.
  intros S Hp Hd. pose proof Hd as (HC & _). unfold readdir. acquire S. getx S.
  rewrite (found_Some _ _ _ HC), HC, decide_False by naive_solver.
  change (default [] (Some (dir_text d))) with (dir_text d).
  rewrite (dir_split C p d Hd). run. release S. eexists. split; [done|]. by same_locks S.
Qed.

Lemma lookup_spec p n rest ri ra e C L d :
  at_state e C L → p ∉ L → dir_of C p d → NUL ∉ n →
  (∀ i, dir_lookup n d = Some i → i ≠ p ∧ i ∉ L) →
  ∃ r ri' ra' fnd e', lookup p (n ++ NUL :: rest) ri ra false e = Ok (r, ri', ra', fnd, e') ∧
    at_state e' C L ∧
    match dir_lookup n d with
    | None => r = yfs.OK ∧ fnd = false
    | Some i => ri' = i ∧ fnd = true ∧
        match C !! i with
        | Some b => r = yfs.OK ∧ a_size ra' = u32 (size b)
        | None => r = yfs.IOERR
        end
    end.
Proof.
  intros S Hp Hd Hn Hl. pose proof Hd as (HC & Hok & _). unfold lookup. acquire S.
  rewrite c_string_app by done. run. getx S.
  rewrite (found_Some _ _ _ HC), HC, decide_False by naive_solver.
  change (default [] (Some (dir_text d))) with (dir_text d).
  rewrite (dir_split C p d Hd). run. rewrite find_entry_tokens.
  destruct (dir_lookup n d) as [i|] eqn:Ei; cbn [fmap option_fmap option_map].
  - destruct (Hl i eq_refl) as [Hip HiL].
    assert (n2i (filename i) = i) as ->.
    { apply scan_show_u64. apply dir_lookup_elem in Ei. rewrite Forall_forall in Hok.
      by destruct (Hok _ Ei). }
    acquire S. getattrx S Ha. release S. run. release S.
    do 5 eexists. split; [done|]. same_locks S. split; [done|]. split; [done|]. split; [done|].
    destruct (C !! i) as [b|] eqn:Eb.
    + rewrite (found_Some _ _ _ Eb), decide_False by naive_solver. split; [done|]. by apply Ha.
    + by rewrite (found_None _ _ Eb).
  - run. release S. do 5 eexists. split; [done|]. by same_locks S.
Qed.

(** *** unlink *)

(** No other token of the directory is the inum or the name of the entry [(i, n)]. *)
Definition no_clash (i : Z) (n : bytes) (d : list entry) : Prop :=
  ∀ j m, (j, m) ∈ d → (j, m) = (i, n) ∨
    (filename j ≠ filename i ∧ filename j ≠ n ∧ m ≠ n ∧ m ≠ filename i).

Lemma filter_tokens i n d :
  no_clash i n d →
  filter (λ t, t ≠ filename i ∧ t ≠ n) (tokens d) = tokens (filter (λ x, x ≠ (i, n)) d).
Proof.
  induction d as [|[j m] d IH]; intros Hc; [done|].
  assert (no_clash i n d) as Hc' by (intros j' m' Hin; apply Hc; by right).
  specialize (IH Hc'). unfold tokens in *. cbn [mbind list_bind app fst snd].
  destruct (Hc j m ltac:(left)) as [[= -> ->]|(H1' & H2' & H3' & H4')].
  - by rewrite !filter_cons_False by tauto.
  - rewrite !filter_cons_True by tauto.
    rewrite (filter_cons_True _ (j, m)) by (intros [= -> ->]; done).
    cbn [mbind list_bind app fst snd]. by rewrite IH.
Qed.

Lemma tokens_text d :
  concat ((λ t, t ++ sep) <$> tokens d) = if decide (d = []) then [] else dir_text d ++ sep.
Proof.
  induction d as [|x d IH] using rev_ind; [done|].
  rewrite decide_False by (by destruct d). rewrite dir_text_snoc. unfold add_text.
  unfold tokens. rewrite bind_app, fmap_app, concat_app. fold (tokens d). rewrite IH.
  cbn [mbind list_bind app fmap list_fmap concat]. unfold entry_text.
  destruct (decide (d = [])) as [->|Hne].
  - change (dir_text []) with (@nil ascii). rewrite decide_False by auto. cbn [app].
    by rewrite app_nil_r, <- !app_assoc.
  - rewrite decide_True by (by apply dir_text_nonempty). by rewrite app_nil_r, <- !app_assoc.
Qed.

Lemma without_text i n d :
  no_clash i n d → (size (without (filename i) n (tokens d)) < 2 ^ 63)%Z →
  substr (without (filename i) n (tokens d)) 0
    (u64 (size (without (filename i) n (tokens d)) - 1))
  = Ok (dir_text (filter (λ x, x ≠ (i, n)) d)).
Proof.
  intros Hc Hsz. rewrite substr_Ok by apply size_nonneg. f_equal. rewrite drop_0. revert Hsz.
  unfold without. rewrite filter_tokens by done. rewrite tokens_text.
  case_decide as Hd; [by rewrite Hd|]. rewrite size_app. change (size sep) with 1%Z. intros Hsz.
  pose proof (size_nonneg (dir_text (filter (λ x, x ≠ (i, n)) d))).
  rewrite u64_small by lia.
  replace (size (dir_text (filter (λ x, x ≠ (i, n)) d)) + 1 - 1)%Z
    with (size (dir_text (filter (λ x, x ≠ (i, n)) d))) by lia.
  by rewrite to_nat_size, take_app_length.
Qed.

Lemma size_without a n kv : (size (without a n kv) <= size (concat ((λ t, t ++ sep) <$> kv)))%Z.
Proof.
  unfold without. induction kv as [|t kv IH]; [done|]. rewrite filter_cons. case_decide;
    cbn [fmap list_fmap concat]; rewrite !size_app in *; pose proof (size_nonneg t);
    change (size sep) with 1%Z; lia.
Qed.

Lemma unlink_missing_spec p n rest e C L d :
  at_state e C L → p ∉ L → dir_of C p d → NUL ∉ n → n ∉ d.*2 →
  ∃ e', unlink p (n ++ NUL :: rest) e = Ok (yfs.NOENT, e') ∧ at_state e' C L.
Proof.
  intros S Hp Hd Hn Hni. unfold unlink. rewrite c_string_app by done. run. acquire S.
  destruct (isExist_spec p n rest _ _ _ d S) as (ex1 & -> & S1); [set_solver|done|done|]. clear S.
  rewrite bool_decide_false by done. run. cbn [negb]. run. release S1.
  eexists. split; [done|]. by same_locks S1.
Qed.

(** The entry's lock is taken and never given back. *)
Lemma unlink_spec p n rest i e C L d :
  at_state e C L → p ∉ L → i ∉ L → i ≠ p → dir_of C p d → NUL ∉ n →
  dir_lookup n d = Some i → isfile i = true → no_clash i n d →
  ∃ e', unlink p (n ++ NUL :: rest) e = Ok (yfs.OK, e') ∧
    at_state e' (<[i := []]> (<[p := dir_text (filter (λ x, x ≠ (i, n)) d)]> C)) ({[i]} ∪ L).
Proof.
  intros S Hp Hi Hne Hd Hn Hl Hf Hc. pose proof Hd as (HC & Hok & Hsz).
  unfold unlink. rewrite c_string_app by done. run. acquire S.
  destruct (isExist_spec p n rest _ _ _ d S) as (ex1 & -> & S1); [set_solver|done|done|]. clear S.
  rewrite bool_decide_true.
  2: { apply list_elem_of_fmap. exists (i, n). split; [done|]. by apply dir_lookup_elem. }
  run. cbn [negb]. getx S1.
  rewrite (found_Some _ _ _ HC), HC, decide_False by naive_solver.
  change (default [] (Some (dir_text d))) with (dir_text d).
  rewrite (dir_split C p d Hd). run. rewrite find_entry_tokens, Hl.
  cbn [fmap option_fmap option_map deref]. run.
  assert (n2i (filename i) = i) as ->.
  { apply scan_show_u64. apply dir_lookup_elem in Hl. rewrite Forall_forall in Hok. by destruct (Hok _ Hl). }
  unfold isdir. rewrite Hf. cbn [negb].
  rewrite without_text; [|done|].
  2: { pose proof (size_without (filename i) n (tokens d)) as Hw. rewrite tokens_text in Hw.
       destruct (decide (d = [])); rewrite ?size_app in Hw;
         change (size sep) with 1%Z in Hw; change (size []) with 0%Z in Hw; lia. }
  run. putx S1. rewrite decide_False by naive_solver. acquire S1. putx S1.
  rewrite decide_False by naive_solver. run. release S1. eexists. split; [done|]. by same_locks S1.
Qed.
End specs.
