(* ===== verification/Serial.v ===== *)
(** * Operations of the file system client as scripts of calls

    The operations of yfs_client.cc as data, with what the code does whatever
    implements its interface: it sees of a state only what the interface shows
    ([FsSim]), takes locks first and gives them back last, and touches an extent only
    under its lock ([well_locked]).  A script lists the calls of an operation with
    their answers; it is itself an implementation of [FsOps], so that the code can be
    run against it. *)

From stdpp Require Import base tactics numbers list gmap sets strings.
From Stdlib Require Import ZArith Lia Ascii.
From S2P Require Import Prelude CxxString Marshall ExtentServer YfsClient.
Import extent_protocol (attr, Attr, atime, mtime, ctime, a_size).

(** ** The operations of yfs_client as data *)
Inductive yop :=
  | OGetfile (i : Z)
  | OGetdir (i : Z)
  | OCreate (p : Z) (name : bytes) (i : Z)
  | OLookup (p : Z) (name : bytes)
  | OReaddir (p : Z)
  | OUpdatesize (i n : Z)
  | ORead (i sz off : Z)
  | OWrite (i : Z) (buf : bytes) (sz off : Z)
  | OMkdir (p : Z) (name : bytes) (i : Z)
  | OUnlink (p : Z) (name : bytes).

Inductive yres :=
  | RStatus (r : Z)
  | RFile (r : Z) (fin : fileinfo)
  | RDir (r : Z) (din : dirinfo)
  | RAttr (r : Z) (a : attr)
  | RLookup (r ri : Z) (a : attr) (fnd : bool)
  | RNames (r : Z) (toks : list bytes)
  | RBytes (r : Z) (b : bytes).

(** The result parameters start as the handlers of fuse.cc pass them. *)
Definition run_op {E} `{FsOps E} (o : yop) (e : E) : outcome (yres * E) :=
  match o with
  | OGetfile i => '(r, fin, e) ← getfile i (Fileinfo 0 0 0 0) e; Ok (RFile r fin, e)
  | OGetdir i => '(r, din, e) ← getdir i (Dirinfo 0 0 0) e; Ok (RDir r din, e)
  | OCreate p n i => '(r, a, e) ← create p n i (Attr 0 0 0 0) e; Ok (RAttr r a, e)
  | OLookup p n => '(r, ri, a, f, e) ← lookup p n 0 (Attr 0 0 0 0) false e; Ok (RLookup r ri a f, e)
  | OReaddir p => '(r, l, e) ← readdir p [] e; Ok (RNames r l, e)
  | OUpdatesize i n => '(r, e) ← updatesize i n e; Ok (RStatus r, e)
  | ORead i sz off => '(r, b, e) ← read i sz off [] e; Ok (RBytes r b, e)
  | OWrite i buf sz off => '(r, e) ← write i buf sz off e; Ok (RStatus r, e)
  | OMkdir p n i => '(r, e) ← mymkdir p n i e; Ok (RStatus r, e)
  | OUnlink p n => '(r, e) ← unlink p n e; Ok (RStatus r, e)
  end.

(** ** Simulation between implementations of the interface

    If every call of the interface at [E1] that returns is matched at [E2], so is
    every operation: the code sees of the state only what the interface shows. *)
Class FsSim {E1 E2} `{FsOps E1, FsOps E2} (R : E1 → E2 → Prop) := {
  sim_acquire i e1 e2 e1' : R e1 e2 → lc_acquire i e1 = Ok e1' →
    ∃ e2', lc_acquire i e2 = Ok e2' ∧ R e1' e2';
  sim_release i e1 e2 e1' : R e1 e2 → lc_release i e1 = Ok e1' →
    ∃ e2', lc_release i e2 = Ok e2' ∧ R e1' e2';
  sim_get i b e1 e2 r e1' : R e1 e2 → fs_get i b e1 = Ok (r, e1') →
    ∃ e2', fs_get i b e2 = Ok (r, e2') ∧ R e1' e2';
  sim_getattr i a e1 e2 r e1' : R e1 e2 → fs_getattr i a e1 = Ok (r, e1') →
    ∃ e2', fs_getattr i a e2 = Ok (r, e2') ∧ R e1' e2';
  sim_put i b e1 e2 r e1' : R e1 e2 → fs_put i b e1 = Ok (r, e1') →
    ∃ e2', fs_put i b e2 = Ok (r, e2') ∧ R e1' e2' }.

Section simulation.
Context {E1 E2 : Type} `{FsOps E1, FsOps E2} (R : E1 → E2 → Prop) `{!FsSim R}.

Definition simulated {A} (m1 : outcome (A * E1)) (m2 : outcome (A * E2)) : Prop :=
  ∀ a e1, m1 = Ok (a, e1) → ∃ e2, m2 = Ok (a, e2) ∧ R e1 e2.

Lemma simulated_Ok {A} (a : A) e1 e2 : R e1 e2 → simulated (Ok (a, e1)) (Ok (a, e2)).
Proof. intros HR a' e' [= <- <-]. eauto. Qed.
Lemma simulated_bind {A B} m1 m2 (k1 : A * E1 → outcome (B * E1)) (k2 : A * E2 → outcome (B * E2)) :
  simulated m1 m2 → (∀ a e1 e2, R e1 e2 → simulated (k1 (a, e1)) (k2 (a, e2))) →
  simulated (m1 ≫= k1) (m2 ≫= k2).
Proof.
  intros Hm Hk b e1 ([a e] & Em & Ek)%bind_Ok. destruct (Hm _ _ Em) as (e2 & -> & HR).
  run. by apply (Hk a e).
Qed.
Lemma simulated_pure {A B} (m : outcome A) (k1 : A → outcome (B * E1)) (k2 : A → outcome (B * E2)) :
  (∀ a, simulated (k1 a) (k2 a)) → simulated (m ≫= k1) (m ≫= k2).
Proof. intros Hk b e1 (a & -> & Ek)%bind_Ok. run. by apply (Hk a). Qed.
Lemma simulated_state {B} (m1 : outcome E1) (m2 : outcome E2) (k1 : E1 → outcome (B * E1)) k2 :
  (∀ e1', m1 = Ok e1' → ∃ e2', m2 = Ok e2' ∧ R e1' e2') →
  (∀ e1 e2, R e1 e2 → simulated (k1 e1) (k2 e2)) → simulated (m1 ≫= k1) (m2 ≫= k2).
Proof.
  intros Hm Hk b e1 (e & Em & Ek)%bind_Ok. destruct (Hm _ Em) as (e2 & -> & HR). run. by apply (Hk e).
Qed.

(** Both runs call the same method, or compute the same thing, or branch alike. *)
Ltac sim :=
  repeat first
    [ progress intros
    | apply simulated_Ok; assumption
    | match goal with a : (_ * _)%type |- _ => destruct a end
    | apply simulated_state; [intros ? ?; first [by eapply sim_acquire|by eapply sim_release]|]
    | apply simulated_bind; [intros ? ? ?; first [by eapply sim_get|by eapply sim_getattr|by eapply sim_put]|]
    | apply simulated_bind; [solve [auto]|]
    | apply simulated_pure
    | match goal with |- simulated (if ?c then _ else _) (if ?c then _ else _) => destruct c end
    | match goal with |- simulated (match ?c with _ => _ end) (match ?c with _ => _ end) => destruct c end ].

Lemma isExist_sim p n e1 e2 : R e1 e2 → simulated (isExist p n e1) (isExist p n e2).
Proof. unfold isExist. sim. Qed.
Lemma add_entry_sim p n i e1 e2 : R e1 e2 → simulated (add_entry p n i e1) (add_entry p n i e2).
Proof. unfold add_entry. sim. Qed.

(** A call of such a helper inside an operation. *)
Ltac sim_call l := apply simulated_bind; [by apply l|]; sim.
(** A part of an operation that returns a state: its branches joined again. *)
Ltac sim_block := apply simulated_bind; [sim|]; sim.

Lemma getfile_sim i fin e1 e2 : R e1 e2 → simulated (getfile i fin e1) (getfile i fin e2).
Proof. unfold getfile. sim. Qed.
Lemma getdir_sim i din e1 e2 : R e1 e2 → simulated (getdir i din e1) (getdir i din e2).
Proof. unfold getdir. sim. Qed.
Lemma readdir_sim p l e1 e2 : R e1 e2 → simulated (readdir p l e1) (readdir p l e2).
Proof. unfold readdir. sim. Qed.
Lemma read_sim i sz off b e1 e2 : R e1 e2 → simulated (read i sz off b e1) (read i sz off b e2).
Proof. unfold read. sim. Qed.
Lemma updatesize_sim i n e1 e2 : R e1 e2 → simulated (updatesize i n e1) (updatesize i n e2).
Proof. unfold updatesize. sim. sim_block. Qed.
Lemma write_sim i buf sz off e1 e2 : R e1 e2 → simulated (write i buf sz off e1) (write i buf sz off e2).
Proof. unfold write. sim. sim_block. Qed.
Lemma lookup_sim p n ri ra f e1 e2 : R e1 e2 → simulated (lookup p n ri ra f e1) (lookup p n ri ra f e2).
Proof. unfold lookup. sim. sim_block. Qed.
Lemma create_sim p n i a e1 e2 : R e1 e2 → simulated (create p n i a e1) (create p n i a e2).
Proof. unfold create. sim. sim_call isExist_sim. apply simulated_bind; [sim; sim_call add_entry_sim|sim]. Qed.
Lemma mymkdir_sim p n i e1 e2 : R e1 e2 → simulated (mymkdir p n i e1) (mymkdir p n i e2).
Proof. unfold mymkdir. sim. sim_call isExist_sim. apply simulated_bind; [sim; sim_call add_entry_sim|sim]. Qed.
Lemma unlink_sim p n e1 e2 : R e1 e2 → simulated (unlink p n e1) (unlink p n e2).
Proof. unfold unlink. sim. sim_call isExist_sim. sim_block. Qed.

Lemma run_op_sim o e1 e2 : R e1 e2 → simulated (run_op o e1) (run_op o e2).
Proof.
  intros HR. destruct o; cbn [run_op]; (apply simulated_bind; [|by sim]);
    auto using getfile_sim, getdir_sim, create_sim, lookup_sim, readdir_sim, updatesize_sim, read_sim,
      write_sim, mymkdir_sim, unlink_sim.
Qed.
End simulation.

(** ** Calls of the interface, with their answers *)
Inductive event :=
  | EAcquire (i : Z)
  | ERelease (i : Z)
  | EGet (i st : Z) (b : bytes)
  | EGetattr (i st : Z) (a : attr)
  | EPut (i : Z) (b : bytes) (st : Z).

Definition item (ev : event) : Z :=
  match ev with EAcquire i | ERelease i | EGet i _ _ | EGetattr i _ _ | EPut i _ _ => i end.

(** The calls to come as an implementation: a call that is not the next one does not
    return. *)
#[global] Instance script_ops : FsOps (list event) := {|
  lc_acquire i s :=
    match s with EAcquire j :: s => if decide (i = j) then Ok s else Fault Deadlock | _ => Fault Deadlock end;
  lc_release i s :=
    match s with ERelease j :: s => if decide (i = j) then Ok s else Fault Deadlock | _ => Fault Deadlock end;
  fs_get i _ s :=
    match s with EGet j st b :: s => if decide (i = j) then Ok (st, b, s) else Fault Deadlock | _ => Fault Deadlock end;
  fs_getattr i _ s :=
    match s with EGetattr j st a :: s => if decide (i = j) then Ok (st, a, s) else Fault Deadlock | _ => Fault Deadlock end;
  fs_put i b s :=
    match s with EPut j b' st :: s => if decide (i = j ∧ b = b') then Ok (st, s) else Fault Deadlock | _ => Fault Deadlock end |}.

Lemma script_acquire i s s' : lc_acquire i s = Ok s' ↔ s = EAcquire i :: s'.
Proof. simpl. destruct s as [|[] s]; try case_decide; naive_solver. Qed.
Lemma script_release i s s' : lc_release i s = Ok s' ↔ s = ERelease i :: s'.
Proof. simpl. destruct s as [|[] s]; try case_decide; naive_solver. Qed.
Lemma script_get i b s st b' s' : fs_get i b s = Ok (st, b', s') ↔ s = EGet i st b' :: s'.
Proof. simpl. destruct s as [|[] s]; try case_decide; naive_solver. Qed.
Lemma script_getattr i a s st a' s' : fs_getattr i a s = Ok (st, a', s') ↔ s = EGetattr i st a' :: s'.
Proof. simpl. destruct s as [|[] s]; try case_decide; naive_solver. Qed.
Lemma script_put i b s st s' : fs_put i b s = Ok (st, s') ↔ s = EPut i b st :: s'.
Proof. simpl. destruct s as [|[] s]; try case_decide; naive_solver. Qed.

(** ** Two phases: the locks of an operation

    [held] are the locks it has, [sh] says that it has given one back: from then on it
    takes none.  Every extent is used under its lock, and a lock is given back.  An
    operation that asks for a lock it has waits for ever. *)
Fixpoint well_locked (held : Z → Prop) (sh : bool) (s : list event) : Prop :=
  match s with
  | [] => sh = true
  | EAcquire i :: s => sh = false ∧ (¬ held i → well_locked (λ j, j = i ∨ held j) false s)
  | ERelease i :: s => held i ∧ well_locked (λ j, j ≠ i ∧ held j) true s
  | EGet i _ _ :: s | EGetattr i _ _ :: s | EPut i _ _ :: s => held i ∧ well_locked held sh s
  end.

(** The script of an operation that ran to its end. *)
Ltac inv_run :=
  repeat match goal with
  | H : mbind _ _ = Ok _ |- _ => apply bind_Ok in H as (? & ? & ?)
  | H : lc_acquire _ _ = Ok _ |- _ => apply script_acquire in H
  | H : lc_release _ _ = Ok _ |- _ => apply script_release in H
  | H : fs_get _ _ _ = Ok _ |- _ => apply script_get in H
  | H : fs_getattr _ _ _ = Ok _ |- _ => apply script_getattr in H
  | H : fs_put _ _ _ = Ok _ |- _ => apply script_put in H
  | H : Ok _ = Ok _ |- _ => injection H; clear H; intros
  | H : (_, _) = (_, _) |- _ => injection H; clear H; intros
  | H : Fault _ = Ok _ |- _ => discriminate H
  | x : (_ * _)%type |- _ => destruct x
  | H : (if ?c then _ else _) = Ok _ |- _ => destruct c
  | H : match ?c with _ => _ end = Ok _ |- _ => destruct c
  | _ => progress subst
  end.

Lemma run_op_well_locked o s r : run_op o s = Ok (r, []) → well_locked (λ _, False) false s.
Proof.
  intros H. destruct o; cbn [run_op] in H;
    unfold getfile, getdir, create, lookup, readdir, updatesize, read, write, mymkdir, unlink, isExist, add_entry in H.
  all: inv_run; simpl; repeat (split || intros); first [done|tauto|intros ->; tauto|naive_solver].
Qed.
