(* ===== verification/History.v ===== *)
(** * Operations of several clients at once

    The operations of yfs_client.cc run at the same time at several clients, over one
    map of extents with locks (the contract that Cluster.v proves of the lock protocol
    and the caches).  A history lists the calls of lock client and extent client in the
    order in which they take effect, each with the operation it belongs to and its
    answer; the code of an operation is run against its part of the history.  Every
    history is as good as one in which the operations run one after the other. *)

From stdpp Require Import base tactics numbers list gmap sets strings.
From Stdlib Require Import ZArith Lia Ascii.
From S2P Require Import Prelude CxxString Marshall ExtentServer YfsClient Serial.
Import extent_protocol (attr, Attr, atime, mtime, ctime, a_size).

(** ** Histories

    The extents, and who has each lock; an operation is known by its number. *)
Record shared := Shared { sh_data : gmap Z bytes; sh_owner : gmap Z nat }.

(** A call takes effect if its answer is right: [None] otherwise, and while a lock is
    taken. *)
Definition effect (x : nat * event) (σ : shared) : option shared :=
  let '(Shared C W) := σ in
  match x.2 with
  | EAcquire i => if decide (W !! i = None) then Some (Shared C (<[i := x.1]> W)) else None
  | ERelease i => Some (Shared C (delete i W))
  | EGet i st b => if decide (st = found C i ∧ b = default [] (C !! i)) then Some σ else None
  | EGetattr i st a =>
      if decide (st = found C i ∧ a_size a = from_option (λ b, u32 (size b)) (a_size a) (C !! i))
      then Some σ else None
  | EPut i b st => if decide (st = extent_protocol.OK) then Some (Shared (<[i := b]> C) W) else None
  end.
Fixpoint happens (h : list (nat * event)) (σ : shared) : option shared :=
  match h with [] => Some σ | x :: h => effect x σ ≫= happens h end.

Lemma happens_app h1 h2 σ : happens (h1 ++ h2) σ = happens h1 σ ≫= happens h2.
Proof. revert σ. induction h1 as [|x h1 IH]; intros σ; [done|]. simpl. destruct (effect x σ); [apply IH|done]. Qed.

(** The part of the history that is operation [t]'s, and the rest. *)
Definition mine (t : nat) (h : list (nat * event)) : list (nat * event) := filter (λ x, x.1 = t) h.
Definition others (t : nat) (h : list (nat * event)) : list (nat * event) := filter (λ x, x.1 ≠ t) h.
Definition script (t : nat) (h : list (nat * event)) : list event := (mine t h).*2.

(** Calls on different extents commute. *)
Lemma effect_comm x y σ : item x.2 ≠ item y.2 → effect x σ ≫= effect y = effect y σ ≫= effect x.
Proof.
  destruct x as [t ev], y as [u ev'], σ as [C W]. intros Hne. unfold effect. cbn [fst snd] in *.
  destruct ev, ev'; cbn [item] in Hne; unfold found; cbn [mbind option_bind];
    repeat (case_decide; cbn [mbind option_bind]; rewrite ?lookup_insert_ne, ?lookup_delete_ne in * by congruence);
    try done; try tauto; do 2 f_equal;
    first [by apply insert_insert_ne|by apply delete_insert_ne|by rewrite delete_insert_ne|by apply delete_delete].
Qed.

(** ** Moving an operation to the front *)

(** No call of [t] comes after a call of another operation on the same extent. *)
Definition movable (t : nat) (x y : nat * event) : Prop := x.1 ≠ t → y.1 = t → item x.2 ≠ item y.2.

Lemma move_right x h σ :
  Forall (λ y, item x.2 ≠ item y.2) h → effect x σ ≫= happens h = happens h σ ≫= effect x.
Proof.
  intros Hh. revert σ. induction Hh as [|y h Hy Hh IH]; intros σ; simpl; [by destruct (effect x σ)|].
  transitivity ((effect x σ ≫= effect y) ≫= happens h); [by destruct (effect x σ)|].
  rewrite effect_comm by done. destruct (effect y σ) as [σ'|]; [|done]. apply IH.
Qed.

Lemma to_front t h σ :
  ForallOrdPairs (movable t) h → happens h σ = happens (mine t h ++ others t h) σ.
Proof.
  intros Hh. revert σ. unfold mine, others. induction Hh as [|x h Hx Hh IH]; intros σ; [done|].
  destruct (decide (x.1 = t)) as [Ht|Ht].
  - rewrite filter_cons_True, filter_cons_False by naive_solver. simpl.
    destruct (effect x σ) as [σ'|]; [apply IH|done].
  - rewrite filter_cons_False, filter_cons_True by done. rewrite happens_app. simpl.
    transitivity ((effect x σ ≫= happens (filter (λ y, y.1 = t) h)) ≫= happens (filter (λ y, y.1 ≠ t) h)).
    + destruct (effect x σ) as [σ'|]; [|done]. simpl. by rewrite IH, happens_app.
    + rewrite move_right; [by destruct (happens _ σ)|].
      rewrite Forall_forall in *. intros y [Hy Hin]%list_elem_of_filter. by apply Hx.
Qed.

(** ** What the locks give *)

Lemma well_locked_mono (P Q : Z → Prop) sh s :
  (∀ j, P j → Q j) → well_locked P sh s → well_locked Q sh s.
Proof.
  revert P Q sh. induction s as [|[] s IH]; intros P Q sh HPQ; simpl; [done|..].
  - intros [-> H]. split; [done|]. intros Hn. eapply IH; [|apply H]; naive_solver.
  - intros [? H]. split; [by apply HPQ|]. eapply IH; [|apply H]. naive_solver.
  - intros [? H]. eauto.
  - intros [? H]. eauto.
  - intros [? H]. eauto.
Qed.

(** From its first release on, an operation uses what it has. *)
Lemma shrinking_items (P : Z → Prop) s ev : well_locked P true s → ev ∈ s → P (item ev).
Proof.
  revert P. induction s as [|ev' s IH]; intros P Hw Hin; [by apply not_elem_of_nil in Hin|].
  apply elem_of_cons in Hin as [->|Hin]; destruct ev'; simpl in *; try naive_solver.
  all: destruct Hw as [? Hw]; by apply (IH _ Hw).
Qed.

(** [t] owns at least what its script still needs. *)
Definition owns (W : gmap Z nat) (t : nat) (j : Z) : Prop := W !! j = Some t.

Lemma script_cons t x h :
  script t (x :: h) = if decide (x.1 = t) then x.2 :: script t h else script t h.
Proof. unfold script, mine. rewrite filter_cons. by case_decide. Qed.

Definition releases (ev : event) : bool := match ev with ERelease _ => true | _ => false end.

(** The operations [ids] are in the middle of [h], [ph] saying which have released. *)
Definition underway (ids : list nat) (ph : nat → bool) (h : list (nat * event)) (σ : shared) : Prop :=
  (∀ x, x ∈ h → x.1 ∈ ids) ∧ ∀ t, t ∈ ids → well_locked (owns (sh_owner σ) t) (ph t) (script t h).

(** The owner of the extent of the next call, before it and after it. *)
Lemma next_owner ids ph x h σ σ' :
  underway ids ph (x :: h) σ → effect x σ = Some σ' →
  (sh_owner σ !! item x.2 = None ∨ sh_owner σ !! item x.2 = Some x.1) ∧
  (releases x.2 = false → sh_owner σ' !! item x.2 = Some x.1) ∧
  (∀ j t, sh_owner σ !! j = Some t → (releases x.2 = true → t ≠ x.1) → sh_owner σ' !! j = Some t).
Proof.
  intros [Hids Hw] He. specialize (Hw x.1 (Hids x ltac:(left))). rewrite script_cons, decide_True in Hw by done.
  destruct x as [u ev], σ as [C W]. unfold effect in He. cbn [fst snd sh_owner] in *.
  destruct ev as [i|i|i st b|i st a|i b st]; cbn [item releases well_locked] in *; destruct Hw as [Hi _];
    try case_decide; simplify_eq/=; split_and!; try tauto; try done.
  - intros _. apply lookup_insert_eq.
  - intros j t Hj _. rewrite lookup_insert_ne; [done|]. congruence.
  - intros j t Hj Hne. rewrite lookup_delete_ne; [done|]. intros ->. unfold owns in Hi. specialize (Hne eq_refl). congruence.
Qed.

Definition shrunk_after (x : nat * event) (ph : nat → bool) (t : nat) : bool :=
  if decide (x.1 = t) then ph t || releases x.2 else ph t.

Lemma underway_step ids ph x h σ σ' :
  underway ids ph (x :: h) σ → effect x σ = Some σ' → underway ids (shrunk_after x ph) h σ'.
Proof.
  intros Hu He. destruct (next_owner _ _ _ _ _ _ Hu He) as (Hbefore & Hafter & Hkeep).
  destruct Hu as [Hids Hw]. split; [intros y Hy; apply Hids; by right|].
  intros t Ht. specialize (Hw t Ht). rewrite script_cons in Hw. unfold shrunk_after. case_decide as Eq.
  - subst t. destruct x as [u ev], σ as [C W]. unfold effect in He. cbn [fst snd sh_owner] in *.
    destruct ev as [i|i|i st b|i st a|i b st]; cbn [well_locked item releases] in *; destruct Hw as [Hi Hw];
      try case_decide; simplify_eq/=; rewrite ?orb_false_r, ?orb_true_r; try done.
    + rewrite Hi. eapply well_locked_mono; [|apply Hw; unfold owns; congruence]. unfold owns.
      intros j [->|Hj]; [apply lookup_insert_eq|rewrite lookup_insert_ne by congruence; done].
    + eapply well_locked_mono; [|apply Hw]. unfold owns. intros j [Hne Hj]. by rewrite lookup_delete_ne.
  - eapply well_locked_mono; [|exact Hw]. unfold owns. intros j Hj. apply Hkeep; [done|]. intros _. congruence.
Qed.

(** After the first release of [t] nobody has touched what it still uses. *)
Lemma movable_shrinking ids ph t h σ σ' :
  underway ids ph h σ → t ∈ ids → ph t = true → happens h σ = Some σ' → ForallOrdPairs (movable t) h.
Proof.
  intros Hu Ht Hph. revert ph σ Hu Hph. induction h as [|x h IH]; intros ph σ Hu Hph Hr; [constructor|].
  simpl in Hr. destruct (effect x σ) as [σ1|] eqn:He; [|done]. simpl in Hr. constructor.
  - rewrite Forall_forall. intros y Hy Hx Hyt Heq. destruct (next_owner _ _ _ _ _ _ Hu He) as (Hb & _).
    destruct Hu as [_ Hw]. specialize (Hw t Ht). rewrite script_cons, decide_False, Hph in Hw by done.
    apply (shrinking_items _ _ y.2) in Hw.
    + unfold owns in Hw. rewrite Heq in Hb. rewrite Hw in Hb. naive_solver.
    + apply list_elem_of_fmap. exists y. split; [done|]. by apply list_elem_of_filter.
  - apply (IH (shrunk_after x ph) σ1); [by eapply underway_step| |done].
    unfold shrunk_after. case_decide; [by rewrite Hph|done].
Qed.

(** What another operation has before the first release of all, [t] does not use. *)
Lemma kept_until_release ids ph t u j pre i post σ σ' :
  underway ids ph (pre ++ (t, ERelease i) :: post) σ → t ∈ ids → u ≠ t →
  Forall (λ x : nat * event, releases x.2 = false) pre → sh_owner σ !! j = Some u →
  happens (pre ++ (t, ERelease i) :: post) σ = Some σ' →
  ∀ y, y ∈ pre ++ (t, ERelease i) :: post → y.1 = t → item y.2 ≠ j.
Proof.
  intros Hu Ht Hne Hpre. revert ph σ Hu. induction Hpre as [|x pre Hx Hpre IH]; intros ph σ Hu Hj Hr y Hy Hyt.
  - destruct Hu as [_ Hw]. specialize (Hw t Ht). simpl in Hw. rewrite script_cons, decide_True in Hw by done.
    simpl in Hw. destruct Hw as [Hi Hw]. unfold owns in Hi. apply elem_of_cons in Hy as [->|Hy]; [simpl; congruence|].
    apply (shrinking_items _ _ y.2) in Hw; [unfold owns in Hw; naive_solver|].
    apply list_elem_of_fmap. exists y. split; [done|]. by apply list_elem_of_filter.
  - simpl in Hr, Hu, Hy. destruct (effect x σ) as [σ1|] eqn:He; [|done]. simpl in Hr.
    destruct (next_owner _ _ _ _ _ _ Hu He) as (Hb & _ & Hkeep). apply elem_of_cons in Hy as [->|Hy].
    + intros <-. rewrite Hj in Hb. naive_solver.
    + apply (IH (shrunk_after x ph) σ1); [by eapply underway_step| |done..]. apply Hkeep; [done|congruence].
Qed.

Lemma movable_first ids ph t pre i post σ σ' :
  underway ids ph (pre ++ (t, ERelease i) :: post) σ → t ∈ ids →
  Forall (λ x : nat * event, releases x.2 = false) pre → happens (pre ++ (t, ERelease i) :: post) σ = Some σ' →
  ForallOrdPairs (movable t) (pre ++ (t, ERelease i) :: post).
Proof.
  intros Hu Ht Hpre. revert ph σ Hu. induction Hpre as [|x pre Hx Hpre IH]; intros ph σ Hu Hr; simpl in *.
  - constructor; [apply Forall_forall; by intros y _ H|]. apply bind_Some in Hr as (σ1 & He & Hr).
    apply (movable_shrinking ids (shrunk_after (t, ERelease i) ph) t post σ1 σ'); [|done| |done].
    + by eapply underway_step.
    + unfold shrunk_after. simpl. rewrite decide_True by done. apply orb_true_r.
  - apply bind_Some in Hr as (σ1 & He & Hr). pose proof (underway_step _ _ _ _ _ _ Hu He) as Hu1.
    constructor; [|by eapply IH]. rewrite Forall_forall. intros y Hy Hxt Hyt.
    destruct (next_owner _ _ _ _ _ _ Hu He) as (_ & Ha & _). symmetry.
    by apply (kept_until_release ids (shrunk_after x ph) t x.1 (item x.2) pre i post σ1 σ'); auto.
Qed.

(** ** One after the other *)

Definition one_by_one (order : list nat) (h : list (nat * event)) : list (nat * event) :=
  concat ((λ t, mine t h) <$> order).

(** Operation [u] was over before [v] began. *)
Definition precedes (u v : nat) (h : list (nat * event)) : Prop :=
  ∃ h1 h2, h = h1 ++ h2 ∧ (∀ x, x ∈ h1 → x.1 ≠ v) ∧ (∀ x, x ∈ h2 → x.1 ≠ u).

(** No operation is put behind one that began after its end. *)
Definition in_time (order : list nat) (h : list (nat * event)) : Prop :=
  ∀ o1 v o2 u, order = o1 ++ v :: o2 → u ∈ o2 → ¬ precedes u v h.

Lemma mine_others t u h : u ≠ t → mine u (others t h) = mine u h.
Proof.
  intros Hne. unfold mine, others. rewrite list_filter_filter. apply list_filter_iff. naive_solver.
Qed.

Lemma precedes_others t u v h : precedes u v h → precedes u v (others t h).
Proof.
  intros (h1 & h2 & -> & H1 & H2). exists (others t h1), (others t h2). unfold others.
  split; [apply filter_app|]. split; intros x [_ Hx]%list_elem_of_filter; auto.
Qed.

(** An operation that ran to its end has released. *)
Lemma finished_released ids ph t h σ σ' :
  underway ids ph h σ → t ∈ ids → happens h σ = Some σ' →
  ph t = true ∨ Exists (λ x : nat * event, x.1 = t ∧ releases x.2 = true) h.
Proof.
  intros Hu Ht. revert ph σ Hu. induction h as [|x h IH]; intros ph σ Hu Hr; simpl in Hr.
  - left. by destruct Hu as [_ Hw]; apply Hw in Ht.
  - apply bind_Some in Hr as (σ1 & He & Hr). destruct (IH _ _ (underway_step _ _ _ _ _ _ Hu He) Hr) as [Hp|Hx].
    + unfold shrunk_after in Hp. case_decide; [|by left]. apply orb_prop in Hp as [?|?]; [by left|].
      right. by apply Exists_cons_hd.
    + right. by apply Exists_cons_tl.
Qed.

Lemma first_release h :
  Exists (λ x : nat * event, releases x.2 = true) h →
  ∃ pre t i post, h = pre ++ (t, ERelease i) :: post ∧ Forall (λ x : nat * event, releases x.2 = false) pre.
Proof.
  induction h as [|[t ev] h IH]; intros Hex; [by inversion Hex|].
  destruct (releases ev) eqn:Er.
  - destruct ev; try done. by exists [], t, i, h.
  - apply Exists_cons in Hex as [Hx|Hex]; [simpl in Hx; congruence|].
    destruct (IH Hex) as (pre & u & i & post & -> & Hpre). exists ((t, ev) :: pre), u, i, post. split; [done|by constructor].
Qed.

(** Only the calls of [ids], each in two phases from nothing. *)
Definition complete (ids : list nat) (h : list (nat * event)) : Prop :=
  NoDup ids ∧ (∀ x, x ∈ h → x.1 ∈ ids) ∧ ∀ t, t ∈ ids → well_locked (λ _, False) false (script t h).

Lemma complete_underway ids h σ : complete ids h → underway ids (λ _, false) h σ.
Proof.
  intros (_ & Hids & Hw). split; [done|]. intros t Ht. eapply well_locked_mono; [|by apply Hw]. done.
Qed.

(** Whoever releases first can run first: nobody was over before it began. *)
Lemma first_has_no_predecessor ids h σ σ' pre t i post u :
  complete ids h → happens h σ = Some σ' → h = pre ++ (t, ERelease i) :: post →
  Forall (λ x : nat * event, releases x.2 = false) pre → u ∈ ids → ¬ precedes u t h.
Proof.
  intros Hc Hr Eh Hpre Hu (h1 & h2 & Eh' & H1 & H2).
  destruct (finished_released ids (λ _, false) u h σ σ') as [?|Hex]; [by apply complete_underway|done..|].
  apply Exists_exists in Hex as ([v ev] & Hin & Hv & Hrel). simpl in Hv, Hrel. subst v.
  rewrite Eh', elem_of_app in Hin. destruct Hin as [Hin|Hin]; [|by apply H2 in Hin].
  assert ((u, ev) ∉ pre) as Hnp.
  { intros Hx. rewrite Forall_forall in Hpre. apply Hpre in Hx. simpl in Hx. congruence. }
  assert ((t, ERelease i) ∉ h1) as Hnot by (intros Hx; by apply H1 in Hx).
  rewrite Eh in Eh'. apply app_eq_inv in Eh' as [(k & -> & _)|(k & -> & Ek)]; [set_solver|].
  destruct k as [|y k]; simplify_eq/=; set_solver.
Qed.

Lemma remove_id (t : nat) ids : NoDup ids → t ∈ ids → ∃ ids', ids ≡ₚ t :: ids' ∧ NoDup ids' ∧ t ∉ ids'.
Proof.
  intros Hnd Hin. apply list_elem_of_split in Hin as (l1 & l2 & ->). exists (l1 ++ l2).
  rewrite <- Permutation_middle in Hnd. apply NoDup_cons in Hnd as [Hni Hnd].
  split; [by rewrite Permutation_middle|done].
Qed.

(** ** Serialisability *)
Lemma serialise ids h σ σ' :
  complete ids h → happens h σ = Some σ' →
  ∃ order, order ≡ₚ ids ∧ happens (one_by_one order h) σ = Some σ' ∧ in_time order h.
Proof.
  remember (length ids) as n eqn:Hn. revert ids h σ Hn. induction n as [|n IH]; intros ids h σ Hn Hc Hr.
  - destruct ids; [|done]. destruct Hc as (_ & Hids & _). destruct h as [|x h].
    + exists []. split_and!; [done|done|]. intros o1 v o2 u Heq. by destruct o1.
    + exfalso. apply (not_elem_of_nil x.1), Hids. left.
  - destruct ids as [|t0 ids0]; [done|]. pose proof Hc as (Hnd & Hids & Hw).
    destruct (first_release h) as (pre & t & i & post & Eh & Hpre).
    { destruct (finished_released (t0 :: ids0) (λ _, false) t0 h σ σ') as [?|Hex];
        [by apply complete_underway|left|done..|]. eapply Exists_impl; [exact Hex|]. naive_solver. }
    assert (t ∈ t0 :: ids0) as Ht by (apply (Hids (t, ERelease i)); rewrite Eh; set_solver).
    pose proof Hr as Hr0. rewrite (to_front t) in Hr.
    2: { rewrite Eh in Hr |- *. eapply movable_first; [|done..]. rewrite <- Eh. by apply complete_underway. }
    rewrite happens_app in Hr. apply bind_Some in Hr as (σ1 & Hr1 & Hr2).
    destruct (remove_id t _ Hnd Ht) as (ids' & Hp & Hnd' & Hni).
    destruct (IH ids' (others t h) σ1) as (order & Ho & Hrep & Htime); [|split_and!; [done|..]|done|].
    + apply Permutation_length in Hp. simpl in *. lia.
    + intros x [Hx Hin]%list_elem_of_filter. apply Hids in Hin. rewrite Hp in Hin. set_solver.
    + intros u Hu. unfold script. rewrite mine_others by set_solver. apply Hw. rewrite Hp. by right.
    + exists (t :: order). split_and!.
      * by rewrite Hp, Ho.
      * unfold one_by_one in *. simpl. rewrite happens_app, Hr1. simpl. rewrite <- Hrep. do 2 f_equal.
        apply list_fmap_ext. intros k u Hu. symmetry. apply mine_others. intros ->. apply Hni. rewrite <- Ho.
        by eapply list_elem_of_lookup_2.
      * intros o1 v o2 u Heq Hu. destruct o1 as [|w o1]; simpl in Heq; injection Heq as -> ->.
        -- eapply first_has_no_predecessor; [done..|]. rewrite Hp, <- Ho. by right.
        -- intros Hpr. apply (Htime o1 v o2 u eq_refl Hu). by apply precedes_others.
Qed.

(** ** The file system without clients

    The extents as one map, locks as a set, and the fields of attributes that the map
    does not determine read from a list that never ends. *)
Record ideal := Ideal { id_data : gmap Z bytes; id_locks : gset Z; id_attrs : nat → attr; id_read : nat }.

Definition with_size (n : Z) (a : attr) : attr := Attr (atime a) (mtime a) (ctime a) n.

#[global] Instance ideal_ops : FsOps ideal := {|
  lc_acquire i e :=
    if decide (i ∈ id_locks e) then Fault Deadlock
    else Ok (Ideal (id_data e) ({[i]} ∪ id_locks e) (id_attrs e) (id_read e));
  lc_release i e := Ok (Ideal (id_data e) (id_locks e ∖ {[i]}) (id_attrs e) (id_read e));
  fs_get i _ e := Ok (found (id_data e) i, default [] (id_data e !! i), e);
  fs_getattr i _ e :=
    let a := id_attrs e (id_read e) in
    Ok (found (id_data e) i, from_option (λ b, with_size (u32 (size b)) a) a (id_data e !! i),
        Ideal (id_data e) (id_locks e) (id_attrs e) (S (id_read e)));
  fs_put i b e := Ok (extent_protocol.OK, Ideal (<[i := b]> (id_data e)) (id_locks e) (id_attrs e) (id_read e)) |}.

#[global] Program Instance ideal_spec : FsSpec ideal := {|
  fs_ok _ := True; content := id_data; locks := id_locks |}.
Next Obligation. intros i e _ Hi. simpl. rewrite decide_False by done. by eexists. Qed.
Next Obligation. intros i e _ Hi. by eexists. Qed.
Next Obligation. intros i b e _ Hi. by eexists. Qed.
Next Obligation. intros i a e _ Hi. do 2 eexists. split; [done|]. split; [|done]. by intros b ->. Qed.
Next Obligation. intros i b e _ Hi. by eexists. Qed.

(** The attributes that a script reads. *)
Definition attrs_of (s : list event) : list attr :=
  omap (λ ev, match ev with EGetattr _ _ a => Some a | _ => None end) s.

(** A script that replays as operation [t]'s from the state [e] up to [σ'], reading the
    attributes of [e] up to the first [n']. *)
Definition replays (t : nat) (σ' : shared) (f : nat → attr) (n' : nat) (s : list event) (e : ideal) : Prop :=
  ∃ σ, happens (pair t <$> s) σ = Some σ' ∧ e = Ideal (sh_data σ) (dom (sh_owner σ)) f (id_read e) ∧
    id_read e + length (attrs_of s) = n' ∧ ∀ k a, attrs_of s !! k = Some a → f (id_read e + k) = a.

#[local] Instance replays_sim t σ' f n' : FsSim (replays t σ' f n').
Proof.
  split.
  - intros i s e s' ([C W] & Hr & He & Hn & Ha) ->%script_acquire. simpl in Hr. case_decide as HW; [|done].
    rewrite He. simpl. rewrite decide_False by (by apply not_elem_of_dom). eexists. split; [done|].
    exists (Shared C (<[i := t]> W)). split_and!; [done| |done|done]. simpl. by rewrite dom_insert_L.
  - intros i s e s' ([C W] & Hr & He & Hn & Ha) ->%script_release. rewrite He. eexists. split; [done|].
    exists (Shared C (delete i W)). split_and!; [done| |done|done]. simpl. by rewrite dom_delete_L.
  - intros i b s e [st b'] s' (σ & Hr & He & Hn & Ha) ->%script_get. destruct σ as [C W]. simpl in Hr.
    case_decide as Hg; [|done]. destruct Hg as [-> ->]. rewrite He. eexists. split; [done|].
    by exists (Shared C W).
  - intros i b s e [st a] s' (σ & Hr & He & Hn & Ha) ->%script_getattr. destruct σ as [C W]. simpl in Hr.
    case_decide as Hg; [|done]. destruct Hg as [-> Hsz]. rewrite He. simpl in Hn. eexists. split.
    + simpl. pose proof (Ha 0 a eq_refl) as E0. rewrite Nat.add_0_r in E0. rewrite E0. repeat f_equal.
      destruct (C !! i) as [c|]; [|done]. simpl in *. unfold with_size. rewrite <- Hsz. by destruct a.
    + exists (Shared C W). split_and!; [done|done|simpl; lia|]. intros k a' Hk.
      rewrite <- (Ha (S k) a' Hk). simpl. f_equal. lia.
  - intros i b s e st s' (σ & Hr & He & Hn & Ha) ->%script_put. destruct σ as [C W]. simpl in Hr.
    case_decide as Hg; [|done]. subst st. rewrite He. eexists. split; [done|].
    by exists (Shared (<[i := b]> C) W).
Qed.

(** The operations one at a time. *)
Fixpoint run_all {E} `{FsOps E} (l : list yop) (e : E) : outcome (list yres * E) :=
  match l with
  | [] => Ok ([], e)
  | o :: l => '(r, e) ← run_op o e; '(rs, e) ← run_all l e; Ok (r :: rs, e)
  end.

Lemma mine_tagged t h : mine t h = pair t <$> script t h.
Proof.
  unfold script. rewrite <- list_fmap_compose. rewrite <- (list_fmap_id (mine t h)) at 1.
  apply Forall_fmap_ext_1, Forall_forall. intros [u ev] [Hu _]%list_elem_of_filter. simpl in *. by subst.
Qed.

Lemma run_serial (ops : nat → yop) (res : nat → yres) order h f n σ σ' :
  (∀ t, t ∈ order → run_op (ops t) (script t h) = Ok (res t, [])) →
  happens (one_by_one order h) σ = Some σ' →
  (∀ k a, attrs_of (one_by_one order h).*2 !! k = Some a → f (n + k) = a) →
  ∃ e', run_all (ops <$> order) (Ideal (sh_data σ) (dom (sh_owner σ)) f n) = Ok (res <$> order, e') ∧
    id_data e' = sh_data σ' ∧ id_locks e' = dom (sh_owner σ').
Proof.
  revert σ n. induction order as [|t order IH]; intros σ n Hops Hr Hf.
  - simpl in *. injection Hr as ->. by eexists.
  - unfold one_by_one in *. simpl in Hr, Hf. rewrite happens_app in Hr. apply bind_Some in Hr as (σ1 & Hr1 & Hr2).
    rewrite mine_tagged in Hr1.
    destruct (run_op_sim (replays t σ1 f (n + length (attrs_of (script t h)))) (ops t) (script t h)
      (Ideal (sh_data σ) (dom (sh_owner σ)) f n)) with (a := res t) (e1 := @nil event)
      as (e1 & E1 & σ2 & Hσ & He1 & Hn1 & _).
    + exists σ. split_and!; [done|done|done|]. intros k a Hk. apply Hf.
      rewrite fmap_app. unfold attrs_of in *. rewrite omap_app. by apply lookup_app_l_Some.
    + apply Hops. left.
    + simpl in Hσ, Hn1. injection Hσ as ->. cbn [fmap list_fmap run_all]. rewrite E1. run. rewrite He1.
      rewrite Nat.add_0_r in Hn1. rewrite Hn1.
      destruct (IH σ1 (n + length (attrs_of (script t h)))) as (e' & -> & Hd & Hl); [|done| |].
      * intros u Hu. apply Hops. by right.
      * intros k a Hk. rewrite <- Nat.add_assoc. apply Hf. rewrite fmap_app. unfold attrs_of in *. rewrite omap_app.
        fold (script t h). rewrite lookup_app_r by lia. rewrite <- Hk. f_equal. lia.
      * run. by exists e'.
Qed.

(** Locks and answers as they should be, operations in two phases: together the
    operations of a history can be run one after the other. *)
Lemma serialisable (ops : nat → yop) (res : nat → yres) ids h σ σ' :
  NoDup ids → (∀ x, x ∈ h → x.1 ∈ ids) →
  (∀ t, t ∈ ids → run_op (ops t) (script t h) = Ok (res t, [])) →
  happens h σ = Some σ' →
  ∃ order attrs e', order ≡ₚ ids ∧ in_time order h ∧
    run_all (ops <$> order) (Ideal (sh_data σ) (dom (sh_owner σ)) attrs 0) = Ok (res <$> order, e') ∧
    id_data e' = sh_data σ' ∧ id_locks e' = dom (sh_owner σ').
Proof.
  intros Hnd Hids Hops Hr. destruct (serialise ids h σ σ') as (order & Ho & Hs & Ht); [|done|].
  { split_and!; [done|done|]. intros t Hin. by eapply run_op_well_locked, Hops. }
  set (l := attrs_of (one_by_one order h).*2).
  destruct (run_serial ops res order h (λ k, default (Attr 0 0 0 0) (l !! k)) 0 σ σ') as (e' & He & Hd & Hl).
  - intros t Hin. apply Hops. by rewrite <- Ho.
  - done.
  - intros k a Hk. simpl. fold l in Hk. by rewrite Hk.
  - eauto 10.
Qed.

(** ** The property *)

(** The operations of the file system at several clients are atomic.  Take any
    history of calls to locks and extents in which the code of each operation, run
    against its own calls and the answers to them, comes to its end, a lock is only
    granted while nobody has it, and a get or getattr shows the last put.  Then there is
    an order of the operations, in which none is behind one that began after its end,
    such that the same code run one operation at a time on a plain map of extents
    returns the same results and leaves the same extents and the same locks. *)
Theorem operations_linearizable (ops : nat → yop) (res : nat → yres) ids h σ σ' :
  NoDup ids → (∀ x, x ∈ h → x.1 ∈ ids) →
  (∀ t, t ∈ ids → run_op (ops t) (script t h) = Ok (res t, [])) →
  happens h σ = Some σ' →
  ∃ order attrs e', order ≡ₚ ids ∧ in_time order h ∧
    run_all (ops <$> order) (Ideal (sh_data σ) (dom (sh_owner σ)) attrs 0) = Ok (res <$> order, e') ∧
    id_data e' = sh_data σ' ∧ id_locks e' = dom (sh_owner σ').
Proof. apply serialisable. Qed.

(** A client creates "a" in the root, one writes to file 9, and a third looks "a" up. *)
Definition ex_ops (t : nat) : yop :=
  match t with
  | 0 => OCreate 1 (lit "a" ++ [NUL]) 2147483649
  | 1 => OWrite 9 (lit "xy" ++ [NUL]) 2 0
  | _ => OLookup 1 (lit "a" ++ [NUL])
  end.
Definition ex_history : list (nat * event) :=
  let new := 2147483649%Z in
  [(0, EAcquire 1); (1, EAcquire 9); (0, EAcquire new); (0, EGet 1 0 []); (1, EGet 9 0 (lit "abc"));
   (0, EPut new [] 0); (0, EGet 1 0 []); (1, EGetattr 9 0 (Attr 5 6 7 3)); (0, EPut 1 (lit "2147483649 a") 0);
   (1, EPut 9 (lit "xyc") 0); (0, EGetattr new 0 (Attr 8 8 8 0)); (0, ERelease new); (0, ERelease 1);
   (2, EAcquire 1); (1, ERelease 9); (2, EGet 1 0 (lit "2147483649 a")); (2, EAcquire new);
   (2, EGetattr new 0 (Attr 8 8 8 0)); (2, ERelease new); (2, ERelease 1)].
Definition ex_shared : shared := Shared {[1%Z := []; 9%Z := lit "abc"]} ∅.
Definition ex_res (t : nat) : yres :=
  match run_op (ex_ops t) (script t ex_history) with Ok (r, _) => r | Fault _ => RStatus 0 end.

Lemma operations_linearizable_witness :
  ∃ order attrs e', order ≡ₚ [0; 1; 2] ∧ in_time order ex_history ∧
    run_all (ex_ops <$> order) (Ideal (sh_data ex_shared) ∅ attrs 0) = Ok (ex_res <$> order, e') ∧
    id_data e' !! 9%Z = Some (lit "xyc").
Proof.
  destruct (happens ex_history ex_shared) as [σ'|] eqn:Er; [|vm_compute in Er; discriminate].
  destruct (operations_linearizable ex_ops ex_res [0; 1; 2] ex_history ex_shared σ')
    as (order & attrs & e' & Ho & Ht & Hr & Hd & _).
  - apply (bool_decide_eq_true_1 _). vm_compute. reflexivity.
  - intros x Hx. assert (Forall (λ x, x.1 ∈ [0; 1; 2]) ex_history) as H.
    { apply (bool_decide_eq_true_1 _). vm_compute. reflexivity. }
    rewrite Forall_forall in H. by apply H.
  - intros t Ht. rewrite !elem_of_cons, elem_of_nil in Ht. destruct Ht as [->|[->|[->|[]]]]; vm_compute; reflexivity.
  - exact Er.
  - exists order, attrs, e'. split; [exact Ho|]. split; [exact Ht|]. split; [exact Hr|].
    rewrite Hd. vm_compute in Er. injection Er as <-. reflexivity.
Defined.
