(* ===== verification/Distributed.v ===== *)
(** * The whole distributed file system

    Operations of yfs_client.cc at several clients, over the caches, the extent server
    and the lock protocol of Cluster.v.  A thread of the cluster takes one lock and uses
    the extent of that number; the threads that work for one operation (its process
    holds one or two locks) have the number of that operation, [job].  The calls of the
    operations that such a run contains, in their order, are a history of History.v. *)

From stdpp Require Import base tactics numbers list gmap sets strings functions relations.
From Stdlib Require Import ZArith Lia Ascii.
From S2P Require Import Prelude CxxString Marshall Connection RpcServer RpcTime RpcClient RpcCall ExtentServer ExtentClient Coherence LockServer LockClient LockProtocol Cluster YfsClient Serial History.
Import extent_protocol (attr, Attr, atime, mtime, ctime, a_size).

(** The call that an operation on an extent is for its thread; of the attributes the
    cluster shows the size. *)
Inductive call_of : coh_op → coh_reply → event → Prop :=
  | call_get i eid now st b : call_of (Get i eid now) (CBuf st b) (EGet eid st b)
  | call_getattr i eid st sz a :
      from_option (λ n, a_size a = n) True sz → call_of (Getattr i eid) (CSize st sz) (EGetattr eid st a)
  | call_put i eid b now st sz : call_of (Put i eid b now) (CSize st sz) (EPut eid b st).

Section distributed.
Context (home : nat → bytes) (job : nat → nat).

Definition held (p : pc) : option Z := match p with Holding lid => Some lid | _ => None end.
Lemma held_Some p lid : held p = Some lid ↔ p = Holding lid.
Proof. destruct p; naive_solver. Qed.
Definition holds (κ : cluster) (t : nat) (lid : Z) : Prop := held (pcs (k_lock κ) t) = Some lid.

(** A step of the cluster with the call that it is: a thread gets its lock, gives it up,
    uses its extent, or does something the operations do not see. *)
Inductive hstep : cluster → list (nat * event) → cluster → Prop :=
  | h_acquire t lid κ ev κ' :
      cstep home κ ev κ' → ¬ holds κ t lid → holds κ' t lid → hstep κ [(job t, EAcquire lid)] κ'
  | h_release t lid κ ev κ' :
      cstep home κ ev κ' → holds κ t lid → ¬ holds κ' t lid → hstep κ [(job t, ERelease lid)] κ'
  | h_use t lid op r σ d d' x :
      defined σ → pcs σ t = Holding lid → touches op = Some (home t, lid) → coh_exec op d = Ok (r, d') → call_of op r x →
      hstep (Cluster σ d) [(job t, x)] (Cluster σ d')
  | h_silent κ ev κ' :
      cstep home κ ev κ' → Forall (λ x, touches x.1 = None) ev →
      (∀ t lid, holds κ t lid ↔ holds κ' t lid) → hstep κ [] κ'.

Inductive hruns : cluster → list (nat * event) → cluster → Prop :=
  | hruns_nil κ : hruns κ [] κ
  | hruns_cons κ κ' κ'' evs h : hstep κ evs κ' → hruns κ' h κ'' → hruns κ (evs ++ h) κ''.

Lemma cstep_one κ ev κ' : cstep home κ ev κ' →
  (∃ t, ∀ u, u ≠ t → pcs (k_lock κ') u = pcs (k_lock κ) u) ∧
  (Forall (λ x, touches x.1 = None) ev ∨ pcs (k_lock κ') = pcs (k_lock κ)).
Proof.
  destruct 1 as [σ σ' d Hs _|t lid σ d r d' _ _ _|t lid now σ d r d' _ _ _|t lid op σ d r d' _ _ _ _]; cbn [k_lock].
  - split; [by eapply step_one|by left].
  - split; [exists t; intros u; apply answer_one|left; by constructor].
  - split; [exists t; intros u Hu; simpl; by rewrite fn_lookup_insert_ne|left; by constructor].
  - split; [by exists 0|by right].
Qed.

(** A thread has one lock at a time. *)
Lemma cstep_drops κ ev κ' t lid lid' :
  cstep home κ ev κ' → holds κ t lid → holds κ' t lid' → lid = lid'.
Proof.
  assert (cstep home κ ev κ' → k_lock κ' = k_lock κ ∨ step home true Anytime (k_lock κ) (k_lock κ')) as Hstep.
  { destruct 1; [by right|right|right|by left]; (split; [done|]); [by apply step_answer|by apply step_flushed]. }
  intros [E|Hs]%Hstep; unfold holds; [rewrite E; congruence|]. rewrite !held_Some. intros Hh Hh'.
  destruct (decide (pcs (k_lock κ') t = Holding lid)) as [E|E]; [congruence|].
  pose proof (step_from_holding home true _ _ _ _ _ Hs Hh E) as Hn. by rewrite Hh' in Hn.
Qed.

(** Every step of the cluster is one of these. *)
Lemma call_exists op r d d' i lid :
  touches op = Some (i, lid) → coh_exec op d = Ok (r, d') → ∃ x, call_of op r x ∧ item x = lid.
Proof.
  destruct op as [| |j eid now|j eid|j eid buf now]; intros [= -> ->] He; cbn [coh_exec] in He.
  - apply bind_Ok in He as ([[[st b] c] s] & _ & [= <- _]). eexists. split; [constructor|done].
  - apply bind_Ok in He as ([[[st a] c] s] & _ & [= <- _]). exists (EGetattr lid st a). split; [constructor|done].
    by case_match.
  - destruct (ec_put now lid buf (client_of d i)) as [st c]. injection He as <- _.
    eexists. split; [constructor|done].
Qed.

(** What thread [t] gets or gives up in a step. *)
Definition moves (t : nat) (κ κ' : cluster) : list (nat * event) :=
  match held (pcs (k_lock κ) t), held (pcs (k_lock κ') t) with
  | None, Some lid => [(job t, EAcquire lid)]
  | Some lid, None => [(job t, ERelease lid)]
  | _, _ => []
  end.

Lemma hstep_moves t κ ev κ' :
  cstep home κ ev κ' → Forall (λ x, touches x.1 = None) ev →
  (∀ u, u ≠ t → pcs (k_lock κ') u = pcs (k_lock κ) u) → hstep κ (moves t κ κ') κ'.
Proof.
  intros Hs Hev Ht. unfold moves.
  assert (held (pcs (k_lock κ) t) = held (pcs (k_lock κ') t) → hstep κ [] κ') as Hsilent.
  { intros E. eapply h_silent; [done|done|]. intros u l. unfold holds.
    destruct (decide (u = t)) as [->|Hu]; [by rewrite E|by rewrite Ht]. }
  destruct (held (pcs (k_lock κ) t)) as [lid|] eqn:E, (held (pcs (k_lock κ') t)) as [lid'|] eqn:E'.
  - apply Hsilent. f_equal. by eapply cstep_drops.
  - eapply (h_release t lid); [done|done|unfold holds; congruence].
  - eapply (h_acquire t lid'); [done|unfold holds; congruence|done].
  - by apply Hsilent.
Qed.

Lemma cstep_hstep κ ev κ' : cstep home κ ev κ' → ∃ evs, hstep κ evs κ'.
Proof.
  intros Hs.
  assert (Forall (λ x, touches x.1 = None) ev ∨ ∃ evs, hstep κ evs κ') as [Hev|?]; [|idtac|done].
  { destruct Hs as [| | |t lid op σ d r d' Hd Hp Hto He]; [left; by repeat constructor..|right].
    destruct (call_exists _ _ _ _ _ _ Hto He) as (x & Hx & _). eexists. by eapply h_use. }
  destruct (cstep_one _ _ _ Hs) as [(t & Ht) _]. eexists. by eapply hstep_moves.
Qed.

(** ** The history of a run is one that can happen *)
Hypothesis home_ne : ∀ t, home t ≠ [].

Definition hinv (κ : cluster) (σ : shared) : Prop :=
  cinv home κ (sh_data σ) ∧ ∀ lid o, sh_owner σ !! lid = Some o ↔ ∃ t, holds κ t lid ∧ job t = o.

Lemma holds_pc κ t lid : holds κ t lid ↔ pcs (k_lock κ) t = Holding lid.
Proof. unfold holds, held. destruct (pcs (k_lock κ) t); naive_solver. Qed.

Lemma one_holder κ m t u lid : cinv home κ m → holds κ t lid → holds κ u lid → t = u.
Proof. intros (Hl & _) ?%holds_pc ?%holds_pc. by eapply linv_one_holder. Qed.

Lemma cinv_quiet κ ev κ' m :
  cinv home κ m → cstep home κ ev κ' → Forall (λ x, touches x.1 = None) ev → cinv home κ' m.
Proof.
  intros Hi Hs Hev. pose proof (cstep_refines home home_ne _ _ _ _ Hi Hs) as H.
  destruct ev as [|[op r] [|? ?]]; [done| |done]. apply Forall_cons in Hev as [Hop _].
  destruct H as [_ H]. by destruct op.
Qed.

Lemma hinv_start now : hinv (cstart now) (Shared {[1%Z := []]} ∅).
Proof.
  split; [by apply cinv_start|]. intros lid o. simpl. rewrite lookup_empty. split; [done|].
  intros (t & Ht%holds_pc & _). done.
Qed.

(** A step that changes what [t] holds leaves the data and the other threads. *)
Lemma moved κ ev κ' m t lid :
  cinv home κ m → cstep home κ ev κ' → (holds κ t lid ↔ holds κ' t lid → False) →
  cinv home κ' m ∧ ∀ u l, u ≠ t → holds κ' u l ↔ holds κ u l.
Proof.
  intros Hc Hs Hch. destruct (cstep_one _ _ _ Hs) as [(u & Hu) [Hev|Hsame]].
  - split; [by eapply cinv_quiet|]. destruct (decide (t = u)) as [<-|Hne].
    { intros w l Hw. unfold holds. by rewrite Hu. }
    exfalso. apply Hch. unfold holds. by rewrite (Hu t).
  - exfalso. apply Hch. unfold holds. by rewrite Hsame.
Qed.

Lemma hinv_acquire κ ev κ' σ t lid :
  hinv κ σ → cstep home κ ev κ' → ¬ holds κ t lid → holds κ' t lid →
  ∃ σ', effect (job t, EAcquire lid) σ = Some σ' ∧ hinv κ' σ'.
Proof.
  intros [Hc Ho] Hs Hn Hh. destruct (moved _ _ _ _ t lid Hc Hs) as [Hc' Hu]; [tauto|].
  assert (sh_owner σ !! lid = None) as Hfree.
  { destruct (sh_owner σ !! lid) as [o|] eqn:Eo; [|done]. apply Ho in Eo as (w & Hw & _). exfalso.
    destruct (decide (w = t)) as [->|Hne]; [done|]. apply Hne. eapply one_holder; [done| |done].
    by apply Hu. }
  destruct σ as [C W]. simpl in *. rewrite decide_True by done. eexists. split; [done|]. split; [done|].
  intros l o. cbn [sh_owner]. destruct (decide (l = lid)) as [->|Hl].
  - rewrite lookup_insert_eq. split; [intros [= <-]; eauto|]. intros (w & Hw & <-). do 2 f_equal. by eapply one_holder.
  - rewrite lookup_insert_ne, Ho by done. split; intros (w & Hw & <-); exists w; (split; [|done]);
      (destruct (decide (w = t)) as [->|Hne]; [exfalso; apply Hl|by apply Hu]).
    + by eapply cstep_drops.
    + unfold holds in *. congruence.
Qed.

Lemma hinv_release κ ev κ' σ t lid :
  hinv κ σ → cstep home κ ev κ' → holds κ t lid → ¬ holds κ' t lid →
  ∃ σ', effect (job t, ERelease lid) σ = Some σ' ∧ hinv κ' σ'.
Proof.
  intros [Hc Ho] Hs Hh Hn. destruct (moved _ _ _ _ t lid Hc Hs) as [Hc' Hu]; [tauto|].
  destruct σ as [C W]. simpl in *. eexists. split; [done|]. split; [done|].
  intros l o. cbn [sh_owner]. destruct (decide (l = lid)) as [->|Hl].
  - rewrite lookup_delete_eq. split; [done|]. intros (w & Hw & _). exfalso.
    destruct (decide (w = t)) as [->|Hne]; [done|]. apply Hne. eapply one_holder; [exact Hc| |done].
    by apply Hu.
  - rewrite lookup_delete_ne, Ho by done. split; intros (w & Hw & <-); exists w; (split; [|done]);
      (destruct (decide (w = t)) as [->|Hne]; [exfalso; apply Hl|by apply Hu]).
    + unfold holds in *. congruence.
    + symmetry. by eapply cstep_drops.
Qed.

Lemma hinv_use κl d d' σ t lid op r x :
  hinv (Cluster κl d) σ → defined κl → pcs κl t = Holding lid → touches op = Some (home t, lid) →
  coh_exec op d = Ok (r, d') → call_of op r x →
  ∃ σ', effect (job t, x) σ = Some σ' ∧ hinv (Cluster κl d') σ'.
Proof.
  intros [Hc Ho] Hd Hp Ht He Hx.
  destruct (cstep_refines home home_ne _ _ _ _ Hc (c_use home t lid op κl d r d' Hd Hp Ht He)) as [Hr Hc'].
  destruct σ as [C W]. cbn [sh_data sh_owner] in *.
  destruct Hx as [i eid now st b|i eid st sz a Hsz|i eid b now st sz]; simpl in Hr, Hc'; injection Hr as -> ->;
    unfold effect; cbn [snd].
  - rewrite decide_True by done. by eexists.
  - rewrite decide_True; [by eexists|]. split; [done|]. by destruct (C !! eid).
  - rewrite decide_True by done. by eexists.
Qed.

Lemma hstep_happens κ evs κ' σ : hinv κ σ → hstep κ evs κ' → ∃ σ', happens evs σ = Some σ' ∧ hinv κ' σ'.
Proof.
  intros Hi Hs.
  destruct Hs as [t lid κ ev κ' Hs Hn Hh|t lid κ ev κ' Hs Hh Hn|t lid op r κl d d' x Hd Hp Ht He Hx|κ ev κ' Hs Hev Hsame].
  - destruct (hinv_acquire _ _ _ _ _ _ Hi Hs Hn Hh) as (σ' & E & Hi'). exists σ'. cbn [happens]. by rewrite E.
  - destruct (hinv_release _ _ _ _ _ _ Hi Hs Hh Hn) as (σ' & E & Hi'). exists σ'. cbn [happens]. by rewrite E.
  - destruct (hinv_use _ _ _ _ _ _ _ _ _ Hi Hd Hp Ht He Hx) as (σ' & E & Hi'). exists σ'. cbn [happens]. by rewrite E.
  - exists σ. split; [done|]. destruct Hi as [Hc Ho]. split; [by eapply cinv_quiet|].
    intros lid o. rewrite Ho. by setoid_rewrite Hsame.
Qed.

Lemma hruns_happens κ h κ' σ : hinv κ σ → hruns κ h κ' → ∃ σ', happens h σ = Some σ' ∧ hinv κ' σ'.
Proof.
  intros Hi Hr. revert σ Hi. induction Hr as [κ|κ κ1 κ2 evs h Hs Hr IH]; intros σ Hi; [by exists σ|].
  destruct (hstep_happens _ _ _ _ Hi Hs) as (σ1 & E1 & Hi1). destruct (IH _ Hi1) as (σ2 & E2 & Hi2).
  exists σ2. by rewrite happens_app, E1.
Qed.

(** ** Running the cluster with its history *)
Definition thread_of (l : label) : nat := match l with LAcquire t _ | LScan t | LGo t => t end.

Definition event_of (op : coh_op) (r : coh_reply) : option event :=
  match op, r with
  | Get _ eid _, CBuf st b => Some (EGet eid st b)
  | Getattr _ eid, CSize st sz => Some (EGetattr eid st (Attr 0 0 0 (default 0%Z sz)))
  | Put _ eid b _, CSize st _ => Some (EPut eid b st)
  | _, _ => None
  end.

Definition hexec (ts : list nat) (l : clabel) (κ : cluster) : option (list (nat * event) * cluster) :=
  '(ev, κ') ← cexec home ts l κ;
  match l with
  | CGo l _ =>
      Some (moves (thread_of l) κ κ', κ')
  | CUse t op => match ev with [(_, r)] => x ← event_of op r; Some ([(job t, x)], κ') | _ => None end
  end.

Fixpoint hreplay (ts : list nat) (ls : list clabel) (κ : cluster) : option (list (nat * event) * cluster) :=
  match ls with
  | [] => Some ([], κ)
  | l :: ls => '(evs, κ) ← hexec ts l κ; '(h, κ) ← hreplay ts ls κ; Some (evs ++ h, κ)
  end.

Lemma exec_one quiet ts l σ σ' u : exec home quiet ts l σ = Some σ' → u ≠ thread_of l → pcs σ' u = pcs σ u.
Proof.
  intros He Hu. unfold exec in He. destruct (negb _); [done|]. destruct l as [t lid|t|t]; simpl in He, Hu; try unfold go in He;
    repeat case_match; try done; rewrite ?when_Some in He; simplify_eq/=; try destruct He as [_ ->];
    first [by apply look_one|by apply answer_one|simpl; by rewrite fn_lookup_insert_ne].
Qed.

Lemma event_of_call op r x : event_of op r = Some x → call_of op r x.
Proof. destruct op, r; intros [= <-]; constructor. by destruct sz. Qed.

Lemma cexec_go ts l now κ ev κ' :
  cexec home ts (CGo l now) κ = Some (ev, κ') →
  Forall (λ x, touches x.1 = None) ev ∧ exec home true ts l (k_lock κ) = Some (k_lock κ').
Proof.
  cbn [cexec]. intros He. destruct (exec home true ts l (k_lock κ)) as [σ'|] eqn:Ex; [|done].
  cbn [mbind option_bind] in He.
  repeat (case_match; simplify_eq/=; try done); split; try done;
    apply cuse_Some in He as (r' & d' & _ & -> & ->); try done; by constructor.
Qed.

Lemma hexec_step ts l κ evs κ' :
  idle_outside ts (k_lock κ) → hexec ts l κ = Some (evs, κ') → hstep κ evs κ' ∧ idle_outside ts (k_lock κ').
Proof.
  intros Hi He. unfold hexec in He. destruct (cexec home ts l κ) as [[ev κ1]|] eqn:Ec; [|done].
  destruct (cexec_step home _ _ _ _ _ Hi Ec) as [Hs Hi']. cbn [mbind option_bind] in He. destruct l as [l now|t op].
  - injection He as <- <-. split; [|done]. destruct (cexec_go _ _ _ _ _ _ Ec) as [Hev Ex].
    eapply hstep_moves; [done|done|]. intros u Hu. by eapply exec_one.
  - cbn [cexec] in Ec. destruct (pcs (k_lock κ) t) as [| | | | | | |lid| | | | |] eqn:Hp; try done.
    case_decide as Ht; [|done]. destruct Ht as [Ht Hd%(definedb_ok _ _ Hi)]. destruct κ as [σ d]. apply cuse_Some in Ec as (r & d' & Ex & -> & ->).
    destruct (event_of op r) as [x|] eqn:Ev; [|done]. injection He as <- <-. split; [|done].
    by eapply h_use; [| | | |apply event_of_call].
Qed.

Lemma hreplay_runs ts ls κ h κ' :
  idle_outside ts (k_lock κ) → hreplay ts ls κ = Some (h, κ') → hruns κ h κ'.
Proof.
  revert κ h. induction ls as [|l ls IH]; intros κ h Hi Hr; simpl in Hr; [simplify_eq; constructor|].
  destruct (hexec ts l κ) as [[ev κ1]|] eqn:E; [|done]. simpl in Hr.
  destruct (hreplay ts ls κ1) as [[h1 κ2]|] eqn:E1; [|done]. simpl in Hr. injection Hr as <- <-.
  destruct (hexec_step _ _ _ _ _ Hi E) as [Hs Hi1]. eapply hruns_cons; [done|]. by apply IH.
Qed.
End distributed.

Lemma hruns_linear home job now (ops : nat → yop) (res : nat → yres) ids h κ :
  (∀ t, home t ≠ []) → hruns home job (cstart now) h κ →
  NoDup ids → (∀ x, x ∈ h → x.1 ∈ ids) →
  (∀ t, t ∈ ids → run_op (ops t) (script t h) = Ok (res t, [])) →
  ∃ order attrs e', order ≡ₚ ids ∧ in_time order h ∧
    run_all (ops <$> order) (Ideal {[1%Z := []]} ∅ attrs 0) = Ok (res <$> order, e') ∧
    (∀ lid, lid ∈ id_locks e' ↔ ∃ t, pcs (k_lock κ) t = Holding lid).
Proof.
  intros Hne Hr Hnd Hids Hops.
  destruct (hruns_happens home job Hne _ _ _ _ (hinv_start home job now) Hr) as (σ' & Hh & _ & Ho).
  destruct (serialisable ops res ids h _ σ' Hnd Hids Hops Hh) as (order & attrs & e' & ? & ? & He & _ & Hl).
  exists order, attrs, e'. split_and!; [done|done|done|]. intros lid. rewrite Hl, elem_of_dom. split.
  - intros [o (t & Ht & _)%Ho]. exists t. by apply holds_pc.
  - intros [t Ht]. exists (job t). apply Ho. exists t. by rewrite holds_pc.
Qed.

(** ** The property *)

(** C1: The distributed file system behaves as one file system, under the conditions of
    the coherent store.  Take any run of the cluster from its start (any number of
    clients and threads, locks cached, revoked and given back by the lock protocol,
    extents cached and flushed before their lock goes back) in which no thread changes a
    lock between give_back's unlocked look at it and its change of it; the calls of the
    extent server succeed, those of the lock servers may fail as in the mutual exclusion
    of the locks, a run ending at an undefined unlock; and the operations on one
    client's cache and on the extent server, whose maps the code does not lock, take
    effect one at a time.  Consider the calls of locks and extents that the run
    contains, and let the code of each operation, run against its own calls with the
    answers that the caches gave, come to its end.  Then the operations can be put in
    an order, none behind one that began after its end, in which the same code, run one
    operation at a time on a plain map of extents with the empty root directory, returns
    the same results; and no lock is held but those that the code kept. *)
Theorem distributed_linearizable home job now (ops : nat → yop) (res : nat → yres) ids h κ :
  (∀ t, home t ≠ []) → hruns home job (cstart now) h κ →
  NoDup ids → (∀ x, x ∈ h → x.1 ∈ ids) →
  (∀ t, t ∈ ids → run_op (ops t) (script t h) = Ok (res t, [])) →
  ∃ order attrs e', order ≡ₚ ids ∧ in_time order h ∧
    run_all (ops <$> order) (Ideal {[1%Z := []]} ∅ attrs 0) = Ok (res <$> order, e') ∧
    (∀ lid, lid ∈ id_locks e' ↔ ∃ t, pcs (k_lock κ) t = Holding lid).
Proof. apply hruns_linear. Qed.

(** Client "a" creates "f" in the root directory, with threads 0 and 1 for the two locks
    it takes; client "b" lists the directory, with thread 2, which asks for the lock
    while the other has it. *)
Definition ex_job (t : nat) : nat := if decide (t ≤ 1) then 0 else 1.
Definition ex_calls (t : nat) : yop := if decide (t = 0) then OCreate 1 (lit "f" ++ [NUL]) 2147483649 else OReaddir 1.
Definition ex_fs_run : list clabel :=
  let go t := CGo (LGo t) 20 in let new := 2147483649%Z in let a := lit "a" in
  [CGo (LAcquire 0 1) 10; go 0; go 0; go 0; CGo (LAcquire 1 new) 10; go 1; go 1; go 1;
   CUse 0 (Get a 1 11); CGo (LAcquire 2 1) 12; go 2; go 2; go 2; go 2; go 2;
   CUse 1 (Put a new [] 13); CUse 0 (Get a 1 13); CUse 0 (Put a 1 (lit "2147483649 f") 14);
   CUse 1 (Getattr a new); go 1; go 0; go 0; go 0; go 0; go 2; go 2; go 2; CUse 2 (Get (lit "b") 1 21); go 2].
Definition ex_fs : list (nat * event) * cluster :=
  default ([], cstart 1) (hreplay ex_home ex_job threads4 ex_fs_run (cstart 1)).
Definition ex_answer (t : nat) : yres :=
  match run_op (ex_calls t) (script t ex_fs.1) with Ok (r, _) => r | Fault _ => RStatus 0 end.

Lemma ex_fs_runs : hruns ex_home ex_job (cstart 1) ex_fs.1 ex_fs.2.
Proof.
  apply (hreplay_runs _ _ threads4 ex_fs_run); [apply start_idle|].
  unfold ex_fs. destruct (hreplay ex_home ex_job threads4 ex_fs_run (cstart 1)) as [[h κ]|] eqn:E; [reflexivity|].
  vm_compute in E. discriminate E.
Qed.

Lemma distributed_linearizable_witness :
  ex_answer 1 = RNames yfs.OK [lit "2147483649"; lit "f"] ∧
  ∃ order attrs e', order ≡ₚ [0; 1] ∧ in_time order ex_fs.1 ∧
    run_all (ex_calls <$> order) (Ideal {[1%Z := []]} ∅ attrs 0) = Ok (ex_answer <$> order, e').
Proof.
  split; [vm_compute; reflexivity|].
  destruct (distributed_linearizable ex_home ex_job 1 ex_calls ex_answer [0; 1] ex_fs.1 ex_fs.2)
    as (order & attrs & e' & Ho & Ht & Hr & _).
  - intros u. unfold ex_home. by case_decide.
  - apply ex_fs_runs.
  - apply (bool_decide_eq_true_1 _). vm_compute. reflexivity.
  - apply (Forall_forall (λ x, x.1 ∈ [0; 1])), (bool_decide_eq_true_1 _). vm_compute. reflexivity.
  - intros t Ht. rewrite !elem_of_cons, elem_of_nil in Ht. destruct Ht as [->|[->|[]]]; vm_compute; reflexivity.
  - exists order, attrs, e'. split; [exact Ho|]. split; [exact Ht|exact Hr].
Defined.
