(* ===== verification/Stack.v ===== *)
(** * The client stack: file system over the caching lock and extent clients

    An instance of the interface of YfsClient.v from the models of the components:
    one client process with its lock cache and extent cache, the lock server and the
    extent server.  Remote calls are delivered, and the other clients are quiet: a
    lock that is elsewhere never comes. *)

From stdpp Require Import base tactics numbers list gmap sets strings.
From Stdlib Require Import ZArith Lia Ascii.
From S2P Require Import Prelude CxxString Marshall Connection RpcServer RpcTime RpcClient RpcCall ExtentServer ExtentClient LockServer LockClient YfsClient.
Import extent_protocol (attr, Attr, a_size).

Record stack := Stack {
  sk_id : bytes;
  sk_now : Z;
  sk_lc : lock_client_cache;
  sk_ls : lock_server_cache;
  sk_ec : extent_client;
  sk_es : extent_server }.

Definition set_locks (e : stack) (c : lock_client_cache) (s : lock_server_cache) : stack :=
  Stack (sk_id e) (sk_now e) c s (sk_ec e) (sk_es e).
Definition set_extents (e : stack) (c : extent_client) (s : extent_server) : stack :=
  Stack (sk_id e) (sk_now e) (sk_lc e) (sk_ls e) c s.

(** [lock_client_cache::acquire] with nobody else at work: the loop looks once, calls
    the server if the lock is not at the client, and blocks in the other cases. *)
Definition stack_acquire (i : Z) (e : stack) : outcome stack :=
  let c := acquire_enter i (sk_lc e) in
  match acquire_look i c with
  | Got c => Ok (set_locks e c (sk_ls e))
  | MustWait => Fault Deadlock
  | MustCall =>
      let '(v, s) := lsc_acquire_locked i (sk_id e) (sk_ls e) in
      match v with
      | Granted =>
          match acquire_answered i lock_protocol.OK c with
          | GotLock c => Ok (set_locks e c s)
          | _ => Fault Deadlock
          end
      | Queued _ => Fault Deadlock
      end
  end.

(** [lock_release_action::dorelease] *)
Definition dorelease (i : Z) (e : stack) : outcome stack :=
  '(_, c, s) ← ec_flush Delivered (sk_now e) i (sk_ec e) (sk_es e);
  Ok (set_extents e c s).

(** Giving a lock back to the server, its extent first. *)
Definition stack_return (i : Z) (c : lock_client_cache) (e : stack) : outcome stack :=
  let e := set_locks e c (sk_ls e) in
  e ← dorelease i e;
  Ok (set_locks e (sk_lc e) (lsc_release i (sk_ls e)).2).

(** [lock_client_cache::release] *)
Definition stack_release (i : Z) (e : stack) : outcome stack :=
  match release_locked i (sk_lc e) with
  | NoSuchLock => Ok e
  | Kept c => Ok (set_locks e c (sk_ls e))
  | GiveBack c => stack_return i c e
  end.

(** One round of [lock_client_cache::give_back], in the background. *)
Definition stack_give_back (e : stack) : outcome stack :=
  match give_back_scan (sk_lc e) with
  | None => Ok e
  | Some i => stack_return i (give_back_take i (sk_lc e)) e
  end.

#[global] Instance stack_ops : FsOps stack := {|
  lc_acquire := stack_acquire;
  lc_release := stack_release;
  fs_get i buf e :=
    '(st, b, c, s) ← ec_get Delivered (sk_now e) i buf (sk_ec e) (sk_es e);
    Ok (st, b, set_extents e c s);
  fs_getattr i a e :=
    '(st, a, c, s) ← ec_getattr Delivered i a (sk_ec e) (sk_es e);
    Ok (st, a, set_extents e c s);
  fs_put i buf e :=
    let '(st, c) := ec_put (sk_now e) i buf (sk_ec e) in Ok (st, set_extents e c (sk_es e)) |}.

(** ** The instance *)
Definition stack_content (e : stack) : gmap Z bytes :=
  content_map_cache (sk_ec e) ∪ content_map (sk_es e).
Definition stack_locks (e : stack) : gset Z :=
  dom (filter (λ x, x.2 = LOCKED) (lockstate_map (sk_lc e))).

Definition lock_ok (e : stack) (i : Z) : Prop :=
  match lockstate i (sk_lc e) with
  | NONE => owner i (sk_ls e) = []
  | FREE | LOCKED => owner i (sk_ls e) = sk_id e
  | _ => False
  end.
Definition stack_ok (e : stack) : Prop :=
  sk_id e ≠ [] ∧ cache_ok (sk_ec e) (sk_es e) ∧ ∀ i, lock_ok e i.

Lemma stack_content_view e i : stack_content e !! i = view (sk_ec e) (sk_es e) i.
Proof.
  unfold stack_content, view. rewrite lookup_union.
  destruct (content_map_cache (sk_ec e) !! i), (content_map (sk_es e) !! i); done.
Qed.

Lemma elem_of_stack_locks e i : i ∈ stack_locks e ↔ lockstate i (sk_lc e) = LOCKED.
Proof.
  unfold stack_locks, lockstate. rewrite elem_of_dom. split.
  - intros [st [Hst E]%map_lookup_filter_Some]. simpl in E. by rewrite Hst, E.
  - destruct (lockstate_map (sk_lc e) !! i) as [st|] eqn:Hst; [|done]. simpl. intros ->.
    exists LOCKED. by apply map_lookup_filter_Some.
Qed.

Lemma stack_content_ext e e' :
  (∀ i, view (sk_ec e') (sk_es e') i = view (sk_ec e) (sk_es e) i) →
  stack_content e' = stack_content e.
Proof. intros Hv. apply map_eq. intros i. by rewrite !stack_content_view. Qed.

Lemma stack_locks_ext e' L :
  (∀ i, lockstate i (sk_lc e') = LOCKED ↔ i ∈ L) → stack_locks e' = L.
Proof. intros Hl. apply set_eq. intros i. by rewrite elem_of_stack_locks. Qed.

Lemma lsc_acquire_free i id s :
  owner i s = [] →
  ∃ s', lsc_acquire_locked i id s = (Granted, s') ∧
    ∀ j, owner j s' = if decide (j = i) then id else owner j s.
Proof.
  unfold lsc_acquire_locked, owner. destruct (where_is_lock s !! i) as [w|] eqn:E; simpl.
  - intros ->. rewrite decide_True by done. eexists. split; [done|]. intros j. simpl.
    case_decide; [subst; by rewrite lookup_insert_eq|by rewrite lookup_insert_ne].
  - intros _. eexists. split; [done|]. intros j. simpl.
    case_decide; [subst; by rewrite lookup_insert_eq|by rewrite lookup_insert_ne].
Qed.

Lemma stack_acquire_spec i e :
  stack_ok e → i ∉ stack_locks e →
  ∃ e', stack_acquire i e = Ok e' ∧ stack_ok e' ∧ stack_content e' = stack_content e ∧
    stack_locks e' = {[i]} ∪ stack_locks e.
Proof.
  intros (Hid & Hc & Hl) Hi. rewrite elem_of_stack_locks in Hi. unfold stack_acquire, acquire_look.
  rewrite lockstate_enter. pose proof (Hl i) as Hli. unfold lock_ok in Hli.
  assert (∀ c s, (∀ j, lockstate j c = if decide (j = i) then LOCKED else lockstate j (sk_lc e)) →
    (∀ j, owner j s = if decide (j = i) then sk_id e else owner j (sk_ls e)) →
    stack_ok (set_locks e c s) ∧ stack_content (set_locks e c s) = stack_content e ∧
    stack_locks (set_locks e c s) = {[i]} ∪ stack_locks e) as Hdone.
  { intros c s Hcs Hos. split; [split_and!; [done|done|]|split; [done|]].
    - intros j. unfold lock_ok. simpl. rewrite Hcs, Hos. case_decide; [done|]. apply Hl.
    - apply stack_locks_ext. intros j. simpl. rewrite Hcs, elem_of_union, elem_of_singleton,
        elem_of_stack_locks. case_decide; naive_solver. }
  destruct (lockstate i (sk_lc e)) eqn:E; try done.
  - destruct (lsc_acquire_free i (sk_id e) (sk_ls e) Hli) as (s & -> & Hs).
    unfold acquire_answered. rewrite decide_True by done. eexists. split; [done|].
    apply Hdone; [|done]. intros j. by rewrite lockstate_set, lockstate_enter.
  - eexists. split; [done|]. apply Hdone.
    + intros j. by rewrite lockstate_set, lockstate_enter.
    + intros j. case_decide; [by subst|done].
Qed.

Lemma stack_release_spec i e :
  stack_ok e → i ∈ stack_locks e →
  ∃ e', stack_release i e = Ok e' ∧ stack_ok e' ∧ stack_content e' = stack_content e ∧
    stack_locks e' = stack_locks e ∖ {[i]}.
Proof.
  intros (Hid & Hc & Hl) Hi. rewrite elem_of_stack_locks in Hi.
  pose proof (Hl i) as Hli. unfold lock_ok in Hli. rewrite Hi in Hli.
  assert (release_locked i (sk_lc e) = Kept (set_lockstate i FREE (sk_lc e))) as E.
  { unfold release_locked, lockstate in *. destruct (lockstate_map (sk_lc e) !! i) as [st|]; [|done].
    simpl in Hi. by subst. }
  unfold stack_release. rewrite E. eexists. split; [done|].
  split; [split_and!; [done|done|]|split; [done|]].
  - intros j. unfold lock_ok. simpl. rewrite lockstate_set. case_decide; [by subst|]. apply Hl.
  - apply stack_locks_ext. intros j. simpl. rewrite lockstate_set, elem_of_difference,
      elem_of_singleton, elem_of_stack_locks. case_decide; naive_solver.
Qed.

#[global] Program Instance stack_spec : FsSpec stack := {|
  fs_ok := stack_ok; content := stack_content; locks := stack_locks |}.
Next Obligation. apply stack_acquire_spec. Qed.
Next Obligation. apply stack_release_spec. Qed.
Next Obligation.
  intros i buf e (Hid & Hc & Hl) _.
  destruct (ec_get_spec (sk_now e) i buf _ _ Hc) as (c & s & E & Hc' & _ & _ & Hv & _ & _).
  simpl. rewrite E. run. unfold found. rewrite !stack_content_view. eexists. split; [done|].
  split; [done|]. split; [by apply stack_content_ext|done].
Qed.
Next Obligation.
  intros i a e (Hid & Hc & Hl) _.
  destruct (ec_getattr_spec i a _ _ Hc) as (a' & c & E & Ha & Hc' & _ & _ & Hv & _).
  simpl. rewrite E. run. unfold found. rewrite !stack_content_view. eexists a', _. split; [done|].
  split; [done|]. split; [done|].
  split; [by apply stack_content_ext|done].
Qed.
Next Obligation.
  intros i buf e (Hid & Hc & Hl) _.
  destruct (ec_put_spec (sk_now e) i buf _ _ Hc) as (c & E & Hc' & Hv & Hne & _).
  cbn [fs_put stack_ops]. rewrite E. eexists. split; [done|]. split; [done|]. split; [|done].
  apply map_eq. intros j. rewrite stack_content_view. simpl. destruct (decide (j = i)) as [->|Hj].
  - by rewrite lookup_insert_eq.
  - by rewrite lookup_insert_ne, stack_content_view, Hne.
Qed.

(** The process at its start. *)
Definition new_stack (id : bytes) (now : Z) : stack :=
  Stack id now new_lock_client_cache new_lock_server_cache new_extent_client (new_extent_server now).

Lemma new_stack_ok id now : id ≠ [] → stack_ok (new_stack id now).
Proof.
  intros Hid. split_and!; [done|apply new_client_ok|]. intros i. unfold lock_ok, lockstate, owner. simpl.
  by rewrite !lookup_empty.
Qed.

(** The background give-back is invisible to the file system: it writes the extent
    back, empties the cache and returns the lock, and neither the contents the client
    sees nor the locks its threads hold change. *)
Theorem give_back_transparent e :
  stack_ok e →
  ∃ e', stack_give_back e = Ok e' ∧ stack_ok e' ∧ stack_content e' = stack_content e ∧
    stack_locks e' = stack_locks e ∧
    ∀ i, give_back_scan (sk_lc e) = Some i →
      lockstate i (sk_lc e') = NONE ∧ owner i (sk_ls e') = [] ∧
      content_map (sk_es e') !! i = stack_content e !! i.
Proof.
  intros (Hid & Hc & Hl). unfold stack_give_back.
  destruct (give_back_scan (sk_lc e)) as [i|] eqn:Hs.
  2: { exists e. split_and!; try done. }
  pose proof (give_back_scan_free _ _ Hs) as Hf. unfold stack_return, dorelease. simpl.
  destruct (ec_flush_spec (sk_now e) i _ _ Hc) as (c & s & E & Hc' & He & Hne & Hcc & _ & _).
  rewrite E. run. eexists. split; [done|].
  assert (∀ j, owner j (lsc_release i (sk_ls e)).2 = if decide (j = i) then [] else owner j (sk_ls e))
    as Ho.
  { intros j. unfold lsc_release, owner. destruct (waiters i (sk_ls e)); simpl;
      (case_decide; [subst; by rewrite lookup_insert_eq|by rewrite lookup_insert_ne]). }
  simpl. split; [split_and!; [done|done|]|split; [|split]].
  - intros j. unfold lock_ok. simpl. unfold give_back_take. rewrite lockstate_set, Ho.
    case_decide; [done|]. apply Hl.
  - apply map_eq. intros j. rewrite !stack_content_view. simpl. unfold view at 1.
    rewrite Hcc. destruct (decide (j = i)) as [->|Hj].
    + by rewrite lookup_delete_eq, He.
    + rewrite lookup_delete_ne, Hne by done. done.
  - apply stack_locks_ext. intros j. simpl. unfold give_back_take.
    rewrite lockstate_set, elem_of_stack_locks. case_decide; [subst; by rewrite Hf|done].
  - intros i' [= <-]. unfold give_back_take. rewrite lockstate_set, Ho, !decide_True by done.
    by rewrite stack_content_view.
Qed.

(** A stack whose lock 5 is FREE at the client, with a dirty extent under it. *)
Definition ex_idle : stack :=
  Stack (lit "c") 1000 (LockClientCache {[5%Z := FREE]} ∅) (LockServerCache 0 {[5%Z := lit "c"]} ∅)
    (ec_put 1000 5 (lit "abc") new_extent_client).2 (new_extent_server 1000).

Lemma ex_idle_ok : stack_ok ex_idle.
Proof.
  destruct (ec_put_spec 1000 5 (lit "abc") _ _ (new_client_ok 1000)) as (c & Ec & Hc & _).
  split_and!; [done| |].
  - change (sk_ec ex_idle) with (ec_put 1000 5 (lit "abc") new_extent_client).2. by rewrite Ec.
  - intros i. unfold lock_ok, lockstate, owner. simpl. destruct (decide (i = 5%Z)) as [->|Hi].
    + by rewrite !lookup_singleton_eq.
    + by rewrite !lookup_singleton_ne by done.
Qed.

Lemma give_back_transparent_witness :
  ∃ e', stack_give_back ex_idle = Ok e' ∧ owner 5 (sk_ls e') = [] ∧
    content_map (sk_es e') !! 5%Z = Some (lit "abc").
Proof.
  destruct (give_back_transparent ex_idle ex_idle_ok) as (e' & E & _ & _ & _ & Hg).
  destruct (Hg 5%Z) as (_ & Ho & Hcm); [vm_compute; reflexivity|].
  exists e'. split; [exact E|]. split; [exact Ho|]. rewrite Hcm. vm_compute. reflexivity.
Defined.
