(* ===== verification/LockTester.v ===== *)
(** * The lock tester (lock_tester.cc)

    The programs of the five tests, the choice that [main] makes of them, and the table
    of grants that [check_grant] and [check_release] keep.  The threads of tests 2 to 5
    run over the cached-lock protocol of LockProtocol.v; test 1, which is sequential, over
    the interface of one client.  The tester makes its lock clients without a release
    action, so a thread that comes to [lu->dorelease] ends the program. *)

From stdpp Require Import base tactics numbers list gmap sets strings functions relations.
From Stdlib Require Import ZArith Lia Ascii.
From S2P Require Import Prelude CxxString Address LockServer LockClient LockProtocol YfsClient Stack.

(** [ct], by the low byte of a lock id. *)
Definition slot (lid : Z) : Z := Z.land lid 255.

(** [None]: the check prints its error and ends the program. *)
Definition check_grant (lid : Z) (ct : Z → Z) : option (Z → Z) :=
  if decide (ct (slot lid) = 0%Z) then Some (<[slot lid := (ct (slot lid) + 1)%Z]> ct) else None.
Definition check_release (lid : Z) (ct : Z → Z) : option (Z → Z) :=
  if decide (ct (slot lid) = 1%Z) then Some (<[slot lid := (ct (slot lid) - 1)%Z]> ct) else None.

(** How far a thread that holds its lock is. *)
Inductive phase := Before | Counted | After.
#[global] Instance phase_eq_dec : EqDecision phase.
Proof. solve_decision. Defined.

Record tester := Tester { t_lock : lsys; t_ct : Z → Z; t_phase : nat → phase }.

Definition phase_after (σ : lsys) (ph : nat → phase) (t : nat) : phase :=
  match pcs σ t with Holding _ => ph t | _ => Before end.

(** No thread calls through the null pointer [lu], and none has done something undefined
    in the lock protocol. *)
Definition alive (σ : lsys) : Prop := defined σ ∧ ∀ t lid, pcs σ t ≠ Flushing lid.

Section tester.
Context (home : nat → bytes) (locks : list Z).

Inductive tstep : tester → tester → Prop :=
  | ts_lock σ σ' ct ph :
      alive σ → step home true Anytime σ σ' →
      (* a thread releases after its checks, and acquires one of the locks of the test *)
      (∀ t lid, pcs σ t = Holding lid → pcs σ' t ≠ Holding lid → ph t = After) →
      (∀ t lid, pcs σ' t = Acquiring lid → lid ∈ locks) →
      tstep (Tester σ ct ph) (Tester σ' ct (phase_after σ' ph))
  | ts_grant t lid σ ct ct' ph :
      alive σ → pcs σ t = Holding lid → ph t = Before → check_grant lid ct = Some ct' →
      tstep (Tester σ ct ph) (Tester σ ct' (<[t := Counted]> ph))
  | ts_release t lid σ ct ct' ph :
      alive σ → pcs σ t = Holding lid → ph t = Counted → check_release lid ct = Some ct' →
      tstep (Tester σ ct ph) (Tester σ ct' (<[t := After]> ph)).

Definition tstart : tester := Tester start (λ _, 0%Z) (λ _, Before).

(** ** The invariant: the table counts the threads between their checks *)

Record tinv (τ : tester) : Prop := Tinv {
  ti_lock : linv home (t_lock τ);
  ti_locks t lid : lock_of (pcs (t_lock τ) t) = Some lid → lid ∈ locks;
  ti_counted t lid : pcs (t_lock τ) t = Holding lid → t_phase τ t = Counted → t_ct τ (slot lid) = 1%Z;
  ti_phase t : t_phase τ t ≠ Before → ∃ lid, pcs (t_lock τ) t = Holding lid;
  ti_ct x : t_ct τ x = 0%Z ∨
    t_ct τ x = 1%Z ∧ ∃ t lid, pcs (t_lock τ) t = Holding lid ∧ t_phase τ t = Counted ∧ slot lid = x }.

Hypothesis home_ne : ∀ t, home t ≠ [].
Hypothesis slots_differ : ∀ l l', l ∈ locks → l' ∈ locks → slot l = slot l' → l = l'.

(** Two threads that hold locks of one slot are one. *)
Lemma same_slot τ t t' lid lid' :
  tinv τ → pcs (t_lock τ) t = Holding lid → pcs (t_lock τ) t' = Holding lid' → slot lid = slot lid' → t = t'.
Proof.
  intros [Hl Hlocks _ _ _] H1 H2 Hs.
  assert (lid = lid') as <- by (apply slots_differ; [apply (Hlocks t); by rewrite H1|apply (Hlocks t'); by rewrite H2|done]).
  by apply (linv_one_holder home (t_lock τ) t t' lid).
Qed.

Lemma tinv_start : tinv tstart.
Proof. split; [by apply linv_start|done..|by left]. Qed.

Lemma tinv_lock σ σ' ct ph :
  tinv (Tester σ ct ph) → step home true Anytime σ σ' →
  (∀ t lid, pcs σ t = Holding lid → pcs σ' t ≠ Holding lid → ph t = After) →
  (∀ t lid, pcs σ' t = Acquiring lid → lid ∈ locks) →
  tinv (Tester σ' ct (phase_after σ' ph)).
Proof.
  intros [Hl Hlocks Hc Hp Hct] Hs Hpol Hacq. cbn [t_lock t_ct t_phase] in *.
  assert (∀ t lid, pcs σ t = Holding lid → ph t = Counted → pcs σ' t = Holding lid) as Hkeep.
  { intros t lid H1 H2. destruct (decide (pcs σ' t = Holding lid)) as [|Hn]; [done|].
    apply Hpol in Hn; [congruence|done]. }
  split; cbn [t_lock t_ct t_phase].
  - by apply (linv_step home home_ne Anytime σ); [apply Hs|].
  - intros t lid Ht. destruct (step_lock_of _ _ _ _ _ _ _ Hs Ht) as [?|?]; eauto.
  - intros t lid Ht Hph. unfold phase_after in Hph. rewrite Ht in Hph.
    destruct (Hp t) as (l & Hl'); [congruence|]. pose proof (Hkeep t l Hl' Hph). assert (l = lid) as -> by congruence.
    by apply (Hc t).
  - intros t. unfold phase_after. destruct (pcs σ' t); naive_solver.
  - intros x. destruct (Hct x) as [?|(Hx & t & lid & Ht & Hph & Hsl)]; [by left|]. right. split; [done|].
    exists t, lid. split_and!; [by apply Hkeep| |done]. unfold phase_after. by rewrite (Hkeep t lid).
Qed.

Lemma tinv_grant t lid σ ct ct' ph :
  tinv (Tester σ ct ph) → pcs σ t = Holding lid → ph t = Before → check_grant lid ct = Some ct' →
  tinv (Tester σ ct' (<[t := Counted]> ph)).
Proof.
  intros Hi Ht Hph Hg. pose proof Hi as [Hl Hlocks Hc Hp Hct]. cbn [t_lock t_ct t_phase] in *.
  unfold check_grant in Hg. case_decide as E; [|done]. injection Hg as <-. rewrite E.
  split; cbn [t_lock t_ct t_phase]; [done|done| | |].
  - intros u l Hu Hphu. destruct (decide (slot l = slot lid)) as [->|Hne]; [by rewrite fn_lookup_insert|].
    rewrite fn_lookup_insert_ne by done. apply (Hc u); [done|]. rewrite fn_lookup_insert_ne in Hphu; [done|].
    intros <-. congruence.
  - intros u Hu. destruct (decide (u = t)) as [->|]; [eauto|]. apply Hp. by rewrite fn_lookup_insert_ne in Hu.
  - intros x. destruct (decide (slot lid = x)) as [<-|Hne].
    + right. rewrite fn_lookup_insert. split; [done|]. exists t, lid. by rewrite fn_lookup_insert.
    + rewrite fn_lookup_insert_ne by done. destruct (Hct x) as [?|(Hx & u & l & Hu & Hphu & Hsl)]; [by left|].
      right. split; [done|]. exists u, l. rewrite fn_lookup_insert_ne; [done|]. intros <-. congruence.
Qed.

Lemma tinv_release t lid σ ct ct' ph :
  tinv (Tester σ ct ph) → pcs σ t = Holding lid → ph t = Counted → check_release lid ct = Some ct' →
  tinv (Tester σ ct' (<[t := After]> ph)).
Proof.
  intros Hi Ht Hph Hg. pose proof Hi as [Hl Hlocks Hc Hp Hct]. cbn [t_lock t_ct t_phase] in *.
  unfold check_release in Hg. case_decide as E; [|done]. injection Hg as <-. rewrite E.
  split; cbn [t_lock t_ct t_phase]; [done|done| | |].
  - intros u l Hu Hphu. destruct (decide (u = t)) as [->|Hne]; [by rewrite fn_lookup_insert in Hphu|].
    rewrite fn_lookup_insert_ne in Hphu by done. rewrite fn_lookup_insert_ne; [by apply (Hc u)|].
    intros Es. apply Hne. by apply (same_slot (Tester σ ct ph) u t l lid).
  - intros u Hu. destruct (decide (u = t)) as [->|]; [eauto|]. apply Hp. by rewrite fn_lookup_insert_ne in Hu.
  - intros x. destruct (decide (slot lid = x)) as [<-|Hne]; [left; by rewrite fn_lookup_insert|].
    rewrite fn_lookup_insert_ne by done. destruct (Hct x) as [?|(Hx & u & l & Hu & Hphu & Hsl)]; [by left|].
    right. split; [done|]. exists u, l. rewrite fn_lookup_insert_ne; [done|]. intros <-. congruence.
Qed.

Lemma tinv_step τ τ' : tstep τ τ' → tinv τ → tinv τ'.
Proof.
  destruct 1; intros Hi; [by eapply tinv_lock|by eapply tinv_grant|by eapply tinv_release].
Qed.

Lemma tinv_reachable τ : rtc tstep tstart τ → tinv τ.
Proof.
  intros Hr. pose proof tinv_start as Hi. revert Hi. generalize tstart Hr. clear Hr. intros τ0 Hr.
  induction Hr as [|x y z Hxy _ IH]; [done|]. intros Hx. by eapply IH, tinv_step.
Qed.

(** ** Running the tester *)
Inductive tlabel := TGo (l : label) | TGrant (t : nat) | TRelease (t : nat).

Definition aliveb (ts : list nat) (σ : lsys) : bool :=
  forallb (λ t, match pcs σ t with Flushing _ | Undefined _ => false | _ => true end) ts.
Definition politeb (ts : list nat) (σ σ' : lsys) (ph : nat → phase) : bool :=
  forallb (λ t,
    match pcs σ t with
    | Holding _ => bool_decide (pcs σ' t = pcs σ t ∨ ph t = After)
    | _ => true
    end &&
    match pcs σ' t with Acquiring lid => bool_decide (lid ∈ locks) | _ => true end) ts.

Definition texec (ts : list nat) (l : tlabel) (τ : tester) : option tester :=
  let σ := t_lock τ in
  if aliveb ts σ then
    match l with
    | TGo l =>
        σ' ← exec home true ts l σ;
        if politeb ts σ σ' (t_phase τ) then Some (Tester σ' (t_ct τ) (phase_after σ' (t_phase τ))) else None
    | TGrant t =>
        match pcs σ t, t_phase τ t with
        | Holding lid, Before => ct ← check_grant lid (t_ct τ); Some (Tester σ ct (<[t := Counted]> (t_phase τ)))
        | _, _ => None
        end
    | TRelease t =>
        match pcs σ t, t_phase τ t with
        | Holding lid, Counted => ct ← check_release lid (t_ct τ); Some (Tester σ ct (<[t := After]> (t_phase τ)))
        | _, _ => None
        end
    end
  else None.

Definition treplay (ts : list nat) (ls : list tlabel) (τ : tester) : option tester :=
  foldl (λ m l, m ≫= texec ts l) (Some τ) ls.

Lemma aliveb_ok ts σ : idle_outside ts σ → aliveb ts σ = true → alive σ.
Proof.
  intros Hi Hb. split; intros t lid Ht; (destruct (decide (t ∈ ts)) as [Hin|Hn]; [|by rewrite (Hi t Hn) in Ht]);
    (apply forallb_forall with (x := t) in Hb; [|by apply list_elem_of_In]); by rewrite Ht in Hb.
Qed.

Lemma politeb_ok ts σ σ' ph :
  idle_outside ts σ → idle_outside ts σ' → politeb ts σ σ' ph = true →
  (∀ t lid, pcs σ t = Holding lid → pcs σ' t ≠ Holding lid → ph t = After) ∧
  (∀ t lid, pcs σ' t = Acquiring lid → lid ∈ locks).
Proof.
  intros Hi Hi' Hb.
  assert (∀ t, t ∈ ts → _) as Hall by (intros t Hin; apply (proj1 (forallb_forall _ _) Hb t); by apply list_elem_of_In).
  cbn beta in Hall. split; intros t lid Ht.
  - intros Hn. destruct (decide (t ∈ ts)) as [Hin|?]; [|by rewrite (Hi t) in Ht].
    destruct (andb_prop _ _ (Hall t Hin)) as [H _]. rewrite Ht in H. apply bool_decide_eq_true in H.
    by destruct H.
  - destruct (decide (t ∈ ts)) as [Hin|?]; [|by rewrite (Hi' t) in Ht].
    destruct (andb_prop _ _ (Hall t Hin)) as [_ H]. rewrite Ht in H. by apply bool_decide_eq_true in H.
Qed.

Lemma texec_step ts l τ τ' :
  idle_outside ts (t_lock τ) → texec ts l τ = Some τ' → tstep τ τ' ∧ idle_outside ts (t_lock τ').
Proof.
  destruct τ as [σ ct ph]. cbn [t_lock]. intros Hi He. unfold texec in He. cbn [t_lock t_ct t_phase] in He.
  destruct (aliveb ts σ) eqn:Ha; [|done]. apply (aliveb_ok _ _ Hi) in Ha. destruct l as [l|t|t].
  - destruct (exec home true ts l σ) as [σ'|] eqn:Ex; [|done]. simpl in He.
    destruct (exec_step home _ Anytime _ _ _ _ Hi Ex) as [Hs Hi']. destruct (politeb ts σ σ' ph) eqn:Hb; [|done].
    injection He as <-. destruct (politeb_ok _ _ _ _ Hi Hi' Hb). split; [by apply ts_lock|done].
  - destruct (pcs σ t) eqn:Hp; try done. destruct (ph t) eqn:Hph; try done.
    destruct (check_grant lid ct) as [ct'|] eqn:Ec; [|done]. injection He as <-.
    split; [by eapply ts_grant|done].
  - destruct (pcs σ t) eqn:Hp; try done. destruct (ph t) eqn:Hph; try done.
    destruct (check_release lid ct) as [ct'|] eqn:Ec; [|done]. injection He as <-.
    split; [by eapply ts_release|done].
Qed.

Lemma treplay_steps ts ls τ τ' :
  idle_outside ts (t_lock τ) → treplay ts ls τ = Some τ' → rtc tstep τ τ'.
Proof.
  unfold treplay. revert τ. induction ls as [|l ls IH]; intros τ Hi Hr; simpl in Hr; [injection Hr as ->; constructor|].
  destruct (texec ts l τ) as [τ1|] eqn:E.
  - destruct (texec_step _ _ _ _ Hi E) as [Hs Hi1]. eapply rtc_l; [done|]. by apply IH.
  - exfalso. clear -Hr. induction ls; simpl in *; [done|auto].
Qed.
End tester.

(** ** The programs of the tests

    What a thread does, in the order of the source: calls of a lock client, by its
    place in [lc], and the checks. *)
Inductive taction :=
  | TaAcquire (i : nat) (lid : Z)
  | TaRelease (i : nat) (lid : Z)
  | TaGrant (lid : Z)
  | TaCheck (lid : Z).

#[global] Instance taction_eq_dec : EqDecision taction.
Proof. solve_decision. Defined.

Definition nt : nat := 6.
Definition lock_a : Z := 1.
Definition lock_b : Z := 2.

Definition test1 : list taction :=
  [TaAcquire 0 lock_a; TaGrant lock_a; TaRelease 0 lock_a; TaCheck lock_a;
   TaAcquire 0 lock_a; TaGrant lock_a; TaRelease 0 lock_a; TaCheck lock_a;
   TaAcquire 0 lock_a; TaGrant lock_a; TaAcquire 0 lock_b; TaGrant lock_b;
   TaRelease 0 lock_b; TaCheck lock_b; TaRelease 0 lock_a; TaCheck lock_a].

(** The body of the loops of tests 3 to 5, and test 2. *)
Definition round (i : nat) (lid : Z) : list taction := [TaAcquire i lid; TaGrant lid; TaCheck lid; TaRelease i lid].
Definition test2 (i : nat) : list taction := round i lock_a.
Definition test3 (i : nat) : list taction := concat (replicate 10 (round i lock_a)).
Definition test4 (i : nat) : list taction := concat (replicate 10 (round 0 lock_a)).
Definition test5 (i : nat) : list taction := concat (replicate 10 (round (if decide (i < 5) then 0 else 1) lock_a)).

(** [main]: the tests to run, one after the other; each starts its threads and waits for
    all of them.  [argv] has the name of the program first. *)
Inductive tester_end := UsageExit | BadTestExit | Passed (batches : list (list (list taction))).

Definition batches (test : Z) : list (list (list taction)) :=
  let on k := ((test =? 0) || (test =? k))%Z in
  (if on 1%Z then [[test1]] else []) ++
  (if on 2%Z then [test2 <$> seq 0 nt] else []) ++
  (if on 3%Z then [test3 <$> seq 0 nt] else []) ++
  (if on 4%Z then [test4 <$> seq 0 2] else []) ++
  (if on 5%Z then [test5 <$> seq 0 nt] else []).

Definition tester_main (argv : list bytes) : outcome tester_end :=
  match argv with
  | _ :: _ :: arg :: _ =>
      test ← atoi arg;
      Ok (if (test <? 1)%Z || (test >? 5)%Z then BadTestExit else Passed (batches test))
  | [_; _] => Ok (Passed (batches 0))
  | _ => Ok UsageExit
  end.

(** ** The threads of a test over the lock protocol *)
Record trun := TRun { r_lock : lsys; r_ct : Z → Z; r_prog : nat → list taction }.

(** Not inside a call of the lock client. *)
Definition returned (p : pc) : Prop := p = Idle ∨ ∃ lid, p = Holding lid.

Section programs.
Context (lc : nat → bytes) (home : nat → bytes).

Inductive pstep : trun → trun → Prop :=
  (* a thread calls acquire; *)
  | p_acquire t i lid rest σ ct P :
      alive σ → pcs σ t = Idle → P t = TaAcquire i lid :: rest → home t = lc i →
      pstep (TRun σ ct P) (TRun (goto t (Acquiring lid) σ) ct (<[t := rest]> P))
  (* calls release; *)
  | p_release t i lid rest σ σ' ct P :
      alive σ → pcs σ t = Holding lid → P t = TaRelease i lid :: rest → home t = lc i →
      step home true Anytime σ σ' → pcs σ' t ≠ Holding lid →
      pstep (TRun σ ct P) (TRun σ' ct (<[t := rest]> P))
  (* goes on inside a call, as do the threads of the lock clients, which have no program; *)
  | p_inside σ σ' ct P :
      alive σ → step home true Anytime σ σ' →
      (∀ t, pcs σ' t ≠ pcs σ t →
         (∀ lid, pcs σ t ≠ Holding lid) ∧ (∀ lid, pcs σ' t ≠ Acquiring lid) ∧ (pcs σ t = Idle → P t = [])) →
      pstep (TRun σ ct P) (TRun σ' ct P)
  (* or checks. *)
  | p_grant t lid rest σ ct ct' P :
      alive σ → returned (pcs σ t) → P t = TaGrant lid :: rest → check_grant lid ct = Some ct' →
      pstep (TRun σ ct P) (TRun σ ct' (<[t := rest]> P))
  | p_check t lid rest σ ct ct' P :
      alive σ → returned (pcs σ t) → P t = TaCheck lid :: rest → check_release lid ct = Some ct' →
      pstep (TRun σ ct P) (TRun σ ct' (<[t := rest]> P)).

(** *** The programs follow the policy of [tstep] *)

(** Rounds for locks of the test. *)
Inductive rounds (locks : list Z) : list taction → Prop :=
  | rounds_nil : rounds locks []
  | rounds_cons i lid l : lid ∈ locks → rounds locks l → rounds locks (round i lid ++ l).

(** What a thread still has to do, by where it is; of one that has done something
    undefined nothing is said. *)
Definition shape (locks : list Z) (p : pc) (ph : phase) (l : list taction) : Prop :=
  match lock_of p with
  | Some lid =>
      lid ∈ locks ∧ ∃ i rest, rounds locks rest ∧
      l = (if decide (p = Holding lid) then
             match ph with
             | Before => [TaGrant lid; TaCheck lid]
             | Counted => [TaCheck lid]
             | After => []
             end
           else [TaGrant lid; TaCheck lid]) ++ TaRelease i lid :: rest
  | None => rounds locks l ∨ ∃ lid, p = Undefined lid
  end.

(** A thread inside acquire stays there until it has the lock. *)
Definition acquires (p : pc) (lid : Z) : Prop := lock_of p = Some lid ∨ ∃ l, p = Undefined l.

Lemma step_in_acquire quiet f σ σ' t lid :
  step home quiet f σ σ' → lock_of (pcs σ t) = Some lid → pcs σ t ≠ Holding lid → acquires (pcs σ' t) lid.
Proof.
  intros [_ Hs] Hl Hn.
  assert (∀ u q σ1, pcs σ1 = pcs σ → (u = t → acquires q lid) → acquires (pcs (goto u q σ1) t) lid) as Hgo.
  { intros u q σ1 E Hq. rewrite pcs_at, E. case_decide; [auto|by left]. }
  assert (∀ u l c, lock_of (pcs σ u) = Some l → acquires (pcs (look home u l c σ) t) lid) as Hlook.
  { intros u l c Hu. unfold look. case_match; (apply Hgo; [done|]); intros ->; left; simpl; congruence. }
  destruct Hs as [u l σ Hp|u l σ Hp _|u l σ Hp _|u l v s σ Hp _ _|u l σ Hp|u l o r c σ Hp _ _
    |u l ret σ Hp|u l c σ Hp _ _|u l c σ Hp _ _|u l σ Hp|u l w s σ Hp _ _|u l w r c σ Hp _ _
    |u l σ Hp _|u l σ Hp _ _|u l ret σ _ Hp _|u l ret ret' σ _ Hp _|u l o st σ _ Hp Hst|u l σ _ Hp|u l w σ _ Hp|u l w σ _ Hp];
    try (apply Hlook; by rewrite Hp);
    try (apply Hgo; [done|]; intros ->; rewrite Hp in Hl, Hn; simpl in Hl; simplify_eq/=; try done; try by left).
  - left. by destruct v as [|[]].
  - case_decide; [right; by exists lid|by left].
  - case_decide; [by left|right; by exists lid].
  - unfold answer. case_match; [apply Hgo; [done|]; intros ->; rewrite Hp in Hl; left; simpl in *; congruence..|].
    apply Hlook. by rewrite Hp.
  - right. rewrite (revoke_failed _ _ Hst). by exists lid.
Qed.

Context (locks : list Z).
Hypothesis home_ne : ∀ t, home t ≠ [].
Hypothesis slots_differ : ∀ l l', l ∈ locks → l' ∈ locks → slot l = slot l' → l = l'.

Definition pinv (r : trun) : Prop := ∃ ph,
  rtc (tstep home locks) tstart (Tester (r_lock r) (r_ct r) ph) ∧
  ∀ t, shape locks (pcs (r_lock r) t) (ph t) (r_prog r t).

Lemma shape_phase p ph ph' l : (∀ lid, p ≠ Holding lid) → shape locks p ph l → shape locks p ph' l.
Proof.
  intros Hp. unfold shape. destruct (lock_of p) as [lid|]; [|done]. by rewrite !decide_False by done.
Qed.

(** A thread that does nothing, or goes on inside a call. *)
Lemma shape_inside σ σ' ct ph t l :
  tinv home locks (Tester σ ct ph) → step home true Anytime σ σ' →
  (pcs σ' t ≠ pcs σ t → (∀ lid, pcs σ t ≠ Holding lid) ∧ (∀ lid, pcs σ' t ≠ Acquiring lid)) →
  shape locks (pcs σ t) (ph t) l → shape locks (pcs σ' t) (phase_after σ' ph t) l.
Proof.
  intros Hi Hs Hch Hsh. destruct (decide (pcs σ' t = pcs σ t)) as [E|E].
  { rewrite E. unfold phase_after. rewrite E. destruct (pcs σ t); try done. }
  destruct (Hch E) as [Hn Hna].
  assert (ph t = Before) as Hph.
  { destruct (decide (ph t = Before)) as [|Hne]; [done|]. destruct (ti_phase _ _ _ Hi t Hne) as (lid & Hl).
    by apply Hn in Hl. }
  assert (phase_after σ' ph t = Before) as ->.
  { unfold phase_after. by destruct (pcs σ' t). }
  rewrite Hph in Hsh. unfold shape in *. destruct (lock_of (pcs σ t)) as [lid|] eqn:El.
  - destruct (step_in_acquire true Anytime σ σ' t lid Hs El (Hn lid)) as [->|[l' ->]]; [|right; by exists l'].
    destruct Hsh as (Hin & i & rest & Hr & ->).
    split; [done|]. exists i, rest. split; [done|]. rewrite (decide_False _ _ (Hn lid)). by case_decide.
  - destruct Hsh as [Hsh|[l' Hu]]; [|by apply (proj1 Hs) in Hu].
    destruct (lock_of (pcs σ' t)) as [lid|] eqn:El'; [|by left].
    destruct (step_lock_of home true Anytime σ σ' t lid Hs El') as [?|Ha]; [congruence|by apply Hna in Ha].
Qed.

Lemma rounds_inv l i lid rest :
  rounds locks l → l = TaAcquire i lid :: rest →
  lid ∈ locks ∧ ∃ rest', rounds locks rest' ∧ rest = [TaGrant lid; TaCheck lid] ++ TaRelease i lid :: rest'.
Proof. destruct 1; intros; simplify_eq/=. eauto. Qed.

Lemma tinv_of r ph : rtc (tstep home locks) tstart (Tester (r_lock r) (r_ct r) ph) →
  tinv home locks (Tester (r_lock r) (r_ct r) ph).
Proof. by apply tinv_reachable. Qed.

Lemma shape_acquiring σ ph t l lid : shape locks (pcs σ t) (ph t) l → pcs σ t = Acquiring lid → lid ∈ locks.
Proof. intros Hsh Hp. rewrite Hp in Hsh. by destruct Hsh as [? _]. Qed.

Lemma pinv_acquire t i lid rest σ ct P :
  pinv (TRun σ ct P) → alive σ → pcs σ t = Idle → P t = TaAcquire i lid :: rest →
  pinv (TRun (goto t (Acquiring lid) σ) ct (<[t := rest]> P)).
Proof.
  intros (ph & Hr & Hsh) Ha Hp HP. cbn [r_lock r_ct r_prog] in *. set (σ' := goto t (Acquiring lid) σ).
  assert (step home true Anytime σ σ') as Hs by (split; [apply Ha|by apply step_acquire]).
  assert (∀ u, u ≠ t → pcs σ' u = pcs σ u) as Hu by (intros u Hu; simpl; by rewrite fn_lookup_insert_ne).
  assert (pcs σ' t = Acquiring lid) as Hp' by apply fn_lookup_insert.
  pose proof (Hsh t) as Ht. rewrite Hp in Ht. destruct Ht as [Ht|[? [=]]]. destruct (rounds_inv _ _ _ _ Ht HP) as (Hin & rest' & Hrest & ->).
  exists (phase_after σ' ph). split.
  - eapply rtc_r; [exact Hr|]. apply ts_lock; [done|done| |].
    + intros u l Hl Hl'. destruct (decide (u = t)) as [->|Hne]; [congruence|by rewrite Hu in Hl'].
    + intros u l Hl. destruct (decide (u = t)) as [->|Hne]; [congruence|]. rewrite Hu in Hl by done.
      by eapply shape_acquiring.
  - intros u. cbn [r_lock r_prog]. destruct (decide (u = t)) as [->|Hne].
    + rewrite fn_lookup_insert, Hp'. split; [done|]. exists i, rest'. by rewrite decide_False.
    + rewrite fn_lookup_insert_ne by done. eapply shape_inside; [by apply (tinv_of (TRun σ ct P))|done| |done].
      by rewrite Hu.
Qed.

Lemma pinv_release t i lid rest σ σ' ct P :
  pinv (TRun σ ct P) → alive σ → pcs σ t = Holding lid → P t = TaRelease i lid :: rest →
  step home true Anytime σ σ' → pcs σ' t ≠ Holding lid → pinv (TRun σ' ct (<[t := rest]> P)).
Proof.
  intros (ph & Hr & Hsh) Ha Hp HP Hs Hn. cbn [r_lock r_ct r_prog] in *.
  assert (∀ u, u ≠ t → pcs σ' u = pcs σ u) as Hu.
  { destruct (step_one home true Anytime σ σ' Hs) as (w & Hw). destruct (decide (t = w)) as [<-|Hne]; [done|].
    exfalso. apply Hn. by rewrite Hw. }
  pose proof (step_from_holding home true Anytime σ σ' t lid Hs Hp Hn) as Hl'.
  pose proof (Hsh t) as Ht. rewrite Hp in Ht. destruct Ht as (Hin & j & rest' & Hrest & E). rewrite decide_True in E by done.
  assert (ph t = After ∧ rest = rest') as [Hph ->] by (destruct (ph t); rewrite HP in E; by simplify_eq/=).
  exists (phase_after σ' ph). split.
  - eapply rtc_r; [exact Hr|]. apply ts_lock; [done|done| |].
    + intros u l Hl Hnl. destruct (decide (u = t)) as [->|Hne]; [done|by rewrite Hu in Hnl].
    + intros u l Hl. destruct (decide (u = t)) as [->|Hne]; [by rewrite Hl in Hl'|]. rewrite Hu in Hl by done.
      by eapply shape_acquiring.
  - intros u. cbn [r_lock r_prog]. destruct (decide (u = t)) as [->|Hne].
    + rewrite fn_lookup_insert. unfold shape. rewrite Hl'. by left.
    + rewrite fn_lookup_insert_ne by done. eapply shape_inside; [by apply (tinv_of (TRun σ ct P))|done| |done].
      by rewrite Hu.
Qed.

Lemma pinv_inside σ σ' ct P :
  pinv (TRun σ ct P) → alive σ → step home true Anytime σ σ' →
  (∀ t, pcs σ' t ≠ pcs σ t → (∀ lid, pcs σ t ≠ Holding lid) ∧ (∀ lid, pcs σ' t ≠ Acquiring lid)) →
  pinv (TRun σ' ct P).
Proof.
  intros (ph & Hr & Hsh) Ha Hs Hch. cbn [r_lock r_ct r_prog] in *. exists (phase_after σ' ph). split.
  - eapply rtc_r; [exact Hr|]. apply ts_lock; [done|done| |].
    + intros u l Hl Hl'. destruct (decide (pcs σ' u = pcs σ u)) as [E|E]; [congruence|].
      destruct (Hch u E) as [Hno _]. by apply Hno in Hl.
    + intros u l Hl. destruct (decide (pcs σ' u = pcs σ u)) as [E|E].
      * apply (shape_acquiring σ ph u (P u)); [apply Hsh|congruence].
      * destruct (Hch u E) as [_ Hno]. by apply Hno in Hl.
  - intros u. eapply shape_inside; [by apply (tinv_of (TRun σ ct P))|done|apply Hch|apply Hsh].
Qed.

(** A thread at a check: it holds the lock, and is where the check belongs. *)
Lemma shape_check p ph lid x rest :
  (x = TaGrant lid ∨ x = TaCheck lid) → returned p → shape locks p ph (x :: rest) →
  p = Holding lid ∧ ph = (if decide (x = TaGrant lid) then Before else Counted) ∧
  shape locks p (if decide (x = TaGrant lid) then Counted else After) rest.
Proof.
  intros Hx [->|[l ->]] Hsh; unfold shape in Hsh; simpl in Hsh.
  - exfalso. destruct Hsh as [Hsh|[? [=]]]. inversion Hsh; subst; by destruct Hx.
  - destruct Hsh as (Hin & i & rest' & Hrest & E). rewrite decide_True in E by done.
    destruct ph, Hx as [-> | ->]; simplify_eq/=; rewrite ?decide_True, ?decide_False by done;
      (split; [done|]; split; [done|]; unfold shape; simpl; split; [done|]; exists i, rest'; by rewrite decide_True).
Qed.

Lemma pinv_check t lid x rest σ ct ct' P :
  (x = TaGrant lid ∧ check_grant lid ct = Some ct' ∨ x = TaCheck lid ∧ check_release lid ct = Some ct') →
  pinv (TRun σ ct P) → alive σ → returned (pcs σ t) → P t = x :: rest → pinv (TRun σ ct' (<[t := rest]> P)).
Proof.
  intros Hx (ph & Hr & Hsh) Ha Hret HP. cbn [r_lock r_ct r_prog] in *. pose proof (Hsh t) as Ht. rewrite HP in Ht.
  destruct (shape_check (pcs σ t) (ph t) lid x rest) as (Hp & Hph & Hsh'); [naive_solver|done|done|].
  set (q := if decide (x = TaGrant lid) then Counted else After) in *.
  exists (<[t := q]> ph). split.
  - eapply rtc_r; [exact Hr|]. unfold q. destruct Hx as [[-> Hc]|[-> Hc]].
    + rewrite decide_True in Hph |- * by done. by eapply ts_grant.
    + rewrite decide_False in Hph |- * by done. by eapply ts_release.
  - intros u. cbn [r_lock r_prog]. destruct (decide (u = t)) as [->|Hne]; [by rewrite !fn_lookup_insert|].
    rewrite !fn_lookup_insert_ne by done. apply Hsh.
Qed.

Lemma tester_inv_step r r' : pstep r r' → pinv r → pinv r'.
Proof.
  destruct 1 as [t i lid rest σ ct P Ha Hp HP Hh|t i lid rest σ σ' ct P Ha Hp HP Hh Hs Hn|σ σ' ct P Ha Hs Hch
    |t lid rest σ ct ct' P Ha Hret HP Hc|t lid rest σ ct ct' P Ha Hret HP Hc]; intros Hi.
  - by eapply pinv_acquire.
  - by eapply pinv_release.
  - eapply pinv_inside; [done..|]. intros t Ht. by destruct (Hch t Ht) as (? & ? & _).
  - eapply pinv_check; [left|..]; done.
  - eapply pinv_check; [right|..]; done.
Qed.

Lemma tester_inv_reachable P r : (∀ t, rounds locks (P t)) → rtc pstep (TRun start (λ _, 0%Z) P) r → pinv r.
Proof.
  intros HP Hr. assert (pinv (TRun start (λ _, 0%Z) P)) as Hi by (exists (λ _, Before); split; [constructor|by left]).
  revert Hi. induction Hr as [|x y z Hxy _ IH]; [done|]. intros Hx. by eapply IH, tester_inv_step.
Qed.

(** ** Running the programs *)
Inductive plabel := PAcquire (t : nat) | PRelease (t : nat) | PInside (l : label) | PGrant (t : nat) | PCheck (t : nat).

Definition insideb (ts : list nat) (σ σ' : lsys) (P : nat → list taction) : bool :=
  forallb (λ t, bool_decide (pcs σ' t = pcs σ t) ||
    match pcs σ t, pcs σ' t with
    | Holding _, _ | _, Acquiring _ => false
    | Idle, _ => bool_decide (P t = [])
    | _, _ => true
    end) ts.

Definition pexec (ts : list nat) (l : plabel) (r : trun) : option trun :=
  let '(TRun σ ct P) := r in
  if aliveb ts σ then
    match l with
    | PAcquire t =>
        match P t with
        | TaAcquire i lid :: rest =>
            if decide (home t = lc i ∧ pcs σ t = Idle ∧ t ∈ ts)
            then Some (TRun (goto t (Acquiring lid) σ) ct (<[t := rest]> P)) else None
        | _ => None
        end
    | PRelease t =>
        match P t, pcs σ t with
        | TaRelease i lid :: rest, Holding lid' =>
            σ' ← exec home true ts (LGo t) σ;
            if decide (lid = lid' ∧ home t = lc i ∧ pcs σ' t ≠ Holding lid)
            then Some (TRun σ' ct (<[t := rest]> P)) else None
        | _, _ => None
        end
    | PInside l => σ' ← exec home true ts l σ; if insideb ts σ σ' P then Some (TRun σ' ct P) else None
    | PGrant t =>
        match P t, pcs σ t with
        | TaGrant lid :: rest, (Idle | Holding _) => ct' ← check_grant lid ct; Some (TRun σ ct' (<[t := rest]> P))
        | _, _ => None
        end
    | PCheck t =>
        match P t, pcs σ t with
        | TaCheck lid :: rest, (Idle | Holding _) => ct' ← check_release lid ct; Some (TRun σ ct' (<[t := rest]> P))
        | _, _ => None
        end
    end
  else None.

Fixpoint preplay (ts : list nat) (ls : list plabel) (r : trun) : option trun :=
  match ls with [] => Some r | l :: ls => pexec ts l r ≫= preplay ts ls end.

Lemma insideb_ok ts σ σ' P t :
  idle_outside ts σ → idle_outside ts σ' → insideb ts σ σ' P = true → pcs σ' t ≠ pcs σ t →
  (∀ lid, pcs σ t ≠ Holding lid) ∧ (∀ lid, pcs σ' t ≠ Acquiring lid) ∧ (pcs σ t = Idle → P t = []).
Proof.
  intros Hi Hi' Hb Hne. destruct (decide (t ∈ ts)) as [Hin|Hn]; [|by rewrite Hi, Hi' in Hne].
  apply forallb_forall with (x := t) in Hb; [|by apply list_elem_of_In].
  rewrite bool_decide_false in Hb by done. simpl in Hb.
  destruct (pcs σ t), (pcs σ' t); try done; split_and!; try done; intros _; by apply bool_decide_eq_true in Hb.
Qed.

Lemma pexec_step ts l r r' :
  idle_outside ts (r_lock r) → pexec ts l r = Some r' → pstep r r' ∧ idle_outside ts (r_lock r').
Proof.
  destruct r as [σ ct P]. cbn [r_lock]. intros Hi He. cbn [pexec] in He.
  destruct (aliveb ts σ) eqn:Ha; [|done]. apply (aliveb_ok _ _ Hi) in Ha. destruct l as [t|t|l|t|t].
  - destruct (P t) as [|[i lid| | |] rest] eqn:HP; try done. case_decide as Hc; [|done]. destruct Hc as (Hh & Hp & Hin).
    injection He as <-. split; [by eapply p_acquire|]. intros u Hu. cbn [r_lock goto pcs].
    rewrite fn_lookup_insert_ne; [by apply Hi|]. by intros ->.
  - destruct (P t) as [|[|i lid| |] rest] eqn:HP; try done. destruct (pcs σ t) eqn:Hp; try done.
    apply bind_Some in He as (σ' & Ex & He). destruct (exec_step home _ Anytime _ _ _ _ Hi Ex) as [Hs Hi'].
    case_decide as Hc; [|done]. destruct Hc as (<- & Hh & Hn). injection He as <-. split; [by eapply p_release|done].
  - apply bind_Some in He as (σ' & Ex & He). destruct (exec_step home _ Anytime _ _ _ _ Hi Ex) as [Hs Hi'].
    destruct (insideb ts σ σ' P) eqn:Hb; [|done]. injection He as <-. split; [|done].
    apply p_inside; [done|done|]. intros t. by apply (insideb_ok ts).
  - destruct (P t) as [|[| |lid|] rest] eqn:HP; try done.
    assert (returned (pcs σ t)) as Hret by (unfold returned; destruct (pcs σ t); naive_solver).
    assert (check_grant lid ct ≫= (λ ct', Some (TRun σ ct' (<[t:=rest]> P))) = Some r') as (ct' & Hc & [= <-])%bind_Some
      by (by destruct (pcs σ t)).
    split; [by eapply p_grant|done].
  - destruct (P t) as [|[| | |lid] rest] eqn:HP; try done.
    assert (returned (pcs σ t)) as Hret by (unfold returned; destruct (pcs σ t); naive_solver).
    assert (check_release lid ct ≫= (λ ct', Some (TRun σ ct' (<[t:=rest]> P))) = Some r') as (ct' & Hc & [= <-])%bind_Some
      by (by destruct (pcs σ t)).
    split; [by eapply p_check|done].
Qed.

Lemma preplay_steps ts ls r r' : idle_outside ts (r_lock r) → preplay ts ls r = Some r' → rtc pstep r r'.
Proof.
  revert r. induction ls as [|l ls IH]; intros r Hi Hr; simpl in Hr; [simplify_eq; constructor|].
  apply bind_Some in Hr as (r1 & E & Hr). destruct (pexec_step _ _ _ _ Hi E) as [Hs Hi1].
  eapply rtc_l; [done|]. by apply IH.
Qed.
End programs.

(** *** Test 1, with no other client at work

    [None]: a check has ended the program. *)
Fixpoint run_alone {E} `{FsOps E} (l : list taction) (ct : Z → Z) (e : E) : outcome (option ((Z → Z) * E)) :=
  match l with
  | [] => Ok (Some (ct, e))
  | TaAcquire _ lid :: l => e ← lc_acquire lid e; run_alone l ct e
  | TaRelease _ lid :: l => e ← lc_release lid e; run_alone l ct e
  | TaGrant lid :: l => match check_grant lid ct with Some ct => run_alone l ct e | None => Ok None end
  | TaCheck lid :: l => match check_release lid ct with Some ct => run_alone l ct e | None => Ok None end
  end.

Lemma check_grant_Some lid ct : ct (slot lid) = 0%Z → check_grant lid ct = Some (<[slot lid := 1%Z]> ct).
Proof. intros E. unfold check_grant. by rewrite decide_True, E. Qed.
Lemma check_release_Some lid ct : ct (slot lid) = 1%Z → check_release lid ct = Some (<[slot lid := 0%Z]> ct).
Proof. intros E. unfold check_release. by rewrite decide_True, E. Qed.

(** The next call of a test, whose state [S] describes. *)
Ltac test_call S :=
  let S' := fresh in
  match type of S with at_state ?e _ _ =>
    match goal with
    | |- context [lc_acquire ?i e] => destruct (acquire_at i e _ _ S) as (? & -> & S'); [set_solver|]
    | |- context [lc_release ?i e] => destruct (release_at i e _ _ S) as (? & -> & S'); [set_solver|]
    end
  end; clear S; rename S' into S; run.

Lemma test1_passes {E} `{FsSpec E} (e : E) C L :
  at_state e C L → lock_a ∉ L → lock_b ∉ L →
  ∃ ct e', run_alone test1 (λ _, 0%Z) e = Ok (Some (ct, e')) ∧ at_state e' C L ∧ ∀ x, ct x = 0%Z.
Proof.
  intros S Ha Hb. unfold test1. cbn [run_alone]. assert (lock_a ≠ lock_b) by done.
  do 12 (try test_call S; repeat first [rewrite check_grant_Some by done|rewrite check_release_Some by done]).
  do 2 eexists. split; [done|]. split.
  - eapply eq_ind; [exact S|]. set_solver.
  - intros y. unfold insert, fn_insert. by repeat case_decide.
Qed.

(** The tests that [main] starts: the sequential one, and the ones with threads. *)
Lemma main_batches argv l batch prog :
  tester_main argv = Ok (Passed l) → batch ∈ l → prog ∈ batch →
  prog = test1 ∨ ∃ i, prog ∈ [test2 i; test3 i; test4 i; test5 i].
Proof.
  intros Hm Hb Hp. assert (∃ k, l = batches k) as [k ->].
  { destruct argv as [|? [|? [|arg ?]]]; simpl in Hm; simplify_eq; [eauto|].
    apply bind_Ok in Hm as (k & _ & Hm). case_match; simplify_eq. eauto. }
  unfold batches in Hb. rewrite !elem_of_app in Hb.
  destruct Hb as [Hb|[Hb|[Hb|[Hb|Hb]]]]; (case_match; [|by apply not_elem_of_nil in Hb]);
    apply list_elem_of_singleton in Hb as ->; [by left; apply list_elem_of_singleton in Hp|right..];
    apply list_elem_of_fmap in Hp as (i & -> & _); exists i; set_solver.
Qed.

(** ** Properties *)

(** In every run of threads that acquire, check and release over the cached-lock
    protocol, for locks that differ in their low byte, a thread that has acquired a lock
    finds the count of that lock zero, and one, about to release it, finds it one. *)
Lemma tstep_checks_pass home locks τ :
  (∀ t, home t ≠ []) → (∀ l l', l ∈ locks → l' ∈ locks → slot l = slot l' → l = l') →
  rtc (tstep home locks) tstart τ →
  ∀ t lid, pcs (t_lock τ) t = Holding lid →
    (t_phase τ t = Before → is_Some (check_grant lid (t_ct τ))) ∧
    (t_phase τ t = Counted → is_Some (check_release lid (t_ct τ))).
Proof.
  intros Hne Hsl Hr t lid Ht. pose proof (tinv_reachable home locks Hne Hsl τ Hr) as Hi.
  split; intros Hph.
  - unfold check_grant. case_decide as E; [eauto|]. exfalso.
    destruct (ti_ct _ _ _ Hi (slot lid)) as [?|(_ & u & l & Hu & Hc & Hs)]; [done|].
    assert (u = t) as -> by (by apply (same_slot home locks Hsl τ u t l lid)). congruence.
  - unfold check_release. rewrite decide_True; [eauto|]. by apply (ti_counted _ _ _ Hi t).
Qed.

(** The tests of [main] with threads: one loop of rounds per thread. *)
Lemma rounds_app locks l l' : rounds locks l → rounds locks l' → rounds locks (l ++ l').
Proof. induction 1 as [|i lid l Hin Hl IH]; [done|]. intros Hl'. rewrite <- app_assoc. constructor; auto. Qed.
Lemma rounds_loop locks i lid n : lid ∈ locks → rounds locks (concat (replicate n (round i lid))).
Proof. intros Hin. induction n as [|n IH]; [constructor|]. simpl concat. by constructor. Qed.

Lemma test_rounds i prog : prog ∈ [test2 i; test3 i; test4 i; test5 i] → rounds [1; 2; 3]%Z prog.
Proof.
  rewrite !elem_of_cons, elem_of_nil. intros [->|[->|[->|[->|[]]]]].
  - apply (rounds_cons _ i lock_a []); [left|constructor].
  - apply rounds_loop. left.
  - apply rounds_loop. left.
  - apply rounds_loop. left.
Qed.

(** C34: The checks of the lock tester never complain about the lock service.  Let each
    thread run the program of test 2, 3, 4 or 5 (or none, as the threads of the lock
    clients do), with its lock client, over the cached-lock protocol, under the
    conditions of its mutual exclusion: no thread changes a lock between give_back's
    unlocked look at it and its change of it, and a call that fails does so before its
    handler has begun or when its reply is lost (a retry only before).  The program ends
    where a thread calls the release action, which the tester does not supply, or does
    something undefined (a second unlock after a failed revoke or release).  In every
    state reached, a thread that comes to check_grant or check_release passes it. *)
Theorem tester_checks_pass lc home P r :
  (∀ t, home t ≠ []) → (∀ t, P t = [] ∨ ∃ i, P t ∈ [test2 i; test3 i; test4 i; test5 i]) →
  rtc (pstep lc home) (TRun start (λ _, 0%Z) P) r →
  ∀ t lid rest, returned (pcs (r_lock r) t) →
    (r_prog r t = TaGrant lid :: rest → is_Some (check_grant lid (r_ct r))) ∧
    (r_prog r t = TaCheck lid :: rest → is_Some (check_release lid (r_ct r))).
Proof.
  intros Hne HP Hr t lid rest Hret.
  assert (∀ l l', l ∈ [1; 2; 3]%Z → l' ∈ [1; 2; 3]%Z → slot l = slot l' → l = l') as Hslot.
  { intros l l'. rewrite !elem_of_cons, !elem_of_nil. intros [->|[->|[->|[]]]] [->|[->|[->|[]]]]; done. }
  destruct (tester_inv_reachable lc home [1; 2; 3]%Z Hne Hslot P r) as (ph & Ht & Hsh); [|done|].
  { intros u. destruct (HP u) as [->|[i Hi]]; [constructor|by eapply test_rounds]. }
  specialize (Hsh t). split; intros E; rewrite E in Hsh;
    (apply (shape_check _ _ _ lid) in Hsh as (Hp & Hph & _); [|by auto|done]);
    rewrite ?decide_True, ?decide_False in Hph by done;
    by apply (tstep_checks_pass home _ _ Hne Hslot Ht t lid Hp).
Qed.

(** Test 4: two threads of client 0.  Thread 0 acquires the lock, is checked and
    releases it; thread 1 gets it from the client and comes to its second check. *)
Definition ex_lc (i : nat) : bytes := if decide (i = 0) then lit "a" else lit "b".
Definition ex_test4 (t : nat) : list taction := if decide (t ≤ 1) then test4 t else [].
Definition ex_tester_run : list plabel :=
  [PAcquire 0; PInside (LGo 0); PInside (LGo 0); PInside (LGo 0); PGrant 0; PAcquire 1; PInside (LGo 1);
   PCheck 0; PRelease 0; PInside (LGo 1); PGrant 1].

Lemma tester_checks_pass_witness :
  match preplay ex_lc ex_home threads4 ex_tester_run (TRun start (λ _, 0%Z) ex_test4) with
  | Some r => ∃ rest, r_prog r 1 = TaCheck lock_a :: rest ∧ is_Some (check_release lock_a (r_ct r))
  | None => False
  end.
Proof.
  destruct (preplay ex_lc ex_home threads4 ex_tester_run (TRun start (λ _, 0%Z) ex_test4)) as [r|] eqn:E.
  - assert (∃ rest, r_prog r 1 = TaCheck lock_a :: rest) as [rest Hr]
      by (vm_compute in E; injection E as <-; eexists; reflexivity).
    exists rest. split; [exact Hr|].
    apply (tester_checks_pass ex_lc ex_home ex_test4 r) with (t := 1) (rest := rest); [..|exact Hr].
    + intros u. unfold ex_home. by case_decide.
    + intros t. unfold ex_test4. case_decide; [right; exists t; do 2 right; left|by left].
    + eapply preplay_steps; [apply start_idle|exact E].
    + vm_compute in E. injection E as <-. right. by eexists.
  - vm_compute in E. discriminate.
Defined.

(** The tester can crash all the same: a run exists in which the give-back thread of
    a client comes to the release action that the tester did not supply, after which
    the program takes no step. *)
Theorem tester_calls_null_action :
  ∃ τ, rtc (tstep ex_home [1; 2; 3]%Z) tstart τ ∧ pcs (t_lock τ) 1 = Flushing 1 ∧
    ∀ τ', ¬ tstep ex_home [1; 2; 3]%Z τ τ'.
Proof.
  destruct (treplay ex_home [1; 2; 3]%Z threads4
    [TGo (LAcquire 0 1); TGo (LGo 0); TGo (LGo 0); TGo (LGo 0); TGrant 0; TRelease 0; TGo (LGo 0);
     TGo (LScan 1); TGo (LGo 1)] tstart) as [τ|] eqn:E; [|vm_compute in E; discriminate].
  assert (pcs (t_lock τ) 1 = Flushing 1) as H1 by (vm_compute in E; injection E as <-; reflexivity).
  exists τ. split_and!; [by eapply treplay_steps; [apply start_idle|exact E]|done|].
  clear E. intros τ' Hs. by destruct Hs as [σ σ' ct ph Ha|t lid σ ct ct' ph Ha|t lid σ ct ct' ph Ha]; apply Ha in H1.
Qed.
