(* ===== verification/FileSystem.v ===== *)
(** * Properties of the file system client

    The theorems are stated against the interface [FsSpec] of YfsClient.v, for every
    implementation of the lock and extent clients that keeps its promises; the
    witnesses run them on the stack of Stack.v. *)

From stdpp Require Import base tactics numbers list gmap sets strings.
From Stdlib Require Import ZArith Lia Ascii.
From S2P Require Import Prelude CxxString Marshall ExtentServer ExtentClient LockServer LockClient YfsClient Stack.
Import extent_protocol (attr, Attr, a_size).

(** The stack at its start: one empty root directory, no locks. *)
Definition ex_stack : stack := new_stack (lit "127.0.0.1:4000") 1000.

Lemma ex_stack_at : at_state ex_stack {[1%Z := []]} ∅.
Proof.
  split_and!.
  - apply new_stack_ok. done.
  - apply map_eq. intros i. change (content ex_stack) with (stack_content ex_stack).
    rewrite stack_content_view. unfold view. simpl. by rewrite lookup_empty.
  - change (locks ex_stack) with (stack_locks ex_stack). apply stack_locks_ext. intros i.
    unfold lockstate. simpl. rewrite lookup_empty. simpl. set_solver.
Qed.

Lemma ex_root : dir_of {[1%Z := []]} 1 [].
Proof. split_and!; [by rewrite lookup_singleton_eq|constructor|done]. Qed.

(** ** Splitting and directories *)

(** [split] terminates and returns the tokens between single spaces, an empty last
    one dropped, for every string below 2^31 bytes. *)
Theorem split_refines s : (size s < 2 ^ 31)%Z → split s sep = Ok (split_ref s []).
Proof. apply split_spec. Qed.

Lemma split_refines_witness :
  split (lit "1 a  b ") sep = Ok [lit "1"; lit "a"; []; lit "b"].
Proof. rewrite (split_refines (lit "1 a  b ")); [reflexivity|done]. Defined.

(** C15: A directory is read back as it was written.  Let the directory's extent be the
    text of the entries [d], whose inums are 64-bit numbers and whose names are not empty
    and hold neither a space nor a NUL, with fewer than 2^31 bytes; let its lock be free,
    and the extent of the looked-up entry be there, with its lock free.  Then listing the
    directory returns each inum and name in order, and looking a name up returns the
    inum of its first entry, with the size of that extent, or says that there is none;
    nothing changes and no lock is kept. *)
Theorem directory_roundtrip {E} `{FsSpec E} p n rest ri ra res (e : E) C L d :
  at_state e C L → p ∉ L → dir_of C p d → NUL ∉ n →
  (∀ i, dir_lookup n d = Some i → i ≠ p ∧ i ∉ L ∧ is_Some (C !! i)) →
  ∃ e1 r ri' ra' fnd e2,
    readdir p res e = Ok (yfs.OK, d ≫= (λ x, [filename x.1; x.2]), e1) ∧
    lookup p (n ++ NUL :: rest) ri ra false e1 = Ok (yfs.OK, ri', ra', fnd, e2) ∧
    r = dir_lookup n d ∧ fnd = bool_decide (is_Some r) ∧
    (∀ i, r = Some i → ri' = i ∧ ∃ b, C !! i = Some b ∧ a_size ra' = u32 (size b)) ∧
    at_state e2 C L.
Proof.
  intros S Hp Hd Hn Hl. destruct (readdir_spec p res e C L d S Hp Hd) as (e1 & E1 & S1).
  destruct (lookup_spec p n rest ri ra e1 C L d S1 Hp Hd Hn) as (r & ri' & ra' & fnd & e2 & E2 & S2 & Hr).
  { intros i Hi. destruct (Hl i Hi) as (? & ? & _). done. }
  exists e1, (dir_lookup n d), ri', ra', fnd, e2. destruct (dir_lookup n d) as [i|] eqn:Ei.
  - destruct Hr as (-> & -> & Hr). destruct (Hl i eq_refl) as (_ & _ & b & Hb). rewrite Hb in Hr.
    destruct Hr as [-> Hsz]. split_and!; try done. intros i' [= <-]. eauto.
  - destruct Hr as (-> & ->). by split_and!.
Qed.

(** The stack after the file "f" was created in its root directory. *)
Definition ex_inum : Z := 2147483649.
Definition ex_created : stack :=
  match create 1 (lit "f" ++ [NUL]) ex_inum (Attr 0 0 0 0) ex_stack with Ok (_, _, e) => e | Fault _ => ex_stack end.
Definition ex_created_content : gmap Z bytes := <[1%Z := dir_text [(ex_inum, lit "f")]]> (<[ex_inum := []]> {[1%Z := []]}).

Lemma ex_no_NUL (s : bytes) : bool_decide (NUL ∈ s) = false → NUL ∉ s.
Proof. apply bool_decide_eq_false. Qed.

Lemma ex_created_at : at_state ex_created ex_created_content ∅.
Proof.
  destruct (create_spec 1 (lit "f") [] ex_inum (Attr 0 0 0 0) ex_stack {[1%Z := []]} ∅ [] ex_stack_at)
    as (r & a & e' & Ec & Hr); [set_solver|set_solver|done|apply ex_root|by apply ex_no_NUL|].
  rewrite decide_False in Hr by (intros Hin; inversion Hin). destruct Hr as (_ & _ & S).
  unfold ex_created. rewrite Ec. exact S.
Qed.

Lemma directory_roundtrip_witness :
  ∃ e1 ri' ra' e2,
    readdir 1 [] ex_created = Ok (yfs.OK, [lit "2147483649"; lit "f"], e1) ∧
    lookup 1 (lit "f" ++ NUL :: []) 0 (Attr 0 0 0 0) false e1 = Ok (yfs.OK, ri', ra', true, e2) ∧
    ri' = ex_inum ∧ a_size ra' = 0%Z.
Proof.
  destruct (directory_roundtrip 1 (lit "f") [] 0 (Attr 0 0 0 0) [] ex_created ex_created_content ∅ [(ex_inum, lit "f")]
    ex_created_at) as (e1 & r & ri' & ra' & fnd & e2 & E1 & E2 & Er & Ef & Hi & _).
  - set_solver.
  - split_and!; [reflexivity| |reflexivity]. apply Forall_singleton. split; [split; vm_compute; done|].
    split_and!; [discriminate|apply (bool_decide_eq_false_1 _)|apply ex_no_NUL]; reflexivity.
  - apply ex_no_NUL. reflexivity.
  - intros i Hi. vm_compute in Hi. injection Hi as <-. split_and!; [discriminate|set_solver|]. vm_compute. eauto.
  - subst r. destruct (Hi ex_inum eq_refl) as (-> & b & Hb & Hs).
    exists e1, ex_inum, ra', e2. split_and!; [exact E1| |reflexivity|].
    + rewrite E2, Ef. reflexivity.
    + vm_compute in Hb. injection Hb as <-. exact Hs.
Defined.

(** C14: Creating a file under a new inum (not the directory's, its lock free) in a
    directory of good entries, with a name that is not empty and holds neither a space
    nor a NUL, the directory's text staying below 2^31 bytes: a name that is taken is
    refused and nothing changes; otherwise the file is there, empty, is found under its
    name by the next lookup, every other name is found as before, and no lock is kept. *)
Theorem create_then_lookup {E} `{FsSpec E} p n rest i a (e : E) C L d m rest' :
  at_state e C L → p ∉ L → i ∉ L → p ≠ i → dir_of C p d → is_u64 i → name_ok n → NUL ∉ m →
  (size (dir_text (d ++ [(i, n)])) < 2 ^ 31)%Z →
  (∀ j, dir_lookup m (d ++ [(i, n)]) = Some j → j ≠ p ∧ j ∉ L) →
  ∃ r a' e', create p (n ++ NUL :: rest) i a e = Ok (r, a', e') ∧
    if decide (n ∈ d.*2) then r = yfs.EXIST ∧ at_state e' C L
    else r = yfs.OK ∧ a_size a' = 0%Z ∧
      at_state e' (<[p := dir_text (d ++ [(i, n)])]> (<[i := []]> C)) L ∧
      ∃ r2 ri ra fnd e2,
        lookup p (m ++ NUL :: rest') 0 (Attr 0 0 0 0) false e' = Ok (r2, ri, ra, fnd, e2) ∧
        fnd = bool_decide (m = n ∨ is_Some (dir_lookup m d)) ∧
        (m = n → r2 = yfs.OK ∧ ri = i ∧ a_size ra = 0%Z) ∧
        (∀ j, dir_lookup m d = Some j → ri = j).
Proof.
  intros S Hp Hi Hne Hd Hi64 Hn Hm Hsz Hl.
  destruct (create_spec p n rest i a e C L d S Hp Hi Hne Hd (proj2 (proj2 Hn))) as (r & a' & e' & Ec & Hr).
  exists r, a', e'. split; [done|]. destruct (decide (n ∈ d.*2)) as [Hin|Hin]; [naive_solver|].
  destruct Hr as (-> & Ha & S'). split_and!; [done..|].
  assert (dir_of (<[p := dir_text (d ++ [(i, n)])]> (<[i := []]> C)) p (d ++ [(i, n)])) as Hd'.
  { split_and!; [apply lookup_insert_eq| |done]. destruct Hd as (_ & Hok & _).
    apply Forall_app. split; [done|]. apply Forall_singleton. by split. }
  destruct (lookup_spec p m rest' 0 (Attr 0 0 0 0) e' _ L _ S' Hp Hd' Hm Hl)
    as (r2 & ri & ra & fnd & e2 & E2 & _ & Hr2).
  exists r2, ri, ra, fnd, e2. split; [done|].
  assert (dir_lookup m (d ++ [(i, n)])
    = match dir_lookup m d with Some j => Some j | None => if decide (m = n) then Some i else None end)
    as El.
  { clear. induction d as [|[j k] d IH]; simpl; [done|]. rewrite IH. by destruct (decide (m = k)). }
  rewrite El in Hr2. destruct (dir_lookup m d) as [j|] eqn:Ej.
  - assert (m ≠ n) as Hmn.
    { intros ->. apply Hin. apply list_elem_of_fmap. exists (j, n). split; [done|].
      by apply dir_lookup_elem. }
    destruct Hr2 as (-> & -> & _). split_and!; [by rewrite bool_decide_true by eauto|done|naive_solver].
  - destruct (decide (m = n)) as [->|Hmn].
    + destruct Hr2 as (-> & -> & Hr2).
      rewrite lookup_insert_ne, lookup_insert_eq in Hr2 by done. destruct Hr2 as [-> Hra].
      split_and!; [by rewrite bool_decide_true by auto|done|done].
    + destruct Hr2 as (-> & ->). split_and!; [|done|done].
      rewrite bool_decide_false; [done|]. intros [?|[? ?]]; done.
Qed.

Lemma create_then_lookup_witness :
  ∃ r a' e', create 1 (lit "f" ++ NUL :: []) 2147483649 (Attr 0 0 0 0) ex_stack = Ok (r, a', e') ∧
    r = yfs.OK ∧
    at_state e' (<[1%Z := dir_text ([] ++ [(2147483649%Z, lit "f")])]>
      (<[2147483649%Z := []]> {[1%Z := []]})) ∅.
Proof.
  destruct (create_then_lookup 1 (lit "f") [] 2147483649 (Attr 0 0 0 0) ex_stack {[1%Z := []]} ∅ []
    (lit "f") []) as (r & a' & e' & Ec & Hr).
  - apply ex_stack_at.
  - set_solver.
  - set_solver.
  - discriminate.
  - apply ex_root.
  - lia.
  - split_and!; [done|..]; vm_compute; intros Hin; inversion Hin as [|? ? ? Hin']; subst; inversion Hin'.
  - vm_compute. intros Hin; inversion Hin as [|? ? ? Hin']; subst; inversion Hin'.
  - vm_compute. reflexivity.
  - intros j Hj. vm_compute in Hj. injection Hj as <-. split; [discriminate|set_solver].
  - rewrite decide_False in Hr by (intros Hin; inversion Hin).
    destruct Hr as (Hr & _ & S & _). exists r, a', e'. split; [exact Ec|]. split; [exact Hr|exact S].
Defined.

(** ** File data *)

Lemma splice_read b off data :
  (0 <= off)%Z → take (length data) (drop (Z.to_nat off) (splice b off data)) = data.
Proof.
  intros Hoff. unfold splice. set (o := Z.to_nat off).
  rewrite app_assoc, drop_app_length'; [by apply take_app_length|].
  rewrite length_app, length_take, length_replicate. lia.
Qed.

(** C16: Writing text to a file that is not empty.  If the buffer holds [size] bytes
    without a NUL and then a NUL (the code makes a C string of it), and the size of the
    file modulo 2^32 is not zero, the write puts the bytes at the offset, keeps what is
    before and after, and fills a gap behind the old end with zeros; a read of the same
    range then returns the bytes.  No lock is kept. *)
Theorem write_then_read {E} `{FsSpec E} i data rest off buf (e : E) C L b :
  at_state e C L → i ∉ L → C !! i = Some b → NUL ∉ data → u32 (size b) ≠ 0%Z →
  (0 <= off)%Z → (off + size data < 2 ^ 63)%Z → (size b < 2 ^ 63)%Z →
  ∃ e1 e2, write i (data ++ NUL :: rest) (size data) off e = Ok (yfs.OK, e1) ∧
    at_state e1 (<[i := splice b off data]> C) L ∧
    read i (size data) off buf e1 = Ok (yfs.OK, data, e2) ∧
    at_state e2 (<[i := splice b off data]> C) L.
Proof.
  intros S Hi Hb Hn Hne Hoff Hsum Hsz. pose proof (size_nonneg data).
  destruct (write_spec i data rest off e C L b S Hi Hb Hn Hne Hoff Hsum Hsz) as (e1 & E1 & S1).
  destruct (read_spec i (size data) off buf e1 _ L (splice b off data) S1 Hi) as (e2 & E2 & S2);
    [apply lookup_insert_eq|lia|lia|].
  exists e1, e2. split_and!; [done..| |done]. by rewrite E2, to_nat_size, splice_read.
Qed.

(** A stack with a file of three bytes. *)
Definition ex_file : stack :=
  set_extents ex_stack (ec_put 1000 9 (lit "abc") new_extent_client).2 (new_extent_server 1000).

Lemma ex_file_at : at_state ex_file (<[9%Z := lit "abc"]> {[1%Z := []]}) ∅.
Proof.
  destruct (ec_put_spec 1000 9 (lit "abc") _ _ (new_client_ok 1000)) as (c & Ec & Hc & Hv & Hne & _).
  split_and!.
  - split_and!; [done| |by apply new_stack_ok].
    change (sk_ec ex_file) with (ec_put 1000 9 (lit "abc") new_extent_client).2. rewrite Ec. exact Hc.
  - apply map_eq. intros i. change (content ex_file) with (stack_content ex_file).
    rewrite stack_content_view. unfold view. simpl. destruct (decide (i = 9%Z)) as [->|Hi].
    + by rewrite !lookup_insert_eq.
    + rewrite !lookup_insert_ne by done. by rewrite lookup_empty.
  - change (locks ex_file) with (stack_locks ex_file). apply stack_locks_ext. intros i.
    unfold lockstate. simpl. rewrite lookup_empty. simpl. set_solver.
Qed.

Lemma write_then_read_witness :
  ∃ e1 e2, write 9 (lit "XY" ++ NUL :: []) 2 5 ex_file = Ok (yfs.OK, e1) ∧
    at_state e1 (<[9%Z := splice (lit "abc") 5 (lit "XY")]> (<[9%Z := lit "abc"]> {[1%Z := []]})) ∅ ∧
    read 9 2 5 [] e1 = Ok (yfs.OK, lit "XY", e2).
Proof.
  destruct (write_then_read 9 (lit "XY") [] 5 [] ex_file _ ∅ (lit "abc") ex_file_at)
    as (e1 & e2 & E1 & S1 & E2 & _).
  - set_solver.
  - apply lookup_insert_eq.
  - vm_compute. intros Hin. inversion Hin as [|? ? ? Hin']; subst.
    inversion Hin' as [|? ? ? Hin'']; subst; inversion Hin''.
  - discriminate.
  - lia.
  - done.
  - done.
  - exists e1, e2. split; [exact E1|]. split; [exact S1|exact E2].
Defined.

(** A write to an empty file ignores the offset: the bytes land at the front, and
    the gap before the offset is not filled. *)
Theorem write_to_empty_ignores_offset {E} `{FsSpec E} i data rest off (e : E) C L :
  at_state e C L → i ∉ L → C !! i = Some [] → NUL ∉ data →
  ∃ e', write i (data ++ NUL :: rest) (size data) off e = Ok (yfs.OK, e') ∧
    at_state e' (<[i := data]> C) L ∧
    ((0 < off)%Z → data ≠ [] → data ≠ splice [] off data).
Proof.
  intros S Hi Hb Hn.
  destruct (write_empty_spec i data rest off e C L S Hi Hb Hn) as (e' & E' & S').
  exists e'. split_and!; [done..|]. intros Hoff Hd Heq. apply (f_equal length) in Heq. revert Heq.
  unfold splice. rewrite !length_app, length_replicate, length_take, length_drop. simpl. lia.
Qed.

Lemma write_to_empty_ignores_offset_witness :
  ∃ e', write 1 (lit "x" ++ NUL :: []) 1 4096 ex_stack = Ok (yfs.OK, e') ∧
    at_state e' (<[1%Z := lit "x"]> {[1%Z := []]}) ∅.
Proof.
  destruct (write_to_empty_ignores_offset 1 (lit "x") [] 4096 ex_stack _ ∅ ex_stack_at)
    as (e' & E' & S' & _).
  - set_solver.
  - reflexivity.
  - vm_compute. intros Hin. inversion Hin as [|? ? ? Hin']; subst; inversion Hin'.
  - exists e'. split; [exact E'|exact S'].
Defined.

(** Setting the size of a file cuts it or pads it with zeros, to exactly the given
    size; nothing else changes and no lock is kept. *)
Theorem updatesize_resizes {E} `{FsSpec E} i n (e : E) C L b :
  at_state e C L → i ∉ L → C !! i = Some b → (size b < 2 ^ 32)%Z → (0 <= n)%Z →
  ∃ e' b', updatesize i n e = Ok (yfs.OK, e') ∧ at_state e' (<[i := b']> C) L ∧
    size b' = n ∧ take (Z.to_nat n) b `prefix_of` b' ∧
    (∀ k, length b ≤ k → (Z.of_nat k < n)%Z → b' !! k = Some NUL).
Proof.
  intros S Hi Hb Hsz Hn. destruct (updatesize_spec i n e C L b S Hi Hb Hsz Hn) as (e' & E' & S').
  exists e', (resized b n). split_and!; [done..| | |]; unfold resized.
  - rewrite size_app, size_replicate. unfold size. rewrite length_take. lia.
  - by eexists.
  - intros k Hk Hkn. rewrite lookup_app_r by (rewrite length_take; lia).
    apply lookup_replicate. split; [done|]. rewrite length_take. lia.
Qed.

Lemma updatesize_resizes_witness :
  ∃ e' b', updatesize 9 5 ex_file = Ok (yfs.OK, e') ∧
    at_state e' (<[9%Z := b']> (<[9%Z := lit "abc"]> {[1%Z := []]})) ∅ ∧ size b' = 5%Z.
Proof.
  destruct (updatesize_resizes 9 5 ex_file _ ∅ (lit "abc") ex_file_at) as (e' & b' & E' & S' & Hs & _).
  - set_solver.
  - apply lookup_insert_eq.
  - done.
  - lia.
  - exists e', b'. split; [exact E'|]. split; [exact S'|exact Hs].
Defined.

Lemma missing_ops {E} `{FsSpec E} i sz off buf mem s (e : E) C L :
  at_state e C L → i ∉ L → C !! i = None → c_string mem = Ok s →
  (∃ e', read i sz off buf e = Ok (yfs.IOERR, buf, e') ∧ at_state e' C L) ∧
  (∃ e', write i mem sz off e = Ok (yfs.IOERR, e') ∧ at_state e' C L) ∧
  (∃ e', updatesize i sz e = Ok (yfs.IOERR, e') ∧ at_state e' C L).
Proof.
  intros S Hi Hnone Hmem.
  assert (L = ({[i]} ∪ L) ∖ {[i]}) as HL by set_solver.
  destruct (acquire_at i e C L S Hi) as (e1 & Eacq & S1).
  assert (∀ e2, at_state e2 C ({[i]} ∪ L) → ∃ e3, lc_release i e2 = Ok e3 ∧ at_state e3 C L) as Hrel.
  { intros e2 S2. destruct (release_at i e2 _ _ S2) as (e3 & E3 & S3); [set_solver|].
    rewrite <- HL in S3. eauto. }
  destruct (get_at i [] e1 _ _ S1 ltac:(set_solver)) as (e2 & Eget & S2).
  destruct (getattr_at i (Attr 0 0 0 0) e1 _ _ S1 ltac:(set_solver)) as (a & e3 & Eattr & _ & S3).
  destruct (Hrel _ S2) as (e4 & Erel2 & S4). destruct (Hrel _ S3) as (e5 & Erel3 & S5).
  rewrite (found_None _ _ Hnone) in *.
  split_and!.
  - unfold read. rewrite Eacq. run. rewrite Eget. run. rewrite decide_True by done. run.
    rewrite Erel2. run. eauto.
  - unfold write. rewrite Eacq. run. rewrite Hmem. run. rewrite Eget. run.
    rewrite decide_True by done. run. rewrite Erel2. run. eauto.
  - unfold updatesize. rewrite Eacq. run. rewrite Eattr. run. rewrite decide_True by done. run.
    rewrite Erel3. run. eauto.
Qed.

(** Operations on an inum that does not exist return IOERR, change nothing and
    give back the lock they took. *)
Theorem missing_extent_errors {E} `{FsSpec E} i sz off buf mem s fin din (e : E) C L :
  at_state e C L → i ∉ L → C !! i = None → c_string mem = Ok s →
  (∃ e', getfile i fin e = Ok (yfs.IOERR, fin, e') ∧ at_state e' C L) ∧
  (∃ e', getdir i din e = Ok (yfs.IOERR, din, e') ∧ at_state e' C L) ∧
  (∃ e', read i sz off buf e = Ok (yfs.IOERR, buf, e') ∧ at_state e' C L) ∧
  (∃ e', write i mem sz off e = Ok (yfs.IOERR, e') ∧ at_state e' C L) ∧
  (∃ e', updatesize i sz e = Ok (yfs.IOERR, e') ∧ at_state e' C L).
Proof.
  intros S Hi Hnone Hmem. split_and!.
  - destruct (getfile_spec i fin e C L S Hi) as (r & fin' & e' & -> & S' & Hr). rewrite Hnone in Hr.
    destruct Hr as [-> ->]. eauto.
  - destruct (getdir_spec i din e C L S Hi) as (r & din' & e' & -> & S' & Hr). rewrite Hnone in Hr.
    destruct Hr as [-> ->]. eauto.
  - by apply (missing_ops i sz off buf mem s e C L).
  - by apply (missing_ops i sz off buf mem s e C L).
  - by apply (missing_ops i sz off buf mem s e C L).
Qed.

Lemma missing_extent_errors_witness :
  ∃ e', write 77 (lit "x" ++ [NUL]) 1 0 ex_stack = Ok (yfs.IOERR, e') ∧ at_state e' {[1%Z := []]} ∅.
Proof.
  destruct (missing_extent_errors 77 1 0 [] (lit "x" ++ [NUL]) (lit "x") (Fileinfo 0 0 0 0)
    (Dirinfo 0 0 0) ex_stack _ ∅ ex_stack_at) as (_ & _ & _ & Hw & _).
  - set_solver.
  - reflexivity.
  - reflexivity.
  - exact Hw.
Defined.

(** ** Removing files *)

Lemma unlinked_lookup d i n m :
  no_clash i n d →
  dir_lookup m (filter (λ x, x ≠ (i, n)) d) = if decide (m = n) then None else dir_lookup m d.
Proof.
  induction d as [|[j k] d IH]; intros Hc; [by case_decide|].
  specialize (IH ltac:(intros j' m' Hin; apply Hc; by right)). rewrite filter_cons. simpl.
  destruct (Hc j k ltac:(left)) as [[= -> ->]|(_ & _ & Hk & _)].
  - rewrite decide_False by tauto. rewrite IH. by destruct (decide (m = n)).
  - rewrite decide_True by (intros [= _ ?]; done). simpl. rewrite IH.
    destruct (decide (m = k)) as [->|]; [by rewrite decide_False|done].
Qed.

(** Unlinking a file whose inum and name occur nowhere else in its directory removes
    exactly that entry: the name is gone, every other name is found as before, and the
    file's extent is emptied.  Unlinking a name that is not there returns NOENT and
    changes nothing. *)
Theorem unlink_removes_entry {E} `{FsSpec E} p n rest (e : E) C L d :
  at_state e C L → p ∉ L → dir_of C p d → NUL ∉ n →
  (∀ i, dir_lookup n d = Some i → i ∉ L ∧ i ≠ p ∧ isfile i = true ∧ no_clash i n d) →
  ∃ r e', unlink p (n ++ NUL :: rest) e = Ok (r, e') ∧
    match dir_lookup n d with
    | None => r = yfs.NOENT ∧ at_state e' C L
    | Some i => r = yfs.OK ∧ ∃ d',
        content e' = <[i := []]> (<[p := dir_text d']> C) ∧
        ∀ m, dir_lookup m d' = if decide (m = n) then None else dir_lookup m d
    end.
Proof.
  intros S Hp Hd Hn Hi. destruct (dir_lookup n d) as [i|] eqn:El.
  - destruct (Hi i eq_refl) as (HiL & Hip & Hf & Hc).
    destruct (unlink_spec p n rest i e C L d S Hp HiL Hip Hd Hn El Hf Hc) as (e' & E' & S').
    exists yfs.OK, e'. split; [done|]. split; [done|]. exists (filter (λ x, x ≠ (i, n)) d).
    split; [apply S'|]. intros m. by apply unlinked_lookup.
  - destruct (unlink_missing_spec p n rest e C L d S Hp Hd Hn) as (e' & E' & S');
      [by apply dir_lookup_None|]. eauto.
Qed.

(** A stack whose root directory has two files. *)
Definition ex_dir : list entry := [(2147483649%Z, lit "a"); (2147483650%Z, lit "b")].
Definition ex_dir_stack : stack :=
  set_extents ex_stack (ec_put 1000 1 (dir_text ex_dir) new_extent_client).2 (new_extent_server 1000).

Lemma ex_dir_at : at_state ex_dir_stack (<[1%Z := dir_text ex_dir]> {[1%Z := []]}) ∅.
Proof.
  destruct (ec_put_spec 1000 1 (dir_text ex_dir) _ _ (new_client_ok 1000)) as (c & Ec & Hc & _).
  split_and!.
  - split_and!; [done| |by apply new_stack_ok].
    change (sk_ec ex_dir_stack) with (ec_put 1000 1 (dir_text ex_dir) new_extent_client).2.
    rewrite Ec. exact Hc.
  - apply map_eq. intros i. change (content ex_dir_stack) with (stack_content ex_dir_stack).
    rewrite stack_content_view. unfold view. cbn. destruct (decide (i = 1%Z)) as [->|Hi].
    + by rewrite !lookup_insert_eq.
    + rewrite !lookup_insert_ne by done. by rewrite lookup_empty.
  - change (locks ex_dir_stack) with (stack_locks ex_dir_stack). apply stack_locks_ext. intros i.
    unfold lockstate. simpl. rewrite lookup_empty. simpl. set_solver.
Qed.

Ltac not_in := let H := fresh in vm_compute; intros H;
  repeat (let H' := fresh in inversion H as [|? ? ? H']; subst; clear H; rename H' into H); inversion H.

Lemma ex_dir_ok : dir_of (<[1%Z := dir_text ex_dir]> {[1%Z := []]}) 1 ex_dir.
Proof.
  split_and!; [apply lookup_insert_eq| |by vm_compute].
  repeat constructor; try done; not_in.
Qed.

Lemma ex_dir_no_clash : no_clash 2147483649 (lit "a") ex_dir.
Proof.
  intros j m [Hj|[Hj|[]%not_elem_of_nil]%elem_of_cons]%elem_of_cons; injection Hj as -> ->; [by left|right].
  by split_and!; vm_compute.
Qed.

Lemma unlink_removes_entry_witness :
  ∃ r e', unlink 1 (lit "a" ++ [NUL]) ex_dir_stack = Ok (r, e') ∧ r = yfs.OK.
Proof.
  destruct (unlink_removes_entry 1 (lit "a") [] ex_dir_stack _ ∅ ex_dir ex_dir_at)
    as (r & e' & E' & Hr).
  - set_solver.
  - apply ex_dir_ok.
  - not_in.
  - intros i Hi. vm_compute in Hi. injection Hi as <-. split_and!; [set_solver|done|done|].
    apply ex_dir_no_clash.
  - exists r, e'. split; [exact E'|]. change (dir_lookup (lit "a") ex_dir) with (Some 2147483649%Z) in Hr.
    apply Hr.
Defined.

Lemma stack_acquire_held i e : i ∈ stack_locks e → stack_acquire i e = Fault Deadlock.
Proof.
  intros Hi%elem_of_stack_locks. unfold stack_acquire, acquire_look. by rewrite lockstate_enter, Hi.
Qed.

(** A successful unlink takes the lock of the file and does not give it back: the
    next operation of the client on that inum waits for ever. *)
Theorem unlink_keeps_lock p n rest i (e : stack) C L d fin :
  at_state e C L → p ∉ L → i ∉ L → i ≠ p → dir_of C p d → NUL ∉ n →
  dir_lookup n d = Some i → isfile i = true → no_clash i n d →
  ∃ e', unlink p (n ++ NUL :: rest) e = Ok (yfs.OK, e') ∧ stack_locks e' = {[i]} ∪ L ∧
    getfile i fin e' = Fault Deadlock.
Proof.
  intros S Hp Hi Hip Hd Hn Hl Hf Hc.
  destruct (unlink_spec p n rest i e C L d S Hp Hi Hip Hd Hn Hl Hf Hc) as (e' & E' & S').
  exists e'. split; [done|]. destruct S' as (_ & _ & HL). change (stack_locks e' = {[i]} ∪ L) in HL.
  split; [done|]. unfold getfile. cbn [lc_acquire stack_ops].
  rewrite stack_acquire_held; [done|]. rewrite HL. set_solver.
Qed.

Lemma unlink_keeps_lock_witness :
  ∃ e', unlink 1 (lit "a" ++ [NUL]) ex_dir_stack = Ok (yfs.OK, e') ∧
    getfile 2147483649 (Fileinfo 0 0 0 0) e' = Fault Deadlock.
Proof.
  destruct (unlink_keeps_lock 1 (lit "a") [] 2147483649 ex_dir_stack _ ∅ ex_dir (Fileinfo 0 0 0 0) ex_dir_at)
    as (e' & E' & _ & Hg).
  - set_solver.
  - set_solver.
  - discriminate.
  - apply ex_dir_ok.
  - not_in.
  - reflexivity.
  - reflexivity.
  - apply ex_dir_no_clash.
  - exists e'. split; [exact E'|exact Hg].
Defined.

(** Unlink drops every token of the directory that equals the inum or the name, not
    only the two of the entry: with a file named as the inum of another, unlinking one
    leaves a directory in which the other can no longer be found. *)
Theorem unlink_clash_corrupts :
  ∃ d i n m, Forall entry_ok d ∧ NoDup d.*1 ∧ NoDup d.*2 ∧ dir_lookup n d = Some i ∧ m ≠ n ∧
    is_Some (dir_lookup m d) ∧
    ∃ s kv, substr (without (filename i) n (tokens d)) 0
              (u64 (size (without (filename i) n (tokens d)) - 1)) = Ok s ∧
      split s sep = Ok kv ∧ find_entry m kv = None.
Proof.
  exists [(2147483649%Z, lit "a"); (2147483650%Z, lit "2147483649"); (2147483651%Z, lit "c")],
    2147483649%Z, (lit "a"), (lit "2147483649").
  split_and!.
  - repeat constructor; try done; not_in.
  - apply NoDup_cons; split; [not_in|]. apply NoDup_cons; split; [not_in|]. apply NoDup_singleton.
  - apply NoDup_cons; split; [not_in|]. apply NoDup_cons; split; [not_in|]. apply NoDup_singleton.
  - reflexivity.
  - discriminate.
  - by eexists.
  - do 2 eexists. split; [vm_compute; reflexivity|]. split; [vm_compute; reflexivity|]. reflexivity.
Qed.

(** A name with a space in it is accepted by create and breaks the directory: the
    new file is not found under its name, and a file created after it is not either. *)
Theorem space_in_name_breaks_directory :
  ('(r1, _, e1) ← create 1 (lit "a b" ++ [NUL]) 2147483649 (Attr 0 0 0 0) ex_stack;
   '(r2, _, e2) ← create 1 (lit "c" ++ [NUL]) 2147483650 (Attr 0 0 0 0) e1;
   '(_, _, _, found1, e3) ← lookup 1 (lit "a b" ++ [NUL]) 0 (Attr 0 0 0 0) false e2;
   '(_, _, _, found2, _) ← lookup 1 (lit "c" ++ [NUL]) 0 (Attr 0 0 0 0) false e3;
   Ok (r1, r2, found1, found2))
  = Ok (yfs.OK, yfs.OK, false, false).
Proof. vm_compute. reflexivity. Qed.
