(* ===== verification/Tree.v ===== *)
(** * The file system as a tree

    What yfs_client.cc promises to the FUSE layer: files with contents, directories with
    entries, and no text, inum tokens or locks.  Each operation as a function on such a
    tree, with the conditions under which the code is meant to be used as its guards
    ([None] elsewhere), and the refinement: the code, over any implementation of its
    interface, does what the tree does. *)

From stdpp Require Import base tactics numbers list gmap sets strings.
From Stdlib Require Import ZArith Lia Ascii.
From S2P Require Import Prelude CxxString Marshall Connection RpcServer RpcTime RpcClient RpcCall ExtentServer ExtentClient Coherence LockServer LockClient LockProtocol Cluster YfsClient Serial History Distributed Stack FileSystem.
Import extent_protocol (attr, Attr, atime, mtime, ctime, a_size).

Inductive node := File (b : bytes) | Dir (d : list entry).

(** The nodes by inum, and the inums that were unlinked, which are not used again: the
    code keeps their locks. *)
Record tree := Tree { nodes : gmap Z node; gone : gset Z }.

(** What is stored for a node. *)
Definition stored (x : node) : bytes := match x with File b => b | Dir d => dir_text d end.

(** A name that unlink cannot take for an inum, nor the directory's text for two tokens. *)
Definition good_name (n : bytes) : Prop :=
  n ≠ [] ∧ space ∉ n ∧ NUL ∉ n ∧ Exists (λ c, is_digit c = false) n.

(** ** The operations *)
Inductive answer :=
  | AStatus (r : Z)
  | AFile (r sz : Z)
  | ADir (r : Z)
  | AAttr (r sz : Z)
  | AFound (i sz : Z)
  | AAbsent
  | ANames (d : list entry)
  | ABytes (b : bytes).

Definition matches (a : answer) (r : yres) : Prop :=
  match a, r with
  | AStatus st, RStatus st' => st = st'
  | AFile st sz, RFile st' fin => st = st' ∧ fi_size fin = sz
  | ADir st, RDir st' _ => st = st'
  | AAttr st sz, RAttr st' a => st = st' ∧ a_size a = sz
  | AFound i sz, RLookup st i' a fnd => st = yfs.OK ∧ i' = i ∧ a_size a = sz ∧ fnd = true
  | AAbsent, RLookup st _ _ fnd => st = yfs.OK ∧ fnd = false
  | ANames d, RNames st toks => st = yfs.OK ∧ toks = tokens d
  | ABytes b, RBytes st b' => st = yfs.OK ∧ b' = b
  | _, _ => False
  end.

Definition the_file (T : tree) (i : Z) : option bytes :=
  match nodes T !! i with Some (File b) => Some b | _ => None end.
Definition the_dir (T : tree) (p : Z) : option (list entry) :=
  match nodes T !! p with Some (Dir d) => Some d | _ => None end.
Definition set_node (i : Z) (x : node) (T : tree) : tree := Tree (<[i := x]> (nodes T)) (gone T).
Definition name_of (mem : bytes) : option bytes := match c_string mem with Ok n => Some n | Fault _ => None end.

(** A new node in directory [p]. *)
Definition tree_link (p : Z) (mem : bytes) (i : Z) (x : node) (T : tree) : option (bool * tree) :=
  d ← the_dir T p;
  n ← name_of mem;
  if decide (good_name n ∧ nodes T !! i = None ∧ i ∉ gone T ∧ is_u64 i ∧
             (size (dir_text (d ++ [(i, n)])) < 2 ^ 31)%Z)
  then if decide (n ∈ d.*2) then Some (false, T)
       else Some (true, set_node p (Dir (d ++ [(i, n)])) (set_node i x T))
  else None.

Definition tree_step (o : yop) (T : tree) : option (answer * tree) :=
  match o with
  | OGetfile i => b ← the_file T i; Some (AFile yfs.OK (size b), T)
  | OGetdir i => _ ← the_dir T i; Some (ADir yfs.OK, T)
  | OCreate p mem i =>
      if isfile i then
        '(new, T) ← tree_link p mem i (File []) T;
        Some (AAttr (if (new : bool) then yfs.OK else yfs.EXIST) 0, T)
      else None
  | OMkdir p mem i =>
      if isfile i then None else
        '(new, T) ← tree_link p mem i (Dir []) T;
        Some (AStatus (if (new : bool) then yfs.OK else yfs.EXIST), T)
  | OLookup p mem =>
      d ← the_dir T p;
      n ← name_of mem;
      Some (match dir_lookup n d with
            | Some i => AFound i (from_option (λ x, size (stored x)) 0%Z (nodes T !! i))
            | None => AAbsent
            end, T)
  | OReaddir p => d ← the_dir T p; Some (ANames d, T)
  | OUpdatesize i n =>
      b ← the_file T i;
      if decide (0 <= n < 2 ^ 32)%Z then Some (AStatus yfs.OK, set_node i (File (resized b n)) T) else None
  | ORead i sz off =>
      b ← the_file T i;
      if decide ((0 <= sz)%Z ∧ (0 <= off < 2 ^ 63)%Z)
      then Some (ABytes (take (Z.to_nat sz) (drop (Z.to_nat off) b)), T) else None
  | OWrite i mem sz off =>
      b ← the_file T i;
      data ← name_of mem;
      (* not past the start of an empty file, where the code forgets the offset *)
      if decide (size data = sz ∧ (0 <= off)%Z ∧ (off + sz < 2 ^ 32)%Z ∧ (b ≠ [] ∨ off = 0%Z))
      then Some (AStatus yfs.OK, set_node i (File (splice b off data)) T)
      else None
  | OUnlink p mem =>
      d ← the_dir T p;
      n ← name_of mem;
      Some (match dir_lookup n d with
            | None => (AStatus yfs.NOENT, T)
            | Some i =>
                if isdir i then (AStatus yfs.IOERR, T)
                else (AStatus yfs.OK,
                      Tree (delete i (<[p := Dir (filter (λ x, x ≠ (i, n)) d)]> (nodes T))) ({[i]} ∪ gone T))
            end)
  end.

(** ** Well-formed trees *)
Record wf (T : tree) : Prop := Wf {
  wf_file i b : nodes T !! i = Some (File b) → isfile i = true ∧ i ∉ gone T ∧ (size b < 2 ^ 32)%Z;
  wf_dir p d : nodes T !! p = Some (Dir d) →
    isfile p = false ∧ p ∉ gone T ∧ NoDup d.*2 ∧ (size (dir_text d) < 2 ^ 31)%Z;
  (* an entry names a node that is there *)
  wf_link p d i n : nodes T !! p = Some (Dir d) → (i, n) ∈ d →
    is_u64 i ∧ good_name n ∧ is_Some (nodes T !! i) ∧ i ∉ gone T ∧ i ≠ p;
  (* and a node has one entry *)
  wf_once p q d d' i n m : nodes T !! p = Some (Dir d) → nodes T !! q = Some (Dir d') →
    (i, n) ∈ d → (i, m) ∈ d' → p = q ∧ n = m }.

Lemma good_name_ok n : good_name n → name_ok n.
Proof. intros (? & ? & ? & _). by split_and!. Qed.

Lemma good_not_filename n j : good_name n → (0 <= j)%Z → filename j ≠ n.
Proof.
  intros (_ & _ & _ & Hx) Hj <-. pose proof (show_u64_digits j Hj) as Hd.
  apply Exists_exists in Hx as (c & Hin & Hc). rewrite Forall_forall in Hd. apply Hd in Hin. congruence.
Qed.

Lemma filename_inj i j : is_u64 i → is_u64 j → filename i = filename j → i = j.
Proof. intros Hi Hj E. rewrite <- (scan_show_u64 i), <- (scan_show_u64 j) by done. by f_equal. Qed.

Lemma unique_name (d : list entry) i j n : NoDup d.*2 → (i, n) ∈ d → (j, n) ∈ d → i = j.
Proof.
  induction d as [|[k m] d IH]; simpl; [by intros _ ?%not_elem_of_nil|].
  intros [Hni Hnd]%NoDup_cons Hi Hj. rewrite elem_of_cons in Hi, Hj.
  assert (∀ l, (l, n) ∈ d → n ∈ d.*2) as Hin by (intros l Hl; apply list_elem_of_fmap; by exists (l, n)).
  destruct Hi as [Ei|Hi], Hj as [Ej|Hj]; simplify_eq; [done|by apply Hin in Hj|by apply Hin in Hi|by apply IH].
Qed.

(** The extents that stand for a tree: one of an unlinked file stays, empty. *)
Definition extents (T : tree) : gmap Z bytes := (stored <$> nodes T) ∪ gset_to_gmap [] (gone T).

Lemma stored_at T i x : nodes T !! i = Some x → extents T !! i = Some (stored x).
Proof. intros Hi. apply lookup_union_Some_l. by rewrite lookup_fmap, Hi. Qed.

Lemma extents_set i x T : extents (set_node i x T) = <[i := stored x]> (extents T).
Proof. unfold extents, set_node. simpl. by rewrite fmap_insert, insert_union_l. Qed.

Lemma extents_unlink i p x T :
  i ≠ p → extents (Tree (delete i (<[p := x]> (nodes T))) ({[i]} ∪ gone T)) = <[i := []]> (<[p := stored x]> (extents T)).
Proof.
  intros Hip. unfold extents. cbn [nodes gone]. apply map_eq. intros j.
  rewrite fmap_delete, fmap_insert, gset_to_gmap_union_singleton, lookup_union.
  destruct (decide (j = i)) as [->|Hj].
  { rewrite lookup_delete_eq, !lookup_insert_eq. done. }
  rewrite lookup_delete_ne, !(lookup_insert_ne _ i j) by done. destruct (decide (j = p)) as [->|Hjp].
  - rewrite !lookup_insert_eq. by destruct (gset_to_gmap [] (gone T) !! p).
  - rewrite !lookup_insert_ne by done. by rewrite lookup_union.
Qed.

Section wf.
Context (T : tree) (Hwf : wf T).

Lemma wf_dir_of p d : nodes T !! p = Some (Dir d) → dir_of (extents T) p d.
Proof.
  intros Hp. destruct (wf_dir T Hwf p d Hp) as (_ & _ & _ & Hsz). split_and!; [by apply (stored_at T p (Dir d))| |done].
  apply Forall_forall. intros [i n] Hin. destruct (wf_link T Hwf p d i n Hp Hin) as (Hi & Hn & _).
  split; [done|by apply good_name_ok].
Qed.

Lemma wf_no_clash p d i n : nodes T !! p = Some (Dir d) → (i, n) ∈ d → no_clash i n d.
Proof.
  intros Hp Hin j m Hjm. destruct (decide ((j, m) = (i, n))) as [|Hne]; [by left|right].
  destruct (wf_link T Hwf p d i n Hp Hin) as (Hi & Hn & _), (wf_link T Hwf p d j m Hp Hjm) as (Hj & Hm & _).
  destruct (wf_dir T Hwf p d Hp) as (_ & _ & Hnd & _).
  assert (j ≠ i) as Hji by (intros ->; destruct (wf_once T Hwf p p d d i n m Hp Hp Hin Hjm) as [_ ->]; done).
  split_and!.
  - intros E. by apply Hji, filename_inj.
  - by apply good_not_filename; [|lia].
  - intros ->. by apply Hji, (unique_name d j i n).
  - intros E. symmetry in E. revert E. by apply good_not_filename; [|lia].
Qed.

Lemma the_file_Some i b : the_file T i = Some b → nodes T !! i = Some (File b) ∧ i ∉ gone T.
Proof.
  unfold the_file. intros H. repeat case_match; simplify_eq. split; [done|]. by eapply wf_file.
Qed.
Lemma the_dir_Some p d : the_dir T p = Some d → nodes T !! p = Some (Dir d).
Proof. unfold the_dir. intros H. repeat case_match; by simplify_eq. Qed.
End wf.
Lemma name_of_Some mem n : name_of mem = Some n → ∃ rest, mem = n ++ NUL :: rest ∧ NUL ∉ n.
Proof.
  unfold name_of. destruct (c_string mem) as [s|] eqn:E; [|done]. intros [= ->].
  apply c_string_no_NUL in E as (Hn & r & ->). eauto.
Qed.

(** ** The code does what the tree does *)
Section refinement.
Context {E : Type} `{FsSpec E}.

(** [unlink] of a directory. *)
Lemma unlink_dir_spec p n rest i e C L d :
  at_state e C L → p ∉ L → dir_of C p d → NUL ∉ n → dir_lookup n d = Some i → isdir i = true →
  ∃ e', unlink p (n ++ NUL :: rest) e = Ok (yfs.IOERR, e') ∧ at_state e' C L.
Proof.
  intros S Hp Hd Hn Hl Hf. pose proof Hd as (HC & Hok & _). unfold unlink. rewrite c_string_app by done. run.
  destruct (acquire_at p e C L S Hp) as (e1 & -> & S1). run.
  destruct (isExist_spec p n rest _ _ _ d S1) as (e2 & -> & S2); [set_solver|done|done|].
  rewrite bool_decide_true by (apply list_elem_of_fmap; exists (i, n); split; [done|by apply dir_lookup_elem]).
  run. cbn [negb]. destruct (get_at p [] e2 _ _ S2) as (e3 & -> & S3); [set_solver|]. run.
  rewrite (found_Some _ _ _ HC), HC, decide_False by naive_solver.
  change (default [] (Some (dir_text d))) with (dir_text d).
  rewrite (dir_split C p d Hd). run. rewrite find_entry_tokens, Hl. cbn [fmap option_fmap option_map deref]. run.
  assert (n2i (filename i) = i) as ->.
  { apply scan_show_u64. apply dir_lookup_elem in Hl. rewrite Forall_forall in Hok. by destruct (Hok _ Hl). }
  rewrite Hf. run. destruct (release_at p e3 _ _ S3) as (e4 & -> & S4); [set_solver|]. run.
  eexists. split; [done|]. by replace (({[p]} ∪ L) ∖ {[p]}) with L in S4 by set_solver.
Qed.

(** The state of the client that stands for a tree. *)
Definition shows (e : E) (T : tree) : Prop := at_state e (extents T) (gone T).

Lemma shows_set e T i x : shows e (set_node i x T) ↔ at_state e (<[i := stored x]> (extents T)) (gone T).
Proof. unfold shows. by rewrite extents_set. Qed.

Lemma tree_link_inv p mem i x T new T' :
  tree_link p mem i x T = Some (new, T') →
  ∃ d n rest, nodes T !! p = Some (Dir d) ∧ mem = n ++ NUL :: rest ∧ NUL ∉ n ∧ good_name n ∧
    nodes T !! i = None ∧ i ∉ gone T ∧ is_u64 i ∧ (size (dir_text (d ++ [(i, n)])) < 2 ^ 31)%Z ∧
    if decide (n ∈ d.*2) then new = false ∧ T' = T
    else new = true ∧ T' = set_node p (Dir (d ++ [(i, n)])) (set_node i x T).
Proof.
  unfold tree_link. intros Hl. apply bind_Some in Hl as (d & Hd%the_dir_Some & Hl).
  apply bind_Some in Hl as (n & (rest & -> & Hn)%name_of_Some & Hl). case_decide as Hc; [|done].
  destruct Hc as (Hg & Hi & Hgone & Hu & Hsz). exists d, n, rest. split_and!; try done; try lia.
  case_decide; by simplify_eq.
Qed.

Lemma splice_nil data : splice [] 0 data = data.
Proof. unfold splice. simpl. rewrite drop_nil. by rewrite app_nil_r. Qed.

Definition refines (o : yop) (e : E) (a : answer) (T' : tree) : Prop :=
  ∃ r e', run_op o e = Ok (r, e') ∧ matches a r ∧ shows e' T'.

Lemma step_attributes o e T a T' i :
  (o = OGetfile i ∨ o = OGetdir i) → wf T → shows e T → tree_step o T = Some (a, T') → refines o e a T'.
Proof.
  intros Ho Hwf S Ht. destruct Ho as [-> | ->]; cbn [tree_step] in Ht; apply bind_Some in Ht as (b & Hb & [= <- <-]).
  - apply (the_file_Some T Hwf) in Hb as [Hb Hg]. destruct (wf_file T Hwf i b Hb) as (_ & _ & Hsz). pose proof (size_nonneg b).
    destruct (getfile_spec i (Fileinfo 0 0 0 0) e _ _ S Hg) as (r & fin & e' & E1 & S' & Hr).
    rewrite (stored_at T i _ Hb) in Hr. destruct Hr as [-> Hs]. exists (RFile yfs.OK fin), e'. cbn [run_op].
    rewrite E1. run. split_and!; [done| |done]. split; [done|]. rewrite Hs. apply u32_small. simpl. lia.
  - apply the_dir_Some in Hb as Hb'. destruct (wf_dir T Hwf i b Hb') as (_ & Hg & _).
    destruct (getdir_spec i (Dirinfo 0 0 0) e _ _ S Hg) as (r & din & e' & E1 & S' & Hr).
    rewrite (stored_at T i _ Hb') in Hr. subst r. exists (RDir yfs.OK din), e'. cbn [run_op]. rewrite E1. run. done.
Qed.

Lemma step_create p mem i e T a T' :
  wf T → shows e T → tree_step (OCreate p mem i) T = Some (a, T') → refines (OCreate p mem i) e a T'.
Proof.
  intros Hwf S Ht. cbn [tree_step] in Ht. destruct (isfile i) eqn:Hf; [|done].
  apply bind_Some in Ht as ([new T1] & Hl & [= <- <-]).
  apply tree_link_inv in Hl as (d & n & rest & Hd & -> & Hn & Hg & Hi & Hgone & Hu & _ & Hnew).
  destruct (wf_dir T Hwf p d Hd) as (Hfp & Hpg & _). assert (p ≠ i) by congruence.
  destruct (create_spec p n rest i (Attr 0 0 0 0) e _ _ d S Hpg Hgone) as (r & a & e' & E1 & Hr);
    [done|by apply wf_dir_of|done|].
  exists (RAttr r a), e'. cbn [run_op]. rewrite E1. run. split; [done|]. case_decide.
  - destruct Hr as (-> & -> & S'), Hnew as [-> ->]. done.
  - destruct Hr as (-> & Hsz & S'), Hnew as [-> ->]. split; [done|]. apply shows_set.
    simpl. by rewrite extents_set.
Qed.

Lemma step_mkdir p mem i e T a T' :
  wf T → shows e T → tree_step (OMkdir p mem i) T = Some (a, T') → refines (OMkdir p mem i) e a T'.
Proof.
  intros Hwf S Ht. cbn [tree_step] in Ht. destruct (isfile i) eqn:Hf; [done|].
  apply bind_Some in Ht as ([new T1] & Hl & [= <- <-]).
  apply tree_link_inv in Hl as (d & n & rest & Hd & -> & Hn & Hg & Hi & Hgone & Hu & _ & Hnew).
  destruct (wf_dir T Hwf p d Hd) as (Hfp & Hpg & _). assert (p ≠ i) by congruence.
  destruct (mymkdir_spec p n rest i e _ _ d S Hpg Hgone) as (r & e' & E1 & Hr); [done|by apply wf_dir_of|done|].
  exists (RStatus r), e'. cbn [run_op]. rewrite E1. run. split; [done|]. case_decide.
  - destruct Hr as (-> & S'), Hnew as [-> ->]. done.
  - destruct Hr as (-> & S'), Hnew as [-> ->]. split; [done|]. apply shows_set. simpl. by rewrite extents_set.
Qed.

Lemma step_lookup p mem e T a T' :
  wf T → shows e T → tree_step (OLookup p mem) T = Some (a, T') → refines (OLookup p mem) e a T'.
Proof.
  intros Hwf S Ht. cbn [tree_step] in Ht. apply bind_Some in Ht as (d & Hd%the_dir_Some & Ht).
  apply bind_Some in Ht as (n & (rest & -> & Hn)%name_of_Some & [= <- <-]).
  destruct (wf_dir T Hwf p d Hd) as (Hfp & Hpg & _).
  destruct (lookup_spec p n rest 0 (Attr 0 0 0 0) e _ _ d S Hpg) as (r & ri & ra & fnd & e' & E1 & S' & Hr);
    [by apply wf_dir_of|done| |].
  { intros i Hi%dir_lookup_elem. by destruct (wf_link T Hwf p d i n Hd Hi) as (_ & _ & _ & ? & ?). }
  exists (RLookup r ri ra fnd), e'. cbn [run_op]. rewrite E1. run. split; [done|]. split; [|done].
  destruct (dir_lookup n d) as [i|] eqn:Hi; [|by destruct Hr as [-> ->]]. apply dir_lookup_elem in Hi.
  destruct (wf_link T Hwf p d i n Hd Hi) as (_ & _ & [x Hx] & _). destruct Hr as (-> & -> & Hr).
  rewrite (stored_at T i x Hx) in Hr. destruct Hr as [-> Hs]. rewrite Hx. simpl. split_and!; try done.
  rewrite Hs. apply u32_small. pose proof (size_nonneg (stored x)). destruct x as [b|d'].
  - destruct (wf_file T Hwf i b Hx) as (_ & _ & ?). simpl in *. lia.
  - destruct (wf_dir T Hwf i d' Hx) as (_ & _ & _ & ?). simpl in *. lia.
Qed.

Lemma step_readdir p e T a T' :
  wf T → shows e T → tree_step (OReaddir p) T = Some (a, T') → refines (OReaddir p) e a T'.
Proof.
  intros Hwf S Ht. cbn [tree_step] in Ht. apply bind_Some in Ht as (d & Hd%the_dir_Some & [= <- <-]).
  destruct (wf_dir T Hwf p d Hd) as (_ & Hpg & _).
  destruct (readdir_spec p [] e _ _ d S Hpg) as (e' & E1 & S'); [by apply wf_dir_of|].
  exists (RNames yfs.OK (tokens d)), e'. cbn [run_op]. rewrite E1. run. done.
Qed.

Lemma step_updatesize i n e T a T' :
  wf T → shows e T → tree_step (OUpdatesize i n) T = Some (a, T') → refines (OUpdatesize i n) e a T'.
Proof.
  intros Hwf S Ht. cbn [tree_step] in Ht. apply bind_Some in Ht as (b & [Hb Hg]%(the_file_Some T Hwf) & Ht).
  case_decide as Hn; [|done]. injection Ht as <- <-. destruct (wf_file T Hwf i b Hb) as (_ & _ & Hsz).
  destruct (updatesize_spec i n e _ _ b S Hg (stored_at T i _ Hb)) as (e' & E1 & S'); [done|lia|].
  exists (RStatus yfs.OK), e'. cbn [run_op]. rewrite E1. run. split; [done|]. split; [done|]. by apply shows_set.
Qed.

Lemma step_read i sz off e T a T' :
  wf T → shows e T → tree_step (ORead i sz off) T = Some (a, T') → refines (ORead i sz off) e a T'.
Proof.
  intros Hwf S Ht. cbn [tree_step] in Ht. apply bind_Some in Ht as (b & [Hb Hg]%(the_file_Some T Hwf) & Ht).
  case_decide as Hn; [|done]. injection Ht as <- <-.
  destruct (read_spec i sz off [] e _ _ b S Hg (stored_at T i _ Hb)) as (e' & E1 & S'); [lia|lia|].
  eexists (RBytes yfs.OK _), e'. cbn [run_op]. rewrite E1. run. done.
Qed.

Lemma step_write i mem sz off e T a T' :
  wf T → shows e T → tree_step (OWrite i mem sz off) T = Some (a, T') → refines (OWrite i mem sz off) e a T'.
Proof.
  intros Hwf S Ht. cbn [tree_step] in Ht. apply bind_Some in Ht as (b & [Hb Hg]%(the_file_Some T Hwf) & Ht).
  apply bind_Some in Ht as (data & (rest & -> & Hn)%name_of_Some & Ht). case_decide as Hc; [|done].
  destruct Hc as (<- & Hoff & Hsum & Hne). injection Ht as <- <-. destruct (wf_file T Hwf i b Hb) as (_ & _ & Hsz).
  assert (∃ e', write i (data ++ NUL :: rest) (size data) off e = Ok (yfs.OK, e') ∧
    shows e' (set_node i (File (splice b off data)) T)) as (e' & E1 & S').
  { setoid_rewrite shows_set. destruct (decide (b = [])) as [->|Hnil].
    - destruct Hne as [?| ->]; [done|]. rewrite splice_nil.
      by apply (write_empty_spec i data rest 0 e _ _ S Hg (stored_at T i _ Hb)).
    - pose proof (size_nonneg b).
      apply (write_spec i data rest off e _ _ b S Hg (stored_at T i _ Hb)); [done| |lia|lia|lia].
      rewrite u32_small by lia. by destruct b. }
  exists (RStatus yfs.OK), e'. cbn [run_op]. rewrite E1. run. done.
Qed.

Lemma step_unlink p mem e T a T' :
  wf T → shows e T → tree_step (OUnlink p mem) T = Some (a, T') → refines (OUnlink p mem) e a T'.
Proof.
  intros Hwf S Ht. cbn [tree_step] in Ht. apply bind_Some in Ht as (d & Hd%the_dir_Some & Ht).
  apply bind_Some in Ht as (n & (rest & -> & Hn)%name_of_Some & Ht). injection Ht as Ht.
  destruct (wf_dir T Hwf p d Hd) as (Hfp & Hpg & _). pose proof (wf_dir_of T Hwf p d Hd) as Hdo.
  destruct (dir_lookup n d) as [i|] eqn:Hi.
  2: { injection Ht as <- <-. destruct (unlink_missing_spec p n rest e _ _ d S Hpg Hdo Hn) as (e' & E1 & S').
       { by apply dir_lookup_None. }
       exists (RStatus yfs.NOENT), e'. cbn [run_op]. rewrite E1. run. done. }
  apply dir_lookup_elem in Hi as Hin. destruct (wf_link T Hwf p d i n Hd Hin) as (_ & _ & _ & Hig & Hip).
  destruct (isdir i) eqn:Hf; injection Ht as <- <-.
  - destruct (unlink_dir_spec p n rest i e _ _ d S Hpg Hdo Hn Hi Hf) as (e' & E1 & S').
    exists (RStatus yfs.IOERR), e'. cbn [run_op]. rewrite E1. run. done.
  - destruct (unlink_spec p n rest i e _ _ d S Hpg Hig Hip Hdo Hn Hi) as (e' & E1 & S').
    { by apply negb_false_iff. }
    { by eapply wf_no_clash. }
    exists (RStatus yfs.OK), e'. cbn [run_op]. rewrite E1. run. split; [done|]. split; [done|].
    unfold shows. by rewrite extents_unlink by done.
Qed.

Lemma tree_step_refines o e T a T' : wf T → shows e T → tree_step o T = Some (a, T') → refines o e a T'.
Proof.
  intros Hwf S Ht. destruct o; eauto using step_attributes, step_create, step_lookup, step_readdir,
    step_updatesize, step_read, step_write, step_mkdir, step_unlink.
Qed.
End refinement.

(** ** Well-formedness is kept *)
Lemma insert_keeps (m : gmap Z node) k v j : is_Some (m !! j) → is_Some (<[k := v]> m !! j).
Proof. rewrite lookup_insert_is_Some. destruct (decide (k = j)); auto. Qed.

Lemma wf_set_file T i b b' :
  wf T → nodes T !! i = Some (File b) → (size b' < 2 ^ 32)%Z → wf (set_node i (File b') T).
Proof.
  intros [Hfile Hdir Hlink Honce] Hi Hsz.
  assert (∀ p d, <[i := File b']> (nodes T) !! p = Some (Dir d) → nodes T !! p = Some (Dir d)) as Hd.
  { intros p d [[_ ?]|[_ ?]]%lookup_insert_Some; done. }
  split; cbn [nodes gone set_node].
  - intros j c [[<- [= <-]]|[_ Hj]]%lookup_insert_Some; [|by apply Hfile]. destruct (Hfile i b Hi) as (? & ? & _). done.
  - intros p d Hp%Hd. by apply Hdir.
  - intros p d j n Hp%Hd Hin. destruct (Hlink p d j n Hp Hin) as (? & ? & Hj & ? & ?). split_and!; try done; try lia.
    destruct (decide (i = j)) as [->|]; [rewrite lookup_insert_eq; eauto|by rewrite lookup_insert_ne].
  - intros p q d d' j n m Hp%Hd Hq%Hd. by apply Honce.
Qed.

Lemma wf_link_node T p d n i x :
  wf T → nodes T !! p = Some (Dir d) → good_name n → nodes T !! i = None → i ∉ gone T → is_u64 i →
  (size (dir_text (d ++ [(i, n)])) < 2 ^ 31)%Z → n ∉ d.*2 →
  (x = File [] ∧ isfile i = true ∨ x = Dir [] ∧ isfile i = false) →
  wf (set_node p (Dir (d ++ [(i, n)])) (set_node i x T)).
Proof.
  intros [Hfile Hdir Hlink Honce] Hp Hn Hi Hg Hu Hsz Hni Hx. assert (p ≠ i) as Hpi by congruence.
  (* a directory of the new tree, and its entries *)
  assert (∀ q d1, <[p := Dir (d ++ [(i, n)])]> (<[i := x]> (nodes T)) !! q = Some (Dir d1) →
    q = p ∧ d1 = d ++ [(i, n)] ∨ (q = i ∧ d1 = [] ∧ isfile i = false) ∨ nodes T !! q = Some (Dir d1)) as Hd.
  { intros q d1 [[<- [= <-]]|[_ [[<- ->]|[_ ?]]%lookup_insert_Some]]%lookup_insert_Some; naive_solver. }
  assert (∀ q d1 j m, <[p := Dir (d ++ [(i, n)])]> (<[i := x]> (nodes T)) !! q = Some (Dir d1) → (j, m) ∈ d1 →
    (q = p ∧ j = i ∧ m = n) ∨ ∃ d0, nodes T !! q = Some (Dir d0) ∧ (j, m) ∈ d0) as He.
  { intros q d1 j m [[-> ->]|[(-> & -> & _)|Hq]]%Hd Hin; [|by apply not_elem_of_nil in Hin|eauto].
    apply elem_of_app in Hin as [Hin|Hin]; [eauto|]. apply list_elem_of_singleton in Hin. naive_solver. }
  split; cbn [nodes gone set_node].
  - intros j b [[_ ?]|[_ [[<- ->]|[_ Hj]]%lookup_insert_Some]]%lookup_insert_Some; [done| |by apply Hfile].
    destruct Hx as [[[= ->] ?]|[? _]]; [|done]. done.
  - intros q d1 [[-> ->]|[(-> & -> & Hf)|Hq]]%Hd; [| |by apply Hdir].
    + destruct (Hdir p d Hp) as (? & ? & Hnd & _). split_and!; try done. rewrite fmap_app. simpl.
      apply NoDup_app. split; [done|]. split; [|apply NoDup_singleton]. set_solver.
    + split_and!; [done|done|constructor|done].
  - intros q d1 j m Hq Hin.
    assert (is_Some (nodes T !! j) ∨ j = i → is_Some (<[p := Dir (d ++ [(i, n)])]> (<[i := x]> (nodes T)) !! j)) as Hsome.
    { intros [Hj| ->]; apply insert_keeps; [by apply insert_keeps|]. rewrite lookup_insert_eq. eauto. }
    destruct (He q d1 j m Hq Hin) as [(-> & -> & ->)|(d0 & Hq0 & Hin0)]; [split_and!; try done; auto; lia|].
    destruct (Hlink q d0 j m Hq0 Hin0) as (? & ? & ? & ? & ?). split_and!; try done; auto; lia.
  - assert (∀ q d0 m, nodes T !! q = Some (Dir d0) → (i, m) ∉ d0) as Hfresh.
    { intros q d0 m Hq Hin. destruct (Hlink q d0 i m Hq Hin) as (_ & _ & [y Hy] & _). congruence. }
    intros q q' d1 d2 j m m' Hq Hq' Hin Hin'.
    pose proof (He q d1 j m Hq Hin) as H1. pose proof (He q' d2 j m' Hq' Hin') as H2. clear Hq Hq' Hin Hin'.
    destruct H1 as [(-> & -> & ->)|(d0 & Hq0 & Hin0)], H2 as [(-> & ? & ->)|(d0' & Hq0' & Hin0')]; subst; try done.
    + by apply (Hfresh q' d0' m') in Hin0'.
    + by apply (Hfresh q d0 m) in Hin0.
    + by apply (Honce q q' d0 d0' j m m').
Qed.

Lemma size_splice b off data :
  (0 <= off)%Z → (off + size data < 2 ^ 32)%Z → (size b < 2 ^ 32)%Z → (size (splice b off data) < 2 ^ 32)%Z.
Proof.
  unfold splice, size. intros. rewrite !length_app, length_take, length_replicate, length_drop. lia.
Qed.
Lemma size_resized b n : (0 <= n)%Z → size (resized b n) = n.
Proof. unfold resized, size. intros. rewrite length_app, length_take, length_replicate. lia. Qed.

Lemma dir_text_filter_size (P : entry → Prop) `{!∀ x, Decision (P x)} d :
  (size (dir_text (filter P d)) <= size (dir_text d))%Z.
Proof.
  induction d as [|x d IH] using rev_ind; [done|]. rewrite filter_app, dir_text_snoc. unfold add_text at 1.
  rewrite size_app. pose proof (size_nonneg (entry_text x)).
  assert (size (dir_text d) <= size (if decide (dir_text d ≠ []) then dir_text d ++ sep else dir_text d))%Z as Hs.
  { case_decide; [rewrite size_app; pose proof (size_nonneg sep)|]; lia. }
  rewrite filter_cons, filter_nil. destruct (decide (P x)); [|rewrite app_nil_r; lia].
  rewrite dir_text_snoc. unfold add_text. rewrite size_app.
  assert (size (if decide (dir_text (filter P d) ≠ []) then dir_text (filter P d) ++ sep else dir_text (filter P d))
    <= size (if decide (dir_text d ≠ []) then dir_text d ++ sep else dir_text d))%Z; [|lia].
  repeat case_decide; rewrite ?size_app; try lia; try (pose proof (size_nonneg sep); lia).
  match goal with Hnil : dir_text d = [] |- _ => rewrite Hnil in * end.
  destruct (dir_text (filter P d)) eqn:Ef; [done|]. unfold size in IH. simpl in IH. lia.
Qed.

Lemma wf_unlink T p d i n :
  wf T → nodes T !! p = Some (Dir d) → (i, n) ∈ d → isfile i = true →
  wf (Tree (delete i (<[p := Dir (filter (λ x, x ≠ (i, n)) d)]> (nodes T))) ({[i]} ∪ gone T)).
Proof.
  intros [Hfile Hdir Hlink Honce] Hp Hin Hf.
  (* a directory of the new tree is one of the old with no entry for [i] *)
  assert (∀ q d1, delete i (<[p := Dir (filter (λ x, x ≠ (i, n)) d)]> (nodes T)) !! q = Some (Dir d1) →
    ∃ d0 P, ∃ (_ : ∀ x : entry, Decision (P x)), nodes T !! q = Some (Dir d0) ∧ d1 = filter P d0 ∧
      (∀ m, (i, m) ∉ d1) ∧ q ≠ i) as Hd.
  { intros q d1 [Hqi [[<- [= <-]]|[Hqp Hq]]%lookup_insert_Some]%lookup_delete_Some.
    - eexists d, _, _. split_and!; [done|done| |done]. intros m [Hne Hm]%list_elem_of_filter.
      destruct (Honce p p d d i n m Hp Hp Hin Hm) as [_ ->]. done.
    - exists d1, (λ _, True), _. split_and!; [done| | |done].
      + symmetry. apply filter_keeps. by apply Forall_forall.
      + intros m Hm. destruct (Honce p q d d1 i n m Hp Hq Hin Hm). congruence. }
  split; cbn [nodes gone].
  - intros j b [Hji [[_ ?]|[_ Hj]]%lookup_insert_Some]%lookup_delete_Some; [done|].
    destruct (Hfile j b Hj) as (? & ? & ?). split_and!; [done|set_solver|done].
  - intros q d1 (d0 & P & HP & Hq & -> & _ & Hqi)%Hd. destruct (Hdir q d0 Hq) as (? & ? & Hnd & Hsz).
    split_and!; [done|set_solver| |].
    + eapply sublist_NoDup; [done|]. apply fmap_sublist, sublist_filter.
    + pose proof (dir_text_filter_size P d0). lia.
  - intros q d1 j m Hq Hm. destruct (Hd q d1 Hq) as (d0 & P & HP & Hq0 & -> & Hno & _).
    assert (j ≠ i) as Hji by (intros ->; by eapply Hno). pose proof Hm as [_ Hm0]%list_elem_of_filter.
    destruct (Hlink q d0 j m Hq0 Hm0) as (? & ? & ? & ? & ?). split_and!; try done; try lia; [|set_solver].
    rewrite lookup_delete_ne by done. by apply insert_keeps.
  - intros q q' d1 d2 j m m' (d0 & P & HP & Hq & -> & _)%Hd (d0' & P' & HP' & Hq' & -> & _)%Hd
      [_ H1]%list_elem_of_filter [_ H2]%list_elem_of_filter. by eapply Honce.
Qed.

Lemma tree_step_wf o T a T' : wf T → tree_step o T = Some (a, T') → wf T'.
Proof.
  intros Hwf Ht. destruct o; cbn [tree_step] in Ht;
    try (apply bind_Some in Ht as (x & Hx & Ht)); try (by simplify_eq).
  - destruct (isfile i) eqn:Hf; [|done]. apply bind_Some in Ht as ([new T1] & Hl & [= _ <-]).
    apply tree_link_inv in Hl as (d & n & rest & Hd & _ & _ & Hg & Hi & Hgone & Hu & Hsz & Hnew).
    case_decide; destruct Hnew as [_ ->]; [done|]. eapply wf_link_node; eauto.
  - apply bind_Some in Ht as (n & _ & [= _ <-]). done.
  - apply (the_file_Some T Hwf) in Hx as [Hb _]. case_decide; [|done]. injection Ht as _ <-.
    eapply wf_set_file; [done..|]. rewrite size_resized; lia.
  - case_decide; by simplify_eq.
  - apply (the_file_Some T Hwf) in Hx as [Hb _]. apply bind_Some in Ht as (data & _ & Ht).
    case_decide as Hc; [|done]. destruct Hc as (<- & ? & ? & _). injection Ht as _ <-. eapply wf_set_file; [done..|].
    destruct (wf_file T Hwf i x Hb) as (_ & _ & ?). by apply size_splice.
  - destruct (isfile i) eqn:Hf; [done|]. apply bind_Some in Ht as ([new T1] & Hl & [= _ <-]).
    apply tree_link_inv in Hl as (d & n & rest & Hd & _ & _ & Hg & Hi & Hgone & Hu & Hsz & Hnew).
    case_decide; destruct Hnew as [_ ->]; [done|]. eapply wf_link_node; eauto.
  - apply the_dir_Some in Hx. apply bind_Some in Ht as (n & _ & Ht). injection Ht as Ht.
    destruct (dir_lookup n x) as [i|] eqn:Hi; [|by simplify_eq]. destruct (isdir i) eqn:Hf; [by simplify_eq|].
    injection Ht as _ <-. apply wf_unlink; [done|done|by apply dir_lookup_elem|by apply negb_false_iff].
Qed.

Fixpoint tree_run (l : list yop) (T : tree) : option (list answer * tree) :=
  match l with
  | [] => Some ([], T)
  | o :: l => '(a, T) ← tree_step o T; '(as_, T) ← tree_run l T; Some (a :: as_, T)
  end.

Lemma tree_run_refines {E} `{FsSpec E} l (e : E) T as_ T' :
  wf T → shows e T → tree_run l T = Some (as_, T') →
  ∃ rs e', run_all l e = Ok (rs, e') ∧ Forall2 matches as_ rs ∧ shows e' T' ∧ wf T'.
Proof.
  revert e T as_. induction l as [|o l IH]; intros e T as_ Hwf S Ht; cbn [tree_run run_all] in *.
  - injection Ht as <- <-. exists [], e. by split_and!.
  - apply bind_Some in Ht as ([a T1] & Ho & Ht). apply bind_Some in Ht as ([as1 T2] & Hl & [= <- <-]).
    destruct (tree_step_refines o e T a T1 Hwf S Ho) as (r & e1 & -> & Hm & S1). run.
    destruct (IH e1 T1 as1 (tree_step_wf _ _ _ _ Hwf Ho) S1 Hl) as (rs & e2 & -> & Hms & S2 & Hwf2). run.
    exists (r :: rs), e2. split_and!; [done|by constructor|done|done].
Qed.

Definition root : tree := Tree {[1%Z := Dir []]} ∅.
Lemma extents_root : extents root = {[1%Z := []]}.
Proof. unfold extents. simpl. by rewrite map_fmap_singleton, gset_to_gmap_empty, map_union_empty. Qed.
Lemma root_wf : wf root.
Proof.
  split; simpl.
  - by intros i b [_ ?]%lookup_singleton_Some.
  - intros p d [<- [= <-]]%lookup_singleton_Some. split_and!; [done|set_solver|constructor|done].
  - intros p d i n [<- [= <-]]%lookup_singleton_Some ?%not_elem_of_nil. done.
  - intros p q d d' i n m [<- [= <-]]%lookup_singleton_Some _ ?%not_elem_of_nil. done.
Qed.

(** ** Properties *)

(** C2: The client's code implements a tree of files and directories.  Over any
    implementation of its interface (the client stack of Stack.v is one), any sequence
    of operations that a tree can do is done by the code with the answers of the tree:
    the entries, sizes, contents and error codes; the state it leaves stands for the
    tree left, which is well-formed again: names and inums unique, every entry leading
    to a node, directory texts and files within their bounds.  A tree can do: lookups,
    listings, attributes, reads and unlinks in directories and of files that are there
    (an unlink takes the node away; in the code its extent stays, empty, and its lock
    held); a new node under an unused inum of its kind and a name of good characters (no
    space or NUL, not all digits), with the directory below 2^31 bytes; a change of size,
    and a write of NUL-terminated data without NUL, within a file of 2^32 bytes, a write
    into an empty file being at its start. *)
Theorem filesystem_refines_tree {E} `{FsSpec E} l (e : E) T as_ T' :
  wf T → shows e T → tree_run l T = Some (as_, T') →
  ∃ rs e', run_all l e = Ok (rs, e') ∧ Forall2 matches as_ rs ∧ shows e' T' ∧ wf T'.
Proof. apply tree_run_refines. Qed.

(** A directory with a file in it, written, cut, listed and unlinked. *)
Definition mem (s : string) : bytes := lit s ++ [NUL].
Definition ex_tree_ops : list yop :=
  [OMkdir 1 (mem "d") 77; OCreate 77 (mem "f") 2147483650; OWrite 2147483650 (mem "hello") 5 0;
   OWrite 2147483650 (mem "XY") 2 4; OUpdatesize 2147483650 5; ORead 2147483650 100 1; OCreate 77 (mem "f") 2147483651;
   OLookup 77 (mem "f"); OUnlink 1 (mem "d"); OUnlink 77 (mem "f"); OLookup 77 (mem "f"); OReaddir 1]%Z.
Definition ex_tree_end : list answer * tree := default ([], root) (tree_run ex_tree_ops root).

Lemma ex_stack_shows : shows ex_stack root.
Proof. unfold shows. rewrite extents_root. exact ex_stack_at. Qed.

Lemma filesystem_refines_tree_witness :
  ex_tree_end.1 = [AStatus 0; AAttr 0 0; AStatus 0; AStatus 0; AStatus 0; ABytes (lit "ellX"); AAttr 4 0;
                   AFound 2147483650 5; AStatus 3; AStatus 0; AAbsent; ANames [(77, lit "d")]]%Z ∧
  ∃ rs e', run_all ex_tree_ops ex_stack = Ok (rs, e') ∧ Forall2 matches ex_tree_end.1 rs.
Proof.
  split; [vm_compute; reflexivity|].
  destruct (filesystem_refines_tree ex_tree_ops ex_stack root ex_tree_end.1 ex_tree_end.2)
    as (rs & e' & Er & Hm & _).
  - apply root_wf.
  - apply ex_stack_shows.
  - unfold ex_tree_end. destruct (tree_run ex_tree_ops root) as [[as_ T]|] eqn:E; [reflexivity|].
    vm_compute in E. discriminate E.
  - exists rs, e'. split; [exact Er|exact Hm].
Defined.

(** C11: What the clients of the distributed file system see is a tree.  Take a run of
    the cluster from its start under the conditions of the distributed file system (no
    thread changes a lock between give_back's unlocked look at it and its change of it,
    the run ends at an undefined unlock, calls of the extent server succeed, and the
    unlocked maps of a client's cache and of the extent server are used by one thread at
    a time).  If the operations are ones that a tree can do in whatever order they take
    effect (in particular no write goes past the start of an empty file), there is an
    order, none behind one that began after its end, in which the tree with the empty
    root directory gives the answers that the clients got. *)
Theorem distributed_tree home job now (ops : nat → yop) (res : nat → yres) ids h κ :
  (∀ t, home t ≠ []) → hruns home job (cstart now) h κ →
  NoDup ids → (∀ x, x ∈ h → x.1 ∈ ids) →
  (∀ t, t ∈ ids → run_op (ops t) (script t h) = Ok (res t, [])) →
  (∀ order, order ≡ₚ ids → in_time order h → is_Some (tree_run (ops <$> order) root)) →
  ∃ order as_ T', order ≡ₚ ids ∧ in_time order h ∧
    tree_run (ops <$> order) root = Some (as_, T') ∧ Forall2 matches as_ (res <$> order) ∧ wf T'.
Proof.
  intros Hne Hr Hnd Hids Hops Hable.
  destruct (hruns_linear home job now ops res ids h κ Hne Hr Hnd Hids Hops) as (order & attrs & e' & Ho & Ht & He & _).
  destruct (Hable order Ho Ht) as [[as_ T'] Et].
  destruct (tree_run_refines (ops <$> order) (Ideal {[1%Z := []]} ∅ attrs 0) root as_ T') as (rs & e2 & Er & Hm & _ & Hwf).
  - apply root_wf.
  - split_and!; [done| |done]. simpl. by rewrite extents_root.
  - done.
  - rewrite He in Er. injection Er as <- _. eauto 10.
Qed.

Lemma distributed_tree_witness :
  ∃ order as_ T', order ≡ₚ [0; 1] ∧ tree_run (ex_calls <$> order) root = Some (as_, T') ∧
    Forall2 matches as_ (ex_answer <$> order).
Proof.
  destruct (distributed_tree ex_home ex_job 1 ex_calls ex_answer [0; 1] ex_fs.1 ex_fs.2)
    as (order & as_ & T' & Ho & _ & Er & Hm & _).
  - intros u. unfold ex_home. by case_decide.
  - apply ex_fs_runs.
  - apply (bool_decide_eq_true_1 _). vm_compute. reflexivity.
  - apply (Forall_forall (λ x, x.1 ∈ [0; 1])), (bool_decide_eq_true_1 _). vm_compute. reflexivity.
  - intros t Ht. rewrite !elem_of_cons, elem_of_nil in Ht. destruct Ht as [->|[->|[]]]; vm_compute; reflexivity.
  - intros order Ho _. symmetry in Ho. apply Permutation_length_2_inv in Ho as [-> | ->]; vm_compute; eauto.
  - exists order, as_, T'. split; [exact Ho|]. split; [exact Er|exact Hm].
Defined.
