(* ===== verification/Fuse.v ===== *)
(** * The FUSE server (fuse.cc)

    The handlers that turn requests of the kernel into operations of the file system
    client and answer them.  The reply functions of the FUSE library free the request
    they answer, so that a second reply to it is a use of freed memory.  Two functions of
    that library are arguments: [dirent], the bytes that [fuse_add_dirent] stores for an
    entry, whose number [fuse_dirent_size] announces. *)

From stdpp Require Import base tactics numbers list gmap sets strings.
From Stdlib Require Import ZArith Lia Ascii.
From S2P Require Import Prelude CxxString Marshall ExtentServer ExtentClient LockServer LockClient YfsClient Stack FileSystem.
Import extent_protocol (attr, Attr, atime, mtime, ctime, a_size).

Definition ENOENT : Z := 2.
Definition EEXIST : Z := 17.
Definition ENOTDIR : Z := 20.
Definition ENOSYS : Z := 38.
Definition S_IFREG_666 : Z := 33206.   (* S_IFREG | 0666 *)
Definition S_IFDIR_777 : Z := 16895.   (* S_IFDIR | 0777 *)
Definition FUSE_SET_ATTR_SIZE : Z := 8.

(** struct stat, the fields the code sets *)
Record stat := Stat {
  st_ino : Z; st_mode : Z; st_nlink : Z; st_atime : Z; st_mtime : Z; st_ctime : Z; st_size : Z }.
(** struct fuse_entry_param; timeouts and generation are always 0 *)
Record entry_param := EntryParam { e_ino : Z; e_attr : stat }.

Inductive reply :=
  | reply_err (errno : Z)
  | reply_attr (st : stat)
  | reply_buf (b : bytes)
  | reply_write (n : Z)
  | reply_create (e : entry_param)
  | reply_entry (e : entry_param)
  | reply_open
  | reply_statfs (f_namemax f_bsize : Z).

(** A request: pending, or answered with a reply and freed. *)
Definition fuse_req_t : Type := option reply.
Definition pending : fuse_req_t := None.
Definition fuse_reply (r : reply) (req : fuse_req_t) : outcome fuse_req_t :=
  match req with None => Ok (Some r) | Some _ => Fault UseAfterFree end.
(** The error reply of the handlers that go on after it. *)
Definition reply_failed (ret : Z) (req : fuse_req_t) : outcome fuse_req_t :=
  if decide (ret ≠ yfs.OK) then fuse_reply (reply_err ENOENT) req else Ok req.

(** ** generate_inum: [1<<31] is the smallest [int], widened to 64 bits; the answers of
    [rand] are a list. *)
Definition bit31 : Z := u64 (- 2 ^ 31).
Definition not_bit31 : Z := u64 (2 ^ 31 - 1).
Definition mark_inum (isf : bool) (r : Z) : Z :=
  Z.land (if isf then Z.lor r bit31 else Z.land r not_bit31) 4294967295.
Fixpoint generate_inum (isf : bool) (rands : list Z) (inum_set : gset Z) :
    outcome (Z * list Z * gset Z) :=
  match rands with
  | [] => Fault NoFuel
  | r :: rands =>
      let result := mark_inum isf r in
      if decide (result ∈ inum_set) then generate_inum isf rands inum_set
      else Ok (result, rands, {[result]} ∪ inum_set)
  end.

Section fuse.
Context {E : Type} `{FsOps E}.
Context (dirent : bytes → Z → bytes).
Context (junk_stat : stat).   (* an uninitialised struct stat *)

(** [getattr] of fuse.cc *)
Definition getattr (inum : Z) (e : E) : outcome (Z * stat * E) :=
  let st0 := Stat inum 0 0 0 0 0 0 in
  if isfile inum then
    '(ret, info, e) ← getfile inum (Fileinfo 0 0 0 0) e;
    if decide (ret ≠ yfs.OK) then Ok (ret, st0, e)
    else Ok (yfs.OK, Stat inum S_IFREG_666 1 (fi_atime info) (fi_mtime info) (fi_ctime info)
                       (fi_size info), e)
  else
    '(ret, info, e) ← getdir inum (Dirinfo 0 0 0) e;
    if decide (ret ≠ yfs.OK) then Ok (ret, st0, e)
    else Ok (yfs.OK, Stat inum S_IFDIR_777 2 (di_atime info) (di_mtime info) (di_ctime info) 0, e).

Definition fuseserver_getattr (ino : Z) (e : E) : outcome (fuse_req_t * E) :=
  '(ret, st, e) ← getattr ino e;
  req ← fuse_reply (if decide (ret ≠ yfs.OK) then reply_err ENOENT else reply_attr st) pending;
  Ok (req, e).

Definition set_size (st : stat) (n : Z) : stat :=
  Stat (st_ino st) (st_mode st) (st_nlink st) (st_atime st) (st_mtime st) (st_ctime st) n.

Definition fuseserver_setattr (ino new_size to_set : Z) (e : E) : outcome (fuse_req_t * E) :=
  if negb (Z.land FUSE_SET_ATTR_SIZE to_set =? 0)%Z then
    '(_, st, e) ← getattr ino e;
    let st := set_size st new_size in
    '(ret, e) ← updatesize ino (u64 (st_size st)) e;
    req ← reply_failed ret pending;
    req ← fuse_reply (reply_attr st) req;
    Ok (req, e)
  else req ← fuse_reply (reply_err ENOSYS) pending; Ok (req, e).

Definition fuseserver_read (ino sz off : Z) (e : E) : outcome (fuse_req_t * E) :=
  '(ret, buf, e) ← read ino sz off [] e;
  req ← reply_failed ret pending;
  req ← fuse_reply (reply_buf buf) req;
  Ok (req, e).

Definition fuseserver_write (ino : Z) (buf : bytes) (sz off : Z) (e : E) : outcome (fuse_req_t * E) :=
  '(ret, e) ← write ino buf sz off e;
  req ← reply_failed ret pending;
  req ← fuse_reply (reply_write sz) req;
  Ok (req, e).

(** [fuseserver_createhelper]: of the [struct stat] it fills, [st_ino] stays as it was. *)
Definition fuseserver_createhelper (parent : Z) (name : bytes) (rands : list Z) (inum_set : gset Z)
    (e : E) : outcome (Z * option entry_param * list Z * gset Z * E) :=
  '(result_inum, rands, inum_set) ← generate_inum true rands inum_set;
  '(ret, a, e) ← create parent name result_inum (Attr 0 0 0 0) e;
  if decide (ret = yfs.OK) then
    Ok (yfs.OK,
        Some (EntryParam result_inum
                (Stat (st_ino junk_stat) S_IFREG_666 1 (atime a) (mtime a) (ctime a) (a_size a))),
        rands, inum_set, e)
  else Ok (yfs.EXIST, None, rands, inum_set, e).

(** [fuseserver_create] and [fuseserver_mknod] differ in the kind of the reply. *)
Definition create_reply (mk : entry_param → reply) (ret : Z) (p : option entry_param) : outcome reply :=
  if decide (ret = yfs.OK) then p ← deref p; Ok (mk p)
  else if decide (ret = yfs.EXIST) then Ok (reply_err EEXIST) else Ok (reply_err ENOENT).
Definition fuseserver_create (parent : Z) (name : bytes) (rands : list Z) (inum_set : gset Z) (e : E) :
    outcome (fuse_req_t * list Z * gset Z * E) :=
  '(ret, p, rands, inum_set, e) ← fuseserver_createhelper parent name rands inum_set e;
  r ← create_reply reply_create ret p;
  req ← fuse_reply r pending;
  Ok (req, rands, inum_set, e).
Definition fuseserver_mknod (parent : Z) (name : bytes) (rands : list Z) (inum_set : gset Z) (e : E) :
    outcome (fuse_req_t * list Z * gset Z * E) :=
  '(ret, p, rands, inum_set, e) ← fuseserver_createhelper parent name rands inum_set e;
  r ← create_reply reply_entry ret p;
  req ← fuse_reply r pending;
  Ok (req, rands, inum_set, e).

Definition fuseserver_lookup (parent : Z) (name : bytes) (e : E) : outcome (fuse_req_t * E) :=
  '(ret, result_inum, _, fnd, e) ← lookup parent name 0 (Attr 0 0 0 0) false e;
  req ← reply_failed ret pending;
  if (fnd : bool) then
    '(_, st, e) ← getattr result_inum e;
    req ← fuse_reply (reply_entry (EntryParam result_inum st)) req;
    Ok (req, e)
  else req ← fuse_reply (reply_err ENOENT) req; Ok (req, e).

(** [dirbuf_add]: the buffer grows by the size announced for the entry, which the
    library then stores at its old end. *)
Definition dirbuf_add (b name : bytes) (ino : Z) : bytes := b ++ dirent name ino.

(** [reply_buf_limited] *)
Definition reply_buf_limited (buf : bytes) (off maxsize : Z) : reply :=
  if (u64 off <? size buf)%Z
  then reply_buf (take (Z.to_nat (Z.min (size buf - u64 off) maxsize)) (drop (Z.to_nat off) buf))
  else reply_buf [].

(** The loop of [fuseserver_readdir] over the tokens. *)
Fixpoint dirbuf_of (kv : list bytes) (b : bytes) : bytes :=
  match kv with
  | k :: v :: kv => dirbuf_of kv (dirbuf_add b v (n2i k))
  | _ => b
  end.
Definition fuseserver_readdir (ino sz off : Z) (e : E) : outcome (fuse_req_t * E) :=
  if negb (isdir ino) then req ← fuse_reply (reply_err ENOTDIR) pending; Ok (req, e)
  else
    '(ret, key_values, e) ← readdir ino [] e;
    if decide (ret ≠ yfs.OK) then req ← fuse_reply (reply_err ENOTDIR) pending; Ok (req, e)
    else req ← fuse_reply (reply_buf_limited (dirbuf_of key_values []) off sz) pending; Ok (req, e).

Definition fuseserver_open (e : E) : outcome (fuse_req_t * E) :=
  req ← fuse_reply reply_open pending; Ok (req, e).

(** The other fields of the answer are zero. *)
Definition fuseserver_statfs (e : E) : outcome (fuse_req_t * E) :=
  req ← fuse_reply (reply_statfs 255 512) pending; Ok (req, e).

Definition fuseserver_mkdir (parent : Z) (name : bytes) (rands : list Z) (inum_set : gset Z) (e : E) :
    outcome (fuse_req_t * list Z * gset Z * E) :=
  '(dir_inum, rands, inum_set) ← generate_inum false rands inum_set;
  '(ret, e) ← mymkdir parent name dir_inum e;
  req ← reply_failed ret pending;
  '(_, st, e) ← getattr dir_inum e;
  req ← fuse_reply (reply_entry (EntryParam dir_inum st)) req;
  Ok (req, rands, inum_set, e).

Definition fuseserver_unlink (parent : Z) (name : bytes) (e : E) : outcome (fuse_req_t * E) :=
  '(ret, e) ← unlink parent name e;
  req ← reply_failed ret pending;
  req ← fuse_reply (reply_err 0) req;
  Ok (req, e).

End fuse.

(** ** Properties *)

Lemma isfile_testbit i : isfile i = Z.testbit i 31.
Proof.
  unfold isfile. change 2147483648%Z with (2 ^ 31)%Z.
  destruct (Z.testbit i 31) eqn:Eb.
  - destruct (Z.eqb_spec (Z.land i (2 ^ 31)) 0) as [H0|]; [|done].
    apply (f_equal (λ x, Z.testbit x 31)) in H0.
    by rewrite Z.land_spec, Eb, Z.pow2_bits_true, Z.bits_0 in H0.
  - assert (Z.land i (2 ^ 31) = 0)%Z as ->; [|done]. apply Z.bits_inj'. intros n Hn.
    rewrite Z.land_spec, Z.bits_0. destruct (decide (n = 31%Z)) as [->|Hne]; [by rewrite Eb|].
    rewrite Z.pow2_bits_false by lia. by rewrite andb_false_r.
Qed.

Lemma mark_inum_spec isf r : is_u32 (mark_inum isf r) ∧ isfile (mark_inum isf r) = isf.
Proof.
  unfold mark_inum. change 4294967295%Z with (Z.ones 32). split.
  - rewrite Z.land_ones by lia. apply Z.mod_pos_bound. lia.
  - rewrite isfile_testbit, Z.land_spec. destruct isf.
    + rewrite Z.lor_spec. change (Z.testbit bit31 31) with true. by rewrite orb_true_r.
    + rewrite Z.land_spec. change (Z.testbit not_bit31 31) with false. by rewrite andb_false_r.
Qed.

(** C35: [generate_inum] ends as soon as the random numbers yield an inum not given out
    before, and returns such an inum of the requested kind, 32 bits wide, recorded as
    given out. *)
Theorem generate_inum_fresh isf rands inum_set :
  Exists (λ r, mark_inum isf r ∉ inum_set) rands →
  ∃ i rest, generate_inum isf rands inum_set = Ok (i, rest, {[i]} ∪ inum_set) ∧
    i ∉ inum_set ∧ isfile i = isf ∧ is_u32 i.
Proof.
  induction rands as [|r rands IH]; intros Hex; [by inversion Hex|]. cbn [generate_inum].
  destruct (mark_inum_spec isf r) as [Hu Hf].
  case_decide as Hin.
  - apply IH. by apply Exists_cons in Hex as [?|?].
  - eauto 10.
Qed.

Lemma generate_inum_fresh_witness :
  ∃ i rest, generate_inum true [5; 6]%Z {[2147483653%Z]} = Ok (i, rest, {[i]} ∪ {[2147483653%Z]}) ∧
    i ∉ ({[2147483653%Z]} : gset Z) ∧ isfile i = true.
Proof.
  destruct (generate_inum_fresh true [5; 6]%Z {[2147483653%Z]}) as (i & rest & Eg & Hi & Hf & _).
  - apply Exists_cons_tl, Exists_cons_hd. change (mark_inum true 6) with 2147483654%Z. set_solver.
  - exists i, rest. split; [exact Eg|]. split; [exact Hi|exact Hf].
Defined.

Lemma reply_failed_OK req : reply_failed yfs.OK req = Ok req.
Proof. unfold reply_failed. by rewrite decide_False by naive_solver. Qed.
Lemma reply_failed_twice {A} ret r (k : fuse_req_t → outcome A) :
  ret ≠ yfs.OK → (req ← reply_failed ret pending; req ← fuse_reply r req; k req) = Fault UseAfterFree.
Proof. intros Hr. unfold reply_failed. by rewrite decide_True. Qed.

(** When the operation fails, the handlers of setattr, read, write and unlink answer
    with an error and go on to the reply of a success, for a request that is no more. *)
Theorem fuse_error_answers_twice {E} `{FsSpec E} i n sz off mem s (e : E) C L :
  at_state e C L → i ∉ L → C !! i = None → c_string mem = Ok s →
  fuseserver_setattr i n FUSE_SET_ATTR_SIZE e = Fault UseAfterFree ∧
  fuseserver_read i sz off e = Fault UseAfterFree ∧
  fuseserver_write i mem sz off e = Fault UseAfterFree ∧
  (∀ p name ret e', unlink p name e = Ok (ret, e') → ret ≠ yfs.OK → fuseserver_unlink p name e = Fault UseAfterFree).
Proof.
  intros S Hi Hnone Hmem.
  assert (∃ r st e', getattr i e = Ok (r, st, e') ∧ at_state e' C L) as (r & st & e1 & Eg & S1).
  { unfold getattr. destruct (isfile i).
    - destruct (getfile_spec i (Fileinfo 0 0 0 0) e C L S Hi) as (r & fin & e1 & -> & S1 & _). run.
      case_decide; eauto.
    - destruct (getdir_spec i (Dirinfo 0 0 0) e C L S Hi) as (r & din & e1 & -> & S1 & _). run.
      case_decide; eauto. }
  split_and!.
  - unfold fuseserver_setattr. change (negb (Z.land FUSE_SET_ATTR_SIZE FUSE_SET_ATTR_SIZE =? 0)%Z) with true.
    cbn iota. rewrite Eg. run.
    destruct (missing_ops i (u64 (st_size (set_size st n))) off [] mem s e1 C L S1 Hi Hnone Hmem)
      as (_ & _ & (e2 & -> & _)). run. by rewrite reply_failed_twice.
  - destruct (missing_ops i sz off [] mem s e C L S Hi Hnone Hmem) as ((e2 & Er & _) & _).
    unfold fuseserver_read. rewrite Er. run. by rewrite reply_failed_twice.
  - destruct (missing_ops i sz off [] mem s e C L S Hi Hnone Hmem) as (_ & (e2 & Ew & _) & _).
    unfold fuseserver_write. rewrite Ew. run. by rewrite reply_failed_twice.
  - intros p name ret e' Eu Hr. unfold fuseserver_unlink. rewrite Eu. run. by rewrite reply_failed_twice.
Qed.

Lemma fuse_error_answers_twice_witness : fuseserver_read 77 1 0 ex_stack = Fault UseAfterFree.
Proof.
  destruct (fuse_error_answers_twice 77 1 1 0 (lit "x" ++ [NUL]) (lit "x") ex_stack _ ∅ ex_stack_at)
    as (_ & Hr & _).
  - set_solver.
  - reflexivity.
  - reflexivity.
  - exact Hr.
Defined.

(** The same for mkdir, here of a name that is taken. *)
Example mkdir_exists_answers_twice :
  fuseserver_mkdir 1 (lit "f" ++ [NUL]) [7]%Z ∅ ex_created = Fault UseAfterFree.
Proof. vm_compute. reflexivity. Qed.
