(* ===== verification/FuseMain.v ===== *)
(** * The FUSE process (fuse.cc [main] and its table of operations)

    The table [fuseserver_oper] through which the session of the FUSE library calls the
    handlers of Fuse.v, a session that serves requests one after the other, and [main]:
    the calls it makes of the library and the status it ends with.  The answers of the
    library are arguments. *)

From stdpp Require Import base tactics numbers list gmap sets strings.
From Stdlib Require Import ZArith Lia Ascii.
From S2P Require Import Prelude CxxString Marshall ExtentServer ExtentClient LockServer LockClient YfsClient Serial History Stack FileSystem Tree Fuse.
Import extent_protocol (attr, Attr, atime, mtime, ctime, a_size).

(** ** Requests and the table *)
Inductive request :=
  | QGetattr (ino : Z)
  | QStatfs
  | QReaddir (ino sz off : Z)
  | QLookup (parent : Z) (name : bytes)
  | QCreate (parent : Z) (name : bytes)
  | QMknod (parent : Z) (name : bytes)
  | QOpen
  | QRead (ino sz off : Z)
  | QWrite (ino : Z) (buf : bytes) (sz off : Z)
  | QSetattr (ino new_size to_set : Z)
  | QUnlink (parent : Z) (name : bytes)
  | QMkdir (parent : Z) (name : bytes)
  | QOther.   (* a request with no entry in the table *)

(** The process: the file system client, the random numbers to come, the inums given out. *)
Record fuse_proc (E : Type) := FuseProc { fp_fs : E; fp_rands : list Z; fp_inums : gset Z }.
Arguments FuseProc {E}. Arguments fp_fs {E}. Arguments fp_rands {E}. Arguments fp_inums {E}.

Section session.
Context {E : Type} `{FsOps E} (dirent : bytes → Z → bytes) (junk_stat : stat).

(** A handler that uses only the file system client. *)
Definition on_fs (f : E → outcome (fuse_req_t * E)) (s : fuse_proc E) : outcome (fuse_req_t * fuse_proc E) :=
  '(req, e) ← f (fp_fs s); Ok (req, FuseProc e (fp_rands s) (fp_inums s)).
Definition on_all (f : list Z → gset Z → E → outcome (fuse_req_t * list Z * gset Z * E)) (s : fuse_proc E) :
    outcome (fuse_req_t * fuse_proc E) :=
  '(req, rands, inums, e) ← f (fp_rands s) (fp_inums s) (fp_fs s); Ok (req, FuseProc e rands inums).

Definition fuseserver_oper (q : request) : fuse_proc E → outcome (fuse_req_t * fuse_proc E) :=
  match q with
  | QGetattr ino => on_fs (fuseserver_getattr ino)
  | QStatfs => on_fs fuseserver_statfs
  | QReaddir ino sz off => on_fs (fuseserver_readdir dirent ino sz off)
  | QLookup p n => on_fs (fuseserver_lookup p n)
  | QCreate p n => on_all (fuseserver_create junk_stat p n)
  | QMknod p n => on_all (fuseserver_mknod junk_stat p n)
  | QOpen => on_fs fuseserver_open
  | QRead ino sz off => on_fs (fuseserver_read ino sz off)
  | QWrite ino buf sz off => on_fs (fuseserver_write ino buf sz off)
  | QSetattr ino n to_set => on_fs (fuseserver_setattr ino n to_set)
  | QUnlink p n => on_fs (fuseserver_unlink p n)
  | QMkdir p n => on_all (fuseserver_mkdir p n)
  | QOther => on_fs (λ e, req ← fuse_reply (reply_err ENOSYS) pending; Ok (req, e))
  end.

(** [fuse_session_loop]: the requests in the order in which they come. *)
Fixpoint session (qs : list request) (s : fuse_proc E) : outcome (list fuse_req_t * fuse_proc E) :=
  match qs with
  | [] => Ok ([], s)
  | q :: qs => '(req, s) ← fuseserver_oper q s; '(reqs, s) ← session qs s; Ok (req :: reqs, s)
  end.
End session.

(** ** main *)
Inductive lib_call :=
  | LParse (args : list bytes)
  | LMount (mountpoint : bytes)
  | LNew
  | LChan
  | LAddChan
  | LLoop
  | LDestroy
  | LClose
  | LUnmount (mountpoint : bytes).

(** What the library answers: the result of fuse_parse_cmdline with the mountpoint it
    finds, the descriptor of fuse_mount, whether fuse_lowlevel_new and
    fuse_kern_chan_new return a pointer, the result of the session. *)
Record fuse_lib := FuseLib {
  fl_parse : list bytes → Z * bytes;
  fl_mount : bytes → Z;
  fl_new : bool;
  fl_chan : bool;
  fl_loop : Z }.

(** The exit status and the calls made. *)
Definition fuse_main (lib : fuse_lib) (argv : list bytes) : Z * list lib_call :=
  match argv with
  | [prog; mountpoint; _; _] =>
      let fuse_argv := [prog; mountpoint; lit "-d"] in
      let '(res, mountpoint) := fl_parse lib fuse_argv in
      if (res =? -1)%Z then (0%Z, [LParse fuse_argv])
      else
        let fd := fl_mount lib mountpoint in
        let up_to_mount := [LParse fuse_argv; LMount mountpoint] in
        if (fd =? -1)%Z then (1%Z, up_to_mount)
        else if negb (fl_new lib) then (1%Z, up_to_mount ++ [LNew])
        else if negb (fl_chan lib) then (1%Z, up_to_mount ++ [LNew; LChan])
        else (if (fl_loop lib =? 0)%Z then 0%Z else 1%Z,
              up_to_mount ++ [LNew; LChan; LAddChan; LLoop; LDestroy; LClose; LUnmount mountpoint])
  | _ => (1%Z, [])
  end.

(** ** A session on a tree

    Which requests the tree of Tree.v can do, and the replies it gives; a mkdir or an
    unlink that fails is not among them. *)
Record tree_proc := TreeProc { tp_tree : tree; tp_rands : list Z; tp_inums : gset Z }.

Inductive tree_reply :=
  | XErr (errno : Z)
  | XAttr (i sz : Z)       (* the attributes of node [i] *)
  | XBuf (b : bytes)
  | XWrite (n : Z)
  | XCreate (i : Z)        (* a new file, for create and for mknod *)
  | XMknod (i : Z)
  | XEntry (i sz : Z)      (* an entry with the attributes of its node *)
  | XOpen
  | XStatfs.

(** The attributes shown of a node: its kind by its inum, one link for a file and two for
    a directory, a file's size; of the times nothing is said. *)
Definition attrs_of (i sz : Z) (st : stat) : Prop :=
  st_ino st = i ∧ st_mode st = (if isfile i then S_IFREG_666 else S_IFDIR_777) ∧
  st_nlink st = (if isfile i then 1%Z else 2%Z) ∧ st_size st = sz.
(** Those of a new file come without the inum. *)
Definition new_file (i : Z) (p : entry_param) : Prop :=
  e_ino p = i ∧ st_mode (e_attr p) = S_IFREG_666 ∧ st_nlink (e_attr p) = 1%Z ∧ st_size (e_attr p) = 0%Z.

Definition says (x : tree_reply) (r : reply) : Prop :=
  match x, r with
  | XErr n, reply_err n' => n = n'
  | XAttr i sz, reply_attr st => attrs_of i sz st
  | XBuf b, reply_buf b' => b = b'
  | XWrite n, reply_write n' => n = n'
  | XCreate i, reply_create p | XMknod i, reply_entry p => new_file i p
  | XEntry i sz, reply_entry p => e_ino p = i ∧ attrs_of i sz (e_attr p)
  | XOpen, reply_open => True
  | XStatfs, reply_statfs namemax bsize => namemax = 255%Z ∧ bsize = 512%Z
  | _, _ => False
  end.

Definition attr_op (i : Z) : yop := if isfile i then OGetfile i else OGetdir i.
(** The size that the attributes show. *)
Definition shown_size (a : answer) : Z := match a with AFile _ sz => sz | _ => 0 end.

Section tree_session.
Context (dirent : bytes → Z → bytes).

(** The buffer of a directory. *)
Definition listing (d : list entry) : bytes := concat ((λ x, dirent x.2 x.1) <$> d).

Definition tree_request (q : request) (s : tree_proc) : option (tree_reply * tree_proc) :=
  let '(TreeProc T rands inums) := s in
  let same x T := Some (x, TreeProc T rands inums) in
  let new isf := match generate_inum isf rands inums with Ok x => Some x | Fault _ => None end in
  match q with
  | QGetattr i => '(a, T) ← tree_step (attr_op i) T; same (XAttr i (shown_size a)) T
  | QStatfs => same XStatfs T
  | QOpen => same XOpen T
  | QOther => same (XErr ENOSYS) T
  | QReaddir p sz off =>
      '(a, T) ← tree_step (OReaddir p) T;
      match a with
      | ANames d =>
          if decide ((0 <= sz)%Z ∧ (0 <= off < 2 ^ 63)%Z)
          then same (XBuf (take (Z.to_nat sz) (drop (Z.to_nat off) (listing d)))) T else None
      | _ => None
      end
  | QLookup p n =>
      '(a, T) ← tree_step (OLookup p n) T;
      match a with
      | AFound i _ => '(a, T) ← tree_step (attr_op i) T; same (XEntry i (shown_size a)) T
      | _ => same (XErr ENOENT) T
      end
  | QCreate p n | QMknod p n =>
      '(i, rands, inums) ← new true;
      '(a, T) ← tree_step (OCreate p n i) T;
      match a with
      | AAttr r _ =>
          let done := match q with QCreate _ _ => XCreate i | _ => XMknod i end in
          Some (if decide (r = yfs.OK) then done else XErr EEXIST, TreeProc T rands inums)
      | _ => None
      end
  | QRead i sz off =>
      '(a, T) ← tree_step (ORead i sz off) T;
      match a with ABytes b => same (XBuf b) T | _ => None end
  | QWrite i buf sz off => '(_, T) ← tree_step (OWrite i buf sz off) T; same (XWrite sz) T
  | QSetattr i n to_set =>
      if negb (Z.land FUSE_SET_ATTR_SIZE to_set =? 0)%Z then
        '(_, T) ← tree_step (attr_op i) T; '(_, T) ← tree_step (OUpdatesize i n) T; same (XAttr i n) T
      else same (XErr ENOSYS) T
  | QUnlink p n =>
      '(a, T) ← tree_step (OUnlink p n) T;
      match a with AStatus r => if decide (r = yfs.OK) then same (XErr 0) T else None | _ => None end
  | QMkdir p n =>
      '(i, rands, inums) ← new false;
      '(a, T) ← tree_step (OMkdir p n i) T;
      match a with
      | AStatus r => if decide (r = yfs.OK) then Some (XEntry i 0, TreeProc T rands inums) else None
      | _ => None
      end
  end.

Fixpoint tree_session (qs : list request) (s : tree_proc) : option (list tree_reply * tree_proc) :=
  match qs with
  | [] => Some ([], s)
  | q :: qs => '(x, s) ← tree_request q s; '(xs, s) ← tree_session qs s; Some (x :: xs, s)
  end.
End tree_session.

Section on_tree.
Context {E : Type} `{FsSpec E} (dirent : bytes → Z → bytes) (junk_stat : stat).

(** The process shows the tree. *)
Definition serves (s : fuse_proc E) (t : tree_proc) : Prop :=
  shows (fp_fs s) (tp_tree t) ∧ wf (tp_tree t) ∧ fp_rands s = tp_rands t ∧ fp_inums s = tp_inums t.

Lemma getattr_tree i e T a T' :
  wf T → shows e T → tree_step (attr_op i) T = Some (a, T') →
  T' = T ∧ ∃ st e', getattr i e = Ok (yfs.OK, st, e') ∧ shows e' T ∧ attrs_of i (shown_size a) st.
Proof.
  intros Hwf S Ht. unfold attr_op in Ht. unfold getattr, attrs_of.
  destruct (isfile i) eqn:Hf; (assert (T' = T) as -> by (cbn [tree_step] in Ht; by apply bind_Some in Ht as (b & _ & [= _ <-])));
    (split; [done|]); destruct (tree_step_refines _ e T a T Hwf S Ht) as (r & e' & Hr & Hm & S');
    cbn [run_op] in Hr; apply bind_Ok in Hr as ([[ret info] e1] & -> & [= <- <-]); run;
    cbn [tree_step] in Ht; apply bind_Some in Ht as (b & _ & [= <-]); simpl in Hm.
  - destruct Hm as [<- Hs]. rewrite decide_False by naive_solver. do 2 eexists. by split_and!.
  - subst ret. rewrite decide_False by naive_solver. do 2 eexists. by split_and!.
Qed.

(** A request, with its reply. *)
Definition served (q : request) (s : fuse_proc E) (x : tree_reply) (t' : tree_proc) : Prop :=
  ∃ r s', fuseserver_oper dirent junk_stat q s = Ok (Some r, s') ∧ says x r ∧ serves s' t'.

(** The state after a request, and its reply. *)
Ltac answered_now := do 2 eexists; split; [done|]; split; [try done|]; by split_and!.
Ltac open_request Hs Ht :=
  destruct Hs as (S & Hwf & Er & Ei); cbn in S, Hwf, Er, Ei; subst; cbn [tree_request] in Ht;
  unfold served, serves; cbn [fuseserver_oper]; unfold on_fs, on_all; cbn [fp_fs fp_rands fp_inums].

Lemma served_attributes q s t x t' i :
  (q = QGetattr i ∨ ∃ m k, q = QSetattr i m k) → serves s t → tree_request dirent q t = Some (x, t') → served q s x t'.
Proof.
  destruct s as [e rands inums], t as [T rands' inums'].
  intros Hq Hs Ht. destruct Hq as [->|(m & k & ->)]; open_request Hs Ht.
  - apply bind_Some in Ht as ([a T1] & H1 & [= <- <-]). destruct (getattr_tree i e T a T1 Hwf S H1) as (-> & st & e' & Eg & S' & Ha).
    unfold fuseserver_getattr. rewrite Eg. run. rewrite decide_False by naive_solver. answered_now.
  - unfold fuseserver_setattr. destruct (negb _).
    2: { injection Ht as <- <-. run. answered_now. }
    apply bind_Some in Ht as ([a T1] & H1 & Ht). apply bind_Some in Ht as ([a2 T2] & H2 & [= <- <-]).
    destruct (getattr_tree i e T a T1 Hwf S H1) as (-> & st & e' & Eg & S' & Ha & Hmode & Hnl & _). rewrite Eg. run.
    pose proof (tree_step_wf _ _ _ _ Hwf H2) as Hwf2.
    destruct (tree_step_refines _ e' T a2 T2 Hwf S' H2) as (r & e2 & Hr & Hm & S2). cbn [run_op] in Hr.
    cbn [tree_step] in H2. apply bind_Some in H2 as (b & _ & H2). case_decide as Hm0; [|done]. injection H2 as <- _.
    apply bind_Ok in Hr as ([ret e3] & Eu & [= <- <-]). simpl in Hm. subst ret.
    cbn [st_size set_size]. rewrite u64_small by lia. rewrite Eu. run. rewrite reply_failed_OK. run. answered_now.
Qed.

Lemma served_data q s t x t' :
  (∃ i sz off, q = QRead i sz off) ∨ (∃ i buf sz off, q = QWrite i buf sz off) →
  serves s t → tree_request dirent q t = Some (x, t') → served q s x t'.
Proof.
  destruct s as [e rands inums], t as [T rands' inums']. intros Hq Hs Ht.
  destruct Hq as [(i & sz & off & ->)|(i & buf & sz & off & ->)]; open_request Hs Ht;
    apply bind_Some in Ht as ([a T1] & H1 & Ht); pose proof (tree_step_wf _ _ _ _ Hwf H1) as Hwf1;
    destruct (tree_step_refines _ e T a T1 Hwf S H1) as (r & e' & Hr & Hm & S'); cbn [run_op] in Hr.
  - cbn [tree_step] in H1. apply bind_Some in H1 as (b & _ & H1). case_decide; [|done]. injection H1 as <- _.
    injection Ht as <- <-.
    apply bind_Ok in Hr as ([[ret b'] e1] & Eu & [= <- <-]). destruct Hm as [-> ->].
    unfold fuseserver_read. rewrite Eu. run. rewrite reply_failed_OK. run. answered_now.
  - injection Ht as <- <-.
    cbn [tree_step] in H1. apply bind_Some in H1 as (b & _ & H1). apply bind_Some in H1 as (data & _ & H1).
    case_decide; [|done]. injection H1 as <- _.
    apply bind_Ok in Hr as ([ret e1] & Eu & [= <- <-]). simpl in Hm. subst ret.
    unfold fuseserver_write. rewrite Eu. run. rewrite reply_failed_OK. run. answered_now.
Qed.

(** What create and mknod share. *)
Lemma createhelper_tree p name rands inums i rands1 inums1 e T a T1 :
  wf T → shows e T → generate_inum true rands inums = Ok (i, rands1, inums1) →
  tree_step (OCreate p name i) T = Some (a, T1) →
  ∃ o e' r, fuseserver_createhelper junk_stat p name rands inums e = Ok (r, o, rands1, inums1, e') ∧ a = AAttr r 0 ∧
    shows e' T1 ∧
    if decide (r = yfs.OK) then ∃ ep, o = Some ep ∧ new_file i ep else r = yfs.EXIST.
Proof.
  intros Hwf S Eg H1. unfold fuseserver_createhelper. rewrite Eg. run.
  destruct (tree_step_refines _ e T a T1 Hwf S H1) as (r & e' & Hr & Hm & S'). cbn [run_op] in Hr.
  apply bind_Ok in Hr as ([[ret at_] e1] & Ec & [= <- <-]). rewrite Ec. run.
  cbn [tree_step] in H1. destruct (isfile i); [|done]. apply bind_Some in H1 as ([new T2] & _ & [= <- _]).
  destruct Hm as [<- Hsz]. destruct new; case_decide; try done; do 3 eexists; (split; [done|]); (split; [done|]);
    (split; [done|]); rewrite ?decide_True, ?decide_False by done; [|done].
  eexists. split; [done|]. by split_and!.
Qed.

Lemma served_create q p name s t x t' :
  (q = QCreate p name ∨ q = QMknod p name) → serves s t → tree_request dirent q t = Some (x, t') → served q s x t'.
Proof.
  destruct s as [e rands inums], t as [T rands' inums'].
  intros Hq Hs Ht. destruct Hq as [-> | ->]; open_request Hs Ht;
    apply bind_Some in Ht as ([[i rands1] inums1] & Eg & Ht); apply bind_Some in Ht as ([a T1] & H1 & Ht);
    (destruct (generate_inum true rands' inums') as [y|] eqn:Eg'; [|done]); injection Eg as ->;
    pose proof (tree_step_wf _ _ _ _ Hwf H1) as Hwf1;
    destruct (createhelper_tree p name _ _ _ _ _ e T a T1 Hwf S Eg' H1) as (o & e' & r & Ec & -> & S' & Hr);
    injection Ht as <- <-; unfold fuseserver_create, fuseserver_mknod; rewrite Ec; run; unfold create_reply;
    case_decide; [destruct Hr as (ep & -> & Hep)|subst r; rewrite decide_True by done
                 |destruct Hr as (ep & -> & Hep)|subst r; rewrite decide_True by done]; run; answered_now.
Qed.

Lemma served_lookup p name s t x t' :
  serves s t → tree_request dirent (QLookup p name) t = Some (x, t') → served (QLookup p name) s x t'.
Proof.
  destruct s as [e rands inums], t as [T rands' inums']. intros Hs Ht. open_request Hs Ht.
  apply bind_Some in Ht as ([a T1] & H1 & Ht).
  destruct (tree_step_refines _ e T a T1 Hwf S H1) as (r & e' & Hr & Hm & S'). cbn [run_op] in Hr.
  apply bind_Ok in Hr as ([[[[ret ri] ra] fnd] e1] & El & [= <- <-]). unfold fuseserver_lookup. rewrite El. run.
  cbn [tree_step] in H1. apply bind_Some in H1 as (d & _ & H1). apply bind_Some in H1 as (nm & _ & [= <- <-]).
  destruct (dir_lookup nm d) as [i|].
  - apply bind_Some in Ht as ([a2 T2] & H2 & [= <- <-]). destruct Hm as (-> & -> & _ & ->).
    destruct (getattr_tree i e1 T a2 T2 Hwf S' H2) as (-> & st & e2 & Eg & S2 & Ha).
    rewrite reply_failed_OK. run. rewrite Eg. run. answered_now.
  - injection Ht as <- <-. destruct Hm as [-> ->]. rewrite reply_failed_OK. run. answered_now.
Qed.

(** The loop over the tokens fills the buffer with the entries. *)
Lemma dirbuf_of_tokens d b :
  Forall (λ x : entry, is_u64 x.1) d → dirbuf_of dirent (tokens d) b = b ++ listing dirent d.
Proof.
  intros Hd. revert b. induction Hd as [|[i n] d Hi Hd IH]; intros b; [by rewrite app_nil_r|].
  cbn [tokens mbind list_bind app dirbuf_of] in *. rewrite IH. unfold dirbuf_add, listing. simpl.
  rewrite <- app_assoc. do 2 f_equal. f_equal. by apply scan_show_u64.
Qed.

Lemma reply_limited buf off sz :
  (0 <= sz)%Z → (0 <= off < 2 ^ 63)%Z →
  reply_buf_limited buf off sz = reply_buf (take (Z.to_nat sz) (drop (Z.to_nat off) buf)).
Proof.
  intros Hsz Hoff. unfold reply_buf_limited. rewrite u64_small by lia. unfold size. destruct (Z.ltb_spec off (Z.of_nat (length buf))).
  - f_equal. destruct (Z.le_gt_cases sz (Z.of_nat (length buf) - off)).
    + by rewrite Z.min_r by lia.
    + rewrite Z.min_l by lia. rewrite !take_ge; [done|rewrite length_drop; lia..].
  - rewrite drop_ge by lia. by rewrite take_nil.
Qed.

Lemma served_readdir p sz off s t x t' :
  serves s t → tree_request dirent (QReaddir p sz off) t = Some (x, t') → served (QReaddir p sz off) s x t'.
Proof.
  destruct s as [e rands inums], t as [T rands' inums']. intros Hs Ht. open_request Hs Ht.
  apply bind_Some in Ht as ([a T1] & H1 & Ht).
  destruct (tree_step_refines _ e T a T1 Hwf S H1) as (r & e' & Hr & Hm & S'). cbn [run_op] in Hr.
  apply bind_Ok in Hr as ([[ret toks] e1] & El & [= <- <-]).
  cbn [tree_step] in H1. apply bind_Some in H1 as (d & Hd%the_dir_Some & [= <- <-]). destruct Hm as [-> ->].
  case_decide as Hr; [|done]. destruct Hr as [Hsz Hoff]. injection Ht as <- <-.
  destruct (wf_dir T Hwf p d Hd) as (Hf & _). unfold fuseserver_readdir, isdir. rewrite Hf. cbn [negb].
  rewrite El. run. rewrite decide_False by naive_solver. rewrite dirbuf_of_tokens.
  - rewrite reply_limited by done. run. answered_now.
  - apply Forall_forall. intros [i n] Hin. by destruct (wf_link T Hwf p d i n Hd Hin) as (? & _).
Qed.

Lemma served_unlink p name s t x t' :
  serves s t → tree_request dirent (QUnlink p name) t = Some (x, t') → served (QUnlink p name) s x t'.
Proof.
  destruct s as [e rands inums], t as [T rands' inums']. intros Hs Ht. open_request Hs Ht.
  apply bind_Some in Ht as ([a T1] & H1 & Ht). pose proof (tree_step_wf _ _ _ _ Hwf H1) as Hwf1.
  destruct (tree_step_refines _ e T a T1 Hwf S H1) as (r & e' & Hr & Hm & S'). cbn [run_op] in Hr.
  apply bind_Ok in Hr as ([ret e1] & El & [= <- <-]). destruct a; try done. simpl in Hm. subst.
  case_decide; [subst|done]. injection Ht as <- <-. unfold fuseserver_unlink. rewrite El. run.
  rewrite reply_failed_OK. run. answered_now.
Qed.

Lemma served_mkdir p name s t x t' :
  serves s t → tree_request dirent (QMkdir p name) t = Some (x, t') → served (QMkdir p name) s x t'.
Proof.
  destruct s as [e rands inums], t as [T rands' inums']. intros Hs Ht. open_request Hs Ht.
  apply bind_Some in Ht as ([[i rands1] inums1] & Eg & Ht).
  destruct (generate_inum false rands' inums') as [y|] eqn:Eg'; [|done]. injection Eg as ->.
  apply bind_Some in Ht as ([a T1] & H1 & Ht). pose proof (tree_step_wf _ _ _ _ Hwf H1) as Hwf1.
  destruct (tree_step_refines _ e T a T1 Hwf S H1) as (r & e' & Hr & Hm & S'). cbn [run_op] in Hr.
  apply bind_Ok in Hr as ([ret e1] & El & [= <- <-]). destruct a; try done. simpl in Hm. subst.
  case_decide; [subst ret|done]. injection Ht as <- <-.
  unfold fuseserver_mkdir. rewrite Eg'. run. rewrite El. run. rewrite reply_failed_OK. run.
  cbn [tree_step] in H1. destruct (isfile i) eqn:Hf; [done|]. apply bind_Some in H1 as ([new T2] & Hl & [= Hret ->]).
  apply tree_link_inv in Hl as (d & nm & rest & Hd & _ & _ & _ & Hi & Hg & _ & _ & Hnew).
  destruct new; [|done]. assert (i ≠ p) as Hip by (intros ->; congruence).
  assert (tree_step (attr_op i) T1 = Some (ADir yfs.OK, T1)) as Ha.
  { case_decide; destruct Hnew as [? ->]; [done|]. unfold attr_op. rewrite Hf. cbn [tree_step]. unfold the_dir. cbn [set_node nodes].
    by rewrite lookup_insert_ne, lookup_insert_eq. }
  destruct (getattr_tree i e1 T1 _ T1 Hwf1 S' Ha) as (_ & st & e2 & -> & S2 & Hst). run. answered_now.
Qed.

Lemma tree_request_served q s t x t' : serves s t → tree_request dirent q t = Some (x, t') → served q s x t'.
Proof.
  intros Hs Ht.
  assert (∀ r y, fuseserver_oper dirent junk_stat q s = Ok (Some r, s) → says y r → tree_request dirent q t = Some (y, t) →
    served q s x t') as Hplain.
  { intros r y Eq Hy Hq. rewrite Ht in Hq. injection Hq as -> ->. exists r, s. by split_and!. }
  destruct q as [i| |p sz off|p nm|p nm|p nm| |i sz off|i buf sz off|i m k|p nm|p nm|];
    eauto using served_attributes, served_readdir, served_lookup, served_create, served_unlink, served_mkdir.
  - destruct s, t. by apply (Hplain (reply_statfs 255 512) XStatfs).
  - destruct s, t. by apply (Hplain reply_open XOpen).
  - apply (served_data _ _ t); eauto.
  - apply (served_data _ _ t); eauto 10.
  - destruct s, t. by apply (Hplain (reply_err ENOSYS) (XErr ENOSYS)).
Qed.
End on_tree.

(** ** Properties *)


Definition ex_requests : list request :=
  [QLookup 1 (mem "f"); QCreate 1 (mem "f"); QWrite 2147483655 (mem "hello") 5 0; QGetattr 2147483655;
   QSetattr 2147483655 3 8; QRead 2147483655 10 0; QMkdir 1 (mem "d"); QLookup 1 (mem "d"); QCreate 1 (mem "f");
   QReaddir 1 4096 2; QUnlink 1 (mem "f"); QOther]%Z.
Definition ex_fuse : fuse_proc stack := FuseProc ex_stack [7; 9; 11]%Z ∅.
Definition ex_dirent (n : bytes) (i : Z) : bytes := n ++ [NUL].


(** [main] reports success when the command line is refused, and leaves the file system
    mounted when it gives up after fuse_mount. *)
Theorem fuse_main_failures lib prog mountpoint e l mp :
  (fl_parse lib [prog; mountpoint; lit "-d"] = (-1, mp)%Z → (fuse_main lib [prog; mountpoint; e; l]).1 = 0%Z) ∧
  (fl_parse lib [prog; mountpoint; lit "-d"] = (0, mp)%Z → fl_mount lib mp ≠ (-1)%Z →
     fl_new lib && fl_chan lib = false →
     (fuse_main lib [prog; mountpoint; e; l]).1 = 1%Z ∧
     LMount mp ∈ (fuse_main lib [prog; mountpoint; e; l]).2 ∧
     LUnmount mp ∉ (fuse_main lib [prog; mountpoint; e; l]).2).
Proof.
  split; intros Hp; unfold fuse_main; rewrite Hp; [done|]. intros Hm Hn. change (0 =? -1)%Z with false. cbn iota.
  destruct (Z.eqb_spec (fl_mount lib mp) (-1)); [done|].
  destruct (fl_new lib), (fl_chan lib); try done; cbn [negb fst snd]; set_solver.
Qed.
