(* ===== verification/LabTest.v ===== *)
(** * The tests of a mounted file system (test-lab-3-b.c, test-lab-3-c.c)

    The two programs as programs over system calls, with fork and waitpid, and what they
    rely on of the system: the documented behaviour of the calls on a file system that is
    mounted at two places.  LabTestRun.v proves that the tests pass on it.

    A C string is its characters without the final NUL.  Output is left out.  A DIR is
    its descriptor, and the null pointer is -1. *)

From stdpp Require Import base tactics numbers list gmap sorting strings relations.
From Stdlib Require Import ZArith Lia Ascii.
From S2P Require Import Prelude CxxString.

(** ** Programs *)
Inductive oflags := O_RDONLY | O_WRONLY | O_WRONLY_APPEND | O_WRONLY_CREAT.

Inductive sys :=
  | Sleep (seconds : Z)
  | Getpid
  | Mkdir (path : bytes)
  | Access (path : bytes)
  | Creat (path : bytes)
  | Open (path : bytes) (flags : oflags)
  | Write (fd : Z) (data : bytes)
  | Read (fd : Z) (n : Z)
  | Lseek (fd : Z) (off : Z)
  | Fsync (fd : Z)
  | Close (fd : Z)
  | Unlink (path : bytes)
  | Opendir (path : bytes)
  | Readdir (fd : Z)          (* the entries up to the null pointer *)
  | Closedir (fd : Z).

(** The return value, errno, the bytes read and the entries read. *)
Record ret := Ret { r_val : Z; r_errno : Z; r_data : bytes; r_names : list bytes }.

(** [Exit]: exit(status).  [Wild]: a write outside an array.  [Wait] receives the pid and
    the exit status. *)
Inductive prog :=
  | Exit (status : Z)
  | Wild
  | Call (c : sys) (k : ret → prog)
  | Fork (child : prog) (k : Z → prog)
  | Wait (pid : Z) (k : Z → Z → prog).

Definition EEXIST : Z := 17.

(** [r ⇐ c; k]: a call; [require b; k]: [if(!b){ fprintf(stderr, ...); exit(1); }]. *)
Declare Scope lab_scope.
Notation "r ⇐ c ; k" := (Call c (λ r, k)) (at level 200, c at level 100, k at level 200, right associativity) : lab_scope.
Definition require (b : bool) (k : prog) : prog := if b then k else Exit 1.
Notation "'check' b ; k" := (require b k) (at level 200, b at level 100, k at level 200, right associativity) : lab_scope.
Delimit Scope lab_scope with lab.
Open Scope lab_scope.

(** [sprintf] into [char n[512]]. *)
Definition sprintf512 (s : bytes) (k : bytes → prog) : prog := if (size s <? 512)%Z then k s else Wild.

Definition slash : ascii := "/"%char.
Definition path_of (d f : bytes) : bytes := d ++ slash :: f.
(** ["%s-%d"] *)
Definition numbered (prefix : bytes) (i : Z) : bytes := prefix ++ "-"%char :: show_u64 i.

(** The bytes of an int on a little-endian machine. *)
Definition int_bytes (i : Z) : bytes := byte_of_Z <$> [i; i / 256; i / 65536; i / 16777216]%Z.
Definition int_of_bytes (b : bytes) : Z := i32 (foldr (λ c z, Z_of_byte c + 256 * z)%Z 0%Z b).

(** [strncmp(a, b, n) == 0] *)
Fixpoint c_str (a : bytes) : bytes :=
  match a with [] => [] | c :: a => if decide (c = NUL) then [] else c :: c_str a end.
Definition strncmp_eq (a b : bytes) (n : Z) : bool :=
  bool_decide (take (Z.to_nat n) (c_str a) = take (Z.to_nat n) (c_str b)).

Definition create1 (d f input : bytes) (k : prog) : prog :=
  _ ⇐ Sleep 1;
  sprintf512 (path_of d f) (λ n,
  fd ⇐ Creat n; check (0 <=? r_val fd)%Z;
  w ⇐ Write (r_val fd) input; check (r_val w =? size input)%Z;
  c ⇐ Close (r_val fd); check (r_val c =? 0)%Z; k).

(** [bufsz] is the size of [buf]: 21000 in test-lab-3-b, 512 in test-lab-3-c. *)
Definition check1 (bufsz : Z) (d f input : bytes) (k : prog) : prog :=
  sprintf512 (path_of d f) (λ n,
  fd ⇐ Open n O_RDONLY; check (0 <=? r_val fd)%Z;
  cc ⇐ Read (r_val fd) (bufsz - 1); check (r_val cc =? size input)%Z;
  _ ⇐ Close (r_val fd);
  check strncmp_eq (r_data cc) input (size n); k).

Definition unlink1 (d f : bytes) (k : prog) : prog :=
  _ ⇐ Sleep 1;
  sprintf512 (path_of d f) (λ n, u ⇐ Unlink n; check (r_val u =? 0)%Z; k).

Definition checknot (d f : bytes) (k : prog) : prog :=
  sprintf512 (path_of d f) (λ n, fd ⇐ Open n O_RDONLY; check (r_val fd <? 0)%Z; k).

Definition append1 (d f input : bytes) (k : prog) : prog :=
  _ ⇐ Sleep 1;
  sprintf512 (path_of d f) (λ n,
  fd ⇐ Open n O_WRONLY_APPEND; check (0 <=? r_val fd)%Z;
  w ⇐ Write (r_val fd) input; check (r_val w =? size input)%Z;
  c ⇐ Close (r_val fd); check (r_val c =? 0)%Z; k).

Fixpoint write_loop (n : nat) (fd : Z) (c : ascii) (k : prog) : prog :=
  match n with
  | O => k
  | S n => w ⇐ Write fd [c]; check (r_val w =? 1)%Z; s ⇐ Fsync fd; check (r_val s =? 0)%Z; write_loop n fd c k
  end.

Definition write1 (d f : bytes) (start : Z) (n : nat) (c : ascii) (k : prog) : prog :=
  _ ⇐ Sleep 1;
  sprintf512 (path_of d f) (λ name,
  fd ⇐ Open name O_WRONLY_CREAT;
  let go := λ fd,
    check (0 <=? fd)%Z;
    l ⇐ Lseek fd start; check (r_val l =? start)%Z;
    write_loop n fd c (c ⇐ Close fd; check (r_val c =? 0)%Z; k) in
  if (r_val fd <? 0)%Z && (r_errno fd =? EEXIST)%Z then fd ⇐ Open name O_WRONLY; go (r_val fd)
  else go (r_val fd)).

Fixpoint read_loop (n : nat) (fd : Z) (c : ascii) (k : prog) : prog :=
  match n with
  | O => k
  | S n => r ⇐ Read fd 1; check (r_val r =? 1)%Z; check bool_decide (r_data r = [c]); read_loop n fd c k
  end.

Definition checkread (d f : bytes) (start : Z) (n : nat) (c : ascii) (k : prog) : prog :=
  _ ⇐ Sleep 1;
  sprintf512 (path_of d f) (λ name,
  fd ⇐ Open name O_RDONLY; check (0 <=? r_val fd)%Z;
  l ⇐ Lseek (r_val fd) start; check (r_val l =? start)%Z;
  read_loop n (r_val fd) c (_ ⇐ Close (r_val fd); k)).

(** [for(i = 0; i < nf; i++)] *)
Definition for_each (body : Z → prog → prog) (l : list nat) (k : prog) : prog := foldr (λ i, body (Z.of_nat i)) k l.

Definition createn (d prefix : bytes) (nf : nat) (possible_dup : bool) (k : prog) : prog :=
  _ ⇐ Sleep 1;
  for_each (λ i k,
    sprintf512 (path_of d (numbered prefix i)) (λ n,
    fd ⇐ Creat n;
    if (r_val fd <? 0)%Z && possible_dup && (r_errno fd =? EEXIST)%Z then k
    else
      check (0 <=? r_val fd)%Z;
      w ⇐ Write (r_val fd) (int_bytes i); check (r_val w =? 4)%Z;
      c ⇐ Close (r_val fd); check (r_val c =? 0)%Z; k)) (seq 0 nf) k.

Definition checkn (d prefix : bytes) (nf : nat) (k : prog) : prog :=
  for_each (λ i k,
    sprintf512 (path_of d (numbered prefix i)) (λ n,
    fd ⇐ Open n O_RDONLY; check (0 <=? r_val fd)%Z;
    cc ⇐ Read (r_val fd) 4; check (r_val cc =? 4)%Z;
    check (int_of_bytes (r_data cc) =? i)%Z;
    _ ⇐ Close (r_val fd); k)) (seq 0 nf) k.

Definition unlinkn (d prefix : bytes) (nf : nat) (k : prog) : prog :=
  _ ⇐ Sleep 1;
  for_each (λ i k,
    sprintf512 (path_of d (numbered prefix i)) (λ n, u ⇐ Unlink n; check (r_val u =? 0)%Z; k)) (seq 0 nf) k.

(** [compar]: strcmp; qsort yields a sorted permutation. *)
Fixpoint strcmp_leb (a b : bytes) : bool :=
  match a, b with
  | [], _ => true
  | _, [] => false
  | x :: a, y :: b => if decide (x = y) then strcmp_leb a b else (Z_of_byte x <? Z_of_byte y)%Z
  end.
#[global] Instance strcmp_le_dec : RelDecision (λ a b, Is_true (strcmp_leb a b)).
Proof. intros a b. apply _. Defined.
Definition qsort (names : list bytes) : list bytes := merge_sort (λ a b, Is_true (strcmp_leb a b)) names.

Fixpoint adjacent_dup (l : list bytes) : bool :=
  match l with
  | a :: (b :: _) as l' => bool_decide (a = b) || adjacent_dup l'
  | _ => false
  end.

(** [e->d_name[0] != '.'] *)
Definition counted (name : bytes) : bool := match name with c :: _ => bool_decide (c ≠ "."%char) | [] => true end.

(** [names] has room for a thousand entries; past that there is a warning only. *)
Definition dircheck (d : bytes) (nf : Z) (k : prog) : prog :=
  dp ⇐ Opendir d; check negb (r_val dp =? -1)%Z;
  e ⇐ Readdir (r_val dp);
  let names := filter counted (r_names e) in
  if 1000 <? length names then Wild
  else
    _ ⇐ Closedir (r_val dp);
    check (nf =? Z.of_nat (length names))%Z;
    check negb (adjacent_dup (qsort names)); k.

Definition reap (pid : Z) (k : prog) : prog :=
  Wait pid (λ wpid status,
    check (0 <=? wpid)%Z; check (wpid =? pid)%Z; check (status =? 0)%Z; k).

(** [pid = fork(); if(pid < 0) exit(1); if(pid == 0){ child } parent] *)
Definition fork_run (child : prog) (parent : Z → prog) : prog :=
  Fork child (λ pid, check (0 <=? pid)%Z; parent pid).

(** ** test-lab-3-b *)
Definition big : bytes := replicate (Z.to_nat 20000) "x"%char.
Definition huge : bytes := replicate (Z.to_nat (65536 * 2)) "0"%char.
Definition check1_b := check1 21000.

Section test_b.
Context (d1 d2 : bytes).

Definition create_then_read (k : prog) : prog :=
  create1 d1 (lit "f1") (lit "aaa")
  (check1_b d2 (lit "f1") (lit "aaa")
  (check1_b d1 (lit "f1") (lit "aaa") k)).

Definition unlink_test (k : prog) : prog :=
  unlink1 d2 (lit "f1")
  (create1 d1 (lit "fx1") (lit "fxx")
  (unlink1 d1 (lit "fx1")
  (checknot d1 (lit "f1")
  (checknot d2 (lit "f1")
  (create1 d1 (lit "f2") (lit "222")
  (unlink1 d2 (lit "f2")
  (checknot d1 (lit "f2")
  (checknot d2 (lit "f2")
  (create1 d1 (lit "f3") (lit "333")
  (check1_b d2 (lit "f3") (lit "333")
  (check1_b d1 (lit "f3") (lit "333")
  (unlink1 d1 (lit "f3")
  (create1 d2 (lit "fx2") (lit "22")
  (unlink1 d2 (lit "fx2")
  (checknot d2 (lit "f3")
  (checknot d1 (lit "f3") k)))))))))))))))).

Definition append_test (k : prog) : prog :=
  create1 d2 (lit "f1") (lit "aaa")
  (append1 d1 (lit "f1") (lit "bbb")
  (append1 d2 (lit "f1") (lit "ccc")
  (check1_b d1 (lit "f1") (lit "aaabbbccc")
  (check1_b d2 (lit "f1") (lit "aaabbbccc") k)))).

Definition readdir_test (k : prog) : prog :=
  dircheck d1 1
  (dircheck d2 1
  (unlink1 d1 (lit "f1")
  (dircheck d1 0
  (dircheck d2 0
  (create1 d2 (lit "f2") (lit "aaa")
  (create1 d1 (lit "f3") (lit "aaa")
  (dircheck d1 2
  (dircheck d2 2
  (unlink1 d2 (lit "f2")
  (dircheck d2 1
  (dircheck d1 1
  (unlink1 d2 (lit "f3")
  (dircheck d1 0
  (dircheck d2 0 k)))))))))))))).

Definition many_creates (k : prog) : prog :=
  createn d1 (lit "aa") 10 false
  (createn d2 (lit "bb") 10 false
  (dircheck d2 20
  (checkn d2 (lit "bb") 10
  (checkn d2 (lit "aa") 10
  (checkn d1 (lit "aa") 10
  (checkn d1 (lit "bb") 10
  (unlinkn d1 (lit "aa") 10
  (unlinkn d2 (lit "bb") 10 k)))))))).

Definition write_big (k : prog) : prog :=
  create1 d1 (lit "bf") big
  (check1_b d1 (lit "bf") big
  (check1_b d2 (lit "bf") big
  (unlink1 d1 (lit "bf") k))).

Definition concurrent_creates (k : prog) : prog :=
  fork_run (createn d2 (lit "xx") 20 false (Exit 0)) (λ pid,
  createn d1 (lit "yy") 20 false
  (_ ⇐ Sleep 10;
  reap pid
  (dircheck d1 40
  (checkn d1 (lit "xx") 20
  (checkn d2 (lit "yy") 20
  (unlinkn d1 (lit "xx") 20
  (unlinkn d1 (lit "yy") 20 k))))))).

Definition concurrent_same (k : prog) : prog :=
  fork_run (createn d2 (lit "zz") 20 true (Exit 0)) (λ pid,
  createn d1 (lit "zz") 20 true
  (_ ⇐ Sleep 4;
  dircheck d1 20
  (reap pid
  (checkn d1 (lit "zz") 20
  (checkn d2 (lit "zz") 20
  (unlinkn d1 (lit "zz") 20 k)))))).

Definition concurrent_create_delete (k : prog) : prog :=
  createn d1 (lit "x1") 20 false
  (createn d2 (lit "x2") 20 false
  (fork_run (unlinkn d2 (lit "x1") 20 (createn d1 (lit "x3") 20 false (Exit 0))) (λ pid,
  createn d1 (lit "x4") 20 false
  (reap pid
  (unlinkn d2 (lit "x2") 20
  (unlinkn d2 (lit "x4") 20
  (unlinkn d2 (lit "x3") 20
  (dircheck d1 0 k)))))))).

Definition concurrent_same_server (k : prog) : prog :=
  fork_run (createn d1 (lit "zz") 20 true (Exit 0)) (λ pid,
  createn d1 (lit "zz") 20 true
  (_ ⇐ Sleep 2;
  dircheck d1 20
  (reap pid
  (checkn d1 (lit "zz") 20
  (unlinkn d1 (lit "zz") 20 k))))).

Definition concurrent_writes (k : prog) : prog :=
  create1 d1 (lit "www") huge
  (fork_run (write1 d2 (lit "www") 65536 64 "2"%char (Exit 0)) (λ pid,
  write1 d1 (lit "www") 0 64 "1"%char
  (reap pid
  (checkread d1 (lit "www") 0 64 "1"%char
  (checkread d2 (lit "www") 0 64 "1"%char
  (checkread d1 (lit "www") 65536 64 "2"%char
  (checkread d2 (lit "www") 65536 64 "2"%char k))))))).
End test_b.

Definition test_lab_3_b (argc : Z) (argv1 argv2 : bytes) : prog :=
  check (argc =? 3)%Z;
  pid ⇐ Getpid;
  sprintf512 (argv1 ++ lit "/d" ++ show_u64 (r_val pid)) (λ d1,
  r ⇐ Mkdir d1; check (r_val r =? 0)%Z;
  pid ⇐ Getpid;
  sprintf512 (argv2 ++ lit "/d" ++ show_u64 (r_val pid)) (λ d2,
  r ⇐ Access d2; check (r_val r =? 0)%Z;
  create_then_read d1 d2
  (unlink_test d1 d2
  (append_test d1 d2
  (readdir_test d1 d2
  (many_creates d1 d2
  (write_big d1 d2
  (concurrent_creates d1 d2
  (concurrent_same d1 d2
  (concurrent_create_delete d1 d2
  (concurrent_same_server d1
  (concurrent_writes d1 d2 (Exit 0))))))))))))).

(** ** test-lab-3-c *)

(** Its functions are those of test-lab-3-b but for a smaller buffer and a [createn]
    that takes no existing file. *)
Definition create1_c := create1.
Definition check1_c := check1 512.
Definition unlink1_c := unlink1.
Definition checknot_c := checknot.
Definition append1_c := append1.
Definition createn_c (d prefix : bytes) (nf : nat) (k : prog) : prog := createn d prefix nf false k.
Definition checkn_c := checkn.
Definition unlinkn_c := unlinkn.
Definition dircheck_c := dircheck.
Definition reap_c := reap.

Definition test_lab_3_c (argc : Z) (argv1 argv2 : bytes) : prog :=
  check (argc =? 3)%Z;
  pid ⇐ Getpid;
  sprintf512 (argv1 ++ lit "/da" ++ show_u64 (r_val pid)) (λ d1,
  r ⇐ Mkdir d1; check (r_val r =? 0)%Z;
  pid ⇐ Getpid;
  sprintf512 (argv2 ++ lit "/db" ++ show_u64 (r_val pid)) (λ d2,
  r ⇐ Mkdir d2; check (r_val r =? 0)%Z;
  pid ⇐ Getpid;
  sprintf512 (argv2 ++ lit "/da" ++ show_u64 (r_val pid)) (λ dd,
  r ⇐ Access dd; check (r_val r =? 0)%Z;
  fork_run (createn_c d2 (lit "xx") 100 (unlinkn_c d2 (lit "xx") 99 (Exit 0))) (λ pid,
  createn_c d1 (lit "yy") 100
  (unlinkn_c d1 (lit "yy") 99
  (_ ⇐ Sleep 4;
  reap_c pid
  (dircheck_c d1 1
  (dircheck_c d2 1 (Exit 0))))))))).

(** ** The system *)

(** A file is known by its directory and name.  A descriptor of a file has its offset
    and whether it appends. *)
Inductive fdesc := FFile (f : bytes * bytes) (off : nat) (app : bool) | FDir (d : bytes).
Record vfs := Vfs {
  v_dirs : gset bytes;
  v_files : gmap (bytes * bytes) bytes;
  v_fds : gmap (Z * Z) fdesc }.     (* by process and number *)

Definition set_files (w : vfs) (m : gmap (bytes * bytes) bytes) : vfs := Vfs (v_dirs w) m (v_fds w).
Definition set_fds (w : vfs) (m : gmap (Z * Z) fdesc) : vfs := Vfs (v_dirs w) (v_files w) m.

(** The path up to its last slash and what follows. *)
Fixpoint last_slash (p : bytes) : option (bytes * bytes) :=
  match p with
  | [] => None
  | c :: p =>
      match last_slash p with
      | Some (a, b) => Some (c :: a, b)
      | None => if decide (c = slash) then Some ([], p) else None
      end
  end.

(** The bytes [bs] written at [pos]. *)
Definition write_at (old : bytes) (pos : nat) (bs : bytes) : bytes :=
  take pos old ++ replicate (pos - length old) NUL ++ bs ++ drop (pos + length bs) old.

Section system.
(** The file system is mounted at each of [mounts]. *)
Context (mounts : list bytes).

Definition dir_of (p : bytes) : option bytes :=
  match last_slash p with
  | Some (m, d) => if decide (m ∈ mounts) then Some d else None
  | None => None
  end.
Definition file_of (p : bytes) : option (bytes * bytes) :=
  match last_slash p with
  | Some (q, f) => d ← dir_of q; Some (d, f)
  | None => None
  end.

Definition not_open (w : vfs) (f : bytes * bytes) : Prop :=
  ∀ key g off app, v_fds w !! key = Some (FFile g off app) → g ≠ f.
Definition names_in (w : vfs) (d : bytes) : list bytes :=
  (filter (λ g, g.1 = d) (elements (dom (v_files w)))).*2.

(** [posix pid w c r w']: in [w] the call [c] of the process [pid] may return [r] and
    leave [w'].  Nothing is said of removing a file that is open.  A create of an
    existing file empties it or fails with EEXIST, as a file system may that learns of
    the file only while it creates it. *)
Inductive posix (pid : Z) (w : vfs) : sys → ret → vfs → Prop :=
  | p_sleep n r : posix pid w (Sleep n) r w
  | p_getpid r : r_val r = pid → posix pid w Getpid r w
  | p_mkdir p d r : dir_of p = Some d → d ∉ v_dirs w → r_val r = 0%Z →
      posix pid w (Mkdir p) r (Vfs ({[d]} ∪ v_dirs w) (v_files w) (v_fds w))
  | p_access p d r : dir_of p = Some d → d ∈ v_dirs w → r_val r = 0%Z → posix pid w (Access p) r w
  | p_creat p f r : file_of p = Some f → f.1 ∈ v_dirs w → (0 <= r_val r)%Z → v_fds w !! (pid, r_val r) = None →
      posix pid w (Creat p) r
        (Vfs (v_dirs w) (<[f := []]> (v_files w)) (<[(pid, r_val r) := FFile f 0 false]> (v_fds w)))
  | p_creat_exists p f r : file_of p = Some f → is_Some (v_files w !! f) → r_val r = (-1)%Z → r_errno r = EEXIST →
      posix pid w (Creat p) r w
  | p_open p fl f r : file_of p = Some f → is_Some (v_files w !! f) → (0 <= r_val r)%Z → v_fds w !! (pid, r_val r) = None →
      posix pid w (Open p fl) r
        (set_fds w (<[(pid, r_val r) := FFile f 0 (if fl is O_WRONLY_APPEND then true else false)]> (v_fds w)))
  | p_open_exists p f r : file_of p = Some f → is_Some (v_files w !! f) → r_val r = (-1)%Z → r_errno r = EEXIST →
      posix pid w (Open p O_WRONLY_CREAT) r w
  | p_open_new p f r : file_of p = Some f → f.1 ∈ v_dirs w → v_files w !! f = None →
      (0 <= r_val r)%Z → v_fds w !! (pid, r_val r) = None →
      posix pid w (Open p O_WRONLY_CREAT) r
        (Vfs (v_dirs w) (<[f := []]> (v_files w)) (<[(pid, r_val r) := FFile f 0 false]> (v_fds w)))
  | p_open_none p fl f r : file_of p = Some f → v_files w !! f = None → fl ≠ O_WRONLY_CREAT →
      r_val r = (-1)%Z → r_errno r ≠ EEXIST → posix pid w (Open p fl) r w
  | p_write fd bs f off app old r : v_fds w !! (pid, fd) = Some (FFile f off app) → v_files w !! f = Some old →
      r_val r = size bs →
      let pos := if app : bool then length old else off in
      posix pid w (Write fd bs) r
        (Vfs (v_dirs w) (<[f := write_at old pos bs]> (v_files w))
           (<[(pid, fd) := FFile f (pos + length bs) app]> (v_fds w)))
  | p_read fd n f off app old r : v_fds w !! (pid, fd) = Some (FFile f off app) → v_files w !! f = Some old →
      r_data r = take (Z.to_nat n) (drop off old) → r_val r = size (r_data r) →
      posix pid w (Read fd n) r (set_fds w (<[(pid, fd) := FFile f (off + length (r_data r)) app]> (v_fds w)))
  | p_lseek fd n f off app r : v_fds w !! (pid, fd) = Some (FFile f off app) → (0 <= n)%Z → r_val r = n →
      posix pid w (Lseek fd n) r (set_fds w (<[(pid, fd) := FFile f (Z.to_nat n) app]> (v_fds w)))
  | p_fsync fd r : is_Some (v_fds w !! (pid, fd)) → r_val r = 0%Z → posix pid w (Fsync fd) r w
  | p_close fd r : is_Some (v_fds w !! (pid, fd)) → r_val r = 0%Z →
      posix pid w (Close fd) r (set_fds w (delete (pid, fd) (v_fds w)))
  | p_unlink p f r : file_of p = Some f → is_Some (v_files w !! f) → not_open w f → r_val r = 0%Z →
      posix pid w (Unlink p) r (set_files w (delete f (v_files w)))
  | p_opendir p d r : dir_of p = Some d → d ∈ v_dirs w → (0 <= r_val r)%Z → v_fds w !! (pid, r_val r) = None →
      posix pid w (Opendir p) r (set_fds w (<[(pid, r_val r) := FDir d]> (v_fds w)))
  | p_readdir fd d r : v_fds w !! (pid, fd) = Some (FDir d) → filter counted (r_names r) ≡ₚ filter counted (names_in w d) →
      posix pid w (Readdir fd) r w
  | p_closedir fd d r : v_fds w !! (pid, fd) = Some (FDir d) → r_val r = 0%Z →
      posix pid w (Closedir fd) r (set_fds w (delete (pid, fd) (v_fds w))).

(** ** Runs *)

(** The program [main] of process [pid], and the child it has, with its program or, when
    it is at [Exit], its status.  A fork is described when no descriptor is open, which
    the child would share. *)
Record config := Config { c_world : vfs; c_main : prog; c_child : option (Z * prog) }.

Inductive lstep (pid : Z) : config → config → Prop :=
  | l_main w c k r w' ch : posix pid w c r w' → lstep pid (Config w (Call c k) ch) (Config w' (k r) ch)
  | l_child w m cpid c k r w' : posix cpid w c r w' →
      lstep pid (Config w m (Some (cpid, Call c k))) (Config w' m (Some (cpid, k r)))
  | l_fork w child k cpid : (0 < cpid)%Z → cpid ≠ pid →
      (∀ fd, v_fds w !! (pid, fd) = None) → (∀ fd, v_fds w !! (cpid, fd) = None) →
      lstep pid (Config w (Fork child k) None) (Config w (k cpid) (Some (cpid, child)))
  | l_wait w cpid k status : lstep pid (Config w (Wait cpid k) (Some (cpid, Exit status))) (Config w (k cpid status) None).

(** No process gave up or wrote outside an array. *)
Definition prog_fine (p : prog) : Prop := match p with Exit status => status = 0%Z | Wild => False | _ => True end.
Definition passing (c : config) : Prop := prog_fine (c_main c) ∧ ∀ x, c_child c = Some x → prog_fine x.2.
Definition finished (c : config) : Prop := c_main c = Exit 0 ∧ c_child c = None.

End system.
