(* ===== verification/LabTestRun.v ===== *)
(** * The tests of a mounted file system pass

    A logic for programs that run beside a child process, with a rule for each system
    call; test-lab-3-b and test-lab-3-c fail no check in any interleaving with their
    child processes.  *)

From stdpp Require Import base tactics numbers list gmap sorting strings relations.
From Stdlib Require Import ZArith Lia Ascii.
From S2P Require Import Prelude CxxString LabTest.

Section logic.
Context (mounts : list bytes).
Abbreviation posix := (posix mounts).

Definition possible (pid : Z) (w : vfs) (c : sys) : Prop := ∃ r w', posix pid w c r w'.

(** ** Good programs *)

(** A child [pid] that relies on [R] of the other process, guarantees [G], and ends with
    [Q]. *)
Fixpoint child_ok (pid : Z) (R G : relation vfs) (Q : vfs → Prop) (w : vfs) (p : prog) : Prop :=
  match p with
  | Exit status => status = 0%Z ∧ ∀ w1, R w w1 → Q w1
  | Call c k => ∀ w1, R w w1 → possible pid w1 c ∧
      ∀ r w', posix pid w1 c r w' → G w1 w' ∧ child_ok pid R G Q w' (k r)
  | Wild | Fork _ _ | Wait _ _ => False
  end.

(** [main_ok]: the main program alone; [par_ok]: beside its child [cpid]. *)
Fixpoint main_ok (pid : Z) (w : vfs) (p : prog) {struct p} : Prop :=
  match p with
  | Exit status => status = 0%Z
  | Call c k => possible pid w c ∧ ∀ r w', posix pid w c r w' → main_ok pid w' (k r)
  | Fork child k => (∀ fd, v_fds w !! (pid, fd) = None) ∧
      ∀ cpid, (0 < cpid)%Z → cpid ≠ pid → (∀ fd, v_fds w !! (cpid, fd) = None) →
      ∃ Rp Gp Rc Gc Q, PreOrder Rp ∧ PreOrder Rc ∧
        (∀ w w', Gp w w' → Rc w w') ∧ (∀ w w', Gc w w' → Rp w w') ∧
        child_ok cpid Rc Gc Q w child ∧ par_ok pid Rp Gp cpid Q w (k cpid)
  | Wild | Wait _ _ => False
  end
with par_ok (pid : Z) (R G : relation vfs) (cpid : Z) (Q : vfs → Prop) (w : vfs) (p : prog) {struct p} : Prop :=
  match p with
  | Call c k => ∀ w1, R w w1 → possible pid w1 c ∧
      ∀ r w', posix pid w1 c r w' → G w1 w' ∧ par_ok pid R G cpid Q w' (k r)
  | Wait p k => p = cpid ∧ ∀ w1, R w w1 → Q w1 → main_ok pid w1 (k cpid 0%Z)
  | Exit _ | Wild | Fork _ _ => False
  end.

Definition config_ok (pid : Z) (c : config) : Prop :=
  match c_child c with
  | None => main_ok pid (c_world c) (c_main c)
  | Some (cpid, child) => ∃ Rp Gp Rc Gc Q wp wc, PreOrder Rp ∧ PreOrder Rc ∧
      (∀ w w', Gp w w' → Rc w w') ∧ (∀ w w', Gc w w' → Rp w w') ∧
      Rc wc (c_world c) ∧ child_ok cpid Rc Gc Q wc child ∧
      Rp wp (c_world c) ∧ par_ok pid Rp Gp cpid Q wp (c_main c)
  end.

Lemma config_ok_step pid c c' : config_ok pid c → lstep mounts pid c c' → config_ok pid c'.
Proof.
  intros H Hs. destruct Hs as [w c k r w' [[cpid child]|] Ha|w m cpid c k r w' Ha|w child k cpid H0 Hne Hf Hfc|w cpid k status].
  - destruct H as (Rp & Gp & Rc & Gc & Q & wp & wc & HRp & HRc & HG & HG' & Hwc & Hc & Hwp & Hm). simpl in *.
    destruct (Hm w Hwp) as [_ Hm']. destruct (Hm' r w' Ha) as [Hg Hk].
    exists Rp, Gp, Rc, Gc, Q, w', wc. split_and!; try done; simpl. etrans; [done|]. by apply HG.
  - destruct H as [_ H]. by apply H.
  - destruct H as (Rp & Gp & Rc & Gc & Q & wp & wc & HRp & HRc & HG & HG' & Hwc & Hc & Hwp & Hm). simpl in *.
    destruct (Hc w Hwc) as [_ Hc']. destruct (Hc' r w' Ha) as [Hg Hk].
    exists Rp, Gp, Rc, Gc, Q, wp, w'. split_and!; try done; simpl. etrans; [done|]. by apply HG'.
  - destruct H as [_ H]. destruct (H cpid H0 Hne Hfc) as (Rp & Gp & Rc & Gc & Q & HRp & HRc & HG & HG' & Hc & Hm).
    exists Rp, Gp, Rc, Gc, Q, w, w. by split_and!.
  - destruct H as (Rp & Gp & Rc & Gc & Q & wp & wc & HRp & HRc & HG & HG' & Hwc & [-> Hc] & Hwp & [_ Hm]).
    apply Hm; [done|]. by apply Hc.
Qed.

Lemma config_ok_passing pid c : config_ok pid c → passing c.
Proof.
  destruct c as [w m [[cpid child]|]]; unfold config_ok, passing; simpl.
  - intros (Rp & Gp & Rc & Gc & Q & wp & wc & _ & _ & _ & _ & _ & Hc & _ & Hm). split.
    + by destruct m.
    + intros x [= <-]. simpl. destruct child; try done. by destruct Hc.
  - intros Hm. split; [|done]. by destruct m.
Qed.

Lemma fresh_pid pid (w : vfs) : ∃ cpid, (0 < cpid)%Z ∧ cpid ≠ pid ∧ ∀ fd, v_fds w !! (cpid, fd) = None.
Proof.
  set (used := {[pid]} ∪ set_map fst (dom (v_fds w)) : gset Z).
  assert (∀ l x, x ∈ l → (x <= foldr Z.max 0 l)%Z) as Hmax.
  { intros l x. induction l as [|y l IH]; [by intros ?%elem_of_nil|].
    intros [->|Hx]%elem_of_cons; simpl; [lia|]. specialize (IH Hx). lia. }
  assert (∀ l, (0 <= foldr Z.max 0 l)%Z) as Hpos by (intros l; induction l; simpl; lia).
  set (n := (1 + foldr Z.max 0 (elements used))%Z).
  assert (∀ x, x ∈ used → (x < n)%Z) as Hlt.
  { intros x Hx%elem_of_elements. apply Hmax in Hx. unfold n. lia. }
  assert (0 < n)%Z by (specialize (Hpos (elements used)); unfold n; lia).
  exists n. split_and!; [done| |].
  - intros E. assert (pid ∈ used) as Hp%Hlt by set_solver. lia.
  - intros fd. apply not_elem_of_dom. intros Hin. assert (n ∈ used) as Hn%Hlt; [|lia].
    apply elem_of_union_r. apply elem_of_map. by exists (n, fd).
Qed.

Lemma config_ok_progress pid c : config_ok pid c → finished c ∨ ∃ c', lstep mounts pid c c'.
Proof.
  destruct c as [w m [[cpid child]|]]; unfold config_ok, finished; simpl.
  - intros (Rp & Gp & Rc & Gc & Q & wp & wc & HRp & HRc & _ & _ & Hwc & Hc & Hwp & Hm). right.
    destruct m as [| |c k| |p k]; try done.
    + destruct (Hm w Hwp) as [(r & w' & Ha) _]. eexists. by constructor.
    + destruct Hm as [-> _]. destruct child as [st| |c k'| |]; try done.
      * eexists. constructor.
      * destruct (Hc w Hwc) as [(r & w' & Ha) _]. eexists. by constructor.
  - intros Hm. destruct m as [st| |c k|child k|]; try done.
    + left. by rewrite Hm.
    + right. destruct Hm as [(r & w' & Ha) _]. eexists. by constructor.
    + right. destruct Hm as [Hf _]. destruct (fresh_pid pid w) as (cpid & H0 & Hne & Hfc). eexists. by constructor.
Qed.

(** Every run ends. *)
Lemma runs_end_beside pid p : (∀ w, sn (lstep mounts pid) (Config w p None)) →
  (∀ c k r w ch, p = Call c k → sn (lstep mounts pid) (Config w (k r) ch)) →
  (∀ q k x y w, p = Wait q k → sn (lstep mounts pid) (Config w (k x y) None)) →
  ∀ ch w, sn (lstep mounts pid) (Config w p ch).
Proof.
  intros Hnone Hcall Hwait [[cpid q]|]; [|apply Hnone].
  induction q as [| |c' k' IHc|? _ ? _|? ? _]; intros w; constructor; intros c'' Hs; inversion Hs; subst;
    first [by eapply Hcall|by eapply Hwait|apply IHc].
Qed.

Lemma runs_end pid p : ∀ ch w, sn (lstep mounts pid) (Config w p ch).
Proof.
  induction p as [| |c k IH|child _ k IH|q k IH]; apply runs_end_beside; intros; simplify_eq; try apply IH;
    constructor; intros c' Hs; inversion Hs; subst; apply IH.
Qed.

(** A good program fails no check, is never stuck and comes to its end. *)
Lemma main_ok_run pid w p : main_ok pid w p →
  sn (lstep mounts pid) (Config w p None) ∧
  ∀ c, rtc (lstep mounts pid) (Config w p None) c → passing c ∧ (finished c ∨ ∃ c', lstep mounts pid c c').
Proof.
  intros Hp. split; [apply runs_end|]. intros c Hc.
  assert (config_ok pid c) as Hok.
  { change (config_ok pid (Config w p None)) in Hp. revert Hp.
    induction Hc as [|c1 c2 c3 Hs _ IH]; [done|]. intros H1. apply IH. by eapply config_ok_step. }
  split; [by eapply config_ok_passing|by eapply config_ok_progress].
Qed.

(** ** What a part of a program is proved against *)

(** [OK w p]: the program [p] of [pid] is good from [w]; between its calls the world
    changes by [R], and its calls change it by [G]. *)
Class Runs (pid : Z) (R G : relation vfs) (OK : vfs → prog → Prop) : Prop :=
  runs_call : ∀ w c k,
    (∀ w1, R w w1 → possible pid w1 c ∧ ∀ r w', posix pid w1 c r w' → G w1 w' ∧ OK w' (k r)) →
    OK w (Call c k).

#[global] Instance main_runs pid : Runs pid eq (λ _ _, True) (main_ok pid).
Proof.
  intros w c k H. destruct (H w eq_refl) as [Hp Hk]. split; [done|]. intros r w' Ha. by destruct (Hk r w' Ha).
Qed.
#[global] Instance child_runs pid R G Q : Runs pid R G (child_ok pid R G Q).
Proof. by intros w c k H. Qed.
#[global] Instance par_runs pid R G cpid Q : Runs pid R G (par_ok pid R G cpid Q).
Proof. by intros w c k H. Qed.

(** ** A process and its files *)

(** [pid] has the files of directory [d] whose names satisfy [N] for itself: they are
    [m]; its descriptors are [fm]. *)
Definition st (pid : Z) (d : bytes) (N : bytes → bool) (m : gmap bytes bytes) (fm : gmap Z fdesc) (w : vfs) : Prop :=
  d ∈ v_dirs w ∧ (∀ f, N f = true → v_files w !! (d, f) = m !! f) ∧ (∀ fd, v_fds w !! (pid, fd) = fm !! fd) ∧
  ∀ key f off app, v_fds w !! key = Some (FFile (d, f) off app) → N f = true → key.1 = pid.

Definition rely (pid : Z) (d : bytes) (N : bytes → bool) (w w1 : vfs) : Prop :=
  ∀ m fm, st pid d N m fm w → st pid d N m fm w1.

Definition act (pid : Z) (d : bytes) (N : bytes → bool) (w w' : vfs) : Prop :=
  v_dirs w ⊆ v_dirs w' ∧
  (∀ g, (g.1 = d → N g.2 = false) → v_files w' !! g = v_files w !! g) ∧
  (∀ key, key.1 ≠ pid → v_fds w' !! key = v_fds w !! key) ∧
  ∀ fd g off app, v_fds w' !! (pid, fd) = Some (FFile g off app) →
    (∃ off' app', v_fds w !! (pid, fd) = Some (FFile g off' app')) ∨ (g.1 = d ∧ N g.2 = true).

#[global] Instance rely_preorder pid d N : PreOrder (rely pid d N).
Proof. split; [by intros w m fm|]. intros w1 w2 w3 H1 H2 m fm H. by apply H2, H1. Qed.

Lemma act_rely pid d N pid' d' N' w w' : pid ≠ pid' → (∀ f, d = d' → N f = true → N' f = false) →
  act pid d N w w' → rely pid' d' N' w w'.
Proof.
  intros Hne Hdis (Hd & Hf & Ho & Hown) m fm (Hd' & Hm & Hfm & Hsafe). split_and!.
  - set_solver.
  - intros f HN. rewrite Hf; [by apply Hm|]. simpl. intros ->. destruct (N f) eqn:E; [|done].
    apply Hdis in E; [|done]. congruence.
  - intros fd. rewrite Ho by (simpl; congruence). apply Hfm.
  - intros [p fd] f off app Hkey HN. simpl. destruct (decide (p = pid)) as [->|Hp].
    + destruct (Hown fd (d', f) off app Hkey) as [(off' & app' & Hw)|[Hd2 HN2]].
      * by apply Hsafe in Hw.
      * simpl in *. apply Hdis in HN2; [congruence|done].
    + rewrite Ho in Hkey by done. by apply Hsafe in Hkey.
Qed.

Lemma fresh_fd pid (w : vfs) : ∃ fd, (0 <= fd)%Z ∧ v_fds w !! (pid, fd) = None.
Proof.
  destruct (fresh_pid 0 (Vfs ∅ ∅ (kmap (λ k, (k.2, k.1)) (v_fds w)))) as (fd & Hpos & _ & H).
  exists fd. split; [lia|]. specialize (H pid). simpl in H. rewrite <- H. symmetry.
  apply (lookup_kmap (λ k : Z * Z, (k.2, k.1)) (v_fds w) (pid, fd)).
Qed.

Lemma last_slash_none b : slash ∉ b → last_slash b = None.
Proof.
  induction b as [|c b IH]; [done|]. intros [Hc Hb]%not_elem_of_cons. simpl. rewrite IH by done.
  by destruct (decide (c = slash)).
Qed.
Lemma last_slash_app a b : slash ∉ b → last_slash (a ++ slash :: b) = Some (a, b).
Proof.
  intros Hb. induction a as [|c a IH]; simpl; [|by rewrite IH].
  rewrite last_slash_none by done. by destruct (decide (slash = slash)).
Qed.

(** A write by a descriptor that does not append. *)
Lemma posix_write pid w fd bs f off old r w' : v_fds w !! (pid, fd) = Some (FFile f off false) → v_files w !! f = Some old →
  posix pid w (Write fd bs) r w' → r_val r = size bs ∧
  w' = Vfs (v_dirs w) (<[f := write_at old off bs]> (v_files w)) (<[(pid, fd) := FFile f (off + length bs) false]> (v_fds w)).
Proof. intros Hfd Hf Ha. inversion Ha; subst. by simplify_eq. Qed.

Lemma posix_creat pid w p f r w' : file_of mounts p = Some f → posix pid w (Creat p) r w' →
  ((0 <= r_val r)%Z ∧ v_fds w !! (pid, r_val r) = None ∧
   w' = Vfs (v_dirs w) (<[f := []]> (v_files w)) (<[(pid, r_val r) := FFile f 0 false]> (v_fds w))) ∨
  (is_Some (v_files w !! f) ∧ r_val r = (-1)%Z ∧ r_errno r = EEXIST ∧ w' = w).
Proof. intros Hp Ha. inversion Ha; subst; simplify_eq; [left|right]; by split_and!. Qed.

Lemma posix_open pid w p fl f c r w' : file_of mounts p = Some f → v_files w !! f = Some c → posix pid w (Open p fl) r w' →
  ((0 <= r_val r)%Z ∧
   w' = set_fds w (<[(pid, r_val r) := FFile f 0 (if fl is O_WRONLY_APPEND then true else false)]> (v_fds w))) ∨
  (fl = O_WRONLY_CREAT ∧ r_val r = (-1)%Z ∧ r_errno r = EEXIST ∧ w' = w).
Proof. intros Hp Hf Ha. inversion Ha; subst; simplify_eq; [left|right]; by split_and!. Qed.

(** ** Rules *)
Section rules.
Context (pid : Z) (d : bytes) (N : bytes → bool) (R G : relation vfs) (OK : vfs → prog → Prop).
Context `{HRuns : !Runs pid R G OK}.
Context (HR : ∀ w w1, R w w1 → rely pid d N w w1) (HG : ∀ w w', act pid d N w w' → G w w').

Lemma ok_sleep n k m fm w : st pid d N m fm w → (∀ r w', st pid d N m fm w' → OK w' (k r)) → OK w (Call (Sleep n) k).
Proof.
  intros Hw Hk. apply runs_call. intros w1 Hw1%HR. specialize (Hw1 _ _ Hw). split.
  - exists (Ret 0 0 [] []), w1. constructor.
  - intros r w' Ha. inversion Ha; subst. split; [|by apply Hk].
    apply HG. split_and!; try done. intros fd g off app H. left. eauto.
Qed.

(** A call that changes files of the process and a descriptor of it. *)
Lemma st_update m fm w f c fd x :
  st pid d N m fm w → N f = true → (∀ g off app, x = FFile g off app → g = (d, f)) →
  let w' := Vfs (v_dirs w) (<[(d, f) := c]> (v_files w)) (<[(pid, fd) := x]> (v_fds w)) in
  act pid d N w w' ∧ st pid d N (<[f := c]> m) (<[fd := x]> fm) w'.
Proof.
  intros (Hd & Hm & Hfm & Hsafe) HN Hx w'. split; split_and!; simpl.
  - done.
  - intros [d' g] Hg. simpl in Hg. apply lookup_insert_ne. intros [= <- <-]. by rewrite Hg in HN.
  - intros key Hkey. apply lookup_insert_ne. by intros <-.
  - intros fd' g off app. destruct (decide (fd = fd')) as [<-|Hne].
    + rewrite lookup_insert_eq. intros [= E]. right. by rewrite (Hx _ _ _ E).
    + rewrite lookup_insert_ne by congruence. eauto.
  - done.
  - intros g Hg. destruct (decide (f = g)) as [<-|Hne]; [by rewrite !lookup_insert_eq|].
    rewrite !lookup_insert_ne by congruence. by apply Hm.
  - intros fd'. destruct (decide (fd = fd')) as [<-|Hne]; [by rewrite !lookup_insert_eq|].
    rewrite !lookup_insert_ne by congruence. apply Hfm.
  - intros key g off app. destruct (decide (key = (pid, fd))) as [->|Hne]; [done|].
    rewrite lookup_insert_ne by congruence. apply Hsafe.
Qed.

(** A call that changes a descriptor only: it is of a file of the process, or closed. *)
Lemma st_set_fd m fm w fd x :
  st pid d N m fm w → (∀ g off app, x = FFile g off app → g.1 = d ∧ N g.2 = true) →
  let w' := set_fds w (<[(pid, fd) := x]> (v_fds w)) in
  act pid d N w w' ∧ st pid d N m (<[fd := x]> fm) w'.
Proof.
  intros (Hd & Hm & Hfm & Hsafe) Hx w'. split; split_and!; simpl; try done.
  - intros key Hkey. apply lookup_insert_ne. by intros <-.
  - intros fd' g off app. destruct (decide (fd = fd')) as [<-|Hne].
    + rewrite lookup_insert_eq. intros [= E]. right. by apply (Hx _ _ _ E).
    + rewrite lookup_insert_ne by congruence. eauto.
  - intros fd'. destruct (decide (fd = fd')) as [<-|Hne]; [by rewrite !lookup_insert_eq|].
    rewrite !lookup_insert_ne by congruence. apply Hfm.
  - intros key g off app. destruct (decide (key = (pid, fd))) as [->|Hne]; [done|].
    rewrite lookup_insert_ne by congruence. apply Hsafe.
Qed.

Lemma st_close_fd m fm w fd : st pid d N m fm w →
  let w' := set_fds w (delete (pid, fd) (v_fds w)) in
  act pid d N w w' ∧ st pid d N m (delete fd fm) w'.
Proof.
  intros (Hd & Hm & Hfm & Hsafe) w'. split; split_and!; simpl; try done.
  - intros key Hkey. apply lookup_delete_ne. by intros <-.
  - intros fd' g off app [_ H]%lookup_delete_Some. eauto.
  - intros fd'. destruct (decide (fd = fd')) as [<-|Hne]; [by rewrite !lookup_delete_eq|].
    rewrite !lookup_delete_ne by congruence. apply Hfm.
  - intros key g off app [_ H]%lookup_delete_Some. by eapply Hsafe.
Qed.

Lemma st_remove m fm w f : st pid d N m fm w → N f = true →
  let w' := set_files w (delete (d, f) (v_files w)) in
  act pid d N w w' ∧ st pid d N (delete f m) fm w'.
Proof.
  intros (Hd & Hm & Hfm & Hsafe) HN w'. split; split_and!; simpl; try done.
  - intros [d' g] Hg. simpl in Hg. apply lookup_delete_ne. intros [= <- <-]. by rewrite Hg in HN.
  - eauto.
  - intros g Hg. destruct (decide (f = g)) as [<-|Hne]; [by rewrite !lookup_delete_eq|].
    rewrite !lookup_delete_ne by congruence. by apply Hm.
Qed.

Abbreviation ST := (st pid d N).

Ltac enter Hw := apply runs_call; let w1 := fresh "w1" in let H := fresh "Hw1" in
  intros w1 H%HR; specialize (H _ _ Hw); clear Hw; rename H into Hw.

Lemma ok_creat p f k m fm w :
  ST m fm w → file_of mounts p = Some (d, f) → N f = true → m !! f = None →
  (∀ r w', (0 <= r_val r)%Z → fm !! r_val r = None →
    ST (<[f := []]> m) (<[r_val r := FFile (d, f) 0 false]> fm) w' → OK w' (k r)) →
  OK w (Call (Creat p) k).
Proof.
  intros Hw Hp HN Hf Hk. enter Hw. pose proof Hw as (Hd & Hm & Hfm & _). split.
  - destruct (fresh_fd pid w1) as (fd & H0 & Hfd). exists (Ret fd 0 [] []). eexists. by apply (p_creat _ _ _ _ (d, f)).
  - intros r w' Ha. inversion Ha as [| | | |p' f' r' Hp' Hd' H0 Hfd|p' f' r' Hp' Hs| | | | | | | | | | | | |]; subst;
      rewrite Hp in Hp'; simplify_eq.
    + destruct (st_update m fm w1 f [] (r_val r) (FFile (d, f) 0 false)) as [Hact Hst]; [done|done|by intros ??? [= <-]|].
      split; [by apply HG|]. apply Hk; [done| |done]. by rewrite <- Hfm.
    + rewrite Hm, Hf in Hs by done. by destruct Hs.
Qed.

Lemma ok_open p fl f c k m fm w :
  ST m fm w → file_of mounts p = Some (d, f) → N f = true → m !! f = Some c → fl ≠ O_WRONLY_CREAT →
  (∀ r w', (0 <= r_val r)%Z → fm !! r_val r = None →
    ST m (<[r_val r := FFile (d, f) 0 (if fl is O_WRONLY_APPEND then true else false)]> fm) w' → OK w' (k r)) →
  OK w (Call (Open p fl) k).
Proof.
  intros Hw Hp HN Hf Hfl Hk. enter Hw. pose proof Hw as (Hd & Hm & Hfm & _). split.
  - destruct (fresh_fd pid w1) as (fd & H0 & Hfd). exists (Ret fd 0 [] []). eexists.
    apply (p_open _ _ _ _ _ (d, f)); try done. by rewrite Hm, Hf.
  - intros r w' Ha. inversion Ha as [| | | | | |p' fl' f' r' Hp' Hs H0 Hfd|p' f' r' Hp'| |p' fl' f' r' Hp' Hno| | | | | | | | |]; subst; try done;
      rewrite Hp in Hp'; simplify_eq.
    + destruct (st_set_fd m fm w1 (r_val r) (FFile (d, f) 0 (if fl is O_WRONLY_APPEND then true else false)))
        as [Hact Hst]; [done|by intros ??? [= <-]|].
      split; [by apply HG|]. apply Hk; [done| |done]. by rewrite <- Hfm.
    + rewrite Hm, Hf in Hno by done. done.
Qed.

Lemma ok_open_none p f k m fm w :
  ST m fm w → file_of mounts p = Some (d, f) → N f = true → m !! f = None →
  (∀ r w', (r_val r < 0)%Z → ST m fm w' → OK w' (k r)) →
  OK w (Call (Open p O_RDONLY) k).
Proof.
  intros Hw Hp HN Hf Hk. enter Hw. pose proof Hw as (Hd & Hm & Hfm & _). split.
  - exists (Ret (-1) 2 [] []). eexists. apply (p_open_none _ _ _ _ _ (d, f)); try done. by rewrite Hm.
  - intros r w' Ha. inversion Ha as [| | | | | |p' fl' f' r' Hp' Hs H0 Hfd|p' f' r' Hp'| |p' fl' f' r' Hp' Hno ? Hr| | | | | | | | |]; subst; try done;
      rewrite Hp in Hp'; simplify_eq.
    + rewrite Hm, Hf in Hs by done. by destruct Hs.
    + split; [apply HG; split_and!; try done; eauto|]. apply Hk; [lia|done].
Qed.

Lemma ok_write fd bs f off app old k m fm w :
  ST m fm w → fm !! fd = Some (FFile (d, f) off app) → N f = true → m !! f = Some old →
  (∀ r w', r_val r = size bs →
    ST (<[f := write_at old (if app then length old else off) bs]> m)
      (<[fd := FFile (d, f) ((if app then length old else off) + length bs) app]> fm) w' → OK w' (k r)) →
  OK w (Call (Write fd bs) k).
Proof.
  intros Hw Hfd HN Hf Hk. enter Hw. pose proof Hw as (Hd & Hm & Hfm & _).
  rewrite <- Hfm in Hfd. pose proof Hf as Hf'. rewrite <- Hm in Hf' by done. split.
  - exists (Ret (size bs) 0 [] []). eexists. by eapply p_write.
  - intros r w' Ha. inversion Ha; subst. simplify_eq.
    destruct (st_update m fm w1 f (write_at old (if app then length old else off) bs) fd
      (FFile (d, f) ((if app then length old else off) + length bs) app)) as [Hact Hst]; [done|done|by intros ??? [= <-]|].
    split; [by apply HG|]. by apply Hk.
Qed.

Lemma ok_read fd n f off app old k m fm w :
  ST m fm w → fm !! fd = Some (FFile (d, f) off app) → N f = true → m !! f = Some old →
  (∀ r w', r_data r = take (Z.to_nat n) (drop off old) → r_val r = size (take (Z.to_nat n) (drop off old)) →
    ST m (<[fd := FFile (d, f) (off + length (take (Z.to_nat n) (drop off old))) app]> fm) w' → OK w' (k r)) →
  OK w (Call (Read fd n) k).
Proof.
  intros Hw Hfd HN Hf Hk. enter Hw. pose proof Hw as (Hd & Hm & Hfm & _).
  rewrite <- Hfm in Hfd. pose proof Hf as Hf'. rewrite <- Hm in Hf' by done. split.
  - exists (Ret (size (take (Z.to_nat n) (drop off old))) 0 (take (Z.to_nat n) (drop off old)) []). eexists. by eapply p_read.
  - intros r w' Ha. inversion Ha as [| | | | | | | | | | |fd' n' f' off' app' old' r' H1 H2 Hr Hv| | | | | | |]; subst. simplify_eq.
    destruct (st_set_fd m fm w1 fd (FFile (d, f) (off + length (r_data r)) app)) as [Hact Hst]; [done|by intros ??? [= <-]|].
    split; [by apply HG|]. apply Hk; [done|by rewrite <- Hr|by rewrite <- Hr].
Qed.

Lemma ok_lseek fd n f off app k m fm w :
  ST m fm w → fm !! fd = Some (FFile (d, f) off app) → N f = true → (0 <= n)%Z →
  (∀ r w', r_val r = n → ST m (<[fd := FFile (d, f) (Z.to_nat n) app]> fm) w' → OK w' (k r)) →
  OK w (Call (Lseek fd n) k).
Proof.
  intros Hw Hfd HN Hn Hk. enter Hw. pose proof Hw as (Hd & Hm & Hfm & _). rewrite <- Hfm in Hfd. split.
  - exists (Ret n 0 [] []). eexists. by eapply p_lseek.
  - intros r w' Ha. inversion Ha as [| | | | | | | | | | | |fd' n' f' off' app' r' H1 H2 Hr| | | | | |]; subst. simplify_eq.
    destruct (st_set_fd m fm w1 fd (FFile (d, f) (Z.to_nat (r_val r)) app)) as [Hact Hst]; [done|by intros ??? [= <-]|].
    split; [by apply HG|]. by apply Hk.
Qed.

Lemma ok_close fd k m fm w : ST m fm w → is_Some (fm !! fd) →
  (∀ r w', r_val r = 0%Z → ST m (delete fd fm) w' → OK w' (k r)) → OK w (Call (Close fd) k).
Proof.
  intros Hw Hfd Hk. enter Hw. pose proof Hw as (Hd & Hm & Hfm & _). rewrite <- Hfm in Hfd. split.
  - exists (Ret 0 0 [] []). eexists. by eapply p_close.
  - intros r w' Ha. inversion Ha; subst. destruct (st_close_fd m fm w1 fd Hw) as [Hact Hst].
    split; [by apply HG|]. by apply Hk.
Qed.

Lemma ok_unlink p f k m w :
  ST m ∅ w → file_of mounts p = Some (d, f) → N f = true → is_Some (m !! f) →
  (∀ r w', r_val r = 0%Z → ST (delete f m) ∅ w' → OK w' (k r)) → OK w (Call (Unlink p) k).
Proof.
  intros Hw Hp HN Hf Hk. enter Hw. pose proof Hw as (Hd & Hm & Hfm & Hsafe).
  assert (not_open w1 (d, f)) as Hno.
  { intros [p' fd] g off app Hkey ->. pose proof (Hsafe _ _ _ _ Hkey HN) as Hpid. simpl in Hpid. subst p'.
    by rewrite Hfm, lookup_empty in Hkey. }
  rewrite <- Hm in Hf by done. split.
  - exists (Ret 0 0 [] []). eexists. by eapply p_unlink.
  - intros r w' Ha. inversion Ha as [| | | | | | | | | | | | | | |p' f' r' Hp'| | |]; subst. rewrite Hp in Hp'. simplify_eq.
    destruct (st_remove m ∅ w1 f Hw HN) as [Hact Hst]. split; [by apply HG|]. by apply Hk.
Qed.

(** ** The functions of the tests *)

(** A path of the directory, and a name in it, short enough for the buffers. *)
Definition dir_path (p : bytes) : Prop := dir_of mounts p = Some d ∧ (size p <= 480)%Z.
Definition nice (f : bytes) : bool := bool_decide (slash ∉ f) && (size f <=? 20)%Z.

Lemma ok_path p f (k : bytes → prog) (P : prog → Prop) : dir_path p → nice f = true →
  (file_of mounts (path_of p f) = Some (d, f) → P (k (path_of p f))) → P (sprintf512 (path_of p f) k).
Proof.
  intros [Hp Hsz] [Hf%bool_decide_eq_true Hsf%Z.leb_le]%andb_true_iff Hk.
  unfold sprintf512. destruct (Z.ltb_spec (size (path_of p f)) 512) as [_|Hlt].
  - apply Hk. unfold file_of, path_of. rewrite last_slash_app by done. by rewrite Hp.
  - unfold path_of in Hlt. rewrite size_app in Hlt. change (slash :: f) with ([slash] ++ f) in Hlt.
    rewrite size_app in Hlt. change (size [slash]) with 1%Z in Hlt. lia.
Qed.

Lemma passed b (k : prog) (P : prog → Prop) : b = true → P k → P (require b k).
Proof. by intros ->. Qed.

Lemma create_write_close p f bs k m w (P : ret → prog → prog) :
  ST m ∅ w → file_of mounts p = Some (d, f) → N f = true → m !! f = None →
  (∀ r q, (0 <= r_val r)%Z → P r q = q) →
  (∀ w', ST (<[f := bs]> m) ∅ w' → OK w' k) →
  OK w (Call (Creat p) (λ fd, P fd (
    Call (Write (r_val fd) bs) (λ r, require (r_val r =? size bs)%Z (
    Call (Close (r_val fd)) (λ r, require (r_val r =? 0)%Z k)))))).
Proof.
  intros Hw Hp HN Hf HP Hk. eapply ok_creat; [done..|]. intros r w1 H0 _ Hw1. rewrite HP by done. rewrite insert_empty in Hw1.
  eapply ok_write; [done|by apply lookup_singleton_eq|done|by apply lookup_insert_eq|]. intros r2 w2 Hr2 Hw2.
  apply passed; [by apply Z.eqb_eq|]. rewrite insert_insert_eq, insert_singleton_eq in Hw2.
  eapply ok_close; [done|rewrite lookup_singleton_eq; by eauto|]. intros r3 w3 Hr3 Hw3.
  apply passed; [by apply Z.eqb_eq|]. rewrite delete_singleton_eq in Hw3. apply Hk.
  unfold write_at in Hw3. simpl in Hw3. by rewrite drop_nil, app_nil_r in Hw3.
Qed.

Lemma create1_ok p f bs k m w : dir_path p → nice f = true → ST m ∅ w → N f = true → m !! f = None →
  (∀ w', ST (<[f := bs]> m) ∅ w' → OK w' k) → OK w (create1 p f bs k).
Proof.
  intros Hp Hnf Hw HN Hf Hk. eapply ok_sleep; [done|]. intros _ w1 Hw1. apply ok_path; [done..|]. intros Hfile.
  eapply (create_write_close _ _ _ _ _ _ (λ fd, require (0 <=? r_val fd)%Z)); [done..| |done].
  intros fd q H0. unfold require. by destruct (Z.leb_spec 0 (r_val fd)); [|lia].
Qed.

(** The check looks at as many characters as the path has. *)
Lemma check1_ok bufsz p f input c k m w : dir_path p → nice f = true → ST m ∅ w → N f = true → m !! f = Some c →
  size c = size input → (size c < bufsz)%Z → strncmp_eq c input (size (path_of p f)) = true →
  (∀ w', ST m ∅ w' → OK w' k) → OK w (check1 bufsz p f input k).
Proof.
  intros Hp Hnf Hw HN Hf Hsz Hbuf Hcmp Hk. unfold check1. apply ok_path; [done..|]. intros Hfile.
  eapply ok_open; [done..|]. intros r w1 H0 _ Hw1. apply passed; [by apply Z.leb_le|]. rewrite insert_empty in Hw1.
  eapply ok_read; [done|by apply lookup_singleton_eq|done..|]. intros r2 w2. simpl.
  rewrite drop_0, take_ge by (unfold size in *; lia). intros Hd Hv Hw2.
  apply passed; [by rewrite Hv, Hsz, Z.eqb_refl|]. rewrite insert_singleton_eq in Hw2.
  eapply ok_close; [done|rewrite lookup_singleton_eq; by eauto|]. intros r3 w3 _ Hw3. rewrite delete_singleton_eq in Hw3.
  apply passed; [by rewrite Hd|]. by apply Hk.
Qed.

Lemma unlink1_ok p f k m w : dir_path p → nice f = true → ST m ∅ w → N f = true → is_Some (m !! f) →
  (∀ w', ST (delete f m) ∅ w' → OK w' k) → OK w (unlink1 p f k).
Proof.
  intros Hp Hnf Hw HN Hf Hk. eapply ok_sleep; [done|]. intros _ w1 Hw1. apply ok_path; [done..|]. intros Hfile.
  eapply ok_unlink; [done..|]. intros r w2 Hr Hw2. apply passed; [by apply Z.eqb_eq|]. by apply Hk.
Qed.

Lemma checknot_ok p f k m w : dir_path p → nice f = true → ST m ∅ w → N f = true → m !! f = None →
  (∀ w', ST m ∅ w' → OK w' k) → OK w (checknot p f k).
Proof.
  intros Hp Hnf Hw HN Hf Hk. unfold checknot. apply ok_path; [done..|]. intros Hfile.
  eapply ok_open_none; [done..|]. intros r w1 Hr Hw1. apply passed; [by apply Z.ltb_lt|]. by apply Hk.
Qed.

Lemma append1_ok p f bs c k m w : dir_path p → nice f = true → ST m ∅ w → N f = true → m !! f = Some c →
  (∀ w', ST (<[f := c ++ bs]> m) ∅ w' → OK w' k) → OK w (append1 p f bs k).
Proof.
  intros Hp Hnf Hw HN Hf Hk. eapply ok_sleep; [done|]. intros _ w0 Hw0. apply ok_path; [done..|]. intros Hfile.
  eapply ok_open; [done..|]. intros r w1 H0 _ Hw1. apply passed; [by apply Z.leb_le|]. rewrite insert_empty in Hw1.
  eapply ok_write; [done|by apply lookup_singleton_eq|done..|]. intros r2 w2 Hr2 Hw2. simpl in Hw2.
  apply passed; [by apply Z.eqb_eq|]. rewrite insert_singleton_eq in Hw2.
  eapply ok_close; [done|rewrite lookup_singleton_eq; by eauto|]. intros r3 w3 Hr3 Hw3.
  apply passed; [by apply Z.eqb_eq|]. rewrite delete_singleton_eq in Hw3. apply Hk.
  unfold write_at in Hw3. rewrite take_ge, Nat.sub_diag, drop_ge in Hw3 by lia. simpl in Hw3. by rewrite app_nil_r in Hw3.
Qed.

(** *** The loops over numbered files *)
Abbreviation name pre i := (numbered pre (Z.of_nat i)).

Definition can_create (pre : bytes) (l : list nat) (m : gmap bytes bytes) : bool :=
  forallb (λ i, nice (name pre i) && N (name pre i) && bool_decide (m !! name pre i = None)) l &&
  bool_decide (NoDup ((λ i, name pre i) <$> l)).
Definition created (pre : bytes) (l : list nat) (m : gmap bytes bytes) : gmap bytes bytes :=
  foldl (λ m i, <[name pre i := int_bytes (Z.of_nat i)]> m) m l.

Lemma can_create_cons pre i l m : can_create pre (i :: l) m = true →
  nice (name pre i) = true ∧ N (name pre i) = true ∧ m !! name pre i = None ∧
  can_create pre l (<[name pre i := int_bytes (Z.of_nat i)]> m) = true.
Proof.
  unfold can_create. rewrite fmap_cons. cbn [forallb].
  intros [[[[Hn HN]%andb_true_iff Hm%bool_decide_eq_true]%andb_true_iff Hl]%andb_true_iff
    [Hi Hnd]%bool_decide_eq_true%NoDup_cons]%andb_true_iff.
  split_and!; [done..|]. apply andb_true_iff. split; [|by apply bool_decide_eq_true].
  apply forallb_forall. intros j Hj. rewrite forallb_forall in Hl. pose proof (Hl j Hj) as [[Hnj HNj]%andb_true_iff Hmj%bool_decide_eq_true]%andb_true_iff.
  rewrite Hnj, HNj. apply bool_decide_eq_true. rewrite lookup_insert_ne; [done|].
  intros E. apply Hi. rewrite E. apply (list_elem_of_fmap_2 (λ i, name pre i)). by apply list_elem_of_In.
Qed.

Lemma createn_ok p pre nf k m w : dir_path p → ST m ∅ w → can_create pre (seq 0 nf) m = true →
  (∀ w', ST (created pre (seq 0 nf) m) ∅ w' → OK w' k) → OK w (createn p pre nf false k).
Proof.
  intros Hp Hw Hc Hk. eapply ok_sleep; [done|]. intros _ w0 Hw0. clear w Hw. revert m w0 Hw0 Hc Hk.
  induction (seq 0 nf) as [|i l IH]; intros m w Hw Hc Hk; [by apply Hk|].
  apply can_create_cons in Hc as (Hn & HN & Hf & Hc). cbn [for_each foldr]. apply ok_path; [done..|]. intros Hfile.
  change 4%Z with (size (int_bytes (Z.of_nat i))).
  eapply (create_write_close _ _ _ _ _ _ (λ fd q, if (r_val fd <? 0)%Z && false && (r_errno fd =? EEXIST)%Z then _ else require (0 <=? r_val fd)%Z q)); [done..| |].
  - intros fd q H0. rewrite andb_false_r. unfold require. by destruct (Z.leb_spec 0 (r_val fd)); [|lia].
  - intros w1 Hw1. by eapply IH.
Qed.

Definition can_check (pre : bytes) (l : list nat) (m : gmap bytes bytes) : bool :=
  forallb (λ i, nice (name pre i) && N (name pre i) && bool_decide (m !! name pre i = Some (int_bytes (Z.of_nat i))) &&
    bool_decide (int_of_bytes (int_bytes (Z.of_nat i)) = Z.of_nat i)) l.

Lemma checkn_ok p pre nf k m w : dir_path p → ST m ∅ w → can_check pre (seq 0 nf) m = true →
  (∀ w', ST m ∅ w' → OK w' k) → OK w (checkn p pre nf k).
Proof.
  intros Hp Hw Hc Hk. unfold checkn. revert w Hw Hc.
  induction (seq 0 nf) as [|i l IH]; intros w Hw Hc; [by apply Hk|]. cbn [can_check forallb] in Hc.
  apply andb_true_iff in Hc as [[[[Hn HN]%andb_true_iff Hf%bool_decide_eq_true]%andb_true_iff Hi%bool_decide_eq_true]%andb_true_iff Hc].
  cbn [for_each foldr]. apply ok_path; [done..|]. intros Hfile.
  eapply ok_open; [done..|]. intros r w1 H0 _ Hw1. apply passed; [by apply Z.leb_le|]. rewrite insert_empty in Hw1.
  eapply ok_read; [done|by apply lookup_singleton_eq|done..|]. intros r2 w2 Hd Hv Hw2.
  apply passed; [by rewrite Hv|]. apply passed; [rewrite Hd; by apply Z.eqb_eq|]. rewrite insert_singleton_eq in Hw2.
  eapply ok_close; [done|rewrite lookup_singleton_eq; by eauto|]. intros r3 w3 _ Hw3. rewrite delete_singleton_eq in Hw3.
  by apply IH.
Qed.

Definition can_unlink (pre : bytes) (l : list nat) (m : gmap bytes bytes) : bool :=
  forallb (λ i, nice (name pre i) && N (name pre i) && bool_decide (m !! name pre i ≠ None)) l &&
  bool_decide (NoDup ((λ i, name pre i) <$> l)).
Definition unlinked (pre : bytes) (l : list nat) (m : gmap bytes bytes) : gmap bytes bytes :=
  foldl (λ m i, delete (name pre i) m) m l.

Lemma can_unlink_cons pre i l m : can_unlink pre (i :: l) m = true →
  nice (name pre i) = true ∧ N (name pre i) = true ∧ is_Some (m !! name pre i) ∧
  can_unlink pre l (delete (name pre i) m) = true.
Proof.
  unfold can_unlink. rewrite fmap_cons. cbn [forallb].
  intros [[[[Hn HN]%andb_true_iff Hm%bool_decide_eq_true]%andb_true_iff Hl]%andb_true_iff
    [Hi Hnd]%bool_decide_eq_true%NoDup_cons]%andb_true_iff.
  split_and!; [done..|by apply not_eq_None_Some|]. apply andb_true_iff. split; [|by apply bool_decide_eq_true].
  apply forallb_forall. intros j Hj. rewrite forallb_forall in Hl. pose proof (Hl j Hj) as [[Hnj HNj]%andb_true_iff Hmj%bool_decide_eq_true]%andb_true_iff.
  rewrite Hnj, HNj. apply bool_decide_eq_true. rewrite lookup_delete_ne; [done|].
  intros E. apply Hi. rewrite E. apply (list_elem_of_fmap_2 (λ i, name pre i)). by apply list_elem_of_In.
Qed.

Lemma unlinkn_ok p pre nf k m w : dir_path p → ST m ∅ w → can_unlink pre (seq 0 nf) m = true →
  (∀ w', ST (unlinked pre (seq 0 nf) m) ∅ w' → OK w' k) → OK w (unlinkn p pre nf k).
Proof.
  intros Hp Hw Hc Hk. eapply ok_sleep; [done|]. intros _ w0 Hw0. clear w Hw. revert m w0 Hw0 Hc Hk.
  induction (seq 0 nf) as [|i l IH]; intros m w Hw Hc Hk; [by apply Hk|].
  apply can_unlink_cons in Hc as (Hn & HN & Hf & Hc). cbn [for_each foldr]. apply ok_path; [done..|]. intros Hfile.
  eapply ok_unlink; [done..|]. intros r w1 Hr Hw1. apply passed; [by apply Z.eqb_eq|]. by eapply IH.
Qed.

Lemma read_loop_ok f c x n fd off k m w : ST m {[fd := FFile (d, f) off false]} w → N f = true → m !! f = Some c →
  take n (drop off c) = replicate n x →
  (∀ w', ST m {[fd := FFile (d, f) (off + n) false]} w' → OK w' k) → OK w (read_loop n fd x k).
Proof.
  revert off w. induction n as [|n IH]; intros off w Hw HN Hf Hc Hk; simpl.
  - apply Hk. by rewrite Nat.add_0_r.
  - assert (c !! off = Some x ∧ take n (drop (S off) c) = replicate n x) as [Hx Hrest].
    { destruct (drop off c) as [|y c'] eqn:E; [done|]. simpl in Hc. simplify_eq/=.
      split; [by rewrite <- (Nat.add_0_r off), <- lookup_drop, E|].
      by rewrite <- (Nat.add_1_r off), <- drop_drop, E. }
    assert (take (Z.to_nat 1) (drop off c) = [x]) as H1.
    { rewrite (drop_S _ x) by done. done. }
    eapply ok_read; [done|by apply lookup_singleton_eq|done..|]. rewrite H1. intros r w1 Hd Hv Hw1.
    apply passed; [by rewrite Hv|]. apply passed; [by apply bool_decide_eq_true|]. rewrite insert_singleton_eq in Hw1.
    simpl in Hw1. rewrite Nat.add_1_r in Hw1. eapply IH; [done..|]. intros w2 Hw2. apply Hk. by rewrite Nat.add_succ_r.
Qed.

Lemma checkread_ok p f start n x c k m w : dir_path p → nice f = true → ST m ∅ w → N f = true → m !! f = Some c →
  (0 <= start)%Z → take n (drop (Z.to_nat start) c) = replicate n x →
  (∀ w', ST m ∅ w' → OK w' k) → OK w (checkread p f start n x k).
Proof.
  intros Hp Hn Hw HN Hf Hs Hc Hk. eapply ok_sleep; [done|]. intros _ w0 Hw0. apply ok_path; [done..|]. intros Hfile.
  eapply ok_open; [done..|]. intros r w1 H0 _ Hw1. apply passed; [by apply Z.leb_le|]. rewrite insert_empty in Hw1.
  eapply ok_lseek; [done|by apply lookup_singleton_eq|done..|]. intros r2 w2 Hr2 Hw2.
  apply passed; [by apply Z.eqb_eq|]. rewrite insert_singleton_eq in Hw2.
  eapply read_loop_ok; [done..|]. intros w3 Hw3.
  eapply ok_close; [done|rewrite lookup_singleton_eq; by eauto|]. intros r4 w4 _ Hw4. rewrite delete_singleton_eq in Hw4.
  by apply Hk.
Qed.

End rules.

(** ** Reading a directory *)
Lemma adjacent_dup_NoDup l : NoDup l → adjacent_dup l = false.
Proof.
  induction 1 as [|a l Ha Hl IH]; [done|]. destruct l as [|b l]; [done|].
  change (bool_decide (a = b) || adjacent_dup (b :: l) = false). rewrite IH, orb_false_r.
  apply bool_decide_eq_false. set_solver.
Qed.

Lemma qsort_NoDup l : NoDup l → adjacent_dup (qsort l) = false.
Proof. intros Hl. apply adjacent_dup_NoDup. unfold qsort. by rewrite merge_sort_Permutation. Qed.

Lemma names_in_elem w d f : f ∈ names_in w d ↔ is_Some (v_files w !! (d, f)).
Proof.
  unfold names_in. rewrite list_elem_of_fmap. setoid_rewrite list_elem_of_filter. setoid_rewrite elem_of_elements.
  setoid_rewrite elem_of_dom. split.
  - intros ([d' f'] & -> & Hd & Hs). simpl in *. by subst.
  - intros Hs. by exists (d, f).
Qed.

Lemma names_in_NoDup w d : NoDup (names_in w d).
Proof.
  apply NoDup_fmap_2_strong.
  - intros [d1 f1] [d2 f2] [H1 _]%list_elem_of_filter [H2 _]%list_elem_of_filter. simpl in *. congruence.
  - apply NoDup_filter, NoDup_elements.
Qed.

(** The files [m] of the directory, by their names. *)
Lemma st_names pid d m fm w : st pid d (λ _, true) m fm w → names_in w d ≡ₚ elements (dom m).
Proof.
  intros (_ & Hm & _). apply NoDup_Permutation; [apply names_in_NoDup|apply NoDup_elements|].
  intros f. rewrite names_in_elem, elem_of_elements, elem_of_dom, Hm by done. done.
Qed.

Section dircheck.
Context (pid : Z) (d : bytes) (R G : relation vfs) (OK : vfs → prog → Prop) `{HRuns : !Runs pid R G OK}.
(** [A fm w]: what is known of the world while the descriptors of the process are [fm]. *)
Context (A : gmap Z fdesc → vfs → Prop) (l : list bytes).
Context (HA : ∀ fm w w1, A fm w → R w w1 → A fm w1).
Context (HAd : ∀ fm w, A fm w → d ∈ v_dirs w).
Context (HAf : ∀ fm w fd, A fm w → v_fds w !! (pid, fd) = fm !! fd).
Context (HAopen : ∀ fm w fd, A fm w → fm !! fd = None →
  let w' := set_fds w (<[(pid, fd) := FDir d]> (v_fds w)) in G w w' ∧ A (<[fd := FDir d]> fm) w').
Context (HAclose : ∀ fm w fd, A fm w → fm !! fd = Some (FDir d) →
  let w' := set_fds w (delete (pid, fd) (v_fds w)) in G w w' ∧ A (delete fd fm) w').
Context (HAsame : ∀ fm w, A fm w → G w w).
Context (HAnames : ∀ fm w, A fm w → filter counted (names_in w d) ≡ₚ l) (Hlen : length l ≤ 1000).

Lemma dircheck_gen p k w : dir_of mounts p = Some d → A ∅ w → (∀ w', A ∅ w' → OK w' k) →
  OK w (dircheck p (Z.of_nat (length l)) k).
Proof.
  intros Hp Hw Hk. apply runs_call. intros w1 HR1. apply (HA _ _ _ Hw) in HR1. clear w Hw. rename HR1 into Hw. split.
  { destruct (fresh_fd pid w1) as (fd & H0 & Hfd). exists (Ret fd 0 [] []). eexists. eapply p_opendir; eauto. }
  intros r w2 Ha. inversion Ha as [| | | | | | | | | | | | | | | |p' d' r' Hp' Hd H0 Hfd| |]; subst.
  rewrite Hp in Hp'. simplify_eq. destruct (HAopen _ _ (r_val r) Hw) as [Hg Hw2]; [done|]. split; [done|].
  apply passed; [destruct (Z.eqb_spec (r_val r) (-1)); [lia|done]|]. rewrite insert_empty in Hw2.
  clear Hw Hg Ha Hd Hfd. revert Hw2. generalize (set_fds w1 (<[(pid, r_val r) := FDir d']> (v_fds w1))). clear w1. intros w Hw.
  apply runs_call. intros w1 HR1. apply (HA _ _ _ Hw) in HR1. clear w Hw. rename HR1 into Hw.
  assert (v_fds w1 !! (pid, r_val r) = Some (FDir d')) as Hfd by (rewrite (HAf _ _ _ Hw); apply lookup_singleton_eq). split.
  { exists (Ret 0 0 [] (names_in w1 d')). eexists. by eapply p_readdir. }
  intros r2 w2 Ha. inversion Ha as [| | | | | | | | | | | | | | | | |fd' d2 r' Hfd2 Hnames|]; subst. simplify_eq.
  split; [by eapply HAsame|]. rewrite (HAnames _ _ Hw) in Hnames.
  assert (NoDup (filter counted (r_names r2))) as Hnd.
  { rewrite Hnames. rewrite <- (HAnames _ _ Hw). apply NoDup_filter, names_in_NoDup. }
  cbv zeta. destruct (Nat.ltb_spec 1000 (length (filter counted (r_names r2)))) as [Hlt|_].
  { rewrite Hnames in Hlt. lia. }
  clear Ha. apply runs_call. intros w3 HR3. apply (HA _ _ _ Hw) in HR3. clear Hw. rename HR3 into Hw.
  clear Hfd. assert (v_fds w3 !! (pid, r_val r) = Some (FDir d')) as Hfd by (rewrite (HAf _ _ _ Hw); apply lookup_singleton_eq). split.
  { exists (Ret 0 0 [] []). eexists. by eapply p_closedir. }
  intros r3 w4 Ha. inversion Ha; subst. destruct (HAclose _ _ (r_val r) Hw) as [Hg Hw4]; [by apply lookup_singleton_eq|]. split; [done|].
  apply passed; [rewrite Hnames; apply Z.eqb_refl|]. apply passed; [by rewrite qsort_NoDup|].
  rewrite delete_singleton_eq in Hw4. by apply Hk.
Qed.
End dircheck.

(** With all files of the directory for itself. *)
Definition can_list (m : gmap bytes bytes) (nf : Z) : bool :=
  forallb counted (elements (dom m)) && (nf =? Z.of_nat (length (elements (dom m))))%Z && (nf <=? 1000)%Z.

Lemma can_list_names m nf : can_list m nf = true →
  filter counted (elements (dom m)) = elements (dom m) ∧ nf = Z.of_nat (length (elements (dom m))) ∧
  length (elements (dom m)) ≤ 1000.
Proof.
  intros [[Hc Hn%Z.eqb_eq]%andb_true_iff Hl%Z.leb_le]%andb_true_iff. split_and!; [|done|lia].
  clear -Hc. induction (elements (dom m)) as [|f l IH]; [done|]. apply andb_true_iff in Hc as [Hf Hc].
  rewrite filter_cons_True by (by rewrite Hf). by rewrite IH.
Qed.

Lemma dircheck_ok pid d R G OK `{!Runs pid R G OK} p nf k m w :
  (∀ w w1, R w w1 → rely pid d (λ _, true) w w1) → (∀ w w', act pid d (λ _, true) w w' → G w w') →
  dir_of mounts p = Some d → st pid d (λ _, true) m ∅ w → can_list m nf = true →
  (∀ w', st pid d (λ _, true) m ∅ w' → OK w' k) → OK w (dircheck p nf k).
Proof.
  intros HR HG Hp Hw (Hf & -> & Hl)%can_list_names Hk.
  eapply (dircheck_gen pid d R G OK (st pid d (λ _, true) m)); try done.
  - intros fm w0 w1 H0 HR1. by apply (HR _ _ HR1).
  - intros fm w0 H0. apply H0.
  - intros fm w0 fd H0. apply H0.
  - intros fm w0 fd H0 _. destruct (st_set_fd pid d (λ _, true) m fm w0 fd (FDir d) H0) as [Ha Hs]; [done|].
    split; [by apply HG|done].
  - intros fm w0 fd H0 _. destruct (st_close_fd pid d (λ _, true) m fm w0 fd H0) as [Ha Hs]. split; [by apply HG|done].
  - intros fm w0 H0. apply HG. split_and!; eauto.
  - intros fm w0 H0. by rewrite (st_names _ _ _ _ _ H0), Hf.
Qed.

(** ** Two processes with files of their own *)
Lemma st_part pid d N m fm w : st pid d (λ _, true) m fm w → st pid d N m fm w.
Proof. intros (Hd & Hm & Hfm & Hsafe). split_and!; [done|by intros f _; apply Hm|done|]. intros key f off app Hkey _. by eapply Hsafe. Qed.

(** When one process has all files and none open, another may take some. *)
Lemma st_give pid cpid d N m w : st pid d (λ _, true) m ∅ w → (∀ fd, v_fds w !! (cpid, fd) = None) →
  st cpid d N m ∅ w.
Proof.
  intros (Hd & Hm & Hfm & Hsafe) Hc. split_and!; [done|by intros f _; apply Hm| |].
  - intros fd. by rewrite Hc, lookup_empty.
  - intros [p fd] f off app Hkey _. pose proof (Hsafe _ _ _ _ Hkey eq_refl) as Hp. simpl in Hp. subst p.
    by rewrite Hfm, lookup_empty in Hkey.
Qed.

Definition merged (N : bytes → bool) (mc mp : gmap bytes bytes) : gmap bytes bytes :=
  filter (λ x, N x.1 = true) mc ∪ filter (λ x, N x.1 = false) mp.

Lemma lookup_merged N mc mp f : merged N mc mp !! f = if N f then mc !! f else mp !! f.
Proof.
  unfold merged. destruct (N f) eqn:E.
  - destruct (mc !! f) as [c|] eqn:Ec.
    + apply lookup_union_Some_l. by apply map_lookup_filter_Some.
    + apply lookup_union_None. split; apply map_lookup_filter_None; [by left|right; intros x _; simpl; congruence].
  - rewrite lookup_union_r by (apply map_lookup_filter_None; right; intros x _; simpl; congruence).
    destruct (mp !! f) as [c|] eqn:Ec; [by apply map_lookup_filter_Some|apply map_lookup_filter_None; by left].
Qed.

Lemma st_join pid cpid d N mc mp w : pid ≠ cpid →
  st cpid d N mc ∅ w → st pid d (λ f, negb (N f)) mp ∅ w → st pid d (λ _, true) (merged N mc mp) ∅ w.
Proof.
  intros Hne (Hd & Hmc & Hfc & Hsc) (_ & Hmp & Hfp & Hsp). split_and!; [done| |done|].
  - intros f _. rewrite lookup_merged. destruct (N f) eqn:E; [by apply Hmc|]. apply Hmp. by rewrite E.
  - intros [p fd] f off app Hkey _. exfalso. destruct (N f) eqn:E.
    + pose proof (Hsc _ _ _ _ Hkey E) as Hp. simpl in Hp. subst p. by rewrite Hfc, lookup_empty in Hkey.
    + pose proof (Hsp _ _ _ _ Hkey ltac:(by rewrite E)) as Hp. simpl in Hp. subst p. by rewrite Hfp, lookup_empty in Hkey.
Qed.

(** The rule of fork: parent and child have disjoint files. *)
Lemma fork_ok pid d N d' N' m' m1 child parent w : (∀ f, d = d' → N f = true → N' f = false) →
  (∀ fd, v_fds w !! (pid, fd) = None) →
  (∀ cpid, (∀ fd, v_fds w !! (cpid, fd) = None) → st cpid d' N' m' ∅ w) →
  (∀ cpid w, st cpid d' N' m' ∅ w →
     child_ok cpid (rely cpid d' N') (act cpid d' N') (st cpid d' N' m1 ∅) w child) →
  (∀ cpid, (0 < cpid)%Z → cpid ≠ pid →
     par_ok pid (rely pid d N) (act pid d N) cpid (st cpid d' N' m1 ∅) w (parent cpid)) →
  main_ok pid w (fork_run child parent).
Proof.
  intros Hdis Hno Hgive Hchild Hparent. split; [done|]. intros cpid H0 Hne Hc.
  eexists (rely pid d N), (act pid d N), (rely cpid d' N'), (act cpid d' N'), _.
  split_and!; try apply _; [| |by apply Hchild, Hgive|].
  - intros w1 w2. apply act_rely; [done|]. intros f Hd HN. by apply Hdis.
  - intros w1 w2. apply act_rely; [done|]. intros f Hd HN. destruct (N f) eqn:E; [|done].
    apply Hdis in E; [congruence|done].
  - apply passed; [by apply Z.leb_le; lia|]. by apply Hparent.
Qed.

Lemma child_exit pid d N m w G : st pid d N m ∅ w → child_ok pid (rely pid d N) G (st pid d N m ∅) w (Exit 0).
Proof. intros Hw. split; [done|]. intros w1 H1. by apply H1. Qed.

Lemma par_reap pid R G cpid Q k w : (0 < cpid)%Z → (∀ w1, R w w1 → Q w1 → main_ok pid w1 k) →
  par_ok pid R G cpid Q w (reap cpid k).
Proof.
  intros H0 Hk. split; [done|]. intros w1 H1 HQ. do 2 (apply passed; [lia|]). apply passed; [done|]. by apply Hk.
Qed.

(** ** test-lab-3-c *)
Lemma main_rely pid d N w w1 : w = w1 → rely pid d N w w1.
Proof. by intros <-. Qed.

Section test_c.
Context (pid : Z) (d d' d1 d2 : bytes) (Hdd : d ≠ d') (H1 : dir_path d d1) (H2 : dir_path d' d2).
Abbreviation all := (λ _ : bytes, true).
Definition after_c (pre : bytes) : gmap bytes bytes := unlinked pre (seq 0 99) (created pre (seq 0 100) ∅).

(** A look at one of two directories that the main program has for itself. *)
Lemma dircheck_two da db p nf k ma mb w : dir_of mounts p = Some da →
  st pid da all ma ∅ w → st pid db all mb ∅ w → can_list ma nf = true →
  (∀ w', st pid da all ma ∅ w' → st pid db all mb ∅ w' → main_ok pid w' k) → main_ok pid w (dircheck p nf k).
Proof.
  intros Hp Ha Hb (Hf & -> & Hl)%can_list_names Hk.
  eapply (dircheck_gen pid da eq (λ _ _, True) (main_ok pid) (λ fm w, st pid da all ma fm w ∧ st pid db all mb fm w)).
  - by intros fm w0 w1 H <-.
  - intros fm w0 [H _]. apply H.
  - intros fm w0 fd [H _]. apply H.
  - intros fm w0 fd [Ha0 Hb0] _. split; [done|].
    split; [by apply (st_set_fd pid da all ma fm w0 fd (FDir da) Ha0)|by apply (st_set_fd pid db all mb fm w0 fd (FDir da) Hb0)].
  - intros fm w0 fd [Ha0 Hb0] _. split; [done|].
    split; [by apply (st_close_fd pid da all ma fm w0 fd Ha0)|by apply (st_close_fd pid db all mb fm w0 fd Hb0)].
  - done.
  - intros fm w0 [H _]. by rewrite (st_names _ _ _ _ _ H), Hf.
  - done.
  - done.
  - done.
  - intros w' [? ?]. by apply Hk.
Qed.

Lemma test_c_process (R G : relation vfs) OK q dq dp pre k w `{!Runs q R G OK} :
  (∀ w w1, R w w1 → rely q dq all w w1) → (∀ w w', act q dq all w w' → G w w') → dir_path dq dp →
  can_create all pre (seq 0 100) ∅ = true → can_unlink all pre (seq 0 99) (created pre (seq 0 100) ∅) = true →
  st q dq all ∅ ∅ w → (∀ w', st q dq all (after_c pre) ∅ w' → OK w' k) →
  OK w (createn_c dp pre 100 (unlinkn_c dp pre 99 k)).
Proof.
  intros HR HG Hdp Hc Hu Hw Hk. unfold createn_c. eapply (createn_ok q dq all R G OK); [done..|].
  intros w1 Hw1. by eapply (unlinkn_ok q dq all R G OK).
Qed.

Lemma test_c_ok w : st pid d all ∅ ∅ w → st pid d' all ∅ ∅ w →
  main_ok pid w (fork_run (createn_c d2 (lit "xx") 100 (unlinkn_c d2 (lit "xx") 99 (Exit 0))) (λ cpid,
    createn_c d1 (lit "yy") 100 (unlinkn_c d1 (lit "yy") 99 (_ ⇐ Sleep 4;
    reap_c cpid (dircheck_c d1 1 (dircheck_c d2 1 (Exit 0))))))).
Proof.
  intros Hw Hw'. eapply (fork_ok pid d all d' all ∅ (after_c (lit "xx"))); [done|..].
  - intros fd. apply Hw.
  - intros cpid Hc. by eapply st_give.
  - intros cpid w0 Hw0. eapply (test_c_process (rely cpid d' all) (act cpid d' all) _ cpid d'); [apply _|done|done|done|by vm_compute|by vm_compute|done|].
    intros w1 Hw1. by apply child_exit.
  - intros cpid H0 Hne. eapply (test_c_process (rely pid d all) (act pid d all) _ pid d); [apply _|done|done|done|by vm_compute|by vm_compute|done|].
    intros w1 Hw1. eapply (ok_sleep pid d all (rely pid d all) (act pid d all)); [apply _|done|done|done|]. intros _ w2 Hw2. apply par_reap; [done|]. intros w3 H3 HQ.
    unfold dircheck_c. apply H3 in Hw2.
    assert (st pid d' all (after_c (lit "xx")) ∅ w3) as Hw3 by (eapply st_give; [done|apply Hw2]).
    eapply (dircheck_two d d'); [apply H1|done|done|by vm_compute|]. intros w4 Hw4 Hw4'.
    by eapply (dircheck_two d' d); [apply H2|done|done|by vm_compute|].
Qed.
End test_c.

(** ** test-lab-3-b *)
Section test_b.
Context (pid : Z) (d d1 d2 : bytes) (H1 : dir_path d d1) (H2 : dir_path d d2).
Abbreviation all := (λ _ : bytes, true).
Abbreviation has m := (st pid d all m ∅).

(** One function of the test, with all files of the directory. *)
Ltac alone lem := eapply (lem pid d all eq (λ _ _, True)); [apply _|apply main_rely|done|..].
Ltac lab :=
  lazymatch goal with
  | |- main_ok _ _ (create1 _ _ _ _) => alone create1_ok; [eassumption|reflexivity|eassumption|reflexivity|reflexivity|]
  | |- main_ok _ _ (check1_b _ _ _ _) => unfold check1_b at 1; alone check1_ok; [eassumption|reflexivity|eassumption|reflexivity|reflexivity|reflexivity|reflexivity|by apply bool_decide_eq_true|]
  | |- main_ok _ _ (unlink1 _ _ _) => alone unlink1_ok; [eassumption|reflexivity|eassumption|reflexivity|by eexists|]
  | |- main_ok _ _ (checknot _ _ _) => alone checknot_ok; [eassumption|reflexivity|eassumption|reflexivity|reflexivity|]
  | |- main_ok _ _ (append1 _ _ _ _) => alone append1_ok; [eassumption|reflexivity|eassumption|reflexivity|reflexivity|]
  | |- main_ok _ _ (createn _ _ _ false _) => alone createn_ok; [eassumption|eassumption|by vm_compute|]
  | |- main_ok _ _ (checkn _ _ _ _) => alone checkn_ok; [eassumption|eassumption|by vm_compute|]
  | |- main_ok _ _ (unlinkn _ _ _ _) => alone unlinkn_ok; [eassumption|eassumption|by vm_compute|]
  | |- main_ok _ _ (dircheck _ _ _) =>
      eapply (dircheck_ok pid d eq (λ _ _, True)); [apply _|apply main_rely|done|first [apply H1|apply H2]|eassumption|by vm_compute|]
  end; let w := fresh "w" in let H := fresh "Hw" in intros w H.

Lemma create_then_read_ok k w : has ∅ w → (∀ w', has {[lit "f1" := lit "aaa"]} w' → main_ok pid w' k) →
  main_ok pid w (create_then_read d1 d2 k).
Proof. intros Hw Hk. unfold create_then_read. do 3 lab. by apply Hk. Qed.

Lemma unlink_test_ok k w : has {[lit "f1" := lit "aaa"]} w → (∀ w', has ∅ w' → main_ok pid w' k) →
  main_ok pid w (unlink_test d1 d2 k).
Proof. intros Hw Hk. unfold unlink_test. do 17 lab. by apply Hk. Qed.

Lemma append_test_ok k w : has ∅ w → (∀ w', has {[lit "f1" := lit "aaabbbccc"]} w' → main_ok pid w' k) →
  main_ok pid w (append_test d1 d2 k).
Proof. intros Hw Hk. unfold append_test. do 5 lab. by apply Hk. Qed.

Lemma readdir_test_ok k w : has {[lit "f1" := lit "aaabbbccc"]} w → (∀ w', has ∅ w' → main_ok pid w' k) →
  main_ok pid w (readdir_test d1 d2 k).
Proof. intros Hw Hk. unfold readdir_test. do 15 lab. by apply Hk. Qed.

Lemma many_creates_ok k w : has ∅ w → (∀ w', has ∅ w' → main_ok pid w' k) → main_ok pid w (many_creates d1 d2 k).
Proof. intros Hw Hk. unfold many_creates. do 9 lab. by apply Hk. Qed.

Lemma strncmp_eq_refl a n : strncmp_eq a a n = true.
Proof. by apply bool_decide_eq_true. Qed.

Lemma write_big_ok k w : has ∅ w → (∀ w', has ∅ w' → main_ok pid w' k) → main_ok pid w (write_big d1 d2 k).
Proof.
  intros Hw Hk. unfold write_big. lab. assert (size big = 20000)%Z as Hbig by (unfold big; by rewrite size_replicate).
  do 2 (unfold check1_b at 1; alone check1_ok; [eassumption|reflexivity|eassumption|reflexivity|by apply lookup_insert_eq|done|
    by rewrite Hbig|apply strncmp_eq_refl|]; intros ? ?).
  alone unlink1_ok; [eassumption|reflexivity|eassumption|reflexivity|by rewrite lookup_insert_eq|].
  intros w4 Hw4. rewrite delete_insert_eq in Hw4. by apply Hk.
Qed.


(** *** Concurrent processes on different files *)

(** A process with the files that satisfy [N], beside another. *)
Ltac beside N p lem := eapply (lem p d N (rely p d N) (act p d N)); [apply _|done|done|..].

Definition is_name (pres : list bytes) (f : bytes) : bool :=
  existsb (λ pre, existsb (λ i, bool_decide (f = numbered pre (Z.of_nat i))) (seq 0 20)) pres.

(** The child has the names of [pres], the parent the others. *)
Lemma fork_names pres m mc child parent w : has m w →
  (∀ cpid w, st cpid d (is_name pres) m ∅ w →
     child_ok cpid (rely cpid d (is_name pres)) (act cpid d (is_name pres)) (st cpid d (is_name pres) mc ∅) w child) →
  (∀ cpid, (0 < cpid)%Z → cpid ≠ pid → st pid d (λ f, negb (is_name pres f)) m ∅ w →
     par_ok pid (rely pid d (λ f, negb (is_name pres f))) (act pid d (λ f, negb (is_name pres f))) cpid
       (st cpid d (is_name pres) mc ∅) w (parent cpid)) →
  main_ok pid w (fork_run child parent).
Proof.
  intros Hw Hc Hp. eapply (fork_ok pid d (λ f, negb (is_name pres f)) d (is_name pres) m mc); [|apply Hw| | |].
  - intros f _. by destruct (is_name pres f).
  - intros cpid Hno. by eapply st_give.
  - done.
  - intros cpid H0 Hne. apply Hp; [done..|]. by apply st_part.
Qed.

Lemma reap_names pres cpid mc mp k w : (0 < cpid)%Z → cpid ≠ pid → st pid d (λ f, negb (is_name pres f)) mp ∅ w →
  (∀ w', has (merged (is_name pres) mc mp) w' → main_ok pid w' k) →
  par_ok pid (rely pid d (λ f, negb (is_name pres f))) (act pid d (λ f, negb (is_name pres f))) cpid
    (st cpid d (is_name pres) mc ∅) w (reap cpid k).
Proof.
  intros H0 Hne Hw Hk. apply par_reap; [done|]. intros w1 Hr HQ. apply Hk. apply (st_join pid cpid); [done..|]. by apply Hr.
Qed.

Lemma concurrent_creates_ok k w : has ∅ w → (∀ w', has ∅ w' → main_ok pid w' k) → main_ok pid w (concurrent_creates d1 d2 k).
Proof.
  intros Hw Hk. unfold concurrent_creates.
  eapply (fork_names [lit "xx"] ∅ (created (lit "xx") (seq 0 20) ∅)); [done|..].
  - intros cpid w0 Hw0. beside (is_name [lit "xx"]) cpid createn_ok; [eassumption|eassumption|by vm_compute|].
    intros w1 Hw1. by apply child_exit.
  - intros cpid H0 Hne Hp. beside (λ f, negb (is_name [lit "xx"] f)) pid createn_ok; [eassumption|eassumption|by vm_compute|].
    intros w1 Hw1. beside (λ f, negb (is_name [lit "xx"] f)) pid ok_sleep; [done|]. intros _ w2 Hw2.
    eapply reap_names; [done..|]. intros w3 Hw3. do 5 lab. apply Hk.
    match goal with H : has ?m ?w |- has ∅ ?w => replace m with (∅ : gmap bytes bytes) in H by (by vm_compute); exact H end.
Qed.

Lemma concurrent_create_delete_ok k w : has ∅ w → (∀ w', has ∅ w' → main_ok pid w' k) →
  main_ok pid w (concurrent_create_delete d1 d2 k).
Proof.
  intros Hw Hk. unfold concurrent_create_delete. do 2 lab.
  eapply (fork_names [lit "x1"; lit "x3"]); [done|..].
  - intros cpid w0' Hw0'. beside (is_name [lit "x1"; lit "x3"]) cpid unlinkn_ok; [eassumption|eassumption|by vm_compute|].
    intros w1' Hw1'. beside (is_name [lit "x1"; lit "x3"]) cpid createn_ok; [eassumption|eassumption|by vm_compute|].
    intros w2 Hw2. by apply child_exit.
  - intros cpid H0 Hne Hp. beside (λ f, negb (is_name [lit "x1"; lit "x3"] f)) pid createn_ok; [eassumption|eassumption|by vm_compute|].
    intros w2 Hw2. eapply reap_names; [done..|]. intros w3 Hw3. do 4 lab. apply Hk.
    match goal with H : has ?m ?w |- has ∅ ?w => replace m with (∅ : gmap bytes bytes) in H by (by vm_compute); exact H end.
Qed.


(** *** Concurrent creation of the same files *)
Section same.
Context (cpid : Z) (Hne : pid ≠ cpid).
Abbreviation zz i := (numbered (lit "zz") (Z.of_nat i)).

Lemma zz_inj i j : i < 20 → j < 20 → zz i = zz j → i = j.
Proof. intros Hi Hj [= E]%app_inv_head. apply Nat2Z.inj. apply show_u64_inj; [lia..|done]. Qed.

Lemma zz_pair_inj i j : i < 20 → j < 20 → (d, zz i) = (d, zz j) → i = j.
Proof. intros Hi Hj E. apply zz_inj; [done..|]. exact (f_equal snd E). Qed.

(** Both create the files; an empty one has a descriptor that is about to write it. *)
Definition filling (w : vfs) : Prop :=
  d ∈ v_dirs w ∧
  (∀ f, (∀ i, i < 20 → f ≠ zz i) → v_files w !! (d, f) = None) ∧
  (∀ i c, i < 20 → v_files w !! (d, zz i) = Some c →
     c = int_bytes (Z.of_nat i) ∨ c = [] ∧ ∃ key, v_fds w !! key = Some (FFile (d, zz i) 0 false)) ∧
  ∀ key f off app, v_fds w !! key = Some (FFile (d, f) off app) → key.1 = pid ∨ key.1 = cpid.

(** What the process [p] knows: the first [n] files are there. *)
Definition sh (p : Z) (n : nat) (fm : gmap Z fdesc) (w : vfs) : Prop :=
  filling w ∧ (∀ i, i < n → is_Some (v_files w !! (d, zz i))) ∧ ∀ fd, v_fds w !! (p, fd) = fm !! fd.

Definition sh_rely (p : Z) (w w1 : vfs) : Prop := ∀ n fm, sh p n fm w → sh p n fm w1.
Definition sh_act (p : Z) (w w' : vfs) : Prop := ∀ q, q ≠ p → sh_rely q w w'.

#[global] Instance sh_rely_preorder p : PreOrder (sh_rely p).
Proof. split; [by intros w n fm|]. intros w1 w2 w3 E1 E2 n fm H. by apply E2, E1. Qed.

(** A step of [p] that keeps the files there and the descriptors of others. *)
Lemma sh_step p w w' n fm n' fm' : sh p n fm w → filling w' →
  (∀ f, is_Some (v_files w !! f) → is_Some (v_files w' !! f)) →
  (∀ key, key.1 ≠ p → v_fds w' !! key = v_fds w !! key) →
  (∀ i, i < n' → is_Some (v_files w' !! (d, zz i))) → (∀ fd, v_fds w' !! (p, fd) = fm' !! fd) →
  sh_act p w w' ∧ sh p n' fm' w'.
Proof.
  intros _ Hf Hkeep Hfds Hn Hfm. split; [|done]. intros q Hq n0 fm0 (_ & Hn0 & Hfm0). split_and!; [done|by eauto|].
  intros fd. rewrite Hfds by done. apply Hfm0.
Qed.

(** The descriptor [fd] of [p] becomes [x], and the file [zz i] has [c]. *)
Lemma sh_put p n fm w i c fd x : (p = pid ∨ p = cpid) → sh p n fm w → i < 20 →
  (∀ g off app, x = FFile g off app → g = (d, zz i)) →
  (c = int_bytes (Z.of_nat i) ∨ c = [] ∧ x = FFile (d, zz i) 0 false) →
  (fm !! fd = None ∨ fm !! fd = Some (FFile (d, zz i) 0 false)) →
  let w' := Vfs (v_dirs w) (<[(d, zz i) := c]> (v_files w)) (<[(p, fd) := x]> (v_fds w)) in
  sh_act p w w' ∧ sh p n (<[fd := x]> fm) w'.
Proof.
  intros Hp Hw Hi Hx Hc Hold w'. pose proof Hw as ((Hd & Hout & Hin & Hkeys) & Hn & Hfm).
  assert (∀ f, is_Some (v_files w !! f) → is_Some (v_files w' !! f)) as Hkeep.
  { intros f Hf. simpl. destruct (decide ((d, zz i) = f)) as [<-|Hne']; [by rewrite lookup_insert_eq|by rewrite lookup_insert_ne]. }
  eapply sh_step; [exact Hw| |exact Hkeep| | |].
  - split_and!; simpl; [done| | |].
    + intros f Hf. rewrite lookup_insert_ne; [by apply Hout|]. intros E. apply (Hf i); [done|]. symmetry. exact (f_equal snd E).
    + intros j c' Hj. destruct (decide (i = j)) as [<-|Hij].
      * rewrite lookup_insert_eq. intros [= <-]. destruct Hc as [Hc|[-> ->]]; [by left|right]. split; [done|].
        exists (p, fd). by apply lookup_insert_eq.
      * rewrite lookup_insert_ne by (intros E; by apply Hij, zz_pair_inj). intros Hj'.
        destruct (Hin j c' Hj Hj') as [?|[-> [key Hkey]]]; [by left|right]. split; [done|]. exists key.
        rewrite lookup_insert_ne; [done|]. intros <-. rewrite Hfm in Hkey. destruct Hold as [Ho|Ho]; rewrite Ho in Hkey; [done|].
        apply Hij, zz_pair_inj; [done..|]. congruence.
    + intros key f off app. destruct (decide (key = (p, fd))) as [->|Hk]; [done|].
      rewrite lookup_insert_ne by done. apply Hkeys.
  - intros key Hk. simpl. apply lookup_insert_ne. by intros <-.
  - intros j Hj. by apply Hkeep, Hn.
  - intros fd'. simpl. destruct (decide (fd = fd')) as [<-|Hf]; [by rewrite !lookup_insert_eq|].
    rewrite !lookup_insert_ne by congruence. apply Hfm.
Qed.

(** A directory is opened, or a descriptor closed that is not about to fill a file. *)
Lemma sh_fds p n fm w fd x : (p = pid ∨ p = cpid) → sh p n fm w →
  (∀ f, fm !! fd ≠ Some (FFile f 0 false)) → (∀ f off app, x ≠ Some (FFile f off app)) →
  let w' := set_fds w (partial_alter (λ _, x) (p, fd) (v_fds w)) in
  sh_act p w w' ∧ sh p n (partial_alter (λ _, x) fd fm) w'.
Proof.
  intros Hp Hw Hold Hx w'. pose proof Hw as ((Hd & Hout & Hin & Hkeys) & Hn & Hfm).
  eapply sh_step; [exact Hw| |done| |done|].
  - split_and!; simpl; [done|done| |].
    + intros j c' Hj Hj'. destruct (Hin j c' Hj Hj') as [?|[-> [key Hkey]]]; [by left|right]. split; [done|]. exists key.
      rewrite lookup_partial_alter_ne; [done|]. intros <-. rewrite Hfm in Hkey. by eapply Hold.
    + intros key f off app. destruct (decide (key = (p, fd))) as [->|Hk].
      * rewrite lookup_partial_alter_eq. intros E. by apply Hx in E.
      * rewrite lookup_partial_alter_ne by done. apply Hkeys.
  - intros key Hk. simpl. apply lookup_partial_alter_ne. by intros <-.
  - intros fd'. simpl. destruct (decide (fd = fd')) as [<-|Hf]; [by rewrite !lookup_partial_alter_eq|].
    rewrite !lookup_partial_alter_ne by congruence. apply Hfm.
Qed.

Lemma sh_act_refl p w : sh_act p w w.
Proof. by intros q _ n fm. Qed.
Lemma sh_more p n fm w : sh p n fm w → is_Some (v_files w !! (d, zz n)) → sh p (S n) fm w.
Proof.
  intros (Hf & Hn & Hfm) Hs. split_and!; [done| |done]. intros i Hi. destruct (decide (i = n)) as [->|]; [done|]. apply Hn. lia.
Qed.

Lemma write_at_whole old bs : length old ≤ length bs → write_at old 0 bs = bs.
Proof. intros H. unfold write_at. simpl. by rewrite drop_ge, app_nil_r. Qed.

Section zz_process.
Context (p : Z) (Hp : p = pid ∨ p = cpid) (OK : vfs → prog → Prop) `{HRuns : !Runs p (sh_rely p) (sh_act p) OK}.
Context (dp : bytes) (Hdp : dir_path d dp).

Lemma zz_nice i : i < 20 → nice (zz i) = true.
Proof.
  assert (forallb (λ i, nice (zz i)) (seq 0 20) = true) as H by (by vm_compute).
  rewrite forallb_forall in H. intros Hi. apply H, in_seq. lia.
Qed.

(** The file that [p] has just created or emptied is written and closed. *)
Lemma zz_fill n fd k w : n < 20 → sh p (S n) {[fd := FFile (d, zz n) 0 false]} w →
  (∀ w', sh p (S n) ∅ w' → OK w' k) →
  OK w (w ⇐ Write fd (int_bytes (Z.of_nat n)); check (r_val w =? 4)%Z; c ⇐ Close fd; check (r_val c =? 0)%Z; k).
Proof.
  intros Hn Hw Hk. apply runs_call. intros w1 H. specialize (H _ _ Hw). clear w Hw. rename H into Hw.
  pose proof Hw as ((_ & _ & Hin & _) & Hpres & Hfm). destruct (Hpres n) as [old Hold]; [lia|].
  assert (v_fds w1 !! (p, fd) = Some (FFile (d, zz n) 0 false)) as Hfd by (rewrite Hfm; apply lookup_singleton_eq).
  assert (write_at old 0 (int_bytes (Z.of_nat n)) = int_bytes (Z.of_nat n)) as Hwr.
  { apply write_at_whole. destruct (Hin n old Hn Hold) as [->|[-> _]]; simpl; lia. }
  split; [exists (Ret 4 0 [] []); eexists; by eapply p_write|].
  intros r w2 Ha. apply (posix_write _ _ _ _ _ _ _ _ _ Hfd Hold) in Ha as [Hr ->]. rewrite Hwr.
  destruct (sh_put p (S n) {[fd := FFile (d, zz n) 0 false]} w1 n (int_bytes (Z.of_nat n)) fd (FFile (d, zz n) (0 + length (int_bytes (Z.of_nat n))) false))
    as [Hact Hw2]; [done|done|done|by intros ??? [= <-]|by left|right; by apply lookup_singleton_eq|].
  split; [exact Hact|]. apply passed; [by rewrite Hr|]. rewrite insert_singleton_eq in Hw2.
  clear -Hp HRuns Hw2 Hk. revert Hw2. match goal with |- sh _ _ _ ?w → _ => generalize w end. clear w1. intros w Hw.
  apply runs_call. intros w1 H. specialize (H _ _ Hw). clear w Hw. rename H into Hw.
  pose proof Hw as (_ & _ & Hfm). split.
  { exists (Ret 0 0 [] []). eexists. eapply p_close; [|done]. rewrite Hfm, lookup_singleton_eq. eauto. }
  intros r3 w3 Ha. inversion Ha; subst.
  destruct (sh_fds p _ _ w1 fd None Hp Hw) as [Hact Hw3]; [intros f; by rewrite lookup_singleton_eq|done|].
  split; [exact Hact|]. apply passed; [lia|]. apply Hk.
  change (sh p (S n) (delete fd {[fd := FFile (d, zz n) 4 false]}) (set_fds w1 (delete (p, fd) (v_fds w1)))) in Hw3.
  by rewrite delete_singleton_eq in Hw3.
Qed.

Lemma createn_dup_ok k w : sh p 0 ∅ w → (∀ w', sh p 20 ∅ w' → OK w' k) → OK w (createn dp (lit "zz") 20 true k).
Proof.
  intros Hw Hk. apply runs_call. intros w1 H. specialize (H _ _ Hw). split; [exists (Ret 0 0 [] []), w1; constructor|].
  intros r w' Ha. inversion Ha; subst. split; [apply sh_act_refl|]. clear w Hw Ha. rename w' into w, H into Hw.
  assert (∀ j n w, n + j = 20 → sh p n ∅ w → OK w (for_each (λ i k, sprintf512 (path_of dp (numbered (lit "zz") i)) (λ n,
    fd ⇐ Creat n; if (r_val fd <? 0)%Z && true && (r_errno fd =? EEXIST)%Z then k else
      check (0 <=? r_val fd)%Z; w ⇐ Write (r_val fd) (int_bytes i); check (r_val w =? 4)%Z;
      c ⇐ Close (r_val fd); check (r_val c =? 0)%Z; k)) (seq n j) k)) as Hloop; [|by apply (Hloop 20 0)].
  clear w Hw r. induction j as [|j IH]; intros n w Hj Hw.
  { apply Hk. by rewrite <- Hj, Nat.add_0_r. }
  assert (n < 20) as Hn by lia. cbn [seq for_each foldr]. apply (ok_path d); [done|by apply zz_nice|]. intros Hfile.
  apply runs_call. intros w1 H. specialize (H _ _ Hw). clear w Hw. rename H into Hw. pose proof Hw as ((Hd & _) & _ & Hfm). split.
  { destruct (fresh_fd p w1) as (fd & H0 & Hfd). exists (Ret fd 0 [] []). eexists. by eapply p_creat. }
  intros r w2 [(H0 & Hfd & ->)|(Hs & Hv & He & ->)]%(posix_creat _ _ _ _ _ _ Hfile).
  - destruct (sh_put p n ∅ w1 n [] (r_val r) (FFile (d, zz n) 0 false)) as [Hact Hw2];
      [done|done|done|by intros ??? [= <-]|by right|by left|].
    split; [exact Hact|]. destruct (Z.ltb_spec (r_val r) 0); [lia|]. cbn [andb]. apply passed; [lia|].
    apply zz_fill; [done| |].
    + rewrite insert_empty in Hw2. apply sh_more; [done|]. simpl. by rewrite lookup_insert_eq.
    + intros w3 Hw3. apply IH; [lia|done].
  - split; [apply sh_act_refl|]. rewrite Hv, He. cbn [Z.ltb Z.compare andb Z.eqb]. apply IH; [lia|]. by apply sh_more.
Qed.

End zz_process.

Lemma zz_created n f c : n ≤ 20 →
  created (lit "zz") (seq 0 n) ∅ !! f = Some c ↔ ∃ i, i < n ∧ f = zz i ∧ c = int_bytes (Z.of_nat i).
Proof.
  induction n as [|n IH]; intros Hn.
  { unfold created. simpl. rewrite lookup_empty. split; [done|]. intros (i & Hi & _). lia. }
  unfold created in *. rewrite seq_S, foldl_app. cbn [foldl Nat.add]. rewrite lookup_insert_Some, IH by lia. split.
  - intros [[<- <-]|[_ (i & Hi & E)]]; [exists n; split; [lia|done]|exists i; split; [lia|done]].
  - intros (i & Hi & -> & ->). destruct (decide (i = n)) as [->|Hne']; [by left|right].
    split; [intros E; apply Hne'; symmetry; apply zz_inj; [lia|lia|done]|]. exists i. split; [lia|done].
Qed.

(** When both are done the files are there, each with its number. *)
Lemma sh_done w : sh pid 20 ∅ w → sh cpid 20 ∅ w → has (created (lit "zz") (seq 0 20) ∅) w.
Proof.
  intros ((Hd & Hout & Hin & Hkeys) & Hpres & Hfm) (_ & _ & Hfc).
  assert (∀ key f off app, v_fds w !! key ≠ Some (FFile (d, f) off app)) as Hno.
  { intros [p fd] f off app E. destruct (Hkeys _ _ _ _ E) as [Ep|Ep]; simpl in Ep; subst p;
      [rewrite Hfm in E|rewrite Hfc in E]; by rewrite lookup_empty in E. }
  split_and!; [done| |done|].
  - intros f _. destruct (created (lit "zz") (seq 0 20) ∅ !! f) as [c|] eqn:E.
    + apply zz_created in E as (i & Hi & -> & ->); [|lia]. destruct (Hpres i Hi) as [c Hc]. rewrite Hc.
      destruct (Hin i c Hi Hc) as [->|[_ [key Hkey]]]; [done|]. by apply Hno in Hkey.
    + apply Hout. intros i Hi ->. assert (created (lit "zz") (seq 0 20) ∅ !! zz i = Some (int_bytes (Z.of_nat i))) as E'.
      { apply zz_created; [lia|]. by exists i. }
      congruence.
  - intros key f off app E _. by apply Hno in E.
Qed.

Lemma sh_start w p : has ∅ w → (p = pid ∨ ∀ fd, v_fds w !! (p, fd) = None) → sh p 0 ∅ w.
Proof.
  intros (Hd & Hm & Hfm & Hsafe) Hp. split_and!; [split_and!| |].
  - done.
  - intros f _. by rewrite Hm, lookup_empty.
  - intros i c _. by rewrite Hm, lookup_empty.
  - intros key f off app E. left. by eapply Hsafe.
  - intros i Hi. lia.
  - intros fd. destruct Hp as [->|Hp]; [apply Hfm|by rewrite Hp, lookup_empty].
Qed.

(** The parent looks at the directory while the child may still be writing. *)
Lemma zz_dircheck OK dp k w `{!Runs pid (sh_rely pid) (sh_act pid) OK} : dir_path d dp → sh pid 20 ∅ w →
  (∀ w', sh pid 20 ∅ w' → OK w' k) → OK w (dircheck dp 20 k).
Proof.
  intros Hdp Hw Hk. set (l := (λ i, zz i) <$> seq 0 20). change 20%Z with (Z.of_nat (length l)).
  eapply (dircheck_gen pid d (sh_rely pid) (sh_act pid) OK (sh pid 20)).
  - intros fm w0 w1 H0 HR. by apply HR.
  - intros fm w0 H0. apply H0.
  - intros fm w0 fd H0. apply H0.
  - intros fm w0 fd H0 Hfd. apply (sh_fds pid _ _ w0 fd (Some (FDir d))); [by left|done|by rewrite Hfd|done].
  - intros fm w0 fd H0 Hfd. apply (sh_fds pid _ _ w0 fd None); [by left|done|by rewrite Hfd|done].
  - intros fm w0 _. apply sh_act_refl.
  - intros fm w0 ((_ & Hout & _) & Hpres & _).
    assert (names_in w0 d ≡ₚ l) as ->; [|by vm_compute].
    apply NoDup_Permutation; [apply names_in_NoDup|by apply (bool_decide_eq_true_1 _); vm_compute|].
    intros f. rewrite names_in_elem. unfold l. rewrite list_elem_of_fmap. setoid_rewrite elem_of_seq. split.
    + intros [c Hc]. destruct (decide (Exists (λ i, f = zz i) (seq 0 20))) as [He|He].
      * apply Exists_exists in He as (i & Hi%elem_of_seq & ->). by exists i.
      * rewrite Hout in Hc; [done|]. intros i Hi ->. apply He, Exists_exists. exists i. split; [apply elem_of_seq; lia|done].
    + intros (i & -> & Hi). apply Hpres. lia.
  - vm_compute. lia.
  - apply Hdp.
  - done.
  - done.
Qed.

End same.

(** Child and parent create the files [zz]; the child by the path [dc]. *)
Lemma same_files_ok dc n k w : dir_path d dc → has ∅ w →
  (∀ w', has (created (lit "zz") (seq 0 20) ∅) w' → main_ok pid w' k) →
  main_ok pid w (fork_run (createn dc (lit "zz") 20 true (Exit 0)) (λ cpid,
    createn d1 (lit "zz") 20 true (_ ⇐ Sleep n; dircheck d1 20 (reap cpid k)))).
Proof.
  intros Hdc Hw Hk. split; [apply Hw|]. intros cpid H0 Hne Hc.
  exists (sh_rely cpid pid), (sh_act cpid pid), (sh_rely cpid cpid), (sh_act cpid cpid), (sh cpid cpid 20 ∅).
  split_and!; try apply _.
  - intros w1 w2 H. by apply H.
  - intros w1 w2 H. by apply H.
  - eapply (createn_dup_ok cpid cpid); [by right|apply _|done|by apply sh_start; [|right]|].
    intros w1 Hw1. split; [done|]. intros w2 Hr2. by apply Hr2.
  - apply passed; [lia|]. eapply (createn_dup_ok cpid pid); [by left|apply _|done|by apply sh_start; [|left]|].
    intros w1 Hw1. apply runs_call. intros w2 H. specialize (H _ _ Hw1). split; [exists (Ret 0 0 [] []), w2; constructor|].
    intros r w' Ha. inversion Ha; subst. split; [apply sh_act_refl|].
    eapply (zz_dircheck cpid); [apply _|done|done|]. intros w3 Hw3. apply par_reap; [done|].
    intros w4 H4 HQ. apply Hk. apply (sh_done cpid); [by apply H4|done].
Qed.


(** *** Concurrent writes to parts of a file *)
Section parts.
Context (cpid : Z).
Abbreviation www := (lit "www").
Definition total : nat := Z.to_nat (65536 * 2).

(** What [p] knows, which has written [x] to the first [j] of the 64 bytes at [a]. *)
Definition wr (p : Z) (a : nat) (x : ascii) (j : nat) (fm : gmap Z fdesc) (w : vfs) : Prop :=
  d ∈ v_dirs w ∧ (∀ f, f ≠ www → v_files w !! (d, f) = None) ∧
  (∃ c, v_files w !! (d, www) = Some c ∧ length c = total ∧ ∀ i, i < j → c !! (a + i) = Some x) ∧
  (∀ fd, v_fds w !! (p, fd) = fm !! fd) ∧
  (∀ key f off app, v_fds w !! key = Some (FFile (d, f) off app) → key.1 = pid ∨ key.1 = cpid) ∧ j ≤ 64.

Definition wr_rely (p : Z) (a : nat) (x : ascii) (w w1 : vfs) : Prop := ∀ j fm, wr p a x j fm w → wr p a x j fm w1.
Definition wr_act (p : Z) (a : nat) (w w' : vfs) : Prop :=
  ∀ q b y, q ≠ p → (b + 64 ≤ a ∨ a + 64 ≤ b) → wr_rely q b y w w'.

#[global] Instance wr_rely_preorder p a x : PreOrder (wr_rely p a x).
Proof. split; [by intros w n fm|]. intros w1 w2 w3 E1 E2 n fm H. by apply E2, E1. Qed.

Lemma wr_act_refl p a w : wr_act p a w w.
Proof. by intros q b y _ _ j fm. Qed.

(** A descriptor of [p] changes. *)
Lemma wr_fds p a x j fm w fd y : (p = pid ∨ p = cpid) → wr p a x j fm w →
  let w' := set_fds w (partial_alter (λ _, y) (p, fd) (v_fds w)) in
  wr_act p a w w' ∧ wr p a x j (partial_alter (λ _, y) fd fm) w'.
Proof.
  intros Hp Hw w'.
  assert (∀ key f off app, v_fds w' !! key = Some (FFile (d, f) off app) → key.1 = pid ∨ key.1 = cpid) as Hkeys.
  { intros key f off app. simpl. destruct (decide (key = (p, fd))) as [->|Hk]; [done|].
    rewrite lookup_partial_alter_ne by done. apply Hw. }
  split.
  - intros q b z Hq _ j0 fm0 (Hd & Hout & Hc & Hfm & _ & Hj). split_and!; try done.
    intros fd'. simpl. rewrite lookup_partial_alter_ne by congruence. apply Hfm.
  - destruct Hw as (Hd & Hout & Hc & Hfm & _ & Hj). split_and!; try done.
    intros fd'. simpl. destruct (decide (fd = fd')) as [<-|Hf]; [by rewrite !lookup_partial_alter_eq|].
    rewrite !lookup_partial_alter_ne by congruence. apply Hfm.
Qed.

Lemma write_at_one (c : bytes) pos x : pos < length c → write_at c pos [x] = <[pos := x]> c.
Proof.
  intros H. unfold write_at. rewrite insert_take_drop by done. rewrite (proj2 (Nat.sub_0_le pos (length c))) by lia.
  simpl. by rewrite Nat.add_1_r.
Qed.

(** The next byte is written. *)
Lemma wr_put p a x j fm w fd c : (p = pid ∨ p = cpid) → wr p a x j fm w → j < 64 → a + 64 ≤ total →
  v_files w !! (d, www) = Some c →
  let w' := Vfs (v_dirs w) (<[(d, www) := write_at c (a + j) [x]]> (v_files w))
              (<[(p, fd) := FFile (d, www) (a + j + length [x]) false]> (v_fds w)) in
  wr_act p a w w' ∧ wr p a x (S j) (<[fd := FFile (d, www) (a + j + length [x]) false]> fm) w'.
Proof.
  intros Hp Hw Hj Ha Hcw. pose proof Hw as (Hd & Hout & (c0 & Hc0 & Hlen & Hx) & Hfm & Hkeys & _).
  rewrite Hcw in Hc0. injection Hc0 as <-. rewrite write_at_one by lia. intros w'.
  assert (∀ f, f ≠ www → v_files w' !! (d, f) = None) as Hout'.
  { intros f Hf. simpl. rewrite lookup_insert_ne by (intros E; apply Hf; symmetry; exact (f_equal snd E)). by apply Hout. }
  assert (∀ key f off app, v_fds w' !! key = Some (FFile (d, f) off app) → key.1 = pid ∨ key.1 = cpid) as Hkeys'.
  { intros key f off app. simpl. destruct (decide (key = (p, fd))) as [->|Hk]; [done|].
    rewrite lookup_insert_ne by done. apply Hkeys. }
  assert (v_files w' !! (d, www) = Some (<[a + j := x]> c)) as Hc' by (by apply lookup_insert_eq).
  split.
  - intros q b y Hq Hab j0 fm0 (_ & _ & (c1 & Hc1 & _ & Hy) & Hfm0 & _ & Hj0). split_and!; try done.
    + exists (<[a + j := x]> c). split_and!; [done|by rewrite length_insert|].
      intros i Hi. rewrite list_lookup_insert_ne by lia. rewrite Hcw in Hc1. injection Hc1 as <-. by apply Hy.
    + intros fd'. simpl. rewrite lookup_insert_ne by congruence. apply Hfm0.
  - split_and!; [done|done| | |done|lia].
    + exists (<[a + j := x]> c). split_and!; [done|by rewrite length_insert|].
      intros i Hi. destruct (decide (i = j)) as [->|Hij]; [apply list_lookup_insert_eq; lia|].
      rewrite list_lookup_insert_ne by lia. apply Hx. lia.
    + intros fd'. simpl. destruct (decide (fd = fd')) as [<-|Hf]; [by rewrite !lookup_insert_eq|].
      rewrite !lookup_insert_ne by congruence. apply Hfm.
Qed.

Section part_process.
Context (p : Z) (Hp : p = pid ∨ p = cpid) (a : nat) (x : ascii) (Ha : a + 64 ≤ total).
Context (OK : vfs → prog → Prop) `{HRuns : !Runs p (wr_rely p a x) (wr_act p a) OK}.

Ltac next w Hw := apply runs_call; let w1 := fresh "w1" in let H := fresh "H" in
  intros w1 H; specialize (H _ _ Hw); clear w Hw; rename w1 into w; rename H into Hw.

Lemma write_loop_ok n j fd k w : j + n = 64 → wr p a x j {[fd := FFile (d, www) (a + j) false]} w →
  (∀ w', wr p a x 64 {[fd := FFile (d, www) (a + 64) false]} w' → OK w' k) → OK w (write_loop n fd x k).
Proof.
  revert j w. induction n as [|n IH]; intros j w Hj Hw Hk.
  { apply Hk. rewrite Nat.add_0_r in Hj. by subst j. }
  cbn [write_loop]. next w Hw. pose proof Hw as (_ & _ & (c & Hc & _) & Hfm & _).
  assert (v_fds w !! (p, fd) = Some (FFile (d, www) (a + j) false)) as Hfd by (rewrite Hfm; apply lookup_singleton_eq).
  split; [exists (Ret 1 0 [] []); eexists; by eapply p_write|].
  intros r w2 [Hr ->]%(posix_write _ _ _ _ _ _ _ _ _ Hfd Hc).
  destruct (wr_put p a x j _ w fd c Hp Hw) as [Hact Hw2]; [lia|done|done|]. rewrite insert_singleton_eq in Hw2.
  split; [exact Hact|]. apply passed; [by rewrite Hr|]. clear Hact Hw Hfm Hfd Hc Hr.
  revert Hw2. match goal with |- wr _ _ _ _ _ ?w → _ => generalize w end. clear w c. intros w Hw.
  next w Hw. pose proof Hw as (_ & _ & _ & Hfm & _). split.
  { exists (Ret 0 0 [] []). eexists. eapply p_fsync; [|done]. rewrite Hfm, lookup_singleton_eq. eauto. }
  intros r3 w3 Hs. inversion Hs; subst. split; [apply wr_act_refl|]. apply passed; [lia|].
  apply (IH (S j)); [lia| |done]. by replace (a + S j) with (a + j + length [x]) by (simpl; lia).
Qed.

Lemma write1_ok dp k w : dir_path d dp → wr p a x 0 ∅ w → (∀ w', wr p a x 64 ∅ w' → OK w' k) →
  OK w (write1 dp www (Z.of_nat a) 64 x k).
Proof.
  intros Hdp Hw Hk. unfold write1. next w Hw. split; [exists (Ret 0 0 [] []), w; constructor|].
  intros r w' Hs. inversion Hs; subst. clear Hs. split; [apply wr_act_refl|].
  apply (ok_path d); [done|reflexivity|]. intros Hfile. revert Hfile. generalize (path_of dp www). intros n Hfile.
  assert (∀ fd w, (0 <= fd)%Z → wr p a x 0 {[fd := FFile (d, www) 0 false]} w →
    OK w (check (0 <=? fd)%Z; l ⇐ Lseek fd (Z.of_nat a); check (r_val l =? Z.of_nat a)%Z;
      write_loop 64 fd x (c ⇐ Close fd; check (r_val c =? 0)%Z; k))) as Hgo.
  { clear w' Hw. intros fd w H0 Hw. apply passed; [lia|]. next w Hw. pose proof Hw as (_ & _ & _ & Hfm & _).
    assert (v_fds w !! (p, fd) = Some (FFile (d, www) 0 false)) as Hfd by (rewrite Hfm; apply lookup_singleton_eq). split.
    { exists (Ret (Z.of_nat a) 0 [] []). eexists. eapply p_lseek; [done|lia|done]. }
    intros r2 w2 Hs. inversion Hs as [| | | | | | | | | | | |fd' n' f' off' app' r' Hfd' Hn' Hr'| | | | | |]; subst.
    rewrite Hfd in Hfd'. injection Hfd' as <- <- <-. rewrite Nat2Z.id.
    destruct (wr_fds p a x 0 _ w fd (Some (FFile (d, www) a false)) Hp Hw) as [Hact Hw2]. split; [exact Hact|].
    apply passed; [lia|]. eapply (write_loop_ok 64 0); [done| |].
    { rewrite Nat.add_0_r.
      eassert (wr p a x 0 (<[fd := FFile (d, www) a false]> {[fd := FFile (d, www) 0 false]}) _) as Hw3 by exact Hw2.
      rewrite insert_singleton_eq in Hw3. exact Hw3. }
    clear w Hw Hfm Hfd Hs Hact Hw2. intros w Hw. next w Hw. pose proof Hw as (_ & _ & _ & Hfm & _). split.
    { exists (Ret 0 0 [] []). eexists. eapply p_close; [|done]. rewrite Hfm, lookup_singleton_eq. eauto. }
    intros r3 w3 Hs. inversion Hs; subst. destruct (wr_fds p a x 64 _ w fd None Hp Hw) as [Hact Hw3].
    split; [exact Hact|]. apply passed; [lia|]. apply Hk.
    eassert (wr p a x 64 (delete fd {[fd := FFile (d, www) (a + 64) false]}) _) as Hw4 by exact Hw3.
    rewrite delete_singleton_eq in Hw4. exact Hw4. }
  assert (∀ w fl r w', wr p a x 0 ∅ w → posix p w (Open n fl) r w' → fl ≠ O_WRONLY_APPEND →
    ((0 <= r_val r)%Z ∧ wr_act p a w w' ∧ wr p a x 0 {[r_val r := FFile (d, www) 0 false]} w') ∨
    (fl = O_WRONLY_CREAT ∧ r_val r = (-1)%Z ∧ r_errno r = EEXIST ∧ w' = w)) as Hopen.
  { clear w' Hw. intros w fl r' w' Hw Hs Hfl. pose proof Hw as (_ & _ & (c & Hc & _) & _).
    apply (posix_open _ _ _ _ _ _ _ _ Hfile Hc) in Hs as [[H0 ->]|Hs]; [left|by right].
    destruct (wr_fds p a x 0 ∅ w (r_val r') (Some (FFile (d, www) 0 false)) Hp Hw) as [Hact Hw'].
    destruct fl; (split_and!; [done|exact Hact|exact Hw']) || done. }
  assert (∀ w fl, wr p a x 0 ∅ w → possible p w (Open n fl)) as Hposs.
  { intros w0 fl Hw0. pose proof Hw0 as (_ & _ & (c & Hc & _) & _). destruct (fresh_fd p w0) as (fd & H0 & Hfd).
    exists (Ret fd 0 [] []). eexists. eapply p_open; [exact Hfile|by rewrite Hc|done|done]. }
  next w' Hw. split; [by apply Hposs|]. intros r2 w2 Hs.
  apply Hopen in Hs as [(H0 & Hact & Hw2)|(_ & Hv & He & ->)]; [..|done|done].
  - split; [done|]. cbv zeta. destruct (Z.ltb_spec (r_val r2) 0); [lia|]. cbn [andb]. by apply Hgo.
  - split; [apply wr_act_refl|]. cbv zeta. rewrite Hv, He. cbn [Z.ltb Z.compare andb Z.eqb Pos.eqb EEXIST].
    next w' Hw. split; [by apply Hposs|]. intros r3 w3 Hs.
    apply Hopen in Hs as [(H0 & Hact & Hw3)|(? & _)]; [..|done|done]; [|done]. split; [done|]. by apply Hgo.
Qed.
End part_process.

Lemma wr_start w p a x : has {[www := huge]} w → (p = pid ∨ ∀ fd, v_fds w !! (p, fd) = None) → wr p a x 0 ∅ w.
Proof.
  intros (Hd & Hm & Hfm & Hsafe) Hp. split_and!; [done| | | | |lia].
  - intros f Hf. rewrite Hm by done. by apply lookup_singleton_ne.
  - exists huge. rewrite Hm by done. split_and!; [exact (lookup_singleton_eq _ _)|unfold huge, total; rewrite length_replicate; reflexivity|lia].
  - intros fd. destruct Hp as [->|Hp]; [apply Hfm|by rewrite Hp, lookup_empty].
  - intros key f off app E. left. by eapply Hsafe.
Qed.

Lemma part_read (c : bytes) a x n : (∀ i, i < n → c !! (a + i) = Some x) → take n (drop a c) = replicate n x.
Proof.
  intros H. apply list_eq_same_length with (n := n); [by rewrite length_replicate| |].
  - rewrite length_take, length_drop. destruct n; [lia|]. pose proof (H n ltac:(lia)) as Hl%lookup_lt_Some. lia.
  - intros i y z Hi Hy Hz. rewrite lookup_take_lt, lookup_drop, H in Hy by lia. apply lookup_replicate in Hz as [-> _]. congruence.
Qed.

Lemma wr_done w a b x y : wr pid a x 64 ∅ w → wr cpid b y 64 ∅ w →
  ∃ c, has {[www := c]} w ∧ take 64 (drop a c) = replicate 64 x ∧ take 64 (drop b c) = replicate 64 y.
Proof.
  intros (Hd & Hout & (c & Hc & _ & Hx) & Hfm & Hkeys & _) (_ & _ & (c' & Hc' & _ & Hy) & Hfc & _).
  rewrite Hc in Hc'. injection Hc' as <-. exists c. split; [|split; by apply part_read]. split_and!; [done| |done|].
  - intros f _. destruct (decide (f = www)) as [->|Hf]; [by rewrite lookup_singleton_eq|].
    rewrite lookup_singleton_ne by done. by apply Hout.
  - intros [p fd] f off app E _. exfalso. destruct (Hkeys _ _ _ _ E) as [Ep|Ep]; simpl in Ep; subst p;
      [rewrite Hfm in E|rewrite Hfc in E]; by rewrite lookup_empty in E.
Qed.
End parts.

Lemma concurrent_writes_ok w : has ∅ w → main_ok pid w (concurrent_writes d1 d2 (Exit 0)).
Proof.
  intros Hw. unfold concurrent_writes. lab. rewrite insert_empty in Hw0.
  set (b := Z.to_nat 65536). assert (65536%Z = Z.of_nat b) as Hb by (unfold b; lia).
  assert (b + 64 ≤ total ∧ 64 ≤ b) as [Hbt Hb64] by (unfold b, total; lia). clearbody b.
  split; [apply Hw0|]. intros cpid H0 Hne Hc.
  exists (wr_rely cpid pid 0 "1"%char), (wr_act cpid pid 0), (wr_rely cpid cpid b "2"%char), (wr_act cpid cpid b), (wr cpid cpid b "2"%char 64 ∅).
  split_and!; try apply _.
  - intros w1 w2 H. apply H; [done|]. right. lia.
  - intros w1 w2 H. apply H; [done|]. left. lia.
  - rewrite Hb. eapply (write1_ok cpid cpid); [by right|done|apply _|done|by apply wr_start; [|right]|].
    intros w1 Hw1. split; [done|]. intros w2 Hr2. by apply Hr2.
  - apply passed; [lia|]. change (write1 d1 (lit "www") 0) with (write1 d1 (lit "www") (Z.of_nat 0)).
    eapply (write1_ok cpid pid); [by left|lia|apply _|done|by apply wr_start; [|left]|].
    intros w1 Hw1. apply par_reap; [done|]. intros w2 Hr2 HQ. apply Hr2 in Hw1.
    destruct (wr_done cpid w2 0 b "1"%char "2"%char Hw1 HQ) as (c & Hw2 & Hc1 & Hc2).
    do 2 (alone checkread_ok; [eassumption|reflexivity|eassumption|reflexivity|by apply lookup_singleton_eq|done|exact Hc1|]; intros ? ?).
    do 2 (rewrite ?Hb; alone checkread_ok; [eassumption|reflexivity|eassumption|reflexivity|by apply lookup_singleton_eq|lia|rewrite Nat2Z.id; exact Hc2|]; intros ? ?).
    reflexivity.
Qed.

Lemma concurrent_same_ok k w : has ∅ w → (∀ w', has ∅ w' → main_ok pid w' k) → main_ok pid w (concurrent_same d1 d2 k).
Proof.
  intros Hw Hk. apply same_files_ok; [done..|]. intros w1 Hw1. do 3 lab. by apply Hk.
Qed.

Lemma concurrent_same_server_ok k w : has ∅ w → (∀ w', has ∅ w' → main_ok pid w' k) → main_ok pid w (concurrent_same_server d1 k).
Proof.
  intros Hw Hk. apply same_files_ok; [done..|]. intros w1 Hw1. do 2 lab. by apply Hk.
Qed.

Lemma test_b_ok w : has ∅ w → main_ok pid w
  (create_then_read d1 d2 (unlink_test d1 d2 (append_test d1 d2 (readdir_test d1 d2 (many_creates d1 d2 (write_big d1 d2
  (concurrent_creates d1 d2 (concurrent_same d1 d2 (concurrent_create_delete d1 d2 (concurrent_same_server d1
  (concurrent_writes d1 d2 (Exit 0)))))))))))).
Proof.
  intros Hw. apply create_then_read_ok; [done|]. intros w1 Hw1. apply unlink_test_ok; [done|]. intros w2 Hw2.
  apply append_test_ok; [done|]. intros w3 Hw3. apply readdir_test_ok; [done|]. intros w4 Hw4.
  apply many_creates_ok; [done|]. intros w5 Hw5. apply write_big_ok; [done|]. intros w6 Hw6.
  apply concurrent_creates_ok; [done|]. intros w7 Hw7. apply concurrent_same_ok; [done|]. intros w8 Hw8.
  apply concurrent_create_delete_ok; [done|]. intros w9 Hw9. apply concurrent_same_server_ok; [done|]. intros w10 Hw10.
  by apply concurrent_writes_ok.
Qed.

End test_b.
End logic.

(** ** The programs *)

(** Nothing of the directory [d] is there yet, and the process has no descriptors. *)
Definition clean (pid : Z) (d : bytes) (w : vfs) : Prop :=
  d ∉ v_dirs w ∧ (∀ f, v_files w !! (d, f) = None) ∧ (∀ fd, v_fds w !! (pid, fd) = None) ∧
  ∀ key f off app, v_fds w !! key ≠ Some (FFile (d, f) off app).

Definition made (d : bytes) (w : vfs) : vfs := Vfs ({[d]} ∪ v_dirs w) (v_files w) (v_fds w).

Lemma clean_made pid d w : clean pid d w → st pid d (λ _, true) ∅ ∅ (made d w).
Proof.
  intros (Hd & Hf & Hfd & Hno). split_and!; simpl.
  - set_solver.
  - intros f _. by rewrite Hf, lookup_empty.
  - intros fd. by rewrite Hfd, lookup_empty.
  - intros key f off app E _. by apply Hno in E.
Qed.

Lemma dir_of_path mounts m d : m ∈ mounts → slash ∉ d → dir_of mounts (m ++ slash :: d) = Some d.
Proof. intros Hm Hd. unfold dir_of. rewrite last_slash_app by done. by rewrite decide_True. Qed.

Lemma show_no_slash z : (0 <= z)%Z → slash ∉ show_u64 z.
Proof. intros Hz Hin. pose proof (show_u64_digits z Hz) as H. rewrite Forall_forall in H. by apply H in Hin. Qed.

Section first_calls.
Context (mounts : list bytes) (pid : Z).

Lemma main_getpid k w : (∀ r, r_val r = pid → main_ok mounts pid w (k r)) → main_ok mounts pid w (Call Getpid k).
Proof.
  intros Hk. split; [by exists (Ret pid 0 [] []), w; constructor|]. intros r w' Ha. inversion Ha; subst. by apply Hk.
Qed.

Lemma main_mkdir p d k w : dir_of mounts p = Some d → d ∉ v_dirs w → (∀ r, r_val r = 0%Z → main_ok mounts pid (made d w) (k r)) →
  main_ok mounts pid w (Call (Mkdir p) k).
Proof.
  intros Hp Hd Hk. split; [exists (Ret 0 0 [] []); eexists; by eapply p_mkdir|].
  intros r w' Ha. inversion Ha; subst. simplify_eq. by apply Hk.
Qed.

Lemma main_access p d k w : dir_of mounts p = Some d → d ∈ v_dirs w → (∀ r, r_val r = 0%Z → main_ok mounts pid w (k r)) →
  main_ok mounts pid w (Call (Access p) k).
Proof.
  intros Hp Hd Hk. split; [exists (Ret 0 0 [] []); eexists; by eapply p_access|].
  intros r w' Ha. inversion Ha; subst. simplify_eq. by apply Hk.
Qed.
End first_calls.

Lemma sprintf512_fits s k : (size s <= 480)%Z → sprintf512 s k = k s.
Proof. intros H. unfold sprintf512. by destruct (Z.ltb_spec (size s) 512); [|lia]. Qed.

(** A run of the program [p] as process [pid] from the world [w]: it ends, no check
    fails on the way, and it is never stuck before its end. *)
Definition passes (mounts : list bytes) (pid : Z) (w : vfs) (p : prog) : Prop :=
  sn (lstep mounts pid) (Config w p None) ∧
  ∀ c, rtc (lstep mounts pid) (Config w p None) c → passing c ∧ (finished c ∨ ∃ c', lstep mounts pid c c').

(** C31: test-lab-3-b passes on every file system that is mounted at its two directories
    and behaves as POSIX says, whatever descriptors, answers and orders of the calls of
    its two processes the system chooses: no check fails and both processes come to their
    end.  Assumed: neither directory path with "/d" and the process number is longer than
    480 bytes (the program prints file names into buffers of 512, and none then
    overflows), the directory "d" with the process number is not there yet, and no call
    fails for lack of space, descriptors or processes. *)
Theorem test_lab_3_b_passes argv1 argv2 pid w :
  (0 <= pid)%Z → clean pid (lit "d" ++ show_u64 pid) w →
  (size (argv1 ++ lit "/d" ++ show_u64 pid) <= 480)%Z → (size (argv2 ++ lit "/d" ++ show_u64 pid) <= 480)%Z →
  passes [argv1; argv2] pid w (test_lab_3_b 3 argv1 argv2).
Proof.
  intros Hpid Hw Hs1 Hs2. apply main_ok_run. unfold test_lab_3_b. apply passed; [done|].
  assert (slash ∉ lit "d" ++ show_u64 pid) as Hsl.
  { apply not_elem_of_app. split; [by apply (bool_decide_eq_true_1 _); vm_compute|by apply show_no_slash]. }
  assert (∀ m, m ∈ [argv1; argv2] → dir_of [argv1; argv2] (m ++ lit "/d" ++ show_u64 pid) = Some (lit "d" ++ show_u64 pid)) as Hdir.
  { intros m Hm. by apply dir_of_path. }
  apply main_getpid. intros r ->. rewrite sprintf512_fits by done.
  eapply main_mkdir; [apply Hdir; by left|apply Hw|]. intros r1 ->. apply passed; [done|].
  apply main_getpid. intros r2 ->. rewrite sprintf512_fits by done.
  eapply main_access; [apply Hdir; by right; left|simpl; set_solver|]. intros r3 ->. apply passed; [done|].
  eapply test_b_ok; [by split; [apply Hdir; left|]|by split; [apply Hdir; right; left|]|by apply clean_made].
Qed.

Lemma clean_empty pid d : clean pid d (Vfs ∅ ∅ ∅).
Proof. split_and!; simpl; [set_solver|done|done|by intros ? ? ? ? ?]. Qed.

Lemma test_lab_3_b_passes_witness :
  passes [lit "./yfs1"; lit "./yfs2"] 77 (Vfs ∅ ∅ ∅) (test_lab_3_b 3 (lit "./yfs1") (lit "./yfs2")).
Proof.
  apply (test_lab_3_b_passes (lit "./yfs1") (lit "./yfs2") 77 (Vfs ∅ ∅ ∅)).
  - lia.
  - apply clean_empty.
  - vm_compute. discriminate.
  - vm_compute. discriminate.
Defined.

(** C32: test-lab-3-c passes on every file system that is mounted at its two directories
    and behaves as POSIX says, in any interleaving of its processes: they create and delete
    files in two directories beside each other, and the one file that each leaves is what
    both mounts show.  Assumed: neither directory path with "/da" and the process number is
    longer than 480 bytes, the directories "da" and "db" with the process number are not
    there yet, and no call fails for lack of space, descriptors or processes. *)
Theorem test_lab_3_c_passes argv1 argv2 pid w :
  (0 <= pid)%Z → clean pid (lit "da" ++ show_u64 pid) w → clean pid (lit "db" ++ show_u64 pid) w →
  (size (argv1 ++ lit "/da" ++ show_u64 pid) <= 480)%Z → (size (argv2 ++ lit "/da" ++ show_u64 pid) <= 480)%Z →
  passes [argv1; argv2] pid w (test_lab_3_c 3 argv1 argv2).
Proof.
  intros Hpid Hwa Hwb Hs1 Hs2. apply main_ok_run. unfold test_lab_3_c. apply passed; [done|].
  assert (∀ x, x = lit "da" ∨ x = lit "db" → slash ∉ x ++ show_u64 pid) as Hsl.
  { intros x Hx. apply not_elem_of_app. split; [|by apply show_no_slash].
    destruct Hx as [-> | ->]; by apply (bool_decide_eq_true_1 _); vm_compute. }
  assert (∀ m x, m ∈ [argv1; argv2] → x = lit "da" ∨ x = lit "db" →
    dir_of [argv1; argv2] (m ++ slash :: x ++ show_u64 pid) = Some (x ++ show_u64 pid)) as Hdir.
  { intros m x Hm Hx. apply dir_of_path; [done|by apply Hsl]. }
  assert (lit "da" ++ show_u64 pid ≠ lit "db" ++ show_u64 pid) as Hne by done.
  assert (size (argv2 ++ lit "/db" ++ show_u64 pid) <= 480)%Z as Hs3 by (rewrite !size_app in *; exact Hs2).
  apply main_getpid. intros r ->. rewrite sprintf512_fits by done.
  eapply main_mkdir; [apply (Hdir argv1 (lit "da")); [by left|by left]|apply Hwa|]. intros r1 ->. apply passed; [done|].
  apply main_getpid. intros r2 ->. rewrite sprintf512_fits by done.
  eapply main_mkdir; [apply (Hdir argv2 (lit "db")); [by right; left|by right]|simpl; destruct Hwb; set_solver|].
  intros r3 ->. apply passed; [done|].
  apply main_getpid. intros r4 ->. rewrite sprintf512_fits by done.
  eapply main_access; [apply (Hdir argv2 (lit "da")); [by right; left|by left]|simpl; set_solver|]. intros r5 ->. apply passed; [done|].
  eapply (test_c_ok _ _ (lit "da" ++ show_u64 pid) (lit "db" ++ show_u64 pid)).
  - done.
  - split; [apply (Hdir argv1 (lit "da")); [by left|by left]|done].
  - split; [apply (Hdir argv2 (lit "db")); [by right; left|by right]|done].
  - destruct (clean_made _ _ _ Hwa) as (Hd & Hrest). split; [simpl in *; set_solver|exact Hrest].
  - destruct (clean_made _ _ _ Hwb) as (Hd & Hrest). split; [simpl in *; set_solver|exact Hrest].
Qed.

Lemma test_lab_3_c_passes_witness :
  passes [lit "./yfs1"; lit "./yfs2"] 77 (Vfs ∅ ∅ ∅) (test_lab_3_c 3 (lit "./yfs1") (lit "./yfs2")).
Proof.
  apply (test_lab_3_c_passes (lit "./yfs1") (lit "./yfs2") 77 (Vfs ∅ ∅ ∅)).
  - lia.
  - apply clean_empty.
  - apply clean_empty.
  - vm_compute. discriminate.
  - vm_compute. discriminate.
Defined.

(** ** What the check of the contents misses *)
Lemma c_str_no_NUL a : NUL ∉ a → c_str a = a.
Proof.
  induction a as [|c a IH]; [done|]. intros [Hc Ha]%not_elem_of_cons. simpl. rewrite IH by done.
  by rewrite decide_False by done.
Qed.

(** [check1] compares as many characters as the path of the file has, not as many as
    were read: a file with other bytes after that passes it. *)
Theorem check1_misses_damage mounts pid d p bufsz f input c k m w :
  dir_path mounts d p → nice f = true → st pid d (λ _, true) m ∅ w → m !! f = Some c →
  size c = size input → (size c < bufsz)%Z → NUL ∉ c → NUL ∉ input →
  take (length (path_of p f)) c = take (length (path_of p f)) input →
  (∀ w', st pid d (λ _, true) m ∅ w' → main_ok mounts pid w' k) →
  main_ok mounts pid w (check1 bufsz p f input k).
Proof.
  intros Hp Hn Hw Hf Hs Hb Hc Hi Heq Hk.
  eapply (check1_ok mounts pid d (λ _, true) eq (λ _ _, True)); [apply _|apply main_rely|done|done|done|done|done|done|done|done| |done].
  apply bool_decide_eq_true. rewrite to_nat_size, !c_str_no_NUL by done. done.
Qed.
